(* ===== verification/_CoqProject ===== *)
-Q . S2P
Prelude.v
Bytes.v
Strs.v
Json.v
Surface.v
Env.v
Roster.v
Chain.v
Checkpoint.v
WikiFold.v
WikiPatch.v
WikiPatchProps.v
WikiPatchRun.v
Vault.v
Cuts.v
Standing.v
Ledger.v
Verify.v
Walk.v
WalkProps.v
Approvals.v
Tamper.v
Prune.v
Projection.v
Reads.v
Export.v
Demo.v
Witnesses.v
Window.v
Delivery.v
Chunk.v
Hold.v
Calendar.v
Series.v
Civil.v
Cycle.v
Kanban.v
Board.v
BoardProps.v
Canonicalize.v
KanbanJson.v
KanbanRun.v
Dates.v
DatesProps.v
Wake.v
WakeLoop.v
WakeProps.v
WakeTimer.v
WakeRest.v
WakeRun.v
Votes.v
VotesProps.v
VotesInv.v
VotesRun.v
Actions.v
ActionsRun.v
View.v
ViewProps.v
ViewRun.v
Sync.v
Fork.v
SyncInv.v
SyncProps.v
Catchup.v
SyncBounds.v
SyncRun.v
FilePlane.v
FilePlaneProps.v
Fetch.v
FetchInv.v
FetchProps.v
FetchLive.v
Rootless.v
Trickle.v
TrickleProps.v
Share.v
Ask.v
FilesRun.v
