(* ===== verification/Prelude.v ===== *)
(** * MoltRepublic: the republic's chain and its folds, verified

    MoltRepublic is a program for small self-governed groups.  A republic is
    founded by n members who sign one founding table; every later change is a
    block of a hash-linked chain that needs the approval of m of them.  Each
    member holds the chain and verifies it alone; what the group owns (its
    constitution, its shared memory, its vault records) is a fold over the
    verified chain; old history is replaced by signed summaries (compaction
    cuts).  This library models that core and proves what makes it correct:
    the signed bytes are unambiguous, the verifier enforces the rules it
    states, the incremental walk equals the batch projection, and a holder
    that pruned its history agrees with one that did not.  Around the chain it
    models the votes that lead to a block, the board of tasks, the transport's
    part in delivering events, and the files members share.

    ** Parts and files

    [Prelude]: fallible code ([outcome] with [Ok], [Err] and [Panic]), the
    notations for [?] and early returns, the inversion tactic [run_inv],
    machine widths, list and set lemmas.

    [Bytes]: canonical byte layouts (crates/molt-core/src/lib.rs, [put_bytes],
    [put_count]).  A layout is a sequence of pieces; the class [SelfDelim]
    states that a piece can be told from what follows it, and the tactic
    [peel] takes two equal layouts apart field by field.

    [Strs], [Json]: the functions of Rust strings and of [serde_json::Value]
    the code uses.  [Surface]: the surfaces and the canonical feature lists
    (crates/molt-core/src/lib.rs).

    [Env]: the interface to code outside the repository (hash, signatures,
    hex, JSON serialization, curve checks), a class every definition that
    reaches it takes as an argument.  What a theorem needs of it is a named
    hypothesis: [json_faithful], [hex_faithful]; a hash collision is never
    excluded but appears as an alternative in the conclusion ([collision]).
    [Demo] is an instance in which both hypotheses are proved.

    [Roster]: the founding table and the republic id
    (crates/molt-core/src/lib.rs [roster_canonical_bytes];
    crates/molt-storage/src/lib.rs [republic_id]).  [Chain]: changes, blocks,
    the bytes members sign and links hash, restore consents
    (crates/molt-core/src/chain.rs).  [Checkpoint]: checkpoint states, the
    last-write-wins rule, the layouts v6 to v10 (same file).

    [WikiFold]: the shared-memory fold (crates/molt-core/src/wiki_fold.rs).
    [WikiPatch]: the emitter of patches (crates/molt-core/src/wiki_patch.rs) over
    the diff library, the class [WikiPatch.Similar] with the hypothesis
    [WikiPatch.similar_faithful] that its hunks replay; [WikiPatchProps],
    [WikiPatchRun]: its theory and a run with a diff that proves the hypothesis.
    [Vault]: vault records, layouts and the rules a walk applies
    (crates/molt-core/src/vault.rs, crates/molt-vault, and
    crates/molt-engine/src/vault).  [Cuts]: the wiki and vault summaries and
    [fold_cut] (crates/molt-engine/src/chain/mod.rs, wiki_base.rs,
    vault_base.rs).

    [Ledger]: the sorted ledgers and the binary search of the standard
    library, refined to finite maps.  [Verify]: one block (signers, genesis,
    consents, [verify_next]).  [Walk]: [ChainWalk], [step], the projection
    and the two walkers.  All of crates/molt-engine/src/chain/verify.rs.

    [WalkProps], [Approvals], [Tamper], [Prune]: the theory of the walk.
    [Projection], [Reads]: what a holder reads
    (crates/molt-engine/src/chain/projection.rs, proposals.rs [org_effective])
    and whether pruning changes it.  [Export]: the wiki export and its
    verifier (crates/molt-engine/src/wiki_export.rs).
    [Demo], [Witnesses]: a small republic that is founded, signed, cut and
    walked by evaluation, and the theorems at it.

    [Standing]: what an open card is judged against: the vault projection
    (crates/molt-engine/src/vault/deposit.rs, fold.rs) and the folded wiki
    (proposals.rs).
    [Votes]: the votes on open proposals up to the block that is sealed
    (crates/molt-engine/src/chain/governance.rs, proposals.rs): signatures,
    declines, withdrawals, what is parked until its card arrives, and the cards
    that an arriving vault or memory card retires and reopens.  Its
    state is the record [Votes.Votes], the fields of the engine's state these
    operations read and write.  [VotesProps], [VotesInv], [VotesRun]: its
    theory, a step relation over its operations, and a run.

    [Sync]: how a node takes blocks from its peers
    (crates/molt-engine/src/chain/sync.rs, with the parts of governance.rs,
    projection.rs and checkpoint.rs it calls): buffers, tie-breaks,
    reorganisations, served summaries, the history dropped at a cut.  Its state
    is the record [Sync.Node], the chain's fields of the engine's state; an
    [event] is an arriving block or summary, a block sealed here, the clock, or
    the disk starting or ceasing to take what is written.  What the votes seal
    while they are re-based is the input [n_seals].  [Fork]: the order of the
    fork choice.  [SyncInv], [SyncProps]: the history behind a node.
    [Catchup], [SyncBounds], [SyncRun]: reaching the chain, the bounds, a run.

    [Calendar], [Series]: the calendar of the board
    (crates/molt-core/src/kanban_calendar.rs) over an interface to the date
    library, the classes [Calendar.Chrono] and [Calendar.ChronoLaws]; [Civil]
    is the proleptic Gregorian calendar as an instance, with the laws proved.
    [Cycle], [Kanban], [Board], [KanbanJson]: the board of tasks
    (crates/molt-core/src/kanban_fold.rs): the cycle search, the shape of a
    changeset, the fold, the JSON.  [BoardProps], [Canonicalize], [KanbanRun]:
    its theory and a run.  [Dates], [DatesProps]: deadlines, flags and the
    order of work (crates/molt-core/src/kanban_dates.rs).

    [Wake]: the due starts of a seat (crates/molt-core/src/kanban_wake.rs).
    [WakeLoop]: the task timer, the triggers and the beat
    (crates/molt-engine/src/wake.rs); its state is [WakeLoop.WakeState] with the
    persisted keys beside it, what the engine holds at a step the record
    [WakeLoop.Host], and a run a sequence of [WakeLoop.WEvent].  [WakeProps]:
    the scan.  [WakeTimer], [WakeRest]: the timer over runs, the refinement of
    an eager timer, the spacing.  [WakeRun]: a run.  [Actions], [ActionsRun]: the list a
    woken seat reads, composed of the votes, the board and the pokes.
    [View], [ViewProps], [ViewRun]: the board's JSON as an agent reads it
    (crates/molt-core/src/kanban_view.rs): filters, lists, one task with its
    prerequisites; case folding is the class [View.CaseFold].

    [Window]: the accepted windows (crates/molt-core/src/lib.rs).
    [Delivery]: the broadcast outbox, as a system with relays that lose,
    repeat and reorder (crates/molt-net/src/group_runtime.rs, supervisor.rs).
    [Chunk]: chunks and their reassembly (chunk.rs).  [Hold]: frames held for
    a later epoch (epoch_hold.rs).

    [FilePlane]: pieces, their sealing, manifests and sinks of the shared files
    (crates/molt-net/src/file_plane.rs, envelope.rs), over the class
    [FilePlane.Sealing] for cipher, key derivation and base64, with the
    hypothesis [FilePlane.sealing_faithful]; [FilePlaneProps] its theory.
    [Fetch]: [fetch_series_v2_with] with its candidate store; time, frames and
    the disk are a list of events.  A sink is an instance of the class
    [FilePlane.PieceSink], what a fetch relies on the class
    [FetchInv.SinkLaws], proved for a byte vector.  [FetchInv], [FetchProps],
    [FetchLive], [Rootless]: the invariant, authenticity, completion, and the
    fetch without a root.  [Trickle]: the queue that publishes pieces and the
    frame that asks for them (trickle.rs, piece_want.rs, crates/molt-core/src/lib.rs
    [FileJobs]); a tick is split into the decision on the queue it loaded and
    the update of the queue it finds afterwards.  [TrickleProps], [Share],
    [Ask]: its theory and its composition with the fetch.  [FilesRun]: a run.

    ** How the model corresponds to the code

    A Rust function is a Rocq function of the same name.  [Result] is
    [outcome]; a call that aborts the process ([expect] in a layout whose
    length does not fit, an overflow-checked addition, [unreachable!]) is
    [Panic].  A function that mutates through [&mut] returns the mutated value
    beside its result, on failure too ([Walk.step], [Walk.fold_one]), so that
    atomicity is a theorem and not an artefact of the model.  Error strings
    are constructors of [Verify.ChainError].  [BTreeMap] and [HashMap] are
    [gmap], iterated in key order where the code iterates; [BTreeSet] is
    [gset]; [u8] and [u64] are [N] with the checks the code makes.  Strings
    are byte strings.

    ** What the theorems show

    Layouts: [Chain.signature_covers_change], [Chain.consent_covers_restore],
    [Chain.consent_string_unique], [Checkpoint.checkpoint_hash_commits],
    [Tamper.republic_id_commits], [Checkpoint.lww_slots_faithful],
    [Surface.canonical_features_unique]: distinct meanings have distinct
    bytes.

    The verifier: [WalkProps.walk_accepts_valid] refines the walk to a
    declarative validity of each block against its prefix;
    [WalkProps.step_atomic], [WalkProps.no_double_apply],
    [WalkProps.walk_is_projection], [Approvals.block_approved],
    [Approvals.genesis_unanimous], [Approvals.fork_accountable],
    [Approvals.consent_not_replayed] and [Tamper.head_commits_chain] are what
    acceptance is worth.

    Compaction: [Cuts.wiki_fold_in_stages], [Prune.pruned_holder_agrees] (a
    simulation between the two holders, over continuations that bring no base
    entry of their own), [Reads.pruned_reads_agree] (what is read alike always,
    and what under which condition),
    [Projection.lww_summary_answers].

    Shared memory: [WikiFold.hunks_apply_exactly],
    [WikiFold.patch_touches_named], [WikiFold.wiki_tree_paths],
    [WikiFold.wiki_base_roundtrip], [WikiPatchProps.patch_roundtrip] (what the
    emitter writes, the applier reproduces), [Export.wiki_export_authentic],
    [Export.wiki_export_complete].

    Reads: [Projection.project_one_rebuild], [Projection.features_only_grow],
    [Projection.relay_splits_exact], [Projection.minted_id_fresh],
    [Reads.relay_pool_connected], [Ledger.ledger_refines_map].

    Votes: [VotesProps.sealed_block_counts] (what this node seals, the
    verifier counts), [VotesProps.decline_order_irrelevant],
    [VotesProps.decline_tips_exactly], [VotesInv.verdict_is_final] (the
    exception is a vault card a replace turned down).

    Catch-up: [SyncProps.node_history] (whatever arrives of one universe of
    blocks, the node holds the end of a history the walk accepts, and
    histories only move up in the fork order, a partial order),
    [Catchup.catchup_any_order] (the blocks of an extension, in any order,
    lead to the whole chain), [SyncBounds.sync_bounded].

    The board: [BoardProps.board_invariant], [BoardProps.lifecycle_exact],
    [BoardProps.fold_step_exact], [Cycle.find_cycle_correct],
    [Canonicalize.adds_name_proposer], [KanbanJson.board_json_injective],
    [KanbanJson.calendar_json_roundtrip].  Its calendar:
    [Calendar.position_is_walk] (the closed form equals walking day by day),
    [Series.next_hit_first], [Series.expand_exact].  Its dates:
    [DatesProps.derive_exact], [DatesProps.priority_exact],
    [DatesProps.impact_exact] (the passes over the order with dependents first
    compute what is defined over paths of blocked tasks).

    Waking: [WakeProps.start_scan_exact], [WakeTimer.starts_consumed_once],
    [WakeRest.timer_rest_refines] (where a revision names one board, resting
    the timer changes nothing that can be seen), [WakeRest.wakes_spaced],
    [Actions.read_actions_exact].  They assume a clock that does not go back
    and years of four digits.

    The view: [ViewProps.task_detail_exact] (the breadth-first search finds
    every prerequisite at its distance), [ViewProps.view_list_exact],
    [ViewProps.resolve_task_spec].

    Files: [FetchProps.fetch_authentic] (by root: the file or nothing),
    [Rootless.fetch_committed] (by content hash), [Share.share_arrives] (what
    the sender publishes completes a fetch), [Rootless.fetch_never_spins],
    [TrickleProps.daily_cap_holds], [TrickleProps.queue_invariant],
    [TrickleProps.turn_is_fair], [Ask.ask_exact], [Ask.bitmap_mark_spec].

    Delivery: [Window.accept_window_exact], [Delivery.acked_floor_honest],
    [Delivery.granted_round_reoffers], [Delivery.resend_rate_bounded],
    [Chunk.reassembly_converges], [Chunk.reassembler_bounded],
    [Chunk.chunks_uniform], [Chunk.resend_id_fresh], [Hold.drain_terminates].

    Departures of the code from what it documents, each as an execution of
    the model: [Reads.relay_pool_lost_at_cut], [Reads.blank_name_parts_readers],
    [Witnesses.base_entry_parts_holders], [Witnesses.consent_seals_twice],
    [Witnesses.wiki_path_escapes], [Witnesses.wiki_move_overwrites],
    [Witnesses.wiki_patch_drops_cr], [SyncRun.foreign_genesis_taken],
    [Ask.range_jobs_starve], [WikiPatchRun.patch_path_misread],
    [WakeRun.rest_from_start], [WakeRun.test_outcome_lost],
    [WakeRun.rests_on_swapped_board].

    ** Bounds and fuel

    Most recursion is structural.  Elsewhere the fuel is a bound that is
    proved to be enough.  The binary search takes its slice length, which
    halving cannot exhaust ([Ledger.search_base_spec]); the tree decoder the
    length of its input, of which every entry consumes at least eight bytes
    ([WikiFold.read_entries_put]); the cycle search one step per task, per link
    and per task it starts from, and a search that ran out would say so
    ([Cycle.find_cycle_correct]); the drain of the hold one pass
    more than there are items ([Hold.drain_terminates]).  The loops over a
    node's buffers take a turn per entry and one, and more would change nothing
    ([SyncBounds.drain_loop_fuel], [SyncBounds.linked_run_fuel],
    [SyncBounds.buffered_run_fuel]); shedding ends within the bound
    ([SyncBounds.shed_bound]).  A fetch takes at most three turns more than it
    has rivals before it waits ([Rootless.turns_end]); a reader is asked once
    per byte it holds and once more ([FilePlaneProps.manifest_of_reader_exact]).
    The levels of a task's prerequisites take one turn per id that is mentioned
    and two ([ViewProps.detail_loop_spec]).
    The order with dependents first takes one turn per task and one.  The search for the
    next occurrence keeps the code's own turn limits, which lose nothing
    ([Series.next_hit_first]), and the expansion the code's own budget.

    ** Not modelled

    Of the votes: the surface checks before a card, the holder check a deposit
    card starts (it writes no card), the caches of the folded wiki and of parsed
    patches, the bookkeeping after a
    block and the rebase of pending votes, so that their composition with
    catch-up is an input of [Sync].  Of catch-up: the cards a reorganisation
    reopens, the reports on lag and stale signers; its history theorem is for a
    republic without vault keys and without served summaries.  Of the board: the
    review, which renders texts, and of its view the calendar rows and the
    reader of one proposal.  Of a wake: the environment of its process and the places that
    record a poke.  Of the files: the older series, the
    pacing of one publish, the engine's sinks on disk and its jobs; completion
    is proved for pieces in the publisher's order.  The pruning simulation is for a republic
    without a vault.  Inbound delivery in order and the remaining helpers of
    molt-core are left out.  Wire formats and sockets, storage on disk, the treasury,
    configuration and the front ends are I/O or wrap third-party code and are
    left out. *)

From Stdlib Require Export Strings.Byte Strings.Ascii.
From stdpp Require Export base list sorting gmap strings.

Declare Scope molt_scope.
Delimit Scope molt_scope with molt.
#[global] Open Scope molt_scope.

(** ** Fallible code

    [Ok] and [Err] are the two arms of a Rust [Result]; [Panic] is the third
    way out of a Rust call: an [expect] on a value that is absent, or a
    checked arithmetic operation that overflows (the workspace builds with
    [overflow-checks = true]). *)
Inductive outcome (E A : Type) : Type :=
  | Ok (a : A)
  | Err (e : E)
  | Panic.
Arguments Ok {E A} a.
Arguments Err {E A} e.
Arguments Panic {E A}.

Definition obind {E A B} (m : outcome E A) (k : A → outcome E B) : outcome E B :=
  match m with Ok a => k a | Err e => Err e | Panic => Panic end.

(** The [?] operator. *)
Notation "'let?' x ':=' m 'in' k" := (obind m (λ x, k))
  (at level 10, x binder, m at level 100, k at level 200) : molt_scope.

(** An early return: [if c { return Err(e) }]. *)
Notation "'reject' c 'with' e 'else' k" := (if (c : bool) then Err e else k)
  (at level 10, c at level 100, e at level 100, k at level 200) : molt_scope.

Definition expect {E A} (o : option A) : outcome E A :=
  match o with Some a => Ok a | None => Panic end.

Definition ok_or {E A} (o : option A) (e : E) : outcome E A :=
  match o with Some a => Ok a | None => Err e end.

(** [o.is_some()]. *)
Definition is_some {A} (o : option A) : bool := match o with Some _ => true | None => false end.

Definition is_ok {E A} (m : outcome E A) : bool :=
  match m with Ok _ => true | _ => false end.

Definition omap_err {E F A} (f : E → F) (m : outcome E A) : outcome F A :=
  match m with Ok a => Ok a | Err e => Err (f e) | Panic => Panic end.

(** ** Inversion of successful runs *)

Lemma Ok_inj {E A} (a b : A) : Ok (E:=E) a = Ok b → a = b.
Proof. by intros [= ->]. Qed.

Lemma obind_ok {E A B} (m : outcome E A) (k : A → outcome E B) b :
  obind m k = Ok b ↔ ∃ a, m = Ok a ∧ k a = Ok b.
Proof. destruct m; simpl; split; [eauto|intros (?&[= <-]&?)|intros [=]|intros (?&[=]&_)|intros [=]|intros (?&[=]&_)]; done. Qed.

Lemma expect_ok {E A} (o : option A) a : expect (E:=E) o = Ok a ↔ o = Some a.
Proof. destruct o; naive_solver. Qed.

Lemma ok_or_ok {E A} (o : option A) (e : E) a : ok_or o e = Ok a ↔ o = Some a.
Proof. destruct o; naive_solver. Qed.

Lemma omap_err_ok {E F A} (f : E → F) (m : outcome E A) a :
  omap_err f m = Ok a ↔ m = Ok a.
Proof. destruct m; simpl; split; congruence. Qed.

Lemma reject_ok {E A} (c : bool) (e : E) (k : outcome E A) a :
  (if c then Err e else k) = Ok a ↔ c = false ∧ k = Ok a.
Proof. destruct c; split; try done; by intros [? ?]. Qed.

(** [run_inv H] takes a successful run [H : m = Ok a] apart: one hypothesis
    per guard it passed and per intermediate result. *)
Ltac run_inv1 H :=
  lazymatch type of H with
  | obind ?m _ = Ok _ =>
      let a := fresh "a" in let H1 := fresh "Hrun" in let H2 := fresh "Hrun" in
      apply obind_ok in H as (a & H1 & H2); run_inv1 H1; run_inv1 H2
  | expect _ = Ok _ => apply expect_ok in H
  | ok_or _ _ = Ok _ => apply ok_or_ok in H
  | omap_err _ _ = Ok _ => apply omap_err_ok in H; run_inv1 H
  | (if ?c then Err _ else _) = Ok _ =>
      let H1 := fresh "Hguard" in let H2 := fresh "Hrun" in
      apply reject_ok in H as [H1 H2]; run_inv1 H2
  | Err _ = Ok _ => discriminate H
  | Panic = Ok _ => discriminate H
  | Ok _ = Ok _ => apply Ok_inj in H
  | _ => idtac
  end.
Tactic Notation "run_inv" hyp(H) := run_inv1 H.

(** Boolean guards to propositions. *)
Ltac to_prop :=
  repeat match goal with
  | H : negb _ = false |- _ => apply negb_false_iff in H
  | H : negb _ = true |- _ => apply negb_true_iff in H
  | H : (_ || _) = false |- _ => apply orb_false_iff in H as [? ?]
  | H : (_ && _) = true |- _ => apply andb_true_iff in H as [? ?]
  | H : bool_decide _ = true |- _ => apply bool_decide_eq_true in H
  | H : bool_decide _ = false |- _ => apply bool_decide_eq_false in H
  | H : (_ =? _)%N = true |- _ => apply N.eqb_eq in H
  | H : (_ =? _)%N = false |- _ => apply N.eqb_neq in H
  | H : (_ <? _)%N = true |- _ => apply N.ltb_lt in H
  | H : (_ <? _)%N = false |- _ => apply N.ltb_ge in H
  | H : (_ <=? _)%N = true |- _ => apply N.leb_le in H
  | H : (_ <=? _)%N = false |- _ => apply N.leb_gt in H
  end.

(** ** Machine widths *)
Definition u8_max : N := 255.
Definition u32_max : N := 4294967295.
Definition u64_max : N := 18446744073709551615.

(** [u64] addition under overflow checks. *)
Definition u64_checked_add (a b : N) : option N :=
  if (a + b <=? u64_max)%N then Some (a + b)%N else None.

Definition u64_saturating_add (a b : N) : N := N.min (a + b) u64_max.

(** The length of a Rust collection, as the [usize] it is. *)
Definition len {A} (l : list A) : N := N.of_nat (length l).

Lemma len_nil {A} : len (@nil A) = 0%N.
Proof. done. Qed.

Lemma len_cons {A} (x : A) l : len (x :: l) = (1 + len l)%N.
Proof. unfold len. simpl. lia. Qed.

Lemma len_app {A} (l k : list A) : len (l ++ k) = (len l + len k)%N.
Proof. unfold len. rewrite length_app. lia. Qed.

(** A mask of one bit keeps that bit. *)
Lemma land_pow2 word b : N.land word (2 ^ b) = if N.testbit word b then (2 ^ b)%N else 0%N.
Proof.
  apply N.bits_inj. intros i. rewrite N.land_spec, N.pow2_bits_eqb.
  destruct (N.eqb_spec b i) as [->|Hne].
  - destruct (N.testbit word i); simpl; [by rewrite N.pow2_bits_true|by rewrite ?N.bits_0].
  - rewrite andb_false_r. destruct (N.testbit word b); [|by rewrite ?N.bits_0].
    symmetry. by apply N.pow2_bits_false.
Qed.

Lemma land_bit_test word b : negb (N.land word (2 ^ b) =? 0)%N = N.testbit word b.
Proof.
  rewrite land_pow2. destruct (N.testbit word b); [|done].
  apply negb_true_iff, N.eqb_neq, N.pow_nonzero. done.
Qed.

(** ** Lists *)

(** Equal concatenations of equally long heads split pointwise. *)
Lemma app_inj_len {A} (a b r s : list A) :
  length a = length b → a ++ r = b ++ s → a = b ∧ r = s.
Proof. intros Hl He. by apply app_inj_1. Qed.

Lemma existsb_true {A} (f : A → bool) l : existsb f l = true ↔ ∃ x, x ∈ l ∧ f x = true.
Proof.
  rewrite existsb_exists. split; intros (x & Hx & Hf); exists x;
    (split; [by apply list_elem_of_In|done]).
Qed.

Lemma existsb_false {A} (f : A → bool) l : existsb f l = false ↔ ∀ x, x ∈ l → f x = false.
Proof.
  rewrite <-not_true_iff_false, existsb_true. split.
  - intros H x Hx. destruct (f x) eqn:?; [|done]. exfalso; eauto.
  - intros H (x & Hx & Hf). rewrite H in Hf; done.
Qed.

Lemma forallb_true {A} (f : A → bool) l : forallb f l = true ↔ ∀ x, x ∈ l → f x = true.
Proof.
  rewrite forallb_forall. split; intros H x Hx; apply H; by apply list_elem_of_In.
Qed.

(** ** Sets of listed elements *)

Lemma size_list_to_set_le `{Countable A} (l : list A) :
  (size (list_to_set l : gset A) ≤ length l)%nat.
Proof.
  induction l as [|x l IH]; simpl; [done|].
  destruct (decide (x ∈ (list_to_set l : gset A))) as [Hx|Hx].
  - rewrite subseteq_union_1_L by set_solver. lia.
  - rewrite size_union, size_singleton by set_solver. lia.
Qed.

Lemma size_list_to_set_full `{Countable A} (l : list A) :
  size (list_to_set l : gset A) = length l → NoDup l.
Proof.
  induction l as [|x l IH]; simpl; [constructor|]. intros Hs.
  pose proof (size_list_to_set_le l) as Hle.
  destruct (decide (x ∈ (list_to_set l : gset A))) as [Hx|Hx].
  - rewrite subseteq_union_1_L in Hs by set_solver. lia.
  - rewrite size_union, size_singleton in Hs by set_solver.
    constructor; [by rewrite elem_of_list_to_set in Hx|apply IH; lia].
Qed.

Create HintDb molt.
