(* ===== verification/Bytes.v ===== *)
(** * Canonical byte layouts

    The framing every signed or hashed layout of the republic is built from
    (crates/molt-core/src/lib.rs, [put_bytes] and [put_count]; the
    fixed-width [to_le_bytes] pushes of crates/molt-core/src/chain.rs), and
    the theory that makes such a layout unambiguous.

    A layout is written as a sequence of pieces.  A [piece] is the bytes one
    Rust statement appends to [out], or [None] where that statement panics
    (a length beyond the framing width).  A family of pieces is
    [SelfDelim] when the bytes it wrote can be told from whatever follows
    them; layouts made of such families are injective, field by field. *)

From S2P Require Import Prelude.

Abbreviation bytes := (list byte).

#[export] Instance byte_eq_dec : EqDecision byte := Byte.byte_eq_dec.

(** The byte of a number below 256. *)
Definition byte_of (n : N) : byte := default x00 (Byte.of_N (n mod 256)).

(** [s.as_bytes()]. *)
Definition as_bytes (s : string) : bytes := String.list_byte_of_string s.

(** [x.to_le_bytes()] at a width of [k] bytes. *)
Fixpoint le_bytes (k : nat) (n : N) : bytes :=
  match k with
  | O => []
  | S k => byte_of n :: le_bytes k (n / 256)
  end.

(** [uN::from_le_bytes]. *)
Fixpoint of_le_bytes (l : bytes) : N :=
  match l with
  | [] => 0
  | b :: l => (Byte.to_N b + 256 * of_le_bytes l)%N
  end.

Definition piece : Type := option bytes.

Definition papp (p q : piece) : piece :=
  match p, q with Some a, Some b => Some (a ++ b) | _, _ => None end.

Infix "+++" := papp (at level 60, right associativity) : molt_scope.

Definition pnil : piece := Some [].

(** [out.extend_from_slice(..)] of a constant, e.g. a domain tag. *)
Definition put_raw (b : bytes) : piece := Some b.

(** A domain tag: a byte-string literal closed by a NUL. *)
Definition put_tag (s : string) : piece := put_raw (as_bytes s ++ [x00]).

(** [out.push(x)] for a [u8]. *)
Definition put_u8 (n : N) : piece :=
  if (n <=? u8_max)%N then Some (le_bytes 1 n) else None.

(** [out.extend_from_slice(&x.to_le_bytes())] for a [u64]; also the entry
    counts of the chain layouts, whose [u64::try_from] panics beyond it. *)
Definition put_u64 (n : N) : piece :=
  if (n <=? u64_max)%N then Some (le_bytes 8 n) else None.

(** [put_count]: a [u32] entry count. *)
Definition put_count (n : N) : piece :=
  if (n <=? u32_max)%N then Some (le_bytes 4 n) else None.

(** [put_bytes]: a [u32] length, then the bytes. *)
Definition put_bytes (b : bytes) : piece :=
  if (len b <=? u32_max)%N then Some (le_bytes 4 (len b) ++ b) else None.

Definition put_str (s : string) : piece := put_bytes (as_bytes s).

(** [for x in xs { .. }] over a writer body. *)
Fixpoint put_each {A} (f : A → piece) (l : list A) : piece :=
  match l with
  | [] => pnil
  | x :: l => f x +++ put_each f l
  end.

(** A run counted in [u32] and one counted in [u64]. *)
Definition put_run32 {A} (f : A → piece) (l : list A) : piece :=
  put_count (len l) +++ put_each f l.

Definition put_run64 {A} (f : A → piece) (l : list A) : piece :=
  put_u64 (len l) +++ put_each f l.

(** ** Little endian *)

Lemma byte_of_to_N n : Byte.to_N (byte_of n) = (n mod 256)%N.
Proof.
  unfold byte_of. destruct (Byte.of_N (n mod 256)) eqn:E; simpl.
  - by apply Byte.to_of_N.
  - apply Byte.of_N_None_iff in E.
    pose proof (N.mod_upper_bound n 256). lia.
Qed.

Lemma length_le_bytes k n : length (le_bytes k n) = k.
Proof. revert n; induction k; intros; simpl; auto. Qed.

Lemma of_le_bytes_le_bytes k n :
  of_le_bytes (le_bytes k n) = (n mod 256 ^ N.of_nat k)%N.
Proof.
  revert n; induction k as [|k IH]; intros n; simpl of_le_bytes; simpl le_bytes.
  - by rewrite N.mod_1_r.
  - rewrite byte_of_to_N, IH, Nat2N.inj_succ, N.pow_succ_r'.
    by rewrite N.Div0.mod_mul_r.
Qed.

Lemma le_bytes_inj k n m :
  (n < 256 ^ N.of_nat k)%N → (m < 256 ^ N.of_nat k)%N →
  le_bytes k n = le_bytes k m → n = m.
Proof.
  intros Hn Hm H. apply (f_equal of_le_bytes) in H.
  rewrite !of_le_bytes_le_bytes, !N.mod_small in H; done.
Qed.

Lemma le_bytes_of_le_bytes l : le_bytes (length l) (of_le_bytes l) = l.
Proof.
  induction l as [|b l IH]; simpl; [done|].
  pose proof (Byte.to_N_bounded b).
  assert (Hd : ((Byte.to_N b + 256 * of_le_bytes l) / 256 = of_le_bytes l)%N).
  { rewrite N.mul_comm, N.div_add by done. rewrite N.div_small; lia. }
  assert (Hm : byte_of (Byte.to_N b + 256 * of_le_bytes l) = b).
  { unfold byte_of. rewrite N.mul_comm, N.Div0.mod_add, N.mod_small by lia.
    by rewrite Byte.of_to_N. }
  by rewrite Hd, Hm, IH.
Qed.

Lemma as_bytes_inj s t : as_bytes s = as_bytes t → s = t.
Proof.
  intros H. apply (f_equal String.string_of_list_byte) in H.
  unfold as_bytes in H. by rewrite !String.string_of_list_byte_of_string in H.
Qed.

(** ** Pieces *)

Lemma papp_some p q b :
  p +++ q = Some b ↔ ∃ x y, p = Some x ∧ q = Some y ∧ b = x ++ y.
Proof.
  destruct p, q; simpl; split; try done.
  - intros [= <-]. eauto.
  - by intros (?&?&[= <-]&[= <-]&->).
  - by intros (?&?&?&?&?).
  - by intros (?&?&?&?&?).
  - by intros (?&?&?&?&?).
Qed.

Lemma papp_assoc p q r : (p +++ q) +++ r = p +++ (q +++ r).
Proof. destruct p, q, r; simpl; try done. by rewrite app_assoc. Qed.

Lemma papp_nil_r p : p +++ pnil = p.
Proof. destruct p; simpl; [by rewrite app_nil_r|done]. Qed.

Lemma papp_nil_l p : pnil +++ p = p.
Proof. by destruct p. Qed.

Arguments papp : simpl never.
Arguments le_bytes : simpl never.

(** The pieces of a family can be told from what follows them. *)
Class SelfDelim {A} (f : A → piece) : Prop :=
  self_delim x y k1 k2 b :
    f x +++ k1 = Some b → f y +++ k2 = Some b →
    x = y ∧ ∃ b', k1 = Some b' ∧ k2 = Some b'.

Lemma self_delim_inj {A} (f : A → piece) `{!SelfDelim f} x y b :
  f x = Some b → f y = Some b → x = y.
Proof.
  intros Hx Hy. apply (self_delim (f:=f) x y pnil pnil b); by rewrite papp_nil_r.
Qed.

(** Fixed-width families. *)
Lemma self_delim_fixed {A} (f : A → piece) (k : nat) :
  (∀ x b, f x = Some b → length b = k) →
  (∀ x y b, f x = Some b → f y = Some b → x = y) →
  SelfDelim f.
Proof.
  intros Hlen Hinj x y k1 k2 b (a1&r1&H1&Hk1&->)%papp_some (a2&r2&H2&Hk2&E)%papp_some.
  apply app_inj_len in E as [-> ->]; [|by rewrite (Hlen _ _ H1), (Hlen _ _ H2)].
  split; [by eapply Hinj|eauto].
Qed.

Lemma put_width_self_delim (k : nat) (m : N) (f : N → piece) :
  (m < 256 ^ N.of_nat k)%N →
  (∀ n, f n = if (n <=? m)%N then Some (le_bytes k n) else None) →
  SelfDelim f.
Proof.
  intros Hm Hf. apply (self_delim_fixed _ k).
  - intros x b. rewrite Hf. case_match; [|done]. intros [= <-]. apply length_le_bytes.
  - intros x y b. rewrite !Hf. repeat case_match; try done. intros [= Hx] [= Hy].
    to_prop. apply (le_bytes_inj k); [lia|lia|congruence].
Qed.

#[export] Instance put_u8_self_delim : SelfDelim put_u8.
Proof. by apply (put_width_self_delim 1 u8_max). Qed.
#[export] Instance put_u64_self_delim : SelfDelim put_u64.
Proof. by apply (put_width_self_delim 8 u64_max). Qed.
#[export] Instance put_count_self_delim : SelfDelim put_count.
Proof. by apply (put_width_self_delim 4 u32_max). Qed.

#[export] Instance put_bytes_self_delim : SelfDelim put_bytes.
Proof.
  intros x y k1 k2 b (a1&r1&H1&->&->)%papp_some (a2&r2&H2&->&E)%papp_some.
  unfold put_bytes in *.
  destruct (len x <=? u32_max)%N eqn:Hx, (len y <=? u32_max)%N eqn:Hy; try done.
  apply (inj Some) in H1, H2. subst a1 a2. to_prop.
  rewrite <-!app_assoc in E. apply app_inj_len in E as [El E]; [|by rewrite !length_le_bytes].
  apply le_bytes_inj in El; [|unfold u32_max in *; simpl; lia..].
  apply app_inj_len in E as [-> ->]; [|unfold len in El; lia]. eauto.
Qed.

#[export] Instance put_str_self_delim : SelfDelim put_str.
Proof.
  intros x y k1 k2 b H1 H2. unfold put_str in *.
  destruct (self_delim _ _ _ _ _ H1 H2) as [E ?]. split; [by apply as_bytes_inj|done].
Qed.

(** A byte was written. *)
Lemma put_u8_not_nil n k : put_u8 n +++ k ≠ Some [].
Proof.
  unfold put_u8. case_match; [|done].
  intros (x & y & Hx & _ & E)%papp_some. apply (inj Some) in Hx. subst x.
  symmetry in E. apply app_eq_nil in E as [E _].
  pose proof (length_le_bytes 1 n) as Hl. by rewrite E in Hl.
Qed.

Lemma put_bytes_not_nil b k : put_bytes b +++ k ≠ Some [].
Proof.
  unfold put_bytes. case_match; [|done].
  intros (x & y & Hx & _ & E)%papp_some. apply (inj Some) in Hx. subst x.
  symmetry in E. apply app_eq_nil in E as [E _]. apply app_eq_nil in E as [E _].
  pose proof (length_le_bytes 4 (len b)) as Hl. by rewrite E in Hl.
Qed.

(** The same law among the values that satisfy [P]. *)
Definition self_delim_on {A} (P : A → Prop) (f : A → piece) : Prop :=
  ∀ x y k1 k2 b, P x → P y →
    f x +++ k1 = Some b → f y +++ k2 = Some b →
    x = y ∧ ∃ b', k1 = Some b' ∧ k2 = Some b'.

(** A run of a known length. *)
Lemma put_each_self_delim_on {A} (P : A → Prop) (f : A → piece) l1 l2 k1 k2 b :
  self_delim_on P f → Forall P l1 → Forall P l2 → length l1 = length l2 →
  put_each f l1 +++ k1 = Some b → put_each f l2 +++ k2 = Some b →
  l1 = l2 ∧ ∃ b', k1 = Some b' ∧ k2 = Some b'.
Proof.
  intros Hf HP1. revert l2 b; induction HP1 as [|x l1 Hx HP1 IH]; intros [|y l2] b HP2 Hl; try done; simpl.
  - rewrite !papp_nil_l. intros. eauto.
  - rewrite !papp_assoc. intros H1 H2. apply Forall_cons in HP2 as [Hy HP2].
    destruct (Hf _ _ _ _ _ Hx Hy H1 H2) as (-> & b' & H1' & H2').
    destruct (IH l2 b') as [-> ?]; auto.
Qed.

Lemma put_run_self_delim_on {A} (P : A → Prop) (c : N → piece) (f : A → piece) `{!SelfDelim c} :
  self_delim_on P f → self_delim_on (Forall P) (λ l, c (len l) +++ put_each f l).
Proof.
  intros Hf x y k1 k2 b Hx Hy. rewrite !papp_assoc. intros H1 H2.
  destruct (self_delim _ _ _ _ _ H1 H2) as (El & b' & H1' & H2').
  apply (put_each_self_delim_on P f x y k1 k2 b'); [done..|unfold len in El; lia|done|done].
Qed.

#[export] Instance put_run_self_delim {A} (c : N → piece) (f : A → piece)
  `{!SelfDelim c, !SelfDelim f} : SelfDelim (λ l, c (len l) +++ put_each f l).
Proof.
  intros x y k1 k2 b. apply (put_run_self_delim_on (λ _, True)); [apply _| |by apply Forall_true..].
  intros ????? _ _. apply self_delim.
Qed.

#[export] Instance put_run32_self_delim {A} (f : A → piece) `{!SelfDelim f} :
  SelfDelim (put_run32 f).
Proof. unfold put_run32. apply _. Qed.
#[export] Instance put_run64_self_delim {A} (f : A → piece) `{!SelfDelim f} :
  SelfDelim (put_run64 f).
Proof. unfold put_run64. apply _. Qed.

(** An uncounted run that ends the buffer, of pieces that are never empty. *)
Lemma put_each_tail_inj {A} (f : A → piece) `{!SelfDelim f} l1 l2 b :
  (∀ x b, f x = Some b → b ≠ []) →
  put_each f l1 = Some b → put_each f l2 = Some b → l1 = l2.
Proof.
  intros Hne. revert l2 b; induction l1 as [|x l1 IH]; intros [|y l2] b H1 H2; [done|..]; simpl in *.
  - injection H1 as <-. apply papp_some in H2 as (a&r&Ha&_&E).
    apply Hne in Ha. by destruct a.
  - injection H2 as <-. apply papp_some in H1 as (a&r&Ha&_&E).
    apply Hne in Ha. by destruct a.
  - destruct (self_delim _ _ _ _ _ H1 H2) as (-> & b' & H1' & H2').
    by rewrite (IH l2 b').
Qed.

(** Two pieces in a row, and a change of the index. *)
#[export] Instance papp_pair_self_delim {A B} (f : A → piece) (g : B → piece)
  `{!SelfDelim f, !SelfDelim g} : SelfDelim (λ p : A * B, f p.1 +++ g p.2).
Proof.
  intros [x1 x2] [y1 y2] k1 k2 b. rewrite !papp_assoc. simpl. intros H1 H2.
  destruct (self_delim _ _ _ _ _ H1 H2) as (-> & b1 & H1' & H2').
  destruct (self_delim _ _ _ _ _ H1' H2') as (-> & ?). eauto.
Qed.

Lemma self_delim_via {A B} (f : B → piece) (h : A → B) `{!SelfDelim f} :
  (∀ x y, h x = h y → x = y) → SelfDelim (λ x, f (h x)).
Proof.
  intros Hh x y k1 k2 b H1 H2.
  destruct (self_delim _ _ _ _ _ H1 H2) as [E ?]. eauto.
Qed.

(** [peel H1 H2]: the next piece of two equal layouts agrees. *)
Ltac peel1 H1 H2 :=
  rewrite ?papp_assoc in H1; rewrite ?papp_assoc in H2;
  let E := fresh "E" in let b := fresh "b" in
  let G1 := fresh "G" in let G2 := fresh "G" in
  destruct (self_delim _ _ _ _ _ H1 H2) as (E & b & G1 & G2);
  clear H1 H2; rename G1 into H1; rename G2 into H2.
Tactic Notation "peel" hyp(H1) hyp(H2) := peel1 H1 H2.

(** Equal tags peel off. *)
Lemma put_raw_peel t k1 k2 b :
  put_raw t +++ k1 = Some b → put_raw t +++ k2 = Some b →
  ∃ b', k1 = Some b' ∧ k2 = Some b'.
Proof.
  intros (a1&r1&[= <-]&->&->)%papp_some (a2&r2&[= <-]&->&E)%papp_some.
  apply app_inv_head in E as ->. eauto.
Qed.

(** Whether two tags part within their common length. *)
Fixpoint tags_part (t1 t2 : bytes) : bool :=
  match t1, t2 with
  | a :: t1, b :: t2 => if decide (a = b) then tags_part t1 t2 else true
  | _, _ => false
  end.

Lemma put_raw_apart t1 t2 k1 k2 b :
  tags_part t1 t2 = true →
  put_raw t1 +++ k1 = Some b → put_raw t2 +++ k2 = Some b → False.
Proof.
  intros Hp (a1&r1&[= <-]&_&->)%papp_some (a2&r2&[= <-]&_&E)%papp_some.
  revert t2 r2 Hp E; induction t1 as [|c t1 IH]; intros [|d t2] r2 Hp E; simpl in *; try done.
  injection E as -> E. rewrite decide_True in Hp by done. eauto.
Qed.

Lemma put_tag_peel s k1 k2 b :
  put_tag s +++ k1 = Some b → put_tag s +++ k2 = Some b →
  ∃ b', k1 = Some b' ∧ k2 = Some b'.
Proof. apply put_raw_peel. Qed.

Lemma put_tag_apart s t k1 k2 b :
  tags_part (as_bytes s ++ [x00]) (as_bytes t ++ [x00]) = true →
  put_tag s +++ k1 = Some b → put_tag t +++ k2 = Some b → False.
Proof. apply put_raw_apart. Qed.

(** Kept folded in proofs; evaluation still computes them. *)
#[global] Opaque put_u8 put_u64 put_count put_bytes papp put_raw.
