(* ===== verification/Strs.v ===== *)
(** * Rust strings

    A [String] is its UTF-8 bytes, one Rocq [ascii] per byte.  This file has
    the functions of Rust's [str] and [String] the modelled code calls.  All
    of them are byte-exact on valid UTF-8: an ASCII separator never occurs
    inside a multi-byte character, and the lead bytes of the Unicode
    whitespace characters never occur as continuation bytes. *)

From Stdlib Require Import DecimalString DecimalN DecimalFacts.
From S2P Require Import Prelude.
#[local] Open Scope string_scope.

Definition nl : ascii := "010"%char.
Definition cr : ascii := "013"%char.

(** [s.len()], in bytes. *)
Definition str_len (s : string) : N := N.of_nat (String.length s).

(** [s.is_empty()]. *)
Definition str_empty (s : string) : bool := match s with "" => true | _ => false end.

(** [s.strip_prefix(p)]. *)
Fixpoint strip_prefix (p s : string) : option string :=
  match p, s with
  | "", _ => Some s
  | String a p, String b s => if Ascii.eqb a b then strip_prefix p s else None
  | String _ _, "" => None
  end.

(** [s.starts_with(p)]. *)
Definition starts_with (p s : string) : bool :=
  match strip_prefix p s with Some _ => true | None => false end.

Fixpoint str_rev_app (s acc : string) : string :=
  match s with "" => acc | String c s => str_rev_app s (String c acc) end.
Definition str_rev (s : string) : string := str_rev_app s "".

(** [s.strip_suffix(p)], [s.ends_with(p)]. *)
Definition strip_suffix (p s : string) : option string :=
  match strip_prefix (str_rev p) (str_rev s) with
  | Some r => Some (str_rev r) | None => None
  end.
Definition ends_with (p s : string) : bool :=
  match strip_suffix p s with Some _ => true | None => false end.

(** [s.bytes().all(f)]. *)
Fixpoint str_all (f : ascii → bool) (s : string) : bool :=
  match s with "" => true | String c s => f c && str_all f s end.

(** [s.contains(c)] for a character. *)
Definition str_has (c : ascii) (s : string) : bool :=
  negb (str_all (λ d, negb (Ascii.eqb c d)) s).

(** [s.split(c)]: never empty. *)
Fixpoint split_on (c : ascii) (s : string) : list string :=
  match s with
  | "" => [""]
  | String a s' =>
      if Ascii.eqb a c then "" :: split_on c s'
      else match split_on c s' with
           | [] => [String a ""]
           | h :: t => String a h :: t
           end
  end.

(** [s.split_once(c)]. *)
Fixpoint split_once (c : ascii) (s : string) : option (string * string) :=
  match s with
  | "" => None
  | String a s' =>
      if Ascii.eqb a c then Some ("", s')
      else match split_once c s' with
           | Some (h, t) => Some (String a h, t)
           | None => None
           end
  end.

(** [s.lines()]: the [\n]-terminated pieces, a [\r] before the [\n] removed,
    and an unterminated last piece as it is. *)
Definition strip_cr (s : string) : string :=
  match strip_suffix (String cr "") s with Some r => r | None => s end.

Fixpoint lines_of (pieces : list string) : list string :=
  match pieces with
  | [] => []
  | [last] => if str_empty last then [] else [last]
  | p :: rest => strip_cr p :: lines_of rest
  end.
Definition lines (s : string) : list string := lines_of (split_on nl s).

(** Unicode [White_Space], by encoded length. *)
Definition ws1 (a : ascii) : bool :=
  let n := N_of_ascii a in ((9 <=? n) && (n <=? 13) || (n =? 32))%N.
Definition ws2 (a b : ascii) : bool :=
  ((N_of_ascii a =? 0xC2) && ((N_of_ascii b =? 0x85) || (N_of_ascii b =? 0xA0)))%N.
Definition ws3 (a b c : ascii) : bool :=
  let x := N_of_ascii a in let y := N_of_ascii b in let z := N_of_ascii c in
  ((x =? 0xE1) && (y =? 0x9A) && (z =? 0x80)
   || (x =? 0xE2) && (y =? 0x80) &&
        ((0x80 <=? z) && (z <=? 0x8A) || (z =? 0xA8) || (z =? 0xA9) || (z =? 0xAF))
   || (x =? 0xE2) && (y =? 0x81) && (z =? 0x9F)
   || (x =? 0xE3) && (y =? 0x80) && (z =? 0x80))%N.

Definition flush_word (cur : string) (rest : list string) : list string :=
  if str_empty cur then rest else str_rev cur :: rest.

Fixpoint words_from (cur s : string) : list string :=
  match s with
  | "" => flush_word cur []
  | String a s1 =>
      if ws1 a then flush_word cur (words_from "" s1)
      else match s1 with
           | "" => flush_word (String a cur) []
           | String b s2 =>
               if ws2 a b then flush_word cur (words_from "" s2)
               else match s2 with
                    | "" => words_from (String a cur) s1
                    | String c s3 =>
                        if ws3 a b c then flush_word cur (words_from "" s3)
                        else words_from (String a cur) s1
                    end
           end
  end.
(** [s.split_whitespace()]. *)
Definition split_whitespace (s : string) : list string := words_from "" s.

(** Nothing but whitespace. *)
Definition all_ws (s : string) : bool := match split_whitespace s with [] => true | _ => false end.

(** [s.trim_end()], [s.trim_start()], [s.trim()]. *)
Fixpoint trim_end (s : string) : string :=
  match s with
  | "" => ""
  | String a s' => if all_ws s then "" else String a (trim_end s')
  end.

Fixpoint trim_start (s : string) : string :=
  match s with
  | "" => ""
  | String a s1 =>
      if ws1 a then trim_start s1
      else match s1 with
           | "" => s
           | String b s2 =>
               if ws2 a b then trim_start s2
               else match s2 with
                    | "" => s
                    | String c s3 => if ws3 a b c then trim_start s3 else s
                    end
           end
  end.

Definition trim (s : string) : string := trim_end (trim_start s).

(** [s.chars().count()]: the bytes that start a character. *)
Fixpoint chars_count (s : string) : N :=
  match s with
  | "" => 0
  | String a s' =>
      let n := N_of_ascii a in
      if ((0x80 <=? n) && (n <=? 0xBF))%N then chars_count s' else (1 + chars_count s')%N
  end.

(** [s.chars().any(char::is_control)]: the C0 and C1 controls and DEL. *)
Fixpoint has_control (s : string) : bool :=
  match s with
  | "" => false
  | String a s' =>
      let n := N_of_ascii a in
      ((n <? 0x20) || (n =? 0x7F))%N ||
      match s' with
      | String b _ => ((n =? 0xC2) && (0x80 <=? N_of_ascii b) && (N_of_ascii b <=? 0x9F))%N
      | "" => false
      end || has_control s'
  end.

(** ** Decimal *)

(** [n.to_string()]. *)
Definition to_string (n : N) : string := NilZero.string_of_uint (N.to_uint n).

(** [s.parse::<u64>()]: one optional leading [+], then digits, in range. *)
Definition parse_u64 (s : string) : option N :=
  match NilZero.uint_of_string (default s (strip_prefix "+" s)) with
  | Some d => let n := N.of_uint d in if (n <=? u64_max)%N then Some n else None
  | None => None
  end.

(** [b.is_ascii_digit()] and the lowercase hex alphabet. *)
Definition is_digit (c : ascii) : bool :=
  let n := N_of_ascii c in ((48 <=? n) && (n <=? 57))%N.
Definition is_lower_hex_char (c : ascii) : bool :=
  let n := N_of_ascii c in (is_digit c || ((97 <=? n) && (n <=? 102)))%N.
(** [b.is_ascii_hexdigit()]. *)
Definition is_hexdigit (c : ascii) : bool :=
  let n := N_of_ascii c in (is_lower_hex_char c || ((65 <=? n) && (n <=? 70)))%N.

(** ** Facts *)

#[local] Arguments String.append !_ _ / : simpl nomatch.

Lemma strip_prefix_app p s : strip_prefix p (p +:+ s) = Some s.
Proof. induction p as [|a p IH]; simpl; [done|]. by rewrite Ascii.eqb_refl. Qed.

Lemma strip_prefix_some p s r : strip_prefix p s = Some r → s = p +:+ r.
Proof.
  revert s; induction p as [|a p IH]; intros s; simpl; [by intros [= ->]|].
  destruct s as [|b s]; [done|].
  destruct (Ascii.eqb_spec a b) as [->|]; [|done]. by intros ->%IH.
Qed.

Lemma string_app_assoc (s t u : string) : (s +:+ t) +:+ u = s +:+ (t +:+ u).
Proof. induction s as [|c s IH]; simpl; [done|by rewrite IH]. Qed.

Lemma string_app_nil_r (s : string) : s +:+ "" = s.
Proof. induction s as [|c s IH]; simpl; [done|by rewrite IH]. Qed.

Lemma split_once_app c h t :
  str_has c h = false → split_once c (h +:+ String c t) = Some (h, t).
Proof.
  unfold str_has. intros Hh%negb_false_iff.
  induction h as [|a h IH]; simpl in *; [by rewrite Ascii.eqb_refl|].
  apply andb_true_iff in Hh as [Ha%negb_true_iff Hh].
  rewrite Ascii.eqb_sym, Ha, IH; done.
Qed.

Lemma split_once_some c s h t :
  split_once c s = Some (h, t) → s = h +:+ String c t ∧ str_has c h = false.
Proof.
  revert h; induction s as [|a s IH]; intros h; simpl; [done|].
  destruct (Ascii.eqb_spec a c) as [->|Hne].
  - by intros [= <- <-].
  - destruct (split_once c s) as [[h' t']|] eqn:E; [|done]. intros [= <- <-].
    destruct (IH h' eq_refl) as [-> Hh]. split; [done|].
    unfold str_has in *. simpl. apply negb_false_iff in Hh. rewrite Hh.
    destruct (Ascii.eqb_spec c a); [congruence|done].
Qed.

Lemma str_all_has f c s : str_all f s = true → f c = false → str_has c s = false.
Proof.
  intros Hs Hc. unfold str_has. apply negb_false_iff.
  induction s as [|a s IH]; simpl in *; [done|].
  apply andb_true_iff in Hs as [Ha Hs]. rewrite IH by done.
  destruct (Ascii.eqb_spec c a); [congruence|done].
Qed.

Lemma str_all_app f s t : str_all f (s +:+ t) = str_all f s && str_all f t.
Proof. induction s as [|c s IH]; simpl; [done|]. by rewrite IH, andb_assoc. Qed.

(** A rendered number is digits only, non-empty, and parses back. *)
Lemma string_of_uint_digits d : str_all is_digit (NilEmpty.string_of_uint d) = true.
Proof. induction d; simpl; done. Qed.

Lemma to_string_digits n : str_all is_digit (to_string n) = true.
Proof.
  unfold to_string, NilZero.string_of_uint.
  destruct (N.to_uint n); try done; apply string_of_uint_digits.
Qed.

Lemma to_string_head n : ∃ c s, to_string n = String c s ∧ is_digit c = true.
Proof.
  pose proof (to_string_digits n) as Hd. revert Hd.
  unfold to_string, NilZero.string_of_uint.
  destruct (N.to_uint n); simpl; intros Hd; repeat eexists.
Qed.

Lemma to_uint_not_nil n : N.to_uint n ≠ Decimal.Nil.
Proof.
  intros H. pose proof (Unsigned.to_of (N.to_uint n)) as Ho.
  rewrite Unsigned.of_to in Ho. rewrite H in Ho. done.
Qed.

Lemma parse_to_string n : (n ≤ u64_max)%N → parse_u64 (to_string n) = Some n.
Proof.
  intros Hn. unfold parse_u64.
  assert (strip_prefix "+" (to_string n) = None) as ->.
  { destruct (to_string_head n) as (c & s & -> & Hc). cbn [strip_prefix].
    destruct (Ascii.eqb_spec "+" c) as [<-|Hne]; [discriminate Hc|done]. }
  unfold to_string. simpl default. rewrite NilZero.usu by apply to_uint_not_nil.
  rewrite Unsigned.of_to. apply N.leb_le in Hn. by rewrite Hn.
Qed.

Lemma to_string_inj n m : to_string n = to_string m → n = m.
Proof.
  intros H. apply (f_equal NilZero.uint_of_string) in H. unfold to_string in H.
  rewrite !NilZero.usu in H by apply to_uint_not_nil.
  apply (inj Some) in H. by apply Unsigned.to_uint_inj.
Qed.

(** Splitting on a character and joining with it again. *)
Lemma split_on_not_nil c s : split_on c s ≠ [].
Proof. destruct s as [|a s]; simpl; [done|]. repeat case_match; done. Qed.

Lemma lines_terminated c0 s :
  lines_of (c0 :: split_on nl s) = strip_cr c0 :: lines s.
Proof. unfold lines. destruct (split_on nl s) eqn:E; [by apply split_on_not_nil in E|done]. Qed.
