(* ===== verification/Json.v ===== *)
(** * JSON payloads

    [serde_json::Value], the type of every applied payload.  The workspace
    builds serde_json without [preserve_order], so an object is a
    [BTreeMap]: an association list sorted by key.  [get], [as_str],
    [as_u64] are the accessors the modelled code uses. *)

From S2P Require Import Prelude.

#[local] Set Warnings "-register-all".

Inductive Number :=
  | PosInt (n : N)
  | NegInt (z : Z)
  | Float (bits : N).

Inductive Value :=
  | Null
  | Bool (b : bool)
  | Num (n : Number)
  | Str (s : string)
  | Array (l : list Value)
  | Object (m : list (string * Value)).

Fixpoint assoc {A} (k : string) (m : list (string * A)) : option A :=
  match m with
  | [] => None
  | (k', v) :: m => if decide (k = k') then Some v else assoc k m
  end.

Definition get (k : string) (v : Value) : option Value :=
  match v with Object m => assoc k m | _ => None end.

Definition as_str (v : Value) : option string :=
  match v with Str s => Some s | _ => None end.

Definition as_u64 (v : Value) : option N :=
  match v with Num (PosInt n) => Some n | _ => None end.

(** [payload.get(k).and_then(Value::as_str)] and its [u64] twin. *)
Definition get_str (k : string) (v : Value) : option string := get k v ≫= as_str.
Definition get_u64 (k : string) (v : Value) : option N := get k v ≫= as_u64.

(** [payload.get("op").and_then(Value::as_str)]. *)
Definition op_of (v : Value) : option string := get_str "op" v.

(** Equality of values is decidable. *)
#[export] Instance Number_eq_dec : EqDecision Number.
Proof. solve_decision. Defined.

#[export] Instance Value_eq_dec : EqDecision Value.
Proof.
  hnf. fix IH 1. intros [|b|n|s|l|m] [|b'|n'|s'|l'|m']; try (right; discriminate).
  - by left.
  - destruct (decide (b = b')); [left; congruence|right; congruence].
  - destruct (decide (n = n')); [left; congruence|right; congruence].
  - destruct (decide (s = s')); [left; congruence|right; congruence].
  - assert (Hl : Decision (l = l')).
    { revert l'. induction l as [|x l IHl]; intros [|y l']; [by left|by right|by right|].
      destruct (IH x y), (IHl l'); [left; congruence|right; congruence..]. }
    destruct Hl; [left; congruence|right; congruence].
  - assert (Hm : Decision (m = m')).
    { revert m'. induction m as [|[k x] m IHm]; intros [|[k' y] m']; [by left|by right|by right|].
      destruct (decide (k = k')), (IH x y), (IHm m'); [left; congruence|right; congruence..]. }
    destruct Hm; [left; congruence|right; congruence].
Defined.
