(* ===== verification/Surface.v ===== *)
(** * Surfaces and charter features

    crates/molt-core/src/lib.rs: the [Surface] enum, its wire names, and the
    canonical form of a feature selection ([canonical_features] on the
    proposing side, [verify_canonical_features] on the receiving side). *)

From S2P Require Import Prelude.
#[local] Open Scope string_scope.

Inductive Surface :=
  | Organization | Chat | Memory | Quests | Vault | Wallet | Files.

#[export] Instance Surface_eq_dec : EqDecision Surface.
Proof. solve_decision. Defined.

Definition ALL : list Surface := [Organization; Chat; Memory; Quests; Vault; Wallet; Files].

Definition CHECKPOINT_V7_SURFACES : list Surface :=
  [Organization; Chat; Memory; Quests; Vault; Wallet].

Definition surface_str (s : Surface) : string :=
  match s with
  | Organization => "organization"
  | Chat => "chat"
  | Memory => "memory"
  | Quests => "quests"
  | Vault => "vault"
  | Wallet => "wallet"
  | Files => "files"
  end.

Definition is_gated (s : Surface) : bool := match s with Chat => false | _ => true end.

(** [Surface::ALL.into_iter().find(|x| x.as_str() == s)]. *)
Definition surface_parse (s : string) : option Surface :=
  find (λ x, bool_decide (surface_str x = s)) ALL.

Definition is_charter_feature (s : Surface) : bool :=
  match s with Organization | Chat | Files => false | _ => true end.

Definition LEGACY_FEATURES : list string := ["memory"].

Inductive feature_error :=
  | AlwaysOn (key : string)
  | UnknownFeature (key : string)
  | NotCanonical.

Definition check_feature_key (key : string) : outcome feature_error unit :=
  match surface_parse key with
  | Some sf => if is_charter_feature sf then Ok tt else Err (AlwaysOn key)
  | None => Err (UnknownFeature key)
  end.

(** [for key in keys { Surface::check_feature_key(key)?; }]. *)
Fixpoint check_feature_keys (keys : list string) : outcome feature_error unit :=
  match keys with
  | [] => Ok tt
  | key :: keys => let? _ := check_feature_key key in check_feature_keys keys
  end.

(** [Vec::dedup]: consecutive repetitions collapse. *)
Fixpoint dedup (l : list string) : list string :=
  match l with
  | [] => []
  | x :: l =>
      match dedup l with
      | y :: r => if decide (x = y) then y :: r else x :: y :: r
      | [] => [x]
      end
  end.

(** [keys.windows(2).all(|w| w[0] < w[1])]. *)
Fixpoint strictly_sorted (l : list string) : bool :=
  match l with
  | x :: (y :: _) as l' => String.ltb x y && strictly_sorted l'
  | _ => true
  end.

Definition canonical_features (keys : list string) : outcome feature_error (list string) :=
  let? _ := check_feature_keys keys in
  Ok (dedup (merge_sort String.le keys)).

Definition verify_canonical_features (keys : list string) : outcome feature_error unit :=
  let? _ := check_feature_keys keys in
  reject (negb (strictly_sorted keys)) with NotCanonical else
  Ok tt.

(** ** Names *)

Lemma surface_parse_str s : surface_parse (surface_str s) = Some s.
Proof. by destruct s. Qed.

Lemma surface_parse_some k s : surface_parse k = Some s → k = surface_str s.
Proof.
  unfold surface_parse. intros [_ H]%find_some. by apply bool_decide_eq_true in H.
Qed.

Lemma surface_str_inj s t : surface_str s = surface_str t → s = t.
Proof. by destruct s, t. Qed.

(** ** The string order *)

Lemma ltb_le x y : String.ltb x y = true → String.le x y ∧ x ≠ y.
Proof.
  unfold String.ltb, String.le, String.leb. destruct (String.compare x y) eqn:E; try done.
  intros _. split; [done|]. intros ->.
  pose proof (String.compare_antisym y y) as Ha. by rewrite E in Ha.
Qed.

Lemma le_ltb x y : String.le x y → x ≠ y → String.ltb x y = true.
Proof.
  unfold String.ltb, String.le, String.leb. destruct (String.compare x y) eqn:E; try done.
  by apply String.compare_eq_iff in E as ->.
Qed.

Lemma ltb_trans x y z : String.ltb x y = true → String.ltb y z = true → String.ltb x z = true.
Proof.
  intros [H1 N1]%ltb_le [H2 N2]%ltb_le. apply le_ltb; [by etrans|].
  intros ->. apply N1. by apply (anti_symm String.le).
Qed.

Lemma strictly_sorted_cons x l :
  strictly_sorted (x :: l) = true ↔
  strictly_sorted l = true ∧ ∀ y, y ∈ l → String.ltb x y = true.
Proof.
  revert x; induction l as [|y l IH]; intros x.
  - simpl. split; [intros _; split; [done|]|done]. intros y. by rewrite elem_of_nil.
  - change (strictly_sorted (x :: y :: l)) with (String.ltb x y && strictly_sorted (y :: l)).
    rewrite andb_true_iff. split.
    + intros [Hxy Hs]. split; [done|]. intros z [->|Hz]%elem_of_cons; [done|].
      eapply ltb_trans; [done|]. by apply IH.
    + intros [Hs Hx]. split; [|done]. apply Hx. by left.
Qed.

Lemma dedup_elem x l : x ∈ dedup l ↔ x ∈ l.
Proof.
  induction l as [|y l IH]; simpl; [done|].
  destruct (dedup l) as [|z r] eqn:E.
  - rewrite !elem_of_cons, <-IH. set_solver.
  - case_decide as Hd; [subst z|]; rewrite !elem_of_cons, <-IH; set_solver.
Qed.

Lemma dedup_strict l : StronglySorted String.le l → strictly_sorted (dedup l) = true.
Proof.
  induction 1 as [|x l Hs IH Hall]; [done|]. simpl.
  destruct (dedup l) as [|z r] eqn:E; [done|].
  case_decide; [done|].
  apply strictly_sorted_cons. split; [done|]. intros y Hy.
  assert (y ∈ l) as Hyl by (apply dedup_elem; by rewrite E).
  assert (z ∈ l) as Hzl by (apply dedup_elem; rewrite E; by left).
  rewrite Forall_forall in Hall.
  assert (String.ltb x z = true) by (apply le_ltb; auto).
  apply elem_of_cons in Hy as [->|Hy]; [done|].
  eapply ltb_trans; [done|]. apply strictly_sorted_cons in IH as [_ IH]. auto.
Qed.

(** A strictly sorted list is determined by its elements. *)
Lemma strictly_sorted_ext l1 l2 :
  strictly_sorted l1 = true → strictly_sorted l2 = true →
  (∀ x, x ∈ l1 ↔ x ∈ l2) → l1 = l2.
Proof.
  assert (Hss : ∀ l, strictly_sorted l = true → StronglySorted String.le l ∧ NoDup l).
  { induction l as [|x l IH]; [repeat constructor|].
    intros [Hs Hx]%strictly_sorted_cons. destruct (IH Hs). split; constructor; try done.
    - apply Forall_forall. intros y Hy. apply ltb_le; auto.
    - intros Hin. by apply Hx, ltb_le in Hin as [_ ?]. }
  intros [S1 N1]%Hss [S2 N2]%Hss Hx.
  apply (StronglySorted_unique String.le); [done..|]. by apply NoDup_Permutation.
Qed.

Lemma check_feature_keys_ok keys :
  check_feature_keys keys = Ok tt ↔ ∀ k, k ∈ keys → check_feature_key k = Ok tt.
Proof.
  induction keys as [|k keys IH]; simpl.
  - split; [|done]. intros _ k. by rewrite elem_of_nil.
  - rewrite obind_ok. split.
    + intros ([] & Hk & Hr) k' [->|Hk']%elem_of_cons; [done|]. by apply IH.
    + intros H. exists tt. split; [apply H; by left|]. apply IH. intros. apply H. by right.
Qed.

Lemma canonical_features_spec keys out :
  canonical_features keys = Ok out →
  verify_canonical_features out = Ok tt ∧ (∀ k, k ∈ out ↔ k ∈ keys).
Proof.
  intros H. unfold canonical_features in H. run_inv H. destruct a. subst out.
  assert (He : ∀ k, k ∈ dedup (merge_sort String.le keys) ↔ k ∈ keys).
  { intros k. by rewrite dedup_elem, merge_sort_Permutation. }
  split; [|done]. unfold verify_canonical_features.
  assert (Hk : check_feature_keys (dedup (merge_sort String.le keys)) = Ok tt).
  { rewrite check_feature_keys_ok in Hrun |- *. intros k Hk. by apply Hrun, He. }
  rewrite Hk. simpl. rewrite dedup_strict; [done|].
  apply (StronglySorted_merge_sort String.le).
Qed.

(** ** Properties *)

(** One set, one byte form: what the proposing side
    emits passes the receiving side's check, names exactly the keys that
    were proposed, and any other selection that passes the check and names
    the same keys is the same list. *)
Theorem canonical_features_unique keys out :
  canonical_features keys = Ok out →
  verify_canonical_features out = Ok tt ∧
  (∀ k, k ∈ out ↔ k ∈ keys) ∧
  (∀ other, verify_canonical_features other = Ok tt →
     (∀ k, k ∈ other ↔ k ∈ keys) → other = out).
Proof.
  intros H. destruct (canonical_features_spec _ _ H) as [Hv He].
  split; [done|]. split; [done|]. intros other Ho Hk.
  unfold verify_canonical_features in Ho, Hv. run_inv Ho. run_inv Hv. to_prop.
  apply strictly_sorted_ext; [done..|]. intros x. by rewrite Hk, He.
Qed.

Lemma canonical_features_unique_witness :
  verify_canonical_features ["memory"; "vault"] = Ok tt.
Proof.
  apply (canonical_features_unique ["vault"; "memory"; "vault"] ["memory"; "vault"]).
  vm_compute. reflexivity.
Defined.
