(* ===== verification/Env.v ===== *)
(** * The code outside the repository

    The functions the modelled code calls and does not define, as the
    operations of one class: the hash and signature primitives (crates
    [sha2], [hex], [ed25519-dalek], [hpke], [curve25519-dalek]) and the JSON
    codec ([serde_json] and the [serde] code derived for [VaultOp]).  Every
    definition of the development that reaches one of them takes the class
    as an argument; a theorem that relies on documented behaviour of one of
    them names it as a hypothesis. *)

From S2P Require Import Prelude Bytes Strs Json.

Class Env := {
  (** [Sha256::digest]. *)
  sha256 : bytes → bytes;
  (** [hex::encode] and [hex::decode]. *)
  hex_encode : bytes → string;
  hex_decode : string → option bytes;
  (** [ed25519_dalek::VerifyingKey::from_bytes] and [verify_strict]. *)
  VerifyingKey : Type;
  vk_from_bytes : bytes → option VerifyingKey;
  verify_strict : VerifyingKey → bytes → bytes → bool;
  (** [serde_json::to_vec] of a [Value]. *)
  json_to_vec : Value → option bytes;
  (** Whether HPKE accepts 32 bytes as a recipient key ([seal_raw] in
      [canonical_vault_pk] refuses the low-order points). *)
  hpke_accepts : bytes → bool;
  (** [CompressedRistretto::decompress] finds a point. *)
  ristretto_point : bytes → bool;
}.

(** Documented behaviour of [serde_json]: serialization is faithful. *)
Definition json_faithful `{Env} : Prop :=
  ∀ v w b, json_to_vec v = Some b → json_to_vec w = Some b → v = w.

(** Two byte strings with one digest. *)
Definition collision `{Env} : Prop := ∃ x y : bytes, x ≠ y ∧ sha256 x = sha256 y.

(** Documented behaviour of [hex]: encoding is injective. *)
Definition hex_faithful `{Env} : Prop := ∀ x y, hex_encode x = hex_encode y → x = y.

(** [put_bytes(&mut out, &serde_json::to_vec(payload).expect(..))]. *)
Definition put_json `{Env} (v : Value) : piece := json_to_vec v ≫= put_bytes.

(** crates/molt-storage/src/lib.rs [content_hash]. *)
Definition content_hash `{Env} (b : bytes) : string := hex_encode (sha256 b).

(** crates/molt-storage/src/lib.rs [identity_verify]. *)
Definition identity_verify `{Env} (pk_hex : string) (msg : bytes) (sig_hex : string) : bool :=
  match hex_decode pk_hex with
  | None => false
  | Some pk_bytes =>
      if negb (length pk_bytes =? 32) then false
      else match vk_from_bytes pk_bytes with
           | None => false
           | Some vk =>
               match hex_decode sig_hex with
               | None => false
               | Some sig_bytes =>
                   if negb (length sig_bytes =? 64) then false
                   else verify_strict vk msg sig_bytes
               end
           end
  end.

Lemma put_json_self_delim `{Env} : json_faithful → SelfDelim put_json.
Proof.
  intros Hj x y k1 k2 b. unfold put_json.
  destruct (json_to_vec x) as [bx|] eqn:Ex; [|done].
  destruct (json_to_vec y) as [b'|] eqn:Ey; [|done]. simpl. intros H1 H2.
  destruct (self_delim _ _ _ _ _ H1 H2) as [-> ?]. split; [by eapply Hj|done].
Qed.

(** Equal content hashes are equal bytes, or a collision. *)
Lemma content_hash_inj `{Env} b1 b2 :
  hex_faithful → content_hash b1 = content_hash b2 → b1 = b2 ∨ collision.
Proof.
  intros Hh He%Hh. destruct (decide (b1 = b2)); [by left|]. right. by exists b1, b2.
Qed.
