(* ===== verification/Roster.v ===== *)
(** * The founding roster

    crates/molt-core/src/lib.rs: [MemberIdentity], [RosterAttestation],
    [SealedRoster] and [roster_canonical_bytes], the table every founder
    signs; crates/molt-storage/src/lib.rs: [republic_id], the
    content-derived identity of a republic. *)

From S2P Require Import Prelude Bytes Strs Json Env.
#[local] Open Scope string_scope.

Record MemberIdentity := {
  mi_member : string;
  mi_identity_pk : string;
  mi_nostr_pk : string;
  mi_vault_pk : string;
}.

Record RosterAttestation := {
  att_member : string;
  att_sig : string;
}.

#[export] Instance MemberIdentity_eq_dec : EqDecision MemberIdentity.
Proof. solve_decision. Defined.
#[export] Instance RosterAttestation_eq_dec : EqDecision RosterAttestation.
Proof. solve_decision. Defined.

(** [members.iter().any(|m| !m.vault_pk.is_empty())]. *)
Definition keyed (members : list MemberIdentity) : bool :=
  existsb (λ m, negb (str_empty (mi_vault_pk m))) members.

(** One member run; [k] is whether the layout carries vault keys. *)
Definition put_identity (k : bool) (m : MemberIdentity) : piece :=
  put_str (mi_member m) +++ put_str (mi_identity_pk m) +++ put_str (mi_nostr_pk m) +++
  (if k then put_str (mi_vault_pk m) else pnil).

Definition roster_tag (k : bool) (features : option (list string)) : string :=
  if k then "molt-roster-v6"
  else match features with Some _ => "molt-roster-v5" | None => "molt-roster-v4" end.

(** [features.or(if keyed { Some(&[]) } else { None })]. *)
Definition feature_run (k : bool) (features : option (list string)) : option (list string) :=
  match features with Some f => Some f | None => if k then Some [] else None end.

Definition roster_canonical_bytes (ws_id : string) (rule_m rule_n : N)
    (members : list MemberIdentity) (agenda : string) (relays : list string)
    (features : option (list string)) : piece :=
  let k := keyed members in
  put_tag (roster_tag k features) +++
  put_str ws_id +++
  put_u8 rule_m +++
  put_u8 rule_n +++
  put_run32 (put_identity k) members +++
  put_str agenda +++
  put_run32 put_str relays +++
  match feature_run k features with
  | Some f => put_run32 put_str f
  | None => pnil
  end.

(** [pairs.sort_unstable()] on [(&str, &str)]: lexicographic. *)
Definition pair_le (p q : string * string) : Prop :=
  if decide (p.1 = q.1) then String.le p.2 q.2 else String.le p.1 q.1.

#[export] Instance pair_le_dec p q : Decision (pair_le p q).
Proof. unfold pair_le. case_decide; apply _. Defined.

Definition sort_pairs (l : list (string * string)) : list (string * string) :=
  merge_sort pair_le l.

Definition put_pair (p : string * string) : piece := put_str p.1 +++ put_str p.2.

(** The preimage buffer [pre]. *)
Definition republic_id_bytes (name : string) (rule_m rule_n : N)
    (identities : list MemberIdentity) : piece :=
  put_str name +++ put_u8 rule_m +++ put_u8 rule_n +++
  put_run32 put_pair (sort_pairs ((λ i, (mi_identity_pk i, mi_nostr_pk i)) <$> identities)).

(** [hex::encode(Sha256::new_with_prefix(b"molt-republic-id-v2\0")..)];
    [None] where [put_bytes] panics. *)
Definition republic_id `{Env} (name : string) (rule_m rule_n : N)
    (identities : list MemberIdentity) : option string :=
  match put_tag "molt-republic-id-v2" +++ republic_id_bytes name rule_m rule_n identities with
  | Some b => Some (hex_encode (sha256 b))
  | None => None
  end.

(** ** The pair order *)

#[export] Instance pair_le_total : Total pair_le.
Proof.
  intros [a b] [c d]. unfold pair_le; simpl.
  destruct (decide (a = c)) as [->|Hne].
  - rewrite decide_True by done. apply (total String.le).
  - rewrite decide_False by congruence. apply (total String.le).
Qed.

#[export] Instance pair_le_trans : Transitive pair_le.
Proof.
  intros [a b] [c d] [e f]. unfold pair_le; simpl. intros H1 H2.
  repeat case_decide; simplify_eq; try done; try by etrans.
  exfalso. match goal with H : _ ≠ _ |- _ => apply H end. by apply (anti_symm String.le).
Qed.

#[export] Instance pair_le_antisymm : AntiSymm (=) pair_le.
Proof.
  intros [a b] [c d]. unfold pair_le; simpl. intros H1 H2.
  repeat case_decide; simplify_eq.
  - f_equal. by apply (anti_symm String.le).
  - exfalso. match goal with H : _ ≠ _ |- _ => apply H end. by apply (anti_symm String.le).
Qed.

(** Equal sorted forms are permutations of one another, and conversely. *)
Lemma sort_pairs_perm l1 l2 : sort_pairs l1 = sort_pairs l2 ↔ l1 ≡ₚ l2.
Proof.
  unfold sort_pairs. split.
  - intros H. by rewrite <-(merge_sort_Permutation pair_le l1), H, merge_sort_Permutation.
  - intros H. apply (Sorted_unique pair_le).
    + apply Sorted_merge_sort, _.
    + apply Sorted_merge_sort, _.
    + by rewrite !merge_sort_Permutation.
Qed.

(** ** Injectivity *)

#[export] Instance put_pair_self_delim : SelfDelim put_pair.
Proof. exact (papp_pair_self_delim put_str put_str). Qed.

Lemma str_empty_true s : str_empty s = true → s = "".
Proof. by destruct s. Qed.

(** The values on which a layout with flag [k] tells identities apart. *)
Definition fits (k : bool) (m : MemberIdentity) : Prop := k = false → mi_vault_pk m = "".

Lemma fits_keyed members : Forall (fits (keyed members)) members.
Proof.
  apply Forall_forall. intros m Hm Hk. unfold keyed in Hk.
  rewrite existsb_false in Hk. apply Hk, negb_false_iff, str_empty_true in Hm. done.
Qed.

Lemma fits_false_true members : Forall (fits true) members.
Proof. apply Forall_forall. by intros m _ [=]. Qed.

Lemma put_identity_self_delim k : self_delim_on (fits k) (put_identity k).
Proof.
  intros [a1 a2 a3 a4] [c1 c2 c3 c4] k1 k2 b Hx Hy H1 H2.
  unfold fits, put_identity in *; simpl in *.
  peel H1 H2. peel H1 H2. peel H1 H2. subst. destruct k.
  - peel H1 H2. subst. eauto.
  - rewrite papp_nil_l in H1. rewrite papp_nil_l in H2. rewrite Hx, Hy by done. eauto.
Qed.

Lemma put_identities_self_delim k :
  self_delim_on (Forall (fits k)) (put_run32 (put_identity k)).
Proof. apply put_run_self_delim_on; [apply _|]. apply put_identity_self_delim. Qed.

Lemma put_identities64_self_delim k :
  self_delim_on (Forall (fits k)) (put_run64 (put_identity k)).
Proof. apply put_run_self_delim_on; [apply _|]. apply put_identity_self_delim. Qed.

Lemma roster_tag_peel k1 f1 k2 f2 r1 r2 b :
  put_tag (roster_tag k1 f1) +++ r1 = Some b →
  put_tag (roster_tag k2 f2) +++ r2 = Some b →
  k1 = k2 ∧ (k1 = false → is_Some f1 ↔ is_Some f2) ∧ ∃ b', r1 = Some b' ∧ r2 = Some b'.
Proof.
  intros H1 H2.
  assert (Hd : roster_tag k1 f1 = roster_tag k2 f2).
  { destruct (decide (roster_tag k1 f1 = roster_tag k2 f2)) as [|Hne]; [done|].
    exfalso. eapply put_tag_apart; [|exact H1|exact H2].
    destruct k1, k2, f1, f2; simpl in *; done. }
  split; [by destruct k1, k2, f1, f2|]. split.
  - intros ->. destruct k2, f1, f2; try done; split; try done; by intros [? [=]].
  - rewrite Hd in H1. by eapply put_tag_peel.
Qed.

Lemma roster_bytes_inj w1 m1 n1 ms1 a1 r1 f1 w2 m2 n2 ms2 a2 r2 f2 b :
  roster_canonical_bytes w1 m1 n1 ms1 a1 r1 f1 = Some b →
  roster_canonical_bytes w2 m2 n2 ms2 a2 r2 f2 = Some b →
  w1 = w2 ∧ m1 = m2 ∧ n1 = n2 ∧ ms1 = ms2 ∧ a1 = a2 ∧ r1 = r2 ∧
  feature_run (keyed ms1) f1 = feature_run (keyed ms2) f2.
Proof.
  unfold roster_canonical_bytes. intros H1 H2.
  pose proof (fits_keyed ms1) as Hf1. pose proof (fits_keyed ms2) as Hf2.
  destruct (roster_tag_peel _ _ _ _ _ _ _ H1 H2) as (Ek & Ef & b' & G1 & G2).
  rewrite <-Ek in *. clear H1 H2.
  peel G1 G2. peel G1 G2. peel G1 G2.
  destruct (put_identities_self_delim _ _ _ _ _ _ Hf1 Hf2 G1 G2) as (-> & ? & G3 & G4).
  peel G3 G4. peel G3 G4. subst.
  do 6 (split; [done|]). unfold feature_run in *.
  destruct (keyed ms2).
  - destruct f1 as [f1|], f2 as [f2|]; f_equal;
      eapply (self_delim_inj (put_run32 put_str)); eauto.
  - specialize (Ef eq_refl).
    destruct f1 as [f1|], f2 as [f2|]; [..|done].
    + f_equal. eapply (self_delim_inj (put_run32 put_str)); eauto.
    + destruct Ef as [Ef _]. destruct Ef as [? [=]]. eauto.
    + destruct Ef as [_ Ef]. destruct Ef as [? [=]]. eauto.
Qed.

Lemma republic_id_bytes_inj n1 m1 k1 i1 n2 m2 k2 i2 b :
  republic_id_bytes n1 m1 k1 i1 = Some b → republic_id_bytes n2 m2 k2 i2 = Some b →
  n1 = n2 ∧ m1 = m2 ∧ k1 = k2 ∧
  ((λ i, (mi_identity_pk i, mi_nostr_pk i)) <$> i1) ≡ₚ ((λ i, (mi_identity_pk i, mi_nostr_pk i)) <$> i2).
Proof.
  unfold republic_id_bytes. intros H1 H2. peel H1 H2. peel H1 H2. peel H1 H2. subst.
  do 3 (split; [done|]). apply sort_pairs_perm.
  eapply (self_delim_inj (put_run32 put_pair)); eauto.
Qed.
