(* ===== verification/Chain.v ===== *)
(** * The persistent-change chain: types and signed bytes

    crates/molt-core/src/chain.rs: [ChainChange], [ChainBlock],
    [approval_bytes] (what the members sign), [block_link_bytes] (what the
    next block's [prev] hashes) and the restore consent layouts and strings.

    The theorems show that the layouts are unambiguous: the bytes a member
    signs determine the change and its position, the bytes a link hashes
    determine the block, and a consent string has one rendering. *)

From S2P Require Import Prelude Bytes Strs Json Env Surface Roster.
#[local] Open Scope string_scope.

Definition GENESIS_PREV : string :=
  "0000000000000000000000000000000000000000000000000000000000000000".

Inductive MembershipOp := Joined | Restored.

#[export] Instance MembershipOp_eq_dec : EqDecision MembershipOp.
Proof. solve_decision. Defined.

Inductive ChainChange :=
  | Genesis (name republic_id : string) (rule_m rule_n : N)
      (identities : list MemberIdentity) (agenda : string)
      (relays : list string) (features : option (list string))
  | Applied (proposal_id : N) (surface : Surface) (payload : Value)
  | Membership (op : MembershipOp) (member identity_pk : string)
      (nostr_pk : option string) (relays : list string) (consent : option string)
  | Checkpoint (upto : N) (state_hash : string)
  | CheckpointFolded (upto : N) (state_hash : string)
  | CheckpointVault (upto : N) (state_hash : string) (wiki_folded : bool).

Record ChainBlock := {
  height : N;
  prev : string;
  change : ChainChange;
  sigs : list RosterAttestation;
}.

(** The head every non-genesis change shares. *)
Definition change_head (republic_id : string) (height : N) : piece :=
  put_tag "molt-chain-change-v2" +++ put_str republic_id +++ put_u64 height.

Definition put_op (op : MembershipOp) : piece :=
  put_u8 match op with Joined => 0 | Restored => 1 end.

(** The presence discriminator of an optional transport anchor. *)
Definition put_opt_str (o : option string) : piece :=
  match o with None => put_u8 0 | Some s => put_u8 1 +++ put_str s end.

(** The conditional extensions of a membership change: a non-empty relay
    declaration behind a 1-marker, a consent behind a 2-marker. *)
Definition put_relay_ext (relays : list string) : piece :=
  match relays with [] => pnil | _ => put_u8 1 +++ put_run64 put_str relays end.
Definition put_consent_ext (consent : option string) : piece :=
  match consent with None => pnil | Some c => put_u8 2 +++ put_str c end.

Definition bool_u8 (b : bool) : N := if b then 1%N else 0%N.

Definition approval_bytes `{Env} (republic_id : string) (height : N) (change : ChainChange) : piece :=
  match change with
  | Genesis _ rid rule_m rule_n identities agenda relays features =>
      roster_canonical_bytes rid rule_m rule_n identities agenda relays features
  | Applied proposal_id surface payload =>
      change_head republic_id height +++ put_u8 1 +++
      put_u64 proposal_id +++ put_str (surface_str surface) +++ put_json payload
  | Membership op member identity_pk nostr_pk relays consent =>
      change_head republic_id height +++ put_u8 2 +++
      put_op op +++ put_str member +++ put_str identity_pk +++ put_opt_str nostr_pk +++
      put_relay_ext relays +++ put_consent_ext consent
  | Checkpoint upto state_hash =>
      change_head republic_id height +++ put_u8 3 +++ put_u64 upto +++ put_str state_hash
  | CheckpointFolded upto state_hash =>
      change_head republic_id height +++ put_u8 4 +++ put_u64 upto +++ put_str state_hash
  | CheckpointVault upto state_hash wiki_folded =>
      change_head republic_id height +++ put_u8 5 +++ put_u8 (bool_u8 wiki_folded) +++
      put_u64 upto +++ put_str state_hash
  end.

(** [restore_consent_bytes]: the legacy consent. *)
Definition put_anchor (nostr_pk : string) : piece :=
  if str_empty nostr_pk then put_u8 0 else put_u8 1 +++ put_str nostr_pk.

Definition restore_consent_bytes (republic_id member identity_pk nostr_pk : string) : piece :=
  put_tag "molt-restore-consent-v1" +++
  put_str republic_id +++ put_str member +++ put_str identity_pk +++ put_anchor nostr_pk.

Definition restore_consent_bytes_v2 (republic_id member identity_pk nostr_pk : string)
    (relays : list string) (anchor_height : N) (prev_anchor : string) : piece :=
  put_tag "molt-restore-consent-v2" +++
  put_str republic_id +++ put_str member +++ put_str identity_pk +++ put_anchor nostr_pk +++
  put_run64 put_str relays +++ put_u64 anchor_height +++ put_str prev_anchor.

Definition RESTORE_CONSENT_WINDOW : N := 1024.

Record ConsentAnchor := { ca_height : N; ca_prev_anchor : string }.

Inductive RestoreConsent :=
  | V1 (sig : string)
  | V2 (anchor_height : N) (prev_anchor sig : string).

Definition is_lower_hex (s : string) : bool := str_all is_lower_hex_char s.

(** [rest.splitn(3, ':')] yields three parts exactly when two [split_once]
    succeed. *)
Definition parse_restore_consent (s : string) : option RestoreConsent :=
  match strip_prefix "v2:" s with
  | None => Some (V1 s)
  | Some rest =>
      '(h, rest) ← split_once ":" rest;
      '(prev, sig) ← split_once ":" rest;
      anchor_height ← parse_u64 h;
      if negb (bool_decide (to_string anchor_height = h)) || negb (is_lower_hex prev)
         || str_empty sig || negb (is_lower_hex sig)
      then None
      else Some (V2 anchor_height prev sig)
  end.

Definition render_restore_consent_v2 (anchor : ConsentAnchor) (sig : string) : string :=
  "v2:" +:+ to_string (ca_height anchor) +:+ ":" +:+ ca_prev_anchor anchor +:+ ":" +:+ sig.

Definition att_pair (a : RosterAttestation) : string * string := (att_member a, att_sig a).

Definition block_link_bytes `{Env} (republic_id : string) (block : ChainBlock) : piece :=
  put_tag "molt-chain-block-v1" +++
  put_u64 (height block) +++
  put_str (prev block) +++
  (approval_bytes republic_id (height block) (change block) ≫= put_bytes) +++
  put_each put_pair (sort_pairs (att_pair <$> sigs block)).

(** What a signature over [approval_bytes] is about: the founding table for
    a genesis (whose display name is bound through the republic id, not
    here), the change at its position in its republic otherwise. *)
Inductive Signed :=
  | SignedRoster (rid : string) (rule_m rule_n : N) (identities : list MemberIdentity)
      (agenda : string) (relays : list string) (feature_run : option (list string))
  | SignedChange (rid : string) (height : N) (change : ChainChange).

Definition signed_content (republic_id : string) (height : N) (change : ChainChange) : Signed :=
  match change with
  | Genesis _ rid m n ids agenda relays features =>
      SignedRoster rid m n ids agenda relays (feature_run (keyed ids) features)
  | _ => SignedChange republic_id height change
  end.

(** ** Injectivity of the layouts *)

Lemma put_op_inj op1 op2 k1 k2 b :
  put_op op1 +++ k1 = Some b → put_op op2 +++ k2 = Some b →
  op1 = op2 ∧ ∃ b', k1 = Some b' ∧ k2 = Some b'.
Proof. unfold put_op. intros H1 H2. peel H1 H2. split; [by destruct op1, op2|eauto]. Qed.
#[export] Instance put_op_self_delim : SelfDelim put_op := put_op_inj.

#[export] Instance put_opt_str_self_delim : SelfDelim put_opt_str.
Proof.
  intros [x|] [y|] k1 k2 b; unfold put_opt_str; intros H1 H2; peel H1 H2; try done; eauto.
  peel H1 H2. subst. eauto.
Qed.

#[export] Instance put_anchor_self_delim : SelfDelim put_anchor.
Proof.
  intros x y k1 k2 b. unfold put_anchor.
  destruct (str_empty x) eqn:Ex, (str_empty y) eqn:Ey; intros H1 H2; peel H1 H2; try done.
  - apply str_empty_true in Ex as ->. apply str_empty_true in Ey as ->. eauto.
  - peel H1 H2. eauto.
Qed.

Lemma bool_u8_inj x y : bool_u8 x = bool_u8 y → x = y.
Proof. by destruct x, y. Qed.

#[export] Instance put_bool_self_delim : SelfDelim (λ x, put_u8 (bool_u8 x)).
Proof. apply self_delim_via; [apply _|]. apply bool_u8_inj. Qed.

#[export] Instance put_surface_self_delim : SelfDelim (λ x, put_str (surface_str x)).
Proof. apply self_delim_via; [apply _|]. apply surface_str_inj. Qed.

(** The two extensions together, at the end of the buffer. *)
Lemma put_consent_ext_inj c1 c2 b :
  put_consent_ext c1 = Some b → put_consent_ext c2 = Some b → c1 = c2.
Proof.
  destruct c1 as [c1|], c2 as [c2|]; unfold put_consent_ext; intros H1 H2; [..|done].
  - peel H1 H2. f_equal. by eapply (self_delim_inj put_str).
  - injection H2 as <-. by apply put_u8_not_nil in H1.
  - injection H1 as <-. by apply put_u8_not_nil in H2.
Qed.

Lemma put_relay_ext_cons x r :
  put_relay_ext (x :: r) = put_u8 1 +++ put_run64 put_str (x :: r).
Proof. done. Qed.

Lemma put_relay_consent_apart x r c c' b :
  put_relay_ext (x :: r) +++ put_consent_ext c = Some b →
  put_consent_ext c' = Some b → False.
Proof.
  rewrite put_relay_ext_cons, papp_assoc. intros H1 H2. destruct c' as [c'|]; unfold put_consent_ext in H2.
  - peel H1 H2. done.
  - injection H2 as <-. by apply put_u8_not_nil in H1.
Qed.

Lemma put_exts_inj r1 c1 r2 c2 b :
  put_relay_ext r1 +++ put_consent_ext c1 = Some b →
  put_relay_ext r2 +++ put_consent_ext c2 = Some b →
  r1 = r2 ∧ c1 = c2.
Proof.
  destruct r1 as [|x1 r1], r2 as [|x2 r2]; intros H1 H2.
  - change (put_relay_ext []) with pnil in *. rewrite papp_nil_l in H1, H2.
    split; [done|by eapply put_consent_ext_inj].
  - change (put_relay_ext []) with pnil in *. rewrite papp_nil_l in H1.
    exfalso. by eapply put_relay_consent_apart.
  - change (put_relay_ext []) with pnil in *. rewrite papp_nil_l in H2.
    exfalso. by eapply put_relay_consent_apart.
  - rewrite put_relay_ext_cons in H1, H2. peel H1 H2. peel H1 H2.
    split; [done|by eapply put_consent_ext_inj].
Qed.

Section Injectivity.
Context `{Env}.
Hypothesis Hjson : json_faithful.

#[local] Instance put_json_inst : SelfDelim put_json := put_json_self_delim Hjson.

Lemma roster_change_apart w m n ms a r f k b :
  roster_canonical_bytes w m n ms a r f = Some b →
  put_tag "molt-chain-change-v2" +++ k = Some b → False.
Proof.
  unfold roster_canonical_bytes. intros H1 H2.
  eapply put_tag_apart; [|exact H1|exact H2].
  destruct (keyed ms), f; reflexivity.
Qed.

Lemma change_head_peel r1 h1 r2 h2 k1 k2 b :
  change_head r1 h1 +++ k1 = Some b → change_head r2 h2 +++ k2 = Some b →
  r1 = r2 ∧ h1 = h2 ∧ ∃ b', k1 = Some b' ∧ k2 = Some b'.
Proof.
  unfold change_head. rewrite !papp_assoc. intros H1 H2.
  destruct (put_tag_peel _ _ _ _ H1 H2) as (b' & G1 & G2). peel G1 G2. peel G1 G2. eauto.
Qed.

Ltac last_str := eapply self_delim_inj; [apply put_str_self_delim|eassumption..].

Lemma approval_bytes_inj r1 h1 c1 r2 h2 c2 b :
  approval_bytes r1 h1 c1 = Some b → approval_bytes r2 h2 c2 = Some b →
  signed_content r1 h1 c1 = signed_content r2 h2 c2.
Proof.
  intros H1 H2. destruct c1, c2; simpl in H1, H2;
    try (exfalso; unfold change_head in *; rewrite ?papp_assoc in *;
         eapply roster_change_apart; eassumption);
    try (destruct (change_head_peel _ _ _ _ _ _ _ H1 H2) as (-> & -> & b' & G1 & G2);
         peel G1 G2; try done).
  - destruct (roster_bytes_inj _ _ _ _ _ _ _ _ _ _ _ _ _ _ _ H1 H2)
      as (-> & -> & -> & -> & -> & -> & E). simpl. by rewrite E.
  - peel G1 G2. peel G1 G2. simpl. subst.
    assert (payload = payload0) as -> by (eapply self_delim_inj; eauto using put_json_inst).
    match goal with E : surface_str _ = surface_str _ |- _ => apply surface_str_inj in E as -> end. done.
  - peel G1 G2. peel G1 G2. peel G1 G2. peel G1 G2. simpl. subst.
    by destruct (put_exts_inj _ _ _ _ _ G1 G2) as [-> ->].
  - peel G1 G2. simpl. subst. assert (state_hash = state_hash0) as -> by last_str. done.
  - peel G1 G2. simpl. subst. assert (state_hash = state_hash0) as -> by last_str. done.
  - peel G1 G2. peel G1 G2. simpl. subst.
    match goal with E : bool_u8 _ = bool_u8 _ |- _ => apply bool_u8_inj in E as -> end.
    assert (state_hash = state_hash0) as -> by last_str. done.
Qed.

Lemma put_pair_not_nil p b : put_pair p = Some b → b ≠ [].
Proof.
  unfold put_pair, put_str. intros Hb ->. by apply put_bytes_not_nil in Hb.
Qed.

Lemma block_link_bytes_inj r1 b1 r2 b2 b :
  block_link_bytes r1 b1 = Some b → block_link_bytes r2 b2 = Some b →
  height b1 = height b2 ∧ prev b1 = prev b2 ∧
  signed_content r1 (height b1) (change b1) = signed_content r2 (height b2) (change b2) ∧
  (att_pair <$> sigs b1) ≡ₚ (att_pair <$> sigs b2).
Proof.
  unfold block_link_bytes. intros H1 H2.
  destruct (put_tag_peel _ _ _ _ H1 H2) as (b' & G1 & G2). peel G1 G2. peel G1 G2.
  destruct (approval_bytes r1 (height b1) (change b1)) as [a1|] eqn:A1; [|done].
  destruct (approval_bytes r2 (height b2) (change b2)) as [a2|] eqn:A2; [|done].
  simpl in G1, G2. peel G1 G2. subst a2.
  split; [done|]. split; [done|]. split; [by eapply approval_bytes_inj|].
  apply sort_pairs_perm. eapply put_each_tail_inj; [apply _|apply put_pair_not_nil|done..].
Qed.
End Injectivity.

Lemma att_pair_inj a1 a2 : att_pair a1 = att_pair a2 → a1 = a2.
Proof. destruct a1, a2. by intros [= -> ->]. Qed.

Lemma consent_bytes_inj r1 m1 i1 n1 r2 m2 i2 n2 b :
  restore_consent_bytes r1 m1 i1 n1 = Some b → restore_consent_bytes r2 m2 i2 n2 = Some b →
  r1 = r2 ∧ m1 = m2 ∧ i1 = i2 ∧ n1 = n2.
Proof.
  unfold restore_consent_bytes. intros H1 H2.
  destruct (put_tag_peel _ _ _ _ H1 H2) as (b' & G1 & G2).
  peel G1 G2. peel G1 G2. peel G1 G2. subst.
  assert (n1 = n2) as -> by (eapply self_delim_inj; [apply put_anchor_self_delim|done..]). done.
Qed.

Lemma consent_bytes_v2_inj r1 m1 i1 n1 l1 h1 p1 r2 m2 i2 n2 l2 h2 p2 b :
  restore_consent_bytes_v2 r1 m1 i1 n1 l1 h1 p1 = Some b →
  restore_consent_bytes_v2 r2 m2 i2 n2 l2 h2 p2 = Some b →
  r1 = r2 ∧ m1 = m2 ∧ i1 = i2 ∧ n1 = n2 ∧ l1 = l2 ∧ h1 = h2 ∧ p1 = p2.
Proof.
  unfold restore_consent_bytes_v2. intros H1 H2.
  destruct (put_tag_peel _ _ _ _ H1 H2) as (b' & G1 & G2).
  do 6 (peel G1 G2). subst.
  assert (p1 = p2) as -> by (eapply self_delim_inj; [apply put_str_self_delim|done..]).
  auto 10.
Qed.

(** ** Consent strings *)

Lemma digits_no_colon s : str_all is_digit s = true → str_has ":" s = false.
Proof. intros Hs. by apply (str_all_has is_digit). Qed.

Lemma hex_no_colon s : is_lower_hex s = true → str_has ":" s = false.
Proof. intros Hs. by apply (str_all_has is_lower_hex_char). Qed.

Lemma parse_render_consent a sig :
  (ca_height a ≤ u64_max)%N → is_lower_hex (ca_prev_anchor a) = true →
  is_lower_hex sig = true → sig ≠ "" →
  parse_restore_consent (render_restore_consent_v2 a sig)
  = Some (V2 (ca_height a) (ca_prev_anchor a) sig).
Proof.
  intros Hh Hp Hs Hne. unfold parse_restore_consent, render_restore_consent_v2.
  rewrite strip_prefix_app.
  change (":" +:+ ?x) with (String ":" x).
  rewrite split_once_app by apply digits_no_colon, to_string_digits. simpl.
  change (":" +:+ ?x) with (String ":" x).
  rewrite split_once_app by by apply hex_no_colon. simpl.
  rewrite parse_to_string by done. simpl.
  rewrite bool_decide_eq_true_2 by done. rewrite Hp, Hs. by destruct sig.
Qed.

Lemma parse_consent_v2 s h p sig :
  parse_restore_consent s = Some (V2 h p sig) →
  s = render_restore_consent_v2 {| ca_height := h; ca_prev_anchor := p |} sig ∧
  (h ≤ u64_max)%N ∧ is_lower_hex p = true ∧ is_lower_hex sig = true ∧ sig ≠ "".
Proof.
  unfold parse_restore_consent. destruct (strip_prefix "v2:" s) as [rest|] eqn:E; [|done].
  apply strip_prefix_some in E as ->.
  destruct (split_once ":" rest) as [[hs r1]|] eqn:E1; [|done].
  apply split_once_some in E1 as [-> _]. simpl.
  destruct (split_once ":" r1) as [[ps sg]|] eqn:E2; [|done].
  apply split_once_some in E2 as [-> _]. simpl.
  destruct (parse_u64 hs) as [n|] eqn:E3; [|done]. simpl.
  destruct (negb _ || _ || _ || _) eqn:E4; [done|]. intros [= <- <- <-].
  to_prop. subst hs. split; [done|].
  unfold parse_u64 in E3. do 2 (case_match; [|done]). to_prop. simplify_eq.
  repeat split; try done. by destruct sg.
Qed.

(** ** Properties *)

(** C39: A signature covers one change.  With a faithful JSON codec the bytes a
    member signs determine what is signed ([signed_content]).  For a genesis
    that is the republic id it names, the rule, the seats, the charter, the
    relays and the feature run; the name is not in the layout (the republic id
    commits to it), nor are the republic and the height of the call.  For any
    other change it is the republic, the height and the change itself, every
    field of it: a signature made for one position or one change is then a
    signature for no other. *)
Theorem signature_covers_change `{Env} r1 h1 c1 r2 h2 c2 b :
  json_faithful →
  approval_bytes r1 h1 c1 = Some b → approval_bytes r2 h2 c2 = Some b →
  signed_content r1 h1 c1 = signed_content r2 h2 c2.
Proof. intros Hj. by apply approval_bytes_inj. Qed.

(** A restore consent covers the whole restore.  The bytes of a v2
    consent determine the republic, the seat, its identity key, the new
    anchor, the declared relays, the height it was made at and the anchor it
    replaces; those of a legacy consent determine the first four. *)
Theorem consent_covers_restore r1 m1 i1 n1 l1 h1 p1 r2 m2 i2 n2 l2 h2 p2 :
  (∀ b, restore_consent_bytes_v2 r1 m1 i1 n1 l1 h1 p1 = Some b →
        restore_consent_bytes_v2 r2 m2 i2 n2 l2 h2 p2 = Some b →
        (r1, m1, i1, n1, l1, h1, p1) = (r2, m2, i2, n2, l2, h2, p2)) ∧
  (∀ b, restore_consent_bytes r1 m1 i1 n1 = Some b → restore_consent_bytes r2 m2 i2 n2 = Some b →
        (r1, m1, i1, n1) = (r2, m2, i2, n2)).
Proof.
  split; intros b H1 H2.
  - by destruct (consent_bytes_v2_inj _ _ _ _ _ _ _ _ _ _ _ _ _ _ _ H1 H2)
      as (-> & -> & -> & -> & -> & -> & ->).
  - by destruct (consent_bytes_inj _ _ _ _ _ _ _ _ _ H1 H2) as (-> & -> & -> & ->).
Qed.

(** One consent, one string.  A string parses as the v2 consent of a
    height, an anchor and a signature exactly when it is the rendering of
    those three, the height fits 64 bits and both hex fields are lower-case
    (the signature non-empty); no second spelling of a consent exists. *)
Theorem consent_string_unique s h p sig :
  parse_restore_consent s = Some (V2 h p sig) ↔
  s = render_restore_consent_v2 {| ca_height := h; ca_prev_anchor := p |} sig ∧
  (h ≤ u64_max)%N ∧ is_lower_hex p = true ∧ is_lower_hex sig = true ∧ sig ≠ "".
Proof.
  split; [apply parse_consent_v2|]. intros (-> & Hh & Hp & Hs & Hn).
  by rewrite parse_render_consent.
Qed.
