(* ===== verification/Checkpoint.v ===== *)
(** * Checkpoint states

    crates/molt-core/src/chain.rs: [CheckpointState], the last-write-wins
    rule [applied_lww_slot] and [checkpoint_canonical_bytes], the versioned
    layout (v6 to v10) whose hash a compaction cut signs.

    The theorems show that the layout determines the state whatever version
    tag its content selects, and that the slot strings of the
    last-write-wins rule never merge two distinct slots. *)

From S2P Require Import Prelude Bytes Strs Json Env Surface Roster Chain.
#[local] Open Scope string_scope.

Record CheckpointState := {
  founding_name : string;
  cs_rule_m : N;
  cs_rule_n : N;
  founding_identities : list MemberIdentity;
  cs_agenda : string;
  cs_relays : list string;
  founding_features : option (list string);
  cs_republic_id : string;
  cs_roster : list MemberIdentity;
  cs_applied : list (Surface * list (N * Value));
  consumed_ids : list N;
  anchors : list (string * string);
  member_relays : list (string * list string);
  cs_upto : N;
}.

(** ** The last-write-wins rule *)

Definition member_of (payload : Value) : option string :=
  m ← get_str "member" payload; if str_empty m then None else Some m.

Definition applied_lww_slot (surface : Surface) (payload : Value) : option string :=
  match surface with
  | Files =>
      op ← op_of payload;
      if bool_decide (op ∈ ["persist"; "unpersist"; "delete"]) then
        id ← get_str "id" payload;
        if (str_len id =? 32)%N && str_all is_hexdigit id then Some ("files." +:+ id) else None
      else None
  | Organization =>
      op ← op_of payload;
      if decide (op = "set_name") then Some "organization.name"
      else if decide (op = "set_charter") then Some "organization.charter"
      else if decide (op = "set_chat_retention") then Some "organization.retention"
      else if bool_decide (op ∈ ["set_image"; "remove_image"]) then Some "organization.image"
      else if decide (op = "set_relays") then Some "organization.relays"
      else if bool_decide (op ∈ ["set_member_image"; "remove_member_image"])
      then m ← member_of payload; Some ("member.image:" +:+ m)
      else if decide (op = "set_member_desc")
      then m ← member_of payload; Some ("member.desc:" +:+ m)
      else None
  | _ => None
  end.

(** ** The canonical layout *)

(** A group outside the frozen v7 set. *)
Definition has_later_group (s : CheckpointState) : bool :=
  existsb (λ g, negb (bool_decide (g.1 ∈ CHECKPOINT_V7_SURFACES))) (cs_applied s).

(** The memory group carries a [wiki_base] entry. *)
Definition is_folded (s : CheckpointState) : bool :=
  existsb (λ g, bool_decide (g.1 = Memory) &&
    existsb (λ e, bool_decide (op_of e.2 = Some "wiki_base")) g.2) (cs_applied s).

(** A vault republic: some seat of either identity table is keyed. *)
Definition is_keyed (s : CheckpointState) : bool := keyed (founding_identities s ++ cs_roster s).

(** The wide layout: presence byte and explicit group count. *)
Definition is_wide (s : CheckpointState) : bool := has_later_group s || is_folded s || is_keyed s.

Definition checkpoint_tag (s : CheckpointState) : string :=
  if is_keyed s then "molt-chain-checkpoint-v10"
  else if is_folded s then "molt-chain-checkpoint-v9"
  else if has_later_group s then "molt-chain-checkpoint-v8"
  else match founding_features s with
       | Some _ => "molt-chain-checkpoint-v7"
       | None => "molt-chain-checkpoint-v6"
       end.


Definition put_entry `{Env} (e : N * Value) : piece := put_u64 e.1 +++ put_json e.2.
Definition put_group `{Env} (g : Surface * list (N * Value)) : piece :=
  put_str (surface_str g.1) +++ put_run64 put_entry g.2.
Definition put_ledger (p : string * list string) : piece := put_str p.1 +++ put_run64 put_str p.2.

Definition put_features (wide : bool) (f : option (list string)) : piece :=
  (if wide then put_u8 (bool_u8 (is_some f)) else pnil) +++
  match f with Some l => put_run64 put_str l | None => pnil end.

Definition put_groups `{Env} (wide : bool) (l : list (Surface * list (N * Value))) : piece :=
  (if wide then put_u64 (len l) else pnil) +++ put_each put_group l.

Definition checkpoint_canonical_bytes `{Env} (s : CheckpointState) : piece :=
  let vault := is_keyed s in
  let wide := is_wide s in
  put_tag (checkpoint_tag s) +++
  put_str (cs_republic_id s) +++
  put_str (founding_name s) +++
  put_u8 (cs_rule_m s) +++
  put_u8 (cs_rule_n s) +++
  put_run64 (put_identity vault) (founding_identities s) +++
  put_str (cs_agenda s) +++
  put_run64 put_str (cs_relays s) +++
  put_features wide (founding_features s) +++
  put_run64 (put_identity vault) (cs_roster s) +++
  put_groups wide (cs_applied s) +++
  put_run64 put_u64 (consumed_ids s) +++
  put_run64 put_pair (anchors s) +++
  put_run64 put_ledger (member_relays s) +++
  put_u64 (cs_upto s).

(** [checkpoint_state_hash]; [None] where the layout panics. *)
Definition checkpoint_state_hash `{Env} (s : CheckpointState) : option string :=
  content_hash <$> checkpoint_canonical_bytes s.

(** The group shape every fold of a chain produces: the frozen set, and a
    later surface only behind it. *)
Definition groups_frozen (s : CheckpointState) : Prop :=
  (cs_applied s).*1 = CHECKPOINT_V7_SURFACES ∨ (cs_applied s).*1 = ALL.

(** ** Slots as data *)

Inductive Slot :=
  | SlotName | SlotCharter | SlotRetention | SlotImage | SlotRelays
  | SlotMemberImage (m : string) | SlotMemberDesc (m : string) | SlotFile (id : string).

Definition slot_str (s : Slot) : string :=
  match s with
  | SlotName => "organization.name"
  | SlotCharter => "organization.charter"
  | SlotRetention => "organization.retention"
  | SlotImage => "organization.image"
  | SlotRelays => "organization.relays"
  | SlotMemberImage m => "member.image:" +:+ m
  | SlotMemberDesc m => "member.desc:" +:+ m
  | SlotFile id => "files." +:+ id
  end.

(** What an entry supersedes, read off the operation alone. *)
Definition org_slot (op : string) (payload : Value) : option Slot :=
  if decide (op = "set_name") then Some SlotName
  else if decide (op = "set_charter") then Some SlotCharter
  else if decide (op = "set_chat_retention") then Some SlotRetention
  else if bool_decide (op ∈ ["set_image"; "remove_image"]) then Some SlotImage
  else if decide (op = "set_relays") then Some SlotRelays
  else if bool_decide (op ∈ ["set_member_image"; "remove_member_image"])
  then SlotMemberImage <$> member_of payload
  else if decide (op = "set_member_desc") then SlotMemberDesc <$> member_of payload
  else None.

Definition slot_of (surface : Surface) (payload : Value) : option Slot :=
  match surface with
  | Organization => op_of payload ≫= λ op, org_slot op payload
  | Files =>
      op ← op_of payload;
      id ← get_str "id" payload;
      if bool_decide (op ∈ ["persist"; "unpersist"; "delete"]) &&
         ((str_len id =? 32)%N && str_all is_hexdigit id) then Some (SlotFile id) else None
  | _ => None
  end.

Lemma slot_str_inj s t : slot_str s = slot_str t → s = t.
Proof.
  destruct s, t; intros E; try done; try discriminate E; unfold slot_str in E;
    f_equal; eapply (inj (String.append _)), E.
Qed.

Lemma applied_lww_slot_spec surface payload :
  applied_lww_slot surface payload = slot_str <$> slot_of surface payload.
Proof.
  destruct surface; simpl; try done; destruct (op_of payload) as [op|]; simpl; try done.
  - unfold org_slot. repeat case_match; try done; destruct (member_of payload); done.
  - destruct (get_str "id" payload); simpl; [|by case_match].
    destruct (bool_decide _); simpl; [|done]. by destruct (_ && _).
Qed.

(** ** Injectivity of the layout *)

Lemma checkpoint_tag_peel s1 s2 k1 k2 b :
  put_tag (checkpoint_tag s1) +++ k1 = Some b →
  put_tag (checkpoint_tag s2) +++ k2 = Some b →
  is_keyed s1 = is_keyed s2 ∧ is_wide s1 = is_wide s2 ∧
  (is_wide s1 = false → is_some (founding_features s1) = is_some (founding_features s2)) ∧
  ∃ b', k1 = Some b' ∧ k2 = Some b'.
Proof.
  intros H1 H2.
  assert (Hd : checkpoint_tag s1 = checkpoint_tag s2).
  { destruct (decide (checkpoint_tag s1 = checkpoint_tag s2)) as [|Hne]; [done|].
    exfalso. eapply put_tag_apart; [|exact H1|exact H2].
    unfold checkpoint_tag in *. repeat case_match; done. }
  rewrite Hd in H1. pose proof (put_tag_peel _ _ _ _ H1 H2) as Hb.
  unfold checkpoint_tag, is_wide in *.
  destruct (is_keyed s1), (is_keyed s2), (is_folded s1), (is_folded s2),
    (has_later_group s1), (has_later_group s2),
    (founding_features s1), (founding_features s2); done.
Qed.

Lemma put_features_peel w f1 f2 k1 k2 b :
  (w = false → is_some f1 = is_some f2) →
  put_features w f1 +++ k1 = Some b → put_features w f2 +++ k2 = Some b →
  f1 = f2 ∧ ∃ b', k1 = Some b' ∧ k2 = Some b'.
Proof.
  unfold put_features. rewrite !papp_assoc. intros Hw H1 H2.
  assert (∃ b', is_some f1 = is_some f2 ∧
    match f1 with Some l => put_run64 put_str l | None => pnil end +++ k1 = Some b' ∧
    match f2 with Some l => put_run64 put_str l | None => pnil end +++ k2 = Some b')
    as (b' & E & G1 & G2).
  { destruct w.
    - peel H1 H2. match goal with E : bool_u8 _ = _ |- _ => apply bool_u8_inj in E end. eauto.
    - rewrite papp_nil_l in H1. rewrite papp_nil_l in H2. eauto. }
  destruct f1, f2; try done.
  - peel G1 G2. subst. eauto.
  - rewrite papp_nil_l in G1. rewrite papp_nil_l in G2. eauto.
Qed.

Section Injectivity.
Context `{Env}.
Hypothesis Hjson : json_faithful.

#[local] Instance put_json_inst : SelfDelim put_json := put_json_self_delim Hjson.

#[local] Instance put_entry_self_delim : SelfDelim put_entry.
Proof. exact (papp_pair_self_delim put_u64 put_json). Qed.
#[local] Instance put_ledger_self_delim : SelfDelim put_ledger.
Proof. exact (papp_pair_self_delim put_str (put_run64 put_str)). Qed.
#[local] Instance put_group_self_delim : SelfDelim put_group.
Proof. exact (papp_pair_self_delim (λ x, put_str (surface_str x)) (put_run64 put_entry)). Qed.

Lemma put_groups_peel w l1 l2 k1 k2 b :
  (w = false → length l1 = length l2) →
  put_groups w l1 +++ k1 = Some b → put_groups w l2 +++ k2 = Some b →
  l1 = l2 ∧ ∃ b', k1 = Some b' ∧ k2 = Some b'.
Proof.
  unfold put_groups. rewrite !papp_assoc. intros Hw H1 H2.
  assert (Hf : self_delim_on (λ _, True) put_group).
  { intros ????? _ _. apply self_delim. }
  destruct w.
  - peel H1 H2. match goal with E : len _ = len _ |- _ => unfold len in E end.
    eapply put_each_self_delim_on; [exact Hf|by apply Forall_true..|lia|done|done].
  - rewrite papp_nil_l in H1. rewrite papp_nil_l in H2.
    eapply put_each_self_delim_on; [exact Hf|by apply Forall_true..|auto|done|done].
Qed.

Lemma groups_frozen_length s : groups_frozen s → is_wide s = false → length (cs_applied s) = 6.
Proof.
  intros Hg Hw. rewrite <-(length_fmap fst). destruct Hg as [->| Hg]; [done|].
  exfalso. unfold is_wide in Hw. apply orb_false_iff in Hw as [Hw _].
  apply orb_false_iff in Hw as [Hl _]. unfold has_later_group in Hl.
  rewrite existsb_false in Hl.
  assert (Files ∈ (cs_applied s).*1) as ([f es] & Hf & Hin)%list_elem_of_fmap.
  { rewrite Hg. unfold ALL. set_solver. }
  simpl in Hf. subst f. apply Hl in Hin. apply negb_false_iff, bool_decide_eq_true in Hin.
  unfold CHECKPOINT_V7_SURFACES in Hin. set_solver.
Qed.

Lemma fits_app_l l k : Forall (fits (keyed (l ++ k))) l.
Proof. pose proof (fits_keyed (l ++ k)) as Hf. by apply Forall_app in Hf as [? _]. Qed.
Lemma fits_app_r l k : Forall (fits (keyed (l ++ k))) k.
Proof. pose proof (fits_keyed (l ++ k)) as Hf. by apply Forall_app in Hf as [_ ?]. Qed.

Lemma checkpoint_bytes_inj s1 s2 b :
  groups_frozen s1 → groups_frozen s2 →
  checkpoint_canonical_bytes s1 = Some b → checkpoint_canonical_bytes s2 = Some b → s1 = s2.
Proof.
  intros Hg1 Hg2. unfold checkpoint_canonical_bytes. intros H1 H2.
  destruct (checkpoint_tag_peel _ _ _ _ _ H1 H2) as (Ek & Ew & Ef & b' & G1 & G2).
  pose proof (fits_app_l (founding_identities s1) (cs_roster s1)) as F1.
  pose proof (fits_app_l (founding_identities s2) (cs_roster s2)) as F2.
  pose proof (fits_app_r (founding_identities s1) (cs_roster s1)) as F3.
  pose proof (fits_app_r (founding_identities s2) (cs_roster s2)) as F4.
  fold (is_keyed s1) in F1, F3. fold (is_keyed s2) in F2, F4.
  rewrite <-Ek in *.
  assert (Hl : is_wide s1 = false → length (cs_applied s1) = length (cs_applied s2)).
  { intros Hw. rewrite (groups_frozen_length s1), (groups_frozen_length s2); [done..|congruence|done|done]. }
  rewrite <-Ew in *. clear H1 H2.
  do 4 (peel G1 G2).
  destruct (put_identities64_self_delim _ _ _ _ _ _ F1 F2 G1 G2) as (? & ? & H1 & H2).
  do 2 (peel H1 H2).
  destruct (put_features_peel _ _ _ _ _ _ Ef H1 H2) as (? & ? & G3 & G4).
  destruct (put_identities64_self_delim _ _ _ _ _ _ F3 F4 G3 G4) as (? & ? & G5 & G6).
  destruct (put_groups_peel _ _ _ _ _ _ Hl G5 G6) as (? & ? & G7 & G8).
  do 3 (peel G7 G8).
  assert (cs_upto s1 = cs_upto s2) by by eapply (self_delim_inj put_u64).
  destruct s1, s2; simpl in *; congruence.
Qed.
End Injectivity.

(** ** Properties *)

(** A cut's hash commits to the whole state.  Two checkpoint states in
    the group shape every fold produces that hash alike are equal in every
    field, whichever of the layouts v6 to v10 their content selects, or
    exhibit a collision. *)
Theorem checkpoint_hash_commits `{Env} s1 s2 h :
  json_faithful → hex_faithful → groups_frozen s1 → groups_frozen s2 →
  checkpoint_state_hash s1 = Some h → checkpoint_state_hash s2 = Some h → s1 = s2 ∨ collision.
Proof.
  unfold checkpoint_state_hash. intros Hj Hh G1 G2 (b1 & B1 & ->)%fmap_Some (b2 & B2 & E)%fmap_Some.
  destruct (content_hash_inj _ _ Hh E) as [->|]; [left|by right].
  by eapply checkpoint_bytes_inj.
Qed.

(** Slots do not run into each other.  Two entries have the same slot
    string exactly when they replace the same thing (one constitution field,
    one member's picture or description, one file) or both lie outside the
    last-write-wins rule: no member name or file id spells another slot. *)
Theorem lww_slots_faithful sf1 p1 sf2 p2 :
  (applied_lww_slot sf1 p1 = applied_lww_slot sf2 p2 ↔ slot_of sf1 p1 = slot_of sf2 p2).
Proof.
  rewrite !applied_lww_slot_spec. split; [|congruence].
  destruct (slot_of sf1 p1), (slot_of sf2 p2); simpl; intros E; try done.
  injection E as E. by apply slot_str_inj in E as ->.
Qed.
