(* ===== verification/WikiFold.v ===== *)
(** * The shared memory as a fold of patches

    crates/molt-core/src/wiki_fold.rs: the tolerant patch reader
    [parse_patch], the strict applier [apply_hunks] / [apply_patch], the
    fold over applied payloads, and the canonical bytes of a tree.

    The theorems show that the applier accepts exactly the patches whose
    hunks match at their position, that a patch depends on no path it does
    not name, and that a tree survives its byte form. *)

From S2P Require Import Prelude Bytes Strs Json.
#[local] Open Scope string_scope.

(** A [BTreeMap<String, String>]. *)
Abbreviation tree := (gmap string string).

Record HunkLine := { hl_op : ascii; hl_text : string; hl_newline : bool }.
Record Hunk := { old_start : N; old_count : N; hunk_lines : list HunkLine }.
Record PatchFile := {
  old_path : string;
  new_path : string;
  added : bool;
  deleted : bool;
  renamed : bool;
  hunks : list Hunk;
}.

Definition PatchFile_default : PatchFile :=
  {| old_path := ""; new_path := ""; added := false; deleted := false; renamed := false; hunks := [] |}.

(** ** The reader *)

(** [v.last_mut().map(f)]: nothing on an empty vector. *)
Fixpoint upd_last {A} (f : A → A) (l : list A) : list A :=
  match l with
  | [] => []
  | [x] => [f x]
  | x :: l => x :: upd_last f l
  end.

(** The parts around the last occurrence of [p] ([rfind] and slicing). *)
Fixpoint rsplit_once (p s : string) : option (string * string) :=
  match s with
  | "" => match strip_prefix p s with Some t => Some ("", t) | None => None end
  | String a s' =>
      match rsplit_once p s' with
      | Some (h, t) => Some (String a h, t)
      | None => match strip_prefix p s with Some t => Some ("", t) | None => None end
      end
  end.

Definition parse_hunk_old (head : string) : N * N :=
  match strip_prefix "-" (hd "" (split_on " " head)) with
  | None => (0%N, 0%N)
  | Some old =>
      match split_once "," old with
      | Some (s, c) => (default 0%N (parse_u64 s), default 0%N (parse_u64 c))
      | None => (default 0%N (parse_u64 old), 1%N)
      end
  end.

Definition with_hunks (f : list Hunk → list Hunk) (p : PatchFile) : PatchFile :=
  {| old_path := old_path p; new_path := new_path p; added := added p; deleted := deleted p;
     renamed := renamed p; hunks := f (hunks p) |}.

Definition with_lines (f : list HunkLine → list HunkLine) (h : Hunk) : Hunk :=
  {| old_start := old_start h; old_count := old_count h; hunk_lines := f (hunk_lines h) |}.

Definition no_newline (l : HunkLine) : HunkLine :=
  {| hl_op := hl_op l; hl_text := hl_text l; hl_newline := false |}.

Definition is_hunk_op (c : ascii) : bool :=
  Ascii.eqb c "+" || Ascii.eqb c "-" || Ascii.eqb c " ".

(** A line below a [diff --git] line, folded into the file it belongs to. *)
Definition parse_file_line (line : string) (f : PatchFile) : PatchFile :=
  if starts_with "new file mode" line then
    {| old_path := old_path f; new_path := new_path f; added := true; deleted := deleted f;
       renamed := renamed f; hunks := hunks f |}
  else if starts_with "deleted file mode" line then
    {| old_path := old_path f; new_path := new_path f; added := added f; deleted := true;
       renamed := renamed f; hunks := hunks f |}
  else match strip_prefix "rename from " line with
  | Some p =>
    {| old_path := p; new_path := new_path f; added := added f; deleted := deleted f;
       renamed := true; hunks := hunks f |}
  | None => match strip_prefix "rename to " line with
  | Some p =>
    {| old_path := old_path f; new_path := p; added := added f; deleted := deleted f;
       renamed := true; hunks := hunks f |}
  | None => match strip_prefix "@@ " line with
  | Some head =>
      let '(s, c) := parse_hunk_old head in
      with_hunks (λ hs, app hs [{| old_start := s; old_count := c; hunk_lines := [] |}]) f
  | None =>
      if starts_with "\" line then with_hunks (upd_last (with_lines (upd_last no_newline))) f
      else if (match hunks f with [] => true | _ => false end) &&
              (starts_with "similarity index" line || starts_with "--- " line
               || starts_with "+++ " line)
      then f
      else match line with
           | String c text =>
               if is_hunk_op c then
                 with_hunks (upd_last (with_lines (λ ls,
                   app ls [{| hl_op := c; hl_text := text; hl_newline := true |}]))) f
               else f
           | "" => f
           end
  end end end.

Definition parse_line (files : list PatchFile) (line : string) : list PatchFile :=
  match strip_prefix "diff --git a/" line with
  | Some rest =>
      let f := match rsplit_once " b/" rest with
               | Some (o, n) =>
                   {| old_path := o; new_path := n; added := false; deleted := false;
                      renamed := false; hunks := [] |}
               | None => PatchFile_default
               end in
      app files [f]
  | None => upd_last (parse_file_line line) files
  end.

Definition parse_patch (patch : string) : list PatchFile :=
  fold_left parse_line (lines patch) [].

(** ** The applier *)

Inductive VoidReason :=
  | HunkPositionZero
  | HunksOverlap
  | HunkBeyondFile
  | ContextMismatch
  | UnknownHunkOp
  | HunkCountDisagrees
  | EmptyPatch
  | PathTouchedTwice (p : string)
  | InvalidPath (p : string)
  | AlreadyExists (p : string)
  | Missing (p : string)
  | DeletionLeavesContent (p : string)
  | RenameTargetExists (p : string).

Definition valid_segment (s : string) : bool :=
  negb (str_empty s) && negb (bool_decide (s = ".")) && negb (bool_decide (s = ".."))
  && negb (str_has "\" s).

Definition valid_path (p : string) : bool :=
  if str_empty p || starts_with "/" p || ends_with "/" p then false
  else let segments := split_on "/" p in
       if (8 <? len segments)%N then false else forallb valid_segment segments.

(** Elements that each carry their newline; the last one may not. *)
Fixpoint to_elements (s : string) : list string :=
  match s with
  | "" => []
  | String a s' =>
      if Ascii.eqb a nl then String nl "" :: to_elements s'
      else match to_elements s' with
           | [] => [String a ""]
           | h :: t => String a h :: t
           end
  end.

Fixpoint str_concat (l : list string) : string :=
  match l with [] => "" | s :: l => s +:+ str_concat l end.

Definition line_element (l : HunkLine) : string :=
  if hl_newline l then hl_text l +:+ String nl "" else hl_text l.

(** The lines of one hunk: [(out, cursor, consumed)] is the loop state. *)
Fixpoint apply_lines (old : list string) (ls : list HunkLine)
    (out : list string) (cursor consumed : nat) : outcome VoidReason (list string * nat * nat) :=
  match ls with
  | [] => Ok (out, cursor, consumed)
  | l :: ls =>
      let elem := line_element l in
      if Ascii.eqb (hl_op l) " " || Ascii.eqb (hl_op l) "-" then
        reject negb (bool_decide (old !! cursor = Some elem)) with ContextMismatch else
        let out := if Ascii.eqb (hl_op l) " " then app out [elem] else out in
        apply_lines old ls out (S cursor) (S consumed)
      else if Ascii.eqb (hl_op l) "+" then apply_lines old ls (app out [elem]) cursor consumed
      else Err UnknownHunkOp
  end.

(** The 0-based start of a hunk; a 0-count hunk inserts after its line. *)
Definition hunk_start (h : Hunk) : outcome VoidReason N :=
  if (old_count h =? 0)%N then Ok (old_start h)
  else if (old_start h =? 0)%N then Err HunkPositionZero else Ok (old_start h - 1)%N.

Fixpoint apply_hunk_list (old : list string) (hs : list Hunk)
    (out : list string) (cursor : nat) : outcome VoidReason (list string) :=
  match hs with
  | [] => Ok (app out (drop cursor old))
  | h :: hs =>
      let? start0 := hunk_start h in
      reject (start0 <? N.of_nat cursor)%N with HunksOverlap else
      reject (len old <? start0)%N with HunkBeyondFile else
      let start := N.to_nat start0 in
      let out := app out (take (start - cursor) (drop cursor old)) in
      let? r := apply_lines old (hunk_lines h) out start 0 in
      let '(out, cursor, consumed) := r in
      reject negb (N.of_nat consumed =? old_count h)%N with HunkCountDisagrees else
      apply_hunk_list old hs out cursor
  end.

Definition apply_hunks (old : string) (hs : list Hunk) : outcome VoidReason string :=
  let? out := apply_hunk_list (to_elements old) hs [] 0 in
  Ok (str_concat out).

(** The collision rule: no path is named by two files of one patch. *)
Definition touch (st : gset string * gset string) (p : string)
    : outcome VoidReason (gset string * gset string) :=
  let '(own, touched) := st in
  if str_empty p then Ok st
  else if decide (p ∈ own) then Ok st
  else if decide (p ∈ touched) then Err (PathTouchedTwice p)
  else Ok ({[p]} ∪ own, {[p]} ∪ touched).

Fixpoint check_touched (touched : gset string) (files : list PatchFile) : outcome VoidReason unit :=
  match files with
  | [] => Ok tt
  | f :: files =>
      let? st := touch (∅, touched) (old_path f) in
      let? st := touch st (new_path f) in
      check_touched st.2 files
  end.

Definition apply_file (work : tree) (f : PatchFile) : outcome VoidReason tree :=
  reject negb (valid_path (new_path f)) && negb (deleted f) with InvalidPath (new_path f) else
  reject negb (valid_path (old_path f)) with InvalidPath (old_path f) else
  if added f then
    match work !! new_path f with
    | Some _ => Err (AlreadyExists (new_path f))
    | None =>
        let? content := apply_hunks "" (hunks f) in
        Ok (<[new_path f := content]> work)
    end
  else
    match work !! old_path f with
    | None => Err (Missing (old_path f))
    | Some old =>
        let work := delete (old_path f) work in
        if deleted f then
          let? remains := apply_hunks old (hunks f) in
          reject negb (str_empty remains) with DeletionLeavesContent (old_path f) else Ok work
        else
          reject renamed f && bool_decide (is_Some (work !! new_path f))
            with RenameTargetExists (new_path f) else
          let? content := apply_hunks old (hunks f) in
          Ok (<[new_path f := content]> work)
    end.

Fixpoint apply_files (work : tree) (files : list PatchFile) : outcome VoidReason tree :=
  match files with
  | [] => Ok work
  | f :: files => let? work := apply_file work f in apply_files work files
  end.

(** The new tree, or the reason the patch is void and the tree untouched. *)
Definition apply_patch (t : tree) (files : list PatchFile) : outcome VoidReason tree :=
  match files with
  | [] => Err EmptyPatch
  | _ => let? _ := check_touched ∅ files in apply_files t files
  end.

Definition touched_paths (files : list PatchFile) : gset string :=
  list_to_set (filter (λ p, p ≠ "") (concat ((λ f, [old_path f; new_path f]) <$> files))).

(** ** The fold *)

(** One applied payload: the tree after it, and whether it applied. *)
Definition wiki_fold_one (t : tree) (payload : Value) : tree * bool :=
  if decide (op_of payload = Some "wiki_patch") then
    match get_str "value" payload with
    | Some patch =>
        match apply_patch t (parse_patch patch) with Ok t' => (t', true) | _ => (t, false) end
    | None => (t, false)
    end
  else (t, false).

Definition fold_step (st : tree * N) (payload : Value) : tree * N :=
  let '(t, applied) := wiki_fold_one st.1 payload in
  (t, if applied then (st.2 + 1)%N else st.2).

Definition wiki_fold_with_rev (applied : list Value) : tree * N :=
  fold_left fold_step applied (∅, 0%N).

Definition wiki_fold (applied : list Value) : tree := (wiki_fold_with_rev applied).1.

(** ** Canonical bytes of a tree *)

Definition key_le {A} (p q : string * A) : Prop := String.le p.1 q.1.
#[export] Instance key_le_dec {A} (p q : string * A) : Decision (key_le p q).
Proof. unfold key_le. apply _. Defined.

(** The iteration order of a [BTreeMap]. *)
Definition sorted_entries {A} (t : gmap string A) : list (string * A) :=
  merge_sort key_le (map_to_list t).

Definition put_doc (d : string * string) : piece := put_str d.1 +++ put_str d.2.

Definition wiki_base_canonical_bytes (t : tree) : piece :=
  put_tag "molt-wiki-base-v1" +++ put_run64 put_doc (sorted_entries t).

(** [String::from_utf8]: the well-formed byte sequences. *)
Definition cont (b : byte) : bool := let n := Byte.to_N b in ((0x80 <=? n) && (n <=? 0xBF))%N.
Definition in_range (lo hi : N) (b : byte) : bool :=
  let n := Byte.to_N b in ((lo <=? n) && (n <=? hi))%N.

Fixpoint utf8_valid (l : bytes) : bool :=
  match l with
  | [] => true
  | a :: l1 =>
      if in_range 0 0x7F a then utf8_valid l1
      else match l1 with
      | [] => false
      | b :: l2 =>
          if in_range 0xC2 0xDF a then cont b && utf8_valid l2
          else match l2 with
          | [] => false
          | c :: l3 =>
              if (in_range 0xE0 0xE0 a && in_range 0xA0 0xBF b
                  || in_range 0xE1 0xEC a && cont b
                  || in_range 0xED 0xED a && in_range 0x80 0x9F b
                  || in_range 0xEE 0xEF a && cont b) && cont c
              then utf8_valid l3
              else match l3 with
              | [] => false
              | d :: l4 =>
                  (in_range 0xF0 0xF0 a && in_range 0x90 0xBF b
                   || in_range 0xF1 0xF3 a && cont b
                   || in_range 0xF4 0xF4 a && in_range 0x80 0x8F b)
                  && cont c && cont d && utf8_valid l4
              end
          end
      end
  end.

Inductive WikiBaseError :=
  | NotAWikiBase
  | Overruns
  | NotUtf8
  | TrailingBytes.

(** [take(n, ..)]: the next [n] bytes and what is left. *)
Definition take_bytes (n : N) (rest : bytes) : outcome WikiBaseError (bytes * bytes) :=
  if (n <=? len rest)%N then Ok (take (N.to_nat n) rest, drop (N.to_nat n) rest) else Err Overruns.

Definition read_u64 (rest : bytes) : outcome WikiBaseError (N * bytes) :=
  let? r := take_bytes 8 rest in Ok (of_le_bytes r.1, r.2).

Definition read_field (rest : bytes) : outcome WikiBaseError (string * bytes) :=
  let? r := take_bytes 4 rest in
  let? r := take_bytes (of_le_bytes r.1) r.2 in
  reject negb (utf8_valid r.1) with NotUtf8 else
  Ok (String.string_of_list_byte r.1, r.2).

(** [for _ in 0..count]: an entry takes at least eight bytes, so [fuel]
    bounded by the bytes left is enough; running out of it is [Panic]. *)
Fixpoint read_entries (fuel : nat) (count : N) (rest : bytes) (t : tree)
    : outcome WikiBaseError (tree * bytes) :=
  if (count =? 0)%N then Ok (t, rest)
  else match fuel with
       | O => Panic
       | S fuel =>
           let? p := read_field rest in
           let? c := read_field p.2 in
           read_entries fuel (count - 1) c.2 (<[p.1 := c.1]> t)
       end.

(** [bytes.strip_prefix(tag)]. *)
Fixpoint strip_bytes (p b : bytes) : option bytes :=
  match p, b with
  | [], _ => Some b
  | x :: p, y :: b => if decide (x = y) then strip_bytes p b else None
  | _ :: _, [] => None
  end.

Definition wiki_base_from_canonical_bytes (b : bytes) : outcome WikiBaseError tree :=
  let? rest := ok_or (strip_bytes (as_bytes "molt-wiki-base-v1" ++ [x00]) b) NotAWikiBase in
  let? c := read_u64 rest in
  let? r := read_entries (S (length rest)) c.1 c.2 ∅ in
  reject negb (len r.2 =? 0)%N with TrailingBytes else
  Ok r.1.

(** ** What a strict application is *)

#[local] Open Scope list_scope.
#[local] Open Scope nat_scope.

Definition is_old_line (l : HunkLine) : bool := Ascii.eqb (hl_op l) " " || Ascii.eqb (hl_op l) "-".
Definition is_new_line (l : HunkLine) : bool := Ascii.eqb (hl_op l) " " || Ascii.eqb (hl_op l) "+".

(** The elements a hunk expects, and the ones it leaves. *)
Fixpoint old_side (ls : list HunkLine) : list string :=
  match ls with
  | [] => []
  | l :: ls => if is_old_line l then line_element l :: old_side ls else old_side ls
  end.
Fixpoint new_side (ls : list HunkLine) : list string :=
  match ls with
  | [] => []
  | l :: ls => if is_new_line l then line_element l :: new_side ls else new_side ls
  end.
Definition ops_ok (ls : list HunkLine) : Prop := Forall (λ l, is_hunk_op (hl_op l) = true) ls.

(** [patched c hs old new]: from element [c] on, the hunks [hs] turn the
    elements [old] into [new], each at the position its header names and
    each replacing exactly the elements it shows. *)
Inductive patched : nat → list Hunk → list string → list string → Prop :=
  | patched_done c old : patched c [] old old
  | patched_hunk c h hs gap rest new :
      hunk_start h = Ok (N.of_nat (c + length gap)) →
      ops_ok (hunk_lines h) →
      old_count h = len (old_side (hunk_lines h)) →
      patched (c + length gap + length (old_side (hunk_lines h))) hs rest new →
      patched c (h :: hs) (gap ++ old_side (hunk_lines h) ++ rest)
              (gap ++ new_side (hunk_lines h) ++ new).

Lemma hunk_op_cases c :
  is_hunk_op c = true ↔
  Ascii.eqb c " " || Ascii.eqb c "-" = true ∨ Ascii.eqb c "+" = true.
Proof. unfold is_hunk_op. destruct (Ascii.eqb c "+"), (Ascii.eqb c "-"), (Ascii.eqb c " "); naive_solver. Qed.

Lemma plus_not_old c : Ascii.eqb c " " || Ascii.eqb c "-" = true → Ascii.eqb c "+" = false.
Proof.
  destruct (Ascii.eqb_spec c "+") as [->|]; [|done]. done.
Qed.

Lemma apply_lines_ok old ls out cur con r :
  apply_lines old ls out cur con = Ok r ↔
  ops_ok ls ∧ (∃ rest, drop cur old = old_side ls ++ rest) ∧
  r = (out ++ new_side ls, cur + length (old_side ls), con + length (old_side ls)).
Proof.
  revert out cur con; induction ls as [|l ls IH]; intros out cur con; simpl.
  - rewrite app_nil_r, !Nat.add_0_r. split.
    + intros [= <-]. split; [constructor|]. eauto.
    + by intros (_ & _ & ->).
  - unfold ops_ok. rewrite Forall_cons. fold (ops_ok ls). rewrite hunk_op_cases.
    unfold is_old_line, is_new_line.
    destruct (Ascii.eqb (hl_op l) " " || Ascii.eqb (hl_op l) "-") eqn:Eo.
    + rewrite (plus_not_old _ Eo), orb_false_r.
      rewrite reject_ok, IH. rewrite negb_false_iff, bool_decide_eq_true.
      assert (Hd : ∀ e, old !! cur = Some e → drop cur old = e :: drop (S cur) old).
      { intros e He. by apply drop_S. }
      assert (Hs : ∀ x k, (if Ascii.eqb (hl_op l) " " then app out [x] else out) ++ k
                  = out ++ (if Ascii.eqb (hl_op l) " " then x :: k else k)).
      { intros x k. destruct (Ascii.eqb (hl_op l) " "); [by rewrite <-app_assoc|done]. }
      rewrite Hs. simpl. rewrite <-!plus_n_Sm. simpl. split.
      * intros (He & Hok & (rest & Hr) & ->). split; [auto|]. split; [|done].
        exists rest. by rewrite (Hd _ He), Hr.
      * intros ([_ Hok] & (rest & Hr) & ->).
        assert (old !! cur = Some (line_element l)) as He.
        { rewrite <-(Nat.add_0_r cur), <-lookup_drop, Hr. done. }
        split; [done|]. split; [done|]. split; [|done].
        exists rest. rewrite (Hd _ He) in Hr. by injection Hr.
    + assert (Ascii.eqb (hl_op l) " " = false) as -> by (by destruct (Ascii.eqb (hl_op l) " ")).
      rewrite orb_false_l. destruct (Ascii.eqb (hl_op l) "+") eqn:Ep.
      * rewrite IH, <-app_assoc. simpl. naive_solver.
      * naive_solver.
Qed.


Lemma apply_hunk_list_ok old hs out cur res :
  cur ≤ length old →
  apply_hunk_list old hs out cur = Ok res ↔
  ∃ new, patched cur hs (drop cur old) new ∧ res = out ++ new.
Proof.
  revert out cur; induction hs as [|h hs IH]; intros out cur Hc; simpl.
  - split.
    + intros [= <-]. eexists. split; [constructor|done].
    + intros (new & Hp & ->). by inversion Hp.
  - rewrite obind_ok. split.
    + intros (s0 & Hs0 & [G1 [G2 (r & Hl & H)%obind_ok]%reject_ok]%reject_ok).
      apply apply_lines_ok in Hl as (Hok & (rest & Hr) & ->).
      apply reject_ok in H as [G3 Hrun]. to_prop.
      unfold len in *. set (st := N.to_nat s0) in *.
      assert (Hst : cur ≤ st ≤ length old) by lia.
      assert (Hle : st + length (old_side (hunk_lines h)) ≤ length old).
      { apply (f_equal length) in Hr. rewrite length_drop, length_app in Hr. lia. }
      apply IH in Hrun as (new & Hp & ->); [|done].
      set (gap := take (st - cur) (drop cur old)) in *.
      assert (Hg : length gap = st - cur).
      { unfold gap. rewrite length_take, length_drop. lia. }
      assert (Hdrop : drop cur old = gap ++ old_side (hunk_lines h) ++ rest).
      { rewrite <-Hr, <-(take_drop (st - cur) (drop cur old)). unfold gap. f_equal.
        rewrite drop_drop. f_equal. lia. }
      assert (Hrest : drop (st + length (old_side (hunk_lines h))) old = rest).
      { rewrite <-drop_drop, Hr. by rewrite drop_app_length. }
      rewrite Hrest in Hp. exists (gap ++ new_side (hunk_lines h) ++ new).
      rewrite Hdrop. split; [|by rewrite <-!app_assoc].
      econstructor; [|done|unfold len; lia|].
      * rewrite Hs0. f_equal. lia.
      * by replace (cur + length gap) with st by lia.
    + intros (new & Hp & ->). inversion Hp as [|? ? ? gap rest new' Hs0 Hok Hcnt Hp' E0 E1 E2]; subst.
      symmetry in E2. exists (N.of_nat (cur + length gap)). split; [done|].
      assert (Hl : cur + length gap + length (old_side (hunk_lines h)) + length rest = length old).
      { apply (f_equal length) in E2. rewrite length_drop, !length_app in E2. lia. }
      assert ((N.of_nat (cur + length gap) <? N.of_nat cur)%N = false) as -> by (apply N.ltb_ge; lia).
      assert ((len old <? N.of_nat (cur + length gap))%N = false) as ->
        by (apply N.ltb_ge; unfold len; lia).
      rewrite Nat2N.id.
      replace (cur + length gap - cur) with (length gap) by lia.
      rewrite take_app_length.
      assert (Hdr : drop (cur + length gap) old = old_side (hunk_lines h) ++ rest).
      { by rewrite <-drop_drop, E2, drop_app_length. }
      assert (Hal : apply_lines old (hunk_lines h) (out ++ gap) (cur + length gap) 0 =
        Ok ((out ++ gap) ++ new_side (hunk_lines h),
            cur + length gap + length (old_side (hunk_lines h)), length (old_side (hunk_lines h)))).
      { apply apply_lines_ok. split; [done|]. split; [by exists rest|done]. }
      rewrite Hal. simpl.
      assert ((N.of_nat (length (old_side (hunk_lines h))) =? old_count h)%N = true) as ->
        by (apply N.eqb_eq; unfold len in Hcnt; lia).
      simpl. apply IH; [lia|]. exists new'. split; [|by rewrite <-!app_assoc].
      by rewrite <-drop_drop, Hdr, drop_app_length.
Qed.

Lemma apply_hunks_ok old hs new :
  apply_hunks old hs = Ok new ↔
  ∃ els, patched 0 hs (to_elements old) els ∧ new = str_concat els.
Proof.
  unfold apply_hunks. rewrite obind_ok. setoid_rewrite apply_hunk_list_ok; [|lia..].
  rewrite drop_0. split.
  - intros (a & (els & Hp & ->) & [= <-]). eauto.
  - intros (els & Hp & ->). eauto.
Qed.

(** ** Locality *)

Definition on_ok {E A B} (f : A → B) (m : outcome E A) : outcome E B :=
  match m with Ok a => Ok (f a) | Err e => Err e | Panic => Panic end.

(** The part of a tree a set of paths can see, and the rest of it. *)
Definition restrict (P : gset string) (t : tree) : tree := filter (λ kv, kv.1 ∈ P) t.
Definition outside (P : gset string) (t : tree) : tree := filter (λ kv, kv.1 ∉ P) t.

Lemma valid_path_nonempty p : valid_path p = true → p ≠ "".
Proof. by intros H ->. Qed.

Lemma apply_file_frame w fr f :
  fr !! old_path f = None → fr !! new_path f = None →
  apply_file (w ∪ fr) f = on_ok (λ w', w' ∪ fr) (apply_file w f).
Proof.
  intros Hold Hnew. unfold apply_file.
  destruct (negb (valid_path (new_path f)) && negb (deleted f)); [done|].
  destruct (valid_path (old_path f)); [|done]. simpl.
  assert (Hl : ∀ w p, fr !! p = None → (w ∪ fr) !! p = w !! p).
  { intros w' p Hp. rewrite lookup_union, Hp. by destruct (w' !! p). }
  assert (Hdel : delete (old_path f) (w ∪ fr) = delete (old_path f) w ∪ fr).
  { rewrite delete_union. f_equal. by apply delete_id. }
  rewrite Hdel, !Hl by done. destruct (added f).
  - destruct (w !! new_path f); [done|].
    destruct (apply_hunks "" (hunks f)); simpl; [|done..]. by rewrite insert_union_l.
  - destruct (w !! old_path f) as [old|]; [|done]. destruct (deleted f).
    + destruct (apply_hunks old (hunks f)); simpl; [|done..]. by destruct (str_empty a).
    + destruct (renamed f && _); [done|].
      destruct (apply_hunks old (hunks f)); simpl; [|done..]. by rewrite insert_union_l.
Qed.

Lemma apply_files_frame files w fr :
  (∀ f, f ∈ files → fr !! old_path f = None ∧ fr !! new_path f = None) →
  apply_files (w ∪ fr) files = on_ok (λ w', w' ∪ fr) (apply_files w files).
Proof.
  revert w; induction files as [|f files IH]; intros w Hf; simpl; [done|].
  destruct (Hf f) as [Ho Hn]; [by left|]. rewrite apply_file_frame by done.
  destruct (apply_file w f); simpl; [|done..]. apply IH. intros. apply Hf. by right.
Qed.

Lemma elem_of_touched p files :
  p ∈ touched_paths files ↔ p ≠ "" ∧ ∃ f, f ∈ files ∧ (p = old_path f ∨ p = new_path f).
Proof.
  unfold touched_paths. rewrite elem_of_list_to_set, list_elem_of_filter. f_equiv.
  rewrite list_elem_of_In, in_concat. split.
  - intros (l & Hl & Hp). apply list_elem_of_In, list_elem_of_fmap in Hl as (f & -> & Hf).
    exists f. split; [done|]. simpl in Hp. naive_solver.
  - intros (f & Hf & Hp). exists [old_path f; new_path f]. split.
    + apply list_elem_of_In, list_elem_of_fmap. eauto.
    + simpl. naive_solver.
Qed.

Lemma restrict_outside P t : restrict P t ∪ outside P t = t.
Proof. apply map_filter_union_complement. Qed.

Lemma outside_touched t files f :
  t !! "" = None → f ∈ files →
  outside (touched_paths files) t !! old_path f = None ∧
  outside (touched_paths files) t !! new_path f = None.
Proof.
  intros He Hf. unfold outside.
  assert (Hp : ∀ p, p = old_path f ∨ p = new_path f →
    filter (λ kv, kv.1 ∉ touched_paths files) t !! p = None).
  { intros p Hp. apply map_lookup_filter_None. destruct (decide (p = "")) as [->|Hne]; [by left|].
    right. intros x _. simpl. rewrite elem_of_touched. naive_solver. }
  auto.
Qed.

Lemma apply_patch_local t files :
  t !! "" = None →
  apply_patch t files =
    on_ok (λ t', t' ∪ outside (touched_paths files) t)
          (apply_patch (restrict (touched_paths files) t) files).
Proof.
  intros He. unfold apply_patch.
  destruct files as [|f0 fs] eqn:Hfs; [done|]. rewrite <-Hfs in *. clear Hfs f0 fs.
  destruct (check_touched ∅ files); simpl; [|done..].
  rewrite <-(apply_files_frame files); [by rewrite restrict_outside|].
  intros f Hf. by apply outside_touched.
Qed.

(** ** Paths of the tree *)

Definition paths_valid (t : tree) : Prop := ∀ p, is_Some (t !! p) → valid_path p = true.

(** No section of the patch claims to create and to delete its file. *)
Definition modes_consistent (files : list PatchFile) : Prop :=
  ∀ f, f ∈ files → added f = true → deleted f = false.

Lemma paths_valid_insert t p c : paths_valid t → valid_path p = true → paths_valid (<[p:=c]> t).
Proof. intros Ht Hp q [x [[-> _]|[_ Hq]]%lookup_insert_Some]; eauto. Qed.

Lemma paths_valid_delete t p : paths_valid t → paths_valid (delete p t).
Proof. intros Ht q [x [_ Hq]%lookup_delete_Some]. eauto. Qed.

Lemma apply_file_paths w f w' :
  (added f = true → deleted f = false) →
  paths_valid w → apply_file w f = Ok w' → paths_valid w'.
Proof.
  intros Hm Hw H. unfold apply_file in H.
  apply reject_ok in H as [Hn H]. apply reject_ok in H as [_ H].
  assert (Hv : deleted f = false → valid_path (new_path f) = true).
  { intros Hd. rewrite Hd, andb_true_r in Hn. by apply negb_false_iff in Hn. }
  destruct (added f).
  - destruct (w !! new_path f); [done|]. run_inv H. subst w'. auto using paths_valid_insert.
  - destruct (w !! old_path f); [|done]. destruct (deleted f) eqn:Hd.
    + run_inv H. subst w'. by apply paths_valid_delete.
    + run_inv H. subst w'. auto using paths_valid_insert, paths_valid_delete.
Qed.

Lemma apply_files_paths files w w' :
  modes_consistent files → paths_valid w → apply_files w files = Ok w' → paths_valid w'.
Proof.
  revert w; induction files as [|f files IH]; intros w Hm Hw H; simpl in H; [by run_inv H; subst|].
  apply obind_ok in H as (w1 & H1 & H2). eapply IH; [|eapply apply_file_paths; [|done..]|done].
  - intros g Hg. apply Hm. by right.
  - apply Hm. by left.
Qed.

Lemma apply_patch_paths t files t' :
  modes_consistent files → paths_valid t → apply_patch t files = Ok t' → paths_valid t'.
Proof.
  intros Hm Ht H. unfold apply_patch in H. destruct files; [done|].
  apply obind_ok in H as (? & _ & H). by eapply apply_files_paths.
Qed.

(** ** The byte form of a tree *)

Lemma sorted_entries_perm {A} (t : gmap string A) : sorted_entries t ≡ₚ map_to_list t.
Proof. apply merge_sort_Permutation. Qed.

Lemma elem_of_entries {A} (t : gmap string A) d : d ∈ sorted_entries t ↔ t !! d.1 = Some d.2.
Proof. destruct d as [k a]. rewrite sorted_entries_perm. apply elem_of_map_to_list. Qed.

Lemma sorted_entries_map {A} (t : gmap string A) : list_to_map (sorted_entries t) = t.
Proof.
  rewrite <-(list_to_map_to_list t) at 2. apply list_to_map_proper; [|apply sorted_entries_perm].
  rewrite sorted_entries_perm. apply NoDup_fst_map_to_list.
Qed.

(** Every string of the tree is a Rust string. *)
Definition tree_utf8 (t : tree) : Prop :=
  map_Forall (λ p c, utf8_valid (as_bytes p) = true ∧ utf8_valid (as_bytes c) = true) t.

#[local] Transparent put_u64 put_bytes papp put_raw.

Lemma take_bytes_app a r n : n = len a → take_bytes n (a ++ r) = Ok (a, r).
Proof.
  intros ->. unfold take_bytes. rewrite len_app.
  rewrite (proj2 (N.leb_le _ _)) by lia. unfold len. rewrite Nat2N.id.
  by rewrite take_app_length, drop_app_length.
Qed.

Lemma read_field_put s b r :
  utf8_valid (as_bytes s) = true → put_str s = Some b → read_field (b ++ r) = Ok (s, r).
Proof.
  intros Hu Hb. unfold put_str, put_bytes in Hb.
  destruct (len (as_bytes s) <=? u32_max)%N eqn:Hl; [|done].
  apply (inj Some) in Hb. subst b. apply N.leb_le in Hl.
  unfold read_field. rewrite <-app_assoc, take_bytes_app by (unfold len; by rewrite length_le_bytes).
  cbn [obind fst snd]. rewrite of_le_bytes_le_bytes, N.mod_small by (unfold u32_max in Hl; simpl; lia).
  rewrite take_bytes_app by done. simpl. rewrite Hu. simpl. unfold as_bytes.
  by rewrite String.string_of_list_byte_of_string.
Qed.

Lemma read_u64_put n b r : put_u64 n = Some b → read_u64 (b ++ r) = Ok (n, r).
Proof.
  unfold put_u64. destruct (n <=? u64_max)%N eqn:Hl; [|done].
  intros Hb. apply (inj Some) in Hb. subst b. apply N.leb_le in Hl.
  unfold read_u64. rewrite take_bytes_app by (unfold len; by rewrite length_le_bytes).
  cbn [obind fst snd]. rewrite of_le_bytes_le_bytes, N.mod_small; [done|]. unfold u64_max in Hl. simpl. lia.
Qed.

Lemma put_doc_length d b : put_doc d = Some b → 8 ≤ length b.
Proof.
  unfold put_doc, put_str, put_bytes. intros (x & y & Hx & Hy & ->)%papp_some.
  repeat case_match; try done. apply (inj Some) in Hx, Hy. subst.
  rewrite !length_app, !length_le_bytes. lia.
Qed.

Definition doc_utf8 (d : string * string) : Prop :=
  utf8_valid (as_bytes d.1) = true ∧ utf8_valid (as_bytes d.2) = true.

Lemma read_entries_put l b r fuel t :
  Forall doc_utf8 l → put_each put_doc l = Some b → length l ≤ fuel →
  read_entries fuel (len l) (b ++ r) t = Ok (foldl (λ t d, <[d.1 := d.2]> t) t l, r).
Proof.
  revert b fuel t; induction l as [|d l IH]; intros b fuel t Hu Hb Hf; simpl in Hb.
  - injection Hb as <-. by destruct fuel.
  - apply papp_some in Hb as (bd & bl & Hd & Hl & ->).
    apply Forall_cons in Hu as [[Hu1 Hu2] Hu].
    destruct fuel as [|fuel]; [simpl in Hf; lia|]. cbn [read_entries].
    assert ((len (d :: l) =? 0)%N = false) as -> by (apply N.eqb_neq; rewrite len_cons; lia).
    unfold put_doc in Hd. apply papp_some in Hd as (b1 & b2 & H1 & H2 & ->).
    rewrite <-!app_assoc, (read_field_put _ _ _ Hu1 H1). simpl.
    rewrite (read_field_put _ _ _ Hu2 H2). simpl.
    replace (len (d :: l) - 1)%N with (len l) by (rewrite len_cons; lia).
    apply IH; [done..|simpl in Hf; lia].
Qed.

Lemma foldl_insert_map (l : list (string * string)) (t : tree) :
  NoDup l.*1 → (∀ p, p ∈ l.*1 → t !! p = None) →
  foldl (λ t d, <[d.1 := d.2]> t) t l = list_to_map l ∪ t.
Proof.
  revert t; induction l as [|[p c] l IH]; intros t Hnd Ht; simpl.
  - by rewrite (left_id_L ∅ (∪)).
  - inversion_clear Hnd as [|? ? Hp Hnd'].
    rewrite IH; [|done|].
    + rewrite <-insert_union_l, <-insert_union_r; [done|]. by apply not_elem_of_list_to_map_1.
    + intros q Hq. rewrite lookup_insert_ne by set_solver. apply Ht. by right.
Qed.

Lemma strip_bytes_app p r : strip_bytes p (p ++ r) = Some r.
Proof. induction p as [|x p IH]; simpl; [done|]. by rewrite decide_True. Qed.

Lemma wiki_base_roundtrip_aux t b :
  tree_utf8 t → wiki_base_canonical_bytes t = Some b → wiki_base_from_canonical_bytes b = Ok t.
Proof.
  intros Hu Hb. unfold wiki_base_canonical_bytes, put_run64 in Hb.
  apply papp_some in Hb as (tg & b1 & Htg & Hb & ->). injection Htg as <-.
  apply papp_some in Hb as (bc & be & Hc & He & ->).
  unfold wiki_base_from_canonical_bytes. rewrite strip_bytes_app. cbn [ok_or obind].
  rewrite (read_u64_put _ _ be Hc). cbn [obind fst snd].
  set (l := sorted_entries t) in *.
  assert (Hf : Forall doc_utf8 l).
  { apply Forall_forall. intros [p c] Hin. unfold l in Hin.
    rewrite sorted_entries_perm in Hin. apply elem_of_map_to_list in Hin. by apply (Hu p c). }
  assert (Hlen : length l ≤ length be).
  { clear -He. revert be He; induction l as [|d l IH]; intros be He; simpl in *; [lia|].
    apply papp_some in He as (x & y & Hx & Hy & ->). apply put_doc_length in Hx.
    apply IH in Hy. rewrite length_app. lia. }
  replace be with (be ++ []) at 2 by apply app_nil_r.
  rewrite (read_entries_put l be [] _ ∅ Hf He) by (rewrite length_app; lia). simpl.
  f_equal. rewrite foldl_insert_map.
  - rewrite (right_id_L ∅ (∪)). apply sorted_entries_map.
  - unfold l. rewrite sorted_entries_perm. apply NoDup_fst_map_to_list.
  - intros p _. apply lookup_empty.
Qed.

#[local] Opaque put_u64 put_bytes papp put_raw.

#[export] Instance put_doc_self_delim : SelfDelim put_doc.
Proof. exact (papp_pair_self_delim put_str put_str). Qed.

Lemma wiki_base_bytes_inj t1 t2 b :
  wiki_base_canonical_bytes t1 = Some b → wiki_base_canonical_bytes t2 = Some b → t1 = t2.
Proof.
  unfold wiki_base_canonical_bytes. intros H1 H2.
  destruct (put_tag_peel _ _ _ _ H1 H2) as (b' & G1 & G2).
  rewrite <-(sorted_entries_map t1), <-(sorted_entries_map t2). f_equal.
  by eapply (self_delim_inj (put_run64 put_doc)).
Qed.

(** ** Folds *)

(** The sections of an applied payload's patch. *)
Definition payload_files (payload : Value) : list PatchFile :=
  parse_patch (default "" (get_str "value" payload)).

Lemma wiki_fold_one_paths t payload :
  modes_consistent (payload_files payload) → paths_valid t →
  paths_valid (wiki_fold_one t payload).1.
Proof.
  intros Hm Ht. unfold wiki_fold_one, payload_files in *.
  case_decide; [|done]. destruct (get_str "value" payload) as [patch|]; [|done]. simpl in *.
  destruct (apply_patch t (parse_patch patch)) eqn:E; [|done..]. by eapply apply_patch_paths.
Qed.

(** ** Properties *)

(** Hunks apply exactly or not at all.  Applying the hunks of a section
    to a text succeeds with a result exactly when the relation [patched]
    relates the two: every hunk stands at the line its header names, after
    the one before it, shows precisely the lines it replaces with the count
    its header gives, and everything between the hunks is kept. *)
Theorem hunks_apply_exactly old hs new :
  apply_hunks old hs = Ok new ↔
  ∃ els, patched 0 hs (to_elements old) els ∧ new = str_concat els.
Proof. apply apply_hunks_ok. Qed.

(** A patch touches what it names.  On a tree without an empty path, the
    result of a patch is its result on the part of the tree it names, with
    the rest carried over unchanged, refusals included; no document outside
    the named paths can influence or be influenced by it. *)
Theorem patch_touches_named t files :
  t !! "" = None →
  apply_patch t files =
    on_ok (λ t', t' ∪ outside (touched_paths files) t)
          (apply_patch (restrict (touched_paths files) t) files).
Proof. apply apply_patch_local. Qed.

(** The ratified tree holds well-formed paths.  Whatever payloads are
    folded, every path of the tree is relative, at most eight segments deep
    and free of empty, dot and backslash segments, provided no section claims
    both to create and to delete its file. *)
Theorem wiki_tree_paths payloads :
  Forall (λ v, modes_consistent (payload_files v)) payloads → paths_valid (wiki_fold payloads).
Proof.
  intros Hp. unfold wiki_fold, wiki_fold_with_rev.
  assert (Hgen : ∀ st, paths_valid st.1 → paths_valid (fold_left fold_step payloads st).1).
  { induction Hp as [|v payloads Hv Hp IH]; intros st Ht; simpl; [done|]. apply IH.
    unfold fold_step. pose proof (wiki_fold_one_paths st.1 v Hv Ht) as Ho. destruct st as [t n].
    simpl in *. destruct (wiki_fold_one t v). done. }
  apply Hgen. simpl. intros p [x Hx]. by rewrite lookup_empty in Hx.
Qed.

(** The tree's byte form reads back.  Decoding the canonical bytes of any
    tree of UTF-8 documents gives that tree. *)
Theorem wiki_base_roundtrip t b :
  tree_utf8 t → wiki_base_canonical_bytes t = Some b → wiki_base_from_canonical_bytes b = Ok t.
Proof. apply wiki_base_roundtrip_aux. Qed.
