(* ===== verification/WikiPatch.v ===== *)
(** * The patch emitter

    crates/molt-core/src/wiki_patch.rs: the net change between two trees as
    one git-format patch, its counts, and their summary.  The line diff is the
    crate [similar], the class [Similar]; its documented output, a unified
    diff, is described by [hunk_text] and [replays]. *)

From S2P Require Import Prelude Bytes Strs Json WikiFold.
#[local] Open Scope string_scope.

(** ** Unified diffs *)

Inductive DiffOp :=
  | Equal (old_index new_index olen : N)
  | Delete (old_index old_len new_index : N)
  | Insert (old_index new_index new_len : N)
  | Replace (old_index old_len new_index new_len : N).

(** [TextDiff::from_lines(old, new)]: its operations, and its unified diff
    with a context radius and the two names of the header. *)
Class Similar := {
  diff_ops : string → string → list DiffOp;
  unified_diff : N → string → string → string → string → string;
}.

(** A hunk: where it begins on both sides, from 0, and its lines, each with
    its sign and its own newline. *)
Record DiffHunk := mkDiffHunk { dh_old : N; dh_new : N; dh_lines : list (ascii * string) }.

Definition dh_old_side (h : DiffHunk) : list string :=
  snd <$> filter (λ l, Ascii.eqb l.1 " " || Ascii.eqb l.1 "-" = true) (dh_lines h).
Definition dh_new_side (h : DiffHunk) : list string :=
  snd <$> filter (λ l, Ascii.eqb l.1 " " || Ascii.eqb l.1 "+" = true) (dh_lines h).

(** "l,c" from 1; a count of one is left out, an empty range names the line
    before it. *)
Definition range_text (start count : N) : string :=
  if (count =? 1)%N then to_string (start + 1)
  else to_string (if (count =? 0)%N then start else start + 1) +:+ "," +:+ to_string count.

Definition hunk_header (h : DiffHunk) : string :=
  "@@ -" +:+ range_text (dh_old h) (len (dh_old_side h)) +:+ " +" +:+ range_text (dh_new h) (len (dh_new_side h)) +:+ " @@".

(** The last line of a text may lack its newline, which is said below it. *)
Definition ends_nl (s : string) : bool := ends_with (String nl "") s.
Definition line_text (l : ascii * string) : string :=
  String l.1 l.2 +:+ (if ends_nl l.2 then "" else String nl ("\ No newline at end of file" +:+ String nl "")).

Definition hunk_text (h : DiffHunk) : string :=
  hunk_header h +:+ String nl "" +:+ str_concat (line_text <$> dh_lines h).

(** What lies between the hunks is common, and each hunk shows what it
    replaces. *)
Inductive replays : nat → list DiffHunk → list string → list string → Prop :=
  | replays_done c rest : replays c [] rest rest
  | replays_hunk c h hs gap old new :
      dh_old h = N.of_nat (c + length gap) →
      Forall (λ l, is_hunk_op l.1 = true) (dh_lines h) →
      replays (c + length gap + length (dh_old_side h)) hs old new →
      replays c (h :: hs) (app gap (app (dh_old_side h) old)) (app gap (app (dh_new_side h) new)).

Definition no_cr (s : string) : bool := negb (str_has cr s).

(** Documented behaviour of the crate on texts whose lines end in a line
    feed: the output is a unified diff, empty for equal texts. *)
Definition similar_faithful `{Similar} : Prop :=
  ∀ radius a b old new, no_cr old = true → no_cr new = true →
  ∃ hs, unified_diff radius a b old new =
          match hs with
          | [] => ""
          | _ => "--- " +:+ a +:+ String nl ("+++ " +:+ b +:+ String nl (str_concat (hunk_text <$> hs)))
          end ∧
        replays 0 hs (to_elements old) (to_elements new).

(** ** The emitter *)

Section Emitter.
Context `{Similar}.

Record PatchCounts := mkCounts { pc_added : N; pc_deleted : N; pc_moved : N; pc_lines : N }.

Definition counts_default : PatchCounts := {| pc_added := 0; pc_deleted := 0; pc_moved := 0; pc_lines := 0 |}.

Definition summary_part (out : string) (p : N * string) : string :=
  if (0 <? p.1)%N then (if str_empty out then out else out +:+ " ") +:+ p.2 +:+ to_string p.1 else out.

Definition summary (c : PatchCounts) : string :=
  foldl summary_part "" [(pc_added c, "+"); (pc_deleted c, "-"); (pc_moved c, "→"); (pc_lines c, "~")].

Definition op_lines (op : DiffOp) : N :=
  match op with
  | Insert _ _ new_len => new_len
  | Delete _ old_len _ => old_len
  | Replace _ old_len _ new_len => N.max old_len new_len
  | Equal _ _ _ => 0%N
  end.

Definition touched_lines (old new : string) : N := foldl (λ n op, (n + op_lines op)%N) 0%N (diff_ops old new).

Inductive Change :=
  | Added (path content : string)
  | Deleted (path content : string)
  | Edited (old_path new_path before content : string).

(** [Change::key]. *)
Definition change_key (c : Change) : string :=
  match c with Added path _ | Deleted path _ => path | Edited _ new_path _ _ => new_path end.

Definition change_le (c d : Change) : Prop := String.le (change_key c) (change_key d).
#[export] Instance change_le_dec c d : Decision (change_le c d).
Proof. unfold change_le. apply _. Defined.

(** The base paths a rename takes away. *)
Definition consumed (base after renames : tree) : gset string :=
  list_to_set (snd <$> filter (λ r, is_some (after !! r.1) && is_some (base !! r.2) = true) (sorted_entries renames)).

(** The base document a path of the new side was renamed from. *)
Definition rename_source (base renames : tree) (path : string) : option (string * string) :=
  renames !! path ≫= λ old, (λ before, (old, before)) <$> base !! old.

Definition change_of (base after renames : tree) (d : string * string) : option Change :=
  match rename_source base renames d.1 with
  | Some (old_path, before) =>
      if negb (String.eqb old_path d.1) || negb (String.eqb before d.2)
      then Some (Edited old_path d.1 before d.2) else None
  | None =>
      match base !! d.1 with
      | Some before =>
          if bool_decide (d.1 ∈ consumed base after renames) then Some (Added d.1 d.2)
          else if negb (String.eqb before d.2) then Some (Edited d.1 d.1 before d.2) else None
      | None => Some (Added d.1 d.2)
      end
  end.

Definition deletion_of (base after renames : tree) (d : string * string) : option Change :=
  if is_some (after !! d.1) || bool_decide (d.1 ∈ consumed base after renames) then None else Some (Deleted d.1 d.2).

Definition changes (base after renames : tree) : list Change :=
  merge_sort change_le
    (app (omap (change_of base after renames) (sorted_entries after))
         (omap (deletion_of base after renames) (sorted_entries base))).

Definition unified (old new a b : string) : string := unified_diff 3 a b old new.

(** The section of one change. *)
Definition change_text (c : Change) : string :=
  match c with
  | Added path content =>
      "diff --git a/" +:+ path +:+ " b/" +:+ path +:+ String nl ("new file mode 100644" +:+ String nl
      (unified "" content "/dev/null" ("b/" +:+ path)))
  | Deleted path content =>
      "diff --git a/" +:+ path +:+ " b/" +:+ path +:+ String nl ("deleted file mode 100644" +:+ String nl
      (unified content "" ("a/" +:+ path) "/dev/null"))
  | Edited old_path new_path before content =>
      "diff --git a/" +:+ old_path +:+ " b/" +:+ new_path +:+ String nl
      ((if negb (String.eqb old_path new_path)
        then (if String.eqb before content then "similarity index 100%" +:+ String nl "" else "") +:+
             "rename from " +:+ old_path +:+ String nl ("rename to " +:+ new_path +:+ String nl "")
        else "") +:+
       (if negb (String.eqb before content) then unified before content ("a/" +:+ old_path) ("b/" +:+ new_path) else ""))
  end.

Definition build_patch (base after renames : tree) : option string :=
  match changes base after renames with
  | [] => None
  | cs => Some (str_concat (change_text <$> cs))
  end.

Definition count_change (c : PatchCounts) (change : Change) : PatchCounts :=
  match change with
  | Added _ _ => {| pc_added := pc_added c + 1; pc_deleted := pc_deleted c; pc_moved := pc_moved c; pc_lines := pc_lines c |}
  | Deleted _ _ => {| pc_added := pc_added c; pc_deleted := pc_deleted c + 1; pc_moved := pc_moved c; pc_lines := pc_lines c |}
  | Edited old_path new_path before content =>
      {| pc_added := pc_added c; pc_deleted := pc_deleted c;
         pc_moved := if String.eqb old_path new_path then pc_moved c else pc_moved c + 1;
         pc_lines := if String.eqb before content then pc_lines c else pc_lines c + touched_lines before content |}
  end%N.

Definition count_changes (base after renames : tree) : PatchCounts :=
  foldl count_change counts_default (changes base after renames).
End Emitter.
