(* ===== verification/WikiPatchProps.v ===== *)
(** * What the emitter writes, the applier reads

    The theory of [WikiPatch]: the emitted text as a list of lines, what the
    reader makes of them, and that applying it to the base gives the tree the
    writer meant. *)

From S2P Require Import Prelude Bytes Strs Json WikiFold WikiPatch.
#[local] Open Scope string_scope.
#[local] Arguments String.append !_ _ / : simpl nomatch.

(** ** Lines *)

(** Neither line feed nor carriage return. *)
Definition plain_char (c : ascii) : bool := negb (Ascii.eqb c nl) && negb (Ascii.eqb c cr).
Abbreviation plain s := (str_all plain_char s = true).

Fixpoint unlines (ls : list string) : string :=
  match ls with [] => "" | l :: ls => l +:+ String nl (unlines ls) end.

Lemma unlines_app ls ks : unlines (app ls ks) = unlines ls +:+ unlines ks.
Proof. induction ls as [|l ls IH]; simpl; [done|]. rewrite IH, string_app_assoc. done. Qed.

Lemma unlines_concat (l : list (list string)) : str_concat (unlines <$> l) = unlines (mjoin l).
Proof. induction l as [|ls l IH]; simpl; [done|]. by rewrite unlines_app, <-IH. Qed.

Lemma str_rev_app_acc s acc : str_rev_app s acc = str_rev_app s "" +:+ acc.
Proof.
  revert acc. induction s as [|c s IH]; intros acc; simpl; [done|].
  rewrite IH, (IH (String c "")), string_app_assoc. done.
Qed.

Lemma str_all_rev_app f s acc : str_all f (str_rev_app s acc) = str_all f s && str_all f acc.
Proof.
  revert acc. induction s as [|c s IH]; intros acc; simpl; [done|]. rewrite IH. simpl.
  destruct (f c), (str_all f s), (str_all f acc); done.
Qed.

Lemma strip_cr_plain s : plain s → strip_cr s = s.
Proof.
  intros Hs. unfold strip_cr, strip_suffix.
  assert (Hr : plain (str_rev s)) by (unfold str_rev; by rewrite str_all_rev_app, Hs).
  destruct (str_rev s) as [|c r]; [done|]. cbn [str_rev str_rev_app strip_prefix].
  destruct (Ascii.eqb_spec cr c) as [<-|]; [|done]. done.
Qed.

Lemma split_on_plain l s : plain l → split_on nl (l +:+ String nl s) = l :: split_on nl s.
Proof.
  induction l as [|c l IH]; simpl; [done|]. intros [Hc Hl]%andb_true_iff. rewrite IH by done.
  unfold plain_char in Hc. by destruct (Ascii.eqb c nl).
Qed.

Lemma lines_unlines ls : Forall (λ l, plain l) ls → lines (unlines ls) = ls.
Proof.
  induction 1 as [|l ls Hl _ IH]; [done|]. simpl. unfold lines. rewrite split_on_plain by done.
  rewrite lines_terminated, IH. by rewrite strip_cr_plain.
Qed.

(** The elements of a text without carriage returns. *)
Definition element_ok (e : string) : Prop := ∃ t, plain t ∧ (e = t +:+ String nl "" ∨ e = t ∧ t ≠ "").

Lemma to_elements_ok s e : no_cr s = true → e ∈ to_elements s → element_ok e.
Proof.
  unfold no_cr, str_has. rewrite negb_involutive. revert e. induction s as [|c s IH]; intros e; cbn [str_all to_elements]; [by intros _ ?%elem_of_nil|].
  intros [Hc Hs]%andb_true_iff. apply negb_true_iff in Hc. destruct (Ascii.eqb_spec c nl) as [->|Hn].
  - intros [->|He]%elem_of_cons; [|by apply IH]. exists "". split; [done|by left].
  - assert (Hpc : plain_char c = true).
    { unfold plain_char. rewrite (Ascii.eqb_sym c cr), Hc. by destruct (Ascii.eqb_spec c nl). }
    destruct (to_elements s) as [|h t] eqn:Et.
    + intros ->%list_elem_of_singleton. exists (String c ""). split; [by cbn; rewrite Hpc|by right].
    + intros [->|He]%elem_of_cons; [|apply IH; [done|by right]].
      destruct (IH h Hs ltac:(by left)) as (u & Hu & [->|[-> _]]).
      * exists (String c u). split; [cbn; by rewrite Hpc|by left].
      * exists (String c u). split; [cbn; by rewrite Hpc|by right].
Qed.

Lemma str_concat_elements s : str_concat (to_elements s) = s.
Proof.
  induction s as [|c s IH]; simpl; [done|]. destruct (Ascii.eqb_spec c nl) as [->|].
  - simpl. by rewrite IH.
  - destruct (to_elements s) as [|h t]; simpl in *; by rewrite <-IH.
Qed.

Lemma ends_nl_app t : ends_nl (t +:+ String nl "") = true.
Proof.
  unfold ends_nl, ends_with, strip_suffix. assert (E : str_rev (t +:+ String nl "") = String nl (str_rev t)).
  { unfold str_rev. induction t as [|c t IH]; simpl; [done|]. rewrite str_rev_app_acc, IH, (str_rev_app_acc t (String c "")). done. }
  rewrite E. done.
Qed.

Lemma ends_nl_plain t : plain t → ends_nl t = false.
Proof.
  intros Ht. unfold ends_nl, ends_with, strip_suffix.
  assert (Hr : plain (str_rev t)) by (unfold str_rev; by rewrite str_all_rev_app, Ht).
  destruct (str_rev t) as [|c r]; [done|]. cbn [str_rev str_rev_app strip_prefix].
  destruct (Ascii.eqb_spec nl c) as [<-|]; [done|done].
Qed.

(** ** Hunks *)

Fixpoint body (s : string) : string :=
  match s with "" => "" | String c s => if Ascii.eqb c nl then "" else String c (body s) end.

Definition hint : string := "\ No newline at end of file".

Lemma body_app t s : plain t → body (t +:+ s) = t +:+ body s.
Proof.
  induction t as [|c t IH]; simpl; [done|]. intros [Hc Ht]%andb_true_iff. rewrite IH by done.
  unfold plain_char in Hc. by destruct (Ascii.eqb c nl).
Qed.

Lemma body_plain t : plain t → body t = t.
Proof. intros Ht. rewrite <-(string_app_nil_r t) at 1. rewrite body_app by done. simpl. apply string_app_nil_r. Qed.

Lemma element_body e : element_ok e → plain (body e) ∧ e = body e +:+ (if ends_nl e then String nl "" else "").
Proof.
  intros (t & Ht & [->|[-> _]]).
  - rewrite body_app, ends_nl_app by done. simpl. by rewrite string_app_nil_r.
  - rewrite body_plain, ends_nl_plain by done. by rewrite string_app_nil_r.
Qed.

(** What the reader makes of a line and of a hunk. *)
Definition parsed_line (l : ascii * string) : HunkLine :=
  {| hl_op := l.1; hl_text := body l.2; hl_newline := ends_nl l.2 |}.

Definition parsed_hunk (h : DiffHunk) : Hunk :=
  let c := len (dh_old_side h) in
  {| old_start := if (c =? 0)%N then dh_old h else (dh_old h + 1)%N; old_count := c;
     hunk_lines := parsed_line <$> dh_lines h |}.

Definition line_lines (l : ascii * string) : list string :=
  String l.1 (body l.2) :: (if ends_nl l.2 then [] else [hint]).

Definition hunk_text_lines (h : DiffHunk) : list string := hunk_header h :: mjoin (line_lines <$> dh_lines h).

Record hunk_ok (h : DiffHunk) : Prop := {
  hk_ops : Forall (λ l, is_hunk_op l.1 = true) (dh_lines h);
  hk_elements : Forall (λ l, element_ok l.2) (dh_lines h);
  hk_count : (len (dh_old_side h) ≤ u64_max)%N;
  hk_old : (dh_old h < u64_max)%N;
}.

Lemma line_text_lines l : element_ok l.2 → line_text l = unlines (line_lines l).
Proof.
  intros [_ He]%element_body. unfold line_text, line_lines. destruct l as [op e]. cbn [fst snd] in *.
  rewrite He at 1. destruct (ends_nl e); cbn [unlines String.append]; by rewrite ?string_app_nil_r.
Qed.

Lemma hunk_text_unlines h : hunk_ok h → hunk_text h = unlines (hunk_text_lines h).
Proof.
  intros Hh. unfold hunk_text, hunk_text_lines. cbn [unlines]. f_equal. cbn [String.append]. f_equal.
  rewrite <-unlines_concat, <-list_fmap_compose. f_equal. apply list_fmap_ext. intros i l Hl.
  apply line_text_lines. eapply (Forall_lookup_1 _ _ _ _ (hk_elements h Hh) Hl).
Qed.

Lemma split_on_first c l s : str_has c l = false → split_on c (l +:+ String c s) = l :: split_on c s.
Proof.
  unfold str_has. intros Hl%negb_false_iff. induction l as [|a l IH]; cbn [String.append split_on str_all] in *.
  - by rewrite Ascii.eqb_refl.
  - apply andb_true_iff in Hl as [Ha%negb_true_iff Hl]. by rewrite Ascii.eqb_sym, Ha, (IH Hl).
Qed.

Lemma digits_no c n : is_digit c = false → str_has c (to_string n) = false.
Proof. apply str_all_has, to_string_digits. Qed.

Lemma str_has_app c s t : str_has c (s +:+ t) = str_has c s || str_has c t.
Proof. unfold str_has. rewrite str_all_app. by rewrite negb_andb. Qed.

Lemma range_no_space s c : str_has " " (range_text s c) = false.
Proof. unfold range_text. repeat case_match; rewrite ?str_has_app, !digits_no by done; done. Qed.

Lemma header_parses h s : hunk_ok h →
  parse_hunk_old ("-" +:+ range_text (dh_old h) (len (dh_old_side h)) +:+ String " " s) =
  (old_start (parsed_hunk h), old_count (parsed_hunk h)).
Proof.
  intros Hh. pose proof (hk_count h Hh) as Hc. pose proof (hk_old h Hh) as Ho. unfold parse_hunk_old.
  set (c := len (dh_old_side h)) in *. set (o := dh_old h) in *.
  assert (E : split_on " " ("-" +:+ range_text o c +:+ String " " s) = ("-" +:+ range_text o c) :: split_on " " s).
  { rewrite <-string_app_assoc. apply split_on_first. rewrite str_has_app, range_no_space. done. }
  rewrite E. cbn [hd]. rewrite strip_prefix_app. unfold parsed_hunk. cbn [old_start old_count]. fold c o. unfold range_text.
  destruct (N.eqb_spec c 1) as [->|Hc1].
  - assert (En : split_once "," (to_string (o + 1)) = None).
    { destruct (split_once "," (to_string (o + 1))) as [[a b]|] eqn:Es; [|done]. apply split_once_some in Es as [Es _].
      pose proof (digits_no "," (o + 1) eq_refl) as Hd. rewrite Es, str_has_app in Hd. apply orb_false_iff in Hd as [_ Hd].
      unfold str_has in Hd. cbn in Hd. done. }
    rewrite En. cbn [N.eqb]. rewrite parse_to_string by lia. done.
  - change ("," +:+ to_string c) with (String "," (to_string c)). rewrite split_once_app by (apply digits_no; done).
    rewrite !parse_to_string; [done|lia|destruct (c =? 0)%N; lia].
Qed.

(** ** The reader on emitted lines *)

Definition read_lines (ls : list string) (f : PatchFile) : PatchFile := fold_left (λ f l, parse_file_line l f) ls f.

Lemma read_lines_app ls ks f : read_lines (app ls ks) f = read_lines ks (read_lines ls f).
Proof. apply fold_left_app. Qed.

Lemma upd_last_snoc {A} (g : A → A) l x : upd_last g (app l [x]) = app l [g x].
Proof. induction l as [|y l IH]; [done|]. destruct l as [|z l]; [done|]. change (y :: upd_last g (app (z :: l) [x]) = y :: app (z :: l) [g x]). by rewrite IH. Qed.

(** Lines that do not begin a section go to the last one. *)
Lemma fold_section ls files f : Forall (λ l, strip_prefix "diff --git a/" l = None) ls →
  fold_left parse_line ls (app files [f]) = app files [read_lines ls f].
Proof.
  intros Hls. revert f. induction Hls as [|l ls Hl _ IH]; intros f; [done|]. cbn [fold_left read_lines].
  unfold parse_line at 2. rewrite Hl, upd_last_snoc. apply IH.
Qed.

(** A section, with a list of hunks. *)
Definition set_hunks (hs : list Hunk) (f : PatchFile) : PatchFile :=
  {| old_path := old_path f; new_path := new_path f; added := added f; deleted := deleted f; renamed := renamed f; hunks := hs |}.

Lemma read_at head f : parse_file_line ("@@ " +:+ head) f =
  set_hunks (app (hunks f) [{| old_start := (parse_hunk_old head).1; old_count := (parse_hunk_old head).2; hunk_lines := [] |}]) f.
Proof. change (parse_file_line ("@@ " +:+ head) f) with (let '(s, c) := parse_hunk_old head in
  with_hunks (λ hs, app hs [{| old_start := s; old_count := c; hunk_lines := [] |}]) f). by destruct (parse_hunk_old head). Qed.

Lemma read_header h f : hunk_ok h →
  parse_file_line (hunk_header h) f =
  set_hunks (app (hunks f) [{| old_start := old_start (parsed_hunk h); old_count := old_count (parsed_hunk h); hunk_lines := [] |}]) f.
Proof.
  intros Hh. pose proof (header_parses h ("+" +:+ range_text (dh_new h) (len (dh_new_side h)) +:+ " @@") Hh) as Hp.
  unfold hunk_header. change ("@@ -" +:+ ?s) with ("@@ " +:+ ("-" +:+ s)). change (" +" +:+ ?s) with (String " " ("+" +:+ s)).
  rewrite read_at, Hp. done.
Qed.

(** A content line joins the last hunk, a hint takes its newline. *)
Lemma read_content op t f hs h : is_hunk_op op = true → hunks f = app hs [h] →
  parse_file_line (String op t) f =
  set_hunks (app hs [with_lines (λ ls, app ls [{| hl_op := op; hl_text := t; hl_newline := true |}]) h]) f.
Proof.
  intros Hop Hf. assert (Hne : (match hunks f with [] => true | _ => false end) = false) by (rewrite Hf; by destruct hs).
  assert (Hops : op = "+"%char ∨ op = "-"%char ∨ op = " "%char).
  { unfold is_hunk_op in Hop. destruct (Ascii.eqb_spec op "+"), (Ascii.eqb_spec op "-"), (Ascii.eqb_spec op " "); auto. done. }
  assert (E : parse_file_line (String op t) f =
    if (match hunks f with [] => true | _ => false end) &&
       (starts_with "similarity index" (String op t) || starts_with "--- " (String op t) || starts_with "+++ " (String op t))
    then f else with_hunks (upd_last (with_lines (λ ls, app ls [{| hl_op := op; hl_text := t; hl_newline := true |}]))) f)
    by (destruct Hops as [->|[->| ->]]; reflexivity).
  rewrite E, Hne. cbn [andb]. unfold with_hunks. rewrite Hf, upd_last_snoc. done.
Qed.

Lemma read_hint f hs h ls l : hunks f = app hs [h] → hunk_lines h = app ls [l] →
  parse_file_line hint f = set_hunks (app hs [with_lines (λ _, app ls [no_newline l]) h]) f.
Proof.
  intros Hf Hl. change (parse_file_line hint f) with (with_hunks (upd_last (with_lines (upd_last no_newline))) f).
  unfold with_hunks. rewrite Hf, upd_last_snoc. unfold with_lines. by rewrite Hl, upd_last_snoc.
Qed.

Lemma read_line l f hs h : is_hunk_op l.1 = true → hunks f = app hs [h] →
  read_lines (line_lines l) f = set_hunks (app hs [with_lines (λ ls, app ls [parsed_line l]) h]) f.
Proof.
  intros Hop Hf. unfold line_lines, read_lines. cbn [fold_left]. rewrite (read_content l.1 _ f hs h) by done.
  unfold parsed_line. destruct (ends_nl l.2); [done|]. cbn [fold_left].
  erewrite read_hint; [|done|done]. done.
Qed.

Lemma read_content_lines ls f hs h : Forall (λ l, is_hunk_op l.1 = true) ls → hunks f = app hs [h] →
  read_lines (mjoin (line_lines <$> ls)) f = set_hunks (app hs [with_lines (λ k, app k (parsed_line <$> ls)) h]) f.
Proof.
  intros Hls. revert f h. induction Hls as [|l ls Hl _ IH]; intros f h Hf.
  - destruct f, h. cbn in *. unfold with_lines, set_hunks. cbn. rewrite Hf. by rewrite app_nil_r.
  - change (mjoin (line_lines <$> l :: ls)) with (app (line_lines l) (mjoin (line_lines <$> ls))).
    rewrite read_lines_app, (read_line l f hs h) by done. rewrite (IH _ (with_lines (λ k, app k [parsed_line l]) h)) by done.
    unfold set_hunks, with_lines. cbn. by rewrite <-app_assoc.
Qed.

Lemma read_hunk h f : hunk_ok h → read_lines (hunk_text_lines h) f = set_hunks (app (hunks f) [parsed_hunk h]) f.
Proof.
  intros Hh. unfold hunk_text_lines. change (read_lines (hunk_header h :: ?ls) f) with (read_lines ls (parse_file_line (hunk_header h) f)).
  rewrite read_header by done. erewrite read_content_lines; [|apply hk_ops; done|done]. done.
Qed.

Lemma read_hunks hs f : Forall hunk_ok hs →
  read_lines (mjoin (hunk_text_lines <$> hs)) f = set_hunks (app (hunks f) (parsed_hunk <$> hs)) f.
Proof.
  intros Hhs. revert f. induction Hhs as [|h hs Hh _ IH]; intros f.
  - destruct f. unfold set_hunks. cbn. by rewrite app_nil_r.
  - change (mjoin (hunk_text_lines <$> h :: hs)) with (app (hunk_text_lines h) (mjoin (hunk_text_lines <$> hs))).
    rewrite read_lines_app, read_hunk, IH by done. unfold set_hunks. cbn. by rewrite <-app_assoc.
Qed.

(** ** A diff that replays, applies *)

Lemma parsed_element l : element_ok l.2 → line_element (parsed_line l) = l.2.
Proof.
  intros [_ He]%element_body. unfold line_element, parsed_line. cbn [hl_newline hl_text].
  symmetry. etrans; [exact He|]. destruct (ends_nl l.2); [done|]. by rewrite string_app_nil_r.
Qed.

Lemma parsed_sides ls : Forall (λ l, element_ok l.2) ls →
  old_side (parsed_line <$> ls) = snd <$> filter (λ l, Ascii.eqb l.1 " " || Ascii.eqb l.1 "-" = true) ls ∧
  new_side (parsed_line <$> ls) = snd <$> filter (λ l, Ascii.eqb l.1 " " || Ascii.eqb l.1 "+" = true) ls.
Proof.
  induction 1 as [|l ls Hl _ [IHo IHn]]; [done|]. rewrite !filter_cons. cbn [fmap list_fmap old_side new_side].
  change (old_side (list_fmap _ _ parsed_line ls)) with (old_side (parsed_line <$> ls)).
  change (new_side (list_fmap _ _ parsed_line ls)) with (new_side (parsed_line <$> ls)).
  rewrite IHo, IHn. unfold is_old_line, is_new_line. cbn [hl_op parsed_line]. rewrite parsed_element by done.
  split; by destruct (_ || _).
Qed.

Lemma line_sides h l : Forall (λ l, is_hunk_op l.1 = true) (dh_lines h) → l ∈ dh_lines h →
  l.2 ∈ dh_old_side h ∨ l.2 ∈ dh_new_side h.
Proof.
  intros Hops Hl. pose proof (proj1 (Forall_forall _ _) Hops l Hl) as [Ho|Hn]%hunk_op_cases.
  - left. apply list_elem_of_fmap_2, list_elem_of_filter. done.
  - right. apply list_elem_of_fmap_2, list_elem_of_filter. split; [|done]. by rewrite Hn, orb_true_r.
Qed.

Lemma replays_patched c hs old new : replays c hs old new →
  Forall element_ok old → Forall element_ok new → (N.of_nat (c + length old) < u64_max)%N →
  Forall hunk_ok hs ∧ patched c (parsed_hunk <$> hs) old new.
Proof.
  induction 1 as [c rest|c h hs gap old new Hd Hops Hr IH]; intros Ho Hn Hc; [split; constructor|].
  rewrite !Forall_app in Ho, Hn. destruct Ho as (_ & Ho1 & Ho2), Hn as (_ & Hn1 & Hn2). rewrite !length_app in Hc.
  destruct (IH Ho2 Hn2) as [Hhs Hp]; [lia|].
  assert (Hels : Forall (λ l, element_ok l.2) (dh_lines h)).
  { apply Forall_forall. intros l Hl. rewrite Forall_forall in Ho1, Hn1. destruct (line_sides h l Hops Hl); auto. }
  assert (Hok : hunk_ok h) by (constructor; [done|done|unfold len; lia|lia]).
  split; [by constructor|]. destruct (parsed_sides _ Hels) as [Eo En]. fold (dh_old_side h) in Eo. fold (dh_new_side h) in En.
  change (hunk_lines (parsed_hunk h)) with (parsed_line <$> dh_lines h) in *. rewrite fmap_cons, <-Eo, <-En.
  apply (patched_hunk c (parsed_hunk h)).
  - unfold hunk_start, parsed_hunk. cbn [old_start old_count]. destruct (N.eqb_spec (len (dh_old_side h)) 0); [by rewrite Hd|].
    destruct (N.eqb_spec (dh_old h + 1) 0); [lia|]. f_equal. lia.
  - apply Forall_fmap. eapply Forall_impl; [exact Hops|]. done.
  - change (hunk_lines (parsed_hunk h)) with (parsed_line <$> dh_lines h). rewrite Eo. done.
  - change (hunk_lines (parsed_hunk h)) with (parsed_line <$> dh_lines h). by rewrite Eo.
Qed.

Lemma length_elements s : (length (to_elements s) ≤ String.length s)%nat.
Proof.
  induction s as [|c s IH]; [done|]. cbn [to_elements String.length]. destruct (Ascii.eqb c nl); [cbn; lia|].
  destruct (to_elements s); cbn in *; lia.
Qed.

Lemma elements_ok s : no_cr s = true → Forall element_ok (to_elements s).
Proof. intros Hs. apply Forall_forall. intros e. by apply to_elements_ok. Qed.

(** ** The text of a diff *)

Definition diff_lines (a b : string) (hs : list DiffHunk) : list string :=
  match hs with
  | [] => []
  | _ => ("--- " +:+ a) :: ("+++ " +:+ b) :: mjoin (hunk_text_lines <$> hs)
  end.

(** A line of a section: plain, and not the start of another. *)
Definition section_line (l : string) : Prop := plain l ∧ strip_prefix "diff --git a/" l = None.

Lemma str_all_mono (f g : ascii → bool) s : (∀ c, f c = true → g c = true) → str_all f s = true → str_all g s = true.
Proof. intros Hfg. induction s as [|c s IH]; cbn [str_all]; [done|]. intros [Hc Hs]%andb_true_iff. by rewrite (Hfg c Hc), IH. Qed.

Lemma digit_plain c : is_digit c = true → plain_char c = true.
Proof.
  intros Hd. unfold plain_char. destruct (Ascii.eqb_spec c nl) as [E|]; [by rewrite E in Hd|]. by destruct (Ascii.eqb_spec c cr) as [E|]; [rewrite E in Hd|].
Qed.

Lemma to_string_plain n : plain (to_string n).
Proof. eapply str_all_mono; [exact digit_plain|apply to_string_digits]. Qed.

Lemma range_plain s c : plain (range_text s c).
Proof. unfold range_text. repeat case_match; rewrite ?str_all_app, !to_string_plain; done. Qed.

Lemma op_plain op : is_hunk_op op = true → plain_char op = true ∧ Ascii.eqb "d" op = false.
Proof.
  intros [Ho|Ho]%hunk_op_cases; [apply orb_true_iff in Ho as [Ho|Ho]|]; apply Ascii.eqb_eq in Ho as ->; done.
Qed.

Lemma hunk_section_lines h : hunk_ok h → Forall section_line (hunk_text_lines h).
Proof.
  intros Hh. unfold hunk_text_lines. constructor.
  - split; [|done]. unfold hunk_header. rewrite !str_all_app, !range_plain. done.
  - pose proof (hk_ops h Hh) as Hops. pose proof (hk_elements h Hh) as Hels. induction (dh_lines h) as [|l ls IH]; [constructor|].
    change (mjoin (line_lines <$> l :: ls)) with (app (line_lines l) (mjoin (line_lines <$> ls))).
    inversion Hops as [|? ? Hop Hops']; subst. inversion Hels as [|? ? Hel Hels']; subst.
    apply Forall_app. split; [|by apply IH]. destruct (op_plain _ Hop) as [Hp Hd]. destruct (element_body _ Hel) as [Hb _].
    unfold line_lines. constructor; [split; cbn [str_all strip_prefix]; [by rewrite Hp, Hb|by rewrite Hd]|].
    destruct (ends_nl l.2); [constructor|]. repeat constructor.
Qed.

Lemma diff_section_lines a b hs : plain a → plain b → Forall hunk_ok hs → Forall section_line (diff_lines a b hs).
Proof.
  intros Ha Hb Hhs. unfold diff_lines. destruct hs as [|h hs]; [constructor|]. constructor; [split; [|done]; rewrite str_all_app, Ha; done|].
  constructor; [split; [|done]; rewrite str_all_app, Hb; done|]. apply Forall_join, Forall_fmap.
  eapply Forall_impl; [exact Hhs|]. intros k. apply hunk_section_lines.
Qed.

Lemma read_diff a b hs f : Forall hunk_ok hs → hunks f = [] →
  read_lines (diff_lines a b hs) f = set_hunks (parsed_hunk <$> hs) f.
Proof.
  intros Hhs Hf. unfold diff_lines. destruct hs as [|h hs]; [destruct f; cbn in *; by subst|].
  assert (Hn : parse_file_line ("+++ " +:+ b) (parse_file_line ("--- " +:+ a) f) = f) by (destruct f; cbn in Hf; subst; done).
  change (read_lines (?x :: ?y :: ?ls) f) with (read_lines ls (parse_file_line y (parse_file_line x f))).
  rewrite Hn, read_hunks, Hf by done. done.
Qed.

Lemma unified_text `{Similar} old new a b : similar_faithful → no_cr old = true → no_cr new = true → (str_len old < u64_max)%N →
  ∃ hs, Forall hunk_ok hs ∧ apply_hunks old (parsed_hunk <$> hs) = Ok new ∧ unified old new a b = unlines (diff_lines a b hs).
Proof.
  intros Hs Ho Hn Hl. destruct (Hs 3%N a b old new Ho Hn) as (hs & Ht & Hr). unfold str_len in Hl. pose proof (length_elements old).
  destruct (replays_patched 0 hs _ _ Hr) as [Hok Hp]; [by apply elements_ok..|lia|]. exists hs. split_and!; [done| |].
  - apply apply_hunks_ok. exists (to_elements new). split; [done|]. by rewrite str_concat_elements.
  - unfold unified. rewrite Ht. unfold diff_lines. destruct hs as [|h hs]; [done|].
    change (unlines (?x :: ?y :: ?ls)) with (x +:+ String nl (y +:+ String nl (unlines ls))).
    assert (E : hunk_text <$> h :: hs = unlines ∘ hunk_text_lines <$> h :: hs).
    { apply list_fmap_ext. intros i k Hk. apply hunk_text_unlines. eapply Forall_lookup_1; [exact Hok|exact Hk]. }
    by rewrite !string_app_assoc, <-unlines_concat, <-list_fmap_compose, E.
Qed.

(** ** Sections *)

(** A path the header of a section keeps apart, and a text of whole lines. *)
Record path_ok (p : string) : Prop := {
  po_valid : valid_path p = true;
  po_plain : plain p;
  po_apart : rsplit_once " b/" p = None;
}.
Definition text_ok (s : string) : Prop := no_cr s = true ∧ (str_len s < u64_max)%N.

Definition change_ok (c : Change) : Prop :=
  match c with
  | Added p t | Deleted p t => path_ok p ∧ text_ok t
  | Edited o n s t => path_ok o ∧ path_ok n ∧ text_ok s ∧ text_ok t
  end.

(** What the reader makes of a change. *)
Definition section_of (c : Change) (f : PatchFile) : Prop :=
  match c with
  | Added p t => old_path f = p ∧ new_path f = p ∧ added f = true ∧ deleted f = false ∧ renamed f = false ∧ apply_hunks "" (hunks f) = Ok t
  | Deleted p t => old_path f = p ∧ new_path f = p ∧ added f = false ∧ deleted f = true ∧ renamed f = false ∧ apply_hunks t (hunks f) = Ok ""
  | Edited o n s t =>
      old_path f = o ∧ new_path f = n ∧ added f = false ∧ deleted f = false ∧
      renamed f = negb (String.eqb o n) ∧ apply_hunks s (hunks f) = Ok t
  end.

Definition git_line (o n : string) : string := "diff --git a/" +:+ o +:+ " b/" +:+ n.

Lemma rsplit_last o n : rsplit_once " b/" n = None → rsplit_once " b/" (o +:+ " b/" +:+ n) = Some (o, n).
Proof.
  intros Hn. induction o as [|c o IH].
  - change ("" +:+ " b/" +:+ n) with (String " " (String "b" (String "/" n))). cbn [rsplit_once]. rewrite Hn.
    cbn [strip_prefix Ascii.eqb Bool.eqb]. done.
  - change (String c o +:+ " b/" +:+ n) with (String c (o +:+ " b/" +:+ n)). cbn [rsplit_once]. by rewrite IH.
Qed.

Lemma read_git_line o n files : path_ok n →
  parse_line files (git_line o n) =
  app files [{| old_path := o; new_path := n; added := false; deleted := false; renamed := false; hunks := [] |}].
Proof. intros [_ _ Hn]. unfold parse_line, git_line. rewrite strip_prefix_app, rsplit_last by done. done. Qed.

Lemma git_line_plain o n : plain o → plain n → plain (git_line o n).
Proof. intros Ho Hn. unfold git_line. rewrite !str_all_app, Ho, Hn. done. Qed.

Lemma apply_no_hunks s : apply_hunks s [] = Ok s.
Proof. apply apply_hunks_ok. exists (to_elements s). split; [constructor|]. by rewrite str_concat_elements. Qed.

(** A text is a section of [c]: its lines, and what the reader makes of them. *)
Definition is_section (c : Change) (t : string) : Prop :=
  ∃ ls, t = unlines ls ∧ Forall (λ l, plain l) ls ∧
  ∀ files, ∃ f, fold_left parse_line ls files = app files [f] ∧ section_of c f.

Lemma section_intro c o n ls t : path_ok o → path_ok n → Forall section_line ls → t = unlines (git_line o n :: ls) →
  section_of c (read_lines ls {| old_path := o; new_path := n; added := false; deleted := false; renamed := false; hunks := [] |}) →
  is_section c t.
Proof.
  intros Ho Hn Hls -> Hs. exists (git_line o n :: ls). split; [done|]. split.
  - constructor; [apply git_line_plain; [apply Ho|apply Hn]|]. eapply Forall_impl; [exact Hls|]. by intros l [].
  - intros files. eexists. cbn [fold_left]. rewrite read_git_line by done. rewrite fold_section; [done|].
    eapply Forall_impl; [exact Hls|]. by intros l [].
Qed.

Lemma path_plain p : path_ok p → plain ("a/" +:+ p) ∧ plain ("b/" +:+ p).
Proof. intros [_ Hp _]. by rewrite !str_all_app, Hp. Qed.

Section Emits.
Context `{Similar} (Hsim : similar_faithful).

Lemma added_section p t : path_ok p → text_ok t → is_section (Added p t) (change_text (Added p t)).
Proof.
  intros Hp [Ht _]. destruct (unified_text "" t "/dev/null" ("b/" +:+ p) Hsim eq_refl Ht) as (hs & Hok & Ha & Eu); [done|].
  apply (section_intro _ p p ("new file mode 100644" :: diff_lines "/dev/null" ("b/" +:+ p) hs)); [done|done| | |].
  - constructor; [done|]. apply diff_section_lines; [done|by apply path_plain|done].
  - cbn [change_text]. rewrite Eu. unfold git_line. cbn [unlines]. by rewrite !string_app_assoc.
  - change (read_lines (?x :: ?ls) ?f) with (read_lines ls (parse_file_line x f)). rewrite read_diff by done. done.
Qed.

Lemma deleted_section p t : path_ok p → text_ok t → is_section (Deleted p t) (change_text (Deleted p t)).
Proof.
  intros Hp [Ht Hl]. destruct (unified_text t "" ("a/" +:+ p) "/dev/null" Hsim Ht eq_refl Hl) as (hs & Hok & Ha & Eu).
  apply (section_intro _ p p ("deleted file mode 100644" :: diff_lines ("a/" +:+ p) "/dev/null" hs)); [done|done| | |].
  - constructor; [done|]. apply diff_section_lines; [by apply path_plain|done|done].
  - cbn [change_text]. rewrite Eu. unfold git_line. cbn [unlines]. by rewrite !string_app_assoc.
  - change (read_lines (?x :: ?ls) ?f) with (read_lines ls (parse_file_line x f)). rewrite read_diff by done. done.
Qed.

Definition rename_lines (o n : string) (same : bool) : list string :=
  if String.eqb o n then []
  else app (if same then ["similarity index 100%"] else []) ["rename from " +:+ o; "rename to " +:+ n].

Lemma read_rename o n same :
  read_lines (rename_lines o n same) {| old_path := o; new_path := n; added := false; deleted := false; renamed := false; hunks := [] |} =
  {| old_path := o; new_path := n; added := false; deleted := false; renamed := negb (String.eqb o n); hunks := [] |}.
Proof. unfold rename_lines. destruct (String.eqb o n); [done|]. by destruct same. Qed.

Lemma edited_section o n s t : path_ok o → path_ok n → text_ok s → text_ok t →
  is_section (Edited o n s t) (change_text (Edited o n s t)).
Proof.
  intros Ho Hn [Hs Hl] [Ht _]. destruct (unified_text s t ("a/" +:+ o) ("b/" +:+ n) Hsim Hs Ht Hl) as (hs & Hok & Ha & Eu).
  set (same := String.eqb s t).
  assert (Hds : Forall section_line (if same then [] else diff_lines ("a/" +:+ o) ("b/" +:+ n) hs)).
  { destruct same; [constructor|]. apply diff_section_lines; [by apply path_plain|by apply path_plain|done]. }
  assert (Hrs : Forall section_line (rename_lines o n same)).
  { unfold rename_lines. destruct (String.eqb o n); [constructor|]. apply Forall_app. split; [by destruct same; repeat constructor|].
    repeat constructor; rewrite str_all_app; [by rewrite (po_plain o Ho)|by rewrite (po_plain n Hn)]. }
  apply (section_intro _ o n (app (rename_lines o n same) (if same then [] else diff_lines ("a/" +:+ o) ("b/" +:+ n) hs))); [done|done| | |].
  - by apply Forall_app.
  - cbn [change_text]. unfold git_line. cbn [unlines]. rewrite unlines_app, !string_app_assoc. do 4 f_equal. f_equal.
    unfold rename_lines. fold same. destruct (String.eqb o n), same; cbn [negb app unlines]; rewrite ?Eu, ?string_app_nil_r, ?string_app_assoc; cbn [String.append]; rewrite ?string_app_assoc; done.
  - rewrite read_lines_app, read_rename. unfold same. destruct (String.eqb_spec s t) as [->|Hne].
    + cbn. split_and!; try done. apply apply_no_hunks.
    + rewrite read_diff by done. done.
Qed.

Lemma change_section c : change_ok c → is_section c (change_text c).
Proof.
  destruct c as [p t|p t|o n s t]; [intros [??]; by apply added_section|intros [??]; by apply deleted_section|].
  intros (? & ? & ? & ?). by apply edited_section.
Qed.

(** The reader on a whole patch. *)
Lemma parse_sections cs : Forall change_ok cs → ∃ files,
  parse_patch (str_concat (change_text <$> cs)) = files ∧ Forall2 section_of cs files.
Proof.
  intros Hcs. assert (Hg : ∃ ls, str_concat (change_text <$> cs) = unlines ls ∧ Forall (λ l, plain l) ls ∧
    ∀ files, ∃ fs, fold_left parse_line ls files = app files fs ∧ Forall2 section_of cs fs).
  { induction Hcs as [|c cs Hc _ (ls & Et & Hls & Hp)].
    - exists []. split_and!; [done|constructor|]. intros files. exists []. by rewrite app_nil_r.
    - destruct (change_section c Hc) as (ks & Ek & Hks & Hk). exists (app ks ls). split_and!.
      + rewrite unlines_app, <-Ek, <-Et. done.
      + by apply Forall_app.
      + intros files. destruct (Hk files) as (f & Ef & Hf). destruct (Hp (app files [f])) as (fs & Efs & Hfs).
        exists (f :: fs). rewrite fold_left_app, Ef, Efs, <-app_assoc. split; [done|by constructor]. }
  destruct Hg as (ls & Et & Hls & Hp). destruct (Hp []) as (fs & Efs & Hfs). exists fs.
  unfold parse_patch. by rewrite Et, lines_unlines.
Qed.
End Emits.

(** ** Applying a list of changes *)

Definition touches (c : Change) : gset string :=
  match c with Added p _ | Deleted p _ => {[p]} | Edited o n _ _ => {[o; n]} end.

(** What is at a touched path afterwards. *)
Definition effect (c : Change) (q : string) : option string :=
  match c with
  | Added _ t => Some t
  | Deleted _ _ => None
  | Edited _ n _ t => if String.eqb q n then Some t else None
  end.

(** The change starts from what the tree holds. *)
Definition starts_from (w : tree) (c : Change) : Prop :=
  match c with
  | Added p _ => w !! p = None
  | Deleted p t => w !! p = Some t
  | Edited o n s _ => w !! o = Some s ∧ (o ≠ n → w !! n = None)
  end.

(** [w'] is [w] with the changes made. *)
Definition changed (cs : list Change) (w w' : tree) : Prop :=
  ∀ q, (∀ c, c ∈ cs → q ∈ touches c → w' !! q = effect c q) ∧ ((∀ c, c ∈ cs → q ∉ touches c) → w' !! q = w !! q).

Definition apart (cs : list Change) : Prop :=
  NoDup cs ∧ ∀ c d, c ∈ cs → d ∈ cs → c ≠ d → touches c ## touches d.

Lemma apply_section c f w : change_ok c → section_of c f → starts_from w c → ∃ w', apply_file w f = Ok w' ∧ changed [c] w w'.
Proof.
  assert (Hone : ∀ w', (∀ q, q ∈ touches c → w' !! q = effect c q) → (∀ q, q ∉ touches c → w' !! q = w !! q) → changed [c] w w').
  { intros w' He Hn q. split; [by intros d ->%list_elem_of_singleton; apply He|]. intros Hq. apply Hn, Hq. by left. }
  destruct c as [p t|p t|o n s t]; cbn [change_ok section_of starts_from].
  - intros [[Hv _ _] _] (Eo & En & Ea & Ed & _ & Hh) Hs. unfold apply_file. rewrite Eo, En, Hv, Ea, Hs, Hh. cbn. eexists. split; [done|].
    apply Hone; cbn; intros q Hq; [apply elem_of_singleton in Hq as ->; by rewrite lookup_insert_eq|]. rewrite lookup_insert_ne; set_solver.
  - intros [[Hv _ _] _] (Eo & En & Ea & Ed & _ & Hh) Hs. unfold apply_file. rewrite Eo, En, Hv, Ea, Hs, Ed, Hh. cbn. eexists. split; [done|].
    apply Hone; cbn; intros q Hq; [apply elem_of_singleton in Hq as ->; by rewrite lookup_delete_eq|]. rewrite lookup_delete_ne; set_solver.
  - intros ([Hvo _ _] & [Hvn _ _] & _) (Eo & En & Ea & Ed & Er & Hh) [Hs Hn]. unfold apply_file.
    rewrite Eo, En, Hvo, Hvn, Ea, Hs, Ed, Er. cbn [negb andb].
    assert (Hg : negb (String.eqb o n) && bool_decide (is_Some (delete o w !! n)) = false).
    { destruct (String.eqb_spec o n) as [->|Hne]; [done|]. cbn [negb andb]. apply bool_decide_eq_false. rewrite lookup_delete_ne, Hn by done.
      by intros [? ?]. }
    rewrite Hg, Hh. cbn. eexists. split; [done|]. apply Hone; cbn; intros q Hq.
    + destruct (String.eqb_spec q n) as [->|Hne]; [by rewrite lookup_insert_eq|]. rewrite lookup_insert_ne by done.
      assert (q = o) as -> by set_solver. by rewrite lookup_delete_eq.
    + rewrite lookup_insert_ne, lookup_delete_ne by set_solver. done.
Qed.

Lemma starts_ext w w' c : (∀ q, q ∈ touches c → w' !! q = w !! q) → starts_from w c → starts_from w' c.
Proof.
  intros Hq. destruct c as [p t|p t|o n s t]; cbn in *; [rewrite Hq; set_solver|rewrite Hq; set_solver|].
  rewrite !Hq by set_solver. done.
Qed.

Lemma apply_sections cs files w : Forall2 section_of cs files → Forall change_ok cs → Forall (starts_from w) cs → apart cs →
  ∃ w', apply_files w files = Ok w' ∧ changed cs w w'.
Proof.
  intros Hf. revert w. induction Hf as [|c f cs files Hc Hf IH]; intros w Hok Hst [Hnd Hap].
  { exists w. split; [done|]. intros q. split; [by intros c ?%elem_of_nil|done]. }
  inversion Hok as [|? ? Hok1 Hok2]; subst. inversion Hst as [|? ? Hst1 Hst2]; subst. apply NoDup_cons in Hnd as [Hni Hnd].
  destruct (apply_section c f w Hok1 Hc Hst1) as (w1 & E1 & H1).
  assert (Hd : ∀ d, d ∈ cs → touches c ## touches d).
  { intros d Hin. apply Hap; [by left|by right|]. intros <-. done. }
  destruct (IH w1 Hok2) as (w2 & E2 & H2).
  - rewrite Forall_forall in Hst2 |- *. intros d Hin. eapply starts_ext; [|by apply Hst2]. intros q Hq.
    apply (H1 q). intros e ->%list_elem_of_singleton Hqc. by apply (Hd d Hin q).
  - split; [done|]. intros d e Hdi Hei. apply Hap; by right.
  - exists w2. cbn [apply_files]. rewrite E1. cbn [obind]. rewrite E2. split; [done|]. intros q. split.
    + intros d [->|Hin]%elem_of_cons Hq; [|by apply (H2 q)]. etrans; [apply (H2 q)|apply (proj1 (H1 q) c); [by left|done]].
      intros e He Hqe. by apply (Hd e He q).
    + intros Hq. etrans; [apply (H2 q); intros e He; apply Hq; by right|]. apply (H1 q). intros e ->%list_elem_of_singleton. apply Hq. by left.
Qed.

Lemma touch_ok own touched p : p ≠ "" → p ∈ own ∨ p ∉ touched →
  ∃ own' touched', touch (own, touched) p = Ok (own', touched') ∧ touched' ⊆ {[p]} ∪ touched ∧ p ∈ own'.
Proof.
  intros Hp Ho. unfold touch. assert (str_empty p = false) as -> by (by destruct p). destruct (decide (p ∈ own)); [exists own, touched; set_solver|].
  rewrite decide_False by (by destruct Ho). eexists _, _. split; [done|]. set_solver.
Qed.

Lemma check_sections cs files touched : Forall2 section_of cs files → Forall change_ok cs → apart cs →
  (∀ c, c ∈ cs → touches c ## touched) → check_touched touched files = Ok tt.
Proof.
  intros Hf. revert touched. induction Hf as [|c f cs files Hc Hf IH]; intros touched Hok [Hnd Hap] Ht; [done|].
  inversion Hok as [|? ? Hok1 Hok2]; subst. apply NoDup_cons in Hnd as [Hni Hnd].
  assert (Hpaths : old_path f ∈ touches c ∧ new_path f ∈ touches c ∧ old_path f ≠ "" ∧ new_path f ≠ "").
  { destruct c as [p t|p t|o n s t]; cbn in Hok1, Hc |- *; destruct Hc as (-> & -> & _).
    - destruct Hok1 as [[Hv%valid_path_nonempty _ _] _]. set_solver.
    - destruct Hok1 as [[Hv%valid_path_nonempty _ _] _]. set_solver.
    - destruct Hok1 as ([Hv%valid_path_nonempty _ _] & [Hv'%valid_path_nonempty _ _] & _). set_solver. }
  destruct Hpaths as (Ho & Hn & Hoe & Hne). pose proof (Ht c ltac:(by left)) as Hct.
  assert (Hrest : ∀ tt', tt' ⊆ touches c ∪ touched → check_touched tt' files = Ok tt).
  { intros tt' Hsub. apply IH; [done|split; [done|]; intros d e ? ?; apply Hap; by right|]. intros d Hd.
    assert (touches c ## touches d) by (apply Hap; [by left|by right|]; by intros <-).
    assert (touches d ## touched) by (apply Ht; by right). set_solver. }
  cbn [check_touched]. destruct (touch_ok ∅ touched (old_path f) Hoe) as (own1 & t1 & E1 & Ht1 & Hin1); [set_solver|].
  rewrite E1. cbn [obind]. destruct (touch_ok own1 t1 (new_path f) Hne) as (own2 & t2 & E2 & Ht2 & _).
  { destruct (decide (new_path f = old_path f)) as [->|]; [by left|right; set_solver]. }
  rewrite E2. cbn [obind snd]. apply Hrest. set_solver.
Qed.

(** ** The net changeset *)

(** Renames move documents that are in the base to paths that are not, and
    leave nothing behind; no document is moved twice.  A path renamed to
    itself, or an entry the trees do not back, is nothing. *)
Definition renames_clean (base after renames : tree) : Prop :=
  ∀ n o, renames !! n = Some o → is_Some (after !! n) → is_Some (base !! o) → n ≠ o →
  base !! n = None ∧ after !! o = None ∧ ∀ n', renames !! n' = Some o → is_Some (after !! n') → n' = n.

Section Net.
Context (base after renames : tree) (Hclean : renames_clean base after renames).

Lemma elem_of_consumed p : p ∈ consumed base after renames ↔
  ∃ n, renames !! n = Some p ∧ is_Some (after !! n) ∧ is_Some (base !! p).
Proof.
  unfold consumed. rewrite elem_of_list_to_set, list_elem_of_fmap. split.
  - intros ([n o] & -> & Hr). apply list_elem_of_filter in Hr as [[Ha Hb]%andb_true_iff Hr%elem_of_entries].
    exists n. cbn in *. split_and!; [done| |]; [destruct (after !! n)|destruct (base !! o)]; eauto; done.
  - intros (n & Hr & [a Ha] & [b Hb]). exists (n, p). split; [done|]. apply list_elem_of_filter. rewrite elem_of_entries. cbn. by rewrite Ha, Hb.
Qed.

Lemma elem_of_changes c : c ∈ changes base after renames ↔
  (∃ d, after !! d.1 = Some d.2 ∧ change_of base after renames d = Some c) ∨
  (∃ d, base !! d.1 = Some d.2 ∧ deletion_of base after renames d = Some c).
Proof.
  unfold changes. rewrite merge_sort_Permutation, elem_of_app, !list_elem_of_omap. by setoid_rewrite elem_of_entries.
Qed.

(** A change, told from the trees. *)
Inductive net_change : Change → Prop :=
  | net_added p t : after !! p = Some t → base !! p = None → net_change (Added p t)
  | net_edited p s t : base !! p = Some s → after !! p = Some t → net_change (Edited p p s t)
  | net_moved o n s t : o ≠ n → renames !! n = Some o → base !! o = Some s → after !! n = Some t →
      base !! n = None → after !! o = None → net_change (Edited o n s t)
  | net_deleted p t : base !! p = Some t → after !! p = None → p ∉ consumed base after renames → net_change (Deleted p t).

Lemma changes_net c : c ∈ changes base after renames → net_change c.
Proof.
  intros [([p t] & Ha & Hc)|([p t] & Hb & Hd)]%elem_of_changes; cbn [fst snd] in *.
  - unfold change_of in Hc. cbn [fst snd] in Hc. unfold rename_source in Hc. destruct (renames !! p) as [o|] eqn:Er; cbn in Hc.
    + destruct (base !! o) as [s|] eqn:Eb; cbn in Hc.
      * destruct (String.eqb_spec o p) as [->|Hne]; cbn in Hc.
        -- destruct (negb _); [injection Hc as <-; by constructor|done].
        -- injection Hc as <-. destruct (Hclean p o Er) as (? & ? & _); [eauto|eauto|congruence|]. by apply net_moved.
      * destruct (base !! p) as [s|] eqn:Ep; [|injection Hc as <-; by constructor].
        case_bool_decide as Hcs; [|destruct (negb _); [injection Hc as <-; by constructor|done]].
        exfalso. apply elem_of_consumed in Hcs as (n & Hn & Han & Hbp).
        destruct (decide (n = p)) as [->|Hnp]; [congruence|]. destruct (Hclean n p Hn Han Hbp Hnp) as (_ & ? & _). congruence.
    + destruct (base !! p) as [s|] eqn:Ep; [|injection Hc as <-; by constructor].
      case_bool_decide as Hcs; [|destruct (negb _); [injection Hc as <-; by constructor|done]].
      exfalso. apply elem_of_consumed in Hcs as (n & Hn & Han & Hbp).
      destruct (decide (n = p)) as [->|Hnp]; [congruence|]. destruct (Hclean n p Hn Han Hbp Hnp) as (_ & ? & _). congruence.
  - unfold deletion_of in Hd. cbn [fst snd] in Hd. destruct (after !! p) eqn:Ea; [done|]. cbn in Hd.
    case_bool_decide; [done|]. injection Hd as <-. by constructor.
Qed.

(** The changes a path of either side gives. *)
Lemma change_key_of d c : change_of base after renames d = Some c → change_key c = d.1.
Proof. unfold change_of. intros Hc. repeat case_match; simplify_eq; done. Qed.
Lemma deletion_key_of d c : deletion_of base after renames d = Some c → change_key c = d.1.
Proof. unfold deletion_of. intros Hc. repeat case_match; simplify_eq; done. Qed.

(** The key of a change is on the new side, or the change is a deletion. *)
Lemma same_key c d : c ∈ changes base after renames → d ∈ changes base after renames → change_key c = change_key d → c = d.
Proof.
  rewrite !elem_of_changes. intros [([p t] & Hp & Hc)|([p t] & Hp & Hc)] [([q u] & Hq & Hd)|([q u] & Hq & Hd)] Hk; cbn [fst snd] in *;
    rewrite ?(change_key_of _ _ Hc), ?(change_key_of _ _ Hd), ?(deletion_key_of _ _ Hc), ?(deletion_key_of _ _ Hd) in Hk;
    cbn [fst] in Hk; subst q.
  - rewrite Hp in Hq. injection Hq as <-. congruence.
  - unfold deletion_of in Hd. cbn in Hd. by rewrite Hp in Hd.
  - unfold deletion_of in Hc. cbn in Hc. by rewrite Hq in Hc.
  - rewrite Hp in Hq. injection Hq as <-. congruence.
Qed.

Lemma changes_apart : apart (changes base after renames).
Proof.
  split.
  - unfold changes. rewrite merge_sort_Permutation.
    assert (Hnd : ∀ f (t : tree), (∀ d c, f d = Some c → change_key c = d.1) → NoDup (omap f (sorted_entries t))).
    { intros f t Hf. apply (NoDup_fmap_1 change_key). assert (Hs : change_key <$> omap f (sorted_entries t) `sublist_of` (sorted_entries t).*1).
      { induction (sorted_entries t) as [|d l IH]; [done|]. cbn [omap list_omap fmap list_fmap]. destruct (f d) as [c|] eqn:E.
        - cbn. rewrite (Hf _ _ E). by apply sublist_skip.
        - by apply sublist_cons. }
      eapply sublist_NoDup; [|exact Hs]. rewrite sorted_entries_perm. apply NoDup_fst_map_to_list. }
    apply NoDup_app. split_and!; [apply Hnd, change_key_of| |apply Hnd, deletion_key_of].
    intros c Hc Hd. apply list_elem_of_omap in Hc as (d & Hd1%elem_of_entries & Hc). apply list_elem_of_omap in Hd as (e & _ & He).
    pose proof (change_key_of _ _ Hc) as K1. pose proof (deletion_key_of _ _ He) as K2. unfold deletion_of in He. rewrite <-K2, K1, Hd1 in He. done.
  - intros c d Hc Hd Hne q Hqc Hqd. apply Hne. pose proof (changes_net c Hc) as Nc. pose proof (changes_net d Hd) as Nd.
    assert (Hside : ∀ e, net_change e → q ∈ touches e → change_key e = q ∧ (is_Some (after !! q) ∨ ∃ t, e = Deleted q t ∧ after !! q = None ∧ q ∉ consumed base after renames) ∨
      ∃ n s t, e = Edited q n s t ∧ renames !! n = Some q ∧ is_Some (after !! n) ∧ is_Some (base !! q) ∧ after !! q = None ∧ n ≠ q).
    { intros e [p t Ha Hb|p s t Hb Ha|o n s t Hon Hr Hb Ha Hbn Hao|p t Hb Ha Hcs]; cbn [touches change_key]; rewrite ?elem_of_union, !elem_of_singleton.
      - intros ->. left. eauto.
      - intros [->| ->]; left; eauto.
      - intros [->| ->]; [right; eauto 12|left; eauto].
      - intros ->. left. eauto 10. }
    destruct (Hside c Nc Hqc) as [[Kc Sc]|(n & s & t & -> & Rn & An & Bq & Aq & Hnq)];
      destruct (Hside d Nd Hqd) as [[Kd Sd]|(n' & s' & t' & -> & Rn' & An' & Bq' & Aq' & Hnq')].
    + apply same_key; [done|done|congruence].
    + destruct Sc as [[? ?]|(t0 & _ & _ & Hcs)]; [congruence|]. exfalso. apply Hcs, elem_of_consumed. eauto.
    + destruct Sd as [[? ?]|(t0 & _ & _ & Hcs)]; [congruence|]. exfalso. apply Hcs, elem_of_consumed. eauto.
    + apply same_key; [done|done|]. cbn. destruct (Hclean n q Rn An Bq Hnq) as (_ & _ & Huniq). symmetry. by apply Huniq.
Qed.
End Net.

(** ** The round trip *)

Section RoundTrip.
Context (base after renames : tree) (Hclean : renames_clean base after renames).

(** A change has its effect, and what no change touches is the same. *)
Lemma net_effect c q : net_change base after renames c → q ∈ touches c → effect c q = after !! q.
Proof.
  intros [p t Ha Hb|p s t Hb Ha|o n s t Hon Hr Hb Ha Hbn Hao|p t Hb Ha Hcs]; cbn [touches effect]; rewrite ?elem_of_union, !elem_of_singleton.
  - by intros ->.
  - intros [->| ->]; by rewrite String.eqb_refl.
  - intros [->| ->]; [|by rewrite String.eqb_refl]. by destruct (String.eqb_spec o n).
  - by intros ->.
Qed.

Lemma untouched_same q : (∀ c, c ∈ changes base after renames → q ∉ touches c) → base !! q = after !! q.
Proof.
  intros Hq. destruct (after !! q) as [t|] eqn:Ea.
  - destruct (change_of base after renames (q, t)) as [c|] eqn:Ec.
    + exfalso. apply (Hq c); [apply elem_of_changes; left; by exists (q, t)|].
      pose proof (change_key_of base after renames _ _ Ec) as Hk. cbn in Hk. destruct c; cbn in *; set_solver.
    + unfold change_of, rename_source in Ec. cbn [fst snd] in Ec. destruct (renames !! q) as [o|] eqn:Er; cbn in Ec; [destruct (base !! o) as [s|] eqn:Eo; cbn in Ec|].
      * destruct (String.eqb_spec o q) as [->|]; [|done]. destruct (String.eqb_spec s t) as [Hst|]; [by rewrite <-Hst|done].
      * destruct (base !! q) as [s|]; [|done]. case_bool_decide; [done|]. destruct (String.eqb_spec s t) as [Hst|]; [by rewrite <-Hst|done].
      * destruct (base !! q) as [s|]; [|done]. case_bool_decide; [done|]. destruct (String.eqb_spec s t) as [Hst|]; [by rewrite <-Hst|done].
  - destruct (base !! q) as [s|] eqn:Eb; [|done]. exfalso.
    destruct (decide (q ∈ consumed base after renames)) as [Hc|Hc].
    + pose proof Hc as (n & Hn & [t Ht] & Hbq)%elem_of_consumed. assert (Hqn : q ≠ n) by congruence.
      apply (Hq (Edited q n s t)); [|cbn; set_solver]. apply elem_of_changes. left. exists (n, t). split; [done|].
      unfold change_of, rename_source. cbn [fst snd]. rewrite Hn. cbn. rewrite Eb. cbn. by destruct (String.eqb_spec q n).
    + apply (Hq (Deleted q s)); [|cbn; set_solver]. apply elem_of_changes. right. exists (q, s). split; [done|].
      unfold deletion_of. cbn [fst snd]. rewrite Ea. cbn. by rewrite bool_decide_eq_false_2.
Qed.

Definition tree_ok (t : tree) : Prop := map_Forall (λ p s, path_ok p ∧ text_ok s) t.

Lemma net_ok c : tree_ok base → tree_ok after → net_change base after renames c → change_ok c ∧ starts_from base c.
Proof.
  intros Hb Ha Hc.
  assert (Hbo : ∀ p s, base !! p = Some s → path_ok p ∧ text_ok s) by (intros p s E; exact (Hb p s E)).
  assert (Hao : ∀ p s, after !! p = Some s → path_ok p ∧ text_ok s) by (intros p s E; exact (Ha p s E)).
  destruct Hc as [p t E1 E2|p s t E1 E2|o n s t Hon Hr E1 E2 E3 E4|p t E1 E2 Hcs]; cbn [change_ok starts_from].
  - split; [by apply Hao|done].
  - destruct (Hbo _ _ E1), (Hao _ _ E2). done.
  - destruct (Hbo _ _ E1), (Hao _ _ E2). done.
  - split; [by apply Hbo|done].
Qed.

Lemma changed_is_after w : changed (changes base after renames) base w → w = after.
Proof.
  intros Hw. apply map_eq. intros q. destruct (Hw q) as [H1 H2].
  destruct (decide (Exists (λ c, q ∈ touches c) (changes base after renames))) as [(c & Hc & Hq)%Exists_exists|Hn].
  - rewrite (H1 c Hc Hq). apply net_effect; [|done]. by apply changes_net.
  - rewrite H2; [apply untouched_same|]; intros c Hc Hq; apply Hn, Exists_exists; eauto.
Qed.
End RoundTrip.

(** C17: what the emitter writes, the strict applier reproduces.  For two trees
    of documents without carriage returns, at valid paths the header of a
    section keeps apart ([path_ok]: no line break, no " b/" inside), renames
    that move each document at most once to a free path ([renames_clean]), and
    a diff crate that does what it documents: if there is a patch, the reader
    and the applier turn the base into exactly the tree the writer meant; if
    there is none, the trees are equal. *)
Theorem patch_roundtrip `{Similar} (base after renames : tree) :
  similar_faithful → tree_ok base → tree_ok after → renames_clean base after renames →
  match build_patch base after renames with
  | Some patch => apply_patch base (parse_patch patch) = Ok after
  | None => after = base
  end.
Proof.
  intros Hsim Hb Ha Hclean. unfold build_patch. set (cs := changes base after renames).
  assert (Hnet : Forall (λ c, change_ok c ∧ starts_from base c) cs).
  { apply Forall_forall. intros c Hc. eapply net_ok; [done|done|]. by apply changes_net. }
  apply Forall_and in Hnet as [Hok Hst]. pose proof (changes_apart base after renames Hclean) as Hap. fold cs in Hap.
  destruct (parse_sections Hsim cs Hok) as (files & Ep & Hf).
  destruct (apply_sections cs files base Hf Hok Hst Hap) as (w & Ew & Hw).
  pose proof (changed_is_after base after renames Hclean w Hw) as ->.
  destruct cs as [|c cs'] eqn:Ecs.
  - inversion Hf; subst. cbn in Ew. by injection Ew.
  - rewrite Ep. unfold apply_patch. destruct files as [|f fs]; [by inversion Hf|].
    rewrite (check_sections _ _ ∅ Hf Hok Hap) by set_solver. cbn [obind]. done.
Qed.

(** The counts on a proposal's card are those of the patch: created, deleted
    and moved files. *)
Definition counted_in (files : list PatchFile) (c : PatchCounts) : Prop :=
  pc_added c = len (filter (λ f, added f = true) files) ∧
  pc_deleted c = len (filter (λ f, deleted f = true) files) ∧
  pc_moved c = len (filter (λ f, renamed f = true) files).

Lemma sections_counted `{Similar} cs files c0 : Forall2 section_of cs files →
  let c := foldl count_change c0 cs in
  (pc_added c = pc_added c0 + len (filter (λ f, added f = true) files) ∧
   pc_deleted c = pc_deleted c0 + len (filter (λ f, deleted f = true) files) ∧
   pc_moved c = pc_moved c0 + len (filter (λ f, renamed f = true) files))%N.
Proof.
  intros Hf. revert c0. induction Hf as [|c f cs files Hc _ IH]; intros c0; cbn [foldl]; [rewrite !filter_nil, len_nil; cbn zeta; lia|].
  destruct (IH (count_change c0 c)) as (-> & -> & ->). rewrite !filter_cons.
  destruct c as [p t|p t|o n s t]; cbn [section_of] in Hc; destruct Hc as (_ & _ & -> & -> & -> & _); cbn [count_change pc_added pc_deleted pc_moved].
  - rewrite decide_True, !decide_False by done. rewrite len_cons. lia.
  - rewrite (decide_True (P := true = true)), !decide_False by done. rewrite len_cons. lia.
  - rewrite !(decide_False (P := false = true)) by done. destruct (String.eqb o n); cbn [negb]; [rewrite !decide_False by done; lia|].
    rewrite decide_True by done. rewrite len_cons. lia.
Qed.

Lemma counts_match `{Similar} (base after renames : tree) patch :
  similar_faithful → tree_ok base → tree_ok after → renames_clean base after renames →
  build_patch base after renames = Some patch → counted_in (parse_patch patch) (count_changes base after renames).
Proof.
  intros Hsim Hb Ha Hclean. unfold build_patch, count_changes. set (cs := changes base after renames).
  assert (Hok : Forall change_ok cs).
  { apply Forall_forall. intros c Hc. apply (net_ok base after renames c Hb Ha). by apply changes_net. }
  destruct (parse_sections Hsim cs Hok) as (files & Ep & Hf). destruct cs as [|c cs']; [done|]. intros E. apply (inj Some) in E as <-. rewrite Ep.
  pose proof (sections_counted _ _ counts_default Hf) as (E1 & E2 & E3). cbn in E1, E2, E3. done.
Qed.
