(* ===== verification/WikiPatchRun.v ===== *)
(** * The emitter, run

    A line diff that replaces the whole text, as an instance of [Similar] for
    which the documented behaviour is proved; a changeset of every kind; and a
    path the patch format does not keep apart. *)

From S2P Require Import Prelude Bytes Strs Json WikiFold WikiPatch WikiPatchProps.
#[local] Open Scope string_scope.
#[local] Open Scope list_scope.

Module WikiPatchRun.

Definition whole_hunk (old new : string) : DiffHunk :=
  {| dh_old := 0; dh_new := 0;
     dh_lines := ((λ e, ("-"%char, e)) <$> to_elements old) ++ ((λ e, ("+"%char, e)) <$> to_elements new) |}.

Definition whole_hunks (old new : string) : list DiffHunk := if String.eqb old new then [] else [whole_hunk old new].

#[export] Instance whole_diff : Similar := {
  diff_ops old new :=
    if String.eqb old new then [Equal 0 0 (len (to_elements old))]
    else [Replace 0 (len (to_elements old)) 0 (len (to_elements new))];
  unified_diff _ a b old new :=
    match whole_hunks old new with
    | [] => ""
    | hs => "--- " +:+ a +:+ String nl ("+++ " +:+ b +:+ String nl (str_concat (hunk_text <$> hs)))
    end;
}.

Lemma whole_sides old new : dh_old_side (whole_hunk old new) = to_elements old ∧ dh_new_side (whole_hunk old new) = to_elements new.
Proof.
  unfold dh_old_side, dh_new_side, whole_hunk. cbn [dh_lines]. rewrite !filter_app, !fmap_app.
  assert (Hin : ∀ (c : ascii) (P : ascii * string → Prop) `{∀ l, Decision (P l)} (es : list string), (∀ e, P (c, e)) →
    snd <$> filter P ((λ e, (c, e)) <$> es) = es).
  { intros c P ? es HP. induction es as [|e es IH]; [done|]. rewrite fmap_cons, filter_cons_True by apply HP.
    rewrite fmap_cons, IH. done. }
  assert (Hout : ∀ (c : ascii) (P : ascii * string → Prop) `{∀ l, Decision (P l)} (es : list string), (∀ e, ¬ P (c, e)) →
    snd <$> filter P ((λ e, (c, e)) <$> es) = []).
  { intros c P ? es HP. induction es as [|e es IH]; [done|]. rewrite fmap_cons, filter_cons_False by apply HP. done. }
  split.
  - rewrite Hin, Hout by (intros e; cbn; done). by rewrite app_nil_r.
  - rewrite Hout, Hin by (intros e; cbn; done). done.
Qed.

Lemma whole_diff_faithful : similar_faithful.
Proof.
  intros radius a b old new _ _. exists (whole_hunks old new). split; [cbn [unified_diff whole_diff]; by destruct (whole_hunks old new)|]. unfold whole_hunks.
  destruct (String.eqb_spec old new) as [->|_]; [constructor|]. destruct (whole_sides old new) as [Eo En].
  rewrite <-(app_nil_r (to_elements old)), <-(app_nil_r (to_elements new)), <-Eo, <-En.
  apply (replays_hunk 0 (whole_hunk old new) [] [] [] []); [done| |constructor].
  apply Forall_app. split; apply Forall_fmap, Forall_true; done.
Qed.

(** Every kind of change: edited, deleted, moved, moved and edited, an
    unterminated last line, created, created empty. *)
Definition lf (l : list string) : string := unlines l.
Definition base : tree := list_to_map
  [("edit.md", lf ["# One"; ""; "hello"; "world"]); ("gone.md", lf ["# Gone"]); ("move.md", lf ["# Move"]);
   ("move-edit.md", lf ["# Move"; ""; "body"]); ("tail.md", lf ["# Tail"] +:+ "no newline")].
Definition after : tree := list_to_map
  [("edit.md", lf ["# One"; ""; "hello"; "welt"]); ("moved.md", lf ["# Move"]); ("moved-edit.md", lf ["# Move"; ""; "body, edited"]);
   ("tail.md", lf ["# Tail"] +:+ "no newline either"); ("new.md", lf ["# New"; ""; "fresh"]); ("empty.md", "")].
Definition renames : tree := list_to_map [("moved.md", "move.md"); ("moved-edit.md", "move-edit.md")].

Definition doc_okb (d : string * string) : bool :=
  valid_path d.1 && str_all plain_char d.1 && negb (is_some (rsplit_once " b/" d.1)) && no_cr d.2 && (str_len d.2 <? u64_max)%N.

Lemma docs_ok (t : tree) : forallb doc_okb (map_to_list t) = true → tree_ok t.
Proof.
  rewrite forallb_true. intros Ht p s Hp. pose proof (Ht (p, s)) as Hd. rewrite elem_of_map_to_list in Hd. specialize (Hd Hp).
  unfold doc_okb in Hd. cbn [fst snd] in Hd. rewrite !andb_true_iff in Hd. destruct Hd as ((((Hv & Hpl) & Hb) & Hc) & Hl).
  split; [constructor; [done|done|by destruct (rsplit_once " b/" p)]|]. split; [done|by apply N.ltb_lt].
Qed.

Lemma renames_are_clean : renames_clean base after renames.
Proof.
  intros n o Hr _ _ _. unfold renames in Hr. apply elem_of_list_to_map_2 in Hr.
  assert (Hl : ∀ n' o', renames !! n' = Some o' → (n', o') ∈ [("moved.md", "move.md"); ("moved-edit.md", "move-edit.md")])
    by (intros n' o' Hn; by apply elem_of_list_to_map_2 in Hn).
  apply elem_of_cons in Hr as [E|Hr]; [|apply list_elem_of_singleton in Hr as E]; injection E as -> ->;
    (split; [vm_compute; reflexivity|]; split; [vm_compute; reflexivity|]); intros n' Hn' _; apply Hl in Hn';
    (apply elem_of_cons in Hn' as [E|Hn']; [|apply list_elem_of_singleton in Hn' as E]); injection E as ->; try done.
Qed.

Lemma patch_roundtrip_witness :
  is_some (build_patch base after renames) = true ∧
  match build_patch base after renames with
  | Some patch => apply_patch base (parse_patch patch) = Ok after
  | None => after = base
  end.
Proof.
  split; [vm_compute; reflexivity|]. apply (patch_roundtrip base after renames whole_diff_faithful).
  - apply docs_ok. vm_compute. reflexivity.
  - apply docs_ok. vm_compute. reflexivity.
  - exact renames_are_clean.
Defined.

Lemma summary_of_run : summary (count_changes base after renames) = "+2 -1 →2 ~9".
Proof. vm_compute. reflexivity. Qed.

(** A document in a folder whose name ends in " b": the patch that creates it
    creates another one, at the path behind the last " b/". *)
Lemma patch_path_misread :
  valid_path "team b/notes.md" = true ∧
  match build_patch ∅ {["team b/notes.md" := "hello"]} ∅ with
  | Some patch => apply_patch ∅ (parse_patch patch) = Ok {["notes.md" := "hello"]}
  | None => False
  end.
Proof. vm_compute. done. Qed.
End WikiPatchRun.
