(* ===== verification/Vault.v ===== *)
(** * The vault: records, layouts and the rules a chain walk applies

    crates/molt-core/src/vault.rs: the records and the canonical layouts
    every vault primitive hashes or signs.  crates/molt-vault/src/deposit.rs
    and key.rs: a deposit's shape and signature, a canonical vault key.
    crates/molt-engine/src/vault/mod.rs and deposit.rs: the roster rule, the
    founding context, when the vault is enabled, and the closed op set. *)

From S2P Require Import Prelude Bytes Strs Json Env Surface Roster Chain Checkpoint.
#[local] Open Scope string_scope.
#[local] Open Scope list_scope.

Definition VAULT_PAYLOAD_MAX : N := 102400.
Definition VAULT_NAME_MAX : N := 64.
Definition VAULT_KIND_MAX : N := 24.
Definition PAYLOAD_OVERHEAD : N := 40.
Definition SHARE_CT_LEN : N := 80.

(** [(name, identity_pk, vault_pk)] in genesis order. *)
Record VaultCtx := {
  ctx_m : N;
  holders_in_genesis_order : list (string * string * string);
}.

Record VaultPayloadRef := { pr_hash : string; pr_size : N }.

Record VaultDeposit := {
  depositor : string;
  dep_name : string;
  dep_kind : string;
  replaces : string;
  dep_m : N;
  dep_holders : list string;
  commitments : list string;
  enc_share : list string;
  dep_payload : VaultPayloadRef;
  nonce : string;
  sig_depositor : string;
}.

Record VaultGrant := { g_grant_id : string; g_secret_id : string; reader : string }.

Inductive VaultOp :=
  | Deposit (d : VaultDeposit)
  | Grant (g : VaultGrant)
  | VaultBaseOp (r : VaultPayloadRef).

(** The [serde] code derived for [VaultOp]: [serde_json::from_value] and
    [serde_json::to_value]. *)
Class VaultSerde := {
  op_from_value : Value → option VaultOp;
  op_to_value : VaultOp → option Value;
}.

(** Documented behaviour of a derived pair: reading back what was written. *)
Definition serde_roundtrip `{VaultSerde} : Prop :=
  ∀ op v, op_to_value op = Some v → op_from_value v = Some op.

(** ** Layouts *)

(** A field: its bytes ([None] where they do not exist at their width), or a
    counted run of byte strings. *)
Inductive Field :=
  | One (p : piece)
  | Run (l : list bytes).

Definition put_field (f : Field) : piece :=
  match f with One p => p ≫= put_bytes | Run l => put_run32 put_bytes l end.

Definition layout (tag : string) (fields : list Field) : piece :=
  put_tag tag +++ put_count (len fields) +++ put_each put_field fields.

Definition OneStr (s : string) : Field := One (Some (as_bytes s)).
Definition RunStr (l : list string) : Field := Run (as_bytes <$> l).

Definition TAG_SECRET : string := "molt-vault-secret-v1".
Definition TAG_DEPOSIT : string := "molt-vault-deposit-v1".
Definition TAG_GRANT : string := "molt-vault-grant-v1".

Definition secret_id_bytes (republic_id : string) (dep : VaultDeposit) : piece :=
  layout TAG_SECRET
    [OneStr republic_id; OneStr (depositor dep); OneStr (dep_name dep); OneStr (dep_kind dep);
     OneStr (replaces dep); One (put_u8 (dep_m dep)); RunStr (dep_holders dep);
     RunStr (commitments dep); OneStr (pr_hash (dep_payload dep))].

Definition deposit_signing_bytes (republic_id : string) (dep : VaultDeposit) : piece :=
  layout TAG_DEPOSIT
    [OneStr republic_id; OneStr (depositor dep); OneStr (dep_name dep); OneStr (dep_kind dep);
     OneStr (replaces dep); One (put_u8 (dep_m dep)); RunStr (dep_holders dep);
     RunStr (commitments dep); RunStr (enc_share dep); OneStr (pr_hash (dep_payload dep));
     One (put_u64 (pr_size (dep_payload dep))); OneStr (nonce dep)].

Definition grant_id_bytes (secret_id reader : string) (proposal_id : N) : piece :=
  layout TAG_GRANT [OneStr secret_id; OneStr reader; One (put_u64 proposal_id)].

(** [sha256_hex(&..)]; [None] where the layout panics. *)
Definition secret_id `{Env} (republic_id : string) (dep : VaultDeposit) : option string :=
  content_hash <$> secret_id_bytes republic_id dep.
Definition grant_id `{Env} (sid reader : string) (proposal_id : N) : option string :=
  content_hash <$> grant_id_bytes sid reader proposal_id.

(** ** Shapes *)

Inductive VaultError :=
  | LabelEmpty | LabelOuterSpaces | LabelTooLong | LabelControl
  | NotASeat (s : string)
  | Threshold
  | Shape (field : string)
  | Signature
  | BadKey.

Definition check_label (s : string) (max : N) : outcome VaultError unit :=
  reject str_empty (trim s) with LabelEmpty else
  reject negb (bool_decide (trim s = s)) with LabelOuterSpaces else
  reject (max <? chars_count s)%N with LabelTooLong else
  reject has_control s with LabelControl else
  Ok tt.
Definition check_vault_name (s : string) : outcome VaultError unit := check_label s VAULT_NAME_MAX.
Definition check_vault_kind (s : string) : outcome VaultError unit := check_label s VAULT_KIND_MAX.

Definition is_hex (s : string) (n : N) : bool :=
  (str_len s =? n * 2)%N && str_all is_lower_hex_char s.

Definition hex_array `{Env} (n : N) (s : string) : option bytes :=
  if is_hex s n then
    b ← hex_decode s; if (len b =? n)%N then Some b else None
  else None.

(** p = 2^255 - 19, little-endian. *)
Definition P25519 : bytes := xed :: replicate 30 xff ++ [x7f].

(** [Iterator::cmp(..) == Less] on bytes. *)
Fixpoint bytes_lt (a b : bytes) : bool :=
  match a, b with
  | x :: a, y :: b =>
      if (Byte.to_N x <? Byte.to_N y)%N then true
      else if (Byte.to_N y <? Byte.to_N x)%N then false else bytes_lt a b
  | [], _ :: _ => true
  | _, [] => false
  end.

Definition canonical_vault_pk `{Env} (s : string) : outcome VaultError string :=
  let? raw := ok_or (hex_array 32 s) BadKey in
  reject N.testbit (Byte.to_N (default x00 (raw !! 31))) 7 with BadKey else
  reject negb (bytes_lt (reverse raw) (reverse P25519)) with BadKey else
  reject negb (hpke_accepts raw) with BadKey else
  Ok s.

(** Every seat but the depositor with its 1-based genesis position. *)
Fixpoint holders_from (i : N) (seats : list (string * string * string)) (depositor : string)
    : outcome VaultError (bool * list (string * N * string)) :=
  match seats with
  | [] => Ok (false, [])
  | (name, _, vault_pk) :: seats =>
      let x := (i + 1)%N in
      reject (u8_max <? x)%N with Threshold else
      let? r := holders_from (i + 1) seats depositor in
      if decide (name = depositor) then Ok (true, r.2)
      else Ok (r.1, (name, x, vault_pk) :: r.2)
  end.

Definition holders_of (ctx : VaultCtx) (depositor : string)
    : outcome VaultError (list (string * N * string)) :=
  let? r := holders_from 0 (holders_in_genesis_order ctx) depositor in
  reject negb r.1 with NotASeat depositor else
  Ok r.2.

(** [iter().map(hex_array).collect::<Result<_, _>>()]. *)
Fixpoint commitments_of `{Env} (l : list string) : outcome VaultError (list bytes) :=
  match l with
  | [] => Ok []
  | c :: l =>
      let? b := ok_or (hex_array 32 c) (Shape "commitment") in
      let? r := commitments_of l in
      Ok (b :: r)
  end.

Definition verify_deposit_shape `{Env} (dep : VaultDeposit) (ctx : VaultCtx)
    : outcome VaultError unit :=
  let? _ := check_vault_name (dep_name dep) in
  let? _ := check_vault_kind (dep_kind dep) in
  let? holders := holders_of ctx (depositor dep) in
  reject negb (dep_m dep =? ctx_m ctx)%N with Shape "m" else
  reject negb (bool_decide (dep_holders dep = (λ h, h.1.1) <$> holders)) with Shape "holders" else
  reject negb (len (commitments dep) =? dep_m dep)%N with Shape "commitments" else
  let? cs := commitments_of (commitments dep) in
  reject existsb (λ c, negb (ristretto_point c)) cs with Shape "commitment" else
  reject negb (len (enc_share dep) =? len holders)%N ||
         existsb (λ e, negb (is_hex e SHARE_CT_LEN)) (enc_share dep) with Shape "enc_share" else
  reject negb (is_hex (pr_hash (dep_payload dep)) 32) with Shape "payload hash" else
  reject (pr_size (dep_payload dep) <? PAYLOAD_OVERHEAD)%N ||
         (VAULT_PAYLOAD_MAX + PAYLOAD_OVERHEAD <? pr_size (dep_payload dep))%N
    with Shape "payload size" else
  reject negb (str_empty (replaces dep)) && negb (is_hex (replaces dep) 32) with Shape "replaces" else
  reject negb (is_hex (nonce dep) 16) with Shape "nonce" else
  reject negb (is_hex (sig_depositor dep) 64) with Shape "sig_depositor" else
  Ok tt.

Definition verify_deposit_sig `{Env} (dep : VaultDeposit) (republic_id pk : string)
    : outcome VaultError unit :=
  let? pkb := ok_or (hex_array 32 pk) Signature in
  let? sig := ok_or (hex_array 64 (sig_depositor dep)) Signature in
  let? vk := ok_or (vk_from_bytes pkb) Signature in
  let? msg := expect (deposit_signing_bytes republic_id dep) in
  reject negb (verify_strict vk msg sig) with Signature else
  Ok tt.

(** ** The engine's rules *)

Inductive VaultRule :=
  | KeysWithoutFeatures
  | Bounds
  | SeatWithoutKey (s : string)
  | SeatInvalidKey (s : string)
  | SeatSharesKey (s : string)
  | FeatureWithoutKeys
  | UnknownOp
  | OpNotCanonical
  | DepositRefused (e : VaultError)
  | UnknownDepositor
  | ReaderNotASeat
  | GrantIdMismatch
  | BaseOutsideCut.

Definition VAULT : string := "vault".

Definition ctx_from_founding (rule_m : N) (founding : list MemberIdentity) : option VaultCtx :=
  if forallb (λ i, str_empty (mi_vault_pk i)) founding then None
  else Some {| ctx_m := rule_m;
               holders_in_genesis_order :=
                 (λ i, (mi_member i, mi_identity_pk i, mi_vault_pk i)) <$> founding |}.

Definition bounds_ok (rule_m rule_n : N) : bool := (2 <=? rule_m)%N && (rule_m + 2 <=? rule_n)%N.

Definition has_vault (features : option (list string)) : bool :=
  match features with Some f => existsb (λ k, bool_decide (k = VAULT)) f | None => false end.

Fixpoint check_seat_keys `{Env} (seen : gset string) (ids : list MemberIdentity)
    : outcome VaultRule unit :=
  match ids with
  | [] => Ok tt
  | id :: ids =>
      reject str_empty (mi_vault_pk id) with SeatWithoutKey (mi_member id) else
      reject (match canonical_vault_pk (mi_vault_pk id) with
              | Ok k => negb (bool_decide (k = mi_vault_pk id)) | _ => true end)
        with SeatInvalidKey (mi_member id) else
      reject bool_decide (mi_vault_pk id ∈ seen) with SeatSharesKey (mi_member id) else
      check_seat_keys ({[mi_vault_pk id]} ∪ seen) ids
  end.

Definition check_roster_keys `{Env} (rule_m rule_n : N) (identities : list MemberIdentity)
    (features : option (list string)) : outcome VaultRule bool :=
  if forallb (λ i, str_empty (mi_vault_pk i)) identities then Ok false
  else
    reject negb (is_some features) with KeysWithoutFeatures else
    reject has_vault features && negb (bounds_ok rule_m rule_n) with Bounds else
    let? _ := check_seat_keys ∅ identities in
    Ok true.

Definition check_new_founding_keys `{Env} (rule_m rule_n : N) (identities : list MemberIdentity)
    (features : option (list string)) : outcome VaultRule bool :=
  let? real := check_roster_keys rule_m rule_n identities features in
  reject negb real && has_vault features with FeatureWithoutKeys else
  Ok real.

Definition sets_vault (payload : Value) : bool :=
  bool_decide (op_of payload = Some "set_features") &&
  match get_str "value" payload with
  | Some v => existsb (λ k, bool_decide (k = VAULT)) (split_whitespace v)
  | None => false
  end.

(** [u8::try_from(len).unwrap_or(u8::MAX)]. *)
Definition ctx_bounds_ok (ctx : VaultCtx) : bool :=
  bounds_ok (ctx_m ctx) (N.min (len (holders_in_genesis_order ctx)) u8_max).

Definition enabled_by (ctx : VaultCtx) (founding : option (list string)) (org : list Value) : bool :=
  ctx_bounds_ok ctx && (has_vault founding || existsb sets_vault org).

(** The payloads of one surface's group(s), in order. *)
Definition payloads_of (sf : Surface) (l : list (Surface * list (N * Value))) : list Value :=
  concat ((λ g, g.2.*2) <$> filter (λ g, g.1 = sf) l).

Definition walk_enabled (state : CheckpointState) (ctx : VaultCtx) : bool :=
  enabled_by ctx (founding_features state) (payloads_of Organization (cs_applied state)).

Definition find_seat (ctx : VaultCtx) (name : string) : option (string * string * string) :=
  find (λ h, bool_decide (h.1.1 = name)) (holders_in_genesis_order ctx).

Definition check_grant `{Env} (g : VaultGrant) (proposal_id : N) (ctx : VaultCtx)
    : outcome VaultRule unit :=
  reject negb (is_some (find_seat ctx (reader g))) with ReaderNotASeat else
  let? gid := expect (grant_id (g_secret_id g) (reader g) proposal_id) in
  reject negb (bool_decide (g_grant_id g = gid)) with GrantIdMismatch else
  Ok tt.

(** The two zeros of an [f64] are equal; every other value a JSON number can
    hold is equal to itself alone. *)
Definition f64_eqb (a b : N) : bool :=
  (a =? b)%N || (((a =? 0) || (a =? 2 ^ 63)) && ((b =? 0) || (b =? 2 ^ 63)))%N.

(** [Value]'s [PartialEq]. *)
Fixpoint value_eqb (v w : Value) : bool :=
  match v, w with
  | Null, Null => true
  | Bool a, Bool b => Bool.eqb a b
  | Num (PosInt a), Num (PosInt b) => (a =? b)%N
  | Num (NegInt a), Num (NegInt b) => (a =? b)%Z
  | Num (Float a), Num (Float b) => f64_eqb a b
  | Str a, Str b => bool_decide (a = b)
  | Array l, Array k =>
      (fix go l k := match l, k with
       | [], [] => true
       | x :: l, y :: k => value_eqb x y && go l k
       | _, _ => false end) l k
  | Object l, Object k =>
      (fix go l k := match l, k with
       | [], [] => true
       | (a, x) :: l, (b, y) :: k => bool_decide (a = b) && value_eqb x y && go l k
       | _, _ => false end) l k
  | _, _ => false
  end.

Definition check_vault_op `{Env, VaultSerde} (republic_id : string) (proposal_id : N)
    (payload : Value) (ctx : VaultCtx) : outcome VaultRule VaultOp :=
  let? op := ok_or (op_from_value payload) UnknownOp in
  reject (match op_to_value op with Some v => negb (value_eqb v payload) | None => true end)
    with OpNotCanonical else
  let? _ :=
    match op with
    | Deposit dep =>
        let? _ := omap_err DepositRefused (verify_deposit_shape dep ctx) in
        let? seat := ok_or (find_seat ctx (depositor dep)) UnknownDepositor in
        omap_err DepositRefused (verify_deposit_sig dep republic_id seat.1.2)
    | Grant g => check_grant g proposal_id ctx
    | VaultBaseOp _ => Err BaseOutsideCut
    end in
  Ok op.
