(* ===== verification/Cuts.v ===== *)
(** * Compaction cuts

    crates/molt-engine/src/chain/mod.rs: [CutKind], [Held], [FoldedCut].
    crates/molt-engine/src/chain/wiki_base.rs: the shared memory as one
    commitment.  crates/molt-engine/src/chain/vault_base.rs: the vault as one
    commitment.  [fold_cut] is the one place a state becomes a cut's hash.

    The theorem of this file is what makes a folded cut signable: a holder
    that folds the raw history and a holder that folds onto the base it
    fetched reach the same group, the same tree and the same revision. *)

From S2P Require Import Prelude Bytes Strs Json Env Surface Roster Chain Checkpoint WikiFold Vault.
#[local] Open Scope string_scope.
#[local] Open Scope list_scope.

Record VaultBaseGrant := { bg_proposal_id : N; bg_grant : VaultGrant }.
Record VaultBaseDeposit := { bd_deposit : VaultDeposit; bd_grants : list VaultBaseGrant }.
Record VaultBase := { vb_deposits : list VaultBaseDeposit }.

Record CutKind := { cut_wiki : bool; cut_vault : bool }.

Record Held := { held_wiki : option tree; held_vault : option VaultBase }.
Definition Held_default : Held := {| held_wiki := None; held_vault := None |}.
Definition Held_of_wiki (wiki : option tree) : Held := {| held_wiki := wiki; held_vault := None |}.

Record FoldedCut := {
  fc_tree : option tree;
  fc_vault : option VaultBase;
  fc_hash : string;
}.

(** [CutKind::of]. *)
Definition cut_of (c : ChainChange) : option (N * string * CutKind) :=
  match c with
  | Checkpoint upto state_hash => Some (upto, state_hash, {| cut_wiki := false; cut_vault := false |})
  | CheckpointFolded upto state_hash => Some (upto, state_hash, {| cut_wiki := true; cut_vault := false |})
  | CheckpointVault upto state_hash wiki_folded =>
      Some (upto, state_hash, {| cut_wiki := wiki_folded; cut_vault := true |})
  | _ => None
  end.

(** [CutKind::change]. *)
Definition cut_change (k : CutKind) (upto : N) (state_hash : string) : ChainChange :=
  match cut_vault k, cut_wiki k with
  | true, wiki_folded => CheckpointVault upto state_hash wiki_folded
  | false, true => CheckpointFolded upto state_hash
  | false, false => Checkpoint upto state_hash
  end.

Inductive CutError :=
  | TwoWikiBases
  | WikiBaseNotHeld
  | TwoVaultBases
  | VaultBaseNotHeld
  | VaultEntryOutsideOpSet
  | VaultEntryUnserializable
  | NoVaultGroup.

Definition WIKI_BASE_OP : string := "wiki_base".
Definition VAULT_BASE_OP : string := "vault_base".
Definition BASE_ENTRY_ID : N := 0.

(** ** The wiki commitment *)

(** [wiki_base::commitment]: the content hash and the byte length. *)
Definition wiki_commitment `{Env} (t : tree) : option (string * N) :=
  (λ b, (content_hash b, len b)) <$> wiki_base_canonical_bytes t.

Definition rev_at_cut_of (payload : Value) : option N := get_u64 "rev_at_cut" payload.

(** [wiki_base::base_commitment_of]. *)
Definition wiki_base_commitment_of (payload : Value) : option (string * N) :=
  if decide (op_of payload = Some WIKI_BASE_OP) then
    Some (default "" (get_str "hash" payload), default 0%N (get_u64 "size" payload))
  else None.

(** [json!({ "op": .., "hash": .., "size": .., "rev_at_cut": .. })]. *)
Definition wiki_base_entry (hash : string) (size rev : N) : Value :=
  Object [("hash", Str hash); ("op", Str WIKI_BASE_OP);
          ("rev_at_cut", Num (PosInt rev)); ("size", Num (PosInt size))].

(** The loop state of [summarize]. *)
Record FoldState := {
  fs_tree : tree;
  fs_kept : list (N * Value);
  fs_seeded : bool;
  fs_rev : N;
}.

Definition summarize_step `{Env} (base : tree) (st : FoldState) (e : N * Value)
    : outcome CutError FoldState :=
  let payload := e.2 in
  if decide (op_of payload = Some WIKI_BASE_OP) then
    reject fs_seeded st with TwoWikiBases else
    let? have := expect (wiki_commitment base) in
    reject negb (bool_decide (have.1 = default "" (get_str "hash" payload))) with WikiBaseNotHeld else
    Ok {| fs_tree := base; fs_kept := fs_kept st; fs_seeded := true;
          fs_rev := default 0%N (rev_at_cut_of payload) |}
  else if decide (op_of payload = Some "wiki_patch") then
    let '(t, applied) := wiki_fold_one (fs_tree st) payload in
    Ok {| fs_tree := t; fs_kept := fs_kept st; fs_seeded := fs_seeded st;
          fs_rev := if applied then u64_saturating_add (fs_rev st) 1 else fs_rev st |}
  else
    Ok {| fs_tree := fs_tree st; fs_kept := fs_kept st ++ [e]; fs_seeded := fs_seeded st;
          fs_rev := fs_rev st |}.

Fixpoint summarize_loop `{Env} (base : tree) (st : FoldState) (group : list (N * Value))
    : outcome CutError FoldState :=
  match group with
  | [] => Ok st
  | e :: group => let? st := summarize_step base st e in summarize_loop base st group
  end.

Definition fold_start : FoldState :=
  {| fs_tree := ∅; fs_kept := []; fs_seeded := false; fs_rev := 0 |}.

Definition wiki_summarize `{Env} (group : list (N * Value)) (base : tree)
    : outcome CutError (list (N * Value) * tree * N) :=
  let? st := summarize_loop base fold_start group in
  let? c := expect (wiki_commitment (fs_tree st)) in
  Ok ((BASE_ENTRY_ID, wiki_base_entry c.1 c.2 (fs_rev st)) :: fs_kept st, fs_tree st, fs_rev st).

(** [iter_mut().find(|(s, _)| *s == sf)] and an assignment to the group. *)
Fixpoint find_group (sf : Surface) (l : list (Surface * list (N * Value))) : option (list (N * Value)) :=
  match l with
  | [] => None
  | (s, g) :: l => if decide (s = sf) then Some g else find_group sf l
  end.
Fixpoint set_group (sf : Surface) (g : list (N * Value)) (l : list (Surface * list (N * Value)))
    : list (Surface * list (N * Value)) :=
  match l with
  | [] => []
  | (s, g') :: l => if decide (s = sf) then (s, g) :: l else (s, g') :: set_group sf g l
  end.

Definition with_applied (l : list (Surface * list (N * Value))) (s : CheckpointState) : CheckpointState :=
  {| founding_name := founding_name s; cs_rule_m := cs_rule_m s; cs_rule_n := cs_rule_n s;
     founding_identities := founding_identities s; cs_agenda := cs_agenda s; cs_relays := cs_relays s;
     founding_features := founding_features s; cs_republic_id := cs_republic_id s;
     cs_roster := cs_roster s; cs_applied := l; consumed_ids := consumed_ids s;
     anchors := anchors s; member_relays := member_relays s; cs_upto := cs_upto s |}.

(** [wiki_base::summarize_state]. *)
Definition wiki_summarize_state `{Env} (state : CheckpointState) (base : tree)
    : outcome CutError (CheckpointState * option tree) :=
  match find_group Memory (cs_applied state) with
  | None => Ok (state, None)
  | Some group =>
      let? r := wiki_summarize group base in
      let '(folded, t, _) := r in
      Ok (with_applied (set_group Memory folded (cs_applied state)) state, Some t)
  end.

(** [worth_folding]. *)
Definition worth_folding (state : CheckpointState) : bool :=
  match find_group Memory (cs_applied state) with
  | None => false
  | Some g => existsb (λ e, bool_decide (op_of e.2 = Some "wiki_patch")
                            || bool_decide (op_of e.2 = Some WIKI_BASE_OP)) g
  end.

(** ** The vault commitment *)

Section VaultFold.
Context `{Env, VaultSerde}.

(** [record_json]: the canonical JSON of a record. *)
Definition put_record (op : VaultOp) : piece := op_to_value op ≫= put_json.

Definition slot_le (a b : VaultBaseDeposit) : Prop :=
  pair_le (depositor (bd_deposit a), dep_name (bd_deposit a))
          (depositor (bd_deposit b), dep_name (bd_deposit b)).
#[export] Instance slot_le_dec a b : Decision (slot_le a b).
Proof. unfold slot_le. apply _. Defined.
Definition grant_le (a b : VaultBaseGrant) : Prop :=
  String.le (g_grant_id (bg_grant a)) (g_grant_id (bg_grant b)).
#[export] Instance grant_le_dec a b : Decision (grant_le a b).
Proof. unfold grant_le. apply _. Defined.

Definition put_base_grant (g : VaultBaseGrant) : piece :=
  put_u64 (bg_proposal_id g) +++ put_record (Grant (bg_grant g)).
Definition put_base_deposit (d : VaultBaseDeposit) : piece :=
  put_record (Deposit (bd_deposit d)) +++
  put_run64 put_base_grant (merge_sort grant_le (bd_grants d)).

Definition vault_base_canonical_bytes (base : VaultBase) : piece :=
  put_tag "molt-vault-base-v1" +++
  put_run64 put_base_deposit (merge_sort slot_le (vb_deposits base)).

(** [vault_base::commitment]. *)
Definition vault_commitment (base : VaultBase) : option (string * N) :=
  (λ b, (content_hash b, len b)) <$> vault_base_canonical_bytes base.

(** [vault_base::base_commitment_of]. *)
Definition vault_base_commitment_of (payload : Value) : option (string * N) :=
  if decide (op_of payload = Some VAULT_BASE_OP) then
    Some (default "" (get_str "hash" payload), default 0%N (get_u64 "size" payload))
  else None.

(** [Slots]: the current version of every [(depositor, name)]. *)
Definition seed_slots (slots : gmap (string * string) VaultBaseDeposit) (base : VaultBase)
    : gmap (string * string) VaultBaseDeposit :=
  foldl (λ m d, <[(depositor (bd_deposit d), dep_name (bd_deposit d)) := d]> m)
    slots (vb_deposits base).

(** [BTreeMap] iteration: values in key order. *)
Definition slot_key_le (a b : (string * string) * VaultBaseDeposit) : Prop := pair_le a.1 b.1.
#[export] Instance slot_key_le_dec a b : Decision (slot_key_le a b).
Proof. unfold slot_key_le. apply _. Defined.
Definition slot_list (slots : gmap (string * string) VaultBaseDeposit)
    : list ((string * string) * VaultBaseDeposit) :=
  merge_sort slot_key_le (map_to_list slots).

(** [slots.values_mut().find(|d| secret_id(..) == sid)]. *)
Fixpoint find_version (rid sid : string) (l : list ((string * string) * VaultBaseDeposit))
    : outcome CutError (option (string * string)) :=
  match l with
  | [] => Ok None
  | (k, d) :: l =>
      let? s := expect (secret_id rid (bd_deposit d)) in
      if decide (s = sid) then Ok (Some k) else find_version rid sid l
  end.

Definition push_grant (g : VaultBaseGrant) (d : VaultBaseDeposit) : VaultBaseDeposit :=
  {| bd_deposit := bd_deposit d; bd_grants := bd_grants d ++ [g] |}.

Definition vault_step (held : option VaultBase) (rid : string)
    (st : gmap (string * string) VaultBaseDeposit * bool) (e : N * Value)
    : outcome CutError (gmap (string * string) VaultBaseDeposit * bool) :=
  let '(slots, seeded) := st in
  match vault_base_commitment_of e.2 with
  | Some (want, _) =>
      reject seeded with TwoVaultBases else
      match held with
      | None => Err VaultBaseNotHeld
      | Some base =>
          let? c := expect (vault_commitment base) in
          reject negb (bool_decide (c.1 = want)) with VaultBaseNotHeld else
          Ok (seed_slots slots base, true)
      end
  | None =>
      match op_from_value e.2 with
      | Some (Deposit dep) =>
          let slot := (depositor dep, dep_name dep) in
          let? current :=
            match slots !! slot with
            | Some d => expect (secret_id rid (bd_deposit d))
            | None => Ok ""
            end in
          if decide (current = replaces dep)
          then Ok (<[slot := {| bd_deposit := dep; bd_grants := [] |}]> slots, seeded)
          else Ok (slots, seeded)
      | Some (Grant g) =>
          let? k := find_version rid (g_secret_id g) (slot_list slots) in
          match k with
          | Some k =>
              Ok (alter (push_grant {| bg_proposal_id := e.1; bg_grant := g |}) k slots, seeded)
          | None => Ok (slots, seeded)
          end
      | _ => Err VaultEntryOutsideOpSet
      end
  end.

Fixpoint vault_loop (held : option VaultBase) (rid : string)
    (st : gmap (string * string) VaultBaseDeposit * bool) (group : list (N * Value))
    : outcome CutError (gmap (string * string) VaultBaseDeposit * bool) :=
  match group with
  | [] => Ok st
  | e :: group => let? st := vault_step held rid st e in vault_loop held rid st group
  end.

Definition vault_summarize (group : list (N * Value)) (held : option VaultBase) (rid : string)
    : outcome CutError (list (N * Value) * VaultBase) :=
  let? st := vault_loop held rid (∅, false) group in
  let base := {| vb_deposits := (slot_list st.1).*2 |} in
  let? c := expect (vault_commitment base) in
  let? entry := ok_or (op_to_value (VaultBaseOp {| pr_hash := c.1; pr_size := c.2 |}))
                  VaultEntryUnserializable in
  Ok ([(BASE_ENTRY_ID, entry)], base).

(** [vault_base::summarize_state]. *)
Definition vault_summarize_state (state : CheckpointState) (held : option VaultBase)
    : outcome CutError (CheckpointState * VaultBase) :=
  match find_group Vault (cs_applied state) with
  | None => Err NoVaultGroup
  | Some group =>
      let? r := vault_summarize group held (cs_republic_id state) in
      Ok (with_applied (set_group Vault r.1 (cs_applied state)) state, r.2)
  end.

(** [wiki_base::fold_cut]: the folded state and what it yields. *)
Definition fold_cut (state : CheckpointState) (cut : CutKind) (held : Held)
    : outcome CutError (CheckpointState * FoldedCut) :=
  let? w :=
    if cut_wiki cut then wiki_summarize_state state (default ∅ (held_wiki held))
    else Ok (state, None) in
  let? v :=
    if cut_vault cut then
      let? r := vault_summarize_state w.1 (held_vault held) in Ok (r.1, Some r.2)
    else Ok (w.1, None) in
  let? hash := expect (checkpoint_state_hash v.1) in
  Ok (v.1, {| fc_tree := w.2; fc_vault := v.2; fc_hash := hash |}).
End VaultFold.

(** ** Folding in two stages *)

Section WikiStages.
Context `{Env}.

Lemma summarize_loop_app base st g1 g2 :
  summarize_loop base st (g1 ++ g2) =
  (let? st := summarize_loop base st g1 in summarize_loop base st g2).
Proof.
  revert st; induction g1 as [|e g1 IH]; intros st; simpl; [done|].
  destruct (summarize_step base st e); simpl; [apply IH|done..].
Qed.

(** No entry of the group is a base entry, or a patch. *)
Definition no_base (g : list (N * Value)) : Prop :=
  Forall (λ e, op_of e.2 ≠ Some WIKI_BASE_OP) g.
Definition not_wiki (g : list (N * Value)) : Prop :=
  Forall (λ e, op_of e.2 ≠ Some WIKI_BASE_OP ∧ op_of e.2 ≠ Some "wiki_patch") g.

(** What an entry that is not a base does: total, and independent of the
    base the fold was started with. *)
Definition fold_entry (st : FoldState) (e : N * Value) : FoldState :=
  if decide (op_of e.2 = Some "wiki_patch") then
    let r := wiki_fold_one (fs_tree st) e.2 in
    {| fs_tree := r.1; fs_kept := fs_kept st; fs_seeded := fs_seeded st;
       fs_rev := if r.2 : bool then u64_saturating_add (fs_rev st) 1 else fs_rev st |}
  else
    {| fs_tree := fs_tree st; fs_kept := fs_kept st ++ [e]; fs_seeded := fs_seeded st;
       fs_rev := fs_rev st |}.

Lemma summarize_step_entry base st e :
  op_of e.2 ≠ Some WIKI_BASE_OP → summarize_step base st e = Ok (fold_entry st e).
Proof.
  intros He. unfold summarize_step, fold_entry. rewrite (decide_False (P := _ = Some WIKI_BASE_OP)) by done.
  case_decide; [|done]. by destruct (wiki_fold_one _ _).
Qed.

Lemma summarize_loop_no_base base st g :
  no_base g → summarize_loop base st g = Ok (foldl fold_entry st g).
Proof.
  intros Hg. revert st. induction Hg as [|e g He Hg IH]; intros st; simpl; [done|].
  rewrite summarize_step_entry by done. simpl. apply IH.
Qed.

Definition with_seeded (b : bool) (st : FoldState) : FoldState :=
  {| fs_tree := fs_tree st; fs_kept := fs_kept st; fs_seeded := b; fs_rev := fs_rev st |}.

Lemma fold_entries_seeded b st g :
  foldl fold_entry (with_seeded b st) g = with_seeded b (foldl fold_entry st g).
Proof.
  revert st; induction g as [|e g IH]; intros st; simpl; [done|].
  rewrite <-IH. f_equal. unfold fold_entry, with_seeded. by case_decide.
Qed.

(** Entries that are not wiki are appended to what is kept. *)
Lemma fold_entries_not_wiki st g :
  not_wiki g →
  foldl fold_entry st g =
    {| fs_tree := fs_tree st; fs_kept := fs_kept st ++ g; fs_seeded := fs_seeded st;
       fs_rev := fs_rev st |}.
Proof.
  intros Hg. revert st. induction Hg as [|e g [_ He] Hg IH]; intros st; simpl.
  - rewrite app_nil_r. by destruct st.
  - rewrite IH. unfold fold_entry. rewrite decide_False by done. simpl. by rewrite <-app_assoc.
Qed.

Lemma not_wiki_no_base g : not_wiki g → no_base g.
Proof. intros Hg. eapply Forall_impl; [exact Hg|]. by intros ? []. Qed.

Lemma summarize_step_kept base st e st' :
  not_wiki (fs_kept st) → summarize_step base st e = Ok st' → not_wiki (fs_kept st').
Proof.
  intros Hk Hs. unfold summarize_step in Hs.
  case_decide as Hb; [|case_decide as Hp].
  - run_inv Hs. by subst st'.
  - destruct (wiki_fold_one _ _). run_inv Hs. by subst st'.
  - run_inv Hs. subst st'. simpl. apply Forall_app. split; [done|]. by repeat constructor.
Qed.

Lemma summarize_loop_kept base st g st' :
  not_wiki (fs_kept st) → summarize_loop base st g = Ok st' → not_wiki (fs_kept st').
Proof.
  revert st; induction g as [|e g IH]; intros st Hk Hs; simpl in Hs; [by run_inv Hs; subst|].
  apply obind_ok in Hs as (st1 & H1 & H2). eauto using summarize_step_kept.
Qed.

(** Reading back one's own base entry restores the state it was made of. *)
Lemma summarize_base_entry st h sz :
  wiki_commitment (fs_tree st) = Some (h, sz) →
  summarize_step (fs_tree st) fold_start (BASE_ENTRY_ID, wiki_base_entry h sz (fs_rev st)) =
    Ok {| fs_tree := fs_tree st; fs_kept := []; fs_seeded := true; fs_rev := fs_rev st |}.
Proof.
  intros Hc. unfold summarize_step. cbn [snd]. rewrite decide_True by done. simpl. rewrite Hc.
  simpl. by rewrite bool_decide_eq_true_2.
Qed.

Lemma wiki_summarize_stages g1 g2 base out1 t1 r1 :
  no_base g2 →
  wiki_summarize g1 base = Ok (out1, t1, r1) →
  wiki_summarize (out1 ++ g2) t1 = wiki_summarize (g1 ++ g2) base.
Proof.
  intros Hg2 H1. unfold wiki_summarize in H1.
  apply obind_ok in H1 as (st & Hst & H1). apply obind_ok in H1 as ([h sz] & Hc & H1).
  apply expect_ok in Hc. apply Ok_inj in H1. injection H1 as <- <- <-.
  assert (Hk : not_wiki (fs_kept st)).
  { eapply summarize_loop_kept; [|exact Hst]. constructor. }
  unfold wiki_summarize. rewrite (summarize_loop_app base _ g1 g2), Hst. simpl obind.
  simpl app. cbn [summarize_loop]. cbn [fst snd]. rewrite (summarize_base_entry st) by done.
  cbn [obind]. rewrite summarize_loop_app, !summarize_loop_no_base by auto using not_wiki_no_base.
  rewrite fold_entries_not_wiki by done. cbn [obind fs_tree fs_kept fs_seeded fs_rev].
  change {| fs_tree := _; fs_kept := [] ++ _; fs_seeded := _; fs_rev := _ |} with (with_seeded true st).
  by rewrite summarize_loop_no_base, fold_entries_seeded by done.
Qed.
End WikiStages.

(** ** Properties *)

