(* ===== verification/Standing.v ===== *)
(** * What a card is judged against

    crates/molt-engine/src/vault/deposit.rs and fold.rs: the vault projection
    and when a deposit or a grant is stale against it.
    crates/molt-engine/src/proposals.rs: the folded wiki a pending patch must
    still apply to.  [Standing] is the part of the engine's state these read;
    the passes that retire and reopen cards by them are in [Votes].  The fold
    cache of the wiki and the parsed-patch map are left out: the code keeps
    them as caches of the fold and of the cards' own payloads. *)

From S2P Require Import Prelude Bytes Strs Json Env Surface Roster Chain Checkpoint WikiFold Vault Cuts.
#[local] Open Scope string_scope.
#[local] Open Scope list_scope.

(** A call that can only abort. *)
Abbreviation run A := (outcome Empty_set A).

Record Standing := mkStanding {
  st_prepared : bool;
  st_vault : list Value;
  st_vault_base : option (VaultBase * string);
  st_adopting : bool;
  st_memory : list Value;
  st_wiki_base : option tree;
  st_chain : list ChainBlock;
  st_replay : gmap N N;
}.

Definition set_replay (m : gmap N N) (s : Standing) : Standing :=
  {| st_prepared := st_prepared s; st_vault := st_vault s; st_vault_base := st_vault_base s; st_adopting := st_adopting s;
     st_memory := st_memory s; st_wiki_base := st_wiki_base s; st_chain := st_chain s; st_replay := m |}.

(** ** The vault projection *)

Section VaultProjection.
Context `{Env, VaultSerde}.

(** [applied_payloads(Surface::Vault).find_map(base_commitment_of)]. *)
Definition base_committed (s : Standing) : option (string * N) :=
  if st_prepared s then head (omap vault_base_commitment_of (st_vault s)) else None.

(** The base held for the committed hash; the empty one is derived. *)
Definition base_now (s : Standing) : option VaultBase :=
  c ← base_committed s;
  match st_vault_base s with
  | Some (b, h) =>
      if decide (h = c.1) then Some b
      else if decide (Some c.1 = fst <$> vault_commitment {| vb_deposits := [] |}) then Some {| vb_deposits := [] |} else None
  | None => if decide (Some c.1 = fst <$> vault_commitment {| vb_deposits := [] |}) then Some {| vb_deposits := [] |} else None
  end.

Definition vault_base_pending (s : Standing) : bool :=
  match base_committed s, base_now s with Some _, None => true | _, _ => false end.

Record VaultVersion := { ver_deposit : VaultDeposit; ver_replaces : option string }.
Record VaultAppliedGrant := { ag_grant : VaultGrant; ag_void : bool }.
Record VaultState := mkVault {
  current : gmap (string * string) string;
  versions : gmap string VaultVersion;
  grants : list VaultAppliedGrant;
}.

Definition slot_of (d : VaultDeposit) : string * string := (depositor d, dep_name d).

Definition extends (st : VaultState) (d : VaultDeposit) : bool :=
  bool_decide (default "" (current st !! slot_of d) = replaces d).

(** The id of [d] itself is looked at last, and only where it matters. *)
Definition is_stale (st : VaultState) (rid : string) (d : VaultDeposit) : run bool :=
  if extends st d || negb (bool_decide (is_Some (current st !! slot_of d))) then Ok false
  else if str_empty (replaces d) || bool_decide (is_Some (versions st !! replaces d)) then Ok true
  else let? sid := expect (secret_id rid d) in Ok (bool_decide (is_Some (versions st !! sid))).

Definition is_current (st : VaultState) (sid : string) : bool :=
  match versions st !! sid with
  | Some v => bool_decide (current st !! slot_of (ver_deposit v) = Some sid)
  | None => false
  end.

Definition void_if (sid : string) (g : VaultAppliedGrant) : VaultAppliedGrant :=
  if decide (g_secret_id (ag_grant g) = sid) then {| ag_grant := ag_grant g; ag_void := true |} else g.

(** One deposit of the folded base. *)
Definition seed_deposit (rid : string) (st : VaultState) (d : VaultBaseDeposit) : run VaultState :=
  let? sid := expect (secret_id rid (bd_deposit d)) in
  Ok (mkVault (<[slot_of (bd_deposit d) := sid]> (current st))
        (<[sid := {| ver_deposit := bd_deposit d; ver_replaces := None |}]> (versions st))
        (grants st ++ ((λ g, {| ag_grant := bg_grant g; ag_void := false |}) <$> bd_grants d))).

Fixpoint seed_deposits (rid : string) (l : list VaultBaseDeposit) (st : VaultState) : run VaultState :=
  match l with [] => Ok st | d :: l => let? st := seed_deposit rid st d in seed_deposits rid l st end.

(** One applied payload; a deposit that does not extend its slot is void. *)
Definition vault_apply (rid : string) (base : option VaultBase) (st : VaultState) (value : Value) : run VaultState :=
  match vault_base_commitment_of value with
  | Some _ => seed_deposits rid (match base with Some b => vb_deposits b | None => [] end) st
  | None =>
      match op_from_value value with
      | Some (Deposit d) =>
          if negb (extends st d) then Ok st
          else
            let? sid := expect (secret_id rid d) in
            let old := current st !! slot_of d in
            Ok (mkVault (<[slot_of d := sid]> (current st)) (<[sid := {| ver_deposit := d; ver_replaces := old |}]> (versions st))
                  (match old with Some o => void_if o <$> grants st | None => grants st end))
      | Some (Grant g) =>
          Ok (mkVault (current st) (versions st)
                (grants st ++ [{| ag_grant := g; ag_void := negb (is_current st (g_secret_id g)) |}]))
      | _ => Ok st
      end
  end.

Fixpoint vault_fold (rid : string) (base : option VaultBase) (l : list Value) (st : VaultState) : run VaultState :=
  match l with [] => Ok st | v :: l => let? st := vault_apply rid base st v in vault_fold rid base l st end.

Definition vault_state (rid : string) (s : Standing) : run VaultState :=
  vault_fold rid (base_now s) (st_vault s) (mkVault ∅ ∅ []).

(** Whether a Vault card is stale: [None] where it is neither a deposit nor a
    grant. *)
Definition vault_replaced (st : VaultState) (rid : string) (payload : Value) : run (option bool) :=
  match op_from_value payload with
  | Some (Grant g) => Ok (Some (bool_decide (is_Some (versions st !! g_secret_id g)) && negb (is_current st (g_secret_id g))))
  | Some (Deposit d) => let? b := is_stale st rid d in Ok (Some b)
  | _ => Ok None
  end.

End VaultProjection.

(** ** The folded wiki *)

Inductive WikiPending := WikiBasePending (size : N) (want : string).

Definition wiki_patch_files (payload : Value) : option (list PatchFile) :=
  if decide (op_of payload = Some "wiki_patch") then parse_patch <$> get_str "value" payload else None.

Definition wiki_payload_paths (payload : Value) : option (gset string) :=
  touched_paths <$> wiki_patch_files payload.

Section WikiProjection.
Context `{Env}.

(** One entry: a commitment starts the fold at the base held for it. *)
Definition fold_wiki_entry (held : option tree) (acc : tree * N) (payload : Value) : outcome WikiPending (tree * N) :=
  match wiki_base_commitment_of payload with
  | Some (want, size) =>
      match held with
      | None => Err (WikiBasePending size want)
      | Some t =>
          let? have := expect (wiki_commitment t) in
          reject negb (bool_decide (have.1 = want)) with WikiBasePending size want else
          Ok (t, default 0%N (rev_at_cut_of payload))
      end
  | None =>
      match wiki_patch_files payload with
      | None => Ok acc
      | Some files =>
          match apply_patch acc.1 files with
          | Ok t => Ok (t, u64_saturating_add acc.2 1)
          | _ => Ok acc
          end
      end
  end.

Fixpoint fold_wiki_from (held : option tree) (l : list Value) (acc : tree * N) : outcome WikiPending (tree * N) :=
  match l with [] => Ok acc | v :: l => let? acc := fold_wiki_entry held acc v in fold_wiki_from held l acc end.

(** [wiki_base]: the tree and its revision. *)
Definition wiki_base (s : Standing) : outcome WikiPending (tree * N) := fold_wiki_from (st_wiki_base s) (st_memory s) (∅, 0%N).

(** The verdict over the tree restricted to the paths the patch names. *)
Definition wiki_patch_applies (t : tree) (files : list PatchFile) : bool :=
  is_ok (apply_patch (restrict (touched_paths files) t) files).

(** Did a block at [height] or above touch any of [paths]?  A cut touches
    every path. *)
Definition block_moves (paths : gset string) (b : ChainBlock) : bool :=
  match change b with
  | Applied _ Memory payload =>
      match wiki_payload_paths payload with Some m => negb (bool_decide (m ## paths)) | None => false end
  | Checkpoint _ _ | CheckpointFolded _ _ | CheckpointVault _ _ _ => true
  | _ => false
  end.
Definition chain_moved_since (blocks : list ChainBlock) (h : N) (paths : gset string) : bool :=
  existsb (block_moves paths) (filter (λ b, (h <= height b)%N) blocks).

End WikiProjection.

(** ** The projection is the fold *)

(** The verdict over the restricted tree is the verdict over the whole one. *)
Lemma wiki_patch_applies_whole t files : t !! "" = None → wiki_patch_applies t files = is_ok (apply_patch t files).
Proof.
  intros Ht. unfold wiki_patch_applies. rewrite (apply_patch_local t files Ht). by destruct (apply_patch (restrict _ _) _).
Qed.

(** Where no cut folded the wiki, the tree the cards are judged against is the
    fold of every applied patch, and it is never pending. *)
Lemma wiki_base_unfolded `{Env} (s : Standing) :
  Forall (λ v, op_of v ≠ Some WIKI_BASE_OP) (st_memory s) → ∃ r, wiki_base s = Ok (wiki_fold (st_memory s), r).
Proof.
  unfold wiki_base, wiki_fold, wiki_fold_with_rev.
  assert (Hgen : ∀ l acc st, Forall (λ v, op_of v ≠ Some WIKI_BASE_OP) l → acc.1 = st.1 →
    ∃ r, fold_wiki_from (st_wiki_base s) l acc = Ok ((fold_left fold_step l st).1, r)).
  { induction l as [|v l IH]; intros [t r] st Hl Ht; cbn [fst] in Ht; cbn [fold_wiki_from fold_left].
    { exists r. by rewrite Ht. }
    apply Forall_cons in Hl as [Hv Hl]. unfold fold_wiki_entry, wiki_base_commitment_of. rewrite decide_False by done. subst t.
    unfold fold_step at 2, wiki_fold_one, wiki_patch_files. destruct (decide (op_of v = Some "wiki_patch")); [|by apply IH].
    destruct (get_str "value" v) as [patch|]; cbn [fmap option_fmap option_map]; [|by apply IH].
    cbn [fst]. destruct (apply_patch st.1 (parse_patch patch)); by apply IH. }
  intros Hl. by apply Hgen.
Qed.
