(* ===== verification/Ledger.v ===== *)
(** * Sorted ledgers

    The walk keeps two ledgers as [Vec]s sorted by seat name (the transport
    anchors and the declared relays of crates/molt-engine/src/chain/verify.rs,
    [fold_one] and [walk_working_anchor]) and reads and writes them through
    [slice::binary_search_by].  This file holds that search as the standard
    library runs it, the upsert [fold_one] builds on it, and the refinement:
    on a sorted ledger both behave as a finite map. *)

From S2P Require Import Prelude.
#[local] Open Scope nat_scope.

(** The loop of [binary_search_by]: [while size > 1], halving [size]; one
    unit of fuel per iteration. *)
Fixpoint search_base (fuel : nat) (cmp : nat → comparison) (base size : nat) : nat :=
  match fuel with
  | O => base
  | S fuel =>
      if size <=? 1 then base
      else
        let half := Nat.div2 size in
        let mid := base + half in
        let base := match cmp mid with Gt => base | _ => mid end in
        search_base fuel cmp base (size - half)
  end.

(** [inl i] is Rust's [Ok(i)], [inr i] its [Err(i)]. *)
Definition binary_search_by (n : nat) (cmp : nat → comparison) : nat + nat :=
  if n =? 0 then inr 0
  else
    let base := search_base n cmp 0 n in
    match cmp base with
    | Eq => inl base
    | Lt => inr (base + 1)
    | Gt => inr base
    end.

Section Ledger.
Context {A : Type}.
Implicit Types l : list (string * A).

(** [l.binary_search_by(|(m, _)| m.as_str().cmp(k))]; an index the search
    never probes has no key. *)
Definition key_cmp l (k : string) (i : nat) : comparison :=
  match l !! i with Some (m, _) => String.compare m k | None => Gt end.
Definition ledger_search l (k : string) : nat + nat :=
  binary_search_by (length l) (key_cmp l k).

(** [l.insert(i, x)]. *)
Definition insert_at (i : nat) (x : string * A) l : list (string * A) :=
  take i l ++ x :: drop i l.

(** The upsert of [fold_one]. *)
Definition ledger_upsert (k : string) (v : A) l : list (string * A) :=
  match ledger_search l k with
  | inl i => alter (λ e, (e.1, v)) i l
  | inr i => insert_at i (k, v) l
  end.

(** The read of [walk_working_anchor]. *)
Definition ledger_get (k : string) l : option A :=
  match ledger_search l k with
  | inl i => snd <$> l !! i
  | inr _ => None
  end.

Definition key_lt (x y : string * A) : Prop := String.compare x.1 y.1 = Lt.
Definition ledger_sorted l : Prop := StronglySorted key_lt l.
End Ledger.

(** ** The search *)

(** What the loop maintains and reaches: everything before the result is
    not greater, everything from it on by [size] is greater. *)
Lemma search_base_spec fuel cmp n base size :
  size ≤ fuel → 0 < size → base + size ≤ n →
  (∀ i j, i ≤ j → j < n → cmp i = Gt → cmp j = Gt) →
  (base = 0 ∨ cmp base ≠ Gt) →
  (∀ j, base + size ≤ j → j < n → cmp j = Gt) →
  let r := search_base fuel cmp base size in
  r < n ∧ (r = 0 ∨ cmp r ≠ Gt) ∧ (∀ j, r < j → j < n → cmp j = Gt).
Proof.
  intros Hf Hs Hn Hmono Hb Ha.
  revert base size Hf Hs Hn Hb Ha. induction fuel as [|fuel IH]; intros base size Hf Hs Hn Hb Ha; [lia|].
  simpl. destruct (Nat.leb_spec size 1) as [Hle|Hgt].
  - split; [lia|]. split; [done|]. intros j H1 H2. apply Ha; lia.
  - assert (0 < Nat.div2 size ∧ Nat.div2 size ≤ size - Nat.div2 size) as [Hd0 Hd1].
    { pose proof (Nat.div2_odd size) as Ho. destruct (Nat.odd size); simpl in Ho; lia. }
    destruct (cmp (base + Nat.div2 size)) eqn:E; apply IH; try lia;
      try (right; rewrite E; done); try done; intros j H1 H2; try (apply Ha; lia).
    apply (Hmono (base + Nat.div2 size)); [lia..|done].
Qed.

(** Search over a monotone comparison: it finds an index that compares
    equal, or the only insertion point. *)
Lemma binary_search_by_spec n cmp :
  (∀ i j, i ≤ j → j < n → cmp i = Gt → cmp j = Gt) →
  (∀ i j, i ≤ j → j < n → cmp j = Lt → cmp i = Lt) →
  (∀ i j, i < j → j < n → cmp j = Eq → cmp i = Lt) →
  match binary_search_by n cmp with
  | inl i => i < n ∧ cmp i = Eq
  | inr i => i ≤ n ∧ (∀ j, j < i → cmp j = Lt) ∧ (∀ j, i ≤ j → j < n → cmp j = Gt)
  end.
Proof.
  intros Hg Hl He. unfold binary_search_by. destruct (Nat.eqb_spec n 0) as [->|Hn].
  { split; [lia|]. split; intros; lia. }
  destruct (search_base_spec n cmp n 0 n) as (Hr & Hb & Ha); [lia..|done|by left|lia|].
  set (r := search_base n cmp 0 n) in *. destruct (cmp r) eqn:E.
  - done.
  - split; [lia|]. split; intros j; [intros|]. 
    + apply (Hl j r); [lia|lia|done].
    + intros. apply Ha; lia.
  - destruct Hb as [Hr0|]; [|done]. split; [lia|]. split; intros j; [lia|].
    intros. apply (Hg r j); [lia|lia|done].
Qed.

(** ** Ledgers as finite maps *)

Lemma string_compare_trans_lt a b c :
  String.compare a b = Lt → String.compare b c = Lt → String.compare a c = Lt.
Proof.
  intros H1 H2.
  assert (String.ltb a b = true ∧ String.ltb b c = true) as [L1 L2]
    by (unfold String.ltb; by rewrite H1, H2).
  assert (∀ x y, String.ltb x y = true → String.le x y ∧ x ≠ y) as Hlt.
  { intros x y. unfold String.ltb, String.le, String.leb.
    destruct (String.compare x y) eqn:E; try done. intros _. split; [done|]. intros ->.
    pose proof (String.compare_antisym y y) as Ha. by rewrite E in Ha. }
  apply Hlt in L1 as [L1 N1], L2 as [L2 N2].
  assert (String.le a c) as L3 by by etrans.
  assert (a ≠ c) as N3. { intros ->. apply N1. by apply (anti_symm String.le). }
  revert L3. unfold String.le, String.leb. destruct (String.compare a c) eqn:E; try done.
  by apply String.compare_eq_iff in E.
Qed.

Lemma string_compare_gt_lt a b : String.compare a b = Gt ↔ String.compare b a = Lt.
Proof.
  pose proof (String.compare_antisym a b) as H.
  destruct (String.compare a b), (String.compare b a); simpl in H; split; congruence.
Qed.

Lemma string_compare_refl a : String.compare a a = Eq.
Proof.
  destruct (String.compare a a) eqn:E; [done|..];
    pose proof (String.compare_antisym a a) as H; by rewrite E in H.
Qed.

Section LedgerProps.
Context {A : Type}.
Implicit Types l : list (string * A).

Lemma ledger_sorted_lookup l i j x y :
  ledger_sorted l → l !! i = Some x → l !! j = Some y → i < j → key_lt x y.
Proof.
  intros Hs. revert i j. induction Hs as [|z l Hs IH Hall]; intros i j Hi Hj Hlt; [done|].
  destruct j as [|j]; [lia|]. destruct i as [|i]; simpl in *.
  - simplify_eq. rewrite Forall_forall in Hall. by eapply Hall, list_elem_of_lookup_2.
  - eapply IH; eauto. lia.
Qed.

(** The comparison the search probes is monotone on a sorted ledger. *)
Lemma ledger_search_spec l k :
  ledger_sorted l →
  match ledger_search l k with
  | inl i => ∃ v, l !! i = Some (k, v)
  | inr i => i ≤ length l ∧
      (∀ j x, j < i → l !! j = Some x → String.compare x.1 k = Lt) ∧
      (∀ j x, i ≤ j → l !! j = Some x → String.compare k x.1 = Lt)
  end.
Proof.
  intros Hs. unfold ledger_search.
  assert (Hat : ∀ i, i < length l → ∃ x, l !! i = Some x ∧ key_cmp l k i = String.compare x.1 k).
  { intros i [[m v] Hx]%lookup_lt_is_Some_2. exists (m, v). unfold key_cmp. by rewrite Hx. }
  assert (Hlt : ∀ i j x y, i < j → l !! i = Some x → l !! j = Some y → key_lt x y).
  { intros. by eapply ledger_sorted_lookup. }
  opose proof* (binary_search_by_spec (length l) (key_cmp l k)) as Hb.
  - intros i j Hij Hj Hc. destruct (decide (i = j)) as [->|]; [done|].
    destruct (Hat i) as (x & Hx & Ex); [lia|]. destruct (Hat j Hj) as (y & Hy & Ey).
    rewrite Ex in Hc. rewrite Ey. apply string_compare_gt_lt. apply string_compare_gt_lt in Hc.
    eapply string_compare_trans_lt; [done|]. eapply Hlt; [|done..]. lia.
  - intros i j Hij Hj Hc. destruct (decide (i = j)) as [->|]; [done|].
    destruct (Hat i) as (x & Hx & Ex); [lia|]. destruct (Hat j Hj) as (y & Hy & Ey).
    rewrite Ey in Hc. rewrite Ex. eapply string_compare_trans_lt; [|done].
    eapply Hlt; [|done..]. lia.
  - intros i j Hij Hj Hc.
    destruct (Hat i) as (x & Hx & Ex); [lia|]. destruct (Hat j Hj) as (y & Hy & Ey).
    rewrite Ey in Hc. apply String.compare_eq_iff in Hc. rewrite Ex, <-Hc.
    by eapply (Hlt i j).
  - destruct (binary_search_by _ _) as [i|i].
    + destruct Hb as [Hi Hc]. destruct (Hat i Hi) as ([m v] & Hx & Ex).
      rewrite Ex in Hc. apply String.compare_eq_iff in Hc as <-. eauto.
    + destruct Hb as (Hi & H1 & H2). split; [done|].
      split; intros j x Hj Hx; pose proof (lookup_lt_Some _ _ _ Hx) as Hlen;
        destruct (Hat j Hlen) as (y & Hy & Ey); simplify_eq.
      * rewrite <-Ey. by apply H1.
      * apply string_compare_gt_lt. rewrite <-Ey. by apply H2.
Qed.

Lemma ledger_sorted_nodup l : ledger_sorted l → NoDup l.*1.
Proof.
  induction 1 as [|x l Hs IH Hall]; simpl; constructor; [|done].
  intros ([m v] & Hm & Hin)%list_elem_of_fmap. rewrite Forall_forall in Hall.
  apply Hall in Hin. unfold key_lt in Hin. rewrite Hm in Hin. simpl in Hin.
  by rewrite string_compare_refl in Hin.
Qed.

(** Reading the ledger is reading the finite map it lists. *)
Lemma ledger_get_map l k :
  ledger_sorted l → ledger_get k l = (list_to_map l : gmap string A) !! k.
Proof.
  intros Hs. unfold ledger_get. pose proof (ledger_search_spec l k Hs) as Hspec.
  destruct (ledger_search l k) as [i|i].
  - destruct Hspec as (v & Hv). rewrite Hv. simpl. symmetry.
    apply elem_of_list_to_map; [by apply ledger_sorted_nodup|]. by eapply list_elem_of_lookup_2.
  - symmetry. apply not_elem_of_list_to_map. destruct Hspec as (_ & H1 & H2).
    intros ([m v] & Hm & (j & Hj)%list_elem_of_lookup)%list_elem_of_fmap. simpl in Hm. subst m.
    destruct (decide (j < i)) as [Hlt|Hge].
    + specialize (H1 _ _ Hlt Hj). simpl in H1. by rewrite string_compare_refl in H1.
    + specialize (H2 j (k, v) ltac:(lia) Hj). simpl in H2. by rewrite string_compare_refl in H2.
Qed.

Lemma ledger_sorted_app l1 l2 :
  ledger_sorted (l1 ++ l2) ↔
  ledger_sorted l1 ∧ ledger_sorted l2 ∧ (∀ x y, x ∈ l1 → y ∈ l2 → key_lt x y).
Proof.
  unfold ledger_sorted. induction l1 as [|x l1 IH]; simpl.
  - split; [|naive_solver]. intros H. split; [constructor|]. split; [done|]. set_solver.
  - split.
    + inversion_clear 1 as [|?? Hs Hall]. apply Forall_app in Hall as [Ha1 Ha2].
      apply IH in Hs as (H1 & H2 & H3). split; [by constructor|]. split; [done|].
      rewrite Forall_forall in Ha2. intros a b [->|Ha]%elem_of_cons Hb; auto.
    + intros (H1 & H2 & H3). inversion_clear H1 as [|?? Hs Hall]. constructor.
      * apply IH. split; [done|]. split; [done|]. intros. apply H3; [by right|done].
      * apply Forall_app. split; [done|]. apply Forall_forall. intros y Hy. apply H3; [by left|done].
Qed.

(** Replacing a value keeps every key. *)
Lemma ledger_alter_split l i k v w :
  l !! i = Some (k, v) →
  ∃ l1 l2, l = l1 ++ (k, v) :: l2 ∧ alter (λ e, (e.1, w)) i l = l1 ++ (k, w) :: l2.
Proof.
  intros Hi. pose proof (take_drop_middle _ _ _ Hi) as Hl.
  exists (take i l), (drop (S i) l). split; [done|].
  rewrite <-Hl at 1. rewrite alter_app_r_alt by (rewrite length_take; lia).
  rewrite length_take, Nat.min_l by (apply Nat.lt_le_incl; by eapply lookup_lt_Some).
  by rewrite Nat.sub_diag.
Qed.

(** The upsert keeps the ledger sorted and writes the one key. *)
Lemma ledger_upsert_sorted k v l : ledger_sorted l → ledger_sorted (ledger_upsert k v l).
Proof.
  intros Hs. unfold ledger_upsert. pose proof (ledger_search_spec l k Hs) as Hspec.
  destruct (ledger_search l k) as [i|i].
  - destruct Hspec as (w & Hw). destruct (ledger_alter_split l i k w v Hw) as (l1 & l2 & -> & ->).
    apply ledger_sorted_app in Hs as (H1 & H2 & H3). apply ledger_sorted_app.
    inversion_clear H2 as [|?? H4 H5]. split; [done|]. split; [by constructor|].
    intros x y Hx [->|Hy]%elem_of_cons; [by apply (H3 x (k, w) Hx); left|].
    apply H3; [done|by right].
  - destruct Hspec as (Hi & H1 & H2). unfold insert_at.
    rewrite <-(take_drop i l) in Hs. apply ledger_sorted_app in Hs as (S1 & S2 & S3).
    apply ledger_sorted_app. split; [done|]. split.
    + constructor; [done|]. apply Forall_forall. intros x (j & Hj)%list_elem_of_lookup.
      rewrite lookup_drop in Hj. eapply H2; [|exact Hj]; lia.
    + intros x y Hx [->|Hy]%elem_of_cons; [|by apply S3].
      apply list_elem_of_lookup in Hx as (j & Hj).
      apply lookup_take_Some in Hj as [Hj Hlt]. by apply (H1 j).
Qed.

Lemma ledger_upsert_map k v l :
  ledger_sorted l →
  (list_to_map (ledger_upsert k v l) : gmap string A) = <[k := v]> (list_to_map l).
Proof.
  intros Hs. pose proof (ledger_sorted_nodup _ (ledger_upsert_sorted k v l Hs)) as Hnd.
  pose proof (ledger_sorted_nodup _ Hs) as Hnl. revert Hnd.
  unfold ledger_upsert. pose proof (ledger_search_spec l k Hs) as Hspec.
  destruct (ledger_search l k) as [i|i].
  - destruct Hspec as (w & Hw). destruct (ledger_alter_split l i k w v Hw) as (l1 & l2 & -> & ->).
    intros Hnd. rewrite (list_to_map_proper _ ((k, v) :: l1 ++ l2)) by (done || by rewrite Permutation_middle).
    rewrite (list_to_map_proper (l1 ++ (k, w) :: l2) ((k, w) :: l1 ++ l2))
      by (done || by rewrite Permutation_middle).
    simpl. by rewrite insert_insert_eq.
  - intros Hnd. rewrite (list_to_map_proper _ ((k, v) :: l)); [done..|].
    unfold insert_at. rewrite <-Permutation_middle. by rewrite take_drop.
Qed.
End LedgerProps.

(** ** Properties *)

(** The sorted ledgers are finite maps.  On a ledger sorted by seat the
    binary search reads the entry of the finite map it lists, and the upsert
    of the fold leaves a sorted ledger that lists the map with that one key
    written, wherever the search lands. *)
Theorem ledger_refines_map {A} (l : list (string * A)) k v k' :
  ledger_sorted l →
  ledger_get k' l = (list_to_map l : gmap string A) !! k' ∧
  ledger_sorted (ledger_upsert k v l) ∧
  ledger_get k' (ledger_upsert k v l) = (<[k := v]> (list_to_map l : gmap string A)) !! k'.
Proof.
  intros Hs. split; [by apply ledger_get_map|]. split; [by apply ledger_upsert_sorted|].
  rewrite ledger_get_map by by apply ledger_upsert_sorted. by rewrite ledger_upsert_map.
Qed.

Lemma ledger_refines_map_witness :
  ledger_get "bob" (ledger_upsert "bob" 5%N [("ada", 1%N); ("cleo", 3%N)]) =
  (<["bob" := 5%N]> (list_to_map [("ada", 1%N); ("cleo", 3%N)] : gmap string N)) !! "bob".
Proof. apply (ledger_refines_map [("ada", 1%N); ("cleo", 3%N)]). repeat constructor. Defined.
