(* ===== verification/Verify.v ===== *)
(** * Verification of one block

    crates/molt-engine/src/chain/verify.rs: the signatures behind a block
    ([valid_signers], [block_signers], the restore consent rules), the
    genesis check and [verify_next], the check of one block against a head.
    [Panic] is the abort of an overflow-checked addition or of an [expect]
    in a byte layout. *)

From S2P Require Import Prelude Bytes Strs Json Env Surface Roster Chain Checkpoint Vault Cuts Ledger.
#[local] Open Scope string_scope.
#[local] Open Scope list_scope.

(** The refusals of the verifier, by the message they are written with. *)
Inductive ConsentError := ConsentMalformed | ConsentDoesNotVerify | ConsentStale | ConsentSpent.

Inductive ChainError :=
  | JoinedUnsupported
  | RestoreUnknown (member : string)
  | RestoreKeepsKey (member : string)
  | GenesisNotAtZero | GenesisPrev | NotAGenesis | GenesisThreshold | GenesisSize
  | GenesisId | GenesisNotFullySigned
  | RosterRule (e : VaultRule)
  | ConsentOnNonRestore (h : N)
  | CountedTwice (h : N) (member : string)
  | RestoresUnknown (h : N)
  | ConsentRefused (h : N) (e : ConsentError)
  | HeightDoesNotFollow (h head : N)
  | DoesNotLink (h : N)
  | GenesisAfterZero
  | AppliedTwice (proposal_id : N)
  | UptoNotPredecessor (upto h : N)
  | BelowThreshold (h got m : N)
  | VaultCutOutside (h : N) | LegacyCutInVault (h : N) | LegacyAfterFolded (h : N)
  | BelowFloor (upto floor : N)
  | CutRefused (e : CutError)
  | ProjectionMismatch (upto : N)
  | VaultNotEnabled (h : N)
  | VaultOpRefused (h : N) (e : VaultRule)
  | EmptyChain | NotACheckpoint
  | BlobUpto | BlobHash | AnchorHeight | FoundingId | BlobThreshold | BlobSize
  | LegacyAnchorInVault | VaultAnchorOutside
  | RosterNotFounding (member : string)
  | AnchorThreshold (got m : N)
  | NoConstitution | OtherRepublic
  | BundleFormat (f : string)
  | HeightsMustAscend (h : N)
  | NotExported (h : N)
  | TreeMissing (path : string) | TreeDiffers (path : string) | TreeExtra (path : string).

(** ** Projections of a verified chain *)

(** [working_anchors]: the last non-empty re-anchor of a seat wins. *)
Definition working_anchors_step (m : gmap string string) (b : ChainBlock) : gmap string string :=
  match change b with
  | Membership _ member _ (Some pk) _ _ => if str_empty pk then m else <[member := pk]> m
  | _ => m
  end.
Definition working_anchors (blocks : list ChainBlock) : gmap string string :=
  foldl working_anchors_step ∅ blocks.

(** [declared_relays]. *)
Definition declared_relays_step (m : gmap string (list string)) (b : ChainBlock)
    : gmap string (list string) :=
  match change b with
  | Membership _ member _ _ relays _ =>
      match relays with [] => m | _ => <[member := relays]> m end
  | _ => m
  end.
Definition declared_relays (blocks : list ChainBlock) : gmap string (list string) :=
  foldl declared_relays_step ∅ blocks.

Record ChainHead := {
  hd_height : N;
  hd_hash : string;
  hd_republic_id : string;
  hd_rule_m : N;
  hd_identities : list MemberIdentity;
}.

Record ChainBlockView := {
  view_height : N;
  view_kind : string;
  view_surface : string;
  view_payload : Value;
  view_proposal_id : N;
  view_signers : list string;
  view_ts : N;
}.

Definition chain_block_view (block : ChainBlock) : ChainBlockView :=
  let '(kind, surface, payload, proposal_id) :=
    match change block with
    | Genesis name _ _ _ _ _ _ _ => ("genesis", "", Str name, 0%N)
    | Applied proposal_id surface payload =>
        ("applied", surface_str surface, payload, proposal_id)
    | Membership op member _ _ _ _ =>
        let verb := match op with Joined => "joined" | Restored => "restored" end in
        ("membership", "", Str (verb +:+ " " +:+ member), 0%N)
    | Checkpoint upto _ | CheckpointFolded upto _ | CheckpointVault upto _ _ =>
        ("checkpoint", "", Num (PosInt upto), 0%N)
    end in
  {| view_height := height block; view_kind := kind; view_surface := surface;
     view_payload := payload; view_proposal_id := proposal_id;
     view_signers := att_member <$> sigs block; view_ts := 0 |}.

(** [identities.iter().find(|i| i.member == m)]. *)
Definition find_member (identities : list MemberIdentity) (m : string) : option MemberIdentity :=
  find (λ i, bool_decide (mi_member i = m)) identities.

Section Block.
Context `{Env}.

Definition block_hash (republic_id : string) (block : ChainBlock) : option string :=
  content_hash <$> block_link_bytes republic_id block.

Definition valid_signers (identities : list MemberIdentity) (b : bytes)
    (sigs : list RosterAttestation) : gset string :=
  foldl (λ ok att,
    match find_member identities (att_member att) with
    | None => ok
    | Some id =>
        if identity_verify (mi_identity_pk id) b (att_sig att)
        then {[att_member att]} ∪ ok else ok
    end) ∅ sigs.

(** The roster after a membership change; the one supported operation
    checks the seat and leaves the table as it is. *)
Definition apply_membership (identities : list MemberIdentity) (op : MembershipOp)
    (member identity_pk : string) : outcome ChainError (list MemberIdentity) :=
  match op with
  | Joined => Err JoinedUnsupported
  | Restored =>
      let? id := ok_or (find_member identities member) (RestoreUnknown member) in
      reject negb (bool_decide (mi_identity_pk id = identity_pk)) with RestoreKeepsKey member else
      Ok identities
  end.

Definition verify_genesis (block : ChainBlock) : outcome ChainError ChainHead :=
  reject negb (height block =? 0)%N with GenesisNotAtZero else
  reject negb (bool_decide (prev block = GENESIS_PREV)) with GenesisPrev else
  match change block with
  | Genesis name republic_id_ rule_m rule_n identities agenda relays features =>
      reject (rule_m =? 0)%N || (rule_n <? rule_m)%N with GenesisThreshold else
      reject negb (rule_n =? len identities)%N with GenesisSize else
      let? _ := omap_err RosterRule (check_roster_keys rule_m rule_n identities features) in
      let? rid := expect (republic_id name rule_m rule_n identities) in
      reject negb (bool_decide (rid = republic_id_)) with GenesisId else
      let? b := expect (approval_bytes republic_id_ 0 (change block)) in
      let signers := valid_signers identities b (sigs block) in
      reject negb (size signers =? length identities)%nat with GenesisNotFullySigned else
      let? hash := expect (block_hash republic_id_ block) in
      Ok {| hd_height := 0; hd_hash := hash; hd_republic_id := republic_id_;
            hd_rule_m := rule_m; hd_identities := identities |}
  | _ => Err NotAGenesis
  end.

Inductive ConsentKind := KV1 | KV2 (prev_anchor : string).

Definition verify_restore_consent (republic_id anchored : string) (height : N)
    (member : string) (nostr_pk : option string) (relays : list string) (consent : string)
    : outcome ConsentError ConsentKind :=
  let npk := default "" nostr_pk in
  match parse_restore_consent consent with
  | None => Err ConsentMalformed
  | Some (V1 sig) =>
      let? b := expect (restore_consent_bytes republic_id member anchored npk) in
      if identity_verify anchored b sig then Ok KV1 else Err ConsentDoesNotVerify
  | Some (V2 anchor_height prev_anchor sig) =>
      let? b := expect (restore_consent_bytes_v2 republic_id member anchored npk relays
                          anchor_height prev_anchor) in
      reject negb (identity_verify anchored b sig) with ConsentDoesNotVerify else
      let fresh := (anchor_height <? height)%N &&
                   (height - anchor_height <=? RESTORE_CONSENT_WINDOW)%N in
      reject negb fresh with ConsentStale else
      Ok (KV2 prev_anchor)
  end.

Definition block_signers (republic_id : string) (identities : list MemberIdentity)
    (block : ChainBlock) : outcome ChainError (gset string) :=
  let? b := expect (approval_bytes republic_id (height block) (change block)) in
  let signers := valid_signers identities b (sigs block) in
  match change block with
  | Membership op member _ nostr_pk relays (Some consent) =>
      reject negb (bool_decide (op = Restored)) with ConsentOnNonRestore (height block) else
      reject bool_decide (member ∈ signers) with CountedTwice (height block) member else
      let? anchored := ok_or (mi_identity_pk <$> find_member identities member)
                         (RestoresUnknown (height block)) in
      let? _ := omap_err (ConsentRefused (height block))
                  (verify_restore_consent republic_id anchored (height block) member
                     nostr_pk relays consent) in
      Ok ({[member]} ∪ signers)
  | _ => Ok signers
  end.

(** Rule 3: a v2 consent replaces exactly the seat's working anchor. *)
Definition consent_spends (change : ChainChange) (working : string → string)
    : outcome ConsentError unit :=
  match change with
  | Membership _ member _ _ _ (Some consent) =>
      match parse_restore_consent consent with
      | Some (V2 _ prev_anchor _) =>
          reject negb (bool_decide (prev_anchor = working member)) with ConsentSpent else Ok tt
      | _ => Ok tt
      end
  | _ => Ok tt
  end.

(** The roster anchor of a seat: [find(..).map(nostr_pk).unwrap_or_default()]. *)
Definition roster_anchor (roster : list MemberIdentity) (member : string) : string :=
  default "" (mi_nostr_pk <$> find_member roster member).

Definition walk_working_anchor (state : CheckpointState) (member : string) : string :=
  match ledger_get member (anchors state) with
  | Some pk => pk
  | None => roster_anchor (cs_roster state) member
  end.

(** The match of [verify_next] on the change: the id it consumes. *)
Definition check_change (block : ChainBlock) (seen_proposals : gset N)
    : outcome ChainError (option N) :=
  match change block with
  | Genesis _ _ _ _ _ _ _ _ => Err GenesisAfterZero
  | Applied proposal_id _ _ =>
      reject bool_decide (proposal_id ∈ seen_proposals) with AppliedTwice proposal_id else
      Ok (Some proposal_id)
  | Membership _ _ _ _ _ _ => Ok None
  | Checkpoint upto _ | CheckpointFolded upto _ | CheckpointVault upto _ _ =>
      reject (height block =? 0)%N || negb (upto =? height block - 1)%N
        with UptoNotPredecessor upto (height block) else
      Ok None
  end.

Definition verify_next (head : ChainHead) (block : ChainBlock) (seen_proposals : gset N)
    : outcome ChainError (ChainHead * option N) :=
  let? next := expect (u64_checked_add (hd_height head) 1) in
  reject negb (height block =? next)%N with HeightDoesNotFollow (height block) (hd_height head) else
  reject negb (bool_decide (prev block = hd_hash head)) with DoesNotLink (height block) else
  let? consumed := check_change block seen_proposals in
  let? signers := block_signers (hd_republic_id head) (hd_identities head) block in
  reject (N.of_nat (size signers) <? hd_rule_m head)%N
    with BelowThreshold (height block) (N.of_nat (size signers)) (hd_rule_m head) else
  let? identities :=
    match change block with
    | Membership op member identity_pk _ _ _ =>
        apply_membership (hd_identities head) op member identity_pk
    | _ => Ok (hd_identities head)
    end in
  let? hash := expect (block_hash (hd_republic_id head) block) in
  Ok ({| hd_height := height block; hd_hash := hash; hd_republic_id := hd_republic_id head;
         hd_rule_m := hd_rule_m head; hd_identities := identities |}, consumed).
End Block.
