(* ===== verification/Walk.v ===== *)
(** * The chain walk

    crates/molt-engine/src/chain/verify.rs: [ChainWalk] and its one step
    function, the projection a checkpoint is hashed from ([genesis_base],
    [fold_one], [fold_state], [checkpoint_state], [hash_walk_state]), the two
    walkers [walk_chain] and [walk_suffix_chain], and the served-chain front
    door [verify_served].

    Code that mutates through [&mut] returns the mutated value beside its
    result, also on failure, so that what a failed call leaves behind is part
    of the model. *)

From S2P Require Import Prelude Bytes Strs Json Env Surface Roster Chain Checkpoint WikiFold Vault Cuts Ledger Verify.
#[local] Open Scope string_scope.
#[local] Open Scope list_scope.

(** ** Field updates of the running state *)

Definition with_consumed (l : list N) (s : CheckpointState) : CheckpointState :=
  {| founding_name := founding_name s; cs_rule_m := cs_rule_m s; cs_rule_n := cs_rule_n s;
     founding_identities := founding_identities s; cs_agenda := cs_agenda s; cs_relays := cs_relays s;
     founding_features := founding_features s; cs_republic_id := cs_republic_id s;
     cs_roster := cs_roster s; cs_applied := cs_applied s; consumed_ids := l;
     anchors := anchors s; member_relays := member_relays s; cs_upto := cs_upto s |}.
Definition with_upto (u : N) (s : CheckpointState) : CheckpointState :=
  {| founding_name := founding_name s; cs_rule_m := cs_rule_m s; cs_rule_n := cs_rule_n s;
     founding_identities := founding_identities s; cs_agenda := cs_agenda s; cs_relays := cs_relays s;
     founding_features := founding_features s; cs_republic_id := cs_republic_id s;
     cs_roster := cs_roster s; cs_applied := cs_applied s; consumed_ids := consumed_ids s;
     anchors := anchors s; member_relays := member_relays s; cs_upto := u |}.
Definition with_membership (roster : list MemberIdentity) (a : list (string * string))
    (r : list (string * list string)) (s : CheckpointState) : CheckpointState :=
  {| founding_name := founding_name s; cs_rule_m := cs_rule_m s; cs_rule_n := cs_rule_n s;
     founding_identities := founding_identities s; cs_agenda := cs_agenda s; cs_relays := cs_relays s;
     founding_features := founding_features s; cs_republic_id := cs_republic_id s;
     cs_roster := roster; cs_applied := cs_applied s; consumed_ids := consumed_ids s;
     anchors := a; member_relays := r; cs_upto := cs_upto s |}.

Definition genesis_base (name : string) (rule_m rule_n : N) (identities : list MemberIdentity)
    (agenda republic_id : string) (relays : list string) (features : option (list string))
    : CheckpointState :=
  {| founding_name := name; cs_rule_m := rule_m; cs_rule_n := rule_n;
     founding_identities := identities; cs_agenda := agenda; cs_relays := relays;
     founding_features := features; cs_republic_id := republic_id; cs_roster := identities;
     cs_applied := (λ s, (s, [])) <$> CHECKPOINT_V7_SURFACES;
     consumed_ids := []; anchors := []; member_relays := []; cs_upto := 0 |}.

(** [Surface::ALL.iter().position(|x| x == s)] and [Option]'s order. *)
Definition rank (s : Surface) : option nat := fst <$> list_find (λ x, x = s) ALL.
Definition rank_gt (a b : option nat) : bool :=
  match a, b with
  | Some x, Some y => (y <? x)%nat
  | Some _, None => true
  | None, _ => false
  end.

(** The group's birth: before the first group of a higher rank. *)
Fixpoint insert_group (surface : Surface) (l : list (Surface * list (N * Value)))
    : list (Surface * list (N * Value)) :=
  match l with
  | [] => [(surface, [])]
  | (s, g) :: l' =>
      if rank_gt (rank s) (rank surface) then (surface, []) :: l
      else (s, g) :: insert_group surface l'
  end.

(** [list.retain(..)] on the slot, then [list.push(..)]. *)
Definition push_entry (surface : Surface) (proposal_id : N) (payload : Value)
    (g : list (N * Value)) : list (N * Value) :=
  (match applied_lww_slot surface payload with
   | Some slot => filter (λ e, applied_lww_slot surface e.2 ≠ Some slot) g
   | None => g
   end) ++ [(proposal_id, payload)].

Definition fold_applied (surface : Surface) (proposal_id : N) (payload : Value)
    (l : list (Surface * list (N * Value))) : list (Surface * list (N * Value)) :=
  let l := if existsb (λ g, bool_decide (g.1 = surface)) l then l else insert_group surface l in
  match find_group surface l with
  | Some g => set_group surface (push_entry surface proposal_id payload g) l
  | None => l
  end.

Section Walk.
Context `{Env, VaultSerde}.

(** [fold_one(&mut state, block, vault)]. *)
Definition fold_one (state : CheckpointState) (block : ChainBlock) (vault : option VaultCtx)
    : CheckpointState * outcome ChainError unit :=
  match change block with
  | Applied proposal_id surface payload =>
      let checked :=
        match vault, surface with
        | Some ctx, Vault =>
            reject negb (walk_enabled state ctx) with VaultNotEnabled (height block) else
            omap_err (VaultOpRefused (height block))
              (let? _ := check_vault_op (cs_republic_id state) proposal_id payload ctx in Ok tt)
        | _, _ => Ok tt
        end in
      match checked with
      | Ok _ =>
          let state := with_applied (fold_applied surface proposal_id payload (cs_applied state)) state in
          (with_consumed (consumed_ids state ++ [proposal_id]) state, Ok tt)
      | Err e => (state, Err e)
      | Panic => (state, Panic)
      end
  | Membership op member identity_pk nostr_pk relays _ =>
      match apply_membership (cs_roster state) op member identity_pk with
      | Ok roster =>
          let a := match nostr_pk with
                   | Some pk => if str_empty pk then anchors state
                                else ledger_upsert member pk (anchors state)
                   | None => anchors state
                   end in
          let r := match relays with
                   | [] => member_relays state
                   | _ => ledger_upsert member relays (member_relays state)
                   end in
          (with_membership roster a r state, Ok tt)
      | Err e => (state, Err e)
      | Panic => (state, Panic)
      end
  | _ => (state, Ok tt)
  end.

(** [hash_walk_state]: the hash of the state as it stands at [upto]. *)
Definition state_at (state : CheckpointState) (upto : N) : CheckpointState :=
  with_upto upto (with_consumed (merge_sort N.le (consumed_ids state)) state).

Definition hash_walk_state (state : CheckpointState) (upto : N) (kind : CutKind) (held : Held)
    : outcome ChainError string :=
  let? r := omap_err CutRefused (fold_cut (state_at state upto) kind held) in
  Ok (fc_hash r.2).

(** The loop of [fold_state]. *)
Fixpoint fold_blocks (state : CheckpointState) (blocks : list ChainBlock) (upto : N)
    (vault : option VaultCtx) : outcome ChainError CheckpointState :=
  match blocks with
  | [] => Ok state
  | b :: blocks =>
      if (upto <? height b)%N then Ok state
      else
        let '(state, r) := fold_one state b vault in
        let? _ := r in fold_blocks state blocks upto vault
  end.

Definition fold_state (state : CheckpointState) (blocks : list ChainBlock) (upto : N)
    : outcome ChainError CheckpointState :=
  let vault := ctx_from_founding (cs_rule_m state) (founding_identities state) in
  let? state := fold_blocks state blocks upto vault in
  Ok (state_at state upto).

Definition checkpoint_state (blocks : list ChainBlock) (upto : N)
    : outcome ChainError CheckpointState :=
  match blocks with
  | b :: rest =>
      match change b with
      | Genesis name republic_id rule_m rule_n identities agenda relays features =>
          fold_state (genesis_base name rule_m rule_n identities agenda republic_id relays features)
            rest upto
      | _ => Err NotAGenesis
      end
  | [] => Err NotAGenesis
  end.

Record ChainWalk := {
  w_head : ChainHead;
  w_seen : gset N;
  w_running : CheckpointState;
  w_floor : option N;
  w_folded : N;
  w_folded_cut : bool;
  w_vault : option VaultCtx;
}.

Definition with_folded_cut (b : bool) (w : ChainWalk) : ChainWalk :=
  {| w_head := w_head w; w_seen := w_seen w; w_running := w_running w; w_floor := w_floor w;
     w_folded := w_folded w; w_folded_cut := b; w_vault := w_vault w |}.
Definition with_running (s : CheckpointState) (w : ChainWalk) : ChainWalk :=
  {| w_head := w_head w; w_seen := w_seen w; w_running := s; w_floor := w_floor w;
     w_folded := w_folded w; w_folded_cut := w_folded_cut w; w_vault := w_vault w |}.

(** The cut checks of [step], before the fields are touched. *)
Definition check_cut_kind (w : ChainWalk) (h : N) (kind : CutKind) : outcome ChainError unit :=
  reject negb (Bool.eqb (is_some (w_vault w)) (cut_vault kind))
    with (if cut_vault kind then VaultCutOutside h else LegacyCutInVault h) else
  reject w_folded_cut w && negb (cut_wiki kind) with LegacyAfterFolded h else
  Ok tt.

Definition check_cut_content (w : ChainWalk) (upto : N) (state_hash : string) (kind : CutKind)
    (held : Held) : outcome ChainError unit :=
  reject (match w_floor w with Some floor => (upto <? floor)%N | None => false end)
    with BelowFloor upto (default 0%N (w_floor w)) else
  let? h := hash_walk_state (w_running w) upto kind held in
  reject negb (bool_decide (h = state_hash)) with ProjectionMismatch upto else
  Ok tt.

Definition check_cut (w : ChainWalk) (block : ChainBlock) (held : Held) : outcome ChainError unit :=
  match cut_of (change block) with
  | Some (upto, state_hash, kind) =>
      let? _ := check_cut_kind w (height block) kind in
      check_cut_content w upto state_hash kind held
  | None => Ok tt
  end.

(** Everything of [step] that runs before a field is written. *)
Definition step_checks (w : ChainWalk) (block : ChainBlock) (held : Held)
    : outcome ChainError (ChainHead * option N) :=
  let? r := verify_next (w_head w) block (w_seen w) in
  let? _ := omap_err (ConsentRefused (height block))
              (consent_spends (change block) (walk_working_anchor (w_running w))) in
  let? _ := check_cut w block held in
  Ok r.

(** [ChainWalk::step(&mut self, block, held)]. *)
Definition step (w : ChainWalk) (block : ChainBlock) (held : Held)
    : ChainWalk * outcome ChainError unit :=
  match step_checks w block held with
  | Ok (head, consumed) =>
      let w := match cut_of (change block) with
               | Some (_, _, kind) => with_folded_cut (w_folded_cut w || cut_wiki kind) w
               | None => w
               end in
      let '(running, r) := fold_one (w_running w) block (w_vault w) in
      let w := with_running running w in
      match r with
      | Ok _ =>
          ({| w_head := head;
              w_seen := match consumed with Some id => {[id]} ∪ w_seen w | None => w_seen w end;
              w_running := w_running w; w_floor := w_floor w; w_folded := w_folded w + 1;
              w_folded_cut := w_folded_cut w; w_vault := w_vault w |}, Ok tt)
      | Err e => (w, Err e)
      | Panic => (w, Panic)
      end
  | Err e => (w, Err e)
  | Panic => (w, Panic)
  end.

(** [for block in rest { walk.step(block, held)?; }]. *)
Fixpoint steps (w : ChainWalk) (blocks : list ChainBlock) (held : Held)
    : outcome ChainError ChainWalk :=
  match blocks with
  | [] => Ok w
  | b :: blocks =>
      let '(w, r) := step w b held in
      let? _ := r in steps w blocks held
  end.

(** [ChainWalk::describes]. *)
Definition describes (w : ChainWalk) (chain : list ChainBlock) (blob : option CheckpointState)
    : bool :=
  (w_folded w =? len chain)%N &&
  bool_decide (w_floor w = cs_upto <$> blob) &&
  match last chain with
  | Some b => bool_decide (block_hash (hd_republic_id (w_head w)) b = Some (hd_hash (w_head w)))
  | None => false
  end.

(** The walk a genesis seeds. *)
Definition genesis_walk (genesis : ChainBlock) : outcome ChainError ChainWalk :=
  let? head := verify_genesis genesis in
  match change genesis with
  | Genesis name republic_id rule_m rule_n identities agenda relays features =>
      Ok {| w_head := head; w_seen := ∅;
            w_running := genesis_base name rule_m rule_n identities agenda republic_id relays features;
            w_floor := None; w_folded := 1; w_folded_cut := false;
            w_vault := ctx_from_founding rule_m identities |}
  | _ => Panic
  end.

Definition walk_chain (blocks : list ChainBlock) : outcome ChainError ChainWalk :=
  match blocks with
  | [] => Err EmptyChain
  | genesis :: rest =>
      let? walk := genesis_walk genesis in
      steps walk rest Held_default
  end.

Definition verify_chain (blocks : list ChainBlock) : outcome ChainError ChainHead :=
  let? w := walk_chain blocks in Ok (w_head w).

(** The roster of a blob, entry by entry, in the founding table. *)
Fixpoint check_roster (founding roster : list MemberIdentity) : outcome ChainError unit :=
  match roster with
  | [] => Ok tt
  | entry :: roster =>
      reject negb (existsb (λ f, bool_decide (f = entry)) founding) with RosterNotFounding (mi_member entry) else
      check_roster founding roster
  end.

(** The anchor checks of [walk_suffix_chain], in order. *)
Definition check_anchor (blob : CheckpointState) (anchor : ChainBlock) (expected_republic_id : string)
    : outcome ChainError CutKind :=
  let? c := ok_or (cut_of (change anchor)) NotACheckpoint in
  let '(upto, state_hash, kind) := c in
  reject negb (cs_upto blob =? upto)%N with BlobUpto else
  let? h := expect (checkpoint_state_hash blob) in
  reject negb (bool_decide (h = state_hash)) with BlobHash else
  reject (height anchor =? 0)%N || negb (height anchor - 1 =? upto)%N with AnchorHeight else
  let? rid := expect (republic_id (founding_name blob) (cs_rule_m blob) (cs_rule_n blob)
                        (founding_identities blob)) in
  reject negb (bool_decide (rid = expected_republic_id)) ||
         negb (bool_decide (rid = cs_republic_id blob)) with FoundingId else
  reject (cs_rule_m blob =? 0)%N || (cs_rule_n blob <? cs_rule_m blob)%N ||
         (len (cs_roster blob) =? 0)%N with BlobThreshold else
  reject negb (cs_rule_n blob =? len (founding_identities blob))%N with BlobSize else
  let k := keyed (founding_identities blob) in
  reject negb (Bool.eqb k (cut_vault kind))
    with (if k then LegacyAnchorInVault else VaultAnchorOutside) else
  let? _ :=
    if k then
      let? _ := omap_err RosterRule (check_roster_keys (cs_rule_m blob) (cs_rule_n blob)
                  (founding_identities blob) (founding_features blob)) in Ok tt
    else Ok tt in
  let? _ := check_roster (founding_identities blob) (cs_roster blob) in
  let? b := expect (approval_bytes (cs_republic_id blob) (height anchor) (change anchor)) in
  let signers := valid_signers (founding_identities blob) b (sigs anchor) in
  reject (N.of_nat (size signers) <? cs_rule_m blob)%N
    with AnchorThreshold (N.of_nat (size signers)) (cs_rule_m blob) else
  Ok kind.

(** The walk a checkpoint blob seeds. *)
Definition anchor_walk (blob : CheckpointState) (anchor : ChainBlock) (kind : CutKind)
    : outcome ChainError ChainWalk :=
  let? hash := expect (block_hash (cs_republic_id blob) anchor) in
  Ok {| w_head := {| hd_height := height anchor; hd_hash := hash;
                     hd_republic_id := cs_republic_id blob; hd_rule_m := cs_rule_m blob;
                     hd_identities := cs_roster blob |};
        w_seen := list_to_set (consumed_ids blob);
        w_running := blob; w_floor := Some (cs_upto blob); w_folded := 1;
        w_folded_cut := cut_wiki kind;
        w_vault := ctx_from_founding (cs_rule_m blob) (founding_identities blob) |}.

Definition walk_suffix_chain (blob : CheckpointState) (blocks : list ChainBlock)
    (expected_republic_id : string) (held : Held) : outcome ChainError ChainWalk :=
  match blocks with
  | [] => Err EmptyChain
  | anchor :: rest =>
      let? kind := check_anchor blob anchor expected_republic_id in
      let? walk := anchor_walk blob anchor kind in
      steps walk rest held
  end.

Definition verify_suffix_chain (blob : CheckpointState) (blocks : list ChainBlock)
    (expected_republic_id : string) (wiki_base : option tree) : outcome ChainError ChainHead :=
  let? w := walk_suffix_chain blob blocks expected_republic_id (Held_of_wiki wiki_base) in
  Ok (w_head w).
End Walk.
