(* ===== verification/WalkProps.v ===== *)
(** * What a walk has established

    The walk's cached state is a function of the chain it covers:
    [walk_repr pre w] spells that function out against definitions that know
    nothing of the walk (the working anchors, the applied ids, the founding
    table, the batch projection [checkpoint_state]), and [block_valid pre b]
    is what a block must satisfy against the chain before it.  The walk
    accepts a chain exactly when every block of it is valid against its own
    prefix, and a refused block leaves the walk as it was. *)

From S2P Require Import Prelude Bytes Strs Json Env Surface Roster Chain Checkpoint WikiFold Vault Cuts Ledger Verify Walk.
#[local] Open Scope string_scope.
#[local] Open Scope list_scope.

(** The applied proposal ids of a chain, in order. *)
Definition applied_id (b : ChainBlock) : option N :=
  match change b with Applied id _ _ => Some id | _ => None end.
Definition proposals (bs : list ChainBlock) : list N := omap applied_id bs.

(** Has a wiki-folded cut been sealed? *)
Definition is_folded_cut (b : ChainBlock) : bool :=
  match cut_of (change b) with Some (_, _, kind) => cut_wiki kind | None => false end.
Definition any_folded_cut (bs : list ChainBlock) : bool := existsb is_folded_cut bs.

(** The anchor a seat is addressed by: its last re-anchor, else its founding
    anchor. *)
Definition anchor_of (ids : list MemberIdentity) (bs : list ChainBlock) (m : string) : string :=
  default (roster_anchor ids m) (working_anchors bs !! m).

(** The founding facts of a genesis. *)
Record Founding := {
  f_name : string; f_rid : string; f_m : N; f_n : N; f_ids : list MemberIdentity;
  f_agenda : string; f_relays : list string; f_features : option (list string);
}.
Definition founding_of (b : ChainBlock) : option Founding :=
  match change b with
  | Genesis name rid m n ids agenda relays features =>
      Some {| f_name := name; f_rid := rid; f_m := m; f_n := n; f_ids := ids;
              f_agenda := agenda; f_relays := relays; f_features := features |}
  | _ => None
  end.
Definition base_of (f : Founding) : CheckpointState :=
  genesis_base (f_name f) (f_m f) (f_n f) (f_ids f) (f_agenda f) (f_rid f) (f_relays f) (f_features f).
Definition vault_of (f : Founding) : option VaultCtx := ctx_from_founding (f_m f) (f_ids f).

Section WalkProps.
Context `{Env, VaultSerde}.

(** ** A refused block changes nothing *)

Lemma fold_one_atomic s b v : (fold_one s b v).2 ≠ Ok tt → (fold_one s b v).1 = s.
Proof.
  unfold fold_one. destruct (change b); simpl; try done.
  - by case_match.
  - by case_match.
Qed.

Lemma fold_one_cut s b v c : cut_of (change b) = Some c → fold_one s b v = (s, Ok tt).
Proof. unfold fold_one. by destruct (change b). Qed.

(** A run of [step] that succeeds, or else leaves the walk alone. *)
Lemma step_inv w b held :
  (∃ head consumed running,
     step_checks w b held = Ok (head, consumed) ∧
     fold_one (w_running w) b (w_vault w) = (running, Ok tt) ∧
     step w b held =
       ({| w_head := head;
           w_seen := match consumed with Some id => {[id]} ∪ w_seen w | None => w_seen w end;
           w_running := running; w_floor := w_floor w; w_folded := w_folded w + 1;
           w_folded_cut := w_folded_cut w || is_folded_cut b; w_vault := w_vault w |}, Ok tt)) ∨
  ((step w b held).2 ≠ Ok tt ∧ (step w b held).1 = w).
Proof.
  unfold step, is_folded_cut. destruct (step_checks w b held) as [[head consumed]| |] eqn:Hc; [|by right..].
  destruct (cut_of (change b)) as [[[u h] k]|] eqn:Ec.
  - left. exists head, consumed, (w_running w). simpl.
    by rewrite (fold_one_cut _ _ _ _ Ec).
  - pose proof (fold_one_atomic (w_running w) b (w_vault w)) as Ha.
    destruct (fold_one (w_running w) b (w_vault w)) as [running [[]|e|]] eqn:Hf; simpl in *.
    + left. exists head, consumed, running. by rewrite orb_false_r.
    + right. split; [done|]. rewrite Ha by done. by destruct w.
    + right. split; [done|]. rewrite Ha by done. by destruct w.
Qed.

Lemma steps_app w bs1 bs2 held :
  steps w (bs1 ++ bs2) held = (let? w := steps w bs1 held in steps w bs2 held).
Proof.
  revert w; induction bs1 as [|b bs1 IH]; intros w; simpl; [done|].
  destruct (step w b held) as [w' [[]| |]]; simpl; [apply IH|done..].
Qed.

Lemma walk_chain_snoc pre b :
  pre ≠ [] →
  walk_chain (pre ++ [b]) =
    (let? w := walk_chain pre in
     match step w b Held_default with (w', r) => let? _ := r in Ok w' end).
Proof.
  intros Hne. destruct pre as [|g rest]; [done|]. unfold walk_chain. simpl.
  destruct (genesis_walk g) as [w| |]; simpl; [|done..].
  rewrite steps_app. destruct (steps w rest Held_default) as [w'| |]; simpl; [|done..].
  destruct (step w' b Held_default) as [w'' [[]| |]]; done.
Qed.

(** ** Validity of a block against the chain before it *)

(** The founding table knows the seat under this key. *)
Definition seat_keeps_key (ids : list MemberIdentity) (c : ChainChange) : Prop :=
  match c with
  | Membership op member pk _ _ _ =>
      op = Restored ∧ mi_identity_pk <$> find_member ids member = Some pk
  | _ => True
  end.

(** A cut commits to the batch projection of the chain before it. *)
Definition cut_valid (f : Founding) (pre : list ChainBlock) (b : ChainBlock) : Prop :=
  ∀ upto h kind, cut_of (change b) = Some (upto, h, kind) →
    (upto + 1 = height b)%N ∧
    cut_vault kind = is_some (vault_of f) ∧
    (any_folded_cut pre = true → cut_wiki kind = true) ∧
    ∃ st st' fc, checkpoint_state pre upto = Ok st ∧
      fold_cut st kind Held_default = Ok (st', fc) ∧ fc_hash fc = h.

(** A vault block of a vault republic obeys the closed op set. *)
Definition vault_valid (f : Founding) (pre : list ChainBlock) (b : ChainBlock) : Prop :=
  ∀ ctx id payload, vault_of f = Some ctx → change b = Applied id Vault payload →
    ∃ st op, checkpoint_state pre (height b - 1) = Ok st ∧ walk_enabled st ctx = true ∧
      check_vault_op (f_rid f) id payload ctx = Ok op.

Record block_valid (f : Founding) (pre : list ChainBlock) (b : ChainBlock) : Prop := {
  bv_height : height b = len pre;
  bv_width : (len pre ≤ u64_max)%N;
  bv_link : ∃ l, last pre = Some l ∧ block_hash (f_rid f) l = Some (prev b);
  bv_kind : founding_of b = None;
  bv_fresh : ∀ id, applied_id b = Some id → id ∉ proposals pre;
  bv_approved : ∃ signers, block_signers (f_rid f) (f_ids f) b = Ok signers ∧
                           (f_m f ≤ N.of_nat (size signers))%N;
  bv_seat : seat_keeps_key (f_ids f) (change b);
  bv_spends : consent_spends (change b) (anchor_of (f_ids f) pre) = Ok tt;
  bv_cut : cut_valid f pre b;
  bv_vault : vault_valid f pre b;
  bv_hash : is_Some (block_hash (f_rid f) b);
}.

(** The founding facts of a state, which no block moves. *)
Definition constitution (s : CheckpointState) :=
  (founding_name s, cs_rule_m s, cs_rule_n s, founding_identities s, cs_agenda s, cs_relays s,
   founding_features s, cs_republic_id s, cs_roster s, cs_upto s).

(** The state a walk over [pre] holds, in terms of [pre] alone. *)
Record walk_repr (f : Founding) (pre : list ChainBlock) (w : ChainWalk) : Prop := {
  wr_genesis : ∃ g rest, pre = g :: rest ∧ founding_of g = Some f;
  wr_head : w_head w =
    {| hd_height := len pre - 1; hd_hash := hd_hash (w_head w); hd_republic_id := f_rid f;
       hd_rule_m := f_m f; hd_identities := f_ids f |};
  wr_heights : ∀ i b, pre !! i = Some b → height b = N.of_nat i;
  wr_width : (len pre - 1 ≤ u64_max)%N;
  wr_hash : last pre ≫= block_hash (f_rid f) = Some (hd_hash (w_head w));
  wr_seen : w_seen w = list_to_set (proposals pre);
  wr_consumed : consumed_ids (w_running w) = proposals pre;
  wr_running : ∀ upto, (len pre - 1 ≤ upto)%N →
    fold_blocks (base_of f) (tail pre) upto (vault_of f) = Ok (w_running w);
  wr_sorted : ledger_sorted (anchors (w_running w));
  wr_anchors : list_to_map (anchors (w_running w)) = working_anchors pre;
  wr_rsorted : ledger_sorted (member_relays (w_running w));
  wr_relays : list_to_map (member_relays (w_running w)) = declared_relays pre;
  wr_constitution : constitution (w_running w) = constitution (base_of f);
  wr_groups : groups_frozen (w_running w);
  wr_floor : w_floor w = None;
  wr_folded : w_folded w = len pre;
  wr_folded_cut : w_folded_cut w = any_folded_cut pre;
  wr_vault : w_vault w = vault_of f;
}.

Lemma wr_roster f pre w : walk_repr f pre w → cs_roster (w_running w) = f_ids f.
Proof. intros Hr%wr_constitution. unfold constitution in Hr. by injection Hr. Qed.
Lemma wr_rid f pre w : walk_repr f pre w → cs_republic_id (w_running w) = f_rid f.
Proof. intros Hr%wr_constitution. unfold constitution in Hr. by injection Hr. Qed.

(** ** The groups of the projection *)

Lemma set_group_keys sf g l : (set_group sf g l).*1 = l.*1.
Proof. induction l as [|[s g'] l IH]; simpl; [done|]. case_decide; simpl; [done|by f_equal]. Qed.

Lemma group_absent sf (l : list (Surface * list (N * Value))) :
  existsb (λ g, bool_decide (g.1 = sf)) l = false → sf ∉ l.*1.
Proof.
  rewrite existsb_false. intros Hl (g & -> & Hg)%list_elem_of_fmap. apply Hl in Hg.
  by apply bool_decide_eq_false in Hg.
Qed.

(** The one surface outside the frozen set joins behind it. *)
Lemma insert_files_keys l :
  l.*1 = CHECKPOINT_V7_SURFACES → (insert_group Files l).*1 = ALL.
Proof.
  intros E. do 6 (destruct l as [|[? ?] l]; [done|]). destruct l; [|done].
  injection E as -> -> -> -> -> ->. done.
Qed.

Lemma fold_applied_keys sf id p l :
  l.*1 = CHECKPOINT_V7_SURFACES ∨ l.*1 = ALL →
  (fold_applied sf id p l).*1 = CHECKPOINT_V7_SURFACES ∨ (fold_applied sf id p l).*1 = ALL.
Proof.
  intros Hl. unfold fold_applied.
  assert (Hk : ∀ k, (match find_group sf k with
    | Some g => set_group sf (push_entry sf id p g) k | None => k end).*1 = k.*1).
  { intros k. case_match; [apply set_group_keys|done]. }
  rewrite Hk. destruct (existsb _ l) eqn:Ee; [done|]. apply group_absent in Ee.
  destruct Hl as [Hl|Hl]; rewrite Hl in Ee; [|exfalso; apply Ee; unfold ALL; destruct sf; set_solver].
  right. destruct sf; try (exfalso; apply Ee; unfold CHECKPOINT_V7_SURFACES; set_solver).
  by apply insert_files_keys.
Qed.

(** ** One block against a head *)

Lemma apply_membership_ok ids op m pk l :
  apply_membership ids op m pk = Ok l ↔
  op = Restored ∧ mi_identity_pk <$> find_member ids m = Some pk ∧ l = ids.
Proof.
  unfold apply_membership. destruct op; [split; [done|naive_solver]|].
  destruct (find_member ids m) as [id|]; simpl; [|naive_solver].
  rewrite reject_ok, negb_false_iff, bool_decide_eq_true. naive_solver.
Qed.

Lemma check_change_ok b seen c :
  check_change b seen = Ok c ↔
  founding_of b = None ∧ c = applied_id b ∧ (∀ id, applied_id b = Some id → id ∉ seen) ∧
  (∀ upto h k, cut_of (change b) = Some (upto, h, k) → (upto + 1 = height b)%N).
Proof.
  unfold check_change, founding_of, applied_id. destruct (change b); simpl;
    rewrite ?reject_ok, ?orb_false_iff, ?negb_false_iff, ?N.eqb_eq, ?N.eqb_neq, ?bool_decide_eq_false;
    split; intros; destruct_and?; simplify_eq; repeat split; intros; simplify_eq; try done; try lia; auto.
  all: try match goal with Hx : ∀ upto h k, _ → _ |- _ => specialize (Hx _ _ _ eq_refl) end; lia.
Qed.

Lemma verify_next_ok head b seen hd' c :
  verify_next head b seen = Ok (hd', c) ↔
  height b = (hd_height head + 1)%N ∧ (hd_height head + 1 ≤ u64_max)%N ∧
  prev b = hd_hash head ∧ check_change b seen = Ok c ∧
  (∃ signers, block_signers (hd_republic_id head) (hd_identities head) b = Ok signers ∧
              (hd_rule_m head ≤ N.of_nat (size signers))%N) ∧
  seat_keeps_key (hd_identities head) (change b) ∧
  block_hash (hd_republic_id head) b = Some (hd_hash hd') ∧
  hd' = {| hd_height := height b; hd_hash := hd_hash hd'; hd_republic_id := hd_republic_id head;
           hd_rule_m := hd_rule_m head; hd_identities := hd_identities head |}.
Proof.
  unfold verify_next, u64_checked_add. split.
  - destruct (N.leb_spec (hd_height head + 1) u64_max); simpl; [|done]. intros Hv. run_inv Hv. to_prop.
    simplify_eq/=. split; [done|]. split; [done|]. split; [done|]. split; [done|].
    split; [eauto|]. unfold seat_keeps_key. destruct (change b); try by simplify_eq.
    match goal with Hm : apply_membership _ _ _ _ = _ |- _ => apply apply_membership_ok in Hm as (? & ? & ?) end.
    by subst.
  - intros (Hh & Hw & Hp & Hc & (sg & Hs & Hm) & Hk & Hb & Hd).
    rewrite (proj2 (N.leb_le _ _) Hw). simpl. rewrite Hh, N.eqb_refl. simpl.
    rewrite bool_decide_eq_true_2 by done. simpl. rewrite Hc. simpl. rewrite Hs. simpl.
    rewrite (proj2 (N.ltb_ge _ _) Hm).
    assert (Hid : match change b with
      | Membership op member pk _ _ _ => apply_membership (hd_identities head) op member pk
      | _ => Ok (hd_identities head) end = Ok (hd_identities head)).
    { unfold seat_keeps_key in Hk. destruct (change b); try done.
      apply apply_membership_ok. naive_solver. }
    rewrite Hid. simpl. rewrite Hb. simpl. rewrite Hd at 2. by rewrite Hh.
Qed.

(** ** Folding one block *)

(** What [fold_one] asks of a block. *)
Definition fold_accepts (s : CheckpointState) (b : ChainBlock) (v : option VaultCtx) : Prop :=
  seat_keeps_key (cs_roster s) (change b) ∧
  ∀ ctx id payload, v = Some ctx → change b = Applied id Vault payload →
    walk_enabled s ctx = true ∧ ∃ op, check_vault_op (cs_republic_id s) id payload ctx = Ok op.

Lemma fold_one_accepts s b v : (fold_one s b v).2 = Ok tt ↔ fold_accepts s b v.
Proof.
  unfold fold_one, fold_accepts, seat_keeps_key. destruct (change b) as [| id sf payload | | | | ];
    simpl; try (split; [intros _; split; [done|naive_solver]|done]).
  - destruct v as [ctx|].
    + destruct (decide (sf = Vault)) as [->|Hsf].
      * destruct (walk_enabled s ctx) eqn:Ew; simpl.
        -- destruct (check_vault_op (cs_republic_id s) id payload ctx) as [op| |] eqn:Eo; simpl;
             (split; [try done|]); try done.
           ++ intros _. split; [done|]. intros. simplify_eq. eauto.
           ++ intros [_ Hx]. destruct (Hx ctx id payload eq_refl eq_refl) as [_ [??]]. congruence.
           ++ intros [_ Hx]. destruct (Hx ctx id payload eq_refl eq_refl) as [_ [??]]. congruence.
        -- split; [done|]. intros [_ Hx]. destruct (Hx ctx id payload eq_refl eq_refl). congruence.
      * destruct sf; try done; simpl; (split; [intros _; split; [done|naive_solver]|done]).
    + simpl. split; [intros _; split; [done|naive_solver]|done].
  - destruct (apply_membership (cs_roster s) op member identity_pk) as [l| |] eqn:Ea; simpl.
    + apply apply_membership_ok in Ea as (? & ? & ?). split; [|done]. intros _. split; [done|naive_solver].
    + split; [done|]. intros [[-> Hk] _].
      rewrite (proj2 (apply_membership_ok _ _ _ _ (cs_roster s))) in Ea; [done|naive_solver].
    + split; [done|]. intros [[-> Hk] _].
      rewrite (proj2 (apply_membership_ok _ _ _ _ (cs_roster s))) in Ea; [done|naive_solver].
Qed.

Lemma fold_one_constitution s b v s' :
  fold_one s b v = (s', Ok tt) →
  constitution s' = constitution s ∧ consumed_ids s' = consumed_ids s ++ proposals [b].
Proof.
  unfold fold_one, proposals, applied_id. simpl. destruct (change b); simpl; intros Hf;
    try (simplify_eq; by rewrite app_nil_r).
  - case_match; simplify_eq. done.
  - destruct (apply_membership _ _ _ _) as [l| |] eqn:Ea; simplify_eq.
    apply apply_membership_ok in Ea as (_ & _ & ->). unfold constitution. simpl.
    by rewrite app_nil_r.
Qed.

Lemma fold_one_anchors s b v s' :
  fold_one s b v = (s', Ok tt) → ledger_sorted (anchors s) →
  ledger_sorted (anchors s') ∧
  list_to_map (anchors s') = working_anchors_step (list_to_map (anchors s)) b.
Proof.
  unfold fold_one, working_anchors_step. destruct (change b); simpl; intros Hf Hs; try by simplify_eq.
  - by case_match; simplify_eq.
  - destruct (apply_membership _ _ _ _); simplify_eq; simpl.
    destruct nostr_pk as [pk|]; [|done]. destruct (str_empty pk); [done|].
    split; [by apply ledger_upsert_sorted|by apply ledger_upsert_map].
Qed.

Lemma fold_one_relays s b v s' :
  fold_one s b v = (s', Ok tt) → ledger_sorted (member_relays s) →
  ledger_sorted (member_relays s') ∧
  list_to_map (member_relays s') = declared_relays_step (list_to_map (member_relays s)) b.
Proof.
  unfold fold_one, declared_relays_step. destruct (change b); simpl; intros Hf Hs; try by simplify_eq.
  - by case_match; simplify_eq.
  - destruct (apply_membership _ _ _ _); simplify_eq; simpl.
    destruct relays; [done|].
    split; [by apply ledger_upsert_sorted|by apply ledger_upsert_map].
Qed.

Lemma fold_one_groups s b v s' :
  fold_one s b v = (s', Ok tt) → groups_frozen s → groups_frozen s'.
Proof.
  unfold fold_one. destruct (change b); simpl; intros Hf Hg; try by simplify_eq.
  - case_match; simplify_eq. by apply fold_applied_keys.
  - destruct (apply_membership _ _ _ _); simplify_eq. done.
Qed.

(** [fold_state] stops at [upto]; one more block in range is one more fold. *)
Lemma fold_blocks_app s bs1 bs2 upto v :
  Forall (λ b, (height b ≤ upto)%N) bs1 →
  fold_blocks s (bs1 ++ bs2) upto v =
    (let? s := fold_blocks s bs1 upto v in fold_blocks s bs2 upto v).
Proof.
  intros Hb. revert s. induction Hb as [|b bs Hb Hbs IH]; intros s; simpl; [done|].
  rewrite (proj2 (N.ltb_ge _ _)) by done.
  destruct (fold_one s b v) as [s' [[]| |]]; simpl; [apply IH|done..].
Qed.

(** ** The walk's state is its chain's *)

Lemma genesis_repr g w :
  genesis_walk g = Ok w → ∃ f, founding_of g = Some f ∧ walk_repr f [g] w.
Proof.
  unfold genesis_walk, founding_of. intros Hg. apply obind_ok in Hg as (hd & Hv & Hg).
  destruct (change g) as [name rid m n ids agenda relays features| | | | |] eqn:Eg; try done.
  apply Ok_inj in Hg as <-. eexists. split; [done|].
  unfold verify_genesis in Hv. rewrite Eg in Hv. run_inv Hv. to_prop. subst hd.
  constructor; simpl; try done.
  - exists g, []. unfold founding_of. by rewrite Eg.
  - intros [|i] b; simpl; [|done]. by intros [= <-].
  - unfold proposals, applied_id. simpl. by rewrite Eg.
  - unfold proposals, applied_id. simpl. by rewrite Eg.
  - constructor.
  - unfold working_anchors, working_anchors_step. simpl. by rewrite Eg.
  - constructor.
  - unfold declared_relays, declared_relays_step. simpl. by rewrite Eg.
  - by left.
  - unfold any_folded_cut, is_folded_cut. simpl. by rewrite Eg.
Qed.

Lemma proposals_snoc pre b : proposals (pre ++ [b]) = proposals pre ++ proposals [b].
Proof. apply omap_app. Qed.

Lemma step_repr f pre w b w' :
  walk_repr f pre w → step w b Held_default = (w', Ok tt) → walk_repr f (pre ++ [b]) w'.
Proof.
  intros [Hg Hhd Hhs Hwd Hh Hseen Hcons Hrun Hs Hanc Hrs Hrel Hcn Hgr Hfl Hfo Hfc Hv] Hstep.
  destruct (step_inv w b Held_default) as [(hd & c & run & Hc & Hf & He)|[Hn _]];
    [|by rewrite Hstep in Hn].
  rewrite He in Hstep. injection Hstep as <-.
  unfold step_checks in Hc. run_inv Hc. subst a.
  match goal with Hvn : verify_next _ _ _ = _ |- _ =>
    apply verify_next_ok in Hvn as (Vh & Vw & Vp & Vc & Va & Vs & Vb & Vd) end.
  rewrite Hhd in Vh, Vw, Vb, Vd. simpl in *.
  assert (Hlen : (1 ≤ len pre)%N).
  { destruct Hg as (g & rest & -> & _). rewrite len_cons. lia. }
  destruct (fold_one_constitution _ _ _ _ Hf) as [Fc Fi].
  destruct (fold_one_anchors _ _ _ _ Hf Hs) as [As Am].
  destruct (fold_one_relays _ _ _ _ Hf Hrs) as [Rs Rm].
  apply check_change_ok in Vc as (_ & -> & _ & _).
  constructor; simpl; try done; rewrite ?len_app, ?len_cons, ?len_nil.
  - destruct Hg as (g & rest & -> & ?). by exists g, (rest ++ [b]).
  - rewrite Vd. f_equal. lia.
  - intros i b' [?|[-> [= ->]]]%lookup_snoc_Some; [naive_solver|]. unfold len in *. lia.
  - lia.
  - by rewrite last_snoc.
  - rewrite proposals_snoc, list_to_set_app_L, Hseen. unfold proposals at 3. simpl.
    destruct (applied_id b); simpl; set_solver.
  - by rewrite proposals_snoc, Fi, Hcons.
  - intros upto Hu. destruct Hg as (g & rest & -> & ?). simpl in *. rewrite len_cons in *.
    rewrite fold_blocks_app.
    + rewrite Hrun by lia. simpl. rewrite (proj2 (N.ltb_ge _ _)) by lia.
      rewrite <-Hv, Hf. done.
    + apply Forall_lookup. intros i b' Hb'. rewrite (Hhs (S i) b' Hb').
      apply lookup_lt_Some in Hb'. unfold len in *. lia.
  - rewrite Am, Hanc. unfold working_anchors. by rewrite foldl_snoc.
  - rewrite Rm, Hrel. unfold declared_relays. by rewrite foldl_snoc.
  - by rewrite Fc.
  - by eapply fold_one_groups.
  - lia.
  - rewrite Hfc. unfold any_folded_cut. rewrite existsb_app. simpl. by rewrite orb_false_r.
Qed.

(** The incremental projection is the batch projection. *)
Lemma repr_checkpoint f pre w upto :
  walk_repr f pre w → (len pre - 1 ≤ upto)%N →
  checkpoint_state pre upto = Ok (state_at (w_running w) upto).
Proof.
  intros Hr Hu. pose proof (wr_running _ _ _ Hr upto Hu) as Hf.
  destruct (wr_genesis _ _ _ Hr) as (g & rest & -> & Hg). unfold founding_of in Hg.
  unfold checkpoint_state, fold_state. destruct (change g); simplify_eq.
  unfold base_of, vault_of in Hf. simpl in *. by rewrite Hf.
Qed.

Lemma repr_anchor f pre w m :
  walk_repr f pre w → walk_working_anchor (w_running w) m = anchor_of (f_ids f) pre m.
Proof.
  intros Hr. unfold walk_working_anchor, anchor_of.
  rewrite ledger_get_map by apply Hr. rewrite (wr_anchors _ _ _ Hr), (wr_roster _ _ _ Hr).
  by destruct (working_anchors pre !! m).
Qed.

Lemma consent_spends_ext c w1 w2 :
  (∀ m, w1 m = w2 m) → consent_spends c w1 = consent_spends c w2.
Proof.
  intros Hw. unfold consent_spends. destruct c as [| |op member ? ? ? [consent|]| | |]; try done.
  destruct (parse_restore_consent consent) as [[]|]; try done. by rewrite Hw.
Qed.

Lemma hash_walk_state_ok s upto kind held h :
  hash_walk_state s upto kind held = Ok h ↔
  ∃ st' fc, fold_cut (state_at s upto) kind held = Ok (st', fc) ∧ fc_hash fc = h.
Proof.
  unfold hash_walk_state. destruct (fold_cut _ _ _) as [[st' fc]| |]; simpl; naive_solver.
Qed.

Lemma check_cut_ok w b held :
  check_cut w b held = Ok tt ↔
  ∀ upto h kind, cut_of (change b) = Some (upto, h, kind) →
    cut_vault kind = is_some (w_vault w) ∧
    (w_folded_cut w = true → cut_wiki kind = true) ∧
    (∀ fl, w_floor w = Some fl → (fl ≤ upto)%N) ∧
    hash_walk_state (w_running w) upto kind held = Ok h.
Proof.
  unfold check_cut, check_cut_kind, check_cut_content.
  destruct (cut_of (change b)) as [[[u h] k]|]; [|split; [naive_solver|done]].
  split.
  - intros Hc upto h' kind [= <- <- <-]. run_inv Hc. to_prop.
    apply eqb_prop in Hguard. split; [done|]. split.
    { intros Hfc. rewrite Hfc in Hguard0. simpl in Hguard0. by apply negb_false_iff in Hguard0. }
    split; [|by subst]. intros fl Hfl. rewrite Hfl in Hguard1. by apply N.ltb_ge in Hguard1.
  - intros Hx. destruct (Hx _ _ _ eq_refl) as (H1 & H2 & H3 & H4).
    rewrite <-H1, eqb_reflx. simpl.
    assert (w_folded_cut w && negb (cut_wiki k) = false) as ->.
    { destruct (w_folded_cut w); [|done]. by rewrite H2. }
    assert (match w_floor w with Some fl => (u <? fl)%N | None => false end = false) as Hfl.
    { destruct (w_floor w) as [fl|]; [|done]. apply N.ltb_ge. auto. }
    simpl. rewrite Hfl, H4. simpl. by rewrite bool_decide_eq_true_2.
Qed.

Lemma step_ok w b held :
  (step w b held).2 = Ok tt ↔
  (∃ hd c, verify_next (w_head w) b (w_seen w) = Ok (hd, c)) ∧
  consent_spends (change b) (walk_working_anchor (w_running w)) = Ok tt ∧
  check_cut w b held = Ok tt ∧
  fold_accepts (w_running w) b (w_vault w).
Proof.
  rewrite <-fold_one_accepts. split.
  - intros Hs. destruct (step_inv w b held) as [(hd & c & run & Hc & Hf & _)|[? _]]; [|done].
    unfold step_checks in Hc. run_inv Hc. subst.
    match goal with Hx : consent_spends _ _ = Ok ?u |- _ => destruct u end.
    match goal with Hx : check_cut _ _ _ = Ok ?u |- _ => destruct u end.
    rewrite Hf. eauto 10.
  - intros ((hd & c & Hv) & Hc & Hk & Hf). unfold step, step_checks. rewrite Hv. simpl.
    rewrite Hc. simpl. rewrite Hk. simpl. destruct (cut_of (change b)) as [[[??]?]|]; simpl;
      (destruct (fold_one _ _ _) as [? [[]| |]]; simpl in *; done).
Qed.

Lemma walk_enabled_state_at s upto ctx : walk_enabled (state_at s upto) ctx = walk_enabled s ctx.
Proof. done. Qed.

(** The walk accepts exactly the valid blocks. *)
Lemma step_valid f pre w b :
  walk_repr f pre w → (step w b Held_default).2 = Ok tt ↔ block_valid f pre b.
Proof.
  intros Hr.
  assert (Hlen : (1 ≤ len pre)%N).
  { destruct (wr_genesis _ _ _ Hr) as (g & rest & -> & _). rewrite len_cons. lia. }
  rewrite step_ok, check_cut_ok.
  rewrite (consent_spends_ext _ _ (anchor_of (f_ids f) pre)) by (intros; by apply repr_anchor).
  rewrite (wr_folded_cut _ _ _ Hr), (wr_floor _ _ _ Hr), (wr_vault _ _ _ Hr), (wr_seen _ _ _ Hr).
  pose proof (repr_checkpoint f pre w (len pre - 1) Hr ltac:(lia)) as Hst.
  split.
  - intros ((hd & c & Hv) & Hc & Hk & [Hfs Hfv]).
    apply verify_next_ok in Hv as (Vh & Vw & Vp & Vc & Va & Vs & Vb & Vd).
    apply check_change_ok in Vc as (Ck & _ & Cf & Cu).
    rewrite (wr_head _ _ _ Hr) in *. simpl in *.
    assert (Hh : height b = len pre) by lia.
    constructor; try done; [lia|..].
    + pose proof (wr_hash _ _ _ Hr) as Hl. destruct (last pre) as [l|]; [|done]. exists l. by rewrite Vp.
    + intros id Hid. specialize (Cf id Hid). by rewrite elem_of_list_to_set in Cf.
    + intros upto h kind Hcut. destruct (Hk _ _ _ Hcut) as (K1 & K2 & _ & K4).
      specialize (Cu _ _ _ Hcut). apply hash_walk_state_ok in K4 as (st' & fc & K4 & K5).
      split; [done|]. split; [done|]. split; [done|]. exists (state_at (w_running w) upto), st', fc.
      split; [|done]. apply (repr_checkpoint f); [done|lia].
    + intros ctx id payload Hctx Hch. destruct (Hfv ctx id payload Hctx Hch) as (E1 & op & E2).
      exists (state_at (w_running w) (len pre - 1)), op. rewrite Hh.
      rewrite (wr_rid _ _ _ Hr) in E2. done.
  - intros [Vh Vw Vp Vk Vf Va Vs Vc Vcut Vv Vb].
    split; [|split; [done|split]].
    + destruct Vb as [hash Hb].
      exists {| hd_height := height b; hd_hash := hash; hd_republic_id := f_rid f;
                hd_rule_m := f_m f; hd_identities := f_ids f |}, (applied_id b).
      apply verify_next_ok. rewrite (wr_head _ _ _ Hr). simpl.
      split; [lia|]. split; [lia|]. split.
      { destruct Vp as (l & Hl & Hp). pose proof (wr_hash _ _ _ Hr) as Hh. rewrite Hl in Hh. simpl in Hh.
        congruence. }
      split; [|done]. apply check_change_ok. split; [done|]. split; [done|]. split.
      * intros id Hid. rewrite elem_of_list_to_set. auto.
      * intros upto h k Hcut. apply (Vcut _ _ _ Hcut).
    + intros upto h kind Hcut. destruct (Vcut _ _ _ Hcut) as (K0 & K1 & K2 & st & st' & fc & K3 & K4 & K5).
      split; [done|]. split; [done|]. split; [done|]. apply hash_walk_state_ok.
      rewrite (repr_checkpoint f) with (w := w) in K3 by (done || lia). apply Ok_inj in K3 as <-. eauto.
    + split; [by rewrite (wr_roster _ _ _ Hr)|]. intros ctx id payload Hctx Hch.
      destruct (Vv ctx id payload Hctx Hch) as (st & op & K1 & K2 & K3).
      rewrite Vh, Hst in K1. apply Ok_inj in K1 as <-.
      split; [done|]. rewrite (wr_rid _ _ _ Hr). eauto.
Qed.

(** ** Whole chains *)

Lemma walk_chain_single g : walk_chain [g] = genesis_walk g.
Proof. unfold walk_chain. simpl. by destruct (genesis_walk g). Qed.

Lemma walk_chain_last pre b w' :
  pre ≠ [] →
  walk_chain (pre ++ [b]) = Ok w' ↔
  ∃ w, walk_chain pre = Ok w ∧ step w b Held_default = (w', Ok tt).
Proof.
  intros Hne. rewrite walk_chain_snoc by done. rewrite obind_ok.
  split; intros (w & Hw & Hs); exists w; (split; [done|]).
  - destruct (step w b Held_default) as [w'' [[]| |]]; simpl in *; congruence.
  - by rewrite Hs.
Qed.

Lemma walk_chain_repr bs w : walk_chain bs = Ok w → ∃ f, walk_repr f bs w.
Proof.
  revert w. induction bs as [|b bs IH] using rev_ind; intros w Hw; [done|].
  destruct (decide (bs = [])) as [->|Hne].
  - change ([] ++ [b]) with [b] in *. rewrite walk_chain_single in Hw.
    apply genesis_repr in Hw as (f & _ & ?). eauto.
  - apply walk_chain_last in Hw as (w0 & Hw & Hs); [|done].
    apply IH in Hw as (f & Hr). exists f. by eapply step_repr.
Qed.

Lemma walk_chain_prefix pre post w :
  walk_chain (pre ++ post) = Ok w → pre ≠ [] → ∃ w', walk_chain pre = Ok w'.
Proof.
  intros Hw Hne. destruct pre as [|g rest]; [done|]. unfold walk_chain in *. simpl in *.
  apply obind_ok in Hw as (w0 & -> & Hw). simpl. rewrite steps_app in Hw.
  apply obind_ok in Hw as (w1 & Hw1 & _). eauto.
Qed.

Lemma walk_repr_founding f1 f2 pre1 pre2 w1 w2 :
  walk_repr f1 pre1 w1 → walk_repr f2 pre2 w2 → head pre1 = head pre2 → f1 = f2.
Proof.
  intros H1 H2 Hh. destruct (wr_genesis _ _ _ H1) as (g1 & r1 & -> & E1).
  destruct (wr_genesis _ _ _ H2) as (g2 & r2 & -> & E2). simpl in Hh. congruence.
Qed.

(** Every block of an accepted chain is valid against its prefix. *)
Lemma walk_chain_valid f pre b post w :
  walk_chain (pre ++ b :: post) = Ok w → walk_repr f (pre ++ b :: post) w → pre ≠ [] →
  ∃ w0, walk_chain pre = Ok w0 ∧ walk_repr f pre w0 ∧ block_valid f pre b.
Proof.
  intros Hw Hr Hne. rewrite cons_middle, app_assoc in Hw.
  destruct (walk_chain_prefix _ _ _ Hw) as [w1 H1]; [by destruct pre|].
  apply walk_chain_last in H1 as (w0 & Hw0 & Hs); [|done]. exists w0. split; [done|].
  destruct (walk_chain_repr _ _ Hw0) as [f0 Hr0].
  assert (f0 = f) as ->. { eapply walk_repr_founding; [done..|]. by destruct pre. }
  split; [done|]. eapply step_valid; [done|]. by rewrite Hs.
Qed.

Lemma walk_chain_iff bs :
  is_ok (walk_chain bs) = true ↔
  ∃ g rest f, bs = g :: rest ∧ founding_of g = Some f ∧ is_ok (verify_genesis g) = true ∧
    ∀ pre b post, bs = pre ++ b :: post → pre ≠ [] → block_valid f pre b.
Proof.
  split.
  - destruct (walk_chain bs) as [w| |] eqn:Hw; try done. intros _.
    destruct (walk_chain_repr _ _ Hw) as [f Hr].
    destruct (wr_genesis _ _ _ Hr) as (g & rest & -> & Hf). exists g, rest, f.
    split; [done|]. split; [done|]. split.
    + unfold walk_chain, genesis_walk in Hw. by destruct (verify_genesis g).
    + intros pre b post Hb Hne. rewrite Hb in Hw, Hr.
      by destruct (walk_chain_valid _ _ _ _ _ Hw Hr Hne) as (_ & _ & _ & ?).
  - intros (g & rest & f & -> & Hf & Hg & Hall).
    assert (Hgoal : ∀ k : nat, (k ≤ length rest)%nat →
      ∃ w, walk_chain (g :: take k rest) = Ok w ∧ walk_repr f (g :: take k rest) w).
    { induction k as [|k IH]; intros Hk.
      - rewrite take_0, walk_chain_single.
        assert (∃ w, genesis_walk g = Ok w) as [w Hw].
        { unfold genesis_walk. destruct (verify_genesis g); try done. simpl.
          unfold founding_of in Hf. destruct (change g); try done. eauto. }
        exists w. split; [done|]. destruct (genesis_repr _ _ Hw) as (f' & Hf' & ?).
        by assert (f' = f) as -> by congruence.
      - destruct IH as (w & Hw & Hr); [lia|].
        destruct (lookup_lt_is_Some_2 rest k) as [b Hb]; [lia|].
        rewrite (take_S_r _ _ _ Hb), app_comm_cons.
        assert (block_valid f (g :: take k rest) b) as Hv.
        { apply (Hall _ _ (drop (S k) rest)); [|done]. simpl. by rewrite take_drop_middle. }
        apply (step_valid f _ w b Hr) in Hv.
        destruct (step w b Held_default) as [w' r] eqn:Hs. simpl in Hv. subst r.
        exists w'. split; [|by eapply step_repr]. apply walk_chain_last; [done|]. eauto. }
    destruct (Hgoal (length rest)) as (w & Hw & _); [done|].
    rewrite firstn_all in Hw. by rewrite Hw.
Qed.

(** ** Properties *)

Lemma repr_nodup bs w : walk_chain bs = Ok w → NoDup (proposals bs).
Proof.
  revert w. induction bs as [|b bs IH] using rev_ind; intros w Hw; [done|].
  destruct (decide (bs = [])) as [->|Hne].
  - unfold proposals. simpl. destruct (applied_id b); [apply NoDup_singleton|apply NoDup_nil_2].
  - apply walk_chain_last in Hw as (w0 & Hw & Hs); [|done].
    destruct (walk_chain_repr _ _ Hw) as [f Hr].
    assert (Hb : block_valid f bs b) by (eapply step_valid; [done|]; by rewrite Hs).
    rewrite proposals_snoc. apply NoDup_app. split; [by eapply IH|].
    pose proof (bv_fresh _ _ _ Hb) as Hf. unfold proposals at 2 3. simpl.
    destruct (applied_id b) as [id|]; [|split; [set_solver|apply NoDup_nil_2]].
    split; [|apply NoDup_singleton]. intros x Hx ->%list_elem_of_singleton. by apply (Hf id).
Qed.

(** C1: The walk implements the chain rules.  A chain is accepted exactly
    when its first block is a verified genesis and every later block is
    valid against the blocks before it, where validity speaks of the chain
    only: consecutive height, link to the last block, a fresh proposal id,
    at least m counted approvals of the founding table, a restored seat
    that keeps its key, a consent that spends the seat's current anchor, a
    cut that hashes the batch projection of its prefix, a vault record of
    the closed op set.  The cached running state never changes a verdict. *)
Theorem walk_accepts_valid bs :
  is_ok (walk_chain bs) = true ↔
  ∃ g rest f, bs = g :: rest ∧ founding_of g = Some f ∧ is_ok (verify_genesis g) = true ∧
    ∀ pre b post, bs = pre ++ b :: post → pre ≠ [] → block_valid f pre b.
Proof. apply walk_chain_iff. Qed.

(** C10: A refused block leaves no trace.  Whatever the walk, the block and
    the held bases, a step either succeeds or returns the walk it was given
    unchanged, every field of it. *)
Theorem step_atomic w b held :
  (step w b held).2 = Ok tt ∨ (step w b held).1 = w.
Proof.
  destruct (step_inv w b held) as [(hd & c & run & _ & _ & ->)|[_ ?]]; [by left|by right].
Qed.

(** C12: No proposal applies twice.  The applied ids of an accepted chain
    are pairwise distinct, and the walk's guard set holds exactly them. *)
Theorem no_double_apply bs w :
  walk_chain bs = Ok w → NoDup (proposals bs) ∧ w_seen w = list_to_set (proposals bs).
Proof.
  intros Hw. split; [by eapply repr_nodup|].
  destruct (walk_chain_repr _ _ Hw) as [f Hr]. apply Hr.
Qed.

(** C14: The incremental walk is the batch projection.  After an accepted
    chain the roster, the threshold and the republic id are those of the
    genesis, the running state with its ids sorted is what [checkpoint_state]
    folds from scratch, and its two sorted ledgers list the last re-anchor
    and the last relay declaration of every seat. *)
Theorem walk_is_projection bs w :
  walk_chain bs = Ok w →
  ∃ f, head bs ≫= founding_of = Some f ∧
    hd_identities (w_head w) = f_ids f ∧ hd_rule_m (w_head w) = f_m f ∧
    hd_republic_id (w_head w) = f_rid f ∧
    (hd_height (w_head w) + 1 = len bs)%N ∧
    checkpoint_state bs (hd_height (w_head w)) =
      Ok (state_at (w_running w) (hd_height (w_head w))) ∧
    ledger_sorted (anchors (w_running w)) ∧
    list_to_map (anchors (w_running w)) = working_anchors bs ∧
    ledger_sorted (member_relays (w_running w)) ∧
    list_to_map (member_relays (w_running w)) = declared_relays bs.
Proof.
  intros Hw. destruct (walk_chain_repr _ _ Hw) as [f Hr]. exists f.
  pose proof (wr_head _ _ _ Hr) as Hh. destruct (wr_genesis _ _ _ Hr) as (g & rest & E & Hg).
  assert (Hlen : (1 ≤ len bs)%N) by (rewrite E, len_cons; lia).
  rewrite Hh. simpl. rewrite (repr_checkpoint f bs w) by (done || lia).
  split; [by rewrite E|]. repeat (split; [done || lia|]). repeat (split; [apply Hr|]). apply Hr.
Qed.
End WalkProps.
