(* ===== verification/Approvals.v ===== *)
(** * Approvals

    What a counted signer is (crates/molt-engine/src/chain/verify.rs,
    [valid_signers], [block_signers], [verify_genesis]): a distinct seat of
    the table with a signature over the very bytes of this change at this
    height, or the one seat a restore returns, by its own consent.  From
    there: unanimity of the founding, and the members two conflicting blocks
    must share. *)

From S2P Require Import Prelude Bytes Strs Json Env Surface Roster Chain Checkpoint Vault Cuts Ledger Verify Walk WalkProps.
#[local] Open Scope string_scope.
#[local] Open Scope list_scope.

Section Approvals.
Context `{Env, VaultSerde}.

(** The seat [id] signed [b] in [sigs]. *)
Definition signed_by (id : MemberIdentity) (b : bytes) (sigs : list RosterAttestation) : Prop :=
  ∃ att, att ∈ sigs ∧ att_member att = mi_member id ∧
         identity_verify (mi_identity_pk id) b (att_sig att) = true.

(** The returning seat of a restore block consented to it. *)
Definition consented (rid : string) (id : MemberIdentity) (b : ChainBlock) : Prop :=
  ∃ pk nostr_pk relays consent k,
    change b = Membership Restored (mi_member id) pk nostr_pk relays (Some consent) ∧
    verify_restore_consent rid (mi_identity_pk id) (height b) (mi_member id) nostr_pk relays consent
      = Ok k.

Lemma find_member_some ids m id : find_member ids m = Some id → id ∈ ids ∧ mi_member id = m.
Proof.
  unfold find_member. intros [Hin Hm]%find_some. apply bool_decide_eq_true in Hm.
  split; [by apply list_elem_of_In|done].
Qed.

Lemma valid_signers_spec ids b sigs m :
  m ∈ valid_signers ids b sigs ↔ ∃ id, find_member ids m = Some id ∧ signed_by id b sigs.
Proof.
  unfold valid_signers, signed_by.
  enough (Hgen : ∀ ok : gset string, m ∈ foldl (λ ok att,
    match find_member ids (att_member att) with
    | None => ok
    | Some id => if identity_verify (mi_identity_pk id) b (att_sig att)
                 then {[att_member att]} ∪ ok else ok
    end) ok sigs ↔ m ∈ ok ∨ ∃ id, find_member ids m = Some id ∧
      ∃ att, att ∈ sigs ∧ att_member att = mi_member id ∧
         identity_verify (mi_identity_pk id) b (att_sig att) = true).
  { rewrite Hgen. set_solver. }
  induction sigs as [|att sigs IH]; intros ok; simpl.
  { split; [by left|]. intros [?|(?&?&?&Hx&_)]; [done|]. by apply elem_of_nil in Hx. }
  rewrite IH. clear IH.
  destruct (find_member ids (att_member att)) as [id|] eqn:Ef.
  - destruct (find_member_some _ _ _ Ef) as [_ Hn].
    destruct (identity_verify _ _ _) eqn:Ev.
    + rewrite elem_of_union, elem_of_singleton. split.
      * intros [[->|?]|(i&?&a&?&?)]; [right; exists id; split; [done|]; exists att; set_solver
          |by left|right; exists i; split; [done|]; exists a; set_solver].
      * intros [?|(i&Hi&a&[->|Ha]%elem_of_cons&?&?)]; [by left; right| |right; exists i; split; [done|]; by exists a].
        apply find_member_some in Hi as [_ <-]. by left; left.
    + split; [intros [?|(i&?&a&?&?)]; [by left|right; exists i; split; [done|]; exists a; set_solver]|].
      intros [?|(i&Hi&a&[->|Ha]%elem_of_cons&Hm&?)]; [by left| |right; exists i; split; [done|]; by exists a].
      exfalso. destruct (find_member_some _ _ _ Hi) as [_ Hm']. rewrite Hm, Hm' in Ef. congruence.
  - split; [intros [?|(i&?&a&?&?)]; [by left|right; exists i; split; [done|]; exists a; set_solver]|].
    intros [?|(i&Hi&a&[->|Ha]%elem_of_cons&Hm&?)]; [by left| |right; exists i; split; [done|]; by exists a].
    exfalso. destruct (find_member_some _ _ _ Hi) as [_ Hm']. rewrite Hm, Hm' in Ef. congruence.
Qed.

Lemma block_signers_spec rid ids b signers :
  block_signers rid ids b = Ok signers →
  ∃ bs, approval_bytes rid (height b) (change b) = Some bs ∧
  ∀ m, m ∈ signers → ∃ id, find_member ids m = Some id ∧
    (signed_by id bs (sigs b) ∨ consented rid id b).
Proof.
  unfold block_signers. intros Hb. apply obind_ok in Hb as (bs & Hbs & Hb).
  apply expect_ok in Hbs. exists bs. split; [done|]. intros m Hm.
  assert (Hplain : m ∈ valid_signers ids bs (sigs b) → ∃ id, find_member ids m = Some id ∧
    (signed_by id bs (sigs b) ∨ consented rid id b)).
  { intros (id & ? & ?)%valid_signers_spec. eauto. }
  destruct (change b) as [| |op mem ? nostr_pk relays [consent|]| | |] eqn:Ec;
    try (apply Ok_inj in Hb; subst signers; by apply Hplain).
  run_inv Hb. to_prop. subst. destruct (find_member ids mem) as [id|] eqn:Ef; simplify_eq/=.
  apply elem_of_union in Hm as [->%elem_of_singleton|Hm]; [|by apply Hplain].
  exists id. split; [done|]. right. destruct (find_member_some _ _ _ Ef) as [_ <-].
  unfold consented. rewrite Ec. eauto 10.
Qed.

(** Signers are seats, so there are at most as many as the table has. *)
Definition names (ids : list MemberIdentity) : gset string := list_to_set (mi_member <$> ids).

Lemma find_member_names ids m id : find_member ids m = Some id → m ∈ names ids.
Proof.
  intros [Hin <-]%find_member_some. unfold names. apply elem_of_list_to_set.
  by apply list_elem_of_fmap_2.
Qed.

Lemma block_signers_seats rid ids b signers :
  block_signers rid ids b = Ok signers → signers ⊆ names ids.
Proof.
  intros (bs & _ & Hs)%block_signers_spec m Hm. apply Hs in Hm as (id & Hf & _).
  by eapply find_member_names.
Qed.

Lemma valid_signers_seats ids bs sigs : valid_signers ids bs sigs ⊆ names ids.
Proof. intros m (id & Hf & _)%valid_signers_spec. by eapply find_member_names. Qed.

Lemma size_names ids : (size (names ids) ≤ length ids)%nat.
Proof. unfold names. rewrite <-(length_fmap mi_member ids). apply size_list_to_set_le. Qed.

(** Two quorums of one table meet. *)
Lemma quorums_meet ids (s1 s2 : gset string) :
  s1 ⊆ names ids → s2 ⊆ names ids → (size s1 + size s2 ≤ size (s1 ∩ s2) + length ids)%nat.
Proof.
  intros H1 H2. pose proof (size_names ids).
  assert (size (s1 ∪ s2) ≤ size (names ids))%nat by (apply subseteq_size; set_solver).
  rewrite size_union_alt in *.
  assert (size s2 = size (s1 ∩ s2) + size (s2 ∖ s1))%nat.
  { rewrite <-size_union by set_solver. f_equal. apply set_eq. intros x.
    destruct (decide (x ∈ s1)); set_solver. }
  lia.
Qed.

(** ** The founding *)

Lemma genesis_facts g hd :
  verify_genesis g = Ok hd →
  ∃ f bs, founding_of g = Some f ∧
    republic_id (f_name f) (f_m f) (f_n f) (f_ids f) = Some (f_rid f) ∧
    (0 < f_m f ≤ f_n f)%N ∧ f_n f = len (f_ids f) ∧
    approval_bytes (f_rid f) 0 (change g) = Some bs ∧
    valid_signers (f_ids f) bs (sigs g) = names (f_ids f) ∧
    NoDup (mi_member <$> f_ids f).
Proof.
  unfold verify_genesis, founding_of. intros Hv.
  destruct (change g) eqn:Ec; run_inv Hv; to_prop.
  eexists _, _. split; [done|]. simpl. subst.
  match goal with Hx : (_ =? _)%nat = true |- _ => apply Nat.eqb_eq in Hx; rename Hx into Hsz end.
  split; [done|]. split; [lia|]. split; [done|]. split; [done|].
  pose proof (valid_signers_seats identities a1 (sigs g)) as Hsub.
  pose proof (subseteq_size _ _ Hsub) as Hle. pose proof (size_names identities) as Hn.
  split.
  - apply set_subseteq_size_eq; [done|lia].
  - apply size_list_to_set_full. rewrite length_fmap. unfold names in *. lia.
Qed.

Lemma find_member_nodup ids id :
  NoDup (mi_member <$> ids) → id ∈ ids → find_member ids (mi_member id) = Some id.
Proof.
  unfold find_member. induction ids as [|i ids IH]; intros Hnd Hin; [by apply elem_of_nil in Hin|].
  simpl in *. apply NoDup_cons in Hnd as [Hi Hnd].
  apply elem_of_cons in Hin as [->|Hin]; [by rewrite bool_decide_eq_true_2|].
  rewrite bool_decide_eq_false_2; [by apply IH|].
  intros E. apply Hi. rewrite E. by apply list_elem_of_fmap_2.
Qed.

(** ** Approvals along a chain *)

(** The seats of [s] approved [b] in the republic [f]. *)
Definition approves (f : Founding) (b : ChainBlock) (s : gset string) : Prop :=
  ∃ bs, approval_bytes (f_rid f) (height b) (change b) = Some bs ∧
  ∀ m, m ∈ s → ∃ id, id ∈ f_ids f ∧ mi_member id = m ∧
    (signed_by id bs (sigs b) ∨ consented (f_rid f) id b).

Lemma block_valid_approves f pre b :
  block_valid f pre b →
  ∃ s, s ⊆ names (f_ids f) ∧ (f_m f ≤ N.of_nat (size s))%N ∧ approves f b s.
Proof.
  intros Hb. destruct (bv_approved _ _ _ Hb) as (s & Hs & Hm). exists s.
  split; [by eapply block_signers_seats|]. split; [done|].
  apply block_signers_spec in Hs as (bs & Hbs & Hs). exists bs. split; [done|].
  intros m Hin. destruct (Hs m Hin) as (id & [? ?]%find_member_some & ?). eauto.
Qed.

(** ** Restore consents *)

(** The block moves the seat's transport anchor to [pk]. *)
Definition reanchors (b : ChainBlock) (m pk : string) : Prop :=
  ∃ op ipk relays consent, change b = Membership op m ipk (Some pk) relays consent ∧ pk ≠ "".

Lemma working_anchors_snoc bs b :
  working_anchors (bs ++ [b]) = working_anchors_step (working_anchors bs) b.
Proof. unfold working_anchors. by rewrite foldl_snoc. Qed.

Lemma working_anchors_step_lookup wa b m :
  working_anchors_step wa b !! m = wa !! m ∨
  ∃ pk, reanchors b m pk ∧ working_anchors_step wa b !! m = Some pk.
Proof.
  unfold working_anchors_step, reanchors.
  destruct (change b) as [| |op mem ipk [pk|] relays consent| | |]; try by left.
  destruct (str_empty pk) eqn:Ee; [by left|].
  destruct (decide (mem = m)) as [->|]; [right|left; by rewrite lookup_insert_ne].
  exists pk. split; [|by rewrite lookup_insert_eq]. exists op, ipk, relays, consent.
  split; [done|]. by intros ->.
Qed.

Lemma reanchors_lookup wa b m pk : reanchors b m pk → working_anchors_step wa b !! m = Some pk.
Proof.
  intros (op & ipk & relays & consent & Hc & Hne). unfold working_anchors_step. rewrite Hc.
  destruct pk; [done|]. simpl. by rewrite lookup_insert_eq.
Qed.

(** An anchor once moved away from [p] is [p] again only by a block that
    moves it there. *)
Lemma anchor_stays_away ids pre b1 mid m pk p :
  reanchors b1 m pk → pk ≠ p → (∀ b, b ∈ mid → ¬ reanchors b m p) →
  anchor_of ids (pre ++ b1 :: mid) m ≠ p.
Proof.
  intros H1 Hne Hmid.
  assert (∃ q, working_anchors (pre ++ b1 :: mid) !! m = Some q ∧ q ≠ p) as (q & Hq & Hqp).
  { induction mid as [|b mid IH] using rev_ind.
    - rewrite working_anchors_snoc. exists pk. split; [by apply reanchors_lookup|done].
    - rewrite app_comm_cons, app_assoc, working_anchors_snoc.
      destruct IH as (q & Hq & Hqp); [intros; apply Hmid; set_solver|].
      destruct (working_anchors_step_lookup (working_anchors (pre ++ b1 :: mid)) b m)
        as [E|(pk' & Hr & E)]; rewrite E; [eauto|]. exists pk'. split; [done|].
      intros ->. apply (Hmid b); [set_solver|done]. }
  unfold anchor_of. by rewrite Hq.
Qed.

Lemma consent_spends_prev c working op m ipk npk relays consent h p sig :
  c = Membership op m ipk npk relays (Some consent) →
  parse_restore_consent consent = Some (V2 h p sig) →
  consent_spends c working = Ok tt → working m = p.
Proof.
  intros -> Hp. unfold consent_spends. rewrite Hp. intros Hc. run_inv Hc. to_prop. done.
Qed.

Lemma accepted_approves pre b post w f :
  walk_chain (pre ++ b :: post) = Ok w → pre ≠ [] → head pre ≫= founding_of = Some f →
  ∃ s, s ⊆ names (f_ids f) ∧ (f_m f ≤ N.of_nat (size s))%N ∧ approves f b s.
Proof.
  intros Hw Hne Hf. destruct (walk_chain_repr _ _ Hw) as [f' Hr].
  destruct (walk_chain_valid _ _ _ _ _ Hw Hr Hne) as (w0 & _ & Hr0 & Hb).
  assert (f' = f) as ->.
  { destruct (wr_genesis _ _ _ Hr0) as (g & rest & -> & Hg). simpl in Hf. congruence. }
  by eapply block_valid_approves.
Qed.

(** ** Properties *)

(** C28: The founding is unanimous and names its republic.  A verified
    genesis has pairwise distinct member names, a threshold between 1 and
    the number of seats, a republic id that its own content hashes to, and
    a valid signature of every single seat over the founding table. *)
Theorem genesis_unanimous g hd :
  verify_genesis g = Ok hd →
  ∃ f bs, founding_of g = Some f ∧ NoDup (mi_member <$> f_ids f) ∧
    (0 < f_m f ≤ len (f_ids f))%N ∧
    republic_id (f_name f) (f_m f) (f_n f) (f_ids f) = Some (f_rid f) ∧
    approval_bytes (f_rid f) 0 (change g) = Some bs ∧
    ∀ id, id ∈ f_ids f → signed_by id bs (sigs g).
Proof.
  intros Hv. destruct (genesis_facts _ _ Hv) as (f & bs & Hf & Hr & Hm & Hn & Hb & Hs & Hnd).
  exists f, bs. split; [done|]. split; [done|]. split; [lia|]. split; [done|]. split; [done|].
  intros id Hid. pose proof (find_member_nodup _ _ Hnd Hid) as Hfm.
  assert (mi_member id ∈ valid_signers (f_ids f) bs (sigs g)) as Hin.
  { rewrite Hs. by eapply find_member_names. }
  apply valid_signers_spec in Hin as (id' & Hf' & Hsg). congruence.
Qed.

(** C4: Nothing passes below the threshold.  Behind every block after the
    genesis of an accepted chain stand at least m distinct seats of the
    founding table, each of which signed this change at this height with
    its anchored key, the one exception being the seat a restore block
    returns, which may stand behind it by its verified consent instead. *)
Theorem block_approved pre b post w f :
  walk_chain (pre ++ b :: post) = Ok w → pre ≠ [] → head pre ≫= founding_of = Some f →
  ∃ s, s ⊆ names (f_ids f) ∧ (f_m f ≤ N.of_nat (size s))%N ∧ approves f b s.
Proof.
  apply accepted_approves.
Qed.

(** C11: A fork names its culprits.  If two accepted chains of one founding
    carry blocks at some position, then at least 2m - n seats stand behind
    both of them; so two conflicting blocks at one height need that many
    members to have approved both. *)
Theorem fork_accountable pre1 b1 post1 w1 pre2 b2 post2 w2 f :
  walk_chain (pre1 ++ b1 :: post1) = Ok w1 → pre1 ≠ [] → head pre1 ≫= founding_of = Some f →
  walk_chain (pre2 ++ b2 :: post2) = Ok w2 → pre2 ≠ [] → head pre2 ≫= founding_of = Some f →
  ∃ both, both ⊆ names (f_ids f) ∧ approves f b1 both ∧ approves f b2 both ∧
    (2 * f_m f ≤ N.of_nat (size both) + len (f_ids f))%N.
Proof.
  intros W1 N1 F1 W2 N2 F2.
  destruct (accepted_approves _ _ _ _ _ W1 N1 F1) as (s1 & S1 & M1 & a1 & A1 & Q1).
  destruct (accepted_approves _ _ _ _ _ W2 N2 F2) as (s2 & S2 & M2 & a2 & A2 & Q2).
  exists (s1 ∩ s2). split; [set_solver|]. split; [exists a1; split; [done|]; intros; apply Q1; set_solver|].
  split; [exists a2; split; [done|]; intros; apply Q2; set_solver|].
  pose proof (quorums_meet _ _ _ S1 S2). unfold len. lia.
Qed.

(** A sealed consent does not seal again while its seat stays away from
    the anchor it spent.  If a restore block moves a seat to an anchor other
    than the one its v2 consent names, and no block of the chain in between
    moves the seat back to that anchor, then no later block of the same
    accepted chain carries that consent for the seat. *)
Theorem consent_not_replayed pre b1 mid b2 post w op1 m ipk1 npk relays1 c h p sg op2 ipk2 npk2 relays2 :
  walk_chain (pre ++ b1 :: mid ++ b2 :: post) = Ok w → pre ≠ [] →
  change b1 = Membership op1 m ipk1 (Some npk) relays1 (Some c) →
  parse_restore_consent c = Some (V2 h p sg) → npk ≠ "" → npk ≠ p →
  (∀ b, b ∈ mid → ¬ reanchors b m p) →
  ¬ (change b2 = Membership op2 m ipk2 npk2 relays2 (Some c)).
Proof.
  intros Hw Hne H1 Hc Hn Hp Hmid H2.
  destruct (walk_chain_repr _ _ Hw) as [f Hr].
  assert (pre ++ b1 :: mid ++ b2 :: post = (pre ++ b1 :: mid) ++ b2 :: post) as E
    by (by rewrite <-app_assoc).
  rewrite E in Hw, Hr.
  destruct (walk_chain_valid _ _ _ _ _ Hw Hr) as (w0 & _ & _ & Hb); [by destruct pre|].
  pose proof (consent_spends_prev _ _ _ _ _ _ _ _ _ _ _ H2 Hc (bv_spends _ _ _ Hb)) as Ha.
  revert Ha. apply (anchor_stays_away _ pre b1 mid m npk p); [|done|done].
  exists op1, ipk1, relays1, (Some c). done.
Qed.
End Approvals.
