(* ===== verification/Tamper.v ===== *)
(** * Tamper evidence

    A head hash commits to the whole chain under it: each link hashes the
    block with its [prev], the genesis binds its table by signature bytes and
    its name by the republic id.  Two accepted chains with one head hash are
    the same chain, block by block, up to the order a block lists its
    signatures in; otherwise the two chains exhibit a collision of the
    hash. *)

From S2P Require Import Prelude Bytes Strs Json Env Surface Roster Chain Checkpoint Vault Cuts Ledger Verify Walk WalkProps Approvals.
#[local] Open Scope string_scope.
#[local] Open Scope list_scope.

(** The same block, whatever the order of its signatures. *)
Record block_same (b1 b2 : ChainBlock) : Prop := {
  same_height : height b1 = height b2;
  same_prev : prev b1 = prev b2;
  same_change : change b1 = change b2;
  same_sigs : sigs b1 ≡ₚ sigs b2;
}.

#[export] Instance block_same_equiv : Equivalence block_same.
Proof.
  split.
  - by intros b.
  - intros b1 b2 []. by split.
  - intros b1 b2 b3 [] []. split; etrans; eauto.
Qed.

Lemma att_pairs_perm l1 l2 : att_pair <$> l1 ≡ₚ att_pair <$> l2 → l1 ≡ₚ l2.
Proof.
  intros Hp. pose (back := λ p : string * string, {| att_member := p.1; att_sig := p.2 |}).
  assert (Hb : ∀ l : list RosterAttestation, back <$> (att_pair <$> l) = l).
  { intros l. rewrite <-list_fmap_compose. rewrite <-(list_fmap_id l) at 2.
    apply list_fmap_ext. intros i [] _. done. }
  rewrite <-(Hb l1), <-(Hb l2). by apply fmap_Permutation.
Qed.

Section Tamper.
Context `{Env, VaultSerde}.
Hypothesis Hjson : json_faithful.
Hypothesis Hhex : hex_faithful.

(** Equal link hashes are equal links. *)
Lemma block_hash_inj r1 b1 r2 b2 h :
  block_hash r1 b1 = Some h → block_hash r2 b2 = Some h →
  collision ∨
  (height b1 = height b2 ∧ prev b1 = prev b2 ∧
   signed_content r1 (height b1) (change b1) = signed_content r2 (height b2) (change b2) ∧
   sigs b1 ≡ₚ sigs b2).
Proof.
  unfold block_hash. intros (l1 & L1 & ->)%fmap_Some (l2 & L2 & E)%fmap_Some.
  destruct (content_hash_inj l1 l2 Hhex E) as [->|]; [right|by left].
  destruct (block_link_bytes_inj Hjson _ _ _ _ _ L1 L2) as (Hh & Hp & Hs & Ha).
  split; [done|]. split; [done|]. split; [done|]. by apply att_pairs_perm.
Qed.

Lemma republic_id_inj n1 m1 k1 i1 n2 m2 k2 i2 rid :
  republic_id n1 m1 k1 i1 = Some rid → republic_id n2 m2 k2 i2 = Some rid →
  collision ∨
  (n1 = n2 ∧ m1 = m2 ∧ k1 = k2 ∧
   ((λ i, (mi_identity_pk i, mi_nostr_pk i)) <$> i1) ≡ₚ ((λ i, (mi_identity_pk i, mi_nostr_pk i)) <$> i2)).
Proof.
  unfold republic_id. destruct (_ +++ _) as [b1|] eqn:E1; [|done].
  destruct (put_tag _ +++ republic_id_bytes n2 _ _ _) as [b2|] eqn:E2; [|done].
  intros [= <-] [= E%Hhex]. destruct (decide (b1 = b2)) as [->|]; [right|left; by exists b1, b2].
  destruct (put_tag_peel _ _ _ _ E1 E2) as (b' & R1 & R2).
  by eapply republic_id_bytes_inj.
Qed.

(** A verified genesis leaves no slack between its feature list and the
    feature run its signatures cover. *)
Lemma genesis_feature_run g hd f :
  verify_genesis g = Ok hd → founding_of g = Some f →
  feature_run (keyed (f_ids f)) (f_features f) = f_features f.
Proof.
  unfold verify_genesis, founding_of. intros Hv Hf. destruct (change g); simplify_eq/=.
  run_inv Hv. unfold check_roster_keys in *. unfold feature_run.
  destruct (forallb _ identities) eqn:Ek.
  - assert (keyed identities = false) as ->; [|by destruct features].
    unfold keyed. apply existsb_false. intros i Hi. rewrite forallb_true in Ek.
    by rewrite (Ek _ Hi).
  - run_inv Hrun. destruct features; done.
Qed.

Lemma genesis_same g1 g2 hd1 hd2 f1 f2 :
  verify_genesis g1 = Ok hd1 → verify_genesis g2 = Ok hd2 →
  founding_of g1 = Some f1 → founding_of g2 = Some f2 →
  signed_content (f_rid f1) (height g1) (change g1) = signed_content (f_rid f2) (height g2) (change g2) →
  collision ∨ change g1 = change g2.
Proof.
  intros V1 V2 F1 F2 Hs.
  pose proof (genesis_feature_run _ _ _ V1 F1) as R1.
  pose proof (genesis_feature_run _ _ _ V2 F2) as R2.
  destruct (genesis_facts _ _ V1) as (f1' & ? & F1' & I1 & _).
  destruct (genesis_facts _ _ V2) as (f2' & ? & F2' & I2 & _).
  rewrite F1 in F1'. rewrite F2 in F2'. injection F1' as <-. injection F2' as <-.
  unfold founding_of in F1, F2. destruct (change g1), (change g2); try done.
  injection F1 as <-. injection F2 as <-.
  simpl in *. rewrite R1, R2 in Hs. injection Hs as -> -> -> -> -> -> ->.
  destruct (republic_id_inj _ _ _ _ _ _ _ _ _ I1 I2) as [|(-> & _)]; [by left|by right].
Qed.

Lemma signed_content_change r b :
  founding_of b = None → signed_content r (height b) (change b) = SignedChange r (height b) (change b).
Proof. unfold founding_of, signed_content. by destruct (change b). Qed.

(** The induction: equal hashes of the last blocks propagate to the
    genesis through the [prev] links. *)
Lemma same_head_same_chain bs1 bs2 w1 w2 :
  walk_chain bs1 = Ok w1 → walk_chain bs2 = Ok w2 →
  hd_hash (w_head w1) = hd_hash (w_head w2) → collision ∨ Forall2 block_same bs1 bs2.
Proof.
  revert bs2 w1 w2. induction bs1 as [|b1 pre1 IH] using rev_ind; intros bs2 w1 w2 W1 W2 Hh; [done|].
  destruct bs2 as [|b2 pre2 _] using rev_ind; [done|].
  destruct (walk_chain_repr _ _ W1) as [f1 R1]. destruct (walk_chain_repr _ _ W2) as [f2 R2].
  pose proof (wr_hash _ _ _ R1) as H1. pose proof (wr_hash _ _ _ R2) as H2.
  rewrite last_snoc in H1, H2. simpl in H1, H2. rewrite <-Hh in H2.
  destruct (block_hash_inj _ _ _ _ _ H1 H2) as [|(Eh & Ep & Es & Ea)]; [by left|].
  assert (Hlen : length pre1 = length pre2).
  { assert (height b1 = N.of_nat (length pre1)) as A1.
    { eapply (wr_heights _ _ _ R1), list_lookup_middle; done. }
    assert (height b2 = N.of_nat (length pre2)) as A2.
    { eapply (wr_heights _ _ _ R2), list_lookup_middle; done. }
    lia. }
  destruct (decide (pre1 = [])) as [->|Hne1].
  - destruct pre2; [|done]. change ([] ++ [?b]) with [b] in *. rewrite walk_chain_single in W1, W2.
    unfold genesis_walk in W1, W2.
    apply obind_ok in W1 as (hd1 & V1 & _). apply obind_ok in W2 as (hd2 & V2 & _).
    destruct (wr_genesis _ _ _ R1) as (? & ? & [= <- _] & F1).
    destruct (wr_genesis _ _ _ R2) as (? & ? & [= <- _] & F2).
    destruct (genesis_same _ _ _ _ _ _ V1 V2 F1 F2 Es) as [|Ec]; [by left|right].
    constructor; [by constructor|constructor].
  - assert (pre2 ≠ []) as Hne2 by (destruct pre1, pre2; done).
    destruct (walk_chain_valid _ _ _ _ _ W1 R1 Hne1) as (w1' & W1' & R1' & B1).
    destruct (walk_chain_valid _ _ _ _ _ W2 R2 Hne2) as (w2' & W2' & R2' & B2).
    assert (hd_hash (w_head w1') = hd_hash (w_head w2')) as Hh'.
    { pose proof (wr_hash _ _ _ R1') as L1. pose proof (wr_hash _ _ _ R2') as L2.
      destruct (bv_link _ _ _ B1) as (l1 & E1 & K1). destruct (bv_link _ _ _ B2) as (l2 & E2 & K2).
      rewrite E1 in L1. rewrite E2 in L2. simpl in L1, L2. congruence. }
    destruct (IH pre2 w1' w2' W1' W2' Hh') as [|Hs]; [by left|right].
    apply Forall2_app; [done|]. constructor; [|constructor].
    rewrite !signed_content_change in Es by apply B1 || apply B2.
    injection Es as _ _ Ec. by constructor.
Qed.

(** ** Properties *)

(** C3: The head hash commits to the whole chain.  Two accepted chains with
    the same head hash have the same length and agree block by block in
    height, link, change and, up to their order, signatures; if they do
    not, two different byte strings with one SHA-256 digest exist. *)
Theorem head_commits_chain bs1 bs2 w1 w2 :
  walk_chain bs1 = Ok w1 → walk_chain bs2 = Ok w2 →
  hd_hash (w_head w1) = hd_hash (w_head w2) → collision ∨ Forall2 block_same bs1 bs2.
Proof. apply same_head_same_chain. Qed.

(** The republic id commits to the founding.  Two founding tables with
    one republic id have the same name, threshold and size and the same
    multiset of identity and transport keys, or exhibit a collision. *)
Theorem republic_id_commits n1 m1 k1 i1 n2 m2 k2 i2 rid :
  republic_id n1 m1 k1 i1 = Some rid → republic_id n2 m2 k2 i2 = Some rid →
  collision ∨
  (n1 = n2 ∧ m1 = m2 ∧ k1 = k2 ∧
   ((λ i, (mi_identity_pk i, mi_nostr_pk i)) <$> i1) ≡ₚ ((λ i, (mi_identity_pk i, mi_nostr_pk i)) <$> i2)).
Proof. apply republic_id_inj. Qed.
End Tamper.
