(* ===== verification/Prune.v ===== *)
(** * Pruning

    A holder that pruned to a compaction cut keeps the cut block, the blob
    its hash commits to and, for a folded cut, the ratified wiki tree
    (crates/molt-engine/src/chain/verify.rs, [walk_suffix_chain];
    chain/wiki_base.rs, [fold_cut]).  The theorem of this file is that
    nothing else is needed: on every continuation of the chain the pruned
    holder and the holder of the full history give the same verdict, reach
    the same head and guard the same proposal ids, cuts of cuts included. *)

From S2P Require Import Prelude Bytes Strs Json Env Surface Roster Chain Checkpoint WikiFold Vault Cuts Ledger Verify Walk WalkProps Approvals.
#[local] Open Scope string_scope.
#[local] Open Scope list_scope.

(** ** Groups *)

Section Groups.
Implicit Types l : list (Surface * list (N * Value)).

Lemma set_group_same sf g l : find_group sf l = Some g → set_group sf g l = l.
Proof.
  induction l as [|[s g'] l IH]; simpl; [done|]. case_decide; [by intros [= ->]|].
  intros Hf. by rewrite IH.
Qed.

Lemma find_set_group sf g l : is_Some (find_group sf l) → find_group sf (set_group sf g l) = Some g.
Proof.
  induction l as [|[s g'] l IH]; simpl; [by intros [? [=]]|].
  case_decide; simpl; [by rewrite decide_True|]. intros Hf. rewrite decide_False by done. auto.
Qed.

Lemma find_set_group_ne sf sf' g l :
  sf ≠ sf' → find_group sf (set_group sf' g l) = find_group sf l.
Proof.
  intros Hne. induction l as [|[s g'] l IH]; simpl; [done|].
  destruct (decide (s = sf')); simpl; [by rewrite !decide_False by congruence|]. by rewrite IH.
Qed.

Lemma set_set_group sf g g' l : set_group sf g (set_group sf g' l) = set_group sf g l.
Proof.
  induction l as [|[s h] l IH]; simpl; [done|].
  destruct (decide (s = sf)) eqn:E; simpl; rewrite E; [done|]. by rewrite IH.
Qed.

Lemma set_group_comm sf sf' g g' l :
  sf ≠ sf' → set_group sf g (set_group sf' g' l) = set_group sf' g' (set_group sf g l).
Proof.
  intros Hne. induction l as [|[s h] l IH]; simpl; [done|].
  destruct (decide (s = sf')) eqn:E1, (decide (s = sf)) eqn:E2; simpl; rewrite ?E1, ?E2; try done.
  - congruence.
  - by rewrite IH.
Qed.

Lemma insert_set_group sf sf' g l :
  sf ≠ sf' → insert_group sf (set_group sf' g l) = set_group sf' g (insert_group sf l).
Proof.
  intros Hne. induction l as [|[s h] l IH]; simpl; [by rewrite decide_False|].
  destruct (decide (s = sf')) eqn:E1; simpl; destruct (rank_gt _ _); simpl; rewrite ?E1, ?IH; try done.
  - by rewrite decide_False.
  - by rewrite decide_False.
Qed.

Lemma exists_set_group sf sf' g l :
  existsb (λ x, bool_decide (x.1 = sf)) (set_group sf' g l) = existsb (λ x, bool_decide (x.1 = sf)) l.
Proof.
  induction l as [|[s h] l IH]; simpl; [done|]. destruct (decide (s = sf')); simpl; [done|]. by rewrite IH.
Qed.

Lemma find_group_exists sf g l :
  find_group sf l = Some g → existsb (λ x, bool_decide (x.1 = sf)) l = true.
Proof.
  induction l as [|[s h] l IH]; simpl; [done|]. case_decide; [by rewrite bool_decide_eq_true_2|].
  intros. by rewrite IH, orb_true_r.
Qed.

Lemma find_insert_group_ne sf sf' l : sf ≠ sf' → find_group sf (insert_group sf' l) = find_group sf l.
Proof.
  intros Hne. induction l as [|[s h] l IH]; simpl; [by rewrite decide_False|].
  destruct (rank_gt _ _); simpl; [by rewrite decide_False|]. by rewrite IH.
Qed.

(** An entry of the memory group is appended. *)
Lemma fold_applied_memory id p g l :
  find_group Memory l = Some g →
  fold_applied Memory id p l = set_group Memory (g ++ [(id, p)]) l.
Proof. intros Hf. unfold fold_applied. by rewrite (find_group_exists _ _ _ Hf), Hf. Qed.

(** An entry of another group leaves the memory group alone and does not
    depend on it. *)
Lemma fold_applied_other sf id p g l :
  sf ≠ Memory →
  fold_applied sf id p (set_group Memory g l) = set_group Memory g (fold_applied sf id p l) ∧
  find_group Memory (fold_applied sf id p l) = find_group Memory l.
Proof.
  intros Hne. unfold fold_applied. rewrite exists_set_group.
  set (k := if existsb _ l then l else insert_group sf l).
  assert ((if existsb (λ x, bool_decide (x.1 = sf)) l then set_group Memory g l
           else insert_group sf (set_group Memory g l)) = set_group Memory g k) as ->.
  { unfold k. destruct (existsb _ l); [done|]. by apply insert_set_group. }
  rewrite find_set_group_ne by done.
  assert (Hk : find_group Memory k = find_group Memory l).
  { unfold k. destruct (existsb _ l); [done|]. by apply find_insert_group_ne. }
  destruct (find_group sf k) as [h|]; [|done].
  rewrite set_group_comm by done. split; [done|]. by rewrite find_set_group_ne.
Qed.

Lemma frozen_memory s : groups_frozen s → is_Some (find_group Memory (cs_applied s)).
Proof.
  intros Hg. assert (Memory ∈ (cs_applied s).*1) as Hm.
  { destruct Hg as [->| ->]; unfold CHECKPOINT_V7_SURFACES, ALL; set_solver. }
  clear Hg. revert Hm. generalize (cs_applied s). induction l as [|[sf g] l IH]; simpl.
  - by rewrite elem_of_nil.
  - intros Hm. case_decide; [eauto|]. apply IH. set_solver.
Qed.
End Groups.

(** ** The simulation *)

Section Prune.
Context `{Env, VaultSerde}.

(** The memory groups of the two holders: [g1] the raw history, [g2] what
    the cut left of it.  Any continuation summarizes alike, and before the
    first folded cut they are one list. *)
Definition mem_rel (folded : bool) (base : tree) (g1 g2 : list (N * Value)) : Prop :=
  (∀ sfx, no_base sfx → wiki_summarize (g1 ++ sfx) ∅ = wiki_summarize (g2 ++ sfx) base) ∧
  (folded = false → g1 = g2).

(** The running states of the two holders. *)
Definition state_sim (folded : bool) (base : tree) (s1 s2 : CheckpointState) : Prop :=
  ∃ g1 g2 c u,
    find_group Memory (cs_applied s1) = Some g1 ∧ mem_rel folded base g1 g2 ∧
    c ≡ₚ consumed_ids s1 ∧
    s2 = with_upto u (with_consumed c (with_applied (set_group Memory g2 (cs_applied s1)) s1)).

Record walk_sim (base : tree) (w1 w2 : ChainWalk) : Prop := {
  sim_head : w_head w2 = w_head w1;
  sim_seen : w_seen w2 = w_seen w1;
  sim_state : state_sim (w_folded_cut w1) base (w_running w1) (w_running w2);
  sim_cut : w_folded_cut w2 = w_folded_cut w1;
  sim_vault1 : w_vault w1 = None;
  sim_vault2 : w_vault w2 = None;
  sim_floor1 : w_floor w1 = None;
  sim_floor2 : ∀ fl, w_floor w2 = Some fl → (fl ≤ hd_height (w_head w1))%N;
}.

(** The block brings no base entry of its own into the memory group. *)
Definition brings_no_base (b : ChainBlock) : Prop :=
  ∀ id p, change b = Applied id Memory p → op_of p ≠ Some WIKI_BASE_OP.

Lemma mem_rel_snoc fc base g1 g2 e :
  op_of e.2 ≠ Some WIKI_BASE_OP → mem_rel fc base g1 g2 → mem_rel fc base (g1 ++ [e]) (g2 ++ [e]).
Proof.
  intros He [H1 H2]. split.
  - intros sfx Hs. rewrite <-!app_assoc. apply H1. by constructor.
  - intros Hf. by rewrite H2.
Qed.

Lemma mem_rel_weaken fc fc' base g1 g2 : mem_rel fc base g1 g2 → mem_rel (fc || fc') base g1 g2.
Proof. intros [H1 H2]. split; [done|]. intros [Hf _]%orb_false_iff. auto. Qed.

(** One block folds alike into both states. *)
Lemma fold_one_sim fc base s1 s2 b :
  state_sim fc base s1 s2 → brings_no_base b →
  (fold_one s1 b None).2 = (fold_one s2 b None).2 ∧
  state_sim fc base (fold_one s1 b None).1 (fold_one s2 b None).1.
Proof.
  intros (g1 & g2 & c & u & Hf & Hm & Hc & ->) Hb.
  assert (Hsame : state_sim fc base s1
    (with_upto u (with_consumed c (with_applied (set_group Memory g2 (cs_applied s1)) s1)))).
  { exists g1, g2, c, u. done. }
  unfold fold_one. destruct (change b) as [|id sf p|op m ipk npk relays consent| | |] eqn:Ec; try done.
  - simpl. split; [done|]. destruct (decide (sf = Memory)) as [->|Hne].
    + exists (g1 ++ [(id, p)]), (g2 ++ [(id, p)]), (c ++ [id]), u.
      rewrite (fold_applied_memory _ _ g1) by done.
      rewrite (fold_applied_memory _ _ g2) by (by apply find_set_group; eauto). simpl.
      split; [apply find_set_group; eauto|]. split; [apply mem_rel_snoc; [by apply (Hb id)|done]|].
      split; [by rewrite Hc|]. by rewrite !set_set_group.
    + destruct (fold_applied_other sf id p g2 (cs_applied s1) Hne) as [E1 E2].
      exists g1, g2, (c ++ [id]), u. simpl. rewrite E2. split; [done|]. split; [done|].
      split; [by rewrite Hc|]. by rewrite E1.
  - simpl. destruct (apply_membership (cs_roster s1) op m ipk); simpl; try done.
    split; [done|]. exists g1, g2, c, u. done.
Qed.

Lemma state_at_plain s c u u' :
  c ≡ₚ consumed_ids s → state_at (with_upto u (with_consumed c s)) u' = state_at s u'.
Proof.
  intros Hc. unfold state_at. simpl. unfold with_upto, with_consumed. simpl. f_equal.
  apply (Sorted_unique N.le); [apply Sorted_merge_sort, _..|]. by rewrite !merge_sort_Permutation.
Qed.

Lemma with_applied_same s : with_applied (cs_applied s) s = s.
Proof. by destruct s. Qed.

(** A cut folds alike for both holders. *)
Lemma fold_cut_agree fc base ob s1 s2 upto kind :
  default ∅ ob = base →
  state_sim fc base s1 s2 → cut_vault kind = false → (fc = true → cut_wiki kind = true) →
  fold_cut (state_at s1 upto) kind Held_default = fold_cut (state_at s2 upto) kind (Held_of_wiki ob).
Proof.
  intros <- (g1 & g2 & c & u & Hf & [Hm1 Hm2] & Hc & ->) Hv Hk. rewrite state_at_plain by done.
  unfold fold_cut. rewrite Hv. destruct (cut_wiki kind) eqn:Ew.
  - unfold wiki_summarize_state. simpl. rewrite Hf, find_set_group by eauto.
    pose proof (Hm1 [] ltac:(constructor)) as Hs. rewrite !app_nil_r in Hs. rewrite Hs.
    destruct (wiki_summarize g2 (default ∅ ob)) as [[[folded t] r]| |]; simpl; [|done..].
    unfold with_applied, state_at, with_upto, with_consumed. simpl. by rewrite set_set_group.
  - assert (fc = false) as -> by (destruct fc; [specialize (Hk eq_refl); congruence|done]).
    rewrite <-Hm2 by done. rewrite set_group_same by done. by rewrite with_applied_same.
Qed.

(** The hash a cut must carry is the same for both holders. *)
Lemma hash_walk_sim fc base ob s1 s2 upto kind :
  default ∅ ob = base →
  state_sim fc base s1 s2 → cut_vault kind = false → (fc = true → cut_wiki kind = true) →
  hash_walk_state s1 upto kind Held_default = hash_walk_state s2 upto kind (Held_of_wiki ob).
Proof. intros. unfold hash_walk_state. by rewrite (fold_cut_agree fc base ob s1 s2). Qed.

Lemma check_cut_sim base ob w1 w2 b hd c :
  default ∅ ob = base → walk_sim base w1 w2 →
  verify_next (w_head w1) b (w_seen w1) = Ok (hd, c) →
  check_cut w1 b Held_default = check_cut w2 b (Held_of_wiki ob).
Proof.
  intros Hob [Eh Es St Ec V1 V2 F1 F2] Hv.
  apply verify_next_ok in Hv as (Vh & _ & _ & Vc & _). apply check_change_ok in Vc as (_ & _ & _ & Cu).
  unfold check_cut. destruct (cut_of (change b)) as [[[u h] k]|]; [|done].
  specialize (Cu _ _ _ eq_refl). unfold check_cut_kind. rewrite V1, V2, Ec. simpl.
  destruct (cut_vault k) eqn:Ev; [done|]. simpl.
  destruct (w_folded_cut w1 && negb (cut_wiki k)) eqn:Ek; [done|]. simpl.
  unfold check_cut_content. rewrite F1.
  assert (match w_floor w2 with Some fl => (u <? fl)%N | None => false end = false) as ->.
  { destruct (w_floor w2) as [fl|]; [|done]. apply N.ltb_ge. specialize (F2 fl eq_refl). lia. }
  rewrite (hash_walk_sim _ _ _ _ _ u k Hob St Ev); [done|].
  intros Hfc. rewrite Hfc in Ek. simpl in Ek. by apply negb_false_iff in Ek.
Qed.

Lemma step_checks_sim base ob w1 w2 b :
  default ∅ ob = base → walk_sim base w1 w2 →
  step_checks w1 b Held_default = step_checks w2 b (Held_of_wiki ob).
Proof.
  intros Hob Hs. unfold step_checks. rewrite (sim_head _ _ _ Hs), (sim_seen _ _ _ Hs).
  destruct (verify_next (w_head w1) b (w_seen w1)) as [[hd c]| |] eqn:Hv; [|done..]. simpl.
  rewrite (consent_spends_ext (change b) (walk_working_anchor (w_running w2))
             (walk_working_anchor (w_running w1))).
  - by rewrite (check_cut_sim base ob w1 w2 b hd c).
  - destruct (sim_state _ _ _ Hs) as (g1 & g2 & cs & u & _ & _ & _ & ->). done.
Qed.

Lemma step_sim base ob w1 w2 b :
  default ∅ ob = base → walk_sim base w1 w2 → brings_no_base b →
  (step w1 b Held_default).2 = (step w2 b (Held_of_wiki ob)).2 ∧
  ((step w1 b Held_default).2 = Ok tt →
   walk_sim base (step w1 b Held_default).1 (step w2 b (Held_of_wiki ob)).1).
Proof.
  intros Hob Hs Hb. unfold step. rewrite <-(step_checks_sim base ob w1 w2 b) by done.
  destruct (step_checks w1 b Held_default) as [[hd c]| |] eqn:Hc; [|done..].
  assert (Hhd : (hd_height (w_head w1) ≤ hd_height hd)%N).
  { unfold step_checks in Hc. run_inv Hc. subst.
    match goal with Hv : verify_next _ _ _ = _ |- _ =>
      apply verify_next_ok in Hv as (Vh & _ & _ & _ & _ & _ & _ & ->) end. simpl. lia. }
  destruct Hs as [Eh Es St Ec V1 V2 F1 F2].
  destruct (cut_of (change b)) as [[[u h] k]|] eqn:Ecut; simpl.
  - rewrite !(fold_one_cut _ _ _ _ Ecut). simpl. split; [done|]. intros _.
    constructor; simpl; try done.
    + by rewrite Es.
    + destruct St as (g1 & g2 & cs & u' & ? & Hm & ? & ?). exists g1, g2, cs, u'.
      split; [done|]. split; [by apply mem_rel_weaken|done].
    + by rewrite Ec.
    + intros fl Hfl. specialize (F2 fl Hfl). lia.
  - rewrite V1, V2. destruct (fold_one_sim _ _ _ _ b St Hb) as [E1 E2].
    destruct (fold_one (w_running w1) b None) as [r1 o1], (fold_one (w_running w2) b None) as [r2 o2].
    simpl in *. subst o2. destruct o1 as [[]| |]; simpl; (split; [done|]); try done. intros _.
    constructor; simpl; try done.
    + by rewrite Es.
    + intros fl Hfl. specialize (F2 fl Hfl). lia.
Qed.

(** What the two holders report of their walk. *)
Definition report (w : ChainWalk) : ChainHead * gset N := (w_head w, w_seen w).

Lemma steps_sim base ob w1 w2 bs :
  default ∅ ob = base → walk_sim base w1 w2 → Forall brings_no_base bs →
  (let? w := steps w1 bs Held_default in Ok (report w)) =
  (let? w := steps w2 bs (Held_of_wiki ob) in Ok (report w)).
Proof.
  intros Hob. revert w1 w2. induction bs as [|b bs IH]; intros w1 w2 Hs Hb; simpl.
  - unfold report. by rewrite (sim_head _ _ _ Hs), (sim_seen _ _ _ Hs).
  - apply Forall_cons in Hb as [Hb Hbs]. destruct (step_sim base ob w1 w2 b Hob Hs Hb) as [E1 E2].
    destruct (step w1 b Held_default) as [w1' r1], (step w2 b (Held_of_wiki ob)) as [w2' r2].
    simpl in *. subst r2. destruct r1 as [[]| |]; simpl; try done. apply IH; auto.
Qed.

(** ** The anchor *)

Lemma unkeyed_vault f : vault_of f = None ↔ keyed (f_ids f) = false.
Proof.
  unfold vault_of, ctx_from_founding, keyed. split.
  - destruct (forallb _ _) eqn:E; [|done]. intros _. rewrite forallb_true in E.
    apply existsb_false. intros i Hi. by rewrite (E i Hi).
  - intros Hk. rewrite existsb_false in Hk.
    assert (forallb (λ i, str_empty (mi_vault_pk i)) (f_ids f) = true) as ->; [|done].
    apply forallb_true. intros i Hi. by apply Hk, negb_false_iff in Hi.
Qed.

Lemma check_roster_refl ids ids' : (∀ i, i ∈ ids' → i ∈ ids) → check_roster ids ids' = Ok tt.
Proof.
  induction ids' as [|i ids' IH]; intros Hi; simpl; [done|].
  assert (existsb (λ f, bool_decide (f = i)) ids = true) as ->.
  { apply existsb_true. exists i. rewrite bool_decide_eq_true. split; [|done]. apply Hi. by left. }
  simpl. apply IH. intros. apply Hi. by right.
Qed.

(** What a cut leaves is the state it was taken of, its memory group
    replaced by one that continues alike. *)
Lemma fold_cut_sim s upto kind blob fc :
  is_Some (find_group Memory (cs_applied s)) → cut_vault kind = false →
  fold_cut (state_at s upto) kind Held_default = Ok (blob, fc) →
  checkpoint_state_hash blob = Some (fc_hash fc) ∧ cs_upto blob = upto ∧
  state_sim (cut_wiki kind) (default ∅ (fc_tree fc)) s blob.
Proof.
  intros [g Hg] Hv Hf. unfold fold_cut in Hf. rewrite Hv in Hf.
  destruct (cut_wiki kind) eqn:Ew.
  - unfold wiki_summarize_state in Hf. simpl in Hf. rewrite Hg in Hf.
    destruct (wiki_summarize g ∅) as [[[folded t] r]| |] eqn:Hs; try done. simpl in Hf.
    apply obind_ok in Hf as (h & Hh%expect_ok & [= <- <-]). simpl. split; [done|]. split; [done|].
    exists g, folded, (merge_sort N.le (consumed_ids s)), upto.
    split; [done|]. split; [|split; [apply merge_sort_Permutation|done]].
    split; [|done]. intros sfx Hx. symmetry. by eapply wiki_summarize_stages.
  - simpl in Hf. apply obind_ok in Hf as (h & Hh%expect_ok & [= <- <-]). simpl.
    split; [done|]. split; [done|]. exists g, g, (merge_sort N.le (consumed_ids s)), upto.
    split; [done|]. split; [done|]. split; [apply merge_sort_Permutation|].
    rewrite set_group_same by done. by rewrite with_applied_same.
Qed.

Lemma walk_chain_app pre post :
  pre ≠ [] →
  walk_chain (pre ++ post) = (let? w := walk_chain pre in steps w post Held_default).
Proof.
  intros Hne. destruct pre as [|g rest]; [done|]. unfold walk_chain. simpl.
  destruct (genesis_walk g); simpl; [|done..]. apply steps_app.
Qed.

Lemma valid_cut_signers f pre b c :
  block_valid f pre b → cut_of (change b) = Some c →
  ∃ bs, approval_bytes (f_rid f) (height b) (change b) = Some bs ∧
    (f_m f ≤ N.of_nat (size (valid_signers (f_ids f) bs (sigs b))))%N.
Proof.
  intros Hb Hc. destruct (bv_approved _ _ _ Hb) as (s & Hs & Hm).
  unfold block_signers in Hs. apply obind_ok in Hs as (bs & Hbs%expect_ok & Hs). exists bs.
  split; [done|]. destruct (change b); try done; by injection Hs as <-.
Qed.

(** The anchor checks pass on the blob of an accepted cut. *)
Lemma check_anchor_accepted f pre cp upto h kind w0 hd blob fc :
  walk_repr f pre w0 → head pre ≫= (λ g, founding_of g) = Some f →
  head pre = Some hd → is_ok (verify_genesis hd) = true →
  block_valid f pre cp → vault_of f = None →
  cut_of (change cp) = Some (upto, h, kind) →
  checkpoint_state_hash blob = Some (fc_hash fc) → fc_hash fc = h → cs_upto blob = upto →
  constitution (with_upto 0 blob) = constitution (base_of f) →
  check_anchor blob cp (f_rid f) = Ok kind.
Proof.
  intros Hr Hff Hhd Hg Hb Hvf Hcut Hh1 Hh2 Hu Hcon.
  rewrite Hhd in Hff. simpl in Hff.
  destruct (verify_genesis hd) as [hd0| |] eqn:Hv; try done.
  destruct (genesis_facts _ _ Hv) as (f' & bs0 & Hf' & Hrid & Hmn & Hn & _).
  assert (f' = f) as -> by congruence.
  destruct (bv_cut _ _ _ Hb _ _ _ Hcut) as (Hup & Hkv & _). rewrite Hvf in Hkv. simpl in Hkv.
  destruct (valid_cut_signers _ _ _ _ Hb Hcut) as (bs & Hbs & Hm).
  unfold constitution in Hcon. simpl in Hcon. injection Hcon as E1 E2 E3 E4 E5 E6 E7 E8 E9.
  unfold check_anchor. rewrite Hcut. simpl. rewrite Hu, N.eqb_refl, Hh1. simpl.
  rewrite bool_decide_eq_true_2 by done. simpl.
  rewrite (proj2 (N.eqb_neq _ _)) by lia. rewrite (proj2 (N.eqb_eq (height cp - 1) upto)) by lia. simpl.
  rewrite E1, E2, E3, E4, Hrid. simpl. rewrite bool_decide_eq_true_2, E8, bool_decide_eq_true_2 by done. simpl.
  rewrite (proj2 (N.eqb_neq (f_m f) 0)), (proj2 (N.ltb_ge (f_n f) (f_m f))), E9 by lia. simpl.
  rewrite (proj2 (N.eqb_neq (len (f_ids f)) 0)) by lia. simpl.
  rewrite (proj2 (N.eqb_eq _ _) Hn). simpl.
  apply unkeyed_vault in Hvf. rewrite Hvf, Hkv. simpl. rewrite check_roster_refl by done. simpl.
  rewrite Hbs. simpl. by rewrite (proj2 (N.ltb_ge _ _) Hm).
Qed.

Lemma state_sim_constitution fc base s1 s2 :
  state_sim fc base s1 s2 → constitution (with_upto 0 s2) = constitution (with_upto 0 s1).
Proof. intros (g1 & g2 & c & u & _ & _ & _ & ->). done. Qed.

(** After an accepted cut, the blob seeds a walk that simulates the one
    over the full history. *)
Lemma anchor_sim f pre cp w w0 upto h kind blob fc st :
  walk_repr f pre w0 → step w0 cp Held_default = (w, Ok tt) → vault_of f = None →
  (∀ hd, head pre = Some hd → is_ok (verify_genesis hd) = true) →
  cut_of (change cp) = Some (upto, h, kind) →
  checkpoint_state pre upto = Ok st → fold_cut st kind Held_default = Ok (blob, fc) →
  check_anchor blob cp (f_rid f) = Ok kind ∧
  ∃ w2, anchor_walk blob cp kind = Ok w2 ∧ walk_sim (default ∅ (fc_tree fc)) w w2.
Proof.
  intros Hr Hs Hvf Hgen Hcut Hst Hfc.
  assert (Hb : block_valid f pre cp) by (eapply step_valid; [done|]; by rewrite Hs).
  assert (Hr' : walk_repr f (pre ++ [cp]) w) by by eapply step_repr.
  destruct (bv_cut _ _ _ Hb _ _ _ Hcut) as (Hup & Hkv & Hfold & st0 & st' & fc0 & Est0 & Hf0 & Hh).
  rewrite Est0 in Hst. apply Ok_inj in Hst as ->. rewrite Hf0 in Hfc. apply Ok_inj in Hfc. simplify_eq.
  assert (Hst : st = state_at (w_running w0) upto).
  { pose proof (bv_height _ _ _ Hb). rewrite (repr_checkpoint f pre w0) in Est0 by (done || lia).
    by apply Ok_inj in Est0. }
  subst st. rewrite Hvf in Hkv. simpl in Hkv.
  destruct (fold_cut_sim _ _ _ _ _ (frozen_memory _ (wr_groups _ _ _ Hr)) Hkv Hf0) as (K1 & K2 & K3).
  assert (Hcon : constitution (with_upto 0 blob) = constitution (base_of f)).
  { rewrite (state_sim_constitution _ _ _ _ K3). pose proof (wr_constitution _ _ _ Hr) as Hc.
    unfold constitution in *. simpl in *. by injection Hc as -> -> -> -> -> -> -> -> -> _. }
  destruct (wr_genesis _ _ _ Hr) as (g & rest & Hpre & Hg).
  split.
  { eapply (check_anchor_accepted f pre cp); try done; rewrite Hpre; try done. apply Hgen. by rewrite Hpre. }
  unfold anchor_walk. unfold constitution in Hcon. simpl in Hcon. injection Hcon as C1 C2 C3 C4 C5 C6 C7 C8 C9.
  pose proof (wr_hash _ _ _ Hr') as Hhash. rewrite last_snoc in Hhash. simpl in Hhash.
  rewrite C8, Hhash. simpl. eexists. split; [done|].
  destruct (step_inv w0 cp Held_default) as [(hd & c & run & Hck & Hf & He)|[Hn _]]; [|by rewrite Hs in Hn].
  rewrite Hs in He. injection He as Ew. rewrite (fold_one_cut _ _ _ _ Hcut) in Hf. injection Hf as <-.
  assert (w_running w = w_running w0) as Erun by by rewrite Ew.
  assert (Efc : w_folded_cut w = cut_wiki kind).
  { rewrite Ew. simpl. unfold is_folded_cut. rewrite Hcut, (wr_folded_cut _ _ _ Hr).
    destruct (any_folded_cut pre); [by rewrite Hfold|done]. }
  constructor; simpl.
  - rewrite (wr_head _ _ _ Hr'). simpl. rewrite C2, C9. f_equal.
    rewrite (bv_height _ _ _ Hb), len_app, len_cons, len_nil. lia.
  - rewrite (wr_seen _ _ _ Hr'), <-(wr_consumed _ _ _ Hr'), Erun.
    destruct K3 as (g1 & g2 & cs & u & _ & _ & Hperm & ->). simpl. by rewrite Hperm.
  - by rewrite Erun, Efc.
  - done.
  - by rewrite (wr_vault _ _ _ Hr').
  - rewrite C2, C4. exact Hvf.
  - apply (wr_floor _ _ _ Hr').
  - intros fl [= <-]. rewrite (wr_head _ _ _ Hr'). simpl.
    rewrite len_app, len_cons, len_nil, <-(bv_height _ _ _ Hb). lia.
Qed.
End Prune.

Section PruneProperties.
Context `{Env, VaultSerde}.

(** C2: A pruned holder and a full holder agree.  Take any accepted chain
    of a republic without vault keys that ends in a compaction cut, legacy
    or folded, and the blob (and tree) that cut leaves.  Then for every
    continuation whose memory entries carry no base entry, walking the full
    history and walking the suffix from the blob give one result: the same
    refusal, or the same head and the same set of consumed proposals.  A base
    entry that members seal themselves parts the two
    ([Witnesses.base_entry_parts_holders]). *)
Theorem pruned_holder_agrees f pre cp suf w upto h kind st blob fc :
  walk_chain (pre ++ [cp]) = Ok w →
  head pre ≫= founding_of = Some f → keyed (f_ids f) = false →
  cut_of (change cp) = Some (upto, h, kind) →
  checkpoint_state pre upto = Ok st → fold_cut st kind Held_default = Ok (blob, fc) →
  Forall brings_no_base suf →
  (let? w := walk_chain (pre ++ cp :: suf) in Ok (report w)) =
  (let? w := walk_suffix_chain blob (cp :: suf) (f_rid f) (Held_of_wiki (fc_tree fc)) in
   Ok (report w)).
Proof.
  intros Hw Hf Hk Hcut Hst Hfc Hsuf.
  assert (pre ≠ []) as Hne by by destruct pre.
  rewrite cons_middle, app_assoc, walk_chain_app by by destruct pre. rewrite Hw. cbn [obind].
  destruct (proj1 (walk_chain_last pre cp w Hne) Hw) as (w0 & Hw0 & Hs).
  destruct (walk_chain_repr _ _ Hw0) as [f' Hr].
  assert (f' = f) as ->.
  { destruct (wr_genesis _ _ _ Hr) as (g & rest & -> & Hg). simpl in Hf. congruence. }
  assert (Hgen : ∀ hd, head pre = Some hd → is_ok (verify_genesis hd) = true).
  { destruct pre as [|g rest]; [done|]. intros hd [= <-]. unfold walk_chain, genesis_walk in Hw0.
    by destruct (verify_genesis g). }
  apply unkeyed_vault in Hk.
  destruct (anchor_sim f pre cp w w0 upto h kind blob fc st) as (Ha & w2 & Hw2 & Hsim); try done.
  unfold walk_suffix_chain. rewrite Ha. cbn [obind]. rewrite Hw2. cbn [obind].
  by eapply steps_sim.
Qed.
End PruneProperties.
