(* ===== verification/Projection.v ===== *)
(** * The holder's projection

    crates/molt-engine/src/chain/projection.rs: the applied logs, the
    transport anchors and the relay ledger a holder reads its chain through
    ([apply_chain_to_state] rebuilds them, [project_one] extends them by one
    block), the effective relay pool and feature set;
    crates/molt-engine/src/proposals.rs: [org_effective], the constitution as
    governed; crates/molt-engine/src/chain/verify.rs and recovery.rs: the
    reads of served material.

    A picture reference is a path of the local storage directory and is an
    argument [img] of the constitution fold. *)

From S2P Require Import Prelude Bytes Strs Json Env Surface Roster Chain Checkpoint WikiFold Vault Cuts Ledger Verify Walk WalkProps.
#[local] Open Scope string_scope.
#[local] Open Scope list_scope.

#[export] Instance Surface_countable : Countable Surface.
Proof.
  refine (inj_countable' surface_str (λ s, default Organization (surface_parse s)) _).
  intros s. by rewrite surface_parse_str.
Defined.

Record SealedRoster := {
  sr_name : string; sr_republic_id : string; sr_rule_m : N; sr_rule_n : N;
  sr_roster : list string; sr_identities : list MemberIdentity;
  sr_attestations : list RosterAttestation; sr_relays : list string; sr_agenda : string;
  sr_features : option (list string); sr_founded_ts : N;
}.

(** [genesis_chain]. *)
Definition genesis_chain (sealed : SealedRoster) : list ChainBlock :=
  if str_empty (sr_republic_id sealed) || (len (sr_identities sealed) =? 0)%N
     || negb (len (sr_attestations sealed) =? len (sr_identities sealed))%N
  then []
  else [ {| height := 0; prev := GENESIS_PREV;
            change := Genesis (sr_name sealed) (sr_republic_id sealed) (sr_rule_m sealed)
                        (sr_rule_n sealed) (sr_identities sealed) (sr_agenda sealed)
                        (sr_relays sealed) (sr_features sealed);
            sigs := sr_attestations sealed |} ].

(** [sealed_roster_from_genesis] and [sealed_roster_from_blob]. *)
Definition sealed_roster_from_genesis (block : ChainBlock) : option SealedRoster :=
  match change block with
  | Genesis name republic_id rule_m rule_n identities agenda relays features =>
      Some {| sr_name := name; sr_republic_id := republic_id; sr_rule_m := rule_m;
              sr_rule_n := rule_n; sr_roster := mi_member <$> identities;
              sr_identities := identities; sr_attestations := sigs block; sr_relays := relays;
              sr_agenda := agenda; sr_features := features; sr_founded_ts := 0 |}
  | _ => None
  end.
Definition sealed_roster_from_blob (blob : CheckpointState) : SealedRoster :=
  {| sr_name := founding_name blob; sr_republic_id := cs_republic_id blob;
     sr_rule_m := cs_rule_m blob; sr_rule_n := cs_rule_n blob;
     sr_roster := mi_member <$> cs_roster blob; sr_identities := cs_roster blob;
     sr_attestations := []; sr_relays := cs_relays blob; sr_agenda := cs_agenda blob;
     sr_features := founding_features blob; sr_founded_ts := 0 |}.

(** ** The projection of a chain *)

Record ChainProjection := {
  p_applied : gmap Surface (list (option N * Value));
  p_applied_sigs : gmap N (list RosterAttestation);
  p_anchors : gmap string string;
  p_member_relays : gmap string (list string);
}.

(** [map.entry(surface).or_default().push(..)] / [.. extend ..]. *)
Definition push_applied (sf : Surface) (es : list (option N * Value))
    (m : gmap Surface (list (option N * Value))) : gmap Surface (list (option N * Value)) :=
  partial_alter (λ o, Some (default [] o ++ es)) sf m.

Definition seed_applied (blob : option CheckpointState) : gmap Surface (list (option N * Value)) :=
  match blob with
  | None => ∅
  | Some blob =>
      foldl (λ m g, push_applied g.1 ((λ e, (Some e.1, e.2)) <$> g.2) m) ∅ (cs_applied blob)
  end.

Definition project_block (st : gmap Surface (list (option N * Value)) * gmap N (list RosterAttestation))
    (b : ChainBlock) :=
  match change b with
  | Applied proposal_id surface payload =>
      (push_applied surface [(Some proposal_id, payload)] st.1, <[proposal_id := sigs b]> st.2)
  | _ => st
  end.

(** The chain-owned folds of [apply_chain_to_state]; [HashMap::extend] lets
    the later entry win. *)
Definition apply_chain_to_state (blob : option CheckpointState) (blocks : list ChainBlock)
    : ChainProjection :=
  let st := foldl project_block (seed_applied blob, ∅) blocks in
  {| p_applied := st.1; p_applied_sigs := st.2;
     p_anchors := working_anchors blocks ∪ match blob with
                    | Some b => list_to_map (reverse (anchors b)) | None => ∅ end;
     p_member_relays := declared_relays blocks ∪ match blob with
                    | Some b => list_to_map (reverse (member_relays b)) | None => ∅ end |}.

(** [project_one]. *)
Definition project_one (p : ChainProjection) (b : ChainBlock) : ChainProjection :=
  match change b with
  | Applied proposal_id surface payload =>
      {| p_applied := push_applied surface [(Some proposal_id, payload)] (p_applied p);
         p_applied_sigs := <[proposal_id := sigs b]> (p_applied_sigs p);
         p_anchors := p_anchors p; p_member_relays := p_member_relays p |}
  | Membership _ member _ nostr_pk relays _ =>
      {| p_applied := p_applied p; p_applied_sigs := p_applied_sigs p;
         p_anchors := match nostr_pk with
                      | Some pk => if str_empty pk then p_anchors p else <[member := pk]> (p_anchors p)
                      | None => p_anchors p
                      end;
         p_member_relays := match relays with
                            | [] => p_member_relays p
                            | _ => <[member := relays]> (p_member_relays p)
                            end |}
  | _ => p
  end.

(** ** Reads *)

(** [max_applied_proposal_id] and [bump_next_id_past_chain]. *)
Definition max_applied_proposal_id (blocks : list ChainBlock) : option N :=
  match proposals blocks with [] => None | x :: l => Some (foldl N.max x l) end.
Definition bump_next_id_past_chain (seen : gset N) (next_id : N) : N :=
  match merge_sort N.le (elements seen) with
  | [] => next_id
  | l => N.max next_id (u64_saturating_add (List.last l 0%N) 1)
  end.

Definition working_nostr_pk (p : ChainProjection) (ids : list MemberIdentity) (member : string) : string :=
  match p_anchors p !! member with
  | Some pk => pk
  | None => roster_anchor ids member
  end.

(** [fold_pool_edit(&mut pool, value)]. *)
Definition fold_pool_edit (pool : list string) (value : string) : list string :=
  let parsed := split_whitespace value in
  match parsed with
  | [] => pool
  | _ =>
      if negb (len pool =? 0)%N && negb (existsb (λ r, bool_decide (r ∈ parsed)) pool) then pool
      else parsed
  end.

Definition pool_step (pool : list string) (v : Value) : list string :=
  if decide (op_of v = Some "set_relays") then fold_pool_edit pool (default "" (get_str "value" v))
  else pool.

Definition ratified_relays (blob : option CheckpointState) (blocks : list ChainBlock) : list string :=
  match blob with
  | Some blob => cs_relays blob
  | None =>
      match head blocks with
      | Some b => match change b with Genesis _ _ _ _ _ _ relays _ => relays | _ => [] end
      | None => []
      end
  end.

(** [applied_org_entries]: the single-operator log, then the chain's. *)
Definition applied_org_entries (legacy : list Value) (p : ChainProjection) : list Value :=
  legacy ++ (default [] (p_applied p !! Organization)).*2.

Definition effective_relays (ratified : list string) (org : list Value) : list string :=
  foldl pool_step ratified org.

Definition member_relays_of (p : ChainProjection) (pool : list string) (member : string) : list string :=
  default pool (p_member_relays p !! member).

(** [relay_splits]: the pairs [i < j] without a common relay. *)
Definition split_pair (relays_of : string → list string) (a b : string) : bool :=
  let ra := relays_of a in
  let rb := relays_of b in
  negb (len ra =? 0)%N && negb (len rb =? 0)%N && negb (existsb (λ r, bool_decide (r ∈ rb)) ra).
Fixpoint relay_splits (relays_of : string → list string) (roster : list string)
    : list (string * string) :=
  match roster with
  | [] => []
  | a :: rest =>
      ((λ b, (a, b)) <$> filter (λ b, split_pair relays_of a b = true) rest)
      ++ relay_splits relays_of rest
  end.

(** [effective_features]; [wallet_on] is whether an init was applied. *)
Definition feature_baseline (features : option (list string)) : gset string :=
  list_to_set (default LEGACY_FEATURES features).
Definition feature_step (set : gset string) (v : Value) : gset string :=
  if decide (op_of v = Some "set_features")
  then set ∪ list_to_set (split_whitespace (default "" (get_str "value" v)))
  else set.
Definition effective_features (features : option (list string)) (org : list Value) (wallet_on : bool)
    : list string :=
  let set := foldl feature_step (feature_baseline features) org in
  let set := if wallet_on then {[surface_str Wallet]} ∪ set else set in
  merge_sort String.le (elements set).

(** [parse_retention_days]: the first word, 1 to 365. *)
Definition parse_retention_days (value : string) : option N :=
  w ← head (split_whitespace value);
  days ← parse_u64 w;
  if ((1 <=? days) && (days <=? 365))%N then Some days else None.

Record OrgEffective := {
  o_name : string; o_agenda : string; o_retention_days : N; o_image : string;
  o_relays : string; o_features : string;
}.

(** [Vec<String>::join(" ")]. *)
Fixpoint join_sp (l : list string) : string :=
  match l with
  | [] => ""
  | [x] => x
  | x :: l => x +:+ " " +:+ join_sp l
  end.

Definition org_step (img : Value → string) (o : OrgEffective) (v : Value) : OrgEffective :=
  let value := default "" (get_str "value" v) in
  let op := default "" (op_of v) in
  if decide (op = "set_name") then
    if str_empty (trim value) then o
    else {| o_name := trim value; o_agenda := o_agenda o; o_retention_days := o_retention_days o;
            o_image := o_image o; o_relays := o_relays o; o_features := o_features o |}
  else if decide (op = "set_charter") then
    {| o_name := o_name o; o_agenda := value; o_retention_days := o_retention_days o;
       o_image := o_image o; o_relays := o_relays o; o_features := o_features o |}
  else if decide (op = "set_chat_retention") then
    match parse_retention_days value with
    | Some days =>
        {| o_name := o_name o; o_agenda := o_agenda o; o_retention_days := days;
           o_image := o_image o; o_relays := o_relays o; o_features := o_features o |}
    | None => o
    end
  else if decide (op = "set_image") then
    {| o_name := o_name o; o_agenda := o_agenda o; o_retention_days := o_retention_days o;
       o_image := img v; o_relays := o_relays o; o_features := o_features o |}
  else if decide (op = "remove_image") then
    {| o_name := o_name o; o_agenda := o_agenda o; o_retention_days := o_retention_days o;
       o_image := ""; o_relays := o_relays o; o_features := o_features o |}
  else if decide (op = "set_relays") then
    {| o_name := o_name o; o_agenda := o_agenda o; o_retention_days := o_retention_days o;
       o_image := o_image o;
       o_relays := join_sp (fold_pool_edit (split_whitespace (o_relays o)) value);
       o_features := o_features o |}
  else o.

Definition org_effective (img : Value → string) (name agenda : string) (ratified : list string)
    (features : list string) (org : list Value) : OrgEffective :=
  foldl (org_step img)
    {| o_name := name; o_agenda := agenda; o_retention_days := 7; o_image := "";
       o_relays := join_sp ratified; o_features := join_sp features |} org.

(** ** Served material *)

Definition effective_relays_of_served (checkpoint : option CheckpointState) (blocks : list ChainBlock)
    : list string :=
  foldl (λ pool b, match change b with Applied _ _ payload => pool_step pool payload | _ => pool end)
    (ratified_relays checkpoint blocks) blocks.

Definition verify_served `{Env, VaultSerde} (checkpoint : option CheckpointState)
    (blocks : list ChainBlock) (expected_rid : option string)
    : outcome ChainError (ChainHead * SealedRoster) :=
  match checkpoint with
  | None =>
      let? head := verify_chain blocks in
      let? sealed := ok_or (List.hd_error blocks ≫= sealed_roster_from_genesis) NoConstitution in
      reject (match expected_rid with
              | Some rid => negb (bool_decide (hd_republic_id head = rid)) | None => false end)
        with OtherRepublic else
      Ok (head, sealed)
  | Some blob =>
      let rid := default (cs_republic_id blob) expected_rid in
      let? head := verify_suffix_chain blob blocks rid None in
      Ok (head, sealed_roster_from_blob blob)
  end.

(** ** The incremental projection is the rebuild *)

Lemma project_one_snoc blob blocks b :
  apply_chain_to_state blob (blocks ++ [b]) = project_one (apply_chain_to_state blob blocks) b.
Proof.
  unfold apply_chain_to_state, working_anchors, declared_relays. rewrite !foldl_snoc.
  unfold project_one, project_block, working_anchors_step, declared_relays_step.
  destruct (change b) as [| |op m ipk [pk|] relays consent| | |]; try done.
  - destruct (str_empty pk), relays; f_equal; by rewrite <-?insert_union_l.
  - destruct relays; f_equal; by rewrite <-?insert_union_l.
Qed.

(** ** Last write wins *)

(** The group a surface's entries leave in a checkpoint state. *)
Definition summary (sf : Surface) (es : list (N * Value)) : list (N * Value) :=
  foldl (λ g e, push_entry sf e.1 e.2 g) [] es.

(** The latest entry of a slot. *)
Definition latest (sf : Surface) (slot : string) (es : list (N * Value)) : option (N * Value) :=
  last (filter (λ e, applied_lww_slot sf e.2 = Some slot) es).

Lemma summary_snoc sf es e : summary sf (es ++ [e]) = push_entry sf e.1 e.2 (summary sf es).
Proof. unfold summary. by rewrite foldl_snoc. Qed.

Lemma filter_filter_ne (sf : Surface) (slot slot' : string) (g : list (N * Value)) :
  slot ≠ slot' →
  filter (λ e, applied_lww_slot sf e.2 = Some slot') (filter (λ e, applied_lww_slot sf e.2 ≠ Some slot) g)
  = filter (λ e, applied_lww_slot sf e.2 = Some slot') g.
Proof.
  intros Hne. rewrite list_filter_filter. apply list_filter_iff. intros e.
  split; [by intros [??]|]. intros E. split; [done|]. rewrite E. congruence.
Qed.

Lemma push_entry_latest sf id p g slot :
  latest sf slot (push_entry sf id p g) =
  if decide (applied_lww_slot sf p = Some slot) then Some (id, p) else latest sf slot g.
Proof.
  unfold latest, push_entry. rewrite filter_app. simpl.
  case_decide as Hs.
  - rewrite filter_cons_True by done. by rewrite filter_nil, last_snoc.
  - rewrite filter_cons_False, filter_nil, app_nil_r by done.
    destruct (applied_lww_slot sf p) as [s|] eqn:Ep; [|done].
    rewrite filter_filter_ne; [done|]. congruence.
Qed.

(** A summary answers the question of every slot as the history does. *)
Lemma summary_latest sf slot es : latest sf slot (summary sf es) = latest sf slot es.
Proof.
  induction es as [|e es IH] using rev_ind; [done|].
  rewrite summary_snoc, push_entry_latest, IH. unfold latest at 2. rewrite filter_app. simpl.
  case_decide as Hs.
  - rewrite filter_cons_True by done. rewrite filter_nil, last_snoc. by destruct e.
  - by rewrite filter_cons_False, filter_nil, app_nil_r.
Qed.

(** Entries outside the rule are kept, in order. *)
Lemma summary_unslotted sf es :
  filter (λ e, applied_lww_slot sf e.2 = None) (summary sf es) =
  filter (λ e, applied_lww_slot sf e.2 = None) es.
Proof.
  induction es as [|e es IH] using rev_ind; [done|].
  rewrite summary_snoc, filter_app, <-IH. unfold push_entry. rewrite filter_app. f_equal.
  - destruct (applied_lww_slot sf e.2) as [s|]; [|done]. rewrite list_filter_filter.
    apply list_filter_iff. intros x. split; [by intros [??]|]. intros E. rewrite E. done.
  - by destruct e.
Qed.

(** A slot is held by one entry. *)
Lemma summary_slot_unique sf slot es :
  (length (filter (λ e, applied_lww_slot sf e.2 = Some slot) (summary sf es)) ≤ 1)%nat.
Proof.
  induction es as [|e es IH] using rev_ind; [simpl; lia|].
  rewrite summary_snoc. unfold push_entry. rewrite filter_app, length_app.
  destruct (decide (applied_lww_slot sf e.2 = Some slot)) as [Hs|Hs].
  - rewrite Hs. rewrite list_filter_filter.
    rewrite (list_filter_iff _ (λ _, False)); [|intros x; tauto].
    assert (∀ l : list (N * Value), filter (λ _, False) l = []) as ->
      by (induction l; [done|by rewrite filter_cons_False by tauto]).
    rewrite filter_cons_True by done. rewrite filter_nil. simpl. lia.
  - rewrite filter_cons_False, filter_nil by done. simpl. rewrite Nat.add_0_r.
    destruct (applied_lww_slot sf e.2) as [s|]; [|done]. rewrite filter_filter_ne; [done|congruence].
Qed.

(** A checkpoint state holds the summaries of the chain it was folded from. *)
Definition entries_of (sf : Surface) (blocks : list ChainBlock) : list (N * Value) :=
  omap (λ b, match change b with
             | Applied id s p => if decide (s = sf) then Some (id, p) else None
             | _ => None end) blocks.

(** ** Reads of the constitution over a summary *)

Lemma summary_sub sf es e : e ∈ summary sf es → e ∈ es.
Proof.
  revert e. induction es as [|x es IH] using rev_ind; intros e; [done|].
  rewrite summary_snoc. unfold push_entry. rewrite !elem_of_app, list_elem_of_singleton.
  intros [He| ->]; [left|right; destruct x; by left]. apply IH.
  destruct (applied_lww_slot sf x.2); [|done]. by apply list_elem_of_filter in He as [_ ?].
Qed.

(** A field that a slot's entries overwrite is read off its latest entry. *)
Lemma field_latest {A} (img : Value → string) (F : OrgEffective → A) slot (g : Value → A) o es :
  (∀ e o, e ∈ es → F (org_step img o e.2) =
     if decide (applied_lww_slot Organization e.2 = Some slot) then g e.2 else F o) →
  F (foldl (org_step img) o es.*2) =
  match latest Organization slot es with Some e => g e.2 | None => F o end.
Proof.
  induction es as [|e es IH] using rev_ind; intros Hf; [done|].
  rewrite fmap_app. simpl. rewrite foldl_snoc, Hf by set_solver.
  rewrite IH by set_solver. unfold latest at 2. rewrite filter_app. case_decide as Hs.
  - rewrite filter_cons_True by done. by rewrite filter_nil, last_snoc.
  - by rewrite filter_cons_False, filter_nil, app_nil_r.
Qed.

(** Entries as the propose gates admit them. *)
Definition entry_ok (v : Value) : Prop :=
  (op_of v = Some "set_name" → trim (default "" (get_str "value" v)) ≠ "") ∧
  (op_of v = Some "set_chat_retention" →
     is_Some (parse_retention_days (default "" (get_str "value" v)))).

(** The operations the constitution fold reads, one by one. *)
Ltac org_field v :=
  unfold org_step, applied_lww_slot;
  destruct (op_of v) as [op|] eqn:Eop; simpl; [|done];
  destruct (decide (op = "set_name")); [subst; simpl; try destruct (str_empty _) eqn:?|
  destruct (decide (op = "set_charter")); [subst; simpl|
  destruct (decide (op = "set_chat_retention")); [subst; simpl; try destruct (parse_retention_days _) eqn:?|
  destruct (decide (op = "set_image")); [subst; simpl|
  destruct (decide (op = "remove_image")); [subst; simpl|
  rewrite bool_decide_eq_false_2 by set_solver;
  destruct (decide (op = "set_relays")); [subst; simpl|
  repeat case_bool_decide; repeat case_decide; try destruct (member_of v); simplify_eq/=]]]]]]; try done.

Lemma org_step_agenda img o v :
  o_agenda (org_step img o v) =
  if decide (applied_lww_slot Organization v = Some "organization.charter")
  then default "" (get_str "value" v) else o_agenda o.
Proof. org_field v. Qed.

(** The picture an image entry leaves. *)
Definition image_left (img : Value → string) (v : Value) : string :=
  if decide (op_of v = Some "set_image") then img v else "".

Lemma org_step_image img o v :
  o_image (org_step img o v) =
  if decide (applied_lww_slot Organization v = Some "organization.image")
  then image_left img v else o_image o.
Proof. unfold image_left. org_field v. Qed.

Lemma org_step_name img o v :
  entry_ok v →
  o_name (org_step img o v) =
  if decide (applied_lww_slot Organization v = Some "organization.name")
  then trim (default "" (get_str "value" v)) else o_name o.
Proof.
  intros [Hn _]. org_field v. specialize (Hn eq_refl).
  by destruct (trim (default "" (get_str "value" v))).
Qed.

Lemma org_step_retention img o v :
  entry_ok v →
  o_retention_days (org_step img o v) =
  if decide (applied_lww_slot Organization v = Some "organization.retention")
  then default 0%N (parse_retention_days (default "" (get_str "value" v))) else o_retention_days o.
Proof.
  intros [_ Hr]. org_field v; specialize (Hr eq_refl);
    match goal with E : parse_retention_days _ = _ |- _ => by rewrite E in * end || by destruct Hr.
Qed.

(** Feature edits are outside the rule, so a summary keeps them all. *)
Lemma feature_fold_unslotted (set : gset string) (es : list (N * Value)) :
  foldl feature_step set es.*2 =
  foldl feature_step set (filter (λ e, applied_lww_slot Organization e.2 = None) es).*2.
Proof.
  revert set. induction es as [|e es IH]; intros set; [done|]. simpl. rewrite IH.
  destruct (decide (applied_lww_slot Organization e.2 = None)) as [Hs|Hs].
  - by rewrite filter_cons_True.
  - rewrite filter_cons_False by done. f_equal. unfold feature_step.
    case_decide as Hop; [|done]. exfalso. apply Hs. unfold applied_lww_slot. rewrite Hop. done.
Qed.

Lemma summary_features set es :
  foldl feature_step set (summary Organization es).*2 = foldl feature_step set es.*2.
Proof. by rewrite feature_fold_unslotted, summary_unslotted, <-feature_fold_unslotted. Qed.

(** ** Properties *)

(** Extending is rebuilding.  Folding one appended block into the
    projection gives exactly the applied logs, signatures, anchors and relay
    ledger that a rebuild from the blob and the whole chain gives. *)
Theorem project_one_rebuild blob blocks b :
  apply_chain_to_state blob (blocks ++ [b]) = project_one (apply_chain_to_state blob blocks) b.
Proof. apply project_one_snoc. Qed.

(** A summary keeps every answer.  The group a checkpoint state keeps of a
    surface's entries has the same latest entry in every slot as the full
    list, holds a slot at most once, keeps every entry outside the rule in
    order and invents none. *)
Theorem lww_summary_answers sf es :
  (∀ slot, latest sf slot (summary sf es) = latest sf slot es) ∧
  (∀ slot, (length (filter (λ e, applied_lww_slot sf e.2 = Some slot) (summary sf es)) ≤ 1)%nat) ∧
  filter (λ e, applied_lww_slot sf e.2 = None) (summary sf es) =
    filter (λ e, applied_lww_slot sf e.2 = None) es ∧
  (∀ e, e ∈ summary sf es → e ∈ es).
Proof.
  split; [intros; apply summary_latest|]. split; [intros; apply summary_slot_unique|].
  split; [apply summary_unslotted|]. intros e. apply summary_sub.
Qed.

Lemma feature_step_mono org set1 set2 : set1 ⊆ set2 → foldl feature_step set1 org ⊆ foldl feature_step set2 org.
Proof.
  revert set1 set2. induction org as [|v org IH]; intros set1 set2 Hs; simpl; [done|]. apply IH.
  unfold feature_step. case_decide; set_solver.
Qed.

Lemma feature_step_grows org set : set ⊆ foldl feature_step set org.
Proof.
  revert set. induction org as [|v org IH]; intros set; simpl; [done|]. etrans; [|apply IH].
  unfold feature_step. case_decide; set_solver.
Qed.

Lemma elem_of_effective_features features org w f :
  f ∈ effective_features features org w ↔
  (w = true ∧ f = surface_str Wallet) ∨ f ∈ foldl feature_step (feature_baseline features) org.
Proof.
  unfold effective_features. rewrite merge_sort_Permutation, elem_of_elements. destruct w; set_solver.
Qed.

(** A feature is never switched off.  Whatever entries follow, the
    effective feature list keeps every feature it had, among them the whole
    founding baseline, and it is sorted without repetition. *)
Theorem features_only_grow features org org' w :
  (∀ f, f ∈ effective_features features org w → f ∈ effective_features features (org ++ org') w) ∧
  (∀ f, f ∈ default LEGACY_FEATURES features → f ∈ effective_features features org w) ∧
  NoDup (effective_features features org w) ∧ Sorted String.le (effective_features features org w).
Proof.
  split; [|split; [|split]].
  - intros f. rewrite !elem_of_effective_features, foldl_app.
    pose proof (feature_step_grows org' (foldl feature_step (feature_baseline features) org)). set_solver.
  - intros f Hf. rewrite elem_of_effective_features. right.
    apply (feature_step_grows org (feature_baseline features)). by apply elem_of_list_to_set.
  - unfold effective_features. rewrite merge_sort_Permutation. apply NoDup_elements.
  - unfold effective_features. apply Sorted_merge_sort, _.
Qed.

Lemma sorted_last_max (l : list N) x : Sorted N.le l → x ∈ l → (x ≤ List.last l 0)%N.
Proof.
  intros Hs%Sorted_StronglySorted; [|intros ???; lia]. revert x.
  induction Hs as [|y l Hs IH Hall]; intros x Hx; [by apply elem_of_nil in Hx|].
  destruct l as [|z l]; [apply list_elem_of_singleton in Hx; simpl; lia|].
  change (List.last (y :: z :: l) 0%N) with (List.last (z :: l) 0%N).
  apply elem_of_cons in Hx as [->|Hx]; [|by apply IH].
  rewrite Forall_forall in Hall. etrans; [apply Hall; by left|]. apply IH. by left.
Qed.

(** A minted proposal id is fresh.  After the counter is bumped past the
    verified chain it is above every id the chain consumed (below the end of
    the 64-bit range, where it saturates) and never below what it was. *)
Theorem minted_id_fresh seen next_id :
  (∀ id, id ∈ seen → (id < u64_max)%N → (id < bump_next_id_past_chain seen next_id)%N) ∧
  (next_id ≤ bump_next_id_past_chain seen next_id)%N.
Proof.
  unfold bump_next_id_past_chain.
  assert (Hs : Sorted N.le (merge_sort N.le (elements seen))) by apply Sorted_merge_sort, _.
  assert (He : ∀ id, id ∈ seen → id ∈ merge_sort N.le (elements seen)).
  { intros id Hid. rewrite merge_sort_Permutation. by apply elem_of_elements. }
  destruct (merge_sort N.le (elements seen)) as [|x l] eqn:El.
  - split; [|lia]. intros id Hid _. apply He in Hid. by apply elem_of_nil in Hid.
  - split; [|lia]. intros id Hid Hlt. pose proof (sorted_last_max _ _ Hs (He id Hid)).
    unfold u64_saturating_add. lia.
Qed.

(** A split is two seats without a common relay.  The pairs reported are
    exactly the pairs of seats, in roster order, that both have relays on
    record and share none of them. *)
Theorem relay_splits_exact relays_of roster a b :
  (a, b) ∈ relay_splits relays_of roster ↔
  ∃ i j : nat, (i < j)%nat ∧ roster !! i = Some a ∧ roster !! j = Some b ∧
    relays_of a ≠ [] ∧ relays_of b ≠ [] ∧ ∀ r, r ∈ relays_of a → r ∉ relays_of b.
Proof.
  assert (Hsp : split_pair relays_of a b = true ↔
    relays_of a ≠ [] ∧ relays_of b ≠ [] ∧ ∀ r, r ∈ relays_of a → r ∉ relays_of b).
  { unfold split_pair. rewrite !andb_true_iff, !negb_true_iff, !N.eqb_neq, existsb_false.
    assert (Hlen : ∀ l : list string, len l ≠ 0%N ↔ l ≠ []).
    { intros [|x l]; [done|]. rewrite len_cons. split; [done|lia]. }
    rewrite !Hlen. setoid_rewrite bool_decide_eq_false. tauto. }
  induction roster as [|x roster IH]; simpl.
  - rewrite elem_of_nil. split; [done|]. by intros (i & j & _ & ? & _).
  - rewrite elem_of_app, IH, list_elem_of_fmap. setoid_rewrite list_elem_of_filter. split.
    + intros [(y & [= -> ->] & Hs & (j & Hj)%list_elem_of_lookup)|(i & j & Hij & Hi & Hj & Hr)].
      * exists 0%nat, (S j). split; [lia|]. split; [done|]. split; [done|]. by apply Hsp.
      * exists (S i), (S j). split; [lia|]. done.
    + intros (i & j & Hij & Hi & Hj & Hr). destruct j as [|j]; [lia|]. destruct i as [|i]; simpl in *.
      * left. exists b. simplify_eq. split; [done|]. split; [by apply Hsp|]. by eapply list_elem_of_lookup_2.
      * right. exists i, j. split; [lia|]. done.
Qed.
