(* ===== verification/Reads.v ===== *)
(** * What a pruned holder reads

    The projections of crates/molt-engine/src/chain/projection.rs over a
    checkpoint blob and a suffix, against the same projections over the full
    history.  The transport anchors, the relay ledger, the feature set and
    the fields of the constitution that an entry overwrites are read alike.
    The relay pool, a last-write-wins slot too, is folded instead: it is read
    alike where the latest edit below the cut would have led the founding pool
    to where the whole history led it, and not otherwise. *)

From S2P Require Import Prelude Bytes Strs Json Env Surface Roster Chain Checkpoint WikiFold Vault Cuts Ledger Verify Walk WalkProps Approvals Prune Projection.
#[local] Open Scope string_scope.
#[local] Open Scope list_scope.

Lemma entries_of_app sf bs1 bs2 : entries_of sf (bs1 ++ bs2) = entries_of sf bs1 ++ entries_of sf bs2.
Proof. apply omap_app. Qed.

Lemma latest_app sf slot a b :
  latest sf slot (a ++ b) = match latest sf slot b with Some e => Some e | None => latest sf slot a end.
Proof. unfold latest. by rewrite filter_app, last_app. Qed.

Lemma latest_summary_app sf slot a b :
  latest sf slot (summary sf a ++ b) = latest sf slot (a ++ b).
Proof. by rewrite !latest_app, summary_latest. Qed.

(** ** The blob's groups are summaries *)

Lemma fold_applied_group sf sf' id p l g :
  find_group sf l = Some g →
  find_group sf (fold_applied sf' id p l) =
  Some (if decide (sf' = sf) then push_entry sf id p g else g).
Proof.
  intros Hf. unfold fold_applied. destruct (decide (sf' = sf)) as [->|Hne].
  - rewrite (find_group_exists _ _ _ Hf), Hf. apply find_set_group. eauto.
  - set (k := if existsb _ l then l else insert_group sf' l).
    assert (Hk : find_group sf k = Some g).
    { unfold k. destruct (existsb _ l); [done|]. by rewrite find_insert_group_ne. }
    destruct (find_group sf' k); [|done]. by rewrite find_set_group_ne.
Qed.

Section Groups.
Context `{Env, VaultSerde}.

Lemma fold_one_group s b v s' sf g :
  fold_one s b v = (s', Ok tt) → find_group sf (cs_applied s) = Some g →
  find_group sf (cs_applied s') = Some (foldl (λ g e, push_entry sf e.1 e.2 g) g (entries_of sf [b])).
Proof.
  unfold fold_one, entries_of. simpl. destruct (change b) as [|id sf' p| | | |]; simpl; intros Hf Hg;
    try by simplify_eq.
  - case_match; simplify_eq. simpl. rewrite (fold_applied_group _ _ _ _ _ _ Hg).
    by destruct (decide (sf' = sf)).
  - destruct (apply_membership _ _ _ _); simplify_eq. done.
Qed.

Lemma walk_chain_group sf bs w :
  sf ∈ CHECKPOINT_V7_SURFACES → walk_chain bs = Ok w →
  find_group sf (cs_applied (w_running w)) = Some (summary sf (entries_of sf bs)).
Proof.
  intros Hsf. revert w. induction bs as [|b bs IH] using rev_ind; intros w Hw; [done|].
  destruct (decide (bs = [])) as [->|Hne].
  - change ([] ++ [b]) with [b] in *. rewrite walk_chain_single in Hw. unfold genesis_walk in Hw.
    apply obind_ok in Hw as (hd & _ & Hw). unfold entries_of. simpl.
    destruct (change b); try done. apply Ok_inj in Hw as <-. simpl.
    unfold CHECKPOINT_V7_SURFACES in Hsf. by destruct sf; [..|set_solver].
  - apply walk_chain_last in Hw as (w0 & Hw & Hs); [|done].
    destruct (step_inv w0 b Held_default) as [(hd & c & run & _ & Hf & He)|[Hn _]];
      [|by rewrite Hs in Hn].
    rewrite Hs in He. injection He as ->. simpl.
    rewrite (fold_one_group _ _ _ _ _ _ Hf (IH _ Hw)), entries_of_app.
    unfold summary. by rewrite foldl_app.
Qed.

(** ** Reads *)

Lemma push_applied_lookup sf sf' es m :
  default [] (push_applied sf' es m !! sf) =
  default [] (m !! sf) ++ (if decide (sf' = sf) then es else []).
Proof.
  unfold push_applied. destruct (decide (sf' = sf)) as [->|Hne].
  - by rewrite lookup_partial_alter_eq.
  - by rewrite lookup_partial_alter_ne, app_nil_r.
Qed.

Lemma project_blocks_applied sf st bs :
  (default [] ((foldl project_block st bs).1 !! sf)).*2 =
  (default [] (st.1 !! sf)).*2 ++ (entries_of sf bs).*2.
Proof.
  revert st. induction bs as [|b bs IH]; intros st; simpl; [by rewrite app_nil_r|].
  rewrite IH. unfold project_block, entries_of. simpl.
  destruct (change b) as [|id sf' p| | | |]; try done. simpl.
  rewrite push_applied_lookup, fmap_app, <-app_assoc. by destruct (decide (sf' = sf)).
Qed.

Lemma seed_applied_lookup sf blob g :
  NoDup (cs_applied blob).*1 → find_group sf (cs_applied blob) = Some g →
  (default [] (seed_applied (Some blob) !! sf)).*2 = g.*2.
Proof.
  unfold seed_applied. intros Hnd Hg.
  assert (Hgen : ∀ m, (default [] (foldl (λ m g, push_applied g.1 ((λ e, (Some e.1, e.2)) <$> g.2) m)
    m (cs_applied blob) !! sf)).*2 = (default [] (m !! sf)).*2 ++
    (default [] (find_group sf (cs_applied blob))).*2).
  { revert Hnd. clear Hg. generalize (cs_applied blob).
    induction l as [|[s es] l IH]; simpl; intros Hnd m; [by rewrite app_nil_r|].
    apply NoDup_cons in Hnd as [Hs Hnd]. rewrite IH by done. rewrite push_applied_lookup. simpl.
    rewrite fmap_app, <-app_assoc. f_equal. destruct (decide (s = sf)) as [->|]; [|done].
    assert (find_group sf l = None) as ->.
    { clear -Hs. induction l as [|[s' es'] l IH]; [done|]. simpl in *. rewrite decide_False by set_solver.
      apply IH. set_solver. }
    simpl. rewrite app_nil_r, <-list_fmap_compose. done. }
  rewrite Hgen, lookup_empty, Hg. done.
Qed.

(** ** What a cut leaves alone *)

Lemma fold_cut_fields st kind held blob fc :
  fold_cut st kind held = Ok (blob, fc) →
  anchors blob = anchors st ∧ member_relays blob = member_relays st ∧
  (cs_applied blob).*1 = (cs_applied st).*1 ∧
  (∀ sf, sf ≠ Memory → sf ≠ Vault → find_group sf (cs_applied blob) = find_group sf (cs_applied st)).
Proof.
  intros Hf. unfold fold_cut in Hf.
  apply obind_ok in Hf as ([w1 w2] & Hw & Hf). apply obind_ok in Hf as ([v1 v2] & Hv & Hf).
  apply obind_ok in Hf as (h & _ & Hf). apply Ok_inj in Hf. simplify_eq/=.
  assert (anchors w1 = anchors st ∧ member_relays w1 = member_relays st ∧
    (cs_applied w1).*1 = (cs_applied st).*1 ∧
    (∀ sf, sf ≠ Memory → sf ≠ Vault → find_group sf (cs_applied w1) = find_group sf (cs_applied st)))
    as (A1 & A2 & A3 & A4).
  { destruct (cut_wiki kind); [|by simplify_eq]. unfold wiki_summarize_state in Hw.
    destruct (find_group Memory _); [|by simplify_eq].
    destruct (wiki_summarize _ _) as [[[folded t] r]| |]; simplify_eq/=.
    split; [done|]. split; [done|]. split; [apply set_group_keys|].
    intros sf ? _. by apply find_set_group_ne. }
  destruct (cut_vault kind); [|by simplify_eq]. apply obind_ok in Hv as ([v3 v4] & Hv & E).
  apply Ok_inj in E. simplify_eq/=. unfold vault_summarize_state in Hv.
  destruct (find_group Vault _); [|done]. apply obind_ok in Hv as (r & _ & Hv). simplify_eq/=.
  split; [done|]. split; [done|]. split; [by rewrite set_group_keys|].
  intros sf H1 H2. rewrite find_set_group_ne by done. by apply A4.
Qed.

Lemma working_anchors_from m bs : foldl working_anchors_step m bs = working_anchors bs ∪ m.
Proof.
  unfold working_anchors. induction bs as [|b bs IH] using rev_ind; [simpl; by rewrite map_empty_union|].
  rewrite !foldl_snoc, IH. unfold working_anchors_step.
  destruct (change b) as [| |? ? ? [pk|] ? ?| | |]; try done.
  destruct (str_empty pk); [done|]. by rewrite insert_union_l.
Qed.
Lemma declared_relays_from m bs : foldl declared_relays_step m bs = declared_relays bs ∪ m.
Proof.
  unfold declared_relays. induction bs as [|b bs IH] using rev_ind; [simpl; by rewrite map_empty_union|].
  rewrite !foldl_snoc, IH. unfold declared_relays_step.
  destruct (change b) as [| |? ? ? ? [|] ?| | |]; try done. by rewrite insert_union_l.
Qed.

Lemma sorted_ledger_map {A} (l : list (string * A)) :
  ledger_sorted l → (list_to_map (reverse l) : gmap string A) = list_to_map l.
Proof.
  intros Hs. apply list_to_map_proper; [|by rewrite reverse_Permutation].
  rewrite fmap_reverse, reverse_Permutation. by apply ledger_sorted_nodup.
Qed.
End Groups.

(** The constitution fields an entry overwrites: name, charter, chat retention
    and picture.  The relay pool, the one other field with a slot of its own
    in [applied_lww_slot], is folded and read by [effective_relays]; the
    features have no slot and are read by [effective_features]. *)
Definition overwritten_fields (o : OrgEffective) : string * string * N * string :=
  (o_name o, o_agenda o, o_retention_days o, o_image o).

Lemma overwritten_fields_latest img o es :
  Forall (λ e, entry_ok e.2) es →
  overwritten_fields (foldl (org_step img) o es.*2) =
  (match latest Organization "organization.name" es with
   | Some e => trim (default "" (get_str "value" e.2)) | None => o_name o end,
   match latest Organization "organization.charter" es with
   | Some e => default "" (get_str "value" e.2) | None => o_agenda o end,
   match latest Organization "organization.retention" es with
   | Some e => default 0%N (parse_retention_days (default "" (get_str "value" e.2)))
   | None => o_retention_days o end,
   match latest Organization "organization.image" es with
   | Some e => image_left img e.2 | None => o_image o end).
Proof.
  intros Hok. rewrite Forall_forall in Hok. unfold overwritten_fields. f_equal; [f_equal; [f_equal|]|].
  - apply (field_latest img o_name _ (λ v, trim (default "" (get_str "value" v)))).
    intros e o' He. apply org_step_name. auto.
  - apply (field_latest img o_agenda _ (λ v, default "" (get_str "value" v))).
    intros e o' _. apply org_step_agenda.
  - apply (field_latest img o_retention_days _
      (λ v, default 0%N (parse_retention_days (default "" (get_str "value" v))))).
    intros e o' He. apply org_step_retention. auto.
  - apply (field_latest img o_image _ (image_left img)).
    intros e o' _. apply org_step_image.
Qed.

Lemma overwritten_fields_summary img o es1 es2 :
  Forall (λ e, entry_ok e.2) (es1 ++ es2) →
  overwritten_fields (foldl (org_step img) o (summary Organization es1 ++ es2).*2) =
  overwritten_fields (foldl (org_step img) o (es1 ++ es2).*2).
Proof.
  intros Hok. rewrite !overwritten_fields_latest; [by rewrite !latest_summary_app|done|].
  apply Forall_app in Hok as [H1 H2]. apply Forall_app. split; [|done].
  rewrite Forall_forall in *. intros e He. apply H1. by eapply summary_sub.
Qed.

(** ** The relay pool over a summary *)

Definition RELAYS_SLOT : string := "organization.relays".

Lemma pool_step_slot pool v : applied_lww_slot Organization v ≠ Some RELAYS_SLOT → pool_step pool v = pool.
Proof.
  unfold pool_step. case_decide as Hop; [|done]. unfold applied_lww_slot. rewrite Hop. intros Hs. by destruct Hs.
Qed.

Lemma effective_relays_slot pool (es : list (N * Value)) :
  effective_relays pool es.*2 =
  effective_relays pool (filter (λ e, applied_lww_slot Organization e.2 = Some RELAYS_SLOT) es).*2.
Proof.
  revert pool. induction es as [|e es IH]; intros pool; [done|]. rewrite filter_cons. case_decide as Hs.
  - apply IH.
  - unfold effective_relays at 1. cbn [fmap list_fmap foldl]. rewrite pool_step_slot by done. apply IH.
Qed.

(** The pool a summary leads to: the latest edit alone, folded onto the
    founding pool. *)
Lemma effective_relays_summary pool (es : list (N * Value)) :
  effective_relays pool (summary Organization es).*2 =
  match latest Organization RELAYS_SLOT es with Some e => pool_step pool e.2 | None => pool end.
Proof.
  rewrite effective_relays_slot, <-(summary_latest Organization RELAYS_SLOT es). unfold latest.
  pose proof (summary_slot_unique Organization RELAYS_SLOT es) as Hlen.
  by destruct (filter _ (summary Organization es)) as [|e [|e' l]]; [..|cbn in Hlen; lia].
Qed.

(** The latest relay edit of [es], folded onto the founding pool alone, leads
    to the pool that all of them lead to. *)
Definition latest_edit_stands (ratified : list string) (es : list (N * Value)) : Prop :=
  match latest Organization RELAYS_SLOT es with
  | Some e => pool_step ratified e.2 = effective_relays ratified es.*2
  | None => True
  end.

Lemma summary_pool_kept ratified es :
  latest_edit_stands ratified es ↔ effective_relays ratified (summary Organization es).*2 = effective_relays ratified es.*2.
Proof.
  rewrite effective_relays_summary. unfold latest_edit_stands.
  destruct (latest Organization RELAYS_SLOT es) as [e|] eqn:El; [done|]. split; [intros _|done].
  rewrite effective_relays_slot. unfold latest in El. by apply last_None in El as ->.
Qed.

Section ReadsProperties.
Context `{Env, VaultSerde}.

(** The blob of an accepted cut and what the projections seed from it. *)
Lemma blob_reads pre cp w upto h kind st blob fc :
  walk_chain (pre ++ [cp]) = Ok w → pre ≠ [] → cut_of (change cp) = Some (upto, h, kind) →
  checkpoint_state pre upto = Ok st → fold_cut st kind Held_default = Ok (blob, fc) →
  list_to_map (reverse (anchors blob)) = working_anchors pre ∧
  list_to_map (reverse (member_relays blob)) = declared_relays pre ∧
  (default [] (seed_applied (Some blob) !! Organization)).*2 =
    (summary Organization (entries_of Organization pre)).*2.
Proof.
  intros Hw Hne Hcut Hst Hfc. apply walk_chain_last in Hw as (w0 & Hw0 & Hs); [|done].
  destruct (walk_chain_repr _ _ Hw0) as [f Hr].
  assert (Hb : block_valid f pre cp) by (eapply step_valid; [done|]; by rewrite Hs).
  destruct (bv_cut _ _ _ Hb _ _ _ Hcut) as (Hup & _). pose proof (bv_height _ _ _ Hb) as Hh.
  rewrite (repr_checkpoint f pre w0) in Hst by (done || lia). apply Ok_inj in Hst as <-.
  destruct (fold_cut_fields _ _ _ _ _ Hfc) as (A1 & A2 & A3 & A4). simpl in *.
  split; [|split].
  - rewrite A1, sorted_ledger_map by apply Hr. apply Hr.
  - rewrite A2, sorted_ledger_map by apply Hr. apply Hr.
  - apply seed_applied_lookup.
    + rewrite A3. destruct (wr_groups _ _ _ Hr) as [->| ->];
        unfold CHECKPOINT_V7_SURFACES, ALL; apply (bool_decide_unpack _); by vm_compute.
    + rewrite A4 by done. apply walk_chain_group; [|done]. unfold CHECKPOINT_V7_SURFACES. set_solver.
Qed.

(** C37: A pruned holder reads the republic as a full holder does.  For an
    accepted chain that ends in a cut and any continuation, the transport
    anchors, the relay ledger and the feature set (whatever the baseline)
    projected from blob and suffix are those of the full history.  So is the
    relay pool, where the latest relay edit below the cut, folded onto the
    founding pool alone, leads to the pool the history led to; at the cut
    itself it is then and only then.  So are the name, charter, chat retention
    and picture of the constitution, where every organization entry is one the
    propose gates admit (no empty name, a retention that reads as a number):
    the walk accepts others, and over those the two holders can part. *)
Theorem pruned_reads_agree img o pre cp suf w upto h kind st blob fc :
  walk_chain (pre ++ [cp]) = Ok w → pre ≠ [] → cut_of (change cp) = Some (upto, h, kind) →
  checkpoint_state pre upto = Ok st → fold_cut st kind Held_default = Ok (blob, fc) →
  let full := apply_chain_to_state None (pre ++ cp :: suf) in
  let pruned := apply_chain_to_state (Some blob) (cp :: suf) in
  p_anchors pruned = p_anchors full ∧
  p_member_relays pruned = p_member_relays full ∧
  (∀ features wallet_on,
     effective_features features (applied_org_entries [] pruned) wallet_on =
     effective_features features (applied_org_entries [] full) wallet_on) ∧
  (∀ ratified, latest_edit_stands ratified (entries_of Organization pre) →
     effective_relays ratified (applied_org_entries [] pruned) =
     effective_relays ratified (applied_org_entries [] full)) ∧
  (∀ ratified, suf = [] →
     effective_relays ratified (applied_org_entries [] pruned) =
     effective_relays ratified (applied_org_entries [] full) →
     latest_edit_stands ratified (entries_of Organization pre)) ∧
  (Forall (λ e, entry_ok e.2) (entries_of Organization (pre ++ suf)) →
   overwritten_fields (foldl (org_step img) o (applied_org_entries [] pruned)) =
   overwritten_fields (foldl (org_step img) o (applied_org_entries [] full))).
Proof.
  intros Hw Hne Hcut Hst Hfc full pruned.
  destruct (blob_reads _ _ _ _ _ _ _ _ _ Hw Hne Hcut Hst Hfc) as (B1 & B2 & B3).
  assert (Hcp : entries_of Organization [cp] = []).
  { unfold entries_of. simpl. by destruct (change cp). }
  assert (Efull : applied_org_entries [] full = (entries_of Organization (pre ++ suf)).*2).
  { unfold applied_org_entries, full, apply_chain_to_state. simpl. rewrite project_blocks_applied. simpl.
    rewrite lookup_empty. simpl. rewrite cons_middle, !entries_of_app, Hcp. by rewrite app_nil_l. }
  assert (Epruned : applied_org_entries [] pruned =
    (summary Organization (entries_of Organization pre) ++ entries_of Organization suf).*2).
  { unfold applied_org_entries, pruned, apply_chain_to_state. cbn [p_applied app].
    rewrite project_blocks_applied. cbn [fst]. rewrite B3, (cons_middle cp [] suf : cp :: suf = [] ++ [cp] ++ suf).
    by rewrite !entries_of_app, Hcp, !app_nil_l, fmap_app. }
  split; [|split; [|split; [|split; [|split]]]].
  - simpl. rewrite B1, (right_id_L ∅ _). unfold working_anchors at 3. rewrite foldl_app.
    by rewrite working_anchors_from.
  - simpl. rewrite B2, (right_id_L ∅ _). unfold declared_relays at 3. rewrite foldl_app.
    by rewrite declared_relays_from.
  - intros features wallet_on. unfold effective_features. rewrite Efull, Epruned.
    rewrite entries_of_app, !fmap_app, !foldl_app, summary_features. done.
  - intros ratified Hk%summary_pool_kept. rewrite Efull, Epruned. rewrite entries_of_app, !fmap_app.
    unfold effective_relays in *. by rewrite !foldl_app, Hk.
  - intros ratified -> Hk. rewrite Efull, Epruned, app_nil_r in Hk. unfold entries_of at 2 in Hk.
    cbn [omap list_omap] in Hk. rewrite app_nil_r in Hk. by apply summary_pool_kept.
  - intros Hok. rewrite Efull, Epruned. rewrite entries_of_app in *. by apply overwritten_fields_summary.
Qed.
End ReadsProperties.

(** ** The relay pool *)

(** An edit never empties a pool and never cuts it off from the pool before. *)
Lemma pool_step_overlaps pool v :
  pool ≠ [] → ∃ r, r ∈ pool ∧ r ∈ pool_step pool v.
Proof.
  intros Hne. assert (∃ r, r ∈ pool) as [r0 Hr0] by (destruct pool as [|r pool]; [done|exists r; by left]).
  unfold pool_step, fold_pool_edit. case_decide; [|eauto].
  destruct (split_whitespace _) as [|p ps] eqn:Es; [eauto|].
  destruct (negb (len pool =? 0)%N && negb (existsb _ pool)) eqn:Eo; [eauto|].
  apply andb_false_iff in Eo as [Eo|Eo]; apply negb_false_iff in Eo.
  - apply N.eqb_eq in Eo. destruct pool; [done|]. rewrite len_cons in Eo. lia.
  - apply existsb_true in Eo as (r & Hr & Hin%bool_decide_eq_true). eauto.
Qed.

(** Make before break.  Whatever organization entries are folded onto a
    non-empty relay pool, every pool the fold passes through is non-empty and
    shares a relay with the one before it, so two holders that are one entry
    apart always have a relay in common. *)
Theorem relay_pool_connected ratified org k :
  ratified ≠ [] →
  effective_relays ratified (take k org) ≠ [] ∧
  ∃ r, r ∈ effective_relays ratified (take k org) ∧ r ∈ effective_relays ratified (take (S k) org).
Proof.
  intros Hne. unfold effective_relays.
  assert (Hpool : foldl pool_step ratified (take k org) ≠ []).
  { generalize (take k org). intros l. induction l as [|v l IH] using rev_ind; [done|].
    rewrite foldl_snoc. destruct (pool_step_overlaps _ v IH) as (r & _ & Hr).
    intros E. rewrite E in Hr. by apply elem_of_nil in Hr. }
  split; [done|]. destruct (org !! k) as [v|] eqn:Hk.
  - rewrite (take_S_r _ _ _ Hk), foldl_snoc. by apply pool_step_overlaps.
  - apply lookup_ge_None in Hk. rewrite !take_ge by lia. destruct (foldl pool_step ratified org) eqn:E.
    + by rewrite take_ge in Hpool by lia.
    + exists s. split; by left.
Qed.

Definition set_relays (value : string) : Value :=
  Object [("op", Str "set_relays"); ("value", Str value)].

(** The relay pool does not survive a cut.  Two edits that each pass
    make-before-break move a founding pool to a disjoint one; the summary a
    cut keeps holds only the second, which the fold onto the founding pool
    refuses, so the holder of the summary is back on the founding pool while
    the holder of the history is not. *)
Theorem relay_pool_lost_at_cut :
  let edits := [(1%N, set_relays "wss://a wss://b"); (2%N, set_relays "wss://b wss://c")] in
  effective_relays ["wss://a"] edits.*2 = ["wss://b"; "wss://c"] ∧
  effective_relays ["wss://a"] (summary Organization edits).*2 = ["wss://a"].
Proof. by vm_compute. Qed.

Definition set_name (value : string) : Value := Object [("op", Str "set_name"); ("value", Str value)].

(** An entry outside the propose gates parts the two readers.  A blank name,
    which the walk accepts when m members sign it, leaves the name before it
    standing in the full history; the summary keeps only the blank edit, so
    the holder of the summary is back on the founding name. *)
Theorem blank_name_parts_readers :
  let edits := [(1%N, set_name "Molt"); (2%N, set_name " ")] in
  let start := org_effective (λ _, "") "demo" "" [] [] [] in
  o_name (foldl (org_step (λ _, "")) start edits.*2) = "Molt" ∧
  o_name (foldl (org_step (λ _, "")) start (summary Organization edits).*2) = "demo".
Proof. by vm_compute. Qed.
