(* ===== verification/Export.v ===== *)
(** * The wiki export

    crates/molt-engine/src/wiki_export.rs: [is_wiki_patch] and
    [bundle_from_chain], the blocks an export ships;
    crates/molt-engine/src/chain/verify.rs: [verify_wiki_export], the
    outsider's check, from the parsed bundle on.

    The theorems: what an accepted bundle proves about the tree it came
    with, and that a bundle written from an accepted chain is accepted. *)

From S2P Require Import Prelude Bytes Strs Json Env Surface Roster Chain Checkpoint WikiFold Vault Cuts Ledger Verify Walk WalkProps Approvals Projection.
#[local] Open Scope string_scope.
#[local] Open Scope list_scope.

Definition WIKI_EXPORT_FORMAT : string := "molt-wiki-export-v1".

Record WikiExportBundle := {
  wb_format : string;
  wb_genesis : ChainBlock;
  wb_blocks : list ChainBlock;
}.

Definition is_wiki_patch (c : ChainChange) : bool :=
  match c with
  | Applied _ Memory payload => bool_decide (op_of payload = Some "wiki_patch")
  | _ => false
  end.
Definition is_membership (c : ChainChange) : bool :=
  match c with Membership _ _ _ _ _ _ => true | _ => false end.
Definition is_genesis (c : ChainChange) : bool :=
  match c with Genesis _ _ _ _ _ _ _ _ => true | _ => false end.

(** The selection the writer makes. *)
Definition exported (b : ChainBlock) : bool := is_membership (change b) || is_wiki_patch (change b).

Definition bundle_from_chain (chain : list ChainBlock) : option WikiExportBundle :=
  match chain with
  | [] => None
  | genesis :: rest =>
      if is_genesis (change genesis) then
        Some {| wb_format := WIKI_EXPORT_FORMAT; wb_genesis := genesis;
                wb_blocks := filter (λ b, exported b = true) rest |}
      else None
  end.

Record WikiExportReport := {
  er_republic_id : string; er_name : string; er_rule_m : N; er_rule_n : N;
  er_members : list string; er_membership_blocks : N; er_patches : N; er_files : N;
}.

(** The loop state of the verifier. *)
Record ExportState := {
  x_identities : list MemberIdentity;
  x_membership_blocks : N;
  x_anchors : gmap string string;
  x_payloads : list Value;
  x_seen : gset N;
  x_last_height : N;
}.

Section Verifier.
Context `{Env}.

Definition export_step (head : ChainHead) (st : ExportState) (block : ChainBlock)
    : outcome ChainError ExportState :=
  reject (height block <=? x_last_height st)%N with HeightsMustAscend (height block) else
  reject negb (is_membership (change block)) && negb (is_wiki_patch (change block))
    with NotExported (height block) else
  let? signers := block_signers (hd_republic_id head) (x_identities st) block in
  let? _ := omap_err (ConsentRefused (height block))
              (consent_spends (change block)
                 (λ m, default (roster_anchor (x_identities st) m) (x_anchors st !! m))) in
  let anchors := working_anchors_step (x_anchors st) block in
  reject (N.of_nat (size signers) <? hd_rule_m head)%N
    with BelowThreshold (height block) (N.of_nat (size signers)) (hd_rule_m head) else
  match change block with
  | Membership op member identity_pk _ _ _ =>
      let? identities := apply_membership (x_identities st) op member identity_pk in
      Ok {| x_identities := identities; x_membership_blocks := x_membership_blocks st + 1;
            x_anchors := anchors; x_payloads := x_payloads st; x_seen := x_seen st;
            x_last_height := height block |}
  | Applied proposal_id _ payload =>
      reject bool_decide (proposal_id ∈ x_seen st) with AppliedTwice proposal_id else
      Ok {| x_identities := x_identities st; x_membership_blocks := x_membership_blocks st;
            x_anchors := anchors; x_payloads := x_payloads st ++ [payload];
            x_seen := {[proposal_id]} ∪ x_seen st; x_last_height := height block |}
  | _ => Panic
  end.

Fixpoint export_steps (head : ChainHead) (st : ExportState) (blocks : list ChainBlock)
    : outcome ChainError ExportState :=
  match blocks with
  | [] => Ok st
  | b :: blocks => let? st := export_step head st b in export_steps head st blocks
  end.

(** Step 4: the fold is the tree. *)
Fixpoint check_folded (folded : list (string * string)) (t : tree) : outcome ChainError unit :=
  match folded with
  | [] => Ok tt
  | (path, content) :: folded =>
      match t !! path with
      | None => Err (TreeMissing path)
      | Some shipped =>
          reject negb (bool_decide (shipped = content)) with TreeDiffers path else
          check_folded folded t
      end
  end.

Definition check_tree (folded t : tree) : outcome ChainError unit :=
  let? _ := check_folded (sorted_entries folded) t in
  match find (λ p, bool_decide (folded !! p = None)) (sorted_entries t).*1 with
  | Some extra => Err (TreeExtra extra)
  | None => Ok tt
  end.

Definition export_start (head : ChainHead) : ExportState :=
  {| x_identities := hd_identities head; x_membership_blocks := 0; x_anchors := ∅;
     x_payloads := []; x_seen := ∅; x_last_height := 0 |}.

Definition verify_wiki_export (bundle : WikiExportBundle) (t : tree)
    : outcome ChainError WikiExportReport :=
  reject negb (bool_decide (wb_format bundle = WIKI_EXPORT_FORMAT)) with BundleFormat (wb_format bundle) else
  let? head := verify_genesis (wb_genesis bundle) in
  match change (wb_genesis bundle) with
  | Genesis name _ _ rule_n _ _ _ _ =>
      let? st := export_steps head (export_start head) (wb_blocks bundle) in
      let? _ := check_tree (wiki_fold (x_payloads st)) t in
      Ok {| er_republic_id := hd_republic_id head; er_name := name; er_rule_m := hd_rule_m head;
            er_rule_n := rule_n; er_members := mi_member <$> x_identities st;
            er_membership_blocks := x_membership_blocks st; er_patches := len (x_payloads st);
            er_files := N.of_nat (size t) |}
  | _ => Err NotAGenesis
  end.
End Verifier.

(** The payloads of the shipped patches, in chain order. *)
Definition patch_payload (b : ChainBlock) : option Value :=
  match change b with
  | Applied _ _ payload => if is_wiki_patch (change b) then Some payload else None
  | _ => None
  end.
Definition patch_payloads (bs : list ChainBlock) : list Value := omap patch_payload bs.

(** ** The tree check *)

Lemma check_folded_ok l t :
  check_folded l t = Ok tt ↔ Forall (λ e, t !! e.1 = Some e.2) l.
Proof.
  induction l as [|[p c] l IH]; simpl; [by split; [constructor|]|].
  rewrite Forall_cons, <-IH. simpl. destruct (t !! p) as [c'|]; [|split; [done|by intros [[=] _]]].
  rewrite reject_ok, negb_false_iff, bool_decide_eq_true. naive_solver.
Qed.

Lemma check_tree_ok folded t : check_tree folded t = Ok tt ↔ folded = t.
Proof.
  unfold check_tree. rewrite obind_ok. split.
  - intros ([] & Hf%check_folded_ok & Hx).
    destruct (find _ _) as [e|] eqn:Ef; [done|]. apply map_eq. intros p.
    rewrite Forall_forall in Hf.
    destruct (folded !! p) as [c|] eqn:Ep.
    + symmetry. apply (Hf (p, c)). rewrite sorted_entries_perm. by apply elem_of_map_to_list.
    + destruct (t !! p) as [c|] eqn:Et; [|done]. exfalso.
      assert (p ∈ (sorted_entries t).*1) as Hin.
      { apply list_elem_of_fmap. exists (p, c). split; [done|].
        rewrite sorted_entries_perm. by apply elem_of_map_to_list. }
      apply list_elem_of_In in Hin. apply (find_none _ _ Ef) in Hin.
      by rewrite bool_decide_eq_true_2 in Hin.
  - intros ->. exists tt. split.
    + apply check_folded_ok. apply Forall_forall. intros [p c]. rewrite sorted_entries_perm.
      by intros ?%elem_of_map_to_list.
    + destruct (find _ _) as [e|] eqn:Ef; [|done]. exfalso.
      apply find_some in Ef as [Hin%list_elem_of_In He]. apply bool_decide_eq_true in He.
      apply list_elem_of_fmap in Hin as ([p c] & -> & Hin). rewrite sorted_entries_perm in Hin.
      apply elem_of_map_to_list in Hin. simpl in He. congruence.
Qed.

Section ExportProps.
Context `{Env, VaultSerde}.

(** ** What an accepted step establishes *)

Lemma export_step_ok head st b st' :
  export_step head st b = Ok st' →
  (x_last_height st < height b)%N ∧ x_last_height st' = height b ∧
  x_identities st' = x_identities st ∧
  x_payloads st' = x_payloads st ++ patch_payloads [b] ∧
  x_seen st' = x_seen st ∪ list_to_set (proposals [b]) ∧
  (∀ id, applied_id b = Some id → id ∉ x_seen st) ∧
  ∃ signers, block_signers (hd_republic_id head) (x_identities st) b = Ok signers ∧
             (hd_rule_m head ≤ N.of_nat (size signers))%N.
Proof.
  unfold export_step, patch_payloads, patch_payload, proposals, applied_id. simpl. intros Hs.
  apply reject_ok in Hs as [Hh Hs]. apply reject_ok in Hs as [Hk Hs].
  apply obind_ok in Hs as (sg & Hsg & Hs). apply obind_ok in Hs as ([] & _ & Hs).
  apply reject_ok in Hs as [Hm Hs]. to_prop.
  assert (∃ signers, block_signers (hd_republic_id head) (x_identities st) b = Ok signers ∧
             (hd_rule_m head ≤ N.of_nat (size signers))%N) by eauto.
  destruct (change b) as [|id sf p|op m ipk npk relays consent| | |]; try done.
  - run_inv Hs. to_prop. subst. simpl in *.
    destruct (match sf with Memory => bool_decide _ | _ => false end); [|done]. simpl.
    repeat split; try done; [set_solver|naive_solver].
  - run_inv Hs. match goal with Hm : apply_membership _ _ _ _ = _ |- _ =>
      apply apply_membership_ok in Hm as (_ & _ & ->) end. subst. simpl.
    repeat split; try done; [by rewrite app_nil_r|set_solver].
Qed.

Lemma export_steps_ok head st bs st' :
  export_steps head st bs = Ok st' →
  x_identities st' = x_identities st ∧
  x_payloads st' = x_payloads st ++ patch_payloads bs ∧
  StronglySorted N.lt (x_last_height st :: (height <$> bs)) ∧
  (NoDup (proposals bs) ∧ ∀ id, id ∈ proposals bs → id ∉ x_seen st) ∧
  ∀ b, b ∈ bs → ∃ signers, block_signers (hd_republic_id head) (x_identities st) b = Ok signers ∧
             (hd_rule_m head ≤ N.of_nat (size signers))%N.
Proof.
  revert st. induction bs as [|b bs IH]; intros st; simpl.
  - intros Hs. apply Ok_inj in Hs as <-. split; [done|]. split; [by rewrite app_nil_r|].
    split; [repeat constructor|]. split; [split; [constructor|by intros ? ?%elem_of_nil]|].
    by intros b ?%elem_of_nil.
  - intros Hs. apply obind_ok in Hs as (st1 & H1 & H2).
    apply export_step_ok in H1 as (A1 & A2 & A3 & A4 & A5 & A6 & A7).
    destruct (IH _ H2) as (B1 & B2 & B3 & [B4 B5] & B6).
    split; [congruence|]. split.
    { rewrite B2, A4, <-app_assoc. f_equal. unfold patch_payloads. by rewrite <-omap_app. }
    rewrite A2 in B3. split.
    { constructor; [done|]. constructor; [done|].
      apply StronglySorted_inv in B3 as [_ B3]. eapply Forall_impl; [exact B3|]. simpl. lia. }
    split.
    { unfold proposals in *. simpl in *. rewrite A5 in B5.
      destruct (applied_id b) as [id|] eqn:Ei; simpl in *; [|split; [done|set_solver]].
      split; [constructor; [intros Hin; specialize (B5 _ Hin); set_solver|done]|].
      intros i [->|Hi]%elem_of_cons; [by apply A6|]. specialize (B5 _ Hi). set_solver. }
    intros x [->|Hx]%elem_of_cons; [done|]. rewrite <-A3. auto.
Qed.

Lemma head_of_genesis g hd f :
  verify_genesis g = Ok hd → founding_of g = Some f →
  hd_republic_id hd = f_rid f ∧ hd_rule_m hd = f_m f ∧ hd_identities hd = f_ids f.
Proof.
  unfold verify_genesis, founding_of. intros Hv Hf. destruct (change g); simplify_eq/=.
  run_inv Hv. by subst hd.
Qed.

(** ** An export of an accepted chain *)

Lemma export_steps_snoc head st bs b :
  export_steps head st (bs ++ [b]) = (let? st := export_steps head st bs in export_step head st b).
Proof.
  revert st. induction bs as [|x bs IH]; intros st; simpl.
  - by destruct (export_step head st b).
  - destruct (export_step head st x); simpl; [apply IH|done..].
Qed.

(** A valid block that the writer selects passes the verifier's step. *)
Lemma export_step_accepts f pre b hd st :
  block_valid f pre b → exported b = true →
  hd_republic_id hd = f_rid f → hd_rule_m hd = f_m f →
  x_identities st = f_ids f → x_anchors st = working_anchors pre →
  (∀ id, id ∈ x_seen st → id ∈ proposals pre) → (x_last_height st < height b)%N →
  ∃ st', export_step hd st b = Ok st' ∧ x_anchors st' = working_anchors_step (working_anchors pre) b.
Proof.
  intros Hb Hx E1 E2 I1 I2 I3 I4. unfold export_step.
  rewrite (proj2 (N.leb_gt _ _) I4). simpl.
  assert (negb (is_membership (change b)) && negb (is_wiki_patch (change b)) = false) as ->.
  { unfold exported in Hx. by destruct (is_membership _), (is_wiki_patch _). }
  destruct (bv_approved _ _ _ Hb) as (s & Hs & Hm). rewrite E1, I1, Hs. simpl.
  rewrite (consent_spends_ext _ _ (anchor_of (f_ids f) pre)) by (intros m; by rewrite I2).
  rewrite (bv_spends _ _ _ Hb). simpl. rewrite E2, (proj2 (N.ltb_ge _ _) Hm), I2.
  pose proof (bv_seat _ _ _ Hb) as Hk. pose proof (bv_fresh _ _ _ Hb) as Hf.
  unfold exported, seat_keeps_key, applied_id in *.
  destruct (change b) as [|id sf p|op m ipk npk relays consent| | |]; try done; simpl.
  - rewrite bool_decide_eq_false_2; [eauto|]. intros Hin. apply (Hf id eq_refl). auto.
  - rewrite (proj2 (apply_membership_ok _ _ _ _ (f_ids f))) by naive_solver. simpl. eauto.
Qed.

Lemma export_accepted bs w g rest f hd :
  walk_chain bs = Ok w → bs = g :: rest → founding_of g = Some f → verify_genesis g = Ok hd →
  ∃ st, export_steps hd (export_start hd) (filter (λ b, exported b = true) rest) = Ok st ∧
    x_identities st = f_ids f ∧ x_anchors st = working_anchors bs ∧
    x_payloads st = patch_payloads bs ∧ (∀ id, id ∈ x_seen st → id ∈ proposals bs) ∧
    (x_last_height st ≤ len bs - 1)%N.
Proof.
  intros Hw -> Hf Hg. destruct (head_of_genesis _ _ _ Hg Hf) as (E1 & E2 & E3).
  revert w Hw. induction rest as [|b rest IH] using rev_ind; intros w Hw.
  - exists (export_start hd). simpl. unfold founding_of in Hf.
    unfold working_anchors, working_anchors_step, patch_payloads, patch_payload. simpl.
    by destruct (change g).
  - rewrite app_comm_cons in Hw. apply walk_chain_last in Hw as (w0 & Hw0 & Hs); [|done].
    destruct (IH _ Hw0) as (st & Hst & I1 & I2 & I3 & I4 & I5).
    destruct (walk_chain_repr _ _ Hw0) as [f' Hr].
    assert (f' = f) as ->. { destruct (wr_genesis _ _ _ Hr) as (? & ? & [= <- <-] & ?). congruence. }
    assert (Hb : block_valid f (g :: rest) b) by (eapply step_valid; [done|]; by rewrite Hs).
    rewrite app_comm_cons, working_anchors_snoc, proposals_snoc, len_app.
    change (len [b]) with 1%N.
    unfold patch_payloads. rewrite omap_app. fold (patch_payloads (g :: rest)). fold (patch_payloads [b]).
    rewrite filter_app. destruct (exported b) eqn:Ex.
    + destruct (export_step_accepts f (g :: rest) b hd st) as (st' & Hst' & Ha); try done.
      { rewrite (bv_height _ _ _ Hb). rewrite len_cons in *. lia. }
      exists st'. rewrite filter_cons_True by done. rewrite filter_nil, export_steps_snoc, Hst.
      split; [done|]. apply export_step_ok in Hst' as (_ & A2 & A3 & A4 & A5 & _ & _).
      split; [congruence|]. split; [done|]. split; [by rewrite A4, I3|].
      split; [rewrite A5; set_solver|]. rewrite A2, (bv_height _ _ _ Hb). rewrite len_cons. lia.
    + rewrite filter_cons_False by (rewrite Ex; done). rewrite filter_nil, app_nil_r.
      exists st. split; [done|]. split; [done|]. unfold exported in Ex. apply orb_false_iff in Ex as [X1 X2].
      assert (working_anchors_step (working_anchors (g :: rest)) b = working_anchors (g :: rest)) as ->.
      { unfold working_anchors_step. by destruct (change b). }
      split; [done|]. split.
      { unfold patch_payloads, patch_payload. simpl. rewrite X2. destruct (change b); by rewrite app_nil_r. }
      split; [set_solver|lia].
Qed.

(** ** Properties *)

(** C36: An accepted export is authentic.  If the verifier accepts a bundle
    and a tree, the tree is exactly the fold of the shipped patches; the
    heights of the shipped blocks ascend from 1 on and no proposal is
    shipped twice; and every shipped block was approved by at least m
    distinct seats of the founding table the genesis seals. *)
Theorem wiki_export_authentic bundle t rep :
  verify_wiki_export bundle t = Ok rep →
  ∃ f, founding_of (wb_genesis bundle) = Some f ∧
    t = wiki_fold (patch_payloads (wb_blocks bundle)) ∧
    StronglySorted N.lt (0%N :: (height <$> wb_blocks bundle)) ∧
    NoDup (proposals (wb_blocks bundle)) ∧
    ∀ b, b ∈ wb_blocks bundle →
      ∃ s, s ⊆ names (f_ids f) ∧ (f_m f ≤ N.of_nat (size s))%N ∧ approves f b s.
Proof.
  unfold verify_wiki_export. intros Hv. apply reject_ok in Hv as [_ Hv].
  apply obind_ok in Hv as (hd & Hg & Hv).
  destruct (genesis_facts _ _ Hg) as (f & _ & Hf & _). exists f. split; [done|].
  destruct (head_of_genesis _ _ _ Hg Hf) as (E1 & E2 & E3).
  destruct (change (wb_genesis bundle)); try done.
  apply obind_ok in Hv as (st & Hst & Hv). apply obind_ok in Hv as ([] & Ht%check_tree_ok & _).
  destruct (export_steps_ok _ _ _ _ Hst) as (B1 & B2 & B3 & [B4 _] & B5). simpl in *.
  split; [by rewrite <-Ht, B2|]. split; [done|]. split; [done|].
  intros b Hb. destruct (B5 b Hb) as (s & Hs & Hm). rewrite E1, E3 in Hs. exists s.
  split; [by eapply block_signers_seats|]. split; [lia|].
  apply block_signers_spec in Hs as (bs & Hbs & Hs). exists bs. split; [done|].
  intros m Hin. destruct (Hs m Hin) as (id & [? ?]%find_member_some & ?). eauto.
Qed.

(** An honest export is accepted.  The bundle written from an accepted
    chain, shipped with the tree that the chain's own patches fold to,
    passes the verifier, and the report names the republic, the threshold
    and the number of patches of that chain. *)
Theorem wiki_export_complete bs w bundle :
  walk_chain bs = Ok w → bundle_from_chain bs = Some bundle →
  ∃ rep, verify_wiki_export bundle (wiki_fold (patch_payloads bs)) = Ok rep ∧
    er_republic_id rep = hd_republic_id (w_head w) ∧ er_rule_m rep = hd_rule_m (w_head w) ∧
    er_members rep = mi_member <$> hd_identities (w_head w) ∧
    er_patches rep = len (patch_payloads bs).
Proof.
  intros Hw Hbu. destruct (walk_chain_repr _ _ Hw) as [f Hr].
  destruct (wr_genesis _ _ _ Hr) as (g & rest & -> & Hf).
  assert (∃ hd, verify_genesis g = Ok hd) as [hd Hg].
  { unfold walk_chain, genesis_walk in Hw. destruct (verify_genesis g); try done. eauto. }
  destruct (export_accepted _ _ _ _ _ _ Hw eq_refl Hf Hg) as (st & Hst & I1 & _ & I3 & _).
  destruct (head_of_genesis _ _ _ Hg Hf) as (E1 & E2 & E3).
  unfold bundle_from_chain in Hbu. destruct (is_genesis (change g)) eqn:Eg; [|done].
  injection Hbu as <-. unfold verify_wiki_export. simpl. rewrite Hg. cbn [obind].
  destruct (change g); try done. rewrite Hst. cbn [obind].
  rewrite I3, (proj2 (check_tree_ok _ _)) by done. simpl. eexists. split; [done|]. simpl.
  rewrite (wr_head _ _ _ Hr). simpl. rewrite I1. done.
Qed.
End ExportProps.
