(* ===== verification/Demo.v ===== *)
(** * A concrete environment

    An instance of [Env] for the witnesses: a real hex codec, a JSON codec
    that writes every value self-delimiting (so it is faithful), a small
    checksum in the place of the hash and, in the place of signatures, the
    key followed by the checksum of the message.  With it, small republics
    can be founded, signed and walked by evaluation. *)

From S2P Require Import Prelude Bytes Strs Json Env Surface Roster Chain Checkpoint WikiFold Vault Cuts Ledger Verify Walk WalkProps.
#[local] Open Scope string_scope.
#[local] Open Scope list_scope.

Module Codec.
(** Numbers bit by bit, closed by a terminator. *)
Fixpoint enc_pos (p : positive) : bytes :=
  match p with xH => [x00] | xO p => x01 :: enc_pos p | xI p => x02 :: enc_pos p end.
Definition enc_N (n : N) : bytes := match n with N0 => [x00] | Npos p => x01 :: enc_pos p end.
Definition enc_Z (z : Z) : bytes :=
  match z with Z0 => [x00] | Zpos p => x01 :: enc_pos p | Zneg p => x02 :: enc_pos p end.
Fixpoint enc_str (s : string) : bytes :=
  match s with "" => [x00] | String c s => x01 :: byte_of_ascii c :: enc_str s end.

Fixpoint enc (v : Value) : bytes :=
  match v with
  | Null => [x00]
  | Bool b => [x01; if b then x01 else x00]
  | Num (PosInt n) => x02 :: enc_N n
  | Num (NegInt z) => x03 :: enc_Z z
  | Num (Float n) => x04 :: enc_N n
  | Str s => x05 :: enc_str s
  | Array l => x06 :: (fix go l := match l with [] => [x00] | v :: l => x01 :: enc v ++ go l end) l
  | Object m =>
      x07 :: (fix go m := match m with
              | [] => [x00] | (k, v) :: m => x01 :: enc_str k ++ enc v ++ go m end) m
  end.

Lemma enc_pos_inj p q r s : enc_pos p ++ r = enc_pos q ++ s → p = q ∧ r = s.
Proof.
  revert q. induction p as [p IH|p IH|]; intros [q|q|]; simpl; intros E; simplify_eq; try done;
    (match goal with E : _ ++ _ = _ ++ _ |- _ => destruct (IH _ E) as [-> ->] end); done.
Qed.
Lemma enc_N_inj p q r s : enc_N p ++ r = enc_N q ++ s → p = q ∧ r = s.
Proof.
  destruct p, q; simpl; intros E; try discriminate E; injection E as E; [done|].
  by destruct (enc_pos_inj _ _ _ _ E) as [-> ->].
Qed.
Lemma enc_Z_inj p q r s : enc_Z p ++ r = enc_Z q ++ s → p = q ∧ r = s.
Proof.
  destruct p, q; simpl; intros E; try discriminate E; injection E as E; [done|..];
    by destruct (enc_pos_inj _ _ _ _ E) as [-> ->].
Qed.
Lemma byte_of_ascii_inj a b : byte_of_ascii a = byte_of_ascii b → a = b.
Proof. intros E. by rewrite <-(ascii_of_byte_of_ascii a), E, ascii_of_byte_of_ascii. Qed.
Lemma enc_str_inj p q r s : enc_str p ++ r = enc_str q ++ s → p = q ∧ r = s.
Proof.
  revert q. induction p as [|a p IH]; intros [|b q]; simpl; intros E; try discriminate E.
  - by injection E as E.
  - injection E as E1 E2. destruct (IH _ E2) as [-> ->]. by rewrite (byte_of_ascii_inj _ _ E1).
Qed.

(** Values are told apart whatever follows them. *)
Fixpoint enc_inj (v w : Value) {struct v} : ∀ r s, enc v ++ r = enc w ++ s → v = w ∧ r = s.
Proof.
  destruct v as [|b|[n|z|n]|a|l|m], w as [|b'|[n'|z'|n']|a'|l'|m']; intros r s E;
    try discriminate E; simpl in E; injection E as E.
  - done.
  - destruct b, b'; simplify_eq; done.
  - by destruct (enc_N_inj _ _ _ _ E) as [-> ->].
  - by destruct (enc_Z_inj _ _ _ _ E) as [-> ->].
  - by destruct (enc_N_inj _ _ _ _ E) as [-> ->].
  - by destruct (enc_str_inj _ _ _ _ E) as [-> ->].
  - assert (l = l' ∧ r = s) as [-> ->]; [|done].
    revert l' r s E. induction l as [|v l IH]; intros [|v' l'] r s E; try discriminate E.
    + by injection E as E.
    + injection E as E. rewrite <-!app_assoc in E. apply enc_inj in E as [-> E].
      by apply IH in E as [-> ->].
  - assert (m = m' ∧ r = s) as [-> ->]; [|done].
    revert m' r s E. induction m as [|[k v] m IH]; intros [|[k' v'] m'] r s E; try discriminate E.
    + by injection E as E.
    + injection E as E. rewrite <-!app_assoc in E. apply enc_str_inj in E as [-> E].
      apply enc_inj in E as [-> E]. by apply IH in E as [-> ->].
Qed.

(** Hexadecimal, lower case out, either case in. *)
Definition hex_digit (n : N) : ascii :=
  if (n <? 10)%N then ascii_of_N (48 + n) else ascii_of_N (87 + n).
Definition of_hex_digit (c : ascii) : option N :=
  let n := N_of_ascii c in
  if ((48 <=? n) && (n <=? 57))%N then Some (n - 48)%N
  else if ((97 <=? n) && (n <=? 102))%N then Some (n - 87)%N
  else if ((65 <=? n) && (n <=? 70))%N then Some (n - 55)%N
  else None.
Fixpoint hex (b : bytes) : string :=
  match b with
  | [] => ""
  | x :: b => String (hex_digit (Byte.to_N x / 16)) (String (hex_digit (Byte.to_N x mod 16)) (hex b))
  end.
Fixpoint unhex (s : string) : option bytes :=
  match s with
  | "" => Some []
  | String a (String b s) =>
      x ← of_hex_digit a; y ← of_hex_digit b; r ← unhex s; Some (byte_of (16 * x + y) :: r)
  | _ => None
  end.

Lemma unhex_byte x :
  (of_hex_digit (hex_digit (Byte.to_N x / 16)), of_hex_digit (hex_digit (Byte.to_N x mod 16)))
  = (Some (Byte.to_N x / 16)%N, Some (Byte.to_N x mod 16)%N) ∧
  byte_of (16 * (Byte.to_N x / 16) + Byte.to_N x mod 16) = x.
Proof. by destruct x. Qed.

Lemma unhex_hex b : unhex (hex b) = Some b.
Proof.
  induction b as [|x b IH]; [done|]. cbn [hex unhex].
  destruct (unhex_byte x) as [E1 E2]. injection E1 as -> ->. simpl. rewrite IH. simpl. by rewrite E2.
Qed.

Lemma hex_inj x y : hex x = hex y → x = y.
Proof. intros E. apply (f_equal unhex) in E. rewrite !unhex_hex in E. by injection E. Qed.
End Codec.

(** A checksum on 32 bytes. *)
Definition digest (b : bytes) : bytes :=
  le_bytes 32 (foldl (λ h x, N.land (h * 31 + Byte.to_N x + 1) 72057594037927935)%N 7%N b).

Definition sign_bytes (pk msg : bytes) : bytes := pk ++ digest msg.

#[export] Instance demo_env : Env := {
  sha256 := digest;
  hex_encode := Codec.hex;
  hex_decode := Codec.unhex;
  VerifyingKey := bytes;
  vk_from_bytes := Some;
  verify_strict := λ vk msg sig, bool_decide (sig = sign_bytes vk msg);
  json_to_vec := λ v, Some (Codec.enc v);
  hpke_accepts := λ _, true;
  ristretto_point := λ _, true;
}.

#[export] Instance demo_serde : VaultSerde := {
  op_from_value := λ _, None;
  op_to_value := λ _, None;
}.

Lemma demo_json_faithful : json_faithful.
Proof.
  intros v w b [= <-] [= E]. destruct (Codec.enc_inj v w [] []) as [? _]; [|done].
  by rewrite !app_nil_r.
Qed.

Lemma demo_hex_faithful : hex_faithful.
Proof. exact Codec.hex_inj. Qed.

(** ** A small republic

    Three seats, two of which approve.  [seal] appends a change signed by
    the named seats; [cut] appends the compaction cut of the chain so far. *)
Definition key (i : N) : bytes := le_bytes 32 (1000 + i).
Definition key_hex (i : N) : string := Codec.hex (key i).
Definition name_of (i : N) : string :=
  if (i =? 0)%N then "ada" else if (i =? 1)%N then "bob" else "cleo".
Definition seat (i : N) : MemberIdentity :=
  {| mi_member := name_of i; mi_identity_pk := key_hex i; mi_nostr_pk := key_hex (10 + i);
     mi_vault_pk := "" |}.
Definition seats : list MemberIdentity := [seat 0; seat 1; seat 2].

Definition sign (i : N) (b : bytes) : RosterAttestation :=
  {| att_member := name_of i; att_sig := Codec.hex (sign_bytes (key i) b) |}.
Definition sign_all (who : list N) (p : piece) : list RosterAttestation :=
  match p with Some b => (λ i, sign i b) <$> who | None => [] end.

Definition demo_rid : string := default "" (republic_id "demo" 2 3 seats).
Definition demo_genesis_change : ChainChange :=
  Genesis "demo" demo_rid 2 3 seats "a charter" ["wss://a"] (Some ["memory"]).
Definition demo_genesis : ChainBlock :=
  {| height := 0; prev := GENESIS_PREV; change := demo_genesis_change;
     sigs := sign_all [0; 1; 2]%N (approval_bytes demo_rid 0 demo_genesis_change) |}.

Definition seal (who : list N) (c : ChainChange) (bs : list ChainBlock) : list ChainBlock :=
  let h := len bs in
  bs ++ [ {| height := h; prev := default "" (last bs ≫= block_hash demo_rid); change := c;
             sigs := sign_all who (approval_bytes demo_rid h c) |} ].

Definition cut_of_chain (k : CutKind) (bs : list ChainBlock) : option (CheckpointState * FoldedCut) :=
  match checkpoint_state bs (len bs - 1) with
  | Ok st => match fold_cut st k Held_default with Ok r => Some r | _ => None end
  | _ => None
  end.
Definition cut (who : list N) (k : CutKind) (bs : list ChainBlock) : list ChainBlock :=
  match cut_of_chain k bs with
  | Some (_, fc) => seal who (cut_change k (len bs - 1) (fc_hash fc)) bs
  | None => bs
  end.

Definition obj2 (op value : string) : Value := Object [("op", Str op); ("value", Str value)].
Definition nl_str : string := String nl "".
Definition demo_patch (path text : string) : Value :=
  Object [("op", Str "wiki_patch");
          ("value", Str ("diff --git a/" +:+ path +:+ " b/" +:+ path +:+ nl_str +:+
                         "new file mode 100644" +:+ nl_str +:+
                         "--- /dev/null" +:+ nl_str +:+ "+++ b/" +:+ path +:+ nl_str +:+
                         "@@ -0,0 +1 @@" +:+ nl_str +:+ "+" +:+ text +:+ nl_str))].

(** A consent of the seat [i]: re-anchor from [prev] to [npk]. *)
Definition consent (i : N) (npk : string) (h : N) (prev : string) : string :=
  match restore_consent_bytes_v2 demo_rid (name_of i) (key_hex i) npk [] h prev with
  | Some b => render_restore_consent_v2 {| ca_height := h; ca_prev_anchor := prev |}
                (Codec.hex (sign_bytes (key i) b))
  | None => ""
  end.
Definition restore (i : N) (npk : string) (h : N) (prev : string) : ChainChange :=
  Membership Restored (name_of i) (key_hex i) (Some npk) [] (Some (consent i npk h prev)).

Definition chain1 : list ChainBlock :=
  seal [0; 2]%N (Applied 8 Memory (demo_patch "a.md" "hello"))
    (seal [0; 1]%N (Applied 7 Organization (obj2 "set_name" "Demo II")) [demo_genesis]).
Definition folded : CutKind := {| cut_wiki := true; cut_vault := false |}.
Definition chain2 : list ChainBlock := cut [1; 2]%N folded chain1.
Definition chain3 : list ChainBlock :=
  seal [0; 1]%N (Applied 9 Memory (demo_patch "b.md" "more"))
    (seal [0]%N (restore 2 (key_hex 20) 3 (key_hex 12)) chain2).
Definition chain4 : list ChainBlock := cut [0; 1]%N folded chain3.

Example demo_accepted : is_ok (walk_chain chain4) = true.
Proof. vm_compute. reflexivity. Qed.
Example demo_length : length chain4 = 7%nat.
Proof. vm_compute. reflexivity. Qed.
