(* ===== verification/Witnesses.v ===== *)
(** * Witnesses

    The theorems of the chain at the small republic of [Demo]: chains that
    are founded, signed, cut and walked by evaluation, and the executions
    that show where the code departs from its documentation. *)

From S2P Require Import Prelude Bytes Strs Json Env Surface Roster Chain Checkpoint WikiFold Vault Cuts Ledger Verify Walk WalkProps Approvals Tamper Prune Projection Reads Export Demo.
#[local] Open Scope string_scope.
#[local] Open Scope list_scope.

(** The result of a run that is known to succeed. *)
Definition value_of {E A} (m : outcome E A) (d : A) : A := match m with Ok a => a | _ => d end.
Lemma value_of_ok {E A} (m : outcome E A) d : is_ok m = true → m = Ok (value_of m d).
Proof. by destruct m. Qed.

Definition no_walk : ChainWalk :=
  {| w_head := {| hd_height := 0; hd_hash := ""; hd_republic_id := ""; hd_rule_m := 0; hd_identities := [] |};
     w_seen := ∅; w_running := genesis_base "" 0 0 [] "" "" [] None; w_floor := None; w_folded := 0;
     w_folded_cut := false; w_vault := None |}.
Definition walk_of (bs : list ChainBlock) : ChainWalk := value_of (walk_chain bs) no_walk.

Lemma walk_of_ok bs : is_ok (walk_chain bs) = true → walk_chain bs = Ok (walk_of bs).
Proof. apply value_of_ok. Qed.

Ltac walked := apply walk_of_ok; vm_compute; reflexivity.

Definition demo_founding : Founding :=
  {| f_name := "demo"; f_rid := demo_rid; f_m := 2; f_n := 3; f_ids := seats;
     f_agenda := "a charter"; f_relays := ["wss://a"]; f_features := Some ["memory"] |}.

Lemma no_double_apply_witness : NoDup (proposals chain4) ∧ w_seen (walk_of chain4) = list_to_set (proposals chain4).
Proof. apply no_double_apply. walked. Defined.

Lemma walk_is_projection_witness :
  ∃ f, head chain4 ≫= founding_of = Some f ∧ hd_identities (w_head (walk_of chain4)) = f_ids f.
Proof.
  assert (Hw : walk_chain chain4 = Ok (walk_of chain4)) by walked.
  destruct (walk_is_projection chain4 (walk_of chain4) Hw) as (f & Hf & Hi & _).
  exists f. exact (conj Hf Hi).
Defined.

Lemma genesis_unanimous_witness :
  ∃ f bs, founding_of demo_genesis = Some f ∧ ∀ id, id ∈ f_ids f → signed_by id bs (sigs demo_genesis).
Proof.
  destruct (genesis_unanimous demo_genesis
    (value_of (verify_genesis demo_genesis) (w_head no_walk))) as (f & bs & Hf & _ & _ & _ & _ & Hs).
  - apply value_of_ok. vm_compute. reflexivity.
  - exists f, bs. exact (conj Hf Hs).
Defined.

(** The chain cut open at position [k]. *)
Lemma split_at (bs : list ChainBlock) k b : bs !! k = Some b → take k bs ++ b :: drop (S k) bs = bs.
Proof. apply take_drop_middle. Qed.

Definition no_block : ChainBlock := demo_genesis.
Definition block_at (k : nat) (bs : list ChainBlock) : ChainBlock := default no_block (bs !! k).

Lemma block_approved_witness :
  ∃ s, (2 ≤ N.of_nat (size s))%N ∧ approves demo_founding (block_at 4 chain4) s.
Proof.
  destruct (block_approved (take 4 chain4) (block_at 4 chain4) (drop 5 chain4) (walk_of chain4) demo_founding)
    as (s & _ & Hm & Ha).
  - rewrite split_at by (vm_compute; reflexivity). walked.
  - vm_compute. discriminate.
  - vm_compute. reflexivity.
  - exists s. exact (conj Hm Ha).
Defined.

(** Two continuations of one chain. *)
Definition fork1 : list ChainBlock := seal [0; 1]%N (Applied 20 Organization (obj2 "set_name" "left")) chain1.
Definition fork2 : list ChainBlock := seal [1; 2]%N (Applied 21 Organization (obj2 "set_name" "right")) chain1.

Lemma fork_accountable_witness :
  ∃ both, approves demo_founding (block_at 3 fork1) both ∧ approves demo_founding (block_at 3 fork2) both ∧
    (1 ≤ N.of_nat (size both))%N.
Proof.
  destruct (fork_accountable (take 3 fork1) (block_at 3 fork1) [] (walk_of fork1)
              (take 3 fork2) (block_at 3 fork2) [] (walk_of fork2) demo_founding)
    as (both & _ & H1 & H2 & Hs).
  - change [] with (drop 4 fork1). rewrite split_at by (vm_compute; reflexivity). walked.
  - vm_compute. discriminate.
  - vm_compute. reflexivity.
  - change [] with (drop 4 fork2). rewrite split_at by (vm_compute; reflexivity). walked.
  - vm_compute. discriminate.
  - vm_compute. reflexivity.
  - exists both. split; [exact H1|]. split; [exact H2|]. change (len (f_ids demo_founding)) with 3%N in Hs.
    change (f_m demo_founding) with 2%N in Hs. lia.
Defined.

Lemma head_commits_chain_witness : collision ∨ Forall2 block_same chain4 chain4.
Proof.
  apply (head_commits_chain demo_json_faithful demo_hex_faithful chain4 chain4
           (walk_of chain4) (walk_of chain4)); [walked|walked|reflexivity].
Defined.

Lemma republic_id_commits_witness : collision ∨ ("demo" = "demo" ∧ 2%N = 2%N ∧ 3%N = 3%N ∧
  ((λ i, (mi_identity_pk i, mi_nostr_pk i)) <$> seats) ≡ₚ
  ((λ i, (mi_identity_pk i, mi_nostr_pk i)) <$> reverse seats)).
Proof.
  apply (republic_id_commits demo_hex_faithful "demo" 2 3 seats "demo" 2 3 (reverse seats) demo_rid);
    vm_compute; reflexivity.
Defined.

Lemma signature_covers_change_witness :
  signed_content demo_rid 3 (Checkpoint 2 "ab") = signed_content demo_rid 3 (Checkpoint 2 "ab").
Proof.
  apply (signature_covers_change demo_rid 3 (Checkpoint 2 "ab") demo_rid 3 (Checkpoint 2 "ab")
           (default [] (approval_bytes demo_rid 3 (Checkpoint 2 "ab"))) demo_json_faithful);
    vm_compute; reflexivity.
Defined.

(** ** Consents *)

(** A restore, and an unrelated block after it. *)
Definition restored : list ChainBlock :=
  seal [0; 1]%N (Applied 30 Organization (obj2 "set_charter" "new"))
    (seal [0]%N (restore 2 (key_hex 20) 2 (key_hex 12)) chain1).

Lemma consent_not_replayed_witness :
  ¬ (change (block_at 4 restored) =
     Membership Restored "cleo" (key_hex 2) (Some (key_hex 20)) [] (Some (consent 2 (key_hex 20) 2 (key_hex 12)))).
Proof.
  apply (consent_not_replayed (take 3 restored) (block_at 3 restored) [] (block_at 4 restored) []
           (walk_of restored) Restored "cleo" (key_hex 2) (key_hex 20) []
           (consent 2 (key_hex 20) 2 (key_hex 12)) 2 (key_hex 12)
           (match parse_restore_consent (consent 2 (key_hex 20) 2 (key_hex 12)) with
            | Some (V2 _ _ s) => s | _ => "" end)).
  - apply walk_of_ok. vm_compute. reflexivity.
  - vm_compute. discriminate.
  - vm_compute. reflexivity.
  - vm_compute. reflexivity.
  - vm_compute. discriminate.
  - vm_compute. discriminate.
  - intros b Hb. by apply elem_of_nil in Hb.
Defined.

(** The seat leaves its anchor and comes back to it; then the first consent
    is presented once more. *)
Definition replay : list ChainBlock :=
  seal [0]%N (restore 2 (key_hex 20) 2 (key_hex 12))
    (seal [0]%N (restore 2 (key_hex 12) 3 (key_hex 20))
       (seal [0]%N (restore 2 (key_hex 20) 2 (key_hex 12)) chain1)).

(** One consent can seal two blocks.  A seat that restores from anchor A
    to B and later back to A re-opens the consent of the first restore: the
    walk accepts a chain in which two blocks carry the same membership change
    with the same v2 consent string. *)
Theorem consent_seals_twice :
  is_ok (walk_chain replay) = true ∧
  change (block_at 3 replay) = change (block_at 5 replay) ∧
  change (block_at 5 replay) = restore 2 (key_hex 20) 2 (key_hex 12) ∧ length replay = 6%nat.
Proof. vm_compute. auto. Qed.

(** ** Pruning *)

Definition no_cut : CheckpointState * FoldedCut :=
  (genesis_base "" 0 0 [] "" "" [] None, {| fc_tree := None; fc_vault := None; fc_hash := "" |}).
Definition cut1 : CheckpointState * FoldedCut := default no_cut (cut_of_chain folded chain1).
Definition state1 : CheckpointState := value_of (checkpoint_state chain1 2) no_cut.1.
Definition cut_block : ChainBlock := block_at 3 chain2.
Definition suffix : list ChainBlock := drop 4 chain4.

Lemma chain2_split : chain1 ++ [cut_block] = chain2.
Proof. vm_compute. reflexivity. Qed.

Lemma cut_of_block : cut_of (change cut_block) = Some (2%N, fc_hash cut1.2, folded).
Proof. vm_compute. reflexivity. Qed.

Lemma state1_ok : checkpoint_state chain1 2 = Ok state1.
Proof. apply value_of_ok. vm_compute. reflexivity. Qed.

Lemma cut1_ok : fold_cut state1 folded Held_default = Ok (cut1.1, cut1.2).
Proof.
  assert (E : is_ok (fold_cut state1 folded Held_default) = true) by (vm_compute; reflexivity).
  unfold cut1, cut_of_chain. change (len chain1 - 1)%N with 2%N. rewrite state1_ok.
  destruct (fold_cut state1 folded Held_default) as [[x y]| |]; [reflexivity|discriminate E..].
Qed.

Lemma suffix_no_base : Forall brings_no_base suffix.
Proof.
  apply Forall_forall. intros b Hb id p Hc.
  assert (Hall : forallb (λ b, match change b with
    | Applied _ Memory p => negb (bool_decide (op_of p = Some WIKI_BASE_OP)) | _ => true end) suffix = true)
    by (vm_compute; reflexivity).
  rewrite forallb_true in Hall. specialize (Hall b Hb). rewrite Hc in Hall.
  apply negb_true_iff, bool_decide_eq_false in Hall. exact Hall.
Qed.

Lemma pruned_holder_agrees_witness :
  (let? w := walk_chain (chain1 ++ cut_block :: suffix) in Ok (report w)) =
  (let? w := walk_suffix_chain cut1.1 (cut_block :: suffix) demo_rid (Held_of_wiki (fc_tree cut1.2)) in
   Ok (report w)).
Proof.
  apply (pruned_holder_agrees demo_founding chain1 cut_block suffix (walk_of chain2) 2 (fc_hash cut1.2)
           folded state1 cut1.1 cut1.2).
  - rewrite chain2_split. walked.
  - vm_compute. reflexivity.
  - vm_compute. reflexivity.
  - exact cut_of_block.
  - exact state1_ok.
  - exact cut1_ok.
  - exact suffix_no_base.
Defined.

(** A base entry that was never a cut's: two members seal a Memory block that
    commits to the empty tree, and then a folded cut. *)
Definition rogue_base : Value :=
  match wiki_commitment ∅ with Some c => wiki_base_entry c.1 c.2 0 | None => Null end.
Definition rogue : list ChainBlock :=
  cut [0; 1]%N folded (seal [0; 1]%N (Applied 10 Memory rogue_base) chain3).

(** Such an entry parts the holders.  The holder of the full history accepts
    the next folded cut, over a tree the entry has emptied; the holder pruned
    to the cut before has a base entry already and refuses it. *)
Theorem base_entry_parts_holders :
  is_ok (walk_chain rogue) = true ∧ take 4 rogue = chain2 ∧
  (let? w := walk_suffix_chain cut1.1 (drop 3 rogue) demo_rid (Held_of_wiki (fc_tree cut1.2)) in Ok (report w)) =
  Err (CutRefused TwoWikiBases).
Proof. vm_compute. auto. Qed.

Lemma pruned_reads_agree_witness :
  p_anchors (apply_chain_to_state (Some cut1.1) (cut_block :: suffix)) =
  p_anchors (apply_chain_to_state None (chain1 ++ cut_block :: suffix)).
Proof.
  refine (proj1 (pruned_reads_agree (λ _, "") (org_effective (λ _, "") "demo" "" [] [] []) chain1 cut_block
    suffix (walk_of chain2) 2 (fc_hash cut1.2) folded state1 cut1.1 cut1.2 _ _ cut_of_block state1_ok cut1_ok)).
  - rewrite chain2_split. walked.
  - vm_compute. discriminate.
Defined.

(** ** Exports *)

Definition no_report : WikiExportReport :=
  {| er_republic_id := ""; er_name := ""; er_rule_m := 0; er_rule_n := 0; er_members := [];
     er_membership_blocks := 0; er_patches := 0; er_files := 0 |}.
Definition bundle4 : WikiExportBundle :=
  default {| wb_format := ""; wb_genesis := demo_genesis; wb_blocks := [] |} (bundle_from_chain chain4).
Definition tree4 : tree := wiki_fold (patch_payloads chain4).

Lemma wiki_export_complete_witness : ∃ rep, verify_wiki_export bundle4 tree4 = Ok rep ∧ er_patches rep = 2%N.
Proof.
  destruct (wiki_export_complete chain4 (walk_of chain4) bundle4) as (rep & Hv & _ & _ & _ & Hp).
  - walked.
  - vm_compute. reflexivity.
  - exists rep. split; [exact Hv|]. rewrite Hp. vm_compute. reflexivity.
Defined.

Lemma wiki_export_authentic_witness : tree4 = wiki_fold (patch_payloads (wb_blocks bundle4)).
Proof.
  destruct (wiki_export_authentic bundle4 tree4 (value_of (verify_wiki_export bundle4 tree4) no_report))
    as (f & _ & Ht & _).
  - apply value_of_ok. vm_compute. reflexivity.
  - exact Ht.
Defined.

Example tree4_content : tree4 !! "b.md" = Some ("more" +:+ nl_str).
Proof. vm_compute. reflexivity. Qed.

(** ** States and folds *)

Lemma checkpoint_hash_commits_witness : state1 = state1 ∨ collision.
Proof.
  apply (checkpoint_hash_commits state1 state1 (default "" (checkpoint_state_hash state1))
           demo_json_faithful demo_hex_faithful).
  - left. vm_compute. reflexivity.
  - left. vm_compute. reflexivity.
  - vm_compute. reflexivity.
  - vm_compute. reflexivity.
Defined.

Definition group1 : list (N * Value) := [(1%N, demo_patch "a.md" "hello"); (2%N, obj2 "note" "x")].
Definition group2 : list (N * Value) := [(3%N, demo_patch "b.md" "more")].
Definition folded1 : list (N * Value) * tree * N := value_of (wiki_summarize group1 ∅) ([], ∅, 0%N).


Lemma patch_touches_named_witness :
  apply_patch {["z.md" := "kept"]} (payload_files (demo_patch "a.md" "hello")) =
  on_ok (λ t', t' ∪ outside (touched_paths (payload_files (demo_patch "a.md" "hello"))) {["z.md" := "kept"]})
    (apply_patch (restrict (touched_paths (payload_files (demo_patch "a.md" "hello"))) {["z.md" := "kept"]})
       (payload_files (demo_patch "a.md" "hello"))).
Proof. apply patch_touches_named. vm_compute. reflexivity. Defined.

Lemma wiki_tree_paths_witness : paths_valid (wiki_fold [demo_patch "a.md" "hello"; demo_patch "b/c.md" "x"]).
Proof.
  apply wiki_tree_paths. repeat constructor; intros f Hf; vm_compute in Hf |- *;
    apply elem_of_cons in Hf as [->|Hf]; [reflexivity| |reflexivity|]; by apply elem_of_nil in Hf.
Defined.

Definition small_tree : tree := {["a.md" := "hello"]}.
Lemma wiki_base_roundtrip_witness :
  wiki_base_from_canonical_bytes (default [] (wiki_base_canonical_bytes small_tree)) = Ok small_tree.
Proof.
  apply wiki_base_roundtrip.
  - intros p c Hc. unfold small_tree in Hc. apply lookup_singleton_Some in Hc as [<- <-]. vm_compute. auto.
  - vm_compute. reflexivity.
Defined.

Lemma relay_pool_connected_witness :
  effective_relays ["wss://a"] (take 1 [set_relays "wss://a wss://b"]) ≠ [].
Proof. apply (relay_pool_connected ["wss://a"] [set_relays "wss://a wss://b"] 1). discriminate. Defined.

(** ** Departures *)

Definition escape_patch : Value :=
  obj2 "wiki_patch" ("diff --git a/ok.md b/../evil" +:+ nl_str +:+ "new file mode 100644" +:+ nl_str +:+
    "deleted file mode 100644" +:+ nl_str +:+ "@@ -0,0 +1 @@" +:+ nl_str +:+ "+x" +:+ nl_str).

(** A patch can put an invalid path into the tree.  A section that
    carries both a [new file mode] and a [deleted file mode] line skips the
    check of its new path and is then applied as a creation, so the fold
    holds a document at a path that [valid_path] refuses. *)
Theorem wiki_path_escapes :
  wiki_fold [escape_patch] !! "../evil" = Some ("x" +:+ nl_str) ∧ valid_path "../evil" = false.
Proof. vm_compute. auto. Qed.

Definition crlf_patch : Value := demo_patch "a.md" ("hello" +:+ String cr "").

(** A carriage return at a line end is lost.  The parser reads the patch
    with [str::lines], which also strips a carriage return before the line
    feed, so a patch that adds a line ending in CRLF folds to one ending in
    LF. *)
Theorem wiki_patch_drops_cr :
  wiki_fold [crlf_patch] !! "a.md" = Some ("hello" +:+ nl_str).
Proof. vm_compute. reflexivity. Qed.

Definition move_patch : Value := obj2 "wiki_patch" ("diff --git a/x.md b/a.md" +:+ nl_str).

(** A move by header overwrites its target.  A section whose header names
    two different paths and that carries no rename lines is applied as a move
    without the check that the target is free: the document at the target is
    lost, where the same move with rename lines is refused. *)
Theorem wiki_move_overwrites :
  let before := [demo_patch "a.md" "keep"; demo_patch "x.md" "new"] in
  wiki_fold before !! "a.md" = Some ("keep" +:+ nl_str) ∧
  wiki_fold (before ++ [move_patch]) !! "a.md" = Some ("new" +:+ nl_str) ∧
  wiki_fold (before ++ [obj2 "wiki_patch" ("diff --git a/x.md b/a.md" +:+ nl_str +:+
    "rename from x.md" +:+ nl_str +:+ "rename to a.md" +:+ nl_str)]) = wiki_fold before.
Proof. vm_compute. auto. Qed.
