(* ===== verification/Window.v ===== *)
(** * The accept window

    [AcceptedWindow] of crates/molt-core/src/lib.rs: the receiver's record,
    per sender, of the log sequence numbers its engine has accepted.  It is a
    high mark and a bitmap of the 1024 numbers below it, kept in sixteen
    64-bit words that slide upwards.  The window is refined to what it stands
    for, the set of accepted numbers, and its arithmetic (underflow, word
    shifts, indexing) is shown never to panic. *)

From S2P Require Import Prelude.

Record AcceptedWindow := mkWindow { high : N; bits : list N }.

#[export] Instance AcceptedWindow_eq_dec : EqDecision AcceptedWindow.
Proof. solve_decision. Defined.

(** [AcceptedWindow::default()]. *)
Definition window_default : AcceptedWindow := {| high := 0; bits := [] |}.

Definition ACCEPT_WINDOW_BITS : N := 1024.
Definition ACCEPT_WINDOW_WORDS : nat := 16.

(** Subtraction of [u64]s under overflow checks: [None] is the panic. *)
Definition u64_sub (a b : N) : option N :=
  if (b <=? a)%N then Some (a - b)%N else None.

(** [x << k] on [u64]: bits pushed past the top are lost. *)
Definition u64_shl (x k : N) : N := (N.shiftl x k mod 2 ^ 64)%N.

Definition window_word_bit (offset : N) : nat * N :=
  (N.to_nat (offset / 64), (offset mod 64)%N).

(** [AcceptedWindow::is_accepted]. *)
Definition is_accepted (w : AcceptedWindow) (seq : N) : option bool :=
  if ((high w =? 0) || (high w <? seq))%N then Some false
  else if (seq =? high w)%N then Some true
  else
    below ← u64_sub (high w) 1;
    offset ← u64_sub below seq;
    if (ACCEPT_WINDOW_BITS <=? offset)%N then Some true
    else
      let '(wd, b) := window_word_bit offset in
      Some (match bits w !! wd with
            | Some word => negb (N.land word (u64_shl 1 b) =? 0)%N
            | None => false
            end).

(** [self.bits.resize(ACCEPT_WINDOW_WORDS, 0)] when the vector is short. *)
Definition grown (l : list N) : list N :=
  if (length l <? ACCEPT_WINDOW_WORDS)%nat then resize ACCEPT_WINDOW_WORDS 0%N l else l.

(** [AcceptedWindow::set], on the bits. *)
Definition window_set (l : list N) (offset : N) : list N :=
  let l := grown l in
  let '(wd, b) := window_word_bit offset in
  alter (λ word, N.lor word (u64_shl 1 b)) wd l.

(** One round of the loop of [shift_up]: word [w] from the words below it. *)
Definition shift_word (words : nat) (bits : N) (l : list N) (w : nat) : option (list N) :=
  lower ← (if (words <=? w)%nat then l !! (w - words)%nat else Some 0%N);
  carry ← (if ((0 <? bits)%N && (words <? w)%nat)
           then (x ← l !! (w - words - 1)%nat; k ← u64_sub 64 bits; Some (N.shiftr x k))
           else Some 0%N);
  _ ← l !! w;
  Some (<[w := if (0 <? bits)%N then N.lor (u64_shl lower bits) carry else lower]> l).

(** The loop, over the word numbers in the order it visits them. *)
Fixpoint shift_words (words : nat) (bits : N) (order : list nat) (l : list N) : option (list N) :=
  match order with
  | [] => Some l
  | w :: order => l ← shift_word words bits l w; shift_words words bits order l
  end.

(** [AcceptedWindow::shift_up], on the bits. *)
Definition shift_up (l : list N) (by_ : N) : option (list N) :=
  let l := grown l in
  if (ACCEPT_WINDOW_BITS <=? by_)%N then Some (replicate (length l) 0%N)
  else
    let '(words, b) := window_word_bit by_ in
    shift_words words b (reverse (seq 0 ACCEPT_WINDOW_WORDS)) l.

(** [AcceptedWindow::accept]: the window afterwards and whether the number
    was fresh. *)
Definition accept (w : AcceptedWindow) (seq : N) : option (AcceptedWindow * bool) :=
  acc ← (if (seq =? 0)%N then Some true else is_accepted w seq);
  if (acc : bool) then Some (w, false)
  else if (high w <? seq)%N then
    shift ← u64_sub seq (high w);
    l ← shift_up (bits w) shift;
    l ← (if ((0 <? high w)%N && (shift <=? ACCEPT_WINDOW_BITS)%N)
         then (o ← u64_sub shift 1; Some (window_set l o))
         else Some l);
    Some ({| high := seq; bits := l |}, true)
  else
    below ← u64_sub (high w) 1;
    o ← u64_sub below seq;
    Some ({| high := high w; bits := window_set (bits w) o |}, true).

(** A run of [accept]s: the final window and the answers. *)
Fixpoint accept_all (w : AcceptedWindow) (seqs : list N) : option (AcceptedWindow * list bool) :=
  match seqs with
  | [] => Some (w, [])
  | s :: seqs =>
      '(w, fresh) ← accept w s;
      '(w, rest) ← accept_all w seqs;
      Some (w, fresh :: rest)
  end.

(** ** The bits as marks *)

(** The mark at an offset below the high mark. *)
Definition mark (l : list N) (o : N) : bool :=
  match l !! N.to_nat (o / 64) with Some word => N.testbit word (o mod 64) | None => false end.

(** Well-formed bits: words of 64 bits. *)
Definition words_ok (l : list N) : Prop := Forall (λ x, x < 2 ^ 64)%N l.

Lemma u64_sub_some a b : (b <= a)%N → u64_sub a b = Some (a - b)%N.
Proof. intros H. unfold u64_sub. by apply N.leb_le in H as ->. Qed.

Lemma u64_shl_one b : (b < 64)%N → u64_shl 1 b = (2 ^ b)%N.
Proof.
  intros H. unfold u64_shl. rewrite N.shiftl_1_l, N.mod_small; [done|].
  by apply N.pow_lt_mono_r.
Qed.

Lemma land_bit word b : (b < 64)%N → negb (N.land word (u64_shl 1 b) =? 0)%N = N.testbit word b.
Proof.
  intros H. rewrite u64_shl_one by done. apply land_bit_test.
Qed.

Lemma mod64_lt o : (o mod 64 < 64)%N.
Proof. by apply N.mod_upper_bound. Qed.

Lemma mark_bit w o :
  (match bits w !! N.to_nat (o / 64) with
   | Some word => negb (N.land word (u64_shl 1 (o mod 64)) =? 0)%N
   | None => false
   end) = mark (bits w) o.
Proof. unfold mark. case_match; [|done]. apply land_bit, mod64_lt. Qed.

(** [is_accepted] answers, and this is its answer. *)
Definition accepted (w : AcceptedWindow) (s : N) : bool :=
  (s =? high w)%N && negb (high w =? 0)%N
  || (s <? high w)%N && ((s + 1024 <? high w)%N || mark (bits w) (high w - 1 - s)).

Lemma is_accepted_total w s : is_accepted w s = Some (accepted w s).
Proof.
  unfold is_accepted, accepted.
  destruct (N.eqb_spec (high w) 0); simpl.
  { rewrite andb_false_r. destruct (N.ltb_spec s (high w)); [lia|done]. }
  destruct (N.ltb_spec (high w) s).
  { destruct (N.eqb_spec s (high w)); [lia|]. by destruct (N.ltb_spec s (high w)); [lia|]. }
  destruct (N.eqb_spec s (high w)); simpl; [done|].
  destruct (N.ltb_spec s (high w)); [|lia]. simpl.
  rewrite u64_sub_some by lia. simpl. rewrite u64_sub_some by lia. simpl.
  unfold ACCEPT_WINDOW_BITS.
  destruct (N.leb_spec 1024 (high w - 1 - s)), (N.ltb_spec (s + 1024) (high w));
    try lia; simpl; [done|]. by rewrite <-mark_bit.
Qed.

(** ** Marks under [set] and [shift_up] *)

Lemma split64 n q r : (n = 64 * q + r)%N → (r < 64)%N → (n / 64 = q)%N ∧ (n mod 64 = r)%N.
Proof.
  intros -> Hr. split; [symmetry; by apply (N.div_unique _ _ _ r)|].
  symmetry. by apply (N.mod_unique _ _ q).
Qed.

Lemma mark_at l (i : nat) j : (j < 64)%N →
  mark l (64 * N.of_nat i + j) = match l !! i with Some x => N.testbit x j | None => false end.
Proof.
  intros Hj. unfold mark.
  destruct (split64 (64 * N.of_nat i + j) (N.of_nat i) j) as [-> ->]; [done..|].
  by rewrite Nat2N.id.
Qed.

(** Every offset is a word number and a bit of it. *)
Lemma offset_split o : ∃ (i : nat) j, (o = 64 * N.of_nat i + j)%N ∧ (j < 64)%N.
Proof.
  exists (N.to_nat (o / 64)), (o mod 64)%N. split; [|apply mod64_lt].
  rewrite N2Nat.id. apply N.div_mod'.
Qed.

Lemma length_grown l : (ACCEPT_WINDOW_WORDS ≤ length (grown l))%nat.
Proof.
  unfold grown. destruct (Nat.ltb_spec (length l) ACCEPT_WINDOW_WORDS); [|done].
  by rewrite length_resize.
Qed.

Lemma grown_words_ok l : words_ok l → words_ok (grown l).
Proof.
  intros H. unfold grown. case_match; [|done]. by apply Forall_resize.
Qed.

Lemma mark_grown l o : mark (grown l) o = mark l o.
Proof.
  unfold grown. destruct (Nat.ltb_spec (length l) ACCEPT_WINDOW_WORDS) as [Hl|]; [|done].
  destruct (offset_split o) as (i & j & -> & Hj). rewrite !mark_at by done.
  destruct (decide (i < length l)%nat) as [Hi|Hi]; [by rewrite lookup_resize by lia|].
  rewrite (lookup_ge_None_2 l) by lia.
  destruct (decide (i < ACCEPT_WINDOW_WORDS)%nat); [|by rewrite lookup_resize_old by lia].
  rewrite lookup_resize_new by lia. apply N.bits_0.
Qed.

Lemma lor_bound a b : (a < 2 ^ 64)%N → (b < 2 ^ 64)%N → (N.lor a b < 2 ^ 64)%N.
Proof.
  intros Ha Hb. destruct (N.eqb_spec (N.lor a b) 0) as [->|Hne]; [done|].
  apply N.log2_lt_pow2; [lia|]. rewrite N.log2_lor. apply N.max_lub_lt.
  - destruct (N.eqb_spec a 0) as [->|]; [done|]. apply N.log2_lt_pow2; [lia|done].
  - destruct (N.eqb_spec b 0) as [->|]; [done|]. apply N.log2_lt_pow2; [lia|done].
Qed.

(** [set] marks its offset and nothing else. *)
Lemma mark_set l o o' : (o < 1024)%N → mark (window_set l o) o' = bool_decide (o' = o) || mark l o'.
Proof.
  intros Ho. rewrite <-(mark_grown l o'). unfold window_set, window_word_bit. simpl.
  destruct (offset_split o) as (i & j & -> & Hj), (offset_split o') as (i' & j' & -> & Hj').
  destruct (split64 (64 * N.of_nat i + j) (N.of_nat i) j) as [-> ->]; [done..|].
  rewrite Nat2N.id, !mark_at, u64_shl_one by done.
  pose proof (length_grown l) as Hlen. unfold ACCEPT_WINDOW_WORDS in Hlen.
  destruct (decide (i' = i)) as [->|Hi].
  - rewrite list_lookup_alter_eq.
    destruct (lookup_lt_is_Some_2 (grown l) i) as [x Hx]; [lia|]. rewrite Hx. simpl.
    rewrite N.lor_spec, N.pow2_bits_eqb, orb_comm. f_equal.
    apply eq_true_iff_eq. rewrite N.eqb_eq, bool_decide_eq_true. lia.
  - rewrite list_lookup_alter_ne by done. rewrite bool_decide_eq_false_2; [done|lia].
Qed.

Lemma window_set_ok l o : words_ok l → words_ok (window_set l o).
Proof.
  intros H%grown_words_ok. unfold window_set, window_word_bit. simpl.
  apply Forall_alter; [done|]. intros x _ Hx. apply lor_bound; [done|].
  rewrite u64_shl_one by apply mod64_lt. apply N.pow_lt_mono_r; [done|apply mod64_lt].
Qed.

(** The word the loop writes at [i], from the words before the shift. *)
Definition shifted (words : nat) (b : N) (l : list N) (i : nat) : N :=
  let lower := if (words <=? i)%nat then default 0%N (l !! (i - words)%nat) else 0%N in
  let carry := if (0 <? b)%N && (words <? i)%nat
               then N.shiftr (default 0%N (l !! (i - words - 1)%nat)) (64 - b) else 0%N in
  if (0 <? b)%N then N.lor (u64_shl lower b) carry else lower.

Lemma shift_word_total words b l w : (b < 64)%N → (w < length l)%nat →
  shift_word words b l w = Some (<[w := shifted words b l w]> l).
Proof.
  intros Hb Hw. unfold shift_word, shifted.
  assert (Hsome : ∀ k, (k ≤ w)%nat → l !! k = Some (default 0%N (l !! k))).
  { intros k Hk. destruct (lookup_lt_is_Some_2 l k) as [x ->]; [lia|done]. }
  destruct (Nat.leb_spec words w); [rewrite (Hsome (w - words)%nat) by lia|];
    (destruct ((0 <? b)%N && (words <? w)%nat);
      [rewrite (Hsome (w - words - 1)%nat) by lia|]); simpl;
    rewrite ?u64_sub_some by lia; simpl; by rewrite (Hsome w).
Qed.

Lemma shifted_local words b l w x i : (i < w)%nat →
  shifted words b (<[w := x]> l) i = shifted words b l i.
Proof. intros Hi. unfold shifted. rewrite !list_lookup_insert_ne by lia. done. Qed.

(** The loop runs downwards, so each word is computed from old words. *)
Lemma shift_words_spec words b n l : (b < 64)%N → (n ≤ length l)%nat →
  ∃ l', shift_words words b (reverse (seq 0 n)) l = Some l' ∧ length l' = length l ∧
    ∀ i, l' !! i = if (i <? n)%nat then Some (shifted words b l i) else l !! i.
Proof.
  intros Hb. revert l. induction n as [|n IH]; intros l Hn; [by exists l|].
  rewrite seq_S, reverse_app. simpl. rewrite shift_word_total by (done || lia). simpl.
  destruct (IH (<[n := shifted words b l n]> l)) as (l' & Hrun & Hlen & Hl').
  { rewrite length_insert. lia. }
  exists l'. rewrite length_insert in Hlen. split; [done|]. split; [done|]. intros i.
  rewrite Hl'. destruct (Nat.ltb_spec i n), (Nat.ltb_spec i (S n)); try lia.
  - by rewrite shifted_local.
  - replace i with n by lia. rewrite list_lookup_insert_eq; [done|lia].
  - by rewrite list_lookup_insert_ne by lia.
Qed.

Lemma testbit_above x j : (x < 2 ^ 64)%N → (64 <= j)%N → N.testbit x j = false.
Proof.
  intros Hx Hj. destruct (N.eqb_spec x 0) as [->|]; [apply N.bits_0|].
  apply N.bits_above_log2. apply N.lt_le_trans with 64%N; [|done].
  apply N.log2_lt_pow2; [lia|done].
Qed.

Lemma words_ok_lookup l i : words_ok l → (default 0 (l !! i) < 2 ^ 64)%N.
Proof. intros H. destruct (l !! i) eqn:E; [|done]. simpl. by eapply Forall_lookup_1 in H. Qed.

(** A bit of a shifted word is the bit [64 * words + b] positions lower. *)
Lemma shifted_bit words b l i j : words_ok l → (b < 64)%N → (j < 64)%N →
  let by_ := (64 * N.of_nat words + b)%N in
  let o := (64 * N.of_nat i + j)%N in
  N.testbit (shifted words b l i) j = (by_ <=? o)%N && mark l (o - by_).
Proof.
  intros Hw Hb Hj by_ o. unfold shifted.
  assert (Hdef : ∀ k, match l !! k with Some x => N.testbit x j | None => false end
                      = N.testbit (default 0%N (l !! k)) j).
  { intros k. destruct (l !! k); [done|]. by rewrite N.bits_0. }
  destruct (N.ltb_spec 0 b) as [Hb0|Hb0].
  - rewrite N.lor_spec. unfold u64_shl. rewrite N.mod_pow2_bits_low by done. cbn [andb].
    destruct (N.leb_spec b j) as [Hbj|Hbj].
    + rewrite N.shiftl_spec_high' by done.
      assert (N.testbit (if (words <? i)%nat then N.shiftr (default 0%N (l !! (i - words - 1)%nat)) (64 - b) else 0%N) j = false) as ->.
      { case_match; [|apply N.bits_0]. rewrite N.shiftr_spec'.
        apply testbit_above; [by apply words_ok_lookup|lia]. }
      rewrite orb_false_r. destruct (Nat.leb_spec words i), (N.leb_spec by_ o); try lia;
        [|by rewrite N.bits_0].
      replace (o - by_)%N with (64 * N.of_nat (i - words) + (j - b))%N by lia.
      rewrite mark_at by lia. destruct (l !! _); [done|]. apply N.bits_0.
    + rewrite N.shiftl_spec_low by done. cbn [orb].
      destruct (Nat.ltb_spec words i), (N.leb_spec by_ o); try lia; [|apply N.bits_0].
      rewrite N.shiftr_spec'.
      replace (o - by_)%N with (64 * N.of_nat (i - words - 1) + (j + (64 - b)))%N by lia.
      rewrite mark_at by lia. destruct (l !! _); [done|]. apply N.bits_0.
  - assert (b = 0%N) as -> by lia.
    destruct (Nat.leb_spec words i), (N.leb_spec by_ o); try lia; [|apply N.bits_0].
    replace (o - by_)%N with (64 * N.of_nat (i - words) + j)%N by lia.
    by rewrite mark_at, Hdef.
Qed.

Lemma shiftr_bound x k : (x < 2 ^ 64)%N → (N.shiftr x k < 2 ^ 64)%N.
Proof.
  intros Hx. rewrite N.shiftr_div_pow2. apply N.le_lt_trans with x; [|done].
  apply N.Div0.div_le_upper_bound. pose proof (N.pow_nonzero 2 k). nia.
Qed.

Lemma shifted_bound words b l i : words_ok l → (shifted words b l i < 2 ^ 64)%N.
Proof.
  intros Hw. pose proof (λ k, words_ok_lookup l k Hw) as Hk. unfold shifted.
  destruct (0 <? b)%N; cbn [andb]; [apply lor_bound|]; repeat case_match;
    by (apply shiftr_bound || apply N.mod_upper_bound || idtac).
Qed.

(** [shift_up] does not panic, and moves every mark up by its argument;
    marks pushed past the window are gone. *)
Lemma shift_up_spec l by_ : words_ok l →
  ∃ l', shift_up l by_ = Some l' ∧ words_ok l' ∧
    ∀ o, (o < 1024)%N → mark l' o = (by_ <=? o)%N && mark l (o - by_).
Proof.
  intros Hw. unfold shift_up, ACCEPT_WINDOW_BITS. pose proof (grown_words_ok l Hw) as Hg.
  destruct (N.leb_spec 1024 by_).
  - eexists. split; [done|]. split; [by apply Forall_replicate|].
    intros o Ho. destruct (N.leb_spec by_ o); [lia|]. cbn [andb].
    destruct (offset_split o) as (i & j & -> & Hj). rewrite mark_at by done.
    destruct (replicate _ _ !! i) eqn:E; [|done].
    apply lookup_replicate in E as [-> _]. apply N.bits_0.
  - unfold window_word_bit. pose proof (length_grown l) as Hlen.
    destruct (shift_words_spec (N.to_nat (by_ / 64)) (by_ mod 64) ACCEPT_WINDOW_WORDS (grown l))
      as (l' & Hrun & _ & Hl'); [apply mod64_lt|done|].
    exists l'. split; [done|]. split.
    + apply Forall_lookup. intros i x. rewrite Hl'. case_match; [|by apply (Forall_lookup_1 _ _ _ _ Hg)].
      intros [= <-]. by apply shifted_bound.
    + intros o Ho. rewrite <-(mark_grown l). destruct (offset_split o) as (i & j & -> & Hj).
      rewrite (mark_at l'), Hl' by done. unfold ACCEPT_WINDOW_WORDS.
      destruct (Nat.ltb_spec i 16); [|lia].
      rewrite shifted_bit by (done || apply mod64_lt).
      rewrite N2Nat.id, <-N.div_mod'. done.
Qed.

(** What a fresh number above the high mark does to the answers. *)
Lemma accepted_raised w s l l' t : (high w < s)%N →
  (∀ o, (o < 1024)%N → mark l o = (s - high w <=? o)%N && mark (bits w) (o - (s - high w))) →
  l' = (if (0 <? high w)%N && (s - high w <=? 1024)%N then window_set l (s - high w - 1) else l) →
  accepted {| high := s; bits := l' |} t = accepted w t || (t =? s)%N || (t + 1024 <? s)%N.
Proof.
  intros Hlt Hmark ->. unfold accepted; simpl.
  destruct (N.eqb_spec s 0); [lia|]. cbn [negb]. rewrite andb_true_r.
  destruct (N.eqb_spec t s) as [->|Hts]; [by rewrite orb_true_r|]. rewrite orb_false_r. cbn [orb].
  destruct (N.ltb_spec t s) as [Hlts|]; cbn [andb].
  2:{ destruct (N.ltb_spec (t + 1024) s), (N.eqb_spec t (high w)), (N.ltb_spec t (high w)); by lia. }
  destruct (N.ltb_spec (t + 1024) s); [by rewrite orb_true_r|]. rewrite orb_false_r. cbn [orb].
  assert (Hm : mark l (s - 1 - t) = (t <? high w)%N && mark (bits w) (high w - 1 - t)).
  { rewrite Hmark by lia. destruct (N.leb_spec (s - high w) (s - 1 - t)), (N.ltb_spec t (high w));
      try lia. f_equal. f_equal. lia. }
  destruct (N.ltb_spec (t + 1024) (high w)); [lia|]. cbn [orb]. rewrite <-Hm.
  destruct (N.eqb_spec t (high w)) as [->|]; cbn [orb andb].
  - destruct (N.ltb_spec 0 (high w)), (N.leb_spec (s - high w) 1024), (N.eqb_spec (high w) 0);
      try lia; cbn [andb negb orb]; [|done].
    rewrite mark_set by lia. by rewrite bool_decide_eq_true_2 by lia.
  - case_match; [|done]. rewrite mark_set by (to_prop; lia).
    by rewrite bool_decide_eq_false_2 by (to_prop; lia).
Qed.

(** What a fresh number below the high mark does to the answers. *)
Lemma accepted_filled w s t : (s < high w)%N → (high w <= s + 1024)%N →
  accepted {| high := high w; bits := window_set (bits w) (high w - 1 - s) |} t
  = accepted w t || (t =? s)%N || (t + 1024 <? high w)%N.
Proof.
  intros Hh Haged. unfold accepted; simpl.
  destruct (N.eqb_spec t (high w)) as [->|].
  { by destruct (N.eqb_spec (high w) 0); [lia|]. }
  cbn [andb orb]. destruct (N.ltb_spec t (high w)); cbn [andb orb].
  - destruct (N.ltb_spec (t + 1024) (high w)); [done|]. cbn [orb]. rewrite orb_false_r, mark_set by lia.
    rewrite orb_comm. f_equal. apply eq_true_iff_eq. rewrite bool_decide_eq_true, N.eqb_eq. lia.
  - destruct (N.eqb_spec t s), (N.ltb_spec (t + 1024) (high w)); by lia.
Qed.

(** [accept] does not panic.  A number is fresh unless it is zero or reads as
    accepted; afterwards exactly the numbers accepted before, the fresh one
    and those that fell below the window read as accepted. *)
Lemma accept_spec w s : words_ok (bits w) →
  let fresh := negb (s =? 0)%N && negb (accepted w s) in
  ∃ w', accept w s = Some (w', fresh) ∧ words_ok (bits w') ∧
    high w' = (if fresh then N.max (high w) s else high w) ∧
    ∀ t, accepted w' t = accepted w t || fresh && (t =? s)%N || (t + 1024 <? high w')%N.
Proof.
  intros Hw fresh. unfold accept, fresh.
  assert (Hold : ∀ t, accepted w t = accepted w t || false || (t + 1024 <? high w)%N).
  { intros t. unfold accepted. destruct (N.ltb_spec (t + 1024) (high w)); [|by rewrite !orb_false_r].
    destruct (N.ltb_spec t (high w)); [|lia]. by rewrite orb_true_r. }
  destruct (N.eqb_spec s 0) as [->|Hs]; simpl; [by exists w|].
  rewrite is_accepted_total. simpl.
  destruct (accepted w s) eqn:Hacc; simpl; [by exists w|].
  destruct (N.ltb_spec (high w) s) as [Hlt|Hge].
  - rewrite u64_sub_some by lia. simpl.
    destruct (shift_up_spec (bits w) (s - high w) Hw) as (l & -> & Hl & Hmark). simpl.
    exists {| high := s; bits := if (0 <? high w)%N && (s - high w <=? 1024)%N
                               then window_set l (s - high w - 1) else l |}.
    split; [|split; [|split]]; simpl.
    + unfold ACCEPT_WINDOW_BITS. case_match; [|done]. by rewrite u64_sub_some by lia.
    + case_match; [by apply window_set_ok|done].
    + lia.
    + intros t. by eapply accepted_raised.
  - assert (Hh : (s < high w)%N ∧ (high w <= s + 1024)%N).
    { unfold accepted in Hacc. destruct (N.eqb_spec s (high w)), (N.eqb_spec (high w) 0), (N.ltb_spec s (high w)),
        (N.ltb_spec (s + 1024) (high w)); simpl in Hacc; try done; lia. }
    destruct Hh as [Hh Haged]. rewrite u64_sub_some by lia. simpl. rewrite u64_sub_some by lia. simpl.
    eexists. split; [done|]. simpl. split; [by apply window_set_ok|]. split; [lia|]. intros t.
    by apply accepted_filled.
Qed.

(** ** Runs *)

(** The highest number of a run, zero for none. *)
Definition top (seqs : list N) : N := foldr N.max 0%N seqs.

Lemma top_snoc seqs s : top (seqs ++ [s]) = N.max (top seqs) s.
Proof. induction seqs as [|x seqs IH]; simpl; [lia|]. fold (top (seqs ++ [s])) (top seqs). lia. Qed.

Lemma top_ge seqs s : s ∈ seqs → (s <= top seqs)%N.
Proof. induction 1 as [|? x ? ? IH]; simpl; [lia|]. fold (top l). lia. Qed.

(** What a run of arrivals amounts to: the numbers that arrived, and those
    too far below the highest of them. *)
Definition taken (seqs : list N) (t : N) : Prop :=
  t ≠ 0%N ∧ t ∈ seqs ∨ (t + 1024 < top seqs)%N.

#[export] Instance taken_dec seqs t : Decision (taken seqs t).
Proof. unfold taken. apply _. Defined.

(** The window stands for the arrivals. *)
Record window_repr (w : AcceptedWindow) (seqs : list N) : Prop := {
  wr_words : words_ok (bits w);
  wr_high : high w = top seqs;
  wr_taken t : accepted w t = bool_decide (taken seqs t);
}.

Lemma window_default_repr : window_repr window_default [].
Proof.
  split; [constructor|done|]. intros t. unfold accepted. simpl.
  destruct (N.ltb_spec t 0); [lia|]. rewrite andb_false_r. symmetry.
  apply bool_decide_eq_false. unfold taken. simpl. intros [[_ []%not_elem_of_nil]|?]. lia.
Qed.

Lemma accept_repr w seqs s : window_repr w seqs →
  ∃ w', accept w s = Some (w', bool_decide (s ≠ 0%N ∧ ¬ taken seqs s)) ∧
    window_repr w' (seqs ++ [s]).
Proof.
  intros [Hw Hh Ht]. destruct (accept_spec w s Hw) as (w' & Hrun & Hw' & Hh' & Ht').
  exists w'. rewrite Ht in Hrun, Hh'. setoid_rewrite Ht in Ht'.
  assert (Hf : negb (s =? 0)%N && negb (bool_decide (taken seqs s))
               = bool_decide (s ≠ 0%N ∧ ¬ taken seqs s)).
  { apply eq_true_iff_eq. rewrite andb_true_iff, !negb_true_iff, N.eqb_neq,
      bool_decide_eq_true, bool_decide_eq_false. done. }
  rewrite Hf in Hrun, Hh', Ht'. split; [done|].
  assert (Htop : high w' = top (seqs ++ [s])).
  { rewrite top_snoc, Hh', Hh. destruct (bool_decide _) eqn:Hc; [done|].
    apply bool_decide_eq_false in Hc. unfold taken in Hc.
    destruct (decide (s <= top seqs)%N); [lia|]. destruct Hc. split; [lia|].
    intros [[_ Hin%top_ge]|?]; lia. }
  split; [done|done|]. intros t. rewrite Ht', Htop. apply eq_true_iff_eq.
  rewrite !orb_true_iff, andb_true_iff, !bool_decide_eq_true, N.eqb_eq, N.ltb_lt.
  unfold taken. rewrite top_snoc, elem_of_app, list_elem_of_singleton.
  split.
  { intros [[[[? ?]|?]|[[? ?] ->]]|?]; [left; auto|right; lia|left; auto|right; lia]. }
  intros [[? [?| ->]]|?]; [by auto| |by auto]. destruct (decide (taken seqs s)) as [Hs|Hs]; [|by auto].
  unfold taken in Hs. tauto.
Qed.

Lemma accept_all_repr seqs w pre : window_repr w pre →
  ∃ w' fs, accept_all w seqs = Some (w', fs) ∧ window_repr w' (pre ++ seqs) ∧
    ∀ i s, seqs !! i = Some s →
      fs !! i = Some (bool_decide (s ≠ 0%N ∧ ¬ taken (pre ++ take i seqs) s)).
Proof.
  revert w pre. induction seqs as [|x seqs IH]; intros w pre Hr; simpl.
  { exists w, []. by rewrite app_nil_r. }
  destruct (accept_repr w pre x Hr) as (w1 & -> & Hr1). simpl.
  destruct (IH w1 (pre ++ [x]) Hr1) as (w' & fs & -> & Hr' & Hfs). simpl.
  exists w', (bool_decide (x ≠ 0%N ∧ ¬ taken pre x) :: fs). split; [done|].
  rewrite <-app_assoc in Hr'. split; [done|].
  intros [|i] s; simpl; [intros [= ->]; by rewrite app_nil_r|].
  intros Hi. rewrite (Hfs i s Hi), <-app_assoc. done.
Qed.

(** C38: the accept window is an exact duplicate filter.  Over any sequence of
    arrivals the window never panics, and it answers fresh to an arrival
    exactly when its number is not zero, has not arrived before, and is no
    more than 1024 below the highest number seen; afterwards the numbers that
    read as accepted are those that arrived and those further below. *)
Theorem accept_window_exact (seqs : list N) :
  ∃ w fs, accept_all window_default seqs = Some (w, fs) ∧
    (∀ i s, seqs !! i = Some s →
      fs !! i = Some (bool_decide (s ≠ 0%N ∧ s ∉ take i seqs ∧ (top (take i seqs) <= s + 1024)%N))) ∧
    (∀ t, is_accepted w t =
      Some (bool_decide (t ≠ 0%N ∧ t ∈ seqs ∨ (t + 1024 < top seqs)%N))).
Proof.
  destruct (accept_all_repr seqs _ _ window_default_repr) as (w & fs & Hrun & Hr & Hfs).
  exists w, fs. split; [done|]. split.
  - intros i s Hi. rewrite (Hfs i s Hi). do 2 f_equal. simpl. apply bool_decide_ext.
    unfold taken. split.
    + intros [? Hn]. split; [done|]. split; [tauto|]. apply N.nlt_ge. tauto.
    + intros (? & ? & ?%N.nlt_ge). tauto.
  - intros t. rewrite is_accepted_total. f_equal. apply Hr.
Qed.
