(* ===== verification/Delivery.v ===== *)
(** * The delivery guarantee of the broadcast channel

    Sender side: the per-peer acked floor, the broadcast cursor, the publish
    pass and the rationed resend rounds (crates/molt-net/src/supervisor.rs
    [own_ackable], [advance_acked_floor], [rewind_unacked], [MemLog];
    group_ack.rs [GroupAck]; group_runtime.rs).  The receivers are their
    [AcceptedWindow]s.  The components run as a transition system: events are
    logged, frames published or not, delivered or lost, claim sheets arrive
    late, out of order or from a receiver that lost part of its window; over
    every run, the floor is honest and a granted round re-offers whatever a
    listener still misses. *)

From S2P Require Import Prelude Window.

(** ** Data *)

(** The body of an event, as far as delivery looks at it: an [MlsCommit] is
    consumed by the transport, everything else reaches the peer's engine. *)
Inductive WorkspaceEvent :=
  | MlsCommit
  | EngineEvent (what : string).

Record EventEnvelope := {
  env_seq : N;
  env_by : string;
  env_body : WorkspaceEvent;
}.

Record OutboundCursor := {
  oc_log_seq : N;
  oc_wire_seq : N;
  acked_floor : N;
  ack_seen : bool;
  resend_epoch : N;
}.

Definition outbound_default : OutboundCursor :=
  {| oc_log_seq := 0; oc_wire_seq := 0; acked_floor := 0; ack_seen := false; resend_epoch := 0 |}.

Record GroupCursor := {
  gc_log_seq : N;
  resend_rounds : N;
  resend_window_start : N;
  heal_evidence : bool;
  heal_rounds : N;
}.

Definition group_default : GroupCursor :=
  {| gc_log_seq := 0; resend_rounds := 0; resend_window_start := 0;
     heal_evidence := false; heal_rounds := 0 |}.

(** The delivery cursors of [TransportState]. *)
Record TransportState := {
  outbound : gmap string OutboundCursor;
  group : option GroupCursor;
}.

(** [GroupNetConfig] without its timings. *)
Record GroupNetConfig := { cfg_member : string; cfg_members : list string }.

Record GroupAck := { ack_v : N; ack_by : string; claims : gmap string AcceptedWindow }.

Definition RESEND_ROUNDS_PER_HOUR : N := 12.

(** ** The acked floor *)

Definition own_ackable (me : string) (env : EventEnvelope) : bool :=
  bool_decide (env_by env = me) && match env_body env with MlsCommit => false | _ => true end.

(** [MemLog::read_from]: the log is in sequence order, so the partition point
    is where the leading run of smaller numbers ends. *)
Fixpoint read_from (log : list EventEnvelope) (from_seq : N) : list EventEnvelope :=
  match log with
  | [] => []
  | x :: rest => if (env_seq x <? from_seq)%N then read_from rest from_seq else log
  end.

Fixpoint advance_acked_floor (me : string) (envs : list EventEnvelope) (win : AcceptedWindow)
    (floor : N) : option N :=
  match envs with
  | [] => Some floor
  | env :: envs =>
      stop ← (if own_ackable me env
              then if (high win <? env_seq env)%N then Some true
                   else acc ← is_accepted win (env_seq env); Some (negb acc)
              else Some false);
      if (stop : bool) then Some floor else advance_acked_floor me envs win (env_seq env)
  end.

(** [GroupAck::window_for]. *)
Definition window_for (ack : GroupAck) (me : string) : option AcceptedWindow :=
  w ← claims ack !! me; if (0 <? high w)%N then Some w else None.

Definition set_group (g : GroupCursor) (st : TransportState) : TransportState :=
  {| outbound := outbound st; group := Some g |}.

Definition set_outbound (m : string) (c : OutboundCursor) (st : TransportState) : TransportState :=
  {| outbound := <[m := c]> (outbound st); group := group st |}.

(** [apply_group_ack], first half: the floor a claim sheet [ack] of member
    [from] proves, against the state loaded before the log was read. *)
Definition ack_floor (log : list EventEnvelope) (me from : string) (ack : GroupAck)
    (st : TransportState) : option (option N) :=
  match window_for ack me with
  | None => Some None
  | Some window =>
      let old := match outbound st !! from with Some c => acked_floor c | None => 0%N end in
      floor ← advance_acked_floor me (read_from log (u64_saturating_add old 1)) window old;
      Some (Some floor)
  end.

(** [apply_group_ack], second half: the state update, which another sheet
    may have preceded. *)
Definition record_floor (from : string) (floor : N) (st : TransportState) : TransportState :=
  let g := default group_default (group st) in
  let g := if (floor <? gc_log_seq g)%N && negb (heal_evidence g)
           then {| gc_log_seq := gc_log_seq g; resend_rounds := resend_rounds g;
                   resend_window_start := resend_window_start g;
                   heal_evidence := true; heal_rounds := heal_rounds g |}
           else g in
  let cur := default outbound_default (outbound st !! from) in
  let cur := {| oc_log_seq := oc_log_seq cur; oc_wire_seq := oc_wire_seq cur;
                acked_floor := if (acked_floor cur <? floor)%N then floor else acked_floor cur;
                ack_seen := true;
                resend_epoch := resend_epoch cur |} in
  set_outbound from cur (set_group g st).

(** ** The broadcast cursor *)

(** The least of some floors. *)
Fixpoint min_opt (l : list N) : option N :=
  match l with
  | [] => None
  | x :: l => Some (match min_opt l with Some y => N.min x y | None => x end)
  end.

Definition group_floor (cfg : GroupNetConfig) (st : TransportState) : option N :=
  min_opt (acked_floor <$> filter (λ c, ack_seen c = true)
             (omap (λ m, outbound st !! m) (cfg_members cfg))).

Definition set_log_seq (n : N) (g : GroupCursor) : GroupCursor :=
  {| gc_log_seq := n; resend_rounds := resend_rounds g;
     resend_window_start := resend_window_start g;
     heal_evidence := heal_evidence g; heal_rounds := heal_rounds g |}.

Definition rewind_group (cfg : GroupNetConfig) (st : TransportState) : TransportState :=
  match group_floor cfg st with
  | None => st
  | Some floor =>
      let cur := default group_default (group st) in
      if (floor <? gc_log_seq cur)%N then set_group (set_log_seq floor cur) st else st
  end.

(** ** The budget *)

Definition roll_resend_window (cur : GroupCursor) (now : N) : GroupCursor :=
  if (3600 <=? now - resend_window_start cur)%N
  then {| gc_log_seq := gc_log_seq cur; resend_rounds := 0; resend_window_start := now;
          heal_evidence := heal_evidence cur; heal_rounds := 0 |}
  else cur.

Definition consume_resend_round (cur : GroupCursor) (now : N) : GroupCursor * bool :=
  let cur := roll_resend_window cur now in
  if (RESEND_ROUNDS_PER_HOUR <=? resend_rounds cur)%N then (cur, false)
  else ({| gc_log_seq := gc_log_seq cur; resend_rounds := N.min (resend_rounds cur + 1) u32_max;
           resend_window_start := resend_window_start cur;
           heal_evidence := false; heal_rounds := heal_rounds cur |}, true).

Definition consume_heal_round (cur : GroupCursor) (now : N) : GroupCursor * bool :=
  let cur := roll_resend_window cur now in
  if negb (heal_evidence cur) || (0 <? heal_rounds cur)%N then (cur, false)
  else ({| gc_log_seq := gc_log_seq cur; resend_rounds := resend_rounds cur;
           resend_window_start := resend_window_start cur;
           heal_evidence := false; heal_rounds := 1 |}, true).

Inductive StallRound :=
  | NoFloor
  | Spent (floor : N)
  | Granted (floor : N) (heal : bool).

(** The state step of a fired stall clock ([outbox_loop]). *)
Definition stall_round (cfg : GroupNetConfig) (now : N) (st : TransportState)
  : TransportState * StallRound :=
  match group_floor cfg st with
  | None => (st, NoFloor)
  | Some f =>
      let '(cur, ok) := consume_resend_round (default group_default (group st)) now in
      if ok then (rewind_group cfg (set_group cur st), Granted f false)
      else
        let '(cur, ok) := consume_heal_round cur now in
        if ok then (rewind_group cfg (set_group cur st), Granted f true)
        else (st, Spent f)
  end.

(** ** The publish pass *)

Inductive PublishStall := Transient | Permanent | Stopped.
Inductive PassOutcome := PassDone | PassHeld | PassStopped.

(** What lies outside: whether MLS can frame an envelope ([group_frame]), and
    what the relays made of the frame ([publish_with_backoff]). *)
Record Net := {
  group_frame : EventEnvelope → bool;
  publish : EventEnvelope → option PublishStall;
}.

(** [publish_batch]: how far the cursor may go, the numbers that went out,
    and how the pass ended. *)
Fixpoint publish_batch (cfg : GroupNetConfig) (net : Net) (batch : list EventEnvelope)
    (through : N) : N * list N * PassOutcome :=
  match batch with
  | [] => (through, [], PassDone)
  | env :: batch =>
      if negb (bool_decide (env_by env = cfg_member cfg))
      then publish_batch cfg net batch (env_seq env)
      else if negb (group_frame net env) then publish_batch cfg net batch (env_seq env)
      else match publish net env with
           | None =>
               let '(t, out, o) := publish_batch cfg net batch (env_seq env) in
               (t, env_seq env :: out, o)
           | Some Stopped => (through, [], PassStopped)
           | Some _ => (through, [], PassHeld)
           end
  end.

Definition persist_cursor (start published_through : N) (st : TransportState) : TransportState :=
  if (published_through <=? start)%N then st
  else
    let cur := default group_default (group st) in
    if (gc_log_seq cur <? published_through)%N
    then set_group (set_log_seq published_through cur) st else st.

(** [publish_pass]; [None] where [start + 1] overflows. *)
Definition publish_pass (cfg : GroupNetConfig) (net : Net) (log : list EventEnvelope)
    (st : TransportState) : option (TransportState * list N * PassOutcome) :=
  let start := gc_log_seq (default group_default (group st)) in
  from ← u64_checked_add start 1;
  let '(t, out, o) := publish_batch cfg net (read_from log from) start in
  Some (persist_cursor start t st, out, o).

(** ** The system *)

(** The sender's state and log, the numbers it has put on the wire, what each
    peer's engine has accepted of them, the floors computed from sheets whose
    update is still to run, and the own events MLS failed to frame. *)
Record world := mkWorld {
  w_st : TransportState;
  w_log : list EventEnvelope;
  w_offered : list N;
  w_arrived : string → list N;
  w_pending : list (string * N);
  w_skipped : list N;
}.

Definition log_top (log : list EventEnvelope) : N := top (env_seq <$> log).

Definition world_init : world :=
  mkWorld {| outbound := ∅; group := None |} [] [] (λ _, []) [] [].

Definition arrive (m : string) (s : N) (a : string → list N) : string → list N :=
  λ m', if decide (m' = m) then a m' ++ [s] else a m'.

(** The own events a pass skips, because MLS cannot frame them. *)
Definition unframed (cfg : GroupNetConfig) (net : Net) (log : list EventEnvelope) : list N :=
  env_seq <$> filter (λ e, env_by e = cfg_member cfg ∧ group_frame net e = false) log.

Section System.
Context (cfg : GroupNetConfig).

Inductive wstep : world → world → Prop :=
  (** the engine appends an event, own or foreign *)
  | w_append st log off arr pend skip env :
      (log_top log < env_seq env)%N →
      wstep (mkWorld st log off arr pend skip) (mkWorld st (log ++ [env]) off arr pend skip)
  (** the outbox runs a pass *)
  | w_pass st log off arr pend skip net st' out o :
      publish_pass cfg net log st = Some (st', out, o) →
      wstep (mkWorld st log off arr pend skip) (mkWorld st' log (off ++ out) arr pend (skip ++ unframed cfg net log))
  (** a frame that went out reaches a peer, once or again *)
  | w_deliver st log off arr pend skip m s :
      s ∈ off →
      wstep (mkWorld st log off arr pend skip) (mkWorld st log off (arrive m s arr) pend skip)
  (** a sheet of [m] is read: its window is one [m] had, or has after losing
      part of what it accepted *)
  | w_sheet st log off arr pend skip m ack floor win seen :
      claims ack !! cfg_member cfg = Some win → window_repr win seen → seen ⊆ arr m →
      ack_floor log (cfg_member cfg) m ack st = Some (Some floor) →
      wstep (mkWorld st log off arr pend skip) (mkWorld st log off arr ((m, floor) :: pend) skip)
  (** the update of some sheet runs *)
  | w_record st log off arr pend skip m floor :
      (m, floor) ∈ pend →
      wstep (mkWorld st log off arr pend skip) (mkWorld (record_floor m floor st) log off arr pend skip)
  (** the stall clock fires *)
  | w_stall st log off arr pend skip now :
      wstep (mkWorld st log off arr pend skip)
            (mkWorld (fst (stall_round cfg now st)) log off arr pend skip)
  (** another publisher takes a round of the shared budget *)
  | w_meter st log off arr pend skip now :
      wstep (mkWorld st log off arr pend skip)
            (mkWorld (set_group (fst (consume_resend_round (default group_default (group st)) now)) st)
               log off arr pend skip).

Definition reachable (w : world) : Prop := rtc wstep world_init w.

(** The broadcast position of a state. *)
Definition position (st : TransportState) : N := gc_log_seq (default group_default (group st)).

(** A floor is honest for a peer: what the log holds up to it and the peer's
    engine can acknowledge, the peer has. *)
Definition floor_sound (log : list EventEnvelope) (arrived : list N) (floor : N) : Prop :=
  (floor <= log_top log)%N ∧
  ∀ e, e ∈ log → own_ackable (cfg_member cfg) e = true → (env_seq e <= floor)%N →
    taken arrived (env_seq e).

Record sound (w : world) : Prop := {
  s_sorted : StronglySorted N.lt (env_seq <$> w_log w);
  s_pos e : e ∈ w_log w → (0 < env_seq e)%N;
  s_cursor : (position (w_st w) <= log_top (w_log w))%N;
  s_floor m c : outbound (w_st w) !! m = Some c →
    floor_sound (w_log w) (w_arrived w m) (acked_floor c);
  s_pending m floor : (m, floor) ∈ w_pending w → floor_sound (w_log w) (w_arrived w m) floor;
  s_offered e : e ∈ w_log w → env_by e = cfg_member cfg →
    (env_seq e <= position (w_st w))%N →
    env_seq e ∈ w_offered w ∨ env_seq e ∈ w_skipped w;
}.

(** ** The parts of a step *)

Lemma log_top_snoc log env : log_top (log ++ [env]) = N.max (log_top log) (env_seq env).
Proof. unfold log_top. rewrite fmap_app. apply top_snoc. Qed.

Lemma log_top_ge log e : e ∈ log → (env_seq e <= log_top log)%N.
Proof. intros He. apply top_ge. by apply list_elem_of_fmap_2. Qed.

Lemma sorted_tail x (log : list EventEnvelope) e :
  StronglySorted N.lt (env_seq <$> x :: log) → e ∈ log → (env_seq x < env_seq e)%N.
Proof.
  intros [_ Hx]%StronglySorted_inv He. rewrite Forall_forall in Hx.
  apply Hx. by apply list_elem_of_fmap_2.
Qed.

Lemma sorted_snoc log env :
  StronglySorted N.lt (env_seq <$> log) → (log_top log < env_seq env)%N →
  StronglySorted N.lt (env_seq <$> log ++ [env]).
Proof.
  induction log as [|x log IH]; csimpl; intros Hs Ht; [by repeat constructor|].
  unfold log_top, top in *. csimpl in Ht.
  apply StronglySorted_inv in Hs as [Hs Hx]. constructor; [apply IH; [done|lia]|].
  rewrite fmap_app. apply Forall_app. split; [done|]. repeat constructor. lia.
Qed.

(** On a log in order, [read_from] returns what its contract says. *)
Lemma elem_of_read_from log n e : StronglySorted N.lt (env_seq <$> log) →
  e ∈ read_from log n ↔ e ∈ log ∧ (n <= env_seq e)%N.
Proof.
  induction log as [|x log IH]; intros Hs; [by split; [intros ?%elem_of_nil|intros [?%elem_of_nil _]]|].
  pose proof (sorted_tail x log) as Hlt. simpl.
  destruct (N.ltb_spec (env_seq x) n).
  - apply StronglySorted_inv in Hs as Hs'. rewrite IH by apply Hs'. rewrite elem_of_cons.
    split; [by intros [? ?]; auto|]. intros [[->|?] ?]; [lia|done].
  - split; [|by intros [? _]]. intros He. split; [done|].
    apply elem_of_cons in He as [->|He]; [done|]. specialize (Hlt e Hs He). lia.
Qed.

Lemma read_from_sorted log n :
  StronglySorted N.lt (env_seq <$> log) → StronglySorted N.lt (env_seq <$> read_from log n).
Proof.
  induction log as [|x log IH]; intros Hs; [done|]. simpl.
  destruct (env_seq x <? n)%N; [|done]. apply IH. by apply StronglySorted_inv in Hs as [? _].
Qed.

(** The floor walk answers; it stops before the first own event the window
    does not hold. *)
Lemma advance_acked_floor_spec me envs win floor :
  StronglySorted N.lt (env_seq <$> envs) →
  ∃ f, advance_acked_floor me envs win floor = Some f ∧
    (f = floor ∨ ∃ e, e ∈ envs ∧ f = env_seq e) ∧
    ∀ e, e ∈ envs → own_ackable me e = true → (env_seq e <= f)%N →
      accepted win (env_seq e) = true ∨ (env_seq e <= floor)%N.
Proof.
  revert floor. induction envs as [|x envs IH]; intros floor Hs; simpl.
  { exists floor. split; [done|]. split; [by left|]. by intros e ?%elem_of_nil. }
  pose proof (sorted_tail x envs) as Hlt.
  assert (∃ stop, (if own_ackable me x
      then if (high win <? env_seq x)%N then Some true
           else acc ← is_accepted win (env_seq x); Some (negb acc)
      else Some false) = Some stop ∧
      (stop = false → own_ackable me x = true → accepted win (env_seq x) = true)) as (stop & -> & Hstop).
  { destruct (own_ackable me x); [|by exists false].
    destruct (N.ltb_spec (high win) (env_seq x)); [by exists true|].
    rewrite is_accepted_total. simpl. eexists. split; [done|]. by intros ?%negb_false_iff. }
  simpl. destruct stop.
  { exists floor. split; [done|]. split; [by left|]. intros. by right. }
  apply StronglySorted_inv in Hs as Hs'. destruct Hs' as [Hs' _].
  destruct (IH (env_seq x) Hs') as (f & -> & Hf & Hacc). exists f. split; [done|]. split.
  - right. destruct Hf as [->|(e & He & ->)]; [exists x|exists e]; (split; [by constructor|done]).
  - intros e [->|He]%elem_of_cons Hown Hle; [left; auto|].
    destruct (Hacc e He Hown Hle) as [?|?]; [by left|]. specialize (Hlt e Hs He). lia.
Qed.

Lemma taken_mono a b t : a ⊆ b → taken a t → taken b t.
Proof.
  intros Hab [[? ?]|Ht]; [left; auto|right]. eapply N.lt_le_trans; [done|].
  clear Ht. induction a as [|x a IH]; simpl; [lia|]. fold (top a).
  apply N.max_lub; [apply top_ge; set_solver|apply IH; set_solver].
Qed.

Lemma floor_sound_mono log a b floor : a ⊆ b → floor_sound log a floor → floor_sound log b floor.
Proof. intros Hab [Ht Hs]. split; [done|]. intros. eapply taken_mono; eauto. Qed.

Lemma floor_sound_snoc log a floor env : (log_top log < env_seq env)%N →
  floor_sound log a floor → floor_sound (log ++ [env]) a floor.
Proof.
  intros Henv [Ht Hs]. split; [rewrite log_top_snoc; lia|].
  intros e [He| ->%list_elem_of_singleton]%elem_of_app; [by apply Hs|]. lia.
Qed.

(** The floor a sheet proves is honest. *)
Lemma ack_floor_sound st log arr m ack win seen floor :
  StronglySorted N.lt (env_seq <$> log) → (∀ e, e ∈ log → (0 < env_seq e)%N) →
  (∀ c, outbound st !! m = Some c → floor_sound log arr (acked_floor c)) →
  claims ack !! cfg_member cfg = Some win → window_repr win seen → seen ⊆ arr →
  ack_floor log (cfg_member cfg) m ack st = Some (Some floor) → floor_sound log arr floor.
Proof.
  intros Hs Hpos Hold Hc Hr Hsub. unfold ack_floor, window_for. rewrite Hc. simpl.
  destruct (0 <? high win)%N; [|done].
  set (old := match outbound st !! m with Some c => acked_floor c | None => 0%N end).
  assert (Ho : floor_sound log arr old).
  { unfold old. destruct (outbound st !! m) as [c|] eqn:E; [by apply Hold|].
    split; [lia|]. intros e He _ ?. specialize (Hpos e He). lia. }
  destruct (advance_acked_floor_spec (cfg_member cfg) (read_from log (u64_saturating_add old 1)) win old)
    as (f & -> & Hf & Hacc); [by apply read_from_sorted|].
  simpl. intros [= <-]. destruct Ho as [Hot Ho]. split.
  - destruct Hf as [->|(e & He & ->)]; [done|]. apply log_top_ge. by apply elem_of_read_from in He as [? _].
  - intros e He Hown Hle. destruct (decide (env_seq e <= old)%N) as [|Hgt]; [by apply Ho|].
    destruct (Hacc e) as [Ha|?]; [| done| done | |lia].
    + apply elem_of_read_from; [done|]. split; [done|]. unfold u64_saturating_add. lia.
    + rewrite (wr_taken _ _ Hr) in Ha. eapply taken_mono; [done|]. by apply bool_decide_eq_true in Ha.
Qed.

Lemma consume_resend_position g now : gc_log_seq (fst (consume_resend_round g now)) = gc_log_seq g.
Proof. unfold consume_resend_round, roll_resend_window. by repeat case_match. Qed.

Lemma consume_heal_position g now : gc_log_seq (fst (consume_heal_round g now)) = gc_log_seq g.
Proof. unfold consume_heal_round, roll_resend_window. by repeat case_match. Qed.

Lemma rewind_group_spec st :
  outbound (rewind_group cfg st) = outbound st ∧
  position (rewind_group cfg st) =
    match group_floor cfg st with Some f => N.min (position st) f | None => position st end.
Proof.
  unfold rewind_group, position. destruct (group_floor cfg st) as [f|]; [|done].
  destruct (N.ltb_spec f (gc_log_seq (default group_default (group st)))); simpl; split; try done; lia.
Qed.

(** A fired stall clock leaves the floors alone; when it grants a round the
    position is at most the group's floor. *)
Lemma stall_round_spec now st :
  let st' := fst (stall_round cfg now st) in
  outbound st' = outbound st ∧ (position st' <= position st)%N ∧
  ∀ f heal, snd (stall_round cfg now st) = Granted f heal →
    group_floor cfg st = Some f ∧ (position st' <= f)%N.
Proof.
  unfold stall_round. destruct (group_floor cfg st) as [f|] eqn:Ef; [|done].
  assert (Hre : ∀ g, gc_log_seq g = position st →
      outbound (rewind_group cfg (set_group g st)) = outbound st ∧
      position (rewind_group cfg (set_group g st)) = N.min (position st) f).
  { intros g Hg. destruct (rewind_group_spec (set_group g st)) as [-> ->].
    unfold group_floor in *. simpl. rewrite Ef. split; [done|]. unfold position at 1. simpl. by rewrite Hg. }
  destruct (consume_resend_round _ now) as [g ok] eqn:E1.
  pose proof (consume_resend_position (default group_default (group st)) now) as H1. rewrite E1 in H1.
  destruct ok; simpl.
  { destruct (Hre g H1) as [-> ->]. split; [done|]. split; [lia|]. intros f' h [= <- <-]. split; [done|lia]. }
  destruct (consume_heal_round g now) as [g' ok] eqn:E2.
  pose proof (consume_heal_position g now) as H2. rewrite E2 in H2. simpl in *.
  destruct ok; simpl; [|by split; [|split]].
  destruct (Hre g') as [-> ->]; [by rewrite H2|].
  split; [done|]. split; [lia|]. intros f' h [= <- <-]. split; [done|lia].
Qed.

Lemma record_floor_position m f st : position (record_floor m f st) = position st.
Proof. unfold position, record_floor. simpl. by case_match. Qed.

Lemma record_floor_outbound m f st m' c : outbound (record_floor m f st) !! m' = Some c →
  outbound st !! m' = Some c ∨
  m' = m ∧ (acked_floor c = f ∨ acked_floor c = 0%N ∨
            ∃ c', outbound st !! m = Some c' ∧ acked_floor c = acked_floor c').
Proof.
  simpl. destruct (decide (m' = m)) as [->|]; [|rewrite lookup_insert_ne by done; by left].
  rewrite lookup_insert_eq. intros [= <-]. right. split; [done|]. simpl.
  case_match; [by left|]. right. destruct (outbound st !! m) as [c'|]; simpl; [|by left].
  right. by exists c'.
Qed.

(** The pass goes no further than what it published, skipped or left to
    others. *)
Lemma publish_batch_spec net batch through t out o :
  StronglySorted N.lt (env_seq <$> batch) →
  publish_batch cfg net batch through = (t, out, o) →
  (t = through ∨ ∃ e, e ∈ batch ∧ t = env_seq e) ∧
  ∀ e, e ∈ batch → env_by e = cfg_member cfg → (env_seq e <= t)%N →
    (env_seq e <= through)%N ∨ env_seq e ∈ out ∨ group_frame net e = false.
Proof.
  revert through t out o. induction batch as [|x batch IH]; intros through t out o Hs; simpl.
  { intros [= <- <- <-]. split; [by left|]. by intros e ?%elem_of_nil. }
  pose proof (sorted_tail x batch) as Hlt.
  apply StronglySorted_inv in Hs as Hs'. destruct Hs' as [Hs' _].
  assert (Hgo : ∀ t out o, publish_batch cfg net batch (env_seq x) = (t, out, o) →
    (t = through ∨ ∃ e, e ∈ x :: batch ∧ t = env_seq e) ∧
    ∀ e, e ∈ batch → env_by e = cfg_member cfg → (env_seq e <= t)%N →
      env_seq e ∈ out ∨ group_frame net e = false).
  { intros t' out' o' [Ht He]%IH; [|done]. split.
    - right. destruct Ht as [->|(e & ? & ->)]; [exists x|exists e]; (split; [by constructor|done]).
    - intros e Hin Hown Hle. specialize (Hlt e Hs Hin).
      destruct (He e Hin Hown Hle) as [?|[?|?]]; [lia|by left|by right]. }
  case_bool_decide as Hby; simpl; cycle 1.
  { intros Hrun. destruct (Hgo _ _ _ Hrun) as [Ht He]. split; [done|].
    intros e [->|Hin]%elem_of_cons Hown; [done|]. right. by apply He. }
  destruct (group_frame net x) eqn:Ef; simpl; cycle 1.
  { intros Hrun. destruct (Hgo _ _ _ Hrun) as [Ht He]. split; [done|].
    intros e [->|Hin]%elem_of_cons Hown Hle; right; [by right|by apply He]. }
  destruct (publish net x) as [[]|].
  1-3: intros [= <- <- <-]; split; [by left|]; intros; by left.
  destruct (publish_batch cfg net batch (env_seq x)) as [[t' out'] o'] eqn:Hrun. intros [= <- <- <-].
  destruct (Hgo _ _ _ eq_refl) as [Ht He]. split; [done|].
  intros e [->|Hin]%elem_of_cons Hown Hle; right; [left; by constructor|].
  destruct (He e Hin Hown Hle); [left; by constructor|by right].
Qed.

Lemma persist_cursor_spec start t st : position st = start →
  outbound (persist_cursor start t st) = outbound st ∧
  position (persist_cursor start t st) = N.max start t.
Proof.
  intros <-. unfold persist_cursor, position.
  destruct (N.leb_spec t (gc_log_seq (default group_default (group st)))); [split; [done|lia]|].
  destruct (N.ltb_spec (gc_log_seq (default group_default (group st))) t); simpl; [|lia]. split; [done|lia].
Qed.

(** ** Every run *)

Lemma sound_init : sound world_init.
Proof.
  split; simpl; [constructor| |done| | |]; [by intros e ?%elem_of_nil|by intros ???|
    by intros ?? ?%elem_of_nil|by intros e ?%elem_of_nil].
Qed.

Lemma sound_pass st log off arr pend skip net st' out o :
  publish_pass cfg net log st = Some (st', out, o) →
  sound (mkWorld st log off arr pend skip) →
  sound (mkWorld st' log (off ++ out) arr pend (skip ++ unframed cfg net log)).
Proof.
  unfold publish_pass. fold (position st).
  destruct (u64_checked_add (position st) 1) as [from|] eqn:Efrom; [|done]. simpl.
  assert (from = position st + 1)%N as -> by (unfold u64_checked_add in Efrom; by case_match; simplify_eq).
  destruct (publish_batch _ _ _ _) as [[t out'] o'] eqn:Hrun. intros [= <- <- <-] [Hs Hpos Hcur Hfl Hpend Hoff].
  simpl in *. destruct (publish_batch_spec _ _ _ _ _ _ (read_from_sorted log _ Hs) Hrun) as [Ht He].
  destruct (persist_cursor_spec (position st) t st eq_refl) as [Hout Hp].
  split; simpl; [done|done| |by rewrite Hout|done|]; rewrite Hp.
  - apply N.max_lub; [done|]. destruct Ht as [->|(e & Hin & ->)]; [done|].
    apply log_top_ge. by apply elem_of_read_from in Hin as [? _].
  - intros e Hin Hown Hle. rewrite !elem_of_app.
    destruct (decide (env_seq e <= position st)%N) as [Hp'|Hp'].
    { destruct (Hoff e Hin Hown Hp'); auto. }
    destruct (He e) as [?|[?|Hfr]]; [apply elem_of_read_from; [done|]; split; [done|lia]|done|lia|lia|auto|].
    right. right. apply list_elem_of_fmap_2, list_elem_of_filter. auto.
Qed.

Lemma sound_step w w' : wstep w w' → sound w → sound w'.
Proof.
  intros Hstep Hw. destruct Hstep as [st log off arr pend skip env Henv| |
    st log off arr pend skip m s Hs|st log off arr pend skip m ack floor win seen Hc Hr Hsub Hfl|
    st log off arr pend skip m floor Hin|st log off arr pend skip now|st log off arr pend skip now];
    [|by eapply sound_pass|destruct Hw as [Hsort Hpos Hcur Hfloor Hpend Hoff]..]; simpl in *.
  - destruct Hw as [? ? ? Hfloor Hpend Hoff]; simpl in *. split; simpl.
    + by apply sorted_snoc.
    + intros e [?| ->%list_elem_of_singleton]%elem_of_app; [auto|lia].
    + rewrite log_top_snoc. lia.
    + intros m c Hm. apply floor_sound_snoc; eauto.
    + intros m f Hm. apply floor_sound_snoc; eauto.
    + intros e [?| ->%list_elem_of_singleton]%elem_of_app ? ?; [auto|lia].
  - assert (Harr : ∀ m', arr m' ⊆ arrive m s arr m').
    { intros m'. unfold arrive. case_decide; set_solver. }
    split; simpl; try done; intros; eapply floor_sound_mono; eauto.
  - split; simpl; try done. intros m' f [[= -> ->]|?]%elem_of_cons; [|by apply Hpend].
    eapply ack_floor_sound; eauto.
  - split; cbn [w_st w_log w_offered w_arrived w_pending w_skipped];
      rewrite ?record_floor_position; try done.
    intros m' c [Hm|(-> & Hc)]%record_floor_outbound; [by apply Hfloor|].
    destruct Hc as [->|[->|(c' & Hm & ->)]]; [by apply Hpend| |by apply Hfloor].
    split; [lia|]. intros e He _ ?. specialize (Hpos e He). lia.
  - destruct (stall_round_spec now st) as (Hout & Hp & _).
    split; simpl; rewrite ?Hout; try done; [lia|]. intros e ? ? ?. apply Hoff; [done|done|]. lia.
  - split; simpl; try done; unfold position in *; simpl; rewrite consume_resend_position; done.
Qed.

Lemma reachable_sound w : reachable w → sound w.
Proof.
  intros Hr. unfold reachable in Hr. revert Hr.
  apply (rtc_ind_r sound); [apply sound_init|]. intros y z _ Hstep Hy. by eapply sound_step.
Qed.

Lemma min_opt_le l x : x ∈ l → ∃ y, min_opt l = Some y ∧ (y <= x)%N.
Proof.
  induction 1 as [x l|x z l _ (y & IH & Hle)]; simpl.
  - destruct (min_opt l); eexists; split; [done|lia|done|lia].
  - rewrite IH. eexists. split; [done|lia].
Qed.

(** The group's floor is at most the floor of every member that ever acked. *)
Lemma group_floor_le st m c f :
  m ∈ cfg_members cfg → outbound st !! m = Some c → ack_seen c = true →
  group_floor cfg st = Some f → (f <= acked_floor c)%N.
Proof.
  intros Hm Hc Hseen Hf. unfold group_floor in Hf.
  destruct (min_opt_le (acked_floor <$> filter (λ c, ack_seen c = true)
    (omap (λ m, outbound st !! m) (cfg_members cfg))) (acked_floor c)) as (y & Hy & Hle); [|congruence].
  apply list_elem_of_fmap_2, list_elem_of_filter. split; [done|].
  apply list_elem_of_omap. eauto.
Qed.

(** When the relays take every frame, a pass ends and publishes every own
    event it can frame. *)
Lemma publish_batch_all net batch through :
  (∀ x, x ∈ batch → publish net x = None) →
  ∃ t out, publish_batch cfg net batch through = (t, out, PassDone) ∧
    ∀ e, e ∈ batch → env_by e = cfg_member cfg → group_frame net e = true → env_seq e ∈ out.
Proof.
  revert through. induction batch as [|x batch IH]; intros through Hok; simpl.
  { eexists _, _. split; [done|]. by intros e ?%elem_of_nil. }
  destruct (IH (env_seq x)) as (t & out & Hrun & Hout); [intros; apply Hok; by constructor|].
  rewrite Hrun, (Hok x) by constructor.
  case_bool_decide as Hby; simpl; [destruct (group_frame net x) eqn:Hf; simpl|];
    eexists _, _; (split; [done|]); intros e [->|He]%elem_of_cons Hown Hfr; try congruence;
    try (by apply Hout); [by constructor|constructor; by apply Hout].
Qed.

End System.

(** C15: the acked floor is honest.  In every run of the broadcast channel
    (frames lost, repeated or reordered, sheets late or from a receiver that
    lost part of its window, updates interleaved), every own event up to a
    peer's acked floor was accepted by that peer's engine or lies below its
    window; and every own event up to the broadcast position has been put on
    the wire, unless MLS could not frame it. *)
Theorem acked_floor_honest cfg w :
  reachable cfg w →
  (∀ m c e, outbound (w_st w) !! m = Some c → e ∈ w_log w →
     own_ackable (cfg_member cfg) e = true → (env_seq e <= acked_floor c)%N →
     taken (w_arrived w m) (env_seq e)) ∧
  (∀ e, e ∈ w_log w → env_by e = cfg_member cfg → (env_seq e <= position (w_st w))%N →
     env_seq e ∈ w_offered w ∨ env_seq e ∈ w_skipped w).
Proof.
  intros Hr%reachable_sound. split.
  - intros m c e Hm He Hown Hle. by apply (s_floor _ _ Hr m c Hm).
  - apply (s_offered _ _ Hr).
Qed.

(** A granted resend round re-offers what a listener misses.  In every
    run, when the stall clock grants a round and the relays take the frames of
    the pass that follows, that pass publishes every own event that some
    member who ever acked has not accepted. *)
Theorem granted_round_reoffers cfg w now st f heal net m c e :
  reachable cfg w →
  stall_round cfg now (w_st w) = (st, Granted f heal) →
  m ∈ cfg_members cfg → outbound (w_st w) !! m = Some c → ack_seen c = true →
  e ∈ w_log w → own_ackable (cfg_member cfg) e = true →
  ¬ taken (w_arrived w m) (env_seq e) →
  group_frame net e = true → (∀ x, x ∈ w_log w → publish net x = None) →
  (log_top (w_log w) < u64_max)%N →
  ∃ st' out, publish_pass cfg net (w_log w) st = Some (st', out, PassDone) ∧ env_seq e ∈ out.
Proof.
  intros Hr%reachable_sound Hst Hm Hc Hseen He Hown Hmiss Hfr Hok Hmax.
  destruct (stall_round_spec cfg now (w_st w)) as (_ & Hle & Hg). rewrite Hst in Hle, Hg.
  destruct (Hg f heal eq_refl) as [Hf Hp]. simpl in *.
  pose proof (group_floor_le cfg _ _ _ _ Hm Hc Hseen Hf) as Hfc.
  pose proof (s_cursor _ _ Hr) as Hcur. pose proof (s_sorted _ _ Hr) as Hsort.
  assert (Hgt : (position st < env_seq e)%N).
  { apply N.nle_gt. intros Hpe. destruct Hmiss. apply (s_floor _ _ Hr m c Hc); [done|done|lia]. }
  unfold publish_pass. fold (position st). unfold u64_checked_add.
  destruct (N.leb_spec (position st + 1) u64_max); [|lia]. simpl.
  destruct (publish_batch_all cfg net (read_from (w_log w) (position st + 1)) (position st))
    as (t & out & -> & Hout).
  { intros x Hx. apply Hok. by apply elem_of_read_from in Hx as [? _]. }
  eexists _, _. split; [done|]. apply Hout; [|unfold own_ackable in Hown; by to_prop|done].
  apply elem_of_read_from; [done|]. split; [done|lia].
Qed.

(** ** The budget over time *)

Definition with_evidence (ev : bool) (g : GroupCursor) : GroupCursor :=
  {| gc_log_seq := gc_log_seq g; resend_rounds := resend_rounds g;
     resend_window_start := resend_window_start g;
     heal_evidence := ev || heal_evidence g; heal_rounds := heal_rounds g |}.

(** The rounds granted by a series of fired clocks, each at its wall-clock
    second and with a sheet's evidence possibly latched before it. *)
Fixpoint grants (g : GroupCursor) (fired : list (N * bool)) : nat :=
  match fired with
  | [] => 0
  | (now, ev) :: fired =>
      let g := with_evidence ev g in
      let '(g1, ok) := consume_resend_round g now in
      if ok then S (grants g1 fired)
      else let '(g2, ok) := consume_heal_round g1 now in
           if ok then S (grants g2 fired) else grants g fired
  end.

(** What the current window still allows. *)
Definition allowance (g : GroupCursor) : nat :=
  N.to_nat (RESEND_ROUNDS_PER_HOUR - resend_rounds g) + N.to_nat (1 - heal_rounds g).

Lemma roll_or_not g now :
  roll_resend_window g now = g ∧ (now < resend_window_start g + 3600)%N ∨
  (resend_window_start g + 3600 <= now)%N ∧
    resend_window_start (roll_resend_window g now) = now ∧
    allowance (roll_resend_window g now) = 13.
Proof.
  unfold roll_resend_window. destruct (N.leb_spec 3600 (now - resend_window_start g)); [right|left].
  - split; [lia|done].
  - split; [done|lia].
Qed.

(** One fired clock: nothing granted, or one round out of the allowance of
    the window, fresh or not. *)
Lemma grants_cons g now ev fired :
  let g0 := roll_resend_window (with_evidence ev g) now in
  (∃ g', grants g ((now, ev) :: fired) = S (grants g' fired) ∧
     resend_window_start g' = resend_window_start g0 ∧ S (allowance g') = allowance g0) ∨
  grants g ((now, ev) :: fired) = grants (with_evidence ev g) fired ∧ g0 = with_evidence ev g.
Proof.
  simpl. unfold consume_resend_round, allowance, RESEND_ROUNDS_PER_HOUR.
  set (g0 := roll_resend_window (with_evidence ev g) now).
  destruct (N.leb_spec 12 (resend_rounds g0)) as [Hs|Hs].
  - assert (H0 : g0 = with_evidence ev g).
    { unfold g0 in *. destruct (roll_or_not (with_evidence ev g) now) as [[-> _]|(_ & _ & Ha)]; [done|].
      unfold allowance, RESEND_ROUNDS_PER_HOUR in Ha. lia. }
    assert (Hr : roll_resend_window g0 now = g0).
    { rewrite H0 at 1. fold g0. done. }
    unfold consume_heal_round. rewrite Hr.
    destruct (negb (heal_evidence g0) || (0 <? heal_rounds g0)%N) eqn:E; [right; by rewrite H0|].
    left. eexists. split; [done|]. simpl. split; [done|]. to_prop. lia.
  - left. eexists. split; [done|]. simpl. split; [done|]. unfold u32_max. lia.
Qed.

Lemma grants_in_window g fired t0 :
  (t0 <= resend_window_start g)%N →
  Forall (λ x, t0 <= x.1 < t0 + 3600)%N fired → (grants g fired ≤ allowance g)%nat.
Proof.
  intros Hstart Hall. revert g Hstart. induction Hall as [|[now ev] fired Hx Hall IH]; intros g Hstart; [simpl; lia|].
  assert (roll_resend_window (with_evidence ev g) now = with_evidence ev g) as Hroll.
  { destruct (roll_or_not (with_evidence ev g) now) as [[-> _]|[Hlt _]]; [done|]. simpl in *. lia. }
  destruct (grants_cons g now ev fired) as [(g' & -> & Hs & Ha)|[-> _]]; rewrite ?Hroll in *.
  - specialize (IH g'). simpl in Hs. unfold allowance in *. simpl in Ha. rewrite Hs in IH. specialize (IH Hstart). lia.
  - by apply (IH (with_evidence ev g)).
Qed.

(** The resend budget.  Whatever the stored window and however often the
    stall clock fires and sheets bring evidence, any 3600 consecutive seconds
    of wall-clock time see at most 26 granted rounds: two windows of twelve
    rounds and one heal round each. *)
Theorem resend_rate_bounded g fired t0 :
  Forall (λ x, t0 <= x.1 < t0 + 3600)%N fired → (grants g fired ≤ 26)%nat.
Proof.
  intros Hall. assert (Hg : ∀ g, (allowance g ≤ 13)%nat).
  { intros g'. unfold allowance, RESEND_ROUNDS_PER_HOUR. lia. }
  enough (grants g fired ≤ allowance g + 13)%nat by (specialize (Hg g); lia).
  revert g. induction Hall as [|[now ev] fired Hx Hall IH]; intros g; [simpl; lia|].
  destruct (grants_cons g now ev fired) as [(g' & -> & Hs & Ha)|[-> _]]; [|apply (IH (with_evidence ev g))].
  destruct (roll_or_not (with_evidence ev g) now) as [[Hr _]|(Hlt & Hs' & Ha')].
  - rewrite Hr in Ha. specialize (IH g'). unfold allowance in *. simpl in Ha. lia.
  - rewrite Hs' in Hs. rewrite Ha' in Ha. simpl in Hx.
    pose proof (grants_in_window g' fired t0) as Hin. rewrite Hs in Hin. specialize (Hin (proj1 Hx) Hall). lia.
Qed.

(** ** A run *)

Module Run.

Definition cfg : GroupNetConfig := {| cfg_member := "ada"; cfg_members := ["bob"] |}.
Definition ev (n : N) : EventEnvelope :=
  {| env_seq := n; env_by := "ada"; env_body := EngineEvent "chat" |}.
Definition net : Net := {| group_frame := λ _, true; publish := λ _, None |}.

(** Two events go out, the first is lost on the way, and bob's sheet says so. *)
Definition bob_window : AcceptedWindow :=
  match accept window_default 2 with Some (w, _) => w | None => window_default end.
Definition sheet : GroupAck :=
  {| ack_v := 1; ack_by := "bob"; claims := {[ "ada" := bob_window ]} |}.

Definition st0 : TransportState := {| outbound := ∅; group := None |}.
Definition sent : TransportState :=
  {| outbound := ∅; group := Some (set_log_seq 2 group_default) |}.
Definition heard : string → list N := arrive "bob" 2 (λ _, []).
Definition acked : TransportState := record_floor "bob" 0 sent.
Definition final : world := mkWorld acked [ev 1; ev 2] [1; 2]%N heard [("bob", 0%N)] [].

Lemma bob_window_repr : window_repr bob_window [2%N].
Proof.
  destruct (accept_repr window_default [] 2 window_default_repr) as (w & Hrun & Hr).
  unfold bob_window. by rewrite Hrun.
Qed.

Lemma final_reachable : reachable cfg final.
Proof.
  unfold reachable.
  eapply rtc_l; [apply (w_append _ _ _ _ _ _ _ (ev 1)); done|].
  eapply rtc_l; [apply (w_append _ _ _ _ _ _ _ (ev 2)); done|].
  eapply rtc_l; [apply (w_pass _ _ _ _ _ _ _ net sent [1; 2]%N PassDone); vm_compute; done|].
  eapply rtc_l; [apply (w_deliver _ _ _ _ _ _ _ "bob" 2); set_solver|].
  eapply rtc_l; [apply (w_sheet _ _ _ _ _ _ _ "bob" sheet 0 bob_window [2%N]);
    [done|apply bob_window_repr|set_solver|vm_compute; done]|].
  eapply rtc_l; [apply (w_record _ _ _ _ _ _ _ "bob" 0); set_solver|].
  apply rtc_refl.
Qed.

Lemma acked_floor_honest_witness :
  env_seq (ev 1) ∈ [1; 2]%N ∨ env_seq (ev 1) ∈ [].
Proof.
  destruct (acked_floor_honest cfg final final_reachable) as [_ H].
  apply (H (ev 1)); [set_solver|done|vm_compute; done].
Defined.

Lemma granted_round_reoffers_witness :
  ∃ st' out, publish_pass cfg net [ev 1; ev 2] (fst (stall_round cfg 0 acked))
             = Some (st', out, PassDone) ∧ 1%N ∈ out.
Proof.
  apply (granted_round_reoffers cfg final 0 (fst (stall_round cfg 0 acked)) 0 false net "bob"
    (default outbound_default (outbound acked !! "bob")) (ev 1)); try done.
  - apply final_reachable.
  - set_solver.
  - set_solver.
  - unfold taken. simpl. intros [[_ H]|H]; [set_solver|done].
Defined.

Lemma resend_rate_bounded_witness :
  (grants group_default [(10, true); (20, false)]%N ≤ 26)%nat.
Proof. apply (resend_rate_bounded _ _ 0). repeat constructor; done. Defined.

End Run.
