(* ===== verification/Chunk.v ===== *)
(** * Chunking and reassembly

    crates/molt-net/src/chunk.rs: a message is cut into chunks of one uniform
    size, each with a header (message id, index, count, payload length) and
    zero padding; [Reassembler] puts the chunks of many messages back together
    in whatever order, and however often, an untrusted server delivers them.
    Its memory is bounded by evicting the oldest open message and by a ring of
    recently completed ids. *)

From S2P Require Import Prelude Bytes Env.

(** ** Constants and data *)

Definition MSG_ID_LEN : N := 16.
Definition CHUNK_HEADER_LEN : N := MSG_ID_LEN + 2 + 2 + 2.
Definition MAX_PARTIALS : N := 64.
Definition RECENT_COMPLETED : N := 256.
Definition u16_max : N := 65535.

(** The reasons of [NetError::Framing], one per message text. *)
Inductive NetError :=
  | NoPayloadRoom (plain_len : N)
  | TooManyChunks (count : N)
  | IndexOverflow
  | PayloadOverflow
  | ChunkSize (expected got : N)
  | HeaderOutOfBounds (index count len : N)
  | CountChanged (was now : N)
  | LostPartial.

Abbreviation MsgId := (list byte).

#[export] Instance byte_countable : Countable byte :=
  inj_countable Byte.to_N Byte.of_N Byte.of_to_N.

(** ** Slices *)

(** [&l[a..b]]: [None] is the panic of an index out of range. *)
Definition slice (a b : N) (l : bytes) : option bytes :=
  if ((a <=? b) && (b <=? len l))%N
  then Some (take (N.to_nat (b - a)) (drop (N.to_nat a) l)) else None.

(** [u16::from_le_bytes([chunk[at], chunk[at + 1]])]. *)
Definition word (chunk : bytes) (at_ : N) : option N :=
  of_le_bytes <$> slice at_ (at_ + 2) chunk.

(** [u16::try_from]. *)
Definition u16_try_from (n : N) : option N := if (n <=? u16_max)%N then Some n else None.

(** ** Message ids *)

(** The bytes [msg_id_epoch] hashes. *)
Definition msg_id_bytes (sender recipient : string) (wire_seq resend_epoch : N) : bytes :=
  as_bytes "molt-msg" ++ as_bytes sender ++ [x00] ++ as_bytes recipient ++ le_bytes 8 wire_seq ++
  (if (0 <? resend_epoch)%N then as_bytes "resend" ++ le_bytes 4 resend_epoch else []).

Definition msg_id_epoch `{Env} (sender recipient : string) (wire_seq resend_epoch : N) : MsgId :=
  take (N.to_nat MSG_ID_LEN) (sha256 (msg_id_bytes sender recipient wire_seq resend_epoch)).

Definition msg_id `{Env} (sender recipient : string) (wire_seq : N) : MsgId :=
  msg_id_epoch sender recipient wire_seq 0.

(** ** The chunker *)

(** [0..n]. *)
Definition range (n : N) : list N := N.of_nat <$> seq 0 (N.to_nat n).

(** [v.resize(n, 0)]. *)
Definition resize0 (n : N) (v : bytes) : bytes := resize (N.to_nat n) x00 v.

(** One round of the loop of [chunk_message_budgeted]. *)
Definition chunk_at (id : MsgId) (payload : bytes) (budget plain_len count_u16 index : N)
  : outcome NetError bytes :=
  let start := (index * budget)%N in
  let end_ := N.min (len payload) (start + budget) in
  let? part := expect (slice (N.min start (len payload)) end_ payload) in
  let? index_u16 := ok_or (u16_try_from index) IndexOverflow in
  let? len_u16 := ok_or (u16_try_from (len part)) PayloadOverflow in
  Ok (resize0 plain_len
        (id ++ le_bytes 2 index_u16 ++ le_bytes 2 count_u16 ++ le_bytes 2 len_u16 ++ part)).

Fixpoint collect {E A B} (f : A → outcome E B) (l : list A) : outcome E (list B) :=
  match l with
  | [] => Ok []
  | x :: l => let? y := f x in let? ys := collect f l in Ok (y :: ys)
  end.

(** [payload.len().div_ceil(budget).max(1)]. *)
Definition chunk_count (payload : bytes) (budget : N) : N :=
  N.max ((len payload + budget - 1) / budget) 1.

Definition chunk_message_budgeted (id : MsgId) (payload : bytes) (budget plain_len : N)
  : outcome NetError (list bytes) :=
  let count := chunk_count payload budget in
  let? count_u16 := ok_or (u16_try_from count) (TooManyChunks count) in
  collect (chunk_at id payload budget plain_len count_u16) (range count).

Definition chunk_message_sized (id : MsgId) (payload : bytes) (plain_len : N)
  : outcome NetError (list bytes) :=
  if (plain_len <=? CHUNK_HEADER_LEN)%N then Err (NoPayloadRoom plain_len)
  else chunk_message_budgeted id payload (plain_len - CHUNK_HEADER_LEN) plain_len.

(** ** The reassembler *)

Inductive PushOutcome :=
  | Complete (id : MsgId) (msg : bytes)
  | Buffered (id : MsgId)
  | Duplicate (id : MsgId).

Record Partial := { p_count : N; p_chunks : gmap N bytes }.

Record Reassembler := {
  plain_len : N;
  partial : gmap MsgId Partial;
  order : list MsgId;
  completed : list MsgId;
}.

Definition new_sized (plain_len : N) : Reassembler :=
  {| plain_len := N.max plain_len (CHUNK_HEADER_LEN + 1);
     partial := ∅; order := []; completed := [] |}.

(** A full table drops its oldest entry. *)
Definition evict (r : Reassembler) : Reassembler :=
  if (MAX_PARTIALS <=? N.of_nat (size (partial r)))%N then
    match order r with
    | [] => r
    | oldest :: rest =>
        {| plain_len := plain_len r; partial := delete oldest (partial r);
           order := rest; completed := completed r |}
    end
  else r.

(** The entry for [id], opened if there is none. *)
Definition open_partial (r : Reassembler) (id : MsgId) (count : N)
  : outcome NetError (Reassembler * Partial) :=
  match partial r !! id with
  | Some p => reject negb (p_count p =? count)%N with CountChanged (p_count p) count else Ok (r, p)
  | None =>
      let r := evict r in
      let p := {| p_count := count; p_chunks := ∅ |} in
      Ok ({| plain_len := plain_len r; partial := <[id := p]> (partial r);
             order := order r ++ [id]; completed := completed r |}, p)
  end.

Definition chunk_le (x y : N * bytes) : Prop := (x.1 <= y.1)%N.
#[export] Instance chunk_le_dec x y : Decision (chunk_le x y).
Proof. unfold chunk_le. apply _. Defined.

#[export] Instance chunk_le_total : Total chunk_le.
Proof. intros x y. unfold chunk_le. lia. Qed.
#[export] Instance chunk_le_trans : Transitive chunk_le.
Proof. intros x y z. unfold chunk_le. lia. Qed.

(** The values of a [BTreeMap<u16, _>] in key order, end to end. *)
Definition in_order (m : gmap N bytes) : bytes :=
  concat (merge_sort chunk_le (map_to_list m)).*2.

(** The message is whole: it moves from the table to the ring. *)
Definition complete (r : Reassembler) (id : MsgId) : Reassembler * outcome NetError PushOutcome :=
  match partial r !! id with
  | None => (r, Err LostPartial)
  | Some done =>
      let ring := completed r ++ [id] in
      let ring := if (RECENT_COMPLETED <? len ring)%N then tail ring else ring in
      ({| plain_len := plain_len r; partial := delete id (partial r);
          order := filter (λ x, x ≠ id) (order r); completed := ring |},
       Ok (Complete id (in_order (p_chunks done))))
  end.

(** A payload arrives at an open entry. *)
Definition store (r : Reassembler) (id : MsgId) (p : Partial) (index : N) (payload : bytes)
  : Reassembler * outcome NetError PushOutcome :=
  match p_chunks p !! index with
  | Some _ => (r, Ok (Duplicate id))
  | None =>
      let p := {| p_count := p_count p; p_chunks := <[index := payload]> (p_chunks p) |} in
      let r := {| plain_len := plain_len r; partial := <[id := p]> (partial r);
                  order := order r; completed := completed r |} in
      if (N.of_nat (size (p_chunks p)) <? p_count p)%N then (r, Ok (Buffered id))
      else complete r id
  end.

(** The header fields: id, index, count, length. *)
Definition header (chunk : bytes) : option (MsgId * N * N * N) :=
  id ← slice 0 MSG_ID_LEN chunk;
  index ← word chunk MSG_ID_LEN;
  count ← word chunk (MSG_ID_LEN + 2);
  len ← word chunk (MSG_ID_LEN + 4);
  Some (id, index, count, len).

(** [Reassembler::push]: the reassembler afterwards, on failure too. *)
Definition push (r : Reassembler) (chunk : bytes) : Reassembler * outcome NetError PushOutcome :=
  if negb (len chunk =? plain_len r)%N then (r, Err (ChunkSize (plain_len r) (len chunk)))
  else
  match header chunk with
  | None => (r, Panic)
  | Some (id, index, count, n) =>
      if (count =? 0) || (count <=? index) || (plain_len r - CHUNK_HEADER_LEN <? n)
      then (r, Err (HeaderOutOfBounds index count n))
      else if bool_decide (id ∈ completed r) then (r, Ok (Duplicate id))
      else
      match slice CHUNK_HEADER_LEN (CHUNK_HEADER_LEN + n) chunk with
      | None => (r, Panic)
      | Some payload =>
          match open_partial r id count with
          | Ok (r, p) => store r id p index payload
          | Err e => (r, Err e)
          | Panic => (r, Panic)
          end
      end
  end%N.

(** [Reassembler::forget]. *)
Definition forget (r : Reassembler) (id : MsgId) : Reassembler :=
  {| plain_len := plain_len r; partial := partial r; order := order r;
     completed := filter (λ x, x ≠ id) (completed r) |}.

(** A series of deliveries, with what each push concluded. *)
Fixpoint push_all (r : Reassembler) (l : list bytes) : Reassembler * list (outcome NetError PushOutcome) :=
  match l with
  | [] => (r, [])
  | c :: l =>
      let '(r, o) := push r c in
      let '(r, os) := push_all r l in (r, o :: os)
  end.

(** ** The reassembler is bounded, whatever is delivered *)

Record partial_ok (bound : N) (p : Partial) : Prop := {
  po_count : (p_count p <= u16_max)%N;
  po_open : (N.of_nat (size (p_chunks p)) < p_count p)%N;
  po_keys i c : p_chunks p !! i = Some c → (i < p_count p)%N ∧ (len c <= bound)%N;
}.

Record wf (r : Reassembler) : Prop := {
  wf_plain : (CHUNK_HEADER_LEN < plain_len r)%N;
  wf_order : NoDup (order r);
  wf_dom id : id ∈ order r ↔ is_Some (partial r !! id);
  wf_size : (N.of_nat (size (partial r)) <= MAX_PARTIALS)%N;
  wf_ring : NoDup (completed r);
  wf_ring_size : (len (completed r) <= RECENT_COMPLETED)%N;
  wf_disjoint id : id ∈ completed r → partial r !! id = None;
  wf_partial id p : partial r !! id = Some p → partial_ok (plain_len r - CHUNK_HEADER_LEN) p;
}.

Lemma new_sized_wf n : wf (new_sized n).
Proof.
  split; simpl; try done; try constructor.
  - unfold CHUNK_HEADER_LEN, MSG_ID_LEN. lia.
  - by intros ?%elem_of_nil.
  - rewrite lookup_empty. by intros [? ?].
Qed.

Lemma slice_some a b l s : slice a b l = Some s → (len s = b - a)%N ∧ (b <= len l)%N.
Proof.
  unfold slice. destruct ((a <=? b) && (b <=? len l))%N eqn:E; [|done]. to_prop.
  intros [= <-]. unfold len in *. rewrite length_take, length_drop. lia.
Qed.

Lemma slice_total a b l : (a <= b)%N → (b <= len l)%N → is_Some (slice a b l).
Proof.
  intros Ha Hb. unfold slice. rewrite (proj2 (N.leb_le _ _) Ha), (proj2 (N.leb_le _ _) Hb). by eexists.
Qed.

Lemma word_total c at_ : (at_ + 2 <= len c)%N → is_Some (word c at_).
Proof. intros H. destruct (slice_total at_ (at_ + 2) c) as [s Hs]; [lia|done|]. unfold word. rewrite Hs. by eexists. Qed.

Lemma of_le_bytes_bound l : (of_le_bytes l < 256 ^ len l)%N.
Proof.
  induction l as [|b l IH]; [done|]. rewrite len_cons, N.add_1_l, N.pow_succ_r'. simpl of_le_bytes.
  pose proof (Byte.to_N_bounded b). lia.
Qed.

Lemma word_bound c at_ n : word c at_ = Some n → (n <= u16_max)%N.
Proof.
  unfold word. intros (s & Hs & ->)%fmap_Some. apply slice_some in Hs as [Hl _].
  pose proof (of_le_bytes_bound s) as Hb. rewrite Hl in Hb.
  replace (at_ + 2 - at_)%N with 2%N in Hb by lia. unfold u16_max. simpl in Hb. lia.
Qed.

(** A chunk of the accepted size has a header. *)
Lemma header_total c : (CHUNK_HEADER_LEN <= len c)%N → is_Some (header c).
Proof.
  unfold CHUNK_HEADER_LEN, header. intros Hc. unfold MSG_ID_LEN in *.
  destruct (slice_total 0 16 c) as [? ->]; [lia|lia|].
  destruct (word_total c 16) as [? ->]; [lia|]. destruct (word_total c (16 + 2)) as [? ->]; [lia|].
  destruct (word_total c (16 + 4)) as [? ->]; [lia|]. by eexists.
Qed.

Lemma header_count c id i n k : header c = Some (id, i, n, k) → (n <= u16_max)%N.
Proof.
  unfold header. intros H. repeat (apply bind_Some in H as (? & ? & H)). simplify_eq.
  by eapply word_bound.
Qed.

Lemma wf_fresh r id : wf r → partial r !! id = None → id ∉ order r.
Proof. intros Hr Hid Hin. apply (wf_dom _ Hr) in Hin as [? ?]. congruence. Qed.

(** Opening an entry: the invariant holds but for the new entry, which is
    still empty. *)
Record opened (r : Reassembler) (id : MsgId) (p : Partial) : Prop := {
  op_entry : partial r !! id = Some p;
  op_plain : (CHUNK_HEADER_LEN < plain_len r)%N;
  op_order : NoDup (order r);
  op_dom id' : id' ∈ order r ↔ is_Some (partial r !! id');
  op_size : (N.of_nat (size (partial r)) <= MAX_PARTIALS)%N;
  op_ring : NoDup (completed r);
  op_ring_size : (len (completed r) <= RECENT_COMPLETED)%N;
  op_disjoint id' : id' ∈ completed r → partial r !! id' = None;
  op_partial id' p' : id' ≠ id → partial r !! id' = Some p' →
    partial_ok (plain_len r - CHUNK_HEADER_LEN) p';
  op_this : (0 < p_count p)%N → (p_count p <= u16_max)%N →
    partial_ok (plain_len r - CHUNK_HEADER_LEN) p;
}.

Lemma evict_wf r : wf r →
  let r' := evict r in
  wf r' ∧ (N.of_nat (size (partial r')) < MAX_PARTIALS)%N ∧ plain_len r' = plain_len r ∧
  completed r' = completed r ∧ partial r' ⊆ partial r.
Proof.
  intros Hr. unfold evict. destruct (N.leb_spec MAX_PARTIALS (N.of_nat (size (partial r)))) as [Hge|]; [|done].
  destruct Hr as [Hp Ho Hd Hs Hring Hrs Hdis Hok]. destruct (order r) as [|x rest] eqn:E.
  { exfalso. destruct (map_choose (partial r)) as (i & p & Hi).
    { intros H0. rewrite H0, map_size_empty in Hge. done. }
    assert (i ∈ @nil MsgId) as ?%elem_of_nil; [|done]. apply Hd. by eexists. }
  apply NoDup_cons in Ho as [Hx Hrest].
  destruct (proj1 (Hd x)) as [p Hpx]; [by constructor|].
  assert (Hsz : size (partial r) = S (size (delete x (partial r)))).
  { rewrite <-(insert_delete_id (partial r) x p Hpx) at 1. rewrite map_size_insert_None; [done|].
    apply lookup_delete_eq. }
  split; [|simpl; split; [lia|by split; [|split; [|apply delete_subseteq]]]].
  split; simpl; try done.
  - intros id. destruct (decide (id = x)) as [->|Hne].
    + rewrite lookup_delete_eq. split; [done|by intros [? ?]].
    + rewrite lookup_delete_ne by done. rewrite <-Hd, elem_of_cons. naive_solver.
  - lia.
  - intros id Hid. rewrite lookup_delete_None. auto.
  - intros id q [_ Hq]%lookup_delete_Some. by eapply Hok.
Qed.

Lemma open_partial_opened r id count r' p : wf r → id ∉ completed r →
  open_partial r id count = Ok (r', p) →
  opened r' id p ∧ p_count p = count ∧ plain_len r' = plain_len r ∧ completed r' = completed r.
Proof.
  intros Hr Hid. unfold open_partial. destruct (partial r !! id) as [q|] eqn:E.
  - intros H. run_inv H. to_prop. simplify_eq. split; [|done].
    destruct Hr as [Hp Ho Hd Hs Hring Hrs Hdis Hok]. split; try done; eauto.
  - destruct (evict_wf r Hr) as (Hw & Hlt & Hpl & Hc & Hsub). revert Hw Hlt Hpl Hc Hsub.
    generalize (evict r). intros r1 Hw Hlt Hpl Hc Hsub H. simplify_eq. simpl.
    assert (E1 : partial r1 !! id = None).
    { destruct (partial r1 !! id) eqn:E1; [|done]. eapply lookup_weaken in E1; [|done]. congruence. }
    pose proof (wf_fresh _ _ Hw E1) as Hfresh.
    split; [|done]. destruct Hw as [Hp Ho Hd Hs Hring Hrs Hdis Hok]. split; simpl; try done.
    + by rewrite lookup_insert_eq.
    + apply NoDup_app. split; [done|]. split; [|apply NoDup_singleton]. intros x Hx Hx'.
      apply list_elem_of_singleton in Hx' as ->. done.
    + intros id'. rewrite elem_of_app, list_elem_of_singleton, Hd, lookup_insert_is_Some. naive_solver.
    + rewrite map_size_insert_None by done. lia.
    + intros id' Hin. rewrite lookup_insert_ne; [by apply Hdis|]. intros <-. by rewrite Hc in Hin.
    + intros id' p' Hne. rewrite lookup_insert_ne by done. apply Hok.
Qed.

(** The ring takes one more id. *)
Lemma ring_push c (id : MsgId) : NoDup c → id ∉ c → (len c <= RECENT_COMPLETED)%N →
  let ring := if (RECENT_COMPLETED <? len (c ++ [id]))%N then tail (c ++ [id]) else c ++ [id] in
  NoDup ring ∧ (len ring <= RECENT_COMPLETED)%N ∧ ∀ x, x ∈ ring → x ∈ c ∨ x = id.
Proof.
  intros Hnd Hid Hl ring.
  assert (Hall : NoDup (c ++ [id])).
  { apply NoDup_app. split; [done|]. split; [|apply NoDup_singleton].
    intros x Hx ->%list_elem_of_singleton. done. }
  assert (Hin : ∀ x, x ∈ c ++ [id] → x ∈ c ∨ x = id).
  { intros x. by rewrite elem_of_app, list_elem_of_singleton. }
  unfold ring. destruct (N.ltb_spec RECENT_COMPLETED (len (c ++ [id]))) as [Hlt|]; [|done].
  rewrite len_app in Hlt. destruct (c ++ [id]) as [|y l] eqn:E; [done|]. simpl.
  split; [by apply NoDup_cons in Hall as [_ ?]|]. split.
  - apply (f_equal len) in E. rewrite len_app, !len_cons, len_nil in E. lia.
  - intros x Hx. apply Hin. by constructor.
Qed.

(** Storing a payload within the bound keeps the invariant. *)
Lemma store_wf r id p i payload r' o : opened r id p →
  (0 < p_count p)%N → (p_count p <= u16_max)%N → (i < p_count p)%N →
  (len payload <= plain_len r - CHUNK_HEADER_LEN)%N →
  store r id p i payload = (r', o) →
  wf r' ∧ o ≠ Panic ∧ o ≠ Err LostPartial ∧ plain_len r' = plain_len r.
Proof.
  intros [He Hp Ho Hd Hs Hring Hrs Hdis Hok Hthis] H0 Hmax Hi Hpay. specialize (Hthis H0 Hmax).
  unfold store. destruct (p_chunks p !! i) eqn:Ei.
  { intros [= <- <-]. split; [|done]. split; try done. intros id' p' Hp'.
    destruct (decide (id' = id)) as [->|]; [by simplify_eq|by eapply Hok]. }
  destruct Hthis as [Hc Hopen Hkeys].
  assert (Hdom : ∀ id' q, is_Some (<[id := q]> (partial r) !! id') ↔ is_Some (partial r !! id')).
  { intros id' q. rewrite lookup_insert_is_Some. split; [|destruct (decide (id = id')); auto].
    intros [<-|[_ ?]]; [by rewrite He|done]. }
  assert (Hnc : id ∉ completed r).
  { intros Hin%Hdis. congruence. }
  assert (Hsz : ∀ q, size (<[id := q]> (partial r)) = size (partial r)).
  { intros q. by rewrite map_size_insert, He. }
  simpl. rewrite map_size_insert_None by done.
  destruct (N.ltb_spec (N.of_nat (S (size (p_chunks p)))) (p_count p)).
  - intros [= <- <-]. split; [|done]. split; simpl; try done.
    + intros id'. by rewrite Hdom.
    + by rewrite Hsz.
    + intros id' Hin. rewrite lookup_insert_ne by (by intros <-). by apply Hdis.
    + intros id' p' Hp'. destruct (decide (id' = id)) as [->|].
      * rewrite lookup_insert_eq in Hp'. simplify_eq. split; simpl; [done| |].
        { by rewrite map_size_insert_None. }
        intros j c [[-> ->]|[? ?]]%lookup_insert_Some; [done|by eapply Hkeys].
      * rewrite lookup_insert_ne in Hp' by done. by eapply Hok.
  - unfold complete. simpl. rewrite lookup_insert_eq. intros [= <- <-]. split; [|done].
    destruct (ring_push (completed r) id Hring Hnc Hrs) as (Hin1 & Hin2 & Hin3).
    rewrite delete_insert_eq. split; simpl; try done.
    + by apply NoDup_filter.
    + intros id'. rewrite list_elem_of_filter, Hd. destruct (decide (id' = id)) as [->|].
      * rewrite lookup_delete_eq. split; [by intros []|by intros []].
      * rewrite lookup_delete_ne by done. naive_solver.
    + rewrite map_size_delete, He. lia.
    + intros id' [Hin| ->]%Hin3; rewrite lookup_delete_None; auto.
    + intros id' p' [Hne Hp']%lookup_delete_Some. by eapply Hok.
Qed.

Lemma push_wf r c r' o : wf r → push r c = (r', o) →
  wf r' ∧ o ≠ Panic ∧ o ≠ Err LostPartial ∧ plain_len r' = plain_len r.
Proof.
  intros Hr. pose proof (wf_plain _ Hr) as Hp. unfold push.
  destruct (N.eqb_spec (len c) (plain_len r)) as [Hlen|]; simpl; [|by intros [= <- <-]].
  destruct (header_total c) as [[[[id i] n] k] Hh]; [lia|]. rewrite Hh.
  pose proof (header_count _ _ _ _ _ Hh) as Hn.
  destruct (N.eqb_spec n 0); simpl; [by intros [= <- <-]|].
  destruct (N.leb_spec n i); simpl; [by intros [= <- <-]|].
  destruct (N.ltb_spec (plain_len r - CHUNK_HEADER_LEN) k); simpl; [by intros [= <- <-]|].
  case_bool_decide as Hid; [by intros [= <- <-]|].
  destruct (slice_total CHUNK_HEADER_LEN (CHUNK_HEADER_LEN + k) c) as [payload Hs]; [lia|lia|].
  rewrite Hs. apply slice_some in Hs as [Hs _].
  destruct (open_partial r id n) as [[r1 p]|e|] eqn:Ho.
  - destruct (open_partial_opened _ _ _ _ _ Hr Hid Ho) as (Hop & Hcnt & Hpl & _).
    intros Hst. rewrite <-Hpl. eapply store_wf; [done|..|done]; rewrite ?Hcnt, ?Hpl; lia.
  - intros [= <- <-]. split; [done|]. split; [done|]. split; [|done]. intros [= ->].
    unfold open_partial in Ho. destruct (partial r !! id); [|done]. by case_match.
  - exfalso. unfold open_partial in Ho. destruct (partial r !! id); [|done]. by case_match.
Qed.

Lemma forget_wf r id : wf r → wf (forget r id).
Proof.
  intros [Hp Ho Hd Hs Hring Hrs Hdis Hok]. split; simpl; try done.
  - by apply NoDup_filter.
  - etrans; [|apply Hrs]. unfold len. pose proof (length_filter (λ x, x ≠ id) (completed r)). lia.
  - intros id' [_ ?]%list_elem_of_filter. by apply Hdis.
Qed.

(** The operations a receiver performs. *)
Inductive rop := RPush (chunk : bytes) | RForget (id : MsgId).

Fixpoint run_ops (r : Reassembler) (ops : list rop) : Reassembler * list (outcome NetError PushOutcome) :=
  match ops with
  | [] => (r, [])
  | RPush c :: ops =>
      let '(r, o) := push r c in
      let '(r, os) := run_ops r ops in (r, o :: os)
  | RForget id :: ops => run_ops (forget r id) ops
  end.

(** The reassembler is safe against hostile input.  Whatever byte strings
    are pushed into it and whatever ids are forgotten in between, no push
    panics or loses a message it is completing; at most 64 messages are open,
    each with fewer chunks than its header announces (at most 65535) and no
    chunk over the payload budget; at most 256 completed ids are kept. *)
Theorem reassembler_bounded n ops r os :
  run_ops (new_sized n) ops = (r, os) →
  wf r ∧ plain_len r = plain_len (new_sized n) ∧ (Panic ∉ os) ∧ (Err LostPartial ∉ os).
Proof.
  pose proof (new_sized_wf n) as Hw. revert Hw. generalize (new_sized n) as r0. intros r0.
  revert r0 os. induction ops as [|[c|id] ops IH]; intros r0 os Hw; simpl.
  - intros [= <- <-]. split; [done|]. split; [done|]. split; apply not_elem_of_nil.
  - destruct (push r0 c) as [r1 o] eqn:E1. destruct (run_ops r1 ops) as [r2 os'] eqn:E2.
    intros [= <- <-]. destruct (push_wf _ _ _ _ Hw E1) as (Hw1 & Hp & Hl & Hpl).
    destruct (IH r1 os' Hw1 E2) as (? & ? & ? & ?).
    split; [done|]. split; [congruence|]. split; apply not_elem_of_cons; auto.
  - intros E. destruct (IH _ _ (forget_wf _ id Hw) E) as (? & ? & ? & ?). auto.
Qed.

(** ** What the chunker emits *)

Lemma collect_ok {E A B} (f : A → outcome E B) l ys :
  collect f l = Ok ys ↔ Forall2 (λ x y, f x = Ok y) l ys.
Proof.
  revert ys. induction l as [|x l IH]; intros ys; simpl.
  { split; [intros [= <-]; constructor|by intros ->%Forall2_nil_inv_l]. }
  split.
  - intros H. run_inv H. subst. constructor; [done|by apply IH].
  - intros (y & ys' & Hy & Hys%IH & ->)%Forall2_cons_inv_l. rewrite Hy. simpl. by rewrite Hys.
Qed.

(** A slice that starts after a prefix and ends before a suffix. *)
Lemma slice_mid a b l1 l2 l3 : len l1 = a → (a + len l2 = b)%N → slice a b (l1 ++ l2 ++ l3) = Some l2.
Proof.
  intros <- <-. unfold slice. rewrite !len_app.
  rewrite !(proj2 (N.leb_le _ _)) by lia. simpl. f_equal. unfold len.
  rewrite Nat2N.id, drop_app_length.
  replace (N.to_nat _) with (length l2) by lia. apply take_app_length.
Qed.

Lemma slice_head b l2 l3 : len l2 = b → slice 0 b (l2 ++ l3) = Some l2.
Proof. intros H. apply (slice_mid 0 b [] l2 l3); [done|]. by rewrite N.add_0_l. Qed.

(** The payload slice of chunk [i]. *)
Definition part_of (payload : bytes) (budget i : N) : bytes :=
  take (N.to_nat budget) (drop (N.to_nat (i * budget)) payload).

(** Chunk [i] of [n]. *)
Definition encoded (id : MsgId) (pl n i : N) (part : bytes) : bytes :=
  resize0 pl (id ++ le_bytes 2 i ++ le_bytes 2 n ++ le_bytes 2 (len part) ++ part).

Lemma slice_part payload budget i :
  slice (N.min (i * budget) (len payload)) (N.min (len payload) (i * budget + budget)) payload
  = Some (part_of payload budget i).
Proof.
  unfold slice, part_of, len. rewrite !(proj2 (N.leb_le _ _)) by lia. simpl. f_equal.
  destruct (decide (i * budget <= N.of_nat (length payload))%N).
  - replace (N.to_nat (N.min (i * budget) _)) with (N.to_nat (i * budget)) by lia.
    destruct (decide (i * budget + budget <= N.of_nat (length payload))%N); [f_equal; lia|].
    rewrite !take_ge; [done|rewrite length_drop; lia..].
  - rewrite !drop_ge by lia. by rewrite !take_nil.
Qed.

Lemma len_le_bytes k n : len (le_bytes k n) = N.of_nat k.
Proof. unfold len. by rewrite length_le_bytes. Qed.

Lemma len_resize0 n v : len (resize0 n v) = n.
Proof. unfold resize0, len. rewrite length_resize. lia. Qed.

Lemma resize0_pad n v : (len v <= n)%N → ∃ pad, resize0 n v = v ++ pad.
Proof. intros H. unfold resize0, len in *. eexists. apply resize_ge. lia. Qed.

Lemma len_part payload budget i : (len (part_of payload budget i) <= budget)%N.
Proof. unfold part_of, len. rewrite length_take. lia. Qed.

(** An encoded chunk reads back. *)
Lemma header_encoded id pl n i part :
  len id = MSG_ID_LEN → (i <= u16_max)%N → (n <= u16_max)%N → (len part <= u16_max)%N →
  (CHUNK_HEADER_LEN + len part <= pl)%N →
  header (encoded id pl n i part) = Some (id, i, n, len part) ∧
  slice CHUNK_HEADER_LEN (CHUNK_HEADER_LEN + len part) (encoded id pl n i part) = Some part.
Proof.
  intros Hid Hi Hn Hp Hpl. unfold encoded.
  destruct (resize0_pad pl (id ++ le_bytes 2 i ++ le_bytes 2 n ++ le_bytes 2 (len part) ++ part)) as [pad ->].
  { rewrite !len_app, !len_le_bytes, Hid. unfold CHUNK_HEADER_LEN in Hpl. simpl. lia. }
  assert (Hw : ∀ k, (k <= u16_max)%N → of_le_bytes (le_bytes 2 k) = k).
  { intros k Hk. rewrite of_le_bytes_le_bytes. apply N.mod_small. unfold u16_max in Hk. simpl. lia. }
  rewrite <-!app_assoc. unfold header, word.
  rewrite slice_head by done. cbn [mbind option_bind].
  rewrite (slice_mid MSG_ID_LEN (MSG_ID_LEN + 2) id (le_bytes 2 i)) by done. cbn [fmap option_fmap option_map mbind option_bind].
  rewrite (app_assoc id), (slice_mid (MSG_ID_LEN + 2) (MSG_ID_LEN + 2 + 2) (id ++ le_bytes 2 i) (le_bytes 2 n))
    by (rewrite ?len_app, ?len_le_bytes, ?Hid; done). cbn [fmap option_fmap option_map mbind option_bind].
  rewrite (app_assoc (id ++ _)),
    (slice_mid (MSG_ID_LEN + 4) (MSG_ID_LEN + 4 + 2) ((id ++ le_bytes 2 i) ++ le_bytes 2 n) (le_bytes 2 (len part)))
    by (rewrite ?len_app, ?len_le_bytes, ?Hid; done). cbn [fmap option_fmap option_map mbind option_bind].
  rewrite !Hw by done. split; [done|].
  rewrite (app_assoc ((id ++ _) ++ _)). apply slice_mid; [|done].
  rewrite !len_app, !len_le_bytes, Hid. done.
Qed.

(** The chunks of a message, in order. *)
Lemma chunk_message_sized_ok id payload pl chunks :
  chunk_message_sized id payload pl = Ok chunks →
  let b := (pl - CHUNK_HEADER_LEN)%N in
  let n := chunk_count payload b in
  (CHUNK_HEADER_LEN < pl)%N ∧ (n <= u16_max)%N ∧
  (∀ i, (i < n)%N → (len (part_of payload b i) <= u16_max)%N) ∧
  chunks = (λ i, encoded id pl n i (part_of payload b i)) <$> range n.
Proof.
  intros H b n. unfold chunk_message_sized in H. apply reject_ok in H as [Hpl H]. to_prop.
  unfold chunk_message_budgeted in H. fold b n in H.
  apply obind_ok in H as (n' & Hn & Hc). apply ok_or_ok in Hn. unfold u16_try_from in Hn.
  destruct (N.leb_spec n u16_max); [|done]. injection Hn as <-. apply collect_ok in Hc.
  assert (Hall : Forall2 (λ i c, (len (part_of payload b i) <= u16_max)%N ∧
     c = encoded id pl n i (part_of payload b i)) (range n) chunks).
  { eapply Forall2_impl; [done|]. clear. intros i c Hc. unfold chunk_at in Hc. rewrite slice_part in Hc.
    cbn [expect obind] in Hc. unfold u16_try_from in Hc. destruct (i <=? u16_max)%N; [|done].
    destruct (N.leb_spec (len (part_of payload b i)) u16_max); [|done].
    by injection Hc as <-. }
  split; [done|]. split; [done|]. split.
  - intros i Hi. assert (i ∈ range n) as (j & Hj)%list_elem_of_lookup.
    { apply list_elem_of_fmap. exists (N.to_nat i). rewrite N2Nat.id. split; [done|]. apply elem_of_seq. lia. }
    destruct (Forall2_lookup_l _ _ _ _ _ Hall Hj) as (c & _ & ? & _). done.
  - clear -Hall. induction Hall as [|i c l k [_ ->] _ IH]; [done|]. csimpl. by rewrite IH.
Qed.

(** The parts of a message end to end are the message. *)
Lemma concat_parts payload b (k : nat) :
  concat ((λ i, part_of payload b (N.of_nat i)) <$> seq 0 k) = take (k * N.to_nat b) payload.
Proof.
  induction k as [|k IH]; [done|].
  rewrite seq_S, fmap_app, concat_app, IH. simpl. rewrite app_nil_r. unfold part_of.
  rewrite N2Nat.inj_mul, Nat2N.id, take_take_drop. f_equal. lia.
Qed.

Lemma chunk_count_covers payload b : (0 < b)%N → (len payload <= chunk_count payload b * b)%N.
Proof.
  intros Hb. unfold chunk_count.
  assert (len payload <= (len payload + b - 1) / b * b)%N.
  { pose proof (N.div_mod' (len payload + b - 1) b). pose proof (N.mod_upper_bound (len payload + b - 1) b). lia. }
  nia.
Qed.

Lemma concat_message payload b : (0 < b)%N →
  concat (part_of payload b <$> range (chunk_count payload b)) = payload.
Proof.
  intros Hb. unfold range. rewrite <-list_fmap_compose. unfold compose. rewrite concat_parts.
  apply take_ge. pose proof (chunk_count_covers payload b Hb) as H. unfold len in H. lia.
Qed.

Lemma elem_of_range n i : i ∈ range n ↔ (i < n)%N.
Proof.
  unfold range. rewrite list_elem_of_fmap. split.
  - intros (j & -> & Hj%elem_of_seq). lia.
  - intros Hi. exists (N.to_nat i). rewrite N2Nat.id. split; [done|]. apply elem_of_seq. lia.
Qed.

Lemma NoDup_range n : NoDup (range n).
Proof. apply NoDup_fmap_2; [apply _|apply NoDup_seq]. Qed.

(** A map with the keys [0..n] read in key order. *)
Lemma in_order_full (m : gmap N bytes) n f :
  (∀ i, m !! i = if decide (i < n)%N then Some (f i) else None) → in_order m = concat (f <$> range n).
Proof.
  intros Hm. unfold in_order. f_equal.
  assert (merge_sort chunk_le (map_to_list m) = (λ i, (i, f i)) <$> range n) as ->.
  2:{ rewrite <-list_fmap_compose. done. }
  apply (StronglySorted_unique_strong chunk_le).
  - intros [i1 c1] [i2 c2] H1 H2 Ha Hb. unfold chunk_le in *. simpl in *.
    assert (i1 = i2) as -> by lia. rewrite merge_sort_Permutation, elem_of_map_to_list, Hm in H1.
    apply list_elem_of_fmap in H2 as (j & [= -> ->] & _). case_decide; naive_solver.
  - apply (StronglySorted_merge_sort _).
  - unfold range. generalize 0%nat as s, (N.to_nat n) as k. intros s k. revert s.
    induction k as [|k IH]; intros s; [constructor|]. csimpl. constructor; [apply IH|].
    apply Forall_forall. intros x (i & -> & (j & -> & Hj%elem_of_seq)%list_elem_of_fmap)%list_elem_of_fmap.
    unfold chunk_le. simpl. lia.
  - rewrite merge_sort_Permutation. apply NoDup_Permutation.
    + apply NoDup_map_to_list.
    + apply NoDup_fmap_2_strong; [|apply NoDup_range]. intros x y _ _ Hxy. by injection Hxy.
    + intros [i c]. rewrite elem_of_map_to_list, Hm, list_elem_of_fmap. split.
      * case_decide; [|done]. intros [= <-]. exists i. split; [done|]. by apply elem_of_range.
      * intros (j & [= -> ->] & Hj%elem_of_range). by rewrite decide_True.
Qed.

(** ** One message among others *)

(** The message [id] if this push completed it. *)
Definition completion (id : MsgId) (o : outcome NetError PushOutcome) : list bytes :=
  match o with
  | Ok (Complete id' msg) => if decide (id' = id) then [msg] else []
  | _ => []
  end.

(** The ids a reassembler knows. *)
Definition known (r : Reassembler) (x : MsgId) : Prop := is_Some (partial r !! x) ∨ x ∈ completed r.

Section Tracked.
Context (id : MsgId) (pl n : N) (parts : N → bytes) (ids : gset MsgId).
Hypothesis id_len : len id = MSG_ID_LEN.
Hypothesis n_pos : (0 < n <= u16_max)%N.
Hypothesis parts_fit : ∀ i, (i < n)%N → (len (parts i) <= u16_max)%N ∧ (CHUNK_HEADER_LEN + len (parts i) <= pl)%N.
Hypothesis pl_pos : (CHUNK_HEADER_LEN < pl)%N.
Hypothesis ids_few : (size ids ≤ 64)%nat.

Let enc (i : N) : bytes := encoded id pl n i (parts i).

(** All chunks seen. *)
Definition whole (got : gset N) : Prop := ∀ i, (i < n)%N → i ∈ got.

#[local] Instance whole_dec got : Decision (whole got).
Proof.
  refine (cast_if (decide (Forall (λ i, i ∈ got) (range n))));
    abstract (unfold whole; setoid_rewrite <-elem_of_range; by rewrite <-Forall_forall).
Defined.

(** The reassembler [r] has seen the chunks [got] of the message, and knows
    no more than [ids]. *)
Record tracking (r : Reassembler) (got : gset N) : Prop := {
  tr_wf : wf r;
  tr_plain : plain_len r = pl;
  tr_known x : known r x → x ∈ ids;
  tr_got i : i ∈ got → (i < n)%N;
  tr_done : whole got → id ∈ completed r;
  tr_open : ¬ whole got → id ∉ completed r;
  tr_none : got = ∅ → partial r !! id = None;
  tr_some : got ≠ ∅ → ¬ whole got → ∃ p, partial r !! id = Some p ∧ p_count p = n ∧
    ∀ i, p_chunks p !! i = if decide (i ∈ got) then Some (parts i) else None;
}.

(** The table has room for one more of the ids in play. *)
Lemma table_room r x : wf r → (∀ y, known r y → y ∈ ids) → x ∈ ids → partial r !! x = None →
  evict r = r.
Proof.
  intros Hw Hk Hx Hn. unfold evict.
  destruct (N.leb_spec MAX_PARTIALS (N.of_nat (size (partial r)))) as [Hge|]; [|done]. exfalso.
  assert (dom (partial r) ⊆ ids ∖ {[x]}) as Hs%subseteq_size.
  { intros y Hy. apply elem_of_difference. split; [apply Hk; left; by apply elem_of_dom|].
    intros ->%elem_of_singleton. apply elem_of_dom in Hy as [? ?]. congruence. }
  rewrite size_dom, size_difference, size_singleton in Hs by set_solver.
  assert (size ids ≠ 0) by (intros H0%size_empty_inv; set_solver). unfold MAX_PARTIALS in Hge. lia.
Qed.

(** So has the ring. *)
Lemma ring_room r x : NoDup (completed r) → (∀ y, known r y → y ∈ ids) → x ∈ ids → x ∉ completed r →
  (RECENT_COMPLETED <? len (completed r ++ [x]))%N = false.
Proof.
  intros Hw Hk Hx Hn. apply N.ltb_ge.
  assert (list_to_set (completed r ++ [x]) ⊆ ids) as Hs%subseteq_size.
  { intros y. rewrite elem_of_list_to_set, elem_of_app, list_elem_of_singleton.
    intros [?| ->]; [apply Hk; by right|done]. }
  rewrite size_list_to_set in Hs.
  - unfold len, RECENT_COMPLETED. lia.
  - apply NoDup_app. split; [done|]. split; [|apply NoDup_singleton].
    intros y Hy ->%list_elem_of_singleton. done.
Qed.

(** A push leaves other messages alone. *)
Lemma push_other r got c r' o :
  tracking r got → take 16 c ∈ ids → take 16 c ≠ id → push r c = (r', o) →
  tracking r' got ∧ completion id o = [].
Proof.
  intros Ht Hin Hne Hpush. pose proof (tr_wf _ _ Ht) as Hw.
  destruct (push_wf _ _ _ _ Hw Hpush) as (Hw' & _ & _ & Hpl).
  enough (partial r' !! id = partial r !! id ∧ (id ∈ completed r' ↔ id ∈ completed r) ∧
          (∀ x, known r' x → x ∈ ids) ∧ completion id o = []) as (Hp & Hc & Hk & Ho).
  { split; [|done]. destruct Ht as [_ Hpl0 Hkn Hgot Hdone Hopen Hnone Hsome].
    split; rewrite ?Hc, ?Hp, ?Hpl; try done; by apply Hsome. }
  pose proof (tr_known _ _ Ht) as Hkn. clear Ht Hw' Hpl. unfold push in Hpush.
  destruct (len c =? plain_len r)%N; simpl in Hpush; [|by simplify_eq].
  destruct (header c) as [[[[x i] m] k]|] eqn:Hh; [|by simplify_eq].
  assert (x = take 16 c) as ->.
  { unfold header in Hh. destruct (slice 0 MSG_ID_LEN c) as [y|] eqn:Hs; [|done]. simpl in Hh.
    repeat (apply bind_Some in Hh as (? & _ & Hh)). simplify_eq.
    unfold slice in Hs. destruct (_ && _); [|done]. by injection Hs as <-. }
  destruct (_ || _); [by simplify_eq|]. case_bool_decide as Hcx; [by simplify_eq|].
  destruct (slice CHUNK_HEADER_LEN _ c) as [payload|]; [|by simplify_eq].
  assert (Hring := ring_room r (take 16 c) (wf_ring _ Hw) Hkn Hin Hcx).
  assert (Hst : ∀ r1 p, completed r1 = completed r → partial r1 !! id = partial r !! id →
     (∀ x, known r1 x → x ∈ ids) → store r1 (take 16 c) p i payload = (r', o) →
     partial r' !! id = partial r !! id ∧ (id ∈ completed r' ↔ id ∈ completed r) ∧
     (∀ x, known r' x → x ∈ ids) ∧ completion id o = []).
  { intros r1 p Hc1 Hp1 Hk1. unfold store. destruct (p_chunks p !! i); [by intros [= <- <-]; rewrite Hc1|].
    unfold complete, known. simpl. destruct (_ <? p_count p)%N.
    - intros [= <- <-]. simpl. rewrite lookup_insert_ne, Hc1 by done. split; [done|]. split; [done|].
      split; [|done]. intros x. rewrite lookup_insert_is_Some.
      intros [[<-|[_ ?]]|?]; [done|apply Hk1; by left|apply Hk1; right; by rewrite Hc1].
    - rewrite lookup_insert_eq, Hc1, Hring. intros [= <- <-]. simpl.
      rewrite delete_insert_eq, lookup_delete_ne, elem_of_app, list_elem_of_singleton by done.
      split; [done|]. split; [naive_solver|]. rewrite decide_False by done. split; [|done].
      intros x. rewrite elem_of_app, list_elem_of_singleton.
      intros [Hx|[?| ->]]; [|apply Hk1; right; by rewrite Hc1|done].
      destruct (decide (x = take 16 c)) as [->|]; [done|]. rewrite lookup_delete_ne in Hx by done.
      apply Hk1. by left. }
  unfold open_partial in Hpush. destruct (partial r !! take 16 c) as [p|] eqn:Hp.
  - destruct (negb _); [by simplify_eq|]. by eapply Hst.
  - rewrite (table_room r (take 16 c)) in Hpush by done.
    eapply Hst; [| | |done]; [done|simpl; by rewrite lookup_insert_ne|]. unfold known. simpl.
    intros x. rewrite lookup_insert_is_Some. intros [[<-|[_ ?]]|?]; [done|apply Hkn; by left|apply Hkn; by right].
Qed.

(** The size of what was seen tells whether it is whole. *)
Lemma whole_size got : (∀ i, i ∈ got → (i < n)%N) →
  (N.of_nat (size got) <= n)%N ∧ (whole got ↔ (n <= N.of_nat (size got))%N).
Proof.
  intros Hgot. set (all := list_to_set (range n) : gset N).
  assert (Hall : size all = N.to_nat n).
  { unfold all. rewrite size_list_to_set by apply NoDup_range. unfold range. by rewrite length_fmap, length_seq. }
  assert (Hsub : got ⊆ all).
  { intros i Hi. apply elem_of_list_to_set, elem_of_range. by apply Hgot. }
  pose proof (subseteq_size _ _ Hsub). split; [lia|]. split.
  - intros Hwh. assert (all ⊆ got) as ?%subseteq_size; [|lia].
    intros i Hi%elem_of_list_to_set%elem_of_range. by apply Hwh.
  - intros Hle i Hi. assert (got = all) as ->.
    { apply set_subseteq_size_eq; [done|lia]. }
    by apply elem_of_list_to_set, elem_of_range.
Qed.

(** A chunk arrives at its open entry. *)
Lemma store_own r got p i r' o :
  NoDup (completed r) → (∀ x, known r x → x ∈ ids) → id ∈ ids → id ∉ completed r →
  (∀ j, j ∈ got → (j < n)%N) → p_count p = n →
  (∀ j, p_chunks p !! j = if decide (j ∈ got) then Some (parts j) else None) →
  (i < n)%N → store r id p i (parts i) = (r', o) →
  o = (if decide (i ∈ got) then Ok (Duplicate id)
       else if decide (whole (got ∪ {[i]})) then Ok (Complete id (concat (parts <$> range n)))
       else Ok (Buffered id)) ∧
  (i ∈ got ∧ r' = r ∨ (i ∉ got) ∧ (∀ x, known r' x → x ∈ ids) ∧
    if decide (whole (got ∪ {[i]})) then id ∈ completed r'
    else (id ∉ completed r') ∧ ∃ p', partial r' !! id = Some p' ∧ p_count p' = n ∧
      ∀ j, p_chunks p' !! j = if decide (j ∈ got ∪ {[i]}) then Some (parts j) else None).
Proof.
  intros Hw Hk Hid Hnc Hgot Hcnt Hch Hi. unfold store. rewrite Hch.
  destruct (decide (i ∈ got)) as [Hin|Hin]; [intros [= <- <-]; auto|].
  assert (Hch' : ∀ j, <[i := parts i]> (p_chunks p) !! j
            = if decide (j ∈ got ∪ {[i]}) then Some (parts j) else None).
  { intros j. destruct (decide (j = i)) as [->|Hj]; [rewrite lookup_insert_eq, decide_True; set_solver|].
    rewrite lookup_insert_ne, Hch by done. apply decide_ext. set_solver. }
  assert (Hsz : size (<[i := parts i]> (p_chunks p)) = size (got ∪ {[i]})).
  { rewrite <-size_dom. f_equal. apply set_eq. intros j. rewrite elem_of_dom, Hch'.
    case_decide; [|split; [by intros [? ?]|done]]. split; [done|by eexists]. }
  assert (Hgot' : ∀ j, j ∈ got ∪ {[i]} → (j < n)%N) by set_solver.
  destruct (whole_size _ Hgot') as [_ Hwh]. simpl. rewrite Hsz, Hcnt.
  destruct (N.ltb_spec (N.of_nat (size (got ∪ {[i]}))) n) as [Hlt|Hge].
  - intros [= <- <-]. rewrite !(decide_False (P := whole _)) by (rewrite Hwh; lia). split; [done|]. right.
    split; [done|]. split.
    + unfold known. simpl. intros x. rewrite lookup_insert_is_Some.
      intros [[<-|[_ ?]]|?]; [done|apply Hk; by left|apply Hk; by right].
    + split; [done|]. simpl. eexists. rewrite lookup_insert_eq. done.
  - unfold complete. simpl. rewrite lookup_insert_eq. simpl. rewrite ring_room by done.
    intros [= <- <-]. apply Hwh in Hge. rewrite !(decide_True (P := whole _)) by done. split.
    + do 2 f_equal. apply in_order_full. intros j. rewrite Hch'. apply decide_ext.
      split; [apply Hgot'|apply Hge].
    + right. split; [done|]. simpl. split; [|set_solver].
      unfold known. simpl. rewrite delete_insert_eq. intros x [Hx|[?| ->%list_elem_of_singleton]%elem_of_app]; [| |done].
      * destruct Hx as [q [_ Hq]%lookup_delete_Some]. apply Hk. left. by eexists.
      * apply Hk. by right.
Qed.

(** The entry of the message, opened or found. *)
Lemma open_own r got i :
  wf r → (∀ x, known r x → x ∈ ids) → id ∈ ids → id ∉ completed r → ¬ whole got →
  (got = ∅ → partial r !! id = None) →
  (got ≠ ∅ → ¬ whole got → ∃ p, partial r !! id = Some p ∧ p_count p = n ∧
    ∀ j, p_chunks p !! j = if decide (j ∈ got) then Some (parts j) else None) →
  ∃ r1 p, open_partial r id n = Ok (r1, p) ∧ NoDup (completed r1) ∧ (∀ x, known r1 x → x ∈ ids) ∧
    (id ∉ completed r1) ∧ p_count p = n ∧ (i ∈ got → r1 = r) ∧
    ∀ j, p_chunks p !! j = if decide (j ∈ got) then Some (parts j) else None.
Proof.
  intros Hw Hkn Hid Hc Hnw Hnone Hsome. unfold open_partial. destruct (decide (got = ∅)) as [->|Hg].
  - rewrite Hnone, (table_room r id) by auto. eexists _, _. split; [done|]. simpl.
    split; [by apply wf_ring|]. split; [|split; [done|split; [done|split; [set_solver|]]]].
    + unfold known. simpl. intros x. rewrite lookup_insert_is_Some.
      intros [[<-|[_ ?]]|?]; [done|apply Hkn; by left|apply Hkn; by right].
    + intros j. by rewrite lookup_empty, decide_False by set_solver.
  - destruct (Hsome Hg Hnw) as (p & -> & Hcnt & Hch). rewrite Hcnt, N.eqb_refl. simpl.
    exists r, p. split; [done|]. split; [by apply wf_ring|]. done.
Qed.

Lemma push_own r got i r' o :
  tracking r got → id ∈ ids → (i < n)%N → push r (enc i) = (r', o) →
  tracking r' (got ∪ {[i]}) ∧
  completion id o = if decide (whole (got ∪ {[i]}) ∧ ¬ whole got)
                    then [concat (parts <$> range n)] else [].
Proof.
  intros Ht Hid Hi Hpush. pose proof (tr_wf _ _ Ht) as Hw.
  destruct (push_wf _ _ _ _ Hw Hpush) as (Hw' & _ & _ & Hpl).
  destruct Ht as [_ Hpl0 Hkn Hgot Hdone Hopen Hnone Hsome].
  assert (Hgot' : ∀ j, j ∈ got ∪ {[i]} → (j < n)%N) by set_solver.
  assert (Hne : got ∪ {[i]} ≠ ∅) by set_solver.
  destruct (parts_fit i Hi) as [Hfit Hroom].
  destruct (header_encoded id pl n i (parts i)) as [Hh Hs]; [done|lia|lia|done|done|].
  assert (Hlen : len (enc i) = pl) by apply len_resize0.
  unfold push in Hpush. fold (enc i) in Hh, Hs. rewrite Hpl0, Hh, Hs, Hlen, N.eqb_refl in Hpush. simpl in Hpush.
  destruct (N.eqb_spec n 0); [lia|]. destruct (N.leb_spec n i); [lia|].
  destruct (N.ltb_spec (pl - CHUNK_HEADER_LEN) (len (parts i))); [lia|]. simpl in Hpush.
  case_bool_decide as Hc.
  { simplify_eq. assert (Hwh : whole got) by (apply dec_stable; naive_solver).
    assert (Hwh' : whole (got ∪ {[i]})) by (intros j Hj; apply elem_of_union_l; by apply Hwh).
    simpl. rewrite decide_False by tauto. split; [|done]. by split. }
  assert (Hnw : ¬ whole got) by auto.
  destruct (open_own r got i Hw Hkn Hid Hc Hnw Hnone Hsome)
    as (r1 & p & Hop & Hnd & Hk1 & Hc1 & Hcnt & Heq & Hch).
  rewrite Hop in Hpush.
  destruct (store_own _ _ _ _ _ _ Hnd Hk1 Hid Hc1 Hgot Hcnt Hch Hi Hpush) as [-> Hst].
  destruct Hst as [(Hin & ->)|(Hin & Hk' & Hst)].
  - rewrite decide_True by done. simpl. assert (got ∪ {[i]} = got) as -> by set_solver.
    rewrite decide_False by tauto. split; [|done]. rewrite (Heq Hin). by split.
  - rewrite (decide_False (P := i ∈ got)) by done. destruct (decide (whole (got ∪ {[i]}))) as [Hwh|Hwh].
    + rewrite decide_True by done. simpl. rewrite decide_True by done. split; [|done].
      split; try done. by rewrite Hpl.
    + destruct Hst as (Hc' & Hp'). rewrite (decide_False (P := _ ∧ _)) by tauto. split; [|done].
      split; try done; by rewrite ?Hpl.
Qed.

Lemma enc_inj i j : (i < n)%N → (j < n)%N → enc i = enc j → i = j.
Proof.
  intros Hi Hj He. destruct (parts_fit i Hi), (parts_fit j Hj).
  destruct (header_encoded id pl n i (parts i)) as [Hh _]; [done|lia|lia|done|done|].
  destruct (header_encoded id pl n j (parts j)) as [Hh' _]; [done|lia|lia|done|done|].
  fold (enc i) in Hh. fold (enc j) in Hh'. congruence.
Qed.

(** A series of deliveries, the chunks of the message among them. *)
Lemma track_all l r got :
  tracking r got → id ∈ ids → (∀ c, c ∈ l → take 16 c ∈ ids) →
  (∀ c, c ∈ l → take 16 c = id → ∃ i, (i < n)%N ∧ c = enc i) →
  ∃ r' os got', push_all r l = (r', os) ∧ tracking r' got' ∧ got ⊆ got' ∧
    (∀ i, (i < n)%N → enc i ∈ l → i ∈ got') ∧
    concat (completion id <$> os) =
      if decide (whole got' ∧ ¬ whole got) then [concat (parts <$> range n)] else [].
Proof.
  revert r got. induction l as [|c l IH]; intros r got Ht Hid Hids Hown.
  { exists r, [], got. rewrite decide_False by tauto. set_solver. }
  simpl. destruct (push r c) as [r1 o] eqn:Hpush.
  assert (∃ got1, tracking r1 got1 ∧ got ⊆ got1 ∧ (∀ i, (i < n)%N → c = enc i → i ∈ got1) ∧
    completion id o = if decide (whole got1 ∧ ¬ whole got) then [concat (parts <$> range n)] else [])
    as (got1 & Ht1 & Hsub & Hc & Ho).
  { destruct (decide (take 16 c = id)) as [He|Hne].
    - destruct (Hown c ltac:(by constructor) He) as (i & Hi & ->).
      destruct (push_own _ _ _ _ _ Ht Hid Hi Hpush) as [Ht1 Ho]. exists (got ∪ {[i]}).
      split; [done|]. split; [set_solver|]. split; [|done]. intros j Hj ->%enc_inj; set_solver.
    - destruct (push_other _ _ _ _ _ Ht (Hids c ltac:(by constructor)) Hne Hpush) as [Ht1 Ho].
      exists got. rewrite decide_False by tauto. split; [done|]. split; [done|]. split; [|done].
      intros i Hi ->. destruct Hne. unfold enc. destruct (parts_fit i Hi).
      destruct (header_encoded id pl n i (parts i)) as [Hh _]; [done|lia|lia|done|done|].
      unfold header in Hh. apply bind_Some in Hh as (y & Hy & Hh).
      repeat (apply bind_Some in Hh as (? & _ & Hh)). simplify_eq.
      unfold slice in Hy. destruct (_ && _); [|done]. by injection Hy. }
  destruct (IH r1 got1 Ht1 Hid) as (r' & os & got' & Hrun & Ht' & Hsub' & Hl & Hos); [set_solver| |].
  { intros c' Hc'. apply Hown. by constructor. }
  rewrite Hrun. exists r', (o :: os), got'. split; [done|]. split; [done|]. split; [set_solver|]. split.
  { intros i Hi [He|He]%elem_of_cons; [apply Hsub'; by apply Hc|by apply Hl]. }
  csimpl. rewrite Ho, Hos.
  assert (whole got → whole got1) by (intros Hx ? ?; apply Hsub; auto).
  assert (whole got1 → whole got') by (intros Hx ? ?; apply Hsub'; auto).
  repeat case_decide; simpl; tauto || done.
Qed.

End Tracked.

(** C16: reassembly converges.  A message cut into chunks comes out of the
    reassembler exactly once and byte for byte, whatever the order in which
    its chunks arrive and however often each is repeated, in any mixture with
    other chunks and with garbage, provided nothing else that arrives carries
    the message's id (a foreign chunk under it could claim another count), and
    the ids of all that arrives, whatever stands for one in the garbage, are
    at most 64, this one included: so many messages are held open. *)
Theorem reassembly_converges id payload pl chunks l :
  len id = MSG_ID_LEN →
  chunk_message_sized id payload pl = Ok chunks →
  chunks ⊆ l →
  (∀ c, c ∈ l → take 16 c = id → c ∈ chunks) →
  (size (list_to_set (take 16 <$> l) : gset MsgId) ≤ 64)%nat →
  concat (completion id <$> (push_all (new_sized pl) l).2) = [payload].
Proof.
  intros Hid Hcut Hall Hown Hids. set (ids := list_to_set (take 16 <$> l) : gset MsgId) in *.
  destruct (chunk_message_sized_ok _ _ _ _ Hcut) as (Hpl & Hn & Hfit & ->).
  set (b := (pl - CHUNK_HEADER_LEN)%N) in *. set (n := chunk_count payload b) in *.
  assert (Hn0 : (0 < n <= u16_max)%N) by (unfold n, chunk_count in *; lia).
  assert (Hparts : ∀ i, (i < n)%N → (len (part_of payload b i) <= u16_max)%N ∧
            (CHUNK_HEADER_LEN + len (part_of payload b i) <= pl)%N).
  { intros i Hi. split; [by apply Hfit|]. pose proof (len_part payload b i). unfold b in *. lia. }
  assert (Hin : ∀ i, (i < n)%N → encoded id pl n i (part_of payload b i) ∈ l).
  { intros i Hi. apply Hall, list_elem_of_fmap. exists i. split; [done|]. by apply elem_of_range. }
  assert (Htake : ∀ c, c ∈ l → take 16 c ∈ ids).
  { intros c Hc. apply elem_of_list_to_set. by apply list_elem_of_fmap_2. }
  assert (Hin_id : id ∈ ids).
  { replace id with (take 16 (encoded id pl n 0 (part_of payload b 0))); [apply Htake, Hin; lia|].
    destruct (Hparts 0%N); [lia|]. unfold encoded.
    destruct (resize0_pad pl (id ++ le_bytes 2 0 ++ le_bytes 2 n ++ le_bytes 2 (len (part_of payload b 0)) ++
       part_of payload b 0)) as [pad ->].
    { rewrite !len_app, !len_le_bytes, Hid. unfold CHUNK_HEADER_LEN in *. simpl. lia. }
    rewrite <-app_assoc. replace 16%nat with (length id); [apply take_app_length|]. unfold len, MSG_ID_LEN in Hid. lia. }
  assert (Hnw : ¬ whole n ∅) by (intros Hx; specialize (Hx 0%N); set_solver by lia).
  destruct (track_all id pl n (part_of payload b) ids Hid Hn0 Hparts Hpl Hids l (new_sized pl) ∅)
    as (r & os & got & -> & Ht & _ & Hgot & Hos); [|done|done| |].
  - split; try done.
    + apply new_sized_wf.
    + simpl. lia.
    + intros x [[? ?]|?%elem_of_nil]; done.
    + intros _. apply not_elem_of_nil.
  - intros c Hc He. apply (Hown c Hc) in He. apply list_elem_of_fmap in He as (i & -> & Hi%elem_of_range). eauto.
  - simpl. rewrite Hos, decide_True.
    + f_equal. apply concat_message. unfold b. lia.
    + split; [|done]. intros i Hi. apply Hgot; [done|]. by apply Hin.
Qed.

(** ** The chunker answers *)

Lemma collect_total {E A B} (f : A → outcome E B) l :
  (∀ x, x ∈ l → is_ok (f x) = true) → ∃ ys, collect f l = Ok ys ∧ length ys = length l.
Proof.
  induction l as [|x l IH]; intros Hf; simpl; [by exists []|].
  destruct (f x) as [y|e|] eqn:E1; [|by specialize (Hf x ltac:(by constructor)); rewrite E1 in Hf..].
  destruct IH as (ys & -> & Hl); [intros z Hz; apply Hf; by constructor|].
  exists (y :: ys). simpl. by rewrite Hl.
Qed.

(** The chunker is total on what fits.  With room for a payload of at most
    65535 bytes per chunk and at most 65535 chunks, a message is cut into
    exactly the computed number of chunks, at least one, all of one size. *)
Theorem chunks_uniform id payload pl :
  let b := (pl - CHUNK_HEADER_LEN)%N in
  (CHUNK_HEADER_LEN < pl)%N → (b <= u16_max)%N → (chunk_count payload b <= u16_max)%N →
  ∃ chunks, chunk_message_sized id payload pl = Ok chunks ∧
    len chunks = chunk_count payload b ∧ chunks ≠ [] ∧ Forall (λ c, len c = pl) chunks.
Proof.
  intros b Hpl Hb Hn.
  destruct (collect_total (chunk_at id payload b pl (chunk_count payload b)) (range (chunk_count payload b)))
    as (chunks & Hrun & Hl).
  { intros i Hi%elem_of_range. unfold chunk_at. rewrite slice_part. simpl.
    unfold u16_try_from. destruct (N.leb_spec i u16_max); [|lia]. simpl.
    pose proof (len_part payload b i). destruct (N.leb_spec (len (part_of payload b i)) u16_max); [done|lia]. }
  assert (Hcut : chunk_message_sized id payload pl = Ok chunks).
  { unfold chunk_message_sized, chunk_message_budgeted. destruct (N.leb_spec pl CHUNK_HEADER_LEN); [lia|].
    fold b. unfold u16_try_from. destruct (N.leb_spec (chunk_count payload b) u16_max); [done|lia]. }
  exists chunks. split; [done|].
  assert (Hlen : len chunks = chunk_count payload b).
  { unfold len. rewrite Hl. unfold range. rewrite length_fmap, length_seq. lia. }
  split; [done|]. split; [intros ->; unfold chunk_count in Hlen; rewrite len_nil in Hlen; lia|].
  destruct (chunk_message_sized_ok _ _ _ _ Hcut) as (_ & _ & _ & ->).
  apply Forall_fmap, Forall_forall. intros i _. apply len_resize0.
Qed.

(** ** Message ids *)

(** Two inputs whose digests agree in the first sixteen bytes. *)
Definition id_collision `{Env} : Prop :=
  ∃ x y : bytes, x ≠ y ∧ take (N.to_nat MSG_ID_LEN) (sha256 x) = take (N.to_nat MSG_ID_LEN) (sha256 y).

(** A resend has a fresh id.  On one link, messages with different wire
    sequence numbers or different resend epochs have different ids, unless
    the truncated hash collides; so the ring of completed ids never takes a
    resend for the original. *)
Theorem resend_id_fresh `{Env} sender recipient s1 e1 s2 e2 :
  (s1 <= u64_max)%N → (s2 <= u64_max)%N → (e1 <= u32_max)%N → (e2 <= u32_max)%N →
  msg_id_epoch sender recipient s1 e1 = msg_id_epoch sender recipient s2 e2 →
  (s1 = s2 ∧ e1 = e2) ∨ id_collision.
Proof.
  intros Hs1 Hs2 He1 He2 Heq.
  destruct (decide (msg_id_bytes sender recipient s1 e1 = msg_id_bytes sender recipient s2 e2)) as [Hb|Hb];
    [left|by right; exists (msg_id_bytes sender recipient s1 e1), (msg_id_bytes sender recipient s2 e2)].
  unfold msg_id_bytes in Hb. do 4 apply app_inv_head in Hb.
  apply app_inj_len in Hb as [Hs Ht]; [|by rewrite !length_le_bytes].
  assert (s1 = s2) as ->.
  { apply (le_bytes_inj 8); [unfold u64_max in *; simpl; lia..|done]. }
  split; [done|]. destruct (N.ltb_spec 0 e1), (N.ltb_spec 0 e2); [|done|done|lia].
  apply app_inv_head in Ht. apply (le_bytes_inj 4); [unfold u32_max in *; simpl; lia..|done].
Qed.

(** ** A run *)

Module ChunkRun.

Definition id1 : MsgId := replicate 16 x01.
Definition payload1 : bytes := [x05; x06; x07].
Definition cut1 : list bytes :=
  match chunk_message_sized id1 payload1 24 with Ok l => l | _ => [] end.
Definition c0 : bytes := nth 0 cut1 [].
Definition c1 : bytes := nth 1 cut1 [].

(** The second chunk first, then garbage of the right size and of the wrong
    one, then the first chunk, then both again. *)
Definition deliveries : list bytes := [c1; replicate 24 xff; [x00]; c1; c0; c1; c0].

Lemma reassembly_converges_witness :
  concat (completion id1 <$> (push_all (new_sized 24) deliveries).2) = [payload1].
Proof.
  apply (reassembly_converges id1 payload1 24 cut1 deliveries).
  - done.
  - vm_compute. done.
  - intros x [->|[->|[]%elem_of_nil]%elem_of_cons]%elem_of_cons; vm_compute; repeat constructor.
  - assert (H : Forall (λ c, take 16 c = id1 → c ∈ cut1) deliveries)
      by (repeat constructor; vm_compute; try done; intros _; repeat constructor).
    rewrite Forall_forall in H. apply H.
  - vm_compute. lia.
Defined.

Lemma chunks_uniform_witness : ∃ chunks,
  chunk_message_sized id1 payload1 24 = Ok chunks ∧
  len chunks = 2%N ∧ chunks ≠ [] ∧ Forall (λ c, len c = 24%N) chunks.
Proof. apply (chunks_uniform id1 payload1 24); vm_compute; done. Defined.

Lemma reassembler_bounded_witness :
  wf (run_ops (new_sized 24) [RPush c1; RForget id1; RPush c0]).1.
Proof.
  apply (reassembler_bounded 24 [RPush c1; RForget id1; RPush c0] _
    (run_ops (new_sized 24) [RPush c1; RForget id1; RPush c0]).2).
  apply surjective_pairing.
Defined.

End ChunkRun.
