(* ===== verification/Hold.v ===== *)
(** * The cross-epoch hold

    crates/molt-net/src/epoch_hold.rs: frames sealed under an epoch the node
    has not reached are held and offered again after every merged commit,
    repeatedly while a pass makes progress.  The two inbound paths supply how
    one item is ingested; here it is a parameter, with the state it reads and
    writes. *)

From S2P Require Import Prelude.

Inductive Held := Progress | Consumed | Still | Opaque_ | Stop.

Section Drain.
Context {S T : Type} (ingest : S → T → S * T * Held).

(** One pass over the hold: the state, whether it progressed, and the items
    kept with whether they were opaque; [None] when the engine is gone. *)
Fixpoint pass (s : S) (hold : list T) (progress : bool) (kept : list (T * bool))
  : S * option (bool * list (T * bool)) :=
  match hold with
  | [] => (s, Some (progress, kept))
  | item :: hold =>
      let '(s, item, h) := ingest s item in
      match h with
      | Progress => pass s hold true kept
      | Consumed => pass s hold progress kept
      | Still => pass s hold progress (kept ++ [(item, false)])
      | Opaque_ => pass s hold progress (kept ++ [(item, true)])
      | Stop => (s, None)
      end
  end.

Inductive drained :=
  | Drained (hold lost : list T)
  | Gone
  | NoFuel.

(** [drain_until_no_progress]; the loop carries fuel. *)
Fixpoint drain_until_no_progress (fuel : nat) (s : S) (hold : list T) : S * drained :=
  match fuel with
  | O => (s, NoFuel)
  | Datatypes.S fuel =>
      let '(s, r) := pass s hold false [] in
      match r with
      | None => (s, Gone)
      | Some (true, kept) =>
          match kept with
          | [] => (s, Drained [] [])
          | _ => drain_until_no_progress fuel s kept.*1
          end
      | Some (false, kept) =>
          (s, Drained (filter (λ x, x.2 = false) kept).*1 (filter (λ x, x.2 = true) kept).*1)
      end
  end.

(** A pass that progresses drops an item. *)
Lemma pass_length s hold progress kept s' progress' kept' :
  pass s hold progress kept = (s', Some (progress', kept')) →
  (length kept' ≤ length hold + length kept)%nat ∧
  (progress' = true → progress = true ∨ (length kept' < length hold + length kept)%nat).
Proof.
  revert s progress kept. induction hold as [|item hold IH]; intros s progress kept; simpl.
  { intros [= <- <- <-]. auto. }
  destruct (ingest s item) as [[s1 item1] h]. destruct h; [| | | |done];
    intros [H1 H2]%IH; rewrite ?length_app in *; simpl in *; split; try lia; intros Hp; auto;
    destruct (H2 Hp); auto; right; lia.
Qed.

(** The hold drains.  Whatever ingesting does, re-offering the hold ends
    after at most one pass more than there are items, without losing count:
    what is still held and what is given up never exceed what was offered,
    and on a stop nothing is reported lost. *)
Theorem drain_terminates s hold fuel :
  (length hold < fuel)%nat →
  ∃ s' r, drain_until_no_progress fuel s hold = (s', r) ∧
    match r with
    | Drained hold' lost => (length hold' + length lost ≤ length hold)%nat
    | Gone => True
    | NoFuel => False
    end.
Proof.
  revert s hold. induction fuel as [|fuel IH]; intros s hold Hf; [lia|]. simpl.
  destruct (pass s hold false []) as [s1 [[progress kept]|]] eqn:Hp; [|by eexists _, _].
  apply pass_length in Hp as [Hle Hlt]. simpl in *. rewrite Nat.add_0_r in *. destruct progress.
  - destruct kept as [|x kept]; [eexists _, _; split; [done|]; simpl; lia|].
    destruct Hlt as [?|Hlt]; [done|done|].
    destruct (IH s1 (x :: kept).*1) as (s' & r & Hrun & Hr); [rewrite length_fmap; lia|].
    exists s', r. split; [done|]. destruct r; [|done..]. rewrite length_fmap in Hr. lia.
  - eexists _, _. split; [done|]. simpl. rewrite !length_fmap.
    enough (length (filter (λ x : T * bool, x.2 = false) kept) + length (filter (λ x : T * bool, x.2 = true) kept)
            = length kept)%nat by lia.
    clear. induction kept as [|[x []] kept IH]; [done| |]; rewrite !filter_cons; simpl; lia.
Qed.

End Drain.

(** A laggard two epochs behind: the hold offers the second commit before the
    first, so each pass opens one; the third item never opens. *)
Definition laggard (epoch : nat) (item : nat) : nat * nat * Held :=
  if (item =? epoch)%nat then (S epoch, item, Progress) else (epoch, item, Opaque_).

Lemma drain_terminates_witness :
  ∃ s' r, drain_until_no_progress laggard 4 0 [1; 0; 7]%nat = (s', r) ∧
    match r with
    | Drained hold' lost => (length hold' + length lost ≤ 3)%nat
    | Gone => True
    | NoFuel => False
    end.
Proof. apply (drain_terminates laggard 0 [1; 0; 7]%nat 4). simpl. lia. Defined.

Example drain_laggard :
  drain_until_no_progress laggard 4 0 [1; 0; 7]%nat = (2%nat, Drained [] [7%nat]).
Proof. done. Qed.
