(* ===== verification/Calendar.v ===== *)
(** * The kanban calendar

    crates/molt-core/src/kanban_calendar.rs: a task's time window, the rule of
    a recurring series, the arithmetic that tells whether a date is an
    occurrence and which one, and the expansion of a series into the
    occurrences of a window.  Dates are the crate [chrono]'s; its operations
    are a class, its documented behaviour a second one. *)

From S2P Require Import Prelude Strs Json.

(** ** Dates *)

Inductive Weekday := Mon | Tue | Wed | Thu | Fri | Sat | Sun.

#[export] Instance Weekday_eq_dec : EqDecision Weekday.
Proof. solve_decision. Defined.

Definition num_days_from_monday (w : Weekday) : N :=
  match w with Mon => 0 | Tue => 1 | Wed => 2 | Thu => 3 | Fri => 4 | Sat => 5 | Sun => 6 end.

(** What the code calls of [chrono]. *)
Class Chrono := {
  NaiveDate : Type;
  NaiveDate_eq_dec :: EqDecision NaiveDate;
  NaiveDate_countable :: Countable NaiveDate;
  num_days_from_ce : NaiveDate → Z;
  year : NaiveDate → Z;
  month0 : NaiveDate → N;
  day : NaiveDate → N;
  weekday : NaiveDate → Weekday;
  from_ymd_opt : Z → N → N → option NaiveDate;
  (** [checked_add_days], [checked_sub_days], [checked_add_signed]: the date
      that many days later or earlier. *)
  add_days : NaiveDate → Z → option NaiveDate;
  (** [parse_from_str] and [format] with [DATE_FMT]. *)
  date_from_str : string → option NaiveDate;
  date_format : NaiveDate → string;
  (** [NaiveDateTime] at the precision of [DATETIME_FMT]: a date and the
      minute of the day; [parse_from_str] and [format] with it. *)
  datetime_from_str : string → option (NaiveDate * N);
  datetime_format : NaiveDate * N → string;
}.

(** Days from one date to another ([(b - a).num_days()]). *)
Definition days_between `{Chrono} (a b : NaiveDate) : Z := num_days_from_ce b - num_days_from_ce a.

Definition date_le `{Chrono} (a b : NaiveDate) : bool := (num_days_from_ce a <=? num_days_from_ce b)%Z.
Definition date_lt `{Chrono} (a b : NaiveDate) : bool := (num_days_from_ce a <? num_days_from_ce b)%Z.

(** A [NaiveDateTime] and its order. *)
Definition NaiveDateTime `{Chrono} : Type := (NaiveDate * N)%type.
Definition minutes `{Chrono} (t : NaiveDateTime) : Z := 1440 * num_days_from_ce t.1 + Z.of_N t.2.
Definition time_lt `{Chrono} (a b : NaiveDateTime) : bool := (minutes a <? minutes b)%Z.

Definition in_years `{Chrono} (y : Z) : bool := (0 <=? y)%Z && (y <=? 9999)%Z.

(** [parse_date], [parse_datetime], [fmt_date], [fmt_datetime]. *)
Definition fmt_date `{Chrono} (d : NaiveDate) : string := date_format d.
Definition fmt_datetime `{Chrono} (t : NaiveDateTime) : string := datetime_format t.

Definition parse_date `{Chrono} (s : string) : option NaiveDate :=
  d ← date_from_str s;
  if in_years (year d) && bool_decide (fmt_date d = s) then Some d else None.

Definition parse_datetime `{Chrono} (s : string) : option NaiveDateTime :=
  t ← datetime_from_str s;
  if in_years (year t.1) && bool_decide (fmt_datetime t = s) then Some t else None.

Definition midnight `{Chrono} (d : NaiveDate) : NaiveDateTime := (d, 0%N).

(** ** Windows *)

Inductive When `{Chrono} :=
  | AllDay (start end_ : NaiveDate)
  | Timed (start end_ : NaiveDateTime).

#[export] Instance When_eq_dec `{Chrono} : EqDecision When.
Proof. solve_decision. Defined.

(** The reasons of the parsers of this file. *)
Inductive CalError :=
  | WhenNotObject | WhenKeys | WhenStart | WhenEnd | WhenOrder | WhenMixed
  | RepeatNotObject | RepeatUnknown (k : string) | RepeatFreq | RepeatInterval
  | BydayNotWeekly | BydayList | BydayName (s : string) | BydayTwice (s : string)
  | UntilAndCount | RepeatUntil | RepeatCount.

(** [Value::as_object], [Value::as_array]. *)
Definition as_object (v : Value) : option (list (string * Value)) :=
  match v with Object m => Some m | _ => None end.
Definition as_array (v : Value) : option (list Value) :=
  match v with Array l => Some l | _ => None end.

(** [When::parse]. *)
Definition when_parse `{Chrono} (v : Value) : outcome CalError When :=
  let? obj := ok_or (as_object v) WhenNotObject in
  reject negb (length obj =? 2)%nat with WhenKeys else
  let? s := ok_or (get_str "start" v) WhenStart in
  let? e := ok_or (get_str "end" v) WhenEnd in
  match parse_date s, parse_date e with
  | Some start, Some end_ => if date_le start end_ then Ok (AllDay start end_) else Err WhenOrder
  | _, _ =>
      match parse_datetime s, parse_datetime e with
      | Some start, Some end_ => if time_lt start end_ then Ok (Timed start end_) else Err WhenOrder
      | _, _ => Err WhenMixed
      end
  end.

(** [When::to_json]. *)
Definition when_to_json `{Chrono} (w : When) : Value :=
  match w with
  | AllDay s e => Object [("end", Str (fmt_date e)); ("start", Str (fmt_date s))]
  | Timed s e => Object [("end", Str (fmt_datetime e)); ("start", Str (fmt_datetime s))]
  end.

Definition start_date `{Chrono} (w : When) : NaiveDate :=
  match w with AllDay s _ => s | Timed s _ => s.1 end.

Definition begins `{Chrono} (w : When) : NaiveDateTime :=
  match w with AllDay s _ => midnight s | Timed s _ => s end.

(** The minute a window ends before; [None] is [NaiveDateTime::MAX]. *)
Definition ends `{Chrono} (w : When) : option NaiveDateTime :=
  match w with
  | AllDay _ e => midnight <$> add_days e 1
  | Timed _ e => Some e
  end.

Definition shifted `{Chrono} (w : When) (days : Z) : option When :=
  match w with
  | AllDay s e => s ← add_days s days; e ← add_days e days; Some (AllDay s e)
  | Timed s e => sd ← add_days s.1 days; ed ← add_days e.1 days; Some (Timed (sd, s.2) (ed, e.2))
  end.

(** [a < t] and [a > t] against a time that may be [NaiveDateTime::MAX]. *)
Definition before_opt `{Chrono} (a : NaiveDateTime) (t : option NaiveDateTime) : bool :=
  match t with Some t => time_lt a t | None => true end.

Definition overlaps `{Chrono} (w : When) (from to : NaiveDate) : bool :=
  before_opt (begins w) (midnight <$> add_days to 1) && before_opt (midnight from) (ends w).

(** ** Rules *)

Inductive Freq := Daily | Weekly | Monthly.
#[export] Instance Freq_eq_dec : EqDecision Freq.
Proof. solve_decision. Defined.

Definition freq_str (f : Freq) : string :=
  match f with Daily => "daily" | Weekly => "weekly" | Monthly => "monthly" end.

Definition WEEKDAYS : list (string * Weekday) :=
  [("mo", Mon); ("tu", Tue); ("we", Wed); ("th", Thu); ("fr", Fri); ("sa", Sat); ("su", Sun)].

Definition weekday_str (w : Weekday) : string :=
  match find (λ x, bool_decide (x.2 = w)) WEEKDAYS with Some (s, _) => s | None => "mo" end.

Inductive RepeatEnd `{Chrono} := Open | Until (u : NaiveDate) | Count (c : N).

Record Repeat `{Chrono} := mkRepeat {
  freq : Freq;
  interval : N;
  byday : list Weekday;
  rend : RepeatEnd;
}.

#[export] Instance RepeatEnd_eq_dec `{Chrono} : EqDecision RepeatEnd.
Proof. solve_decision. Defined.
#[export] Instance Repeat_eq_dec `{Chrono} : EqDecision Repeat.
Proof. solve_decision. Defined.

Definition REPEAT_KEYS : list string := ["freq"; "interval"; "byday"; "until"; "count"].

(** The loop over [byday]. *)
Fixpoint parse_byday (days : list Value) (acc : list Weekday) : outcome CalError (list Weekday) :=
  match days with
  | [] => Ok acc
  | d :: days =>
      let s := default "" (as_str d) in
      let? w := ok_or (snd <$> find (λ x, bool_decide (x.1 = s)) WEEKDAYS) (BydayName s) in
      reject bool_decide (w ∈ acc) with BydayTwice s else
      parse_byday days (acc ++ [w])
  end.

(** [Repeat::parse]. *)
Definition repeat_parse `{Chrono} (v : Value) : outcome CalError Repeat :=
  let? obj := ok_or (as_object v) RepeatNotObject in
  match find (λ kv, negb (bool_decide (kv.1 ∈ REPEAT_KEYS))) obj with
  | Some (k, _) => Err (RepeatUnknown k)
  | None =>
      let? f :=
        match get_str "freq" v with
        | Some "daily" => Ok Daily
        | Some "weekly" => Ok Weekly
        | Some "monthly" => Ok Monthly
        | _ => Err RepeatFreq
        end in
      let? i :=
        match get "interval" v with
        | None => Ok 1%N
        | Some n => match as_u64 n with
                    | Some n => if (1 <=? n)%N then Ok n else Err RepeatInterval
                    | None => Err RepeatInterval
                    end
        end in
      let? b :=
        match get "byday" v with
        | None => Ok []
        | Some days =>
            reject negb (bool_decide (f = Weekly)) with BydayNotWeekly else
            match as_array days with
            | Some (d :: ds) => parse_byday (d :: ds) []
            | _ => Err BydayList
            end
        end in
      let? e :=
        match get "until" v, get "count" v with
        | Some _, Some _ => Err UntilAndCount
        | Some u, None => let? d := ok_or (as_str u ≫= parse_date) RepeatUntil in Ok (Until d)
        | None, Some c => match as_u64 c with
                          | Some c => if (1 <=? c)%N then Ok (Count c) else Err RepeatCount
                          | None => Err RepeatCount
                          end
        | None, None => Ok Open
        end in
      Ok {| freq := f; interval := i; byday := b; rend := e |}
  end.

(** [Repeat::to_json]: the keys in the order they are inserted, which is
    their order in the object. *)
Definition repeat_to_json `{Chrono} (r : Repeat) : Value :=
  Object
    ((match byday r with
      | [] => []
      | _ => [("byday", Array (Str ∘ weekday_str <$> byday r))]
      end) ++
     (match rend r with Count c => [("count", Num (PosInt c))] | _ => [] end) ++
     [("freq", Str (freq_str (freq r))); ("interval", Num (PosInt (interval r)))] ++
     (match rend r with Until u => [("until", Str (fmt_date u))] | _ => [] end)).

(** ** Positions *)

(** [u8::count_ones]. *)
Definition count_ones (m : N) : N :=
  N.of_nat (length (filter (λ o, N.testbit m (N.of_nat o) = true) (seq 0 8))).

Definition day_bit (w : Weekday) : N := N.shiftl 1 (num_days_from_monday w).

Definition day_mask `{Chrono} (start : NaiveDate) (r : Repeat) : N :=
  match byday r with
  | [] => day_bit (weekday start)
  | days => foldl (λ m w, N.lor m (day_bit w)) 0%N days
  end.

Definition mask_between (mask : N) (lo hi : N) : N :=
  let span := foldl (λ m o, N.lor m (N.shiftl 1 o)) 0%N
                (N.of_nat <$> seq (N.to_nat lo) (N.to_nat hi - N.to_nat lo)) in
  count_ones (N.land mask span).

Definition month_number `{Chrono} (d : NaiveDate) : Z := year d * 12 + Z.of_N (month0 d).

Definition CYCLE_MONTHS : N := 4800.

(** Euclid's algorithm, with the second argument as fuel. *)
Fixpoint gcd_loop (fuel : nat) (a b : N) : N :=
  match fuel with
  | O => a
  | S fuel => if (b =? 0)%N then a else gcd_loop fuel b (a mod b)
  end.
Definition gcd (a b : N) : N := gcd_loop (S (N.to_nat b)) a b.

(** [month_prefix], without its per-thread cache. *)
Definition month_has_day `{Chrono} (m0 step d j : N) : bool :=
  let a := ((m0 + j * step) mod CYCLE_MONTHS)%N in
  match from_ymd_opt (2000 + Z.of_N (a / 12)) (a mod 12 + 1) d with Some _ => true | None => false end.

Fixpoint prefix_from (has : N → bool) (j : N) (c : N) (n : nat) : list N :=
  match n with
  | O => []
  | S n => let c := (if has j then c + 1 else c)%N in c :: prefix_from has (j + 1) c n
  end.

Definition month_prefix `{Chrono} (m0 step d : N) : list N :=
  let period := (CYCLE_MONTHS / gcd step CYCLE_MONTHS)%N in
  0%N :: prefix_from (month_has_day m0 step d) 0 0 (N.to_nat period).

Definition months_with_day `{Chrono} (start : NaiveDate) (interval k : N) : N :=
  let d := day start in
  if (d <=? 28)%N then k
  else
    let m0 := (Z.to_N (month_number start) mod CYCLE_MONTHS)%N in
    let step := (interval mod CYCLE_MONTHS)%N in
    let prefix := month_prefix m0 step d in
    let period := N.of_nat (length prefix - 1) in
    let at_ n := default 0%N (prefix !! N.to_nat n) in
    (k / period * at_ period + at_ (k mod period))%N.

Definition position `{Chrono} (start : NaiveDate) (r : Repeat) (date : NaiveDate) : option N :=
  if date_lt date start then None
  else if bool_decide (date = start) then Some 0%N
  else
    let days := Z.to_N (days_between start date) in
    match freq r with
    | Daily => if (days mod interval r =? 0)%N then Some (days / interval r)%N else None
    | Weekly =>
        let mask := day_mask start r in
        let so := num_days_from_monday (weekday start) in
        let dof := num_days_from_monday (weekday date) in
        if (N.land mask (N.shiftl 1 dof) =? 0)%N then None
        else
          let weeks := ((days + so - dof) / 7)%N in
          if negb (weeks mod interval r =? 0)%N then None
          else
            let q := (weeks / interval r)%N in
            Some (if (q =? 0)%N then 1 + mask_between mask (so + 1) dof
                  else 1 + mask_between mask (so + 1) 7 + (q - 1) * count_ones mask
                       + mask_between mask 0 dof)%N
    | Monthly =>
        if negb (day date =? day start)%N then None
        else if (month_number date <? month_number start)%Z then None
        else
          let months := Z.to_N (month_number date - month_number start) in
          if (months mod interval r =? 0)%N
          then Some (months_with_day start (interval r) (months / interval r)) else None
    end.

Definition within_end `{Chrono} (r : Repeat) (date : NaiveDate) (pos : N) : bool :=
  match rend r with
  | Open => true
  | Until u => date_le date u
  | Count c => (pos <? c)%N
  end.

Definition position_hit `{Chrono} (start : NaiveDate) (r : Repeat) (date : NaiveDate) : bool :=
  match freq r with
  | Monthly =>
      (day date =? day start)%N && (month_number start <=? month_number date)%Z &&
      (Z.to_N (month_number date - month_number start) mod interval r =? 0)%N
  | _ => match position start r date with Some _ => true | None => false end
  end.

Definition is_occurrence `{Chrono} (w : When) (r : Repeat) (date : NaiveDate) : bool :=
  let start := start_date w in
  match rend r with
  | Count _ => match position start r date with Some p => within_end r date p | None => false end
  | _ => date_le start date && position_hit start r date && within_end r date 0
  end.

(** ** What [chrono] promises *)

(** The Gregorian calendar. *)
Definition leap (y : Z) : bool :=
  ((y mod 4 =? 0)%Z && negb (y mod 100 =? 0)%Z) || (y mod 400 =? 0)%Z.

Definition month_len (y : Z) (m : N) : N :=
  if bool_decide (m ∈ [4; 6; 9; 11]%N) then 30
  else if (m =? 2)%N then (if leap y then 29 else 28) else 31.

Class ChronoLaws `{Chrono} : Prop := {
  (** a date is its day number, and the day numbers have no gaps *)
  num_inj a b : num_days_from_ce a = num_days_from_ce b → a = b;
  num_convex a b z : (num_days_from_ce a ≤ z ≤ num_days_from_ce b)%Z → ∃ d, num_days_from_ce d = z;
  add_days_spec d n e : add_days d n = Some e ↔ num_days_from_ce e = (num_days_from_ce d + n)%Z;
  (** day 1 of the common era was a Monday *)
  weekday_spec d : Z.of_N (num_days_from_monday (weekday d)) = ((num_days_from_ce d - 1) mod 7)%Z;
  (** a date is its year, month and day, ordered by them *)
  month0_bound d : (month0 d < 12)%N;
  from_ymd_spec y m d e : from_ymd_opt y m d = Some e ↔ year e = y ∧ (month0 e + 1)%N = m ∧ day e = d;
  date_order a b : (num_days_from_ce a < num_days_from_ce b)%Z ↔
    (month_number a < month_number b)%Z ∨ month_number a = month_number b ∧ (day a < day b)%N;
  from_ymd_exists y m d : (-1 ≤ y ≤ 9999)%Z →
    is_Some (from_ymd_opt y m d) ↔ (1 <= m <= 12)%N ∧ (1 <= d <= month_len y m)%N;
  (** the first day of year 0 and the last of year 9999 *)
  num_range d : in_years (year d) = true → (-365 ≤ num_days_from_ce d ≤ 3652059)%Z;
  (** the formats parse back, and a date is no time *)
  date_roundtrip d : in_years (year d) = true → date_from_str (date_format d) = Some d;
  datetime_roundtrip t : in_years (year t.1) = true → (t.2 < 1440)%N →
    datetime_from_str (datetime_format t) = Some t;
  datetime_minute s t : datetime_from_str s = Some t → (t.2 < 1440)%N;
  datetime_not_date t : date_from_str (datetime_format t) = None;
}.

(** ** The reference: a walk over the days *)

(** The days of the week a weekly rule names. *)
Definition rule_days `{Chrono} (start : NaiveDate) (r : Repeat) : list Weekday :=
  match byday r with [] => [weekday start] | days => days end.

(** The Monday of a date's week, as a day number. *)
Definition monday_of `{Chrono} (d : NaiveDate) : Z :=
  (num_days_from_ce d - Z.of_N (num_days_from_monday (weekday d)))%Z.

(** The rule's pattern: the start, and after it every date the rule names. *)
Definition hits `{Chrono} (start : NaiveDate) (r : Repeat) (d : NaiveDate) : Prop :=
  d = start ∨
  (num_days_from_ce start < num_days_from_ce d)%Z ∧
  match freq r with
  | Daily => (Z.of_N (interval r) | days_between start d)%Z
  | Weekly => weekday d ∈ rule_days start r ∧
              (Z.of_N (interval r) | (monday_of d - monday_of start) / 7)%Z
  | Monthly => day d = day start ∧
               (Z.of_N (interval r) | month_number d - month_number start)%Z
  end.

Lemma Zdivide_mod_iff (a b : Z) : (b mod a = 0)%Z ↔ (a | b)%Z.
Proof.
  destruct (decide (a = 0)%Z) as [->|]; [|by apply Z.mod_divide].
  rewrite Z.mod_0_r. split; [by intros ->|by intros ->%Z.divide_0_l].
Qed.

#[export] Instance Zdivide_decision (a b : Z) : Decision (a | b)%Z.
Proof. refine (cast_if (decide (b mod a = 0)%Z)); by rewrite <-Zdivide_mod_iff. Defined.

#[export] Instance hits_dec `{Chrono} start r d : Decision (hits start r d).
Proof. unfold hits. destruct (freq r); apply _. Defined.

(** The pattern's dates before [d], found by walking from the start. *)
Definition walk `{Chrono} (start : NaiveDate) (r : Repeat) (d : NaiveDate) : list NaiveDate :=
  filter (hits start r)
    (omap (λ k, add_days start (Z.of_nat k)) (seq 0 (Z.to_nat (days_between start d)))).

(** ** Counting *)

Fixpoint cnt (P : nat → bool) (n : nat) : nat :=
  match n with O => 0 | S n => cnt P n + Nat.b2n (P n) end.

Lemma cnt_ext P Q n : (∀ k, (k < n)%nat → P k = Q k) → cnt P n = cnt Q n.
Proof. induction n as [|n IH]; intros H; simpl; [done|]. rewrite IH, H by (lia || intros; apply H; lia). done. Qed.

Lemma cnt_filter (P : nat → bool) n : length (filter (λ k, P k = true) (seq 0 n)) = cnt P n.
Proof.
  induction n as [|n IH]; [done|]. rewrite seq_S, filter_app, length_app, IH. simpl.
  rewrite filter_cons. destruct (P n); simpl; lia.
Qed.

Lemma cnt_add P a b : cnt P (a + b) = (cnt P a + cnt (λ k, P (a + k)%nat) b)%nat.
Proof.
  induction b as [|b IH]; simpl; [by rewrite Nat.add_0_r, Nat.add_0_r|].
  rewrite Nat.add_succ_r. simpl. rewrite IH. lia.
Qed.

(** A periodic predicate is counted by whole periods and a rest. *)
Lemma cnt_periodic P p q r : (∀ k, P (k + p)%nat = P k) →
  cnt P (q * p + r) = (q * cnt P p + cnt P r)%nat.
Proof.
  intros Hp. assert (Hm : ∀ m k, P (m * p + k)%nat = P k).
  { induction m as [|m IH]; intros k; [done|]. rewrite <-(IH k), <-(Hp (m * p + k)%nat). f_equal. lia. }
  induction q as [|q IH]; [done|].
  replace (S q * p + r)%nat with (p + (q * p + r))%nat by lia. rewrite cnt_add.
  rewrite (cnt_ext _ P (q * p + r)); [|intros k _; rewrite <-(Hp k); f_equal; lia]. rewrite IH. lia.
Qed.

(** The multiples of [i] below [n]. *)
Lemma cnt_multiples i n : (0 < i)%nat →
  cnt (λ k, k mod i =? 0) n = (n / i + Nat.b2n (negb (n mod i =? 0)))%nat.
Proof.
  intros Hi. set (P := λ k, k mod i =? 0).
  assert (Hp : ∀ k, P (k + i)%nat = P k).
  { intros k. unfold P. f_equal. replace (k + i)%nat with (k + 1 * i)%nat by lia. apply Nat.Div0.mod_add. }
  assert (Hsmall : ∀ r, (r <= i)%nat → cnt P r = Nat.b2n (negb (r =? 0))).
  { induction r as [|r IH]; intros Hr; [done|]. simpl. rewrite IH by lia. unfold P.
    rewrite Nat.mod_small by lia. by destruct r. }
  rewrite (Nat.div_mod_eq n i) at 1. rewrite Nat.mul_comm, (cnt_periodic P) by done.
  rewrite !Hsmall by (pose proof (Nat.mod_upper_bound n i); lia).
  destruct (i =? 0) eqn:E; [apply Nat.eqb_eq in E; lia|]. simpl. lia.
Qed.

(** ** Month tables *)

Lemma gcd_loop_spec fuel a b : (N.to_nat b < fuel)%nat → gcd_loop fuel a b = N.gcd a b.
Proof.
  revert a b. induction fuel as [|fuel IH]; intros a b Hf; [lia|]. simpl.
  destruct (N.eqb_spec b 0) as [->|Hb]; [by rewrite N.gcd_0_r|].
  pose proof (N.mod_upper_bound a b Hb). rewrite IH by lia.
  by rewrite N.gcd_comm, N.Lcm0.gcd_mod, N.gcd_comm.
Qed.

Lemma gcd_spec a b : gcd a b = N.gcd a b.
Proof. apply gcd_loop_spec. lia. Qed.

Lemma prefix_from_spec has j c n :
  length (prefix_from has j c n) = n ∧
  ∀ k, (k < n)%nat → prefix_from has j c n !! k
       = Some (c + N.of_nat (cnt (λ t, has (j + N.of_nat t)%N) (S k)))%N.
Proof.
  revert j c. induction n as [|n IH]; intros j c; [split; [done|lia]|]. cbn [prefix_from].
  destruct (IH (j + 1)%N (if has j then c + 1 else c)%N) as [Hl Hk]. split; [cbn [length]; by rewrite Hl|].
  assert (Hs : ∀ m, cnt (λ t, has (j + N.of_nat t)%N) (S m) =
    (Nat.b2n (has j) + cnt (λ t, has (j + 1 + N.of_nat t)%N) m)%nat).
  { intros m. change (S m) with (1 + m)%nat. rewrite cnt_add. simpl. rewrite N.add_0_r. f_equal.
    apply cnt_ext. intros t _. f_equal. lia. }
  intros [|k] Hlt.
  - rewrite Hs. cbn. f_equal. destruct (has j); simpl; lia.
  - rewrite Hs, lookup_cons. rewrite Hk by lia. f_equal.
    destruct (has j); cbn [Nat.b2n]; lia.
Qed.

(** ** Weekday masks *)

(** The bits of a mask below [o]. *)
Definition bits_below (mask : N) (o : nat) : nat := cnt (λ k, N.testbit mask (N.of_nat k)) o.

Lemma fold_lor_bit {A} (f : A → N) (l : list A) m j :
  N.testbit (foldl (λ m x, N.lor m (f x)) m l) j = N.testbit m j || existsb (λ x, N.testbit (f x) j) l.
Proof.
  revert m. induction l as [|x l IH]; intros m; simpl; [by rewrite orb_false_r|].
  rewrite IH, N.lor_spec. by rewrite orb_assoc.
Qed.

Lemma testbit_one o j : N.testbit (N.shiftl 1 o) j = (o =? j)%N.
Proof. rewrite N.shiftl_1_l. apply N.pow2_bits_eqb. Qed.

Lemma mask_between_spec mask (lo hi : nat) : (lo ≤ hi ≤ 8)%nat →
  (N.to_nat (mask_between mask (N.of_nat lo) (N.of_nat hi)) + bits_below mask lo)%nat = bits_below mask hi.
Proof.
  intros Hl. unfold mask_between. rewrite !Nat2N.id.
  set (span := foldl _ _ _).
  assert (Hspan : ∀ j, N.testbit span (N.of_nat j) = (lo <=? j)%nat && (j <? hi)%nat).
  { intros j. unfold span. rewrite (fold_lor_bit (λ o, N.shiftl 1 o)), N.bits_0. cbn [orb].
    apply eq_true_iff_eq. rewrite existsb_true, andb_true_iff, Nat.leb_le, Nat.ltb_lt. split.
    - intros (x & (i & -> & Hi%elem_of_seq)%list_elem_of_fmap & Hx). cbv beta in Hx. rewrite testbit_one in Hx.
      apply N.eqb_eq in Hx. lia.
    - intros Hj. exists (N.of_nat j). cbv beta. rewrite testbit_one, N.eqb_refl. split; [|done].
      apply list_elem_of_fmap_2, elem_of_seq. lia. }
  unfold count_ones. rewrite Nat2N.id, (cnt_filter (λ o, N.testbit (N.land mask span) (N.of_nat o))).
  rewrite (cnt_ext _ (λ o, N.testbit mask (N.of_nat o) && ((lo <=? o)%nat && (o <? hi)%nat)));
    [|intros k _; by rewrite N.land_spec, Hspan].
  unfold bits_below. replace 8%nat with (lo + (hi - lo) + (8 - hi))%nat by lia. rewrite !cnt_add.
  rewrite (cnt_ext _ (λ _, false) lo), (cnt_ext (λ k, _ && _) (λ k, N.testbit mask (N.of_nat (lo + k))) (hi - lo)),
    (cnt_ext (λ k, _ && _) (λ _, false) (8 - hi)).
  - assert (H0 : ∀ n, cnt (λ _, false) n = 0%nat) by (induction n as [|n IH]; simpl; lia).
    rewrite !H0. replace hi with (lo + (hi - lo))%nat at 2 by lia. rewrite cnt_add. lia.
  - intros k Hk. destruct (Nat.ltb_spec (lo + (hi - lo) + k) hi); [lia|]. by rewrite !andb_false_r.
  - intros k Hk. destruct (Nat.leb_spec lo (lo + k)), (Nat.ltb_spec (lo + k) hi); try lia. by rewrite andb_true_r.
  - intros k Hk. destruct (Nat.leb_spec lo k); [lia|]. by rewrite andb_false_r.
Qed.

Lemma num_days_inj v w : num_days_from_monday v = num_days_from_monday w → v = w.
Proof. by destruct v, w. Qed.

Lemma day_mask_bit `{Chrono} start r w :
  N.testbit (day_mask start r) (num_days_from_monday w) = bool_decide (w ∈ rule_days start r).
Proof.
  apply eq_true_iff_eq. rewrite bool_decide_eq_true. unfold day_mask, rule_days, day_bit.
  destruct (byday r) as [|d days].
  - rewrite testbit_one, N.eqb_eq, list_elem_of_singleton. split; [by intros ?%num_days_inj|by intros ->].
  - rewrite fold_lor_bit, N.bits_0. cbn [orb]. rewrite existsb_true. split.
    + intros (x & Hx & Hb). cbv beta in Hb. rewrite testbit_one in Hb. by apply N.eqb_eq, num_days_inj in Hb as <-.
    + intros Hw. exists w. cbv beta. by rewrite testbit_one, N.eqb_refl.
Qed.

Lemma day_mask_top `{Chrono} start r : N.testbit (day_mask start r) 7 = false.
Proof.
  apply not_true_iff_false. intros Ht. unfold day_mask, day_bit in Ht. destruct (byday r) as [|d days].
  - rewrite testbit_one in Ht. apply N.eqb_eq in Ht. by destruct (weekday start).
  - rewrite fold_lor_bit, N.bits_0 in Ht. cbn [orb] in Ht. apply existsb_true in Ht as (x & _ & Hb).
    cbv beta in Hb. rewrite testbit_one in Hb. apply N.eqb_eq in Hb. by destruct x.
Qed.

Lemma count_ones_day_mask `{Chrono} start r :
  N.to_nat (count_ones (day_mask start r)) = bits_below (day_mask start r) 7.
Proof.
  unfold count_ones. rewrite Nat2N.id, (cnt_filter (λ o, N.testbit (day_mask start r) (N.of_nat o))).
  unfold bits_below. change 8%nat with (7 + 1)%nat. rewrite cnt_add. cbn [cnt].
  change (N.of_nat (7 + 0)) with 7%N. rewrite day_mask_top. simpl. lia.
Qed.

Section Walk.
Context `{Hlaws : ChronoLaws}.

Lemma add_days_some a b k : (num_days_from_ce a ≤ num_days_from_ce a + Z.of_nat k ≤ num_days_from_ce b)%Z →
  ∃ d, add_days a (Z.of_nat k) = Some d ∧ num_days_from_ce d = (num_days_from_ce a + Z.of_nat k)%Z.
Proof. intros Hk. destruct (num_convex _ _ _ Hk) as [d Hd]. exists d. split; [by apply add_days_spec|done]. Qed.

(** The walk counts the days whose number satisfies the pattern. *)
Lemma walk_count start r d (P : nat → bool) :
  (num_days_from_ce start ≤ num_days_from_ce d)%Z →
  (∀ k x, (Z.of_nat k < days_between start d)%Z → num_days_from_ce x = (num_days_from_ce start + Z.of_nat k)%Z →
     hits start r x ↔ P k = true) →
  length (walk start r d) = cnt P (Z.to_nat (days_between start d)).
Proof.
  intros Hle HP. unfold walk. unfold days_between in *.
  set (n := Z.to_nat (num_days_from_ce d - num_days_from_ce start)) in *.
  assert (Hn : (Z.of_nat n = num_days_from_ce d - num_days_from_ce start)%Z) by lia.
  rewrite <-cnt_filter. assert (Hin : ∀ k, k ∈ seq 0 n → (k < n)%nat) by (intros k ?%elem_of_seq; lia).
  revert Hin. generalize (seq 0 n) as l. intros l.
  induction l as [|k l IH]; intros Hin; [done|]. csimpl.
  destruct (add_days_some start d k) as (x & Hx & Hnum); [specialize (Hin k ltac:(by constructor)); lia|].
  rewrite Hx, !filter_cons. specialize (IH (λ k Hk, Hin k (list_elem_of_further _ _ _ Hk))).
  specialize (HP k x). destruct (P k) eqn:Ek.
  - rewrite !decide_True; [simpl; by rewrite IH|done|].
    apply HP; [specialize (Hin k ltac:(by constructor)); lia|done|done].
  - rewrite !decide_False; [done|done|]. rewrite HP; [congruence|specialize (Hin k ltac:(by constructor)); lia|done].
Qed.

(** ** Daily *)

Lemma daily_position start r d :
  freq r = Daily → (1 <= interval r)%N → (num_days_from_ce start ≤ num_days_from_ce d)%Z →
  position start r d = if decide (hits start r d) then Some (len (walk start r d)) else None.
Proof.
  intros Hf Hi Hle. set (i := N.to_nat (interval r)).
  assert (Hhit : ∀ (k : nat) x, num_days_from_ce x = (num_days_from_ce start + Z.of_nat k)%Z →
            hits start r x ↔ (k mod i =? 0) = true).
  { intros k x Hx. unfold hits. rewrite Hf. unfold days_between. rewrite Nat.eqb_eq, Nat.Lcm0.mod_divide.
    replace (num_days_from_ce x - num_days_from_ce start)%Z with (Z.of_nat k) by lia.
    rewrite <-(N_nat_Z (interval r)). fold i.
    rewrite Nat2Z.divide. split; [intros [->|[_ ?]]; [|done]; replace k with 0%nat by lia; apply Nat.divide_0_r|].
    intros Hd. destruct k; [left; apply num_inj; lia|right; split; [lia|done]]. }
  assert (Hw : length (walk start r d) = cnt (λ k, k mod i =? 0) (Z.to_nat (days_between start d))).
  { apply walk_count; [done|]. intros k x _. apply Hhit. }
  set (n := Z.to_nat (days_between start d)) in *. unfold position.
  unfold date_lt. destruct (Z.ltb_spec (num_days_from_ce d) (num_days_from_ce start)); [lia|].
  assert (Hd : num_days_from_ce d = (num_days_from_ce start + Z.of_nat n)%Z) by (unfold n, days_between; lia).
  case_bool_decide as Heq.
  { subst d. rewrite decide_True by by left. unfold len. rewrite Hw. unfold n, days_between.
    by rewrite Z.sub_diag. }
  rewrite Hf. assert (HN : Z.to_N (days_between start d) = N.of_nat n) by (unfold n; lia). rewrite HN.
  rewrite cnt_multiples in Hw by lia.
  replace (interval r) with (N.of_nat i) by lia. rewrite <-Nat2N.inj_mod, <-Nat2N.inj_div.
  specialize (Hhit n d Hd). destruct (Nat.eqb_spec (n mod i) 0) as [Hz|Hz].
  - rewrite Hz. simpl. rewrite decide_True by by apply Hhit. unfold len. rewrite Hw. do 2 f_equal. simpl. lia.
  - destruct (N.eqb_spec (N.of_nat (n mod i)) 0); [lia|]. rewrite decide_False; [done|]. by rewrite Hhit.
Qed.

(** ** Weekly *)

(** The pattern by offset from the Monday of the start's week. *)
Definition week_pattern (mask : N) (i n : nat) : bool :=
  N.testbit mask (N.of_nat (n mod 7)) && ((n / 7) mod i =? 0)%nat.

Lemma week_row mask i w o : (o ≤ 7)%nat →
  cnt (λ k, week_pattern mask i (7 * w + k)) o = if (w mod i =? 0)%nat then bits_below mask o else 0%nat.
Proof.
  intros Ho. transitivity (cnt (λ k, N.testbit mask (N.of_nat k) && (w mod i =? 0)%nat) o).
  - apply cnt_ext. intros k Hk. unfold week_pattern.
    replace ((7 * w + k) mod 7)%nat with k; [replace ((7 * w + k) / 7)%nat with w; [done|]|].
    + symmetry. rewrite Nat.mul_comm, Nat.div_add_l, Nat.div_small by lia. lia.
    + rewrite Nat.add_comm, Nat.mul_comm, Nat.Div0.mod_add, Nat.mod_small by lia. done.
  - destruct (w mod i =? 0)%nat; unfold bits_below.
    + apply cnt_ext. intros k _. apply andb_true_r.
    + rewrite (cnt_ext _ (λ _, false)) by (intros; apply andb_false_r).
      clear. induction o as [|o IH]; simpl; lia.
Qed.

Lemma cnt_weeks mask i w o : (o ≤ 7)%nat →
  cnt (week_pattern mask i) (7 * w + o) =
  (cnt (λ v, v mod i =? 0)%nat w * bits_below mask 7 + if (w mod i =? 0)%nat then bits_below mask o else 0)%nat.
Proof.
  intros Ho. rewrite cnt_add, week_row by done. f_equal.
  clear. induction w as [|w IH]; [done|].
  replace (7 * S w)%nat with (7 * w + 7)%nat by lia. rewrite cnt_add, IH, week_row by done. simpl cnt.
  destruct (w mod i =? 0)%nat; simpl; lia.
Qed.

(** A date's offset from the start's Monday gives its weekday and week. *)
Lemma week_offset start x (k : nat) :
  num_days_from_ce x = (num_days_from_ce start + Z.of_nat k)%Z →
  let n := (N.to_nat (num_days_from_monday (weekday start)) + k)%nat in
  N.to_nat (num_days_from_monday (weekday x)) = (n mod 7)%nat ∧
  ((monday_of x - monday_of start) / 7)%Z = Z.of_nat (n / 7).
Proof.
  intros Hx n. pose proof (weekday_spec start) as Hs. pose proof (weekday_spec x) as Hd.
  set (so := num_days_from_monday (weekday start)) in *. set (dof := num_days_from_monday (weekday x)) in *.
  assert (Hn : Z.of_N dof = Z.of_nat (n mod 7)).
  { rewrite Hd, Hx, Nat2Z.inj_mod. unfold n. rewrite Nat2Z.inj_add, N_nat_Z, Hs.
    rewrite Z.add_mod_idemp_l by done. f_equal. lia. }
  split; [lia|]. unfold monday_of. fold so dof. rewrite Hx, Hn.
  replace (num_days_from_ce start + Z.of_nat k - Z.of_nat (n mod 7) - (num_days_from_ce start - Z.of_N so))%Z
    with (Z.of_nat n - Z.of_nat (n mod 7))%Z by (unfold n; lia).
  pose proof (Nat.div_mod_eq n 7). rewrite Nat2Z.inj_div.
  replace (Z.of_nat n - Z.of_nat (n mod 7))%Z with (Z.of_nat (n / 7) * 7)%Z by lia.
  rewrite Z.div_mul by done. by rewrite Nat2Z.inj_div.
Qed.

Lemma weekly_hits start r x (k : nat) :
  freq r = Weekly → num_days_from_ce x = (num_days_from_ce start + Z.of_nat k)%Z →
  hits start r x ↔ k = 0%nat ∨
    week_pattern (day_mask start r) (N.to_nat (interval r))
      (N.to_nat (num_days_from_monday (weekday start)) + k) = true.
Proof.
  intros Hf Hx. unfold hits, week_pattern. rewrite Hf.
  destruct (week_offset start x k Hx) as [Ho Hwk]. rewrite Hwk, <-Ho, N2Nat.id, day_mask_bit.
  rewrite andb_true_iff, bool_decide_eq_true, Nat.eqb_eq, Nat.Lcm0.mod_divide.
  rewrite <-(N_nat_Z (interval r)), Nat2Z.divide. split.
  - intros [->|(_ & ? & ?)]; [left; lia|by right].
  - intros [->|?]; [left; apply num_inj; lia|]. destruct k; [left; apply num_inj; lia|right; split; [lia|done]].
Qed.

(** The walk of a weekly series, by rows of the week. *)
Lemma weekly_walk start r d : freq r = Weekly → (num_days_from_ce start < num_days_from_ce d)%Z →
  let so := N.to_nat (num_days_from_monday (weekday start)) in
  let n := (so + Z.to_nat (days_between start d))%nat in
  (length (walk start r d) + bits_below (day_mask start r) (so + 1))%nat =
  (1 + cnt (week_pattern (day_mask start r) (N.to_nat (interval r))) n)%nat.
Proof.
  intros Hf Hlt so n. set (P := week_pattern (day_mask start r) (N.to_nat (interval r))) in *.
  rewrite (walk_count start r d (λ k, (k =? 0)%nat || P (so + k)%nat)); [|lia|].
  2:{ intros k x _ Hx. rewrite (weekly_hits start r x k Hf Hx), orb_true_iff, Nat.eqb_eq. done. }
  assert (Hso : (so ≤ 6)%nat) by (unfold so; destruct (weekday start); simpl; lia).
  unfold n, days_between in *.
  replace (Z.to_nat (num_days_from_ce d - num_days_from_ce start)) with
    (1 + Z.to_nat (num_days_from_ce d - num_days_from_ce start - 1))%nat by lia.
  set (m := Z.to_nat (num_days_from_ce d - num_days_from_ce start - 1)).
  rewrite cnt_add. replace (so + (1 + m))%nat with ((so + 1) + m)%nat by lia. rewrite (cnt_add P (so + 1)).
  rewrite (cnt_ext (λ k, (1 + k =? 0)%nat || P (so + (1 + k))%nat) (λ k, P (so + 1 + k)%nat) m)
    by (intros k _; simpl; f_equal; lia).
  pose proof (cnt_weeks (day_mask start r) (N.to_nat (interval r)) 0 (so + 1)) as Hc.
  rewrite Nat.mul_0_r, Nat.add_0_l in Hc. fold P in Hc. rewrite Hc, Nat.Div0.mod_0_l by lia. simpl. lia.
Qed.

Lemma weekly_position start r d :
  freq r = Weekly → (1 <= interval r)%N → (num_days_from_ce start ≤ num_days_from_ce d)%Z →
  position start r d = if decide (hits start r d) then Some (len (walk start r d)) else None.
Proof.
  intros Hf Hi Hle. unfold position, date_lt.
  destruct (Z.ltb_spec (num_days_from_ce d) (num_days_from_ce start)); [lia|].
  case_bool_decide as Heq.
  { subst d. rewrite decide_True by by left. unfold walk, days_between. by rewrite Z.sub_diag. }
  assert (Hlt : (num_days_from_ce start < num_days_from_ce d)%Z).
  { destruct (decide (num_days_from_ce start = num_days_from_ce d)) as [He|]; [by apply num_inj in He|lia]. }
  pose proof (weekly_walk start r d Hf Hlt) as Hwalk. cbv zeta in Hwalk.
  set (k := Z.to_nat (days_between start d)) in *.
  assert (Hd : num_days_from_ce d = (num_days_from_ce start + Z.of_nat k)%Z) by (unfold k, days_between; lia).
  destruct (week_offset start d k Hd) as [Ho _].
  pose proof (weekly_hits start r d k Hf Hd) as Hhit.
  rewrite Hf. set (so := num_days_from_monday (weekday start)) in *.
  set (dof := num_days_from_monday (weekday d)) in *. set (mask := day_mask start r) in *.
  set (i := N.to_nat (interval r)) in *. set (n := (N.to_nat so + k)%nat) in *.
  assert (Hso : (so <= 6)%N) by (unfold so; destruct (weekday start); simpl; lia).
  assert (Hdof : (dof <= 6)%N) by (unfold dof; destruct (weekday d); simpl; lia).
  assert (Hk : k ≠ 0%nat) by (unfold k, days_between; lia).
  assert (Hbit : (N.land mask (N.shiftl 1 dof) =? 0)%N = negb (N.testbit mask dof)).
  { rewrite N.shiftl_1_l, <-land_bit_test. by rewrite negb_involutive. }
  pose proof (Nat.div_mod_eq n 7) as Hn.
  assert (Hweeks : ((Z.to_N (days_between start d) + so - dof) / 7)%N = N.of_nat (n / 7)).
  { replace (Z.to_N (days_between start d) + so - dof)%N with (N.of_nat (7 * (n / 7))) by lia.
    rewrite Nat2N.inj_mul, N.mul_comm. by apply N.div_mul. }
  rewrite Hbit, Hweeks. replace (interval r) with (N.of_nat i) by lia.
  rewrite <-Nat2N.inj_mod, <-Nat2N.inj_div. unfold week_pattern in Hhit.
  rewrite <-Ho, N2Nat.id in Hhit. rewrite Hn in Hwalk at 1. rewrite cnt_weeks in Hwalk by lia.
  destruct (N.testbit mask dof) eqn:Eb; cbn [negb]; [|rewrite decide_False; [done|naive_solver]].
  destruct (Nat.eqb_spec (n / 7 mod i) 0) as [Hm|Hm];
    destruct (N.eqb_spec (N.of_nat (n / 7 mod i)) 0); try lia; cbn [negb]; [|rewrite decide_False; [done|naive_solver]].
  rewrite decide_True by naive_solver. f_equal. unfold len.
  rewrite cnt_multiples, Hm, <-Ho in Hwalk by lia. cbn [Nat.eqb negb Nat.b2n] in Hwalk. rewrite Nat.add_0_r in Hwalk.
  pose proof (mask_between_spec mask 0 (N.to_nat dof)) as Hb0. rewrite N2Nat.id in Hb0.
  destruct (N.eqb_spec (N.of_nat (n / 7 / i)) 0) as [Hq|Hq].
  - assert (Hq0 : (n / 7)%nat = 0%nat).
    { pose proof (Nat.div_mod_eq (n / 7) i). rewrite Hm in *. assert (n / 7 / i = 0)%nat by lia. nia. }
    pose proof (mask_between_spec mask (N.to_nat so + 1) (N.to_nat dof)) as Hb.
    replace (N.of_nat (N.to_nat so + 1)) with (so + 1)%N in Hb by lia. rewrite N2Nat.id in Hb.
    rewrite Hq0, Nat.Div0.div_0_l in Hwalk. lia.
  - pose proof (mask_between_spec mask (N.to_nat so + 1) 7) as Hb.
    replace (N.of_nat (N.to_nat so + 1)) with (so + 1)%N in Hb by lia.
    pose proof (count_ones_day_mask start r) as Hc. fold mask in Hc.
    change (N.of_nat 7) with 7%N in Hb. change (N.of_nat 0) with 0%N in Hb0.
    change (bits_below mask 0) with 0%nat in Hb0. nia.
Qed.

(** ** Monthly *)

(** The date with a month number and a day. *)
Definition date_at (m : Z) (d : N) : option NaiveDate :=
  from_ymd_opt (m / 12) (Z.to_N (m mod 12) + 1) d.

Lemma date_at_spec m d e : date_at m d = Some e ↔ month_number e = m ∧ day e = d.
Proof.
  unfold date_at, month_number. rewrite from_ymd_spec. pose proof (month0_bound e).
  pose proof (Z.div_mod m 12 ltac:(done)). pose proof (Z.mod_pos_bound m 12 ltac:(done)).
  split; [intros (? & ? & ?); split; [lia|done]|]. intros [Hm ?].
  assert (year e = m / 12)%Z.
  { apply (Z.div_unique_pos m 12 _ (Z.of_N (month0 e))); lia. }
  split; [done|]. split; [lia|done].
Qed.

Lemma date_at_inj a b : month_number a = month_number b → day a = day b → a = b.
Proof.
  intros Hm Hd. assert (Ha : date_at (month_number b) (day b) = Some a) by (by apply date_at_spec).
  assert (Hb : date_at (month_number b) (day b) = Some b) by (by apply date_at_spec). congruence.
Qed.

(** A month has a day as its place in the 400-year cycle has. *)
Lemma date_at_cycle m d : (0 ≤ m < 120000)%Z →
  is_Some (date_at m d) ↔
  is_Some (from_ymd_opt (2000 + m mod 4800 / 12) (Z.to_N (m mod 4800 mod 12) + 1) d).
Proof.
  intros Hm. unfold date_at.
  pose proof (Z.mod_pos_bound m 12 ltac:(done)). pose proof (Z.mod_pos_bound m 4800 ltac:(done)).
  pose proof (Z.mod_pos_bound (m mod 4800) 12 ltac:(done)).
  rewrite !from_ymd_exists.
  - assert (Hmod : (m mod 4800 mod 12 = m mod 12)%Z).
    { apply Z.mod_mod_divide. by exists 400%Z. }
    assert (Hleap : leap (m / 12) = leap (2000 + m mod 4800 / 12)).
    { unfold leap. assert (Hy : (m / 12 = 2000 + m mod 4800 / 12 + 400 * (m / 4800 - 5))%Z).
      { pose proof (Z.div_mod m 4800 ltac:(done)) as Hdm. rewrite Hdm at 1.
        replace (4800 * (m / 4800) + m mod 4800)%Z with (m mod 4800 + (400 * (m / 4800)) * 12)%Z by lia.
        rewrite Z.div_add by done. lia. }
      rewrite Hy. set (y := (2000 + m mod 4800 / 12)%Z). set (q := (m / 4800 - 5)%Z).
      replace (y + 400 * q)%Z with (y + (100 * q) * 4)%Z at 1 by lia.
      replace (y + 400 * q)%Z with (y + (4 * q) * 100)%Z at 1 by lia.
      replace (y + 400 * q)%Z with (y + q * 400)%Z at 1 by lia.
      by rewrite !Z.mod_add by done. }
    unfold month_len. by rewrite Hmod, Hleap.
  - assert (m mod 4800 / 12 < 400)%Z by (apply Z.div_lt_upper_bound; lia).
    assert (0 ≤ m mod 4800 / 12)%Z by (apply Z.div_pos; lia). lia.
  - assert (m / 12 < 10000)%Z by (apply Z.div_lt_upper_bound; lia).
    assert (0 ≤ m / 12)%Z by (apply Z.div_pos; lia). lia.
Qed.

Definition has_date (m : Z) (d : N) : bool := bool_decide (is_Some (date_at m d)).

Lemma month_has_day_spec m i d j : (0 ≤ m)%Z → (m + Z.of_N (j * i) < 120000)%Z →
  month_has_day (Z.to_N m mod CYCLE_MONTHS) (i mod CYCLE_MONTHS) d j = has_date (m + Z.of_N (j * i)) d.
Proof.
  intros Hm Hlt. unfold month_has_day, has_date, CYCLE_MONTHS.
  assert (Ha : ((Z.to_N m mod 4800 + j * (i mod 4800)) mod 4800 = Z.to_N (m + Z.of_N (j * i)) mod 4800)%N).
  { rewrite N.Div0.add_mod_idemp_l. rewrite N.Div0.add_mod, N.Div0.mul_mod_idemp_r, <-N.Div0.add_mod. f_equal. lia. }
  rewrite Ha. set (x := (m + Z.of_N (j * i))%Z) in *.
  assert (Hx : Z.of_N (Z.to_N x mod 4800) = (x mod 4800)%Z) by (rewrite N2Z.inj_mod; f_equal; lia).
  rewrite N2Z.inj_div, Hx.
  replace (Z.to_N x mod 4800 mod 12)%N with (Z.to_N (x mod 4800 mod 12)) by
    (apply N2Z.inj; rewrite N2Z.inj_mod, Hx, Z2N.id; [done|apply Z.mod_pos_bound; done]).
  pose proof (date_at_cycle x d ltac:(lia)) as Hc.
  change (Z.of_N 12) with 12%Z. destruct (from_ymd_opt _ _ d) eqn:E; symmetry.
  - apply bool_decide_eq_true, Hc. by eexists.
  - apply bool_decide_eq_false. rewrite Hc. by intros [? ?].
Qed.

Lemma cnt_all P n : (∀ k, (k < n)%nat → P k = true) → cnt P n = n.
Proof.
  intros HP. rewrite (cnt_ext _ (λ _, true)) by done. clear. induction n as [|n IH]; simpl; lia.
Qed.

Lemma short_day_exists m d : (0 ≤ m < 120000)%Z → (1 <= d <= 28)%N → has_date m d = true.
Proof.
  intros Hm Hd. apply bool_decide_eq_true. unfold date_at.
  assert (m / 12 < 10000)%Z by (apply Z.div_lt_upper_bound; lia).
  assert (0 ≤ m / 12)%Z by (apply Z.div_pos; lia). pose proof (Z.mod_pos_bound m 12 ltac:(done)).
  apply from_ymd_exists; [lia|]. split; [lia|]. unfold month_len. repeat case_match; lia.
Qed.

(** Whole periods of a step return to the same place in the cycle. *)
Lemma cycle_period cyc step period : (cyc ≠ 0)%N → period = (cyc / N.gcd step cyc)%N →
  (0 < period)%N ∧ ∀ m j, ((m + (j + period) * step) mod cyc = (m + j * step) mod cyc)%N.
Proof.
  intros Hc Hpd. assert (Hg : N.gcd step cyc ≠ 0%N) by (intros [_ ?]%N.gcd_eq_0; done).
  destruct (N.gcd_divide_r step cyc) as [p Hp]. destruct (N.gcd_divide_l step cyc) as [q Hq].
  assert (Hperiod : period = p) by (rewrite Hpd, Hp at 1; by apply N.div_mul).
  split; [rewrite Hperiod; destruct p; [done|lia]|]. intros m j.
  replace (m + (j + period) * step)%N with (m + j * step + q * cyc)%N; [apply N.Div0.mod_add|].
  rewrite Hperiod. clear -Hp Hq. revert Hp Hq. generalize (N.gcd step cyc) as g. intros g Hp Hq. nia.
Qed.

(** The table lookup of [month_prefix]. *)
Lemma month_prefix_spec m0 step d period : period = (CYCLE_MONTHS / N.gcd step CYCLE_MONTHS)%N →
  let has j := month_has_day m0 step d (N.of_nat j) in
  (0 < period)%N ∧ N.of_nat (length (month_prefix m0 step d) - 1) = period ∧
  (∀ n, (n <= period)%N →
     default 0%N (month_prefix m0 step d !! N.to_nat n) = N.of_nat (cnt has (N.to_nat n))) ∧
  (∀ j, has (j + N.to_nat period)%nat = has j).
Proof.
  intros Hpd has. destruct (cycle_period CYCLE_MONTHS step period) as [Hpos Hcyc]; [done|done|].
  unfold month_prefix. rewrite gcd_spec, <-Hpd.
  destruct (prefix_from_spec (month_has_day m0 step d) 0 0 (N.to_nat period)) as [Hl Hlk].
  split; [done|]. split; [cbn [length]; rewrite Hl; lia|]. split.
  - intros n Hn. destruct (N.to_nat n) as [|k] eqn:E; [done|]. rewrite lookup_cons, Hlk by lia.
    unfold has. cbn [default]. unfold id. by rewrite N.add_0_l.
  - intros j. unfold has, month_has_day. by rewrite Nat2N.inj_add, N2Nat.id, Hcyc.
Qed.

(** How many of the first [k] months of the series have its day. *)
Lemma months_with_day_spec start i k :
  (0 ≤ month_number start < 120000)%Z →
  (∀ j, (j < k)%N → (month_number start + Z.of_N (j * i) < 120000)%Z) →
  months_with_day start i k =
  N.of_nat (cnt (λ j, has_date (month_number start + Z.of_N (N.of_nat j * i)) (day start)) (N.to_nat k)).
Proof.
  intros Hm Hk. set (m := month_number start) in *. set (d := day start).
  assert (Hd1 : (1 <= d)%N).
  { assert (Hs : is_Some (date_at m d)) by (exists start; by apply date_at_spec).
    unfold date_at in Hs. apply from_ymd_exists in Hs; [lia|].
    assert (m / 12 < 10000)%Z by (apply Z.div_lt_upper_bound; lia). assert (0 ≤ m / 12)%Z by (apply Z.div_pos; lia). lia. }
  unfold months_with_day. fold d m. destruct (N.leb_spec d 28) as [Hd|Hd].
  { rewrite cnt_all; [lia|]. intros j Hj. apply short_day_exists; [|lia]. specialize (Hk (N.of_nat j)). lia. }
  set (m0 := (Z.to_N m mod CYCLE_MONTHS)%N). set (step := (i mod CYCLE_MONTHS)%N).
  destruct (month_prefix_spec m0 step d _ eq_refl) as (Hpos & Hlen & Hat & Hper). rewrite Hlen.
  revert Hpos Hlen Hat Hper. generalize (CYCLE_MONTHS / N.gcd step CYCLE_MONTHS)%N as period.
  intros period Hpos _ Hat Hper.
  rewrite !Hat by (pose proof (N.mod_upper_bound k period); lia).
  rewrite (cnt_ext _ (λ j, month_has_day m0 step d (N.of_nat j)) (N.to_nat k)).
  2:{ intros j Hj. symmetry. apply month_has_day_spec; [lia|]. specialize (Hk (N.of_nat j)). lia. }
  pose proof (N.div_mod' k period) as Hdm.
  replace (N.to_nat k) with (N.to_nat (k / period) * N.to_nat period + N.to_nat (k mod period))%nat by lia.
  rewrite (cnt_periodic _ (N.to_nat period)) by done. lia.
Qed.

Lemma month_number_mono a b : (num_days_from_ce a ≤ num_days_from_ce b)%Z → (month_number a ≤ month_number b)%Z.
Proof.
  intros Hle. destruct (decide (month_number b < month_number a)%Z); [|lia].
  assert (num_days_from_ce b < num_days_from_ce a)%Z by (apply date_order; by left). lia.
Qed.

Lemma elem_of_walk start r d x : (num_days_from_ce start ≤ num_days_from_ce d)%Z →
  x ∈ walk start r d ↔
  hits start r x ∧ (num_days_from_ce start ≤ num_days_from_ce x < num_days_from_ce d)%Z.
Proof.
  intros Hle. unfold walk, days_between. rewrite list_elem_of_filter, list_elem_of_omap.
  split; intros [Hh Hx]; (split; [done|]).
  - destruct Hx as (k & Hk%elem_of_seq & He%add_days_spec). lia.
  - exists (Z.to_nat (num_days_from_ce x - num_days_from_ce start)). split; [apply elem_of_seq; lia|].
    apply add_days_spec. lia.
Qed.

Lemma NoDup_walk start r d : NoDup (walk start r d).
Proof.
  unfold walk. apply NoDup_filter. generalize (Z.to_nat (days_between start d)) as n. intros n.
  pose proof (NoDup_seq 0 n) as Hnd. induction Hnd as [|k l Hk _ IH]; csimpl; [constructor|].
  destruct (add_days start (Z.of_nat k)) as [x|] eqn:Ex; [|done]. constructor; [|done].
  intros (j & Hj & He)%list_elem_of_omap. apply add_days_spec in Ex, He. assert (j = k) as -> by lia. done.
Qed.

(** The months of the series before [d], as dates. *)
Lemma monthly_walk start r d K :
  freq r = Monthly → (1 <= interval r)%N → (num_days_from_ce start < num_days_from_ce d)%Z →
  day d = day start →
  (month_number d = month_number start + Z.of_nat K * Z.of_N (interval r))%Z →
  length (walk start r d) =
  cnt (λ j, has_date (month_number start + Z.of_N (N.of_nat j * interval r)) (day start)) K.
Proof.
  intros Hf Hi Hlt Hday Hmn. set (m := month_number start) in *.
  set (f := λ j : nat, date_at (m + Z.of_N (N.of_nat j * interval r)) (day start)).
  assert (Hcnt : ∀ l, length (omap f l) = length (filter (λ j, has_date (m + Z.of_N (N.of_nat j * interval r)) (day start) = true) l)).
  { induction l as [|j l IH]; [done|]. csimpl. rewrite filter_cons.
    assert (Hfj : has_date (m + Z.of_N (N.of_nat j * interval r)) (day start) = bool_decide (is_Some (f j))) by done.
    destruct (f j) as [x|].
    - rewrite decide_True; [simpl; by rewrite IH|]. rewrite Hfj. by apply bool_decide_eq_true.
    - rewrite decide_False; [done|]. rewrite Hfj. intros [? ?]%bool_decide_eq_true. done. }
  rewrite <-cnt_filter, <-Hcnt. apply Permutation_length, NoDup_Permutation; [apply NoDup_walk| |].
  - pose proof (NoDup_seq 0 K) as Hnd. induction Hnd as [|j l Hj _ IH]; csimpl; [constructor|].
    destruct (f j) as [x|] eqn:Ex; [|done]. constructor; [|done].
    intros (j' & Hj' & He)%list_elem_of_omap. apply date_at_spec in Ex as [? _], He as [? _].
    assert (j' = j) as -> by nia. done.
  - intros x. rewrite elem_of_walk, list_elem_of_omap by lia. unfold hits. rewrite Hf. fold m. split.
    + intros [Hh Hx]. assert (Hxd : day x = day start ∧ (Z.of_N (interval r) | month_number x - m)%Z).
      { destruct Hh as [->|(_ & ? & ?)]; [|done]. split; [done|]. fold m. rewrite Z.sub_diag. apply Z.divide_0_r. }
      destruct Hxd as [Hxd [q Hq]].
      pose proof (month_number_mono start x ltac:(lia)) as Hm1. fold m in Hm1.
      assert (Hm2 : (month_number x < month_number d)%Z).
      { destruct Hx as [_ Hx]. apply date_order in Hx as [?|[_ Hx]]; [done|]. rewrite Hxd, Hday in Hx. lia. }
      exists (Z.to_nat q). split; [apply elem_of_seq; nia|]. unfold f. apply date_at_spec. split; [nia|done].
    + intros (j & Hj%elem_of_seq & He). apply date_at_spec in He as [Hxm Hxd].
      assert (Hle : (num_days_from_ce start ≤ num_days_from_ce x)%Z).
      { destruct (decide (num_days_from_ce x < num_days_from_ce start)%Z) as [Hx|]; [|lia].
        apply date_order in Hx. fold m in Hx. lia. }
      split; [|split; [done|]].
      * destruct (decide (num_days_from_ce x = num_days_from_ce start)) as [He|]; [left; by apply num_inj|right].
        split; [lia|]. split; [done|]. exists (Z.of_nat j). lia.
      * apply date_order. left. nia.
Qed.

Lemma monthly_position start r d :
  freq r = Monthly → (1 <= interval r)%N → (num_days_from_ce start ≤ num_days_from_ce d)%Z →
  in_years (year start) = true → in_years (year d) = true →
  position start r d = if decide (hits start r d) then Some (len (walk start r d)) else None.
Proof.
  intros Hf Hi Hle Hy1 Hy2. unfold position, date_lt.
  destruct (Z.ltb_spec (num_days_from_ce d) (num_days_from_ce start)); [lia|].
  case_bool_decide as Heq.
  { subst d. rewrite decide_True by by left. unfold walk, days_between. by rewrite Z.sub_diag. }
  assert (Hlt : (num_days_from_ce start < num_days_from_ce d)%Z).
  { destruct (decide (num_days_from_ce start = num_days_from_ce d)) as [He|]; [by apply num_inj in He|lia]. }
  pose proof (month_number_mono _ _ Hle) as Hm. rewrite Hf.
  destruct (Z.ltb_spec (month_number d) (month_number start)); [lia|].
  assert (Hhit : hits start r d ↔ day d = day start ∧ (Z.of_N (interval r) | month_number d - month_number start)%Z).
  { unfold hits. rewrite Hf. naive_solver. }
  destruct (N.eqb_spec (day d) (day start)) as [Hday|Hday]; cbn [negb]; [|rewrite decide_False; [done|naive_solver]].
  set (months := Z.to_N (month_number d - month_number start)).
  assert (Hmod : (months mod interval r = 0)%N ↔ (Z.of_N (interval r) | month_number d - month_number start)%Z).
  { rewrite <-Zdivide_mod_iff. replace (month_number d - month_number start)%Z with (Z.of_N months) by lia.
    rewrite <-N2Z.inj_mod. lia. }
  destruct (N.eqb_spec (months mod interval r) 0) as [Hz|Hz]; [|rewrite decide_False; [done|naive_solver]].
  rewrite decide_True by naive_solver. f_equal.
  unfold in_years in *. to_prop. pose proof (month0_bound start). pose proof (month0_bound d).
  assert (Hk : (months = interval r * (months / interval r))%N) by (pose proof (N.div_mod' months (interval r)); lia).
  rewrite months_with_day_spec.
  - unfold len. f_equal. symmetry. apply monthly_walk; [done..|]. lia.
  - unfold month_number in *. lia.
  - intros j Hj. unfold month_number in *. nia.
Qed.

End Walk.

(** [position] and [position_hit] against the walk. *)
Lemma position_walk `{ChronoLaws} start r d :
  (1 <= interval r)%N → date_le start d = true →
  in_years (year start) = true → in_years (year d) = true →
  position start r d = (if decide (hits start r d) then Some (len (walk start r d)) else None) ∧
  position_hit start r d = bool_decide (hits start r d).
Proof.
  intros Hi Hle%Z.leb_le Hy1 Hy2.
  assert (Hpos : position start r d = if decide (hits start r d) then Some (len (walk start r d)) else None).
  { destruct (freq r) eqn:Hf; [by apply daily_position|by apply weekly_position|by apply monthly_position]. }
  split; [done|]. unfold position_hit. destruct (freq r) eqn:Hf;
    [rewrite Hpos; by destruct (decide (hits start r d));
      [rewrite bool_decide_eq_true_2|rewrite bool_decide_eq_false_2]..|].
  pose proof (month_number_mono _ _ Hle) as Hm.
  apply eq_true_iff_eq. rewrite bool_decide_eq_true, !andb_true_iff, !N.eqb_eq, Z.leb_le.
  unfold hits. rewrite Hf.
  assert (Hmod : (Z.to_N (month_number d - month_number start) mod interval r = 0)%N ↔
                 (Z.of_N (interval r) | month_number d - month_number start)%Z).
  { rewrite <-Zdivide_mod_iff.
    replace (month_number d - month_number start)%Z with (Z.of_N (Z.to_N (month_number d - month_number start))) at 2 by lia.
    rewrite <-N2Z.inj_mod. lia. }
  rewrite Hmod. split.
  - intros [[? ?] ?]. destruct (decide (d = start)) as [|Hne]; [by left|right]. split; [|done].
    destruct (decide (num_days_from_ce start = num_days_from_ce d)) as [He|]; [by apply num_inj in He|lia].
  - intros [->|(? & ? & ?)]; [|done]. split; [done|]. rewrite Z.sub_diag. apply Z.divide_0_r.
Qed.

(** The arithmetic of a series agrees with walking it.  For a date at or
    after the start (both with a four-digit year), [position] answers exactly
    when the rule's pattern names the date, and the answer is the number of
    earlier dates the pattern names, found day by day; [position_hit] answers
    the first part alone. *)
Theorem position_is_walk `{ChronoLaws} start r d :
  (1 <= interval r)%N → date_le start d = true →
  in_years (year start) = true → in_years (year d) = true →
  position start r d = (if decide (hits start r d) then Some (len (walk start r d)) else None) ∧
  position_hit start r d = bool_decide (hits start r d).
Proof. apply position_walk. Qed.
