(* ===== verification/Series.v ===== *)
(** * Expanding a series

    crates/molt-core/src/kanban_calendar.rs [next_hit] and [expand]: the first
    date of a series at or after another, found by jumping, and the list of
    occurrences that overlap a window.  [next_hit] is refined to the least date
    the pattern names; [expand] is built on it. *)

From stdpp Require Import sorting.
From S2P Require Import Prelude Strs Json Calendar.

Definition u64_checked_mul (a b : N) : option N :=
  if (a * b <=? u64_max)%N then Some (a * b)%N else None.

(** [u64::div_ceil]. *)
Definition div_ceil (a b : N) : N := ((a + b - 1) / b)%N.

(** The turns of the weekly search: onto a series week, then its first masked
    day. *)
Fixpoint week_turns `{Chrono} (turns : nat) (monday : NaiveDate) (mask i at_ : N) : option NaiveDate :=
  match turns with
  | O => None
  | S turns =>
      let week := (at_ / 7)%N in
      if negb (week mod i =? 0)%N then
        a ← u64_checked_mul (week / i + 1) i;
        at_ ← u64_checked_mul a 7;
        week_turns turns monday mask i at_
      else
        match find (λ o, negb (N.land mask (N.shiftl 1 o) =? 0)%N)
                (N.of_nat <$> seq (N.to_nat (at_ mod 7)) (7 - N.to_nat (at_ mod 7))) with
        | Some dow => add_days monday (Z.of_N (week * 7 + dow))
        | None =>
            a ← u64_checked_add week i;
            at_ ← u64_checked_mul a 7;
            week_turns turns monday mask i at_
        end
  end.

(** The turns of the monthly search: a month without the day passes. *)
Fixpoint month_turns `{Chrono} (turns : nat) (m0 : Z) (d i k : N) : option NaiveDate :=
  match turns with
  | O => None
  | S turns =>
      let n := (m0 + Z.of_N k)%Z in
      let y := (n / 12)%Z in
      if negb (in_years y) then None
      else
        match from_ymd_opt y (Z.to_N (n mod 12) + 1) d with
        | Some date => Some date
        | None => k ← u64_checked_add k i; month_turns turns m0 d i k
        end
  end.

Definition next_hit `{Chrono} (start : NaiveDate) (r : Repeat) (from : NaiveDate) : option NaiveDate :=
  if date_le from start then Some start
  else
    let off := Z.to_N (days_between start from) in
    match freq r with
    | Daily =>
        n ← u64_checked_mul (div_ceil off (interval r)) (interval r);
        add_days start (Z.of_N n)
    | Weekly =>
        let so := num_days_from_monday (weekday start) in
        monday ← add_days start (- Z.of_N so);
        week_turns 3 monday (day_mask start r) (interval r) (off + so)
    | Monthly =>
        let m0 := month_number start in
        if (month_number from <? m0)%Z then None
        else
          let months := Z.to_N (month_number from - m0) in
          k ← u64_checked_mul (div_ceil months (interval r)) (interval r);
          k ← (if (k =? months)%N && (day start <? day from)%N
               then u64_checked_add k (interval r) else Some k);
          month_turns (N.to_nat CYCLE_MONTHS) m0 (day start) (interval r) k
    end.

(** ** Expansion *)

Record Occurrence `{Chrono} := mkOccurrence {
  odate : NaiveDate;
  window : When;
  is_moved : bool;
}.

Definition EXPAND_MAX : nat := 1000.
Definition EXPAND_REACH_DAYS : Z := 366.

(** The closure [place]: a date's own window, or the one it was moved to,
    when it overlaps.  [moved] is the map's entries in key order. *)
Definition moved_to `{Chrono} (moved : list (NaiveDate * When)) (d : NaiveDate) : option When :=
  snd <$> find (λ kv, bool_decide (kv.1 = d)) moved.

Definition place `{Chrono} (w : When) (skip : list NaiveDate) (moved : list (NaiveDate * When))
    (from to d : NaiveDate) : option Occurrence :=
  if bool_decide (d ∈ skip) then None
  else
    wm ← match moved_to moved d with
         | Some w => Some (w, true)
         | None => s ← shifted w (days_between (start_date w) d); Some (s, false)
         end;
    if overlaps wm.1 from to then Some {| odate := d; window := wm.1; is_moved := wm.2 |} else None.

(** [(when.ends() - when.begins()).num_days() + 1]; an all-day window that
    ends on the last date there is ends that evening. *)
Definition span `{Chrono} (w : When) : Z :=
  match w with
  | AllDay s e => match add_days e 1 with Some e' => days_between s e' | None => days_between s e end
  | Timed s e => Z.quot (minutes e - minutes s) 1440
  end + 1.

(** The first date the walk looks at. *)
Definition expand_lo `{Chrono} (w : When) (from : NaiveDate) : NaiveDate :=
  let lo := default (start_date w) (add_days from (- Z.min (span w) EXPAND_REACH_DAYS)) in
  if date_lt lo (start_date w) then start_date w else lo.

(** The [while let] loop; [turns] is the code's own budget. *)
Fixpoint expand_loop `{Chrono} (start : NaiveDate) (r : Repeat) (to : NaiveDate)
    (put : NaiveDate → option Occurrence) (turns : nat) (pos : option N) (out : list Occurrence)
    (next : option NaiveDate) : list Occurrence :=
  match next with
  | None => out
  | Some d =>
      if date_lt to d || (EXPAND_MAX <=? length out)%nat then out
      else
        match turns with
        | O => out
        | S turns =>
            match (match pos with None => position start r d | Some p => Some (p + 1)%N end) with
            | None => out
            | Some p =>
                if negb (within_end r d p) then out
                else expand_loop start r to put turns (Some p) (out ++ option_list (put d))
                       (add_days d 1 ≫= next_hit start r)
            end
        end
  end.

(** The sort key: where the window begins, then the date. *)
Definition occ_le `{Chrono} (a b : Occurrence) : Prop :=
  (minutes (begins (window a)) < minutes (begins (window b)))%Z ∨
  minutes (begins (window a)) = minutes (begins (window b)) ∧
  (num_days_from_ce (odate a) ≤ num_days_from_ce (odate b))%Z.

#[export] Instance occ_le_dec `{Chrono} : RelDecision occ_le.
Proof. intros a b. unfold occ_le. apply _. Defined.

Definition expand `{Chrono} (w : When) (repeat : option Repeat) (skip : list NaiveDate)
    (moved : list (NaiveDate * When)) (from to : NaiveDate) : list Occurrence :=
  match repeat with
  | None =>
      if overlaps w from to then [{| odate := start_date w; window := w; is_moved := false |}] else []
  | Some r =>
      let start := start_date w in
      let lo := expand_lo w from in
      let put := place w skip moved from to in
      let out := expand_loop start r to put (EXPAND_MAX + length (remove_dups skip) + length moved) None []
                   (next_hit start r lo) in
      let outside := filter (λ k, date_lt k lo || date_lt to k = true) moved.*1 in
      let inside := omap (λ k, if is_occurrence w r k then put k else None) outside in
      merge_sort occ_le (out ++ inside)
  end.

(** ** The least hit *)

Definition first_hit `{Chrono} (start : NaiveDate) (r : Repeat) (from d : NaiveDate) : Prop :=
  hits start r d ∧ (num_days_from_ce from ≤ num_days_from_ce d)%Z ∧
  ∀ x, hits start r x → (num_days_from_ce from ≤ num_days_from_ce x)%Z →
    (num_days_from_ce d ≤ num_days_from_ce x)%Z.

(** What an answer of the search means. *)
Definition found `{Chrono} (start : NaiveDate) (r : Repeat) (from : NaiveDate) (o : option NaiveDate) : Prop :=
  match o with
  | Some d => first_hit start r from d
  | None => ∀ x, hits start r x → (num_days_from_ce from ≤ num_days_from_ce x)%Z → in_years (year x) = false
  end.

(** Linear goals whose quotients and remainders are atoms. *)
Ltac div_atoms :=
  repeat match goal with
    | _ : context [(?a / ?b)%N] |- _ => let q := fresh "q" in set (q := (a / b)%N) in *; clearbody q
    | _ : context [(?a mod ?b)%N] |- _ => let q := fresh "q" in set (q := (a mod b)%N) in *; clearbody q
    | |- context [(?a / ?b)%N] => let q := fresh "q" in set (q := (a / b)%N) in *; clearbody q
    | |- context [(?a mod ?b)%N] => let q := fresh "q" in set (q := (a mod b)%N) in *; clearbody q
    end; nia.

Section NextHit.
Context `{Hlaws : ChronoLaws}.

Lemma hits_start_le start r x : hits start r x → (num_days_from_ce start ≤ num_days_from_ce x)%Z.
Proof. intros [->|[? _]]; lia. Qed.

(** A target day number decides the search: the date there, if any. *)
Lemma found_at start r from (t : Z) o :
  in_years (year start) = true → (num_days_from_ce start ≤ t)%Z →
  (num_days_from_ce from ≤ t)%Z →
  (∀ x, num_days_from_ce x = t → hits start r x) →
  (∀ x, hits start r x → (num_days_from_ce from ≤ num_days_from_ce x)%Z → (t ≤ num_days_from_ce x)%Z) →
  match o with
  | Some d => num_days_from_ce d = t
  | None => (∀ d, num_days_from_ce d ≠ t) ∨ (Z.of_N u64_max < t - num_days_from_ce start + 7)%Z
  end →
  found start r from o.
Proof.
  intros Hy Hst Hft Hhit Hmin Ho. destruct o as [d|]; simpl.
  - split; [by apply Hhit|]. split; [lia|]. intros x Hx Hle. rewrite Ho. by apply Hmin.
  - intros x Hx Hle. specialize (Hmin x Hx Hle). apply not_true_iff_false. intros Hyx.
    destruct Ho as [Hno|Hbig].
    + destruct (num_convex start x t) as [d Hd]; [lia|]. by apply (Hno d).
    + pose proof (num_range x Hyx). pose proof (num_range start Hy). unfold u64_max in Hbig. lia.
Qed.

Lemma add_days_target d n t o : add_days d n = o → t = (num_days_from_ce d + n)%Z →
  match o with Some e => num_days_from_ce e = t | None => ∀ e, num_days_from_ce e ≠ t end.
Proof.
  intros Ho ->. destruct o as [e|]; [by apply add_days_spec|].
  intros e He. apply add_days_spec in He. congruence.
Qed.

Lemma div_ceil_spec a b : (0 < b)%N →
  (a <= div_ceil a b * b)%N ∧ ∀ c, (a <= c * b)%N → (div_ceil a b <= c)%N.
Proof.
  intros Hb. unfold div_ceil. pose proof (N.div_mod' (a + b - 1) b). pose proof (N.mod_upper_bound (a + b - 1) b).
  split; [nia|]. intros c Hc. apply N.lt_succ_r. apply N.Div0.div_lt_upper_bound. nia.
Qed.

Lemma daily_next start r from : freq r = Daily → (1 <= interval r)%N → in_years (year start) = true →
  found start r from (next_hit start r from).
Proof.
  intros Hf Hi Hy. unfold next_hit, date_le.
  destruct (Z.leb_spec (num_days_from_ce from) (num_days_from_ce start)).
  { split; [by left|]. split; [done|]. intros x Hx _. by apply hits_start_le in Hx. }
  rewrite Hf. set (off := Z.to_N (days_between start from)). set (i := interval r) in *.
  destruct (div_ceil_spec off i ltac:(lia)) as [Hge Hleast]. set (q := div_ceil off i) in *.
  assert (Hoff : Z.of_N off = (num_days_from_ce from - num_days_from_ce start)%Z) by (unfold off, days_between; lia).
  apply (found_at _ _ _ (num_days_from_ce start + Z.of_N (q * i))); [done|nia|nia| | |].
  - intros x Hx. right. split; [nia|]. rewrite Hf. unfold days_between. exists (Z.of_N q). fold i. lia.
  - intros x [->|[Hlt Hd]] Hle; [lia|]. rewrite Hf in Hd. destruct Hd as [c Hc]. unfold days_between in Hc. fold i in Hc.
    specialize (Hleast (Z.to_N c)). nia.
  - unfold u64_checked_mul. destruct (N.leb_spec (q * i) u64_max); cbn [mbind option_bind]; [|right; lia].
    pose proof (add_days_target start (Z.of_N (q * i)) _ _ eq_refl eq_refl) as Ht.
    destruct (add_days _ _); [done|by left].
Qed.

(** ** Weekly search *)

Lemma find_seq (f : N → bool) lo n o :
  find f (N.of_nat <$> seq lo n) = o →
  match o with
  | Some x => f x = true ∧ (N.of_nat lo <= x < N.of_nat (lo + n))%N ∧
              ∀ y, (N.of_nat lo <= y < x)%N → f y = false
  | None => ∀ y, (N.of_nat lo <= y < N.of_nat (lo + n))%N → f y = false
  end.
Proof.
  revert lo. induction n as [|n IH]; intros lo; csimpl; [intros <-; lia|].
  destruct (f (N.of_nat lo)) eqn:E.
  - intros <-. split; [done|]. split; [lia|]. intros y Hy. lia.
  - intros Ho. specialize (IH _ Ho). destruct o as [x|].
    + destruct IH as (? & ? & Hy). split; [done|]. split; [lia|]. intros y Hlt.
      destruct (decide (y = N.of_nat lo)) as [->|]; [done|]. apply Hy. lia.
    + intros y Hy. destruct (decide (y = N.of_nat lo)) as [->|]; [done|]. apply IH. lia.
Qed.

(** The pattern by offset from the Monday of the start's week, as [week_pattern]. *)
Definition on_pattern (mask i n : N) : Prop := N.testbit mask (n mod 7) = true ∧ ((n / 7) mod i = 0)%N.

Lemma on_pattern_week mask i (n : nat) :
  on_pattern mask i (N.of_nat n) ↔ week_pattern mask (N.to_nat i) n = true.
Proof.
  unfold on_pattern, week_pattern. rewrite andb_true_iff, Nat.eqb_eq.
  change 7%N with (N.of_nat 7).
  rewrite <-(Nat2N.inj_mod n 7), <-(Nat2N.inj_div n 7).
  rewrite <-(N2Nat.id i) at 1. rewrite <-Nat2N.inj_mod. split; intros [? ?]; (split; [done|lia]).
Qed.

(** The least pattern offset from [at_] on: the target of the search. *)
Definition target (mask i at_ t : N) : Prop :=
  on_pattern mask i t ∧ (at_ <= t)%N ∧ ∀ u, on_pattern mask i u → (at_ <= u)%N → (t <= u)%N.

Definition reaches (monday : NaiveDate) (t : N) (o : option NaiveDate) : Prop :=
  match o with
  | Some d => num_days_from_ce d = (num_days_from_ce monday + Z.of_N t)%Z
  | None => (∀ d, num_days_from_ce d ≠ (num_days_from_ce monday + Z.of_N t)%Z) ∨ (u64_max < t)%N
  end.

Lemma div7 w o : (o < 7)%N → ((w * 7 + o) / 7 = w)%N ∧ ((w * 7 + o) mod 7 = o)%N.
Proof.
  intros Ho. split.
  - symmetry. apply (N.div_unique _ _ _ o); lia.
  - symmetry. apply (N.mod_unique _ _ w); lia.
Qed.

(** The days of the week [week_turns] looks at. *)
Definition masked (mask o : N) : bool := negb (N.land mask (N.shiftl 1 o) =? 0)%N.

Lemma masked_bit mask o : masked mask o = N.testbit mask o.
Proof. unfold masked. rewrite N.shiftl_1_l. apply land_bit_test. Qed.

Lemma split7 t : (t = t / 7 * 7 + t mod 7)%N ∧ (t mod 7 < 7)%N.
Proof. pose proof (N.div_mod' t 7). pose proof (N.mod_upper_bound t 7). lia. Qed.

(** Between [at_] and a day of [at_]'s week is that week. *)
Lemma same_week at_ t dow : (at_ <= t)%N → (t < at_ / 7 * 7 + dow)%N → (dow < 7)%N →
  (t / 7 = at_ / 7)%N ∧ (at_ mod 7 <= t mod 7 < dow)%N.
Proof.
  destruct (split7 at_) as [Ha Ha7], (split7 t) as [Ht Ht7]. revert Ha Ha7 Ht Ht7.
  generalize (at_ / 7)%N (at_ mod 7)%N (t / 7)%N (t mod 7)%N. intros. nia.
Qed.

(** A masked day of a series week from [at_] on is the target. *)
Lemma week_found mask i at_ t dow : ((at_ / 7) mod i = 0)%N → target mask i at_ t →
  find (masked mask) (N.of_nat <$> seq (N.to_nat (at_ mod 7)) (7 - N.to_nat (at_ mod 7))) = Some dow →
  t = (at_ / 7 * 7 + dow)%N.
Proof.
  intros Hw ((Ht1 & Ht2) & Hle & Hleast) (Hb & Hlo & Hmin)%find_seq.
  destruct (split7 at_) as [Ha Ha7]. rewrite masked_bit in Hb.
  destruct (div7 (at_ / 7) dow) as [Hq Hr]; [lia|]. apply N.le_antisymm.
  - apply Hleast; [|lia]. split; [by rewrite Hr|by rewrite Hq].
  - destruct (decide (t < at_ / 7 * 7 + dow)%N) as [Hlt|]; [|lia]. exfalso.
    destruct (same_week at_ t dow Hle Hlt ltac:(lia)) as [He Hm].
    specialize (Hmin (t mod 7)%N ltac:(lia)). rewrite masked_bit in Hmin. congruence.
Qed.

Lemma next_multiple a b i : (a mod i = 0)%N → (b mod i = 0)%N → (a < b)%N → (a + i <= b)%N.
Proof.
  intros Ha Hb Hlt. destruct (decide (i = 0%N)) as [->|Hi]; [rewrite N.mod_0_r in Ha, Hb; lia|].
  apply N.Lcm0.mod_divide in Ha as [x ->], Hb as [y ->].
  apply N.mul_lt_mono_pos_r in Hlt; [|lia]. rewrite <-N.mul_succ_l. apply N.mul_le_mono_r. lia.
Qed.

(** No masked day left in the week: the target is in a later series week. *)
Lemma week_missed mask i at_ t : (1 <= i)%N → ((at_ / 7) mod i = 0)%N → target mask i at_ t →
  find (masked mask) (N.of_nat <$> seq (N.to_nat (at_ mod 7)) (7 - N.to_nat (at_ mod 7))) = None →
  target mask i ((at_ / 7 + i) * 7) t.
Proof.
  intros Hi Hw ((Ht1 & Ht2) & Hle & Hleast) Hnone%find_seq.
  destruct (split7 at_) as [Ha Ha7], (split7 t) as [Htd Ht7].
  assert (Hlt : (at_ / 7 < t / 7)%N).
  { pose proof (N.Div0.div_le_mono _ _ 7 Hle) as Hdiv.
    destruct (decide (t / 7 = at_ / 7)%N) as [He|Hne]; [|clear -Hdiv Hne; lia]. exfalso. rewrite He in Htd.
    specialize (Hnone (t mod 7)%N ltac:(clear -Htd Ht7 Ha Ha7 Hle; lia)).
    rewrite masked_bit in Hnone. congruence. }
  pose proof (next_multiple _ _ _ Hw Ht2 Hlt) as H0. clear Hnone.
  assert ((at_ / 7 + i) * 7 <= t)%N by (rewrite Htd; clear -H0; div_atoms).
  split; [done|]. split; [done|]. intros u Hu Hge. apply Hleast; [done|]. rewrite Ha. clear -Hi Hge Ha7. div_atoms.
Qed.

(** A week outside the series: the target is in the next series week or
    later. *)
Lemma week_skipped mask i at_ t : (1 <= i)%N → ((at_ / 7) mod i ≠ 0)%N → target mask i at_ t →
  target mask i ((at_ / 7 / i + 1) * i * 7) t.
Proof.
  intros Hi Hw ((Ht1 & Ht2) & Hle & Hleast).
  destruct (split7 at_) as [Ha Ha7], (split7 t) as [Htd Ht7].
  pose proof (N.div_mod' (at_ / 7) i) as Hd. pose proof (N.mod_upper_bound (at_ / 7) i ltac:(lia)) as Hm.
  pose proof (N.Div0.div_le_mono _ _ 7 Hle) as Hdiv.
  assert (Hge : ((at_ / 7 / i + 1) * i <= t / 7)%N).
  { apply N.Lcm0.mod_divide in Ht2 as [y Hy]. rewrite Hy in *. apply N.mul_le_mono_r.
    destruct (decide (y <= at_ / 7 / i)%N) as [Hy'|]; [|lia]. apply (N.mul_le_mono_r _ _ i) in Hy'.
    clear -Hd Hm Hw Hdiv Hy'. div_atoms. }
  split; [done|]. split; [rewrite Htd; clear -Hge; div_atoms|]. intros u Hu Hu'. apply Hleast; [done|].
  rewrite Ha. clear -Hu' Ha7 Hd Hm. div_atoms.
Qed.

(** At the start of a series week one turn is enough. *)
Lemma aligned_turn monday mask i w t n : (w mod i = 0)%N → target mask i (w * 7) t →
  reaches monday t (week_turns (S n) monday mask i (w * 7)).
Proof.
  intros Hw Ht. simpl. fold (masked mask). destruct (div7 w 0 ltac:(done)) as [Hq Hr]. rewrite N.add_0_r in Hq, Hr.
  destruct (find (masked mask) _) as [dow|] eqn:Ef.
  - assert (Hwq : (w * 7 / 7 mod i = 0)%N) by (by rewrite Hq). rewrite Hwq. cbn [N.eqb negb].
    rewrite (week_found _ _ _ _ _ Hwq Ht Ef).
    pose proof (add_days_target monday (Z.of_N (w * 7 / 7 * 7 + dow)) _ _ eq_refl eq_refl) as Hadd.
    unfold reaches. destruct (add_days _ _); [done|by left].
  - exfalso. apply find_seq in Ef. rewrite Hr in Ef. destruct Ht as ((Ht1 & _) & _).
    specialize (Ef (t mod 7)%N). rewrite masked_bit, Ht1 in Ef. destruct (split7 t) as [_ Ht7]. discriminate Ef.
    change (0 <= t mod 7 < 7)%N. clear -Ht7. div_atoms.
Qed.

Lemma week_turns_reaches monday mask i at_ t : (1 <= i)%N → target mask i at_ t →
  reaches monday t (week_turns 3 monday mask i at_).
Proof.
  intros Hi Ht. change 3%nat with (S 2). remember 2%nat as n eqn:En. cbn [week_turns]. fold (masked mask).
  destruct (N.eqb_spec ((at_ / 7) mod i) 0) as [Hw|Hw]; cbn [negb].
  - destruct (find (masked mask) _) as [dow|] eqn:Ef.
    + rewrite (week_found _ _ _ _ _ Hw Ht Ef).
      pose proof (add_days_target monday (Z.of_N (at_ / 7 * 7 + dow)) _ _ eq_refl eq_refl) as Hadd.
      unfold reaches. destruct (add_days _ _); [done|by left].
    + pose proof (week_missed _ _ _ _ Hi Hw Ht Ef) as Ht'. destruct (Ht') as (_ & Hge & _).
      unfold u64_checked_add, u64_checked_mul.
      destruct (N.leb_spec (at_ / 7 + i) u64_max); cbn [mbind option_bind]; [|right; lia].
      destruct (N.leb_spec ((at_ / 7 + i) * 7) u64_max); cbn [mbind option_bind]; [|right; lia].
      subst n. apply aligned_turn; [|done]. rewrite <-N.Div0.add_mod_idemp_l, Hw, N.add_0_l. apply N.Div0.mod_same.
  - pose proof (week_skipped _ _ _ _ Hi Hw Ht) as Ht'. destruct (Ht') as (_ & Hge & _).
    unfold u64_checked_mul.
    destruct (N.leb_spec ((at_ / 7 / i + 1) * i) u64_max); cbn [mbind option_bind]; [|right; lia].
    destruct (N.leb_spec ((at_ / 7 / i + 1) * i * 7) u64_max); cbn [mbind option_bind]; [|right; lia].
    subst n. apply aligned_turn; [|done]. apply N.Div0.mod_mul.
Qed.

(** The least number with a decidable property, from a bound on. *)
Lemma least_from (P : N → Prop) `{∀ n, Decision (P n)} (lo n : N) : P n → (lo <= n)%N →
  ∃ t, P t ∧ (lo <= t)%N ∧ ∀ u, P u → (lo <= u)%N → (t <= u)%N.
Proof.
  intros Hn Hle. remember (N.to_nat (n - lo)) as k eqn:Hk. revert lo Hle Hk.
  induction k as [|k IH]; intros lo Hle Hk.
  - exists n. split; [done|]. split; [done|]. intros u _ ?. lia.
  - destruct (decide (P lo)) as [Hlo|Hlo].
    + exists lo. split; [done|]. split; [lia|]. by intros.
    + destruct (IH (lo + 1)%N) as (t & Ht & Hge & Hleast); [lia|lia|]. exists t. split; [done|]. split; [lia|].
      intros u Hu Hlu. apply Hleast; [done|]. destruct (decide (u = lo)) as [->|]; [done|lia].
Qed.

#[local] Instance on_pattern_dec mask i n : Decision (on_pattern mask i n).
Proof. unfold on_pattern. apply _. Defined.

Lemma day_mask_some start r : ∃ w, N.testbit (day_mask start r) (num_days_from_monday w) = true.
Proof.
  assert (∃ w, w ∈ rule_days start r) as [w Hw].
  { unfold rule_days. destruct (byday r) as [|w l]; eexists; constructor. }
  exists w. rewrite day_mask_bit. by apply bool_decide_eq_true.
Qed.

Lemma target_exists start r i at_ : (1 <= i)%N → ∃ t, target (day_mask start r) i at_ t.
Proof.
  intros Hi. destruct (day_mask_some start r) as [w Hw].
  assert (Hw7 : (num_days_from_monday w < 7)%N) by (destruct w; done).
  destruct (div7 (at_ * i) (num_days_from_monday w) Hw7) as [Hq Hr].
  apply (least_from _ at_ (at_ * i * 7 + num_days_from_monday w)); [|nia].
  split; [by rewrite Hr|]. rewrite Hq. apply N.Div0.mod_mul.
Qed.

(** A week's worth of dates precedes year 0. *)
Lemma week_before start : in_years (year start) = true →
  ∃ a, (num_days_from_ce a + 7 ≤ num_days_from_ce start)%Z.
Proof.
  intros Hy. unfold in_years in Hy. to_prop.
  assert (Hd : ∀ k, (1 <= k <= 7)%N → ∃ a, date_at (-1) k = Some a).
  { intros k Hk. apply from_ymd_exists; [done|]. split; [done|]. change (1 <= k <= 31)%N. lia. }
  assert (Hlt : ∀ k, (1 <= k <= 7)%N →
    ∃ a, date_at (-1) k = Some a ∧ (num_days_from_ce a + 8 - Z.of_N k ≤ num_days_from_ce start)%Z).
  { intros k Hk. remember (N.to_nat (7 - k)) as n eqn:Hn. revert k Hk Hn.
    induction n as [|n IH]; intros k Hk Hn; destruct (Hd k Hk) as [a Ha]; exists a; (split; [done|]);
      apply date_at_spec in Ha as [Ham Had].
    - assert (num_days_from_ce a < num_days_from_ce start)%Z; [|lia]. apply date_order. left.
      unfold month_number in *. lia.
    - destruct (IH (k + 1)%N) as (b & [Hbm Hbd]%date_at_spec & Hb); [lia|lia|].
      assert (num_days_from_ce a < num_days_from_ce b)%Z; [|lia]. apply date_order. right. lia. }
  destruct (Hlt 1%N) as (a & _ & Ha); [done|]. exists a. lia.
Qed.

Lemma weekly_next start r from : freq r = Weekly → (1 <= interval r)%N → in_years (year start) = true →
  found start r from (next_hit start r from).
Proof.
  intros Hf Hi Hy. unfold next_hit, date_le.
  destruct (Z.leb_spec (num_days_from_ce from) (num_days_from_ce start)) as [Hle|Hlt].
  { split; [by left|]. split; [done|]. intros x Hx _. by apply hits_start_le in Hx. }
  rewrite Hf. set (off := Z.to_N (days_between start from)). set (so := num_days_from_monday (weekday start)).
  assert (Hoff : Z.of_N off = (num_days_from_ce from - num_days_from_ce start)%Z) by (unfold off, days_between; lia).
  assert (Hso : (so <= 6)%N) by (unfold so; destruct (weekday start); done).
  destruct (week_before start Hy) as [a Ha].
  destruct (num_convex a start (num_days_from_ce start - Z.of_N so)%Z) as [monday Hm]; [lia|].
  replace (add_days start (- Z.of_N so)) with (Some monday) by (symmetry; apply add_days_spec; lia). cbn [mbind option_bind].
  destruct (target_exists start r (interval r) (off + so) Hi) as [t Ht].
  pose proof (week_turns_reaches monday _ _ _ _ Hi Ht) as Hr. destruct Ht as (Hpat & Hge & Hleast).
  assert (Hhit : ∀ x (u : N), num_days_from_ce x = (num_days_from_ce monday + Z.of_N u)%Z → (so < u)%N →
            hits start r x ↔ on_pattern (day_mask start r) (interval r) u).
  { intros x u Hx Hu. rewrite (weekly_hits start r x (N.to_nat (u - so)) Hf) by lia. fold so.
    replace (N.to_nat so + N.to_nat (u - so))%nat with (N.to_nat u) by lia.
    rewrite <-on_pattern_week, N2Nat.id. naive_solver lia. }
  apply (found_at _ _ _ (num_days_from_ce monday + Z.of_N t)%Z); [done|lia|lia| | |].
  - intros x Hx. apply (Hhit x t); [done|lia|done].
  - intros x Hx Hle. set (u := Z.to_N (num_days_from_ce x - num_days_from_ce monday)).
    assert (num_days_from_ce x = (num_days_from_ce monday + Z.of_N u)%Z) as Hxu by (unfold u; lia).
    specialize (Hleast u). rewrite <-(Hhit x u) in Hleast by lia. specialize (Hleast Hx). lia.
  - unfold reaches in Hr. destruct (week_turns _ _ _ _ _); [done|]. destruct Hr as [?|?]; [by left|right; lia].
Qed.

(** ** Monthly search *)

(** What a bounded search over the months from [k] on tells. *)
Definition searched (m0 : Z) (d i k : N) (turns : nat) (o : option NaiveDate) : Prop :=
  match o with
  | Some e => ∃ j, date_at (m0 + Z.of_N (k + N.of_nat j * i)) d = Some e ∧
                ∀ j', (j' < j)%nat → date_at (m0 + Z.of_N (k + N.of_nat j' * i)) d = None
  | None => ∀ j, (j < turns)%nat → (m0 + Z.of_N (k + N.of_nat j * i) < 120000)%Z →
                date_at (m0 + Z.of_N (k + N.of_nat j * i)) d = None
  end.

Lemma in_years_month n : (0 ≤ n)%Z → in_years (n / 12) = (n <? 120000)%Z.
Proof.
  intros Hn. unfold in_years. apply eq_true_iff_eq. rewrite andb_true_iff, !Z.leb_le, Z.ltb_lt.
  pose proof (Z.div_mod n 12 ltac:(done)). pose proof (Z.mod_pos_bound n 12 ltac:(done)). lia.
Qed.

Lemma month_turns_searched turns m0 d i k : (0 ≤ m0)%Z →
  searched m0 d i k turns (month_turns turns m0 d i k).
Proof.
  intros Hm. revert k. induction turns as [|turns IH]; intros k; cbn [month_turns]; [intros j Hj; lia|].
  rewrite in_years_month by lia. destruct (Z.ltb_spec (m0 + Z.of_N k) 120000) as [Hlt|Hge]; cbn [negb].
  2:{ intros j _ Hj. lia. }
  assert (H0 : date_at (m0 + Z.of_N (k + N.of_nat 0 * i)) d = date_at (m0 + Z.of_N k) d) by (do 2 f_equal; lia).
  change (from_ymd_opt ((m0 + Z.of_N k) / 12) (Z.to_N ((m0 + Z.of_N k) mod 12) + 1) d) with (date_at (m0 + Z.of_N k) d).
  destruct (date_at (m0 + Z.of_N k) d) as [e|] eqn:Ee.
  { exists 0%nat. split; [done|]. intros j' Hj'. lia. }
  assert (Hs : ∀ j, date_at (m0 + Z.of_N (k + i + N.of_nat j * i)) d = date_at (m0 + Z.of_N (k + N.of_nat (S j) * i)) d)
    by (intros j; do 2 f_equal; lia).
  unfold u64_checked_add. destruct (N.leb_spec (k + i) u64_max) as [_|Hbig]; cbn [mbind option_bind].
  - specialize (IH (k + i)%N). destruct (month_turns turns m0 d i (k + i)) as [e|]; cbn [searched] in *.
    + destruct IH as (j & Hj & Hmin). exists (S j). split; [by rewrite <-Hs|].
      intros [|j'] Hj'; [done|]. rewrite <-Hs. apply Hmin. lia.
    + intros [|j] Hj Hlt'; [done|]. rewrite <-Hs. apply IH; lia.
  - intros [|j] _ Hlt'; [done|]. exfalso. unfold u64_max in Hbig. lia.
Qed.

(** Over a full cycle of turns, no date is missed. *)
Lemma cycle_turns m0 d i k turns : (0 ≤ m0)%Z → turns = N.to_nat CYCLE_MONTHS →
  searched m0 d i k turns None →
  ∀ j, (m0 + Z.of_N (k + N.of_nat j * i) < 120000)%Z → date_at (m0 + Z.of_N (k + N.of_nat j * i)) d = None.
Proof.
  intros Hm Hturns Hs j Hj. set (n := Z.of_N (N.of_nat j)). set (q := (n mod 4800)%Z).
  pose proof (Z.div_mod n 4800 ltac:(done)) as Hn. pose proof (Z.mod_pos_bound n 4800 ltac:(done)) as Hq. fold q in Hn, Hq.
  assert (Hdiv : (0 ≤ n / 4800)%Z) by (apply Z.div_pos; lia).
  set (j' := Z.to_nat q). assert (Hj' : Z.of_nat j' = q) by (unfold j'; lia).
  assert (Hle : (m0 + Z.of_N (k + N.of_nat j' * i) ≤ m0 + Z.of_N (k + N.of_nat j * i))%Z) by nia.
  specialize (Hs j'). rewrite Hturns in Hs.
  assert (Hnone : date_at (m0 + Z.of_N (k + N.of_nat j' * i)) d = None).
  { apply Hs; [|lia]. apply Nat2Z.inj_lt. rewrite N_nat_Z, Hj'. unfold CYCLE_MONTHS. lia. }
  destruct (date_at (m0 + Z.of_N (k + N.of_nat j * i)) d) as [e|] eqn:Ee; [|done]. exfalso.
  assert (Hsome : is_Some (date_at (m0 + Z.of_N (k + N.of_nat j * i)) d)) by (by eexists).
  apply date_at_cycle in Hsome; [|lia].
  assert (Hsame : ((m0 + Z.of_N (k + N.of_nat j * i)) mod 4800 = (m0 + Z.of_N (k + N.of_nat j' * i)) mod 4800)%Z).
  { replace (m0 + Z.of_N (k + N.of_nat j * i))%Z with
      (m0 + Z.of_N (k + N.of_nat j' * i) + (n / 4800 * Z.of_N i) * 4800)%Z by nia. apply Z.mod_add. done. }
  rewrite Hsame, <-date_at_cycle in Hsome by lia. rewrite Hnone in Hsome. by destruct Hsome.
Qed.

(** The first month the search looks at. *)
Definition month_floor (start : NaiveDate) (i : N) (from : NaiveDate) : N :=
  let months := Z.to_N (month_number from - month_number start) in
  let k := (div_ceil months i * i)%N in
  if (k =? months)%N && (day start <? day from)%N then (k + i)%N else k.

Lemma month_floor_spec start i from x : (1 <= i)%N → (month_number start ≤ month_number from)%Z →
  day x = day start →
  (∃ j, month_number x = (month_number start + Z.of_N (month_floor start i from + N.of_nat j * i))%Z) ↔
  (Z.of_N i | month_number x - month_number start)%Z ∧ (num_days_from_ce from ≤ num_days_from_ce x)%Z.
Proof.
  intros Hi Hm Hd. unfold month_floor. set (months := Z.to_N (month_number from - month_number start)).
  destruct (div_ceil_spec months i ltac:(lia)) as [Hge Hleast]. set (q := div_ceil months i) in *.
  assert (Hord : (num_days_from_ce from ≤ num_days_from_ce x)%Z ↔
    (Z.of_N months < month_number x - month_number start)%Z ∨
    (Z.of_N months = month_number x - month_number start)%Z ∧ (day from <= day start)%N).
  { pose proof (date_order x from) as Ho. unfold months. rewrite Hd in Ho. lia. }
  rewrite Hord. clear Hord. split.
  - intros [j Hj]. split.
    + exists (Z.of_N (q + (if (q * i =? months)%N && (day start <? day from)%N then 1 else 0) + N.of_nat j)).
      rewrite Hj. destruct (_ && _); lia.
    + destruct (N.eqb_spec (q * i) months), (N.ltb_spec (day start) (day from)); cbn [andb] in Hj; lia.
  - intros [[c Hc] Hge']. assert (Hcq : (q <= Z.to_N c)%N) by (apply Hleast; nia).
    destruct ((q * i =? months)%N && (day start <? day from)%N) eqn:Eb.
    + apply andb_true_iff in Eb as [Eq%N.eqb_eq Ed%N.ltb_lt].
      assert (q ≠ Z.to_N c) by (intros ->; lia). exists (N.to_nat (Z.to_N c - q - 1)). nia.
    + exists (N.to_nat (Z.to_N c - q)). nia.
Qed.

Lemma month_floor_checked {A} start r from (T : N → option A) :
  let months := Z.to_N (month_number from - month_number start) in
  (k ← u64_checked_mul (div_ceil months (interval r)) (interval r);
   k ← (if (k =? months)%N && (day start <? day from)%N then u64_checked_add k (interval r) else Some k);
   T k) =
  if (month_floor start (interval r) from <=? u64_max)%N then T (month_floor start (interval r) from) else None.
Proof.
  unfold month_floor, u64_checked_mul, u64_checked_add. cbv zeta.
  set (months := Z.to_N (month_number from - month_number start)).
  set (k := (div_ceil months (interval r) * interval r)%N).
  destruct (N.leb_spec k u64_max); cbn [mbind option_bind]; destruct (_ && _); cbn [mbind option_bind];
    repeat case_match; to_prop; try done; lia.
Qed.

Lemma monthly_next start r from : freq r = Monthly → (1 <= interval r)%N → in_years (year start) = true →
  found start r from (next_hit start r from).
Proof.
  intros Hf Hi Hy. unfold next_hit, date_le.
  destruct (Z.leb_spec (num_days_from_ce from) (num_days_from_ce start)) as [Hle|Hlt].
  { split; [by left|]. split; [done|]. intros x Hx _. by apply hits_start_le in Hx. }
  rewrite Hf. pose proof (month_number_mono start from ltac:(lia)) as Hm.
  destruct (Z.ltb_spec (month_number from) (month_number start)); [lia|].
  assert (Hm0 : (0 ≤ month_number start)%Z) by (unfold in_years, month_number in *; to_prop; lia).
  assert (Hhit : ∀ x, (num_days_from_ce from ≤ num_days_from_ce x)%Z ∧ hits start r x ↔
    day x = day start ∧ ∃ j, month_number x =
      (month_number start + Z.of_N (month_floor start (interval r) from + N.of_nat j * interval r))%Z).
  { intros x. unfold hits. rewrite Hf. split.
    - intros [Hle [->|(_ & Hd & Hdiv)]]; [lia|]. split; [done|]. by apply month_floor_spec.
    - intros [Hd Hj]. apply month_floor_spec in Hj as [??]; [|done..]. split; [done|]. right. split; [lia|done]. }
  rewrite (month_floor_checked start r from (month_turns _ _ _ _)).
  destruct (N.leb_spec (month_floor start (interval r) from) u64_max) as [_|Hbig].
  2:{ intros x Hx Hle. apply not_true_iff_false. intros Hyx. destruct (Hhit x) as [[_ [j Hj]] _]; [done|].
      unfold u64_max in Hbig. pose proof (month0_bound x). unfold in_years, month_number in *. to_prop. lia. }
  remember (N.to_nat CYCLE_MONTHS) as turns eqn:Ht. set (k := month_floor start (interval r) from) in *.
  pose proof (month_turns_searched turns (month_number start) (day start) (interval r) k Hm0) as Hs.
  destruct (month_turns _ _ _ _ _) as [e|]; cbn [found].
  - destruct Hs as (j & [He1 He2]%date_at_spec & Hmin).
    destruct (Hhit e) as [_ [Hle Hh]]; [split; [done|by exists j]|]. split; [done|]. split; [done|].
    intros x Hx Hxle. destruct (Hhit x) as [[Hxd [j' Hj']] _]; [done|].
    destruct (decide (j' < j)%nat) as [Hjj|Hjj].
    + specialize (Hmin j' Hjj). assert (date_at (month_number x) (day start) = Some x) as Hx' by (by apply date_at_spec).
      rewrite Hj' in Hx'. congruence.
    + destruct (decide (num_days_from_ce x < num_days_from_ce e)%Z) as [Hxe|]; [|lia].
      apply date_order in Hxe. nia.
  - intros x Hx Hxle. apply not_true_iff_false. intros Hyx. destruct (Hhit x) as [[Hxd [j Hj]] _]; [done|].
    assert (Hnone := cycle_turns _ _ _ _ _ Hm0 Ht Hs j).
    assert (date_at (month_number x) (day start) = Some x) as Hx' by (by apply date_at_spec).
    rewrite Hj in Hx'. rewrite Hnone in Hx'; [done|]. rewrite <-Hj. pose proof (month0_bound x).
    unfold in_years, month_number in *. to_prop. lia.
Qed.

(** The three searches. *)
Lemma next_hit_found start r from : (1 <= interval r)%N → in_years (year start) = true →
  found start r from (next_hit start r from).
Proof.
  intros Hi Hy. destruct (freq r) eqn:Hf; [by apply daily_next|by apply weekly_next|by apply monthly_next].
Qed.

(** ** The walk between hits *)

(** An original date of the series: on the pattern, before the end. *)
Definition original (start : NaiveDate) (r : Repeat) (d : NaiveDate) : Prop :=
  hits start r d ∧ within_end r d (len (walk start r d)) = true.

Lemma year_between a b d : in_years (year a) = true → in_years (year b) = true →
  (num_days_from_ce a ≤ num_days_from_ce d ≤ num_days_from_ce b)%Z → in_years (year d) = true.
Proof.
  intros Ha Hb [Hm1%month_number_mono Hm2%month_number_mono].
  pose proof (month0_bound a). pose proof (month0_bound b). pose proof (month0_bound d).
  unfold in_years, month_number in *. to_prop. apply andb_true_iff. rewrite !Z.leb_le. lia.
Qed.

Lemma is_occurrence_original w r d : (1 <= interval r)%N →
  in_years (year (start_date w)) = true → in_years (year d) = true →
  is_occurrence w r d = true ↔ original (start_date w) r d.
Proof.
  intros Hi Hs Hd. unfold is_occurrence, original. set (start := start_date w) in *.
  assert (Hle : hits start r d → date_le start d = true).
  { intros Hh%hits_start_le. by apply Z.leb_le. }
  destruct (date_le start d) eqn:Ed.
  - destruct (position_walk start r d Hi Ed Hs Hd) as [Hp Hh]. rewrite Hp, Hh. unfold within_end.
    destruct (rend r); destruct (decide (hits start r d)) as [Hyes|Hno];
      rewrite ?bool_decide_eq_true_2, ?bool_decide_eq_false_2 by done; naive_solver.
  - assert (Hno : position start r d = None).
    { unfold position, date_le, date_lt in *. apply Z.leb_gt in Ed. by rewrite (proj2 (Z.ltb_lt _ _) Ed). }
    rewrite Hno. destruct (rend r); naive_solver.
Qed.

Lemma walk_le start r a b : hits start r a →
  (num_days_from_ce a ≤ num_days_from_ce b)%Z → (len (walk start r a) <= len (walk start r b))%N.
Proof.
  intros Ha%hits_start_le Hab. unfold len.
  cut (length (walk start r a) ≤ length (walk start r b))%nat; [lia|].
  apply submseteq_length, NoDup_submseteq; [apply NoDup_walk|].
  intros x. rewrite !elem_of_walk by lia. intros [? ?]. split; [done|lia].
Qed.

(** The next hit is one position further. *)
Lemma walk_next start r a b : hits start r a → hits start r b →
  (num_days_from_ce a < num_days_from_ce b)%Z →
  (∀ x, hits start r x → (num_days_from_ce a < num_days_from_ce x)%Z → (num_days_from_ce b ≤ num_days_from_ce x)%Z) →
  len (walk start r b) = (len (walk start r a) + 1)%N.
Proof.
  intros Ha Hb Hlt Hleast. pose proof (hits_start_le _ _ _ Ha) as Hsa. unfold len.
  assert (Hp : walk start r b ≡ₚ a :: walk start r a).
  { apply NoDup_Permutation; [apply NoDup_walk| |].
    - constructor; [|apply NoDup_walk]. rewrite elem_of_walk by lia. lia.
    - intros x. rewrite elem_of_cons, !elem_of_walk by lia. split.
      + intros [Hx Hbound]. destruct (decide (num_days_from_ce x = num_days_from_ce a)) as [He|];
          [left; by apply num_inj|right]. split; [done|]. split; [lia|].
        destruct (decide (num_days_from_ce a < num_days_from_ce x)%Z) as [Hax|]; [|lia].
        specialize (Hleast x Hx Hax). lia.
      + intros [->|[? ?]]; (split; [done|lia]). }
  rewrite (Permutation_length Hp). cbn [length]. lia.
Qed.

Lemma original_prefix start r a b : hits start r a → original start r b →
  (num_days_from_ce a ≤ num_days_from_ce b)%Z → original start r a.
Proof.
  intros Ha [Hb Hend] Hab. split; [done|]. pose proof (walk_le start r a b Ha Hab).
  unfold within_end, date_le in *. destruct (rend r); to_prop; [done|..]; [apply Z.leb_le|apply N.ltb_lt]; lia.
Qed.

(** ** The loop *)

(** The walk is about to look at the first hit from day [c] on. *)
Definition upcoming (start : NaiveDate) (r : Repeat) (c : Z) (next : option NaiveDate) : Prop :=
  match next with
  | Some d => hits start r d ∧ (c ≤ num_days_from_ce d)%Z ∧
              ∀ x, hits start r x → (c ≤ num_days_from_ce x)%Z → (num_days_from_ce d ≤ num_days_from_ce x)%Z
  | None => ∀ x, hits start r x → (c ≤ num_days_from_ce x)%Z → in_years (year x) = false
  end.

Lemma upcoming_next start r d : (1 <= interval r)%N → in_years (year start) = true →
  upcoming start r (num_days_from_ce d + 1) (add_days d 1 ≫= next_hit start r).
Proof.
  intros Hi Hy. destruct (add_days d 1) as [n|] eqn:En; cbn [mbind option_bind].
  - apply add_days_spec in En. pose proof (next_hit_found start r n Hi Hy) as Hf.
    rewrite <-En. destruct (next_hit start r n); exact Hf.
  - intros x _ Hx. destruct (num_convex d x (num_days_from_ce d + 1)) as [e He]; [lia|].
    apply add_days_spec in He. congruence.
Qed.

(** The position the loop carries is the number of hits before the next. *)
Definition pos_at (start : NaiveDate) (r : Repeat) (pos : option N) (next : option NaiveDate) : Prop :=
  match pos, next with Some p, Some d => len (walk start r d) = (p + 1)%N | _, _ => True end.

Section Loop.
Variables (start : NaiveDate) (r : Repeat) (to : NaiveDate) (put : NaiveDate → option Occurrence).
Hypothesis (Hi : (1 <= interval r)%N).
Hypothesis (Hys : in_years (year start) = true).
Hypothesis (Hyt : in_years (year to) = true).

(** One round of the loop at a hit within the window. *)
Lemma loop_round d pos : hits start r d → (num_days_from_ce d ≤ num_days_from_ce to)%Z →
  pos_at start r pos (Some d) →
  match pos with None => position start r d | Some p => Some (p + 1)%N end = Some (len (walk start r d)).
Proof.
  intros Hd Hto Hpos. destruct pos as [p|]; [by rewrite <-Hpos|]. pose proof (hits_start_le _ _ _ Hd) as Hsd.
  destruct (position_walk start r d Hi) as [-> _]; [by apply Z.leb_le|done|by apply (year_between start to)|].
  by rewrite decide_True.
Qed.

Lemma pos_at_next d : hits start r d →
  pos_at start r (Some (len (walk start r d))) (add_days d 1 ≫= next_hit start r).
Proof.
  intros Hd. pose proof (upcoming_next start r d Hi Hys) as Hup.
  destruct (add_days d 1 ≫= next_hit start r) as [n|]; [|done]. destruct Hup as (Hn & Hlt & Hleast).
  apply walk_next; [done|done|lia|]. intros x Hx Hxd. apply Hleast; [done|lia].
Qed.

(** The dates the loop visits from day [c] on: original, in order. *)
Definition visited (c : Z) (turns : nat) (ds : list NaiveDate) : Prop :=
  (length ds ≤ turns)%nat ∧ StronglySorted (λ a b, num_days_from_ce a < num_days_from_ce b)%Z ds ∧
  ∀ d, d ∈ ds → original start r d ∧ (c ≤ num_days_from_ce d ≤ num_days_from_ce to)%Z.

Lemma visited_nil c turns : visited c turns [].
Proof. split; [cbn; lia|]. split; [constructor|]. by intros d ?%elem_of_nil. Qed.

Lemma visited_cons c turns d ds : original start r d → (c ≤ num_days_from_ce d ≤ num_days_from_ce to)%Z →
  visited (num_days_from_ce d + 1) turns ds → visited c (S turns) (d :: ds).
Proof.
  intros Hd Hc (Hlen & Hsort & Hds). split; [cbn [length]; lia|]. split.
  - constructor; [done|]. apply Forall_forall. intros x [_ ?]%Hds. lia.
  - intros x [->|[? ?]%Hds]%elem_of_cons; (split; [done|lia]).
Qed.

(** What is there to visit, and the budget for it. *)
Definition ample (c : Z) (turns : nat) (out : list Occurrence) : Prop :=
  (num_days_from_ce to - c < Z.of_nat turns)%Z ∧
  (Z.of_nat (length out) + (num_days_from_ce to - c) < Z.of_nat EXPAND_MAX)%Z.

Lemma ample_round c d turns out : (c ≤ num_days_from_ce d)%Z → ample c (S turns) out →
  ample (num_days_from_ce d + 1) turns (out ++ option_list (put d)).
Proof. unfold ample. rewrite length_app. intros Hc [? ?].
  assert (length (option_list (put d)) ≤ 1)%nat by (destruct (put d); cbn; lia). lia.
Qed.

(** The loop places the dates it visits, and with an ample budget it visits
    every original date. *)
Lemma loop_visits turns c pos out next : upcoming start r c next → pos_at start r pos next →
  ∃ ds, expand_loop start r to put turns pos out next = out ++ omap put ds ∧ visited c turns ds ∧
    (ample c turns out →
     ∀ x, original start r x → (c ≤ num_days_from_ce x ≤ num_days_from_ce to)%Z → x ∈ ds).
Proof.
  revert c pos out next. induction turns as [|turns IH]; intros c pos out next Hup Hpos; cbn [expand_loop].
  { exists []. cbn. rewrite app_nil_r. split; [by destruct next as [d|]; [destruct (_ || _)|]|].
    split; [apply visited_nil|]. intros [? _]. lia. }
  assert (Hstop : (ample c (S turns) out → ∀ x, original start r x → (c ≤ num_days_from_ce x ≤ num_days_from_ce to)%Z → False) →
    ∃ ds, out = out ++ omap put ds ∧ visited c (S turns) ds ∧ (ample c (S turns) out →
      ∀ x, original start r x → (c ≤ num_days_from_ce x ≤ num_days_from_ce to)%Z → x ∈ ds)).
  { intros Hno. exists []. cbn. rewrite app_nil_r. split; [done|]. split; [apply visited_nil|]. intros Ha x Hx Hc. by destruct (Hno Ha x Hx Hc). }
  destruct next as [d|]; cbn [upcoming] in Hup.
  2:{ apply Hstop. intros _ x [Hx _] Hc. specialize (Hup x Hx (proj1 Hc)). pose proof (hits_start_le _ _ _ Hx).
      rewrite (year_between start to x) in Hup; [done..|lia]. }
  destruct Hup as (Hd & Hcd & Hleast).
  destruct (_ || _) eqn:Eb; [apply Hstop|].
  { intros [_ Ha] x [Hx _] Hc. specialize (Hleast x Hx (proj1 Hc)). apply orb_true_iff in Eb as [?%Z.ltb_lt|?%Nat.leb_le]; lia. }
  apply orb_false_iff in Eb as [Hto%Z.ltb_ge _].
  rewrite (loop_round d pos Hd Hto Hpos). destruct (within_end _ _ _) eqn:Ew; cbn [negb].
  2:{ apply Hstop. intros _ x Hx Hc. specialize (Hleast x (proj1 Hx) (proj1 Hc)).
      destruct (original_prefix start r d x Hd Hx Hleast). congruence. }
  destruct (IH _ _ (out ++ option_list (put d)) _ (upcoming_next start r d Hi Hys) (pos_at_next d Hd)) as (ds & -> & Hv & Hall).
  exists (d :: ds). split; [csimpl; rewrite <-app_assoc; by destruct (put d)|]. split; [by apply visited_cons|].
  intros Ha x Hx Hc. specialize (Hall (ample_round c d turns out Hcd Ha) x Hx).
  destruct (decide (num_days_from_ce x = num_days_from_ce d)) as [He|]; [apply num_inj in He as ->; by constructor|].
  constructor. apply Hall. specialize (Hleast x (proj1 Hx) (proj1 Hc)). lia.
Qed.

End Loop.

(** ** Windows in minutes *)

(** A time of day is below 24 hours. *)
Definition when_ok (w : When) : Prop :=
  match w with Timed s e => (s.2 < 1440)%N ∧ (e.2 < 1440)%N | AllDay _ _ => True end.

(** The minute after a window's last. *)
Definition end_minute (w : When) : Z :=
  match w with AllDay _ e => 1440 * (num_days_from_ce e + 1) | Timed _ e => minutes e end.

Lemma overlaps_after w from to : overlaps w from to = true → (1440 * num_days_from_ce from < end_minute w)%Z.
Proof.
  unfold overlaps. intros [_ Ha]%andb_true_iff. destruct w as [s e|s e]; cbn in *.
  - destruct (add_days e 1) as [e'|] eqn:Ee; cbn in Ha.
    + apply add_days_spec in Ee. unfold time_lt, minutes, midnight in Ha. apply Z.ltb_lt in Ha. cbn [fst snd] in Ha. lia.
    + destruct (decide (num_days_from_ce from ≤ num_days_from_ce e)%Z); [lia|].
      destruct (num_convex e from (num_days_from_ce e + 1)) as [x Hx%add_days_spec]; [lia|congruence].
  - unfold time_lt in Ha. apply Z.ltb_lt in Ha. unfold minutes, midnight in *. cbn [fst snd] in Ha. lia.
Qed.

Lemma overlaps_before w from to d : overlaps w from to = true → (num_days_from_ce to < num_days_from_ce d)%Z →
  (minutes (begins w) < 1440 * (num_days_from_ce to + 1))%Z.
Proof.
  unfold overlaps. intros [Ha _]%andb_true_iff Hd.
  destruct (num_convex to d (num_days_from_ce to + 1)) as [x Hx]; [lia|].
  assert (Hadd : add_days to 1 = Some x) by by apply add_days_spec. rewrite Hadd in Ha. cbn [fmap option_fmap option_map before_opt] in Ha.
  unfold time_lt in Ha. apply Z.ltb_lt in Ha. unfold midnight in Ha. unfold minutes at 2 in Ha. cbn [fst snd] in Ha. lia.
Qed.

Lemma shifted_spec w n w' : shifted w n = Some w' →
  num_days_from_ce (start_date w') = (num_days_from_ce (start_date w) + n)%Z ∧
  minutes (begins w') = (minutes (begins w) + 1440 * n)%Z ∧ end_minute w' = (end_minute w + 1440 * n)%Z.
Proof.
  intros Hs. destruct w as [s e|s e]; cbn in Hs;
    apply bind_Some in Hs as (s' & Hs'%add_days_spec & Hs); apply bind_Some in Hs as (e' & He'%add_days_spec & [= <-]);
    cbn; unfold minutes, midnight; cbn [fst snd]; lia.
Qed.

Lemma span_bound w : (end_minute w - minutes (begins w) ≤ 1440 * span w)%Z.
Proof.
  destruct w as [s e|s e]; unfold span, end_minute, begins.
  - unfold minutes, midnight, days_between. cbn [fst snd].
    destruct (add_days e 1) eqn:Ee; [apply add_days_spec in Ee|]; lia.
  - pose proof (Z.quot_rem' (minutes e - minutes s) 1440). pose proof (Z.rem_bound_abs (minutes e - minutes s) 1440). lia.
Qed.

Lemma begins_bound w : when_ok w →
  (1440 * num_days_from_ce (start_date w) ≤ minutes (begins w) < 1440 * (num_days_from_ce (start_date w) + 1))%Z.
Proof. destruct w; cbn; unfold minutes, midnight; cbn [fst snd]; lia. Qed.

(** A date whose own window overlaps starts within the window's length of it. *)
Lemma shifted_overlap w d w' from to : when_ok w → shifted w (days_between (start_date w) d) = Some w' →
  overlaps w' from to = true →
  (num_days_from_ce from - span w ≤ num_days_from_ce d ≤ num_days_from_ce to)%Z.
Proof.
  intros Hok (Hs & Hb & He)%shifted_spec Ho. pose proof (overlaps_after _ _ _ Ho) as Ha.
  pose proof (begins_bound w Hok). pose proof (span_bound w). unfold days_between in *. split; [lia|].
  destruct (decide (num_days_from_ce to < num_days_from_ce d)%Z) as [Hlt|]; [|lia].
  pose proof (overlaps_before _ _ _ _ Ho Hlt). lia.
Qed.

Lemma expand_lo_spec w from : (0 ≤ span w ≤ EXPAND_REACH_DAYS)%Z →
  (num_days_from_ce from - EXPAND_REACH_DAYS ≤ num_days_from_ce (expand_lo w from))%Z ∧
  ∀ d, (num_days_from_ce (start_date w) ≤ num_days_from_ce d)%Z → (num_days_from_ce from - span w ≤ num_days_from_ce d)%Z →
    (num_days_from_ce (expand_lo w from) ≤ num_days_from_ce d)%Z.
Proof.
  intros Hspan. unfold expand_lo. rewrite Z.min_l by lia.
  destruct (add_days from (- span w)) as [l|] eqn:El; cbn [default]; unfold id.
  - apply add_days_spec in El. unfold date_lt. destruct (Z.ltb_spec (num_days_from_ce l) (num_days_from_ce (start_date w))); (split; intros; lia).
  - unfold date_lt. rewrite Z.ltb_irrefl. split; [|by intros].
    destruct (decide (num_days_from_ce (start_date w) ≤ num_days_from_ce from - span w)%Z) as [Hle|]; [|lia].
    destruct (num_convex (start_date w) from (num_days_from_ce from - span w)) as [x Hx]; [lia|].
    assert (add_days from (- span w) = Some x) by (apply add_days_spec; lia). congruence.
Qed.

Lemma is_occurrence_from w r d : is_occurrence w r d = true →
  (num_days_from_ce (start_date w) ≤ num_days_from_ce d)%Z.
Proof.
  intros Ho. destruct (decide (num_days_from_ce d < num_days_from_ce (start_date w))%Z) as [Hlt|]; [|lia].
  unfold is_occurrence, position, date_lt, date_le in Ho.
  rewrite (proj2 (Z.ltb_lt _ _) Hlt), (proj2 (Z.leb_gt _ _) Hlt) in Ho. by destruct (rend r).
Qed.

Lemma place_spec w skip moved from to d o : place w skip moved from to d = Some o →
  odate o = d ∧ (d ∈ moved.*1 ∨
    ∃ w', shifted w (days_between (start_date w) d) = Some w' ∧ overlaps w' from to = true).
Proof.
  unfold place, moved_to. destruct (bool_decide (d ∈ skip)); [done|].
  destruct (find _ moved) as [[k v]|] eqn:Ef; cbn.
  - apply find_some in Ef as [Hin Hk]. apply bool_decide_eq_true in Hk. cbn in Hk. subst k.
    destruct (overlaps v from to); intros [= <-]. split; [done|]. left.
    apply list_elem_of_fmap. exists (d, v). split; [done|]. by apply list_elem_of_In.
  - destruct (shifted w _) as [w'|]; cbn; [|done]. destruct (overlaps w' from to) eqn:Eo; intros [= <-].
    split; [done|]. right. by exists w'.
Qed.

Lemma NoDup_placed (put : NaiveDate → option Occurrence) ds : NoDup ds →
  (∀ d o, put d = Some o → odate o = d) → NoDup (odate <$> omap put ds).
Proof.
  intros Hnd Hput. induction Hnd as [|d ds Hd _ IH]; csimpl; [constructor|].
  destruct (put d) as [o|] eqn:Eo; [|done]. csimpl. constructor; [|done]. rewrite (Hput _ _ Eo).
  intros (o' & He & (d' & Hd' & Ho')%list_elem_of_omap)%list_elem_of_fmap. apply Hput in Ho'. congruence.
Qed.

Lemma visited_NoDup (ds : list NaiveDate) :
  StronglySorted (λ a b, num_days_from_ce a < num_days_from_ce b)%Z ds → NoDup ds.
Proof.
  induction 1 as [|d ds _ IH Hd]; constructor; [|done]. intros Hin. rewrite Forall_forall in Hd. specialize (Hd d Hin). lia.
Qed.

#[local] Instance occ_le_total : Total occ_le.
Proof. intros a b. unfold occ_le. lia. Qed.
#[local] Instance occ_le_trans : Transitive occ_le.
Proof. intros a b c. unfold occ_le. lia. Qed.

(** The dates behind an expansion. *)
Lemma expand_dates w r skip moved from to :
  (1 <= interval r)%N → in_years (year (start_date w)) = true → in_years (year to) = true →
  let put := place w skip moved from to in
  let lo := expand_lo w from in
  ∃ ds, expand w (Some r) skip moved from to ≡ₚ
      omap put (ds ++ filter (λ k, is_occurrence w r k = true) (filter (λ k, date_lt k lo || date_lt to k = true) moved.*1)) ∧
    visited (start_date w) r to (num_days_from_ce lo) (EXPAND_MAX + length (remove_dups skip) + length moved) ds ∧
    (ample to (num_days_from_ce lo) (EXPAND_MAX + length (remove_dups skip) + length moved) [] →
     ∀ x, original (start_date w) r x → (num_days_from_ce lo ≤ num_days_from_ce x ≤ num_days_from_ce to)%Z → x ∈ ds).
Proof.
  intros Hi Hys Hyt put lo.
  destruct (loop_visits (start_date w) r to put Hi Hys Hyt (EXPAND_MAX + length (remove_dups skip) + length moved)
    (num_days_from_ce lo) None [] (next_hit (start_date w) r lo)) as (ds & Hl & Hv & Hall); [|done|].
  { pose proof (next_hit_found (start_date w) r lo Hi Hys) as Hf. by destruct (next_hit _ _ _). }
  exists ds. split; [|done]. unfold expand. fold lo put. rewrite Hl, merge_sort_Permutation. cbn [app].
  rewrite omap_app. apply Permutation_app_head. clear. induction (filter _ moved.*1) as [|k l IH]; csimpl; [done|].
  rewrite filter_cons. destruct (is_occurrence w r k) eqn:Ek.
  - rewrite decide_True by done. csimpl. destruct (put k); by rewrite IH.
  - rewrite decide_False by congruence. done.
Qed.

(** A series' expansion is exact: with a window of at most 600 days and
    occurrences of at most a year, an occurrence is listed exactly when its
    date is one of the series and [place] gives it. *)
Lemma expand_members w r skip moved from to o :
  (1 <= interval r)%N → in_years (year (start_date w)) = true → in_years (year to) = true →
  when_ok w → (0 ≤ span w ≤ EXPAND_REACH_DAYS)%Z → (days_between from to ≤ 600)%Z →
  o ∈ expand w (Some r) skip moved from to ↔
  is_occurrence w r (odate o) = true ∧ place w skip moved from to (odate o) = Some o.
Proof.
  intros Hi Hys Hyt Hok Hspan Hdays.
  destruct (expand_dates w r skip moved from to Hi Hys Hyt) as (ds & -> & (_ & _ & Hds) & Hall).
  destruct (expand_lo_spec w from Hspan) as [Hreach Hlo]. set (lo := expand_lo w from) in *.
  assert (Hlos : (num_days_from_ce (start_date w) ≤ num_days_from_ce lo)%Z).
  { unfold lo, expand_lo, date_lt. cbv zeta. destruct (Z.ltb_spec (num_days_from_ce (default (start_date w) (add_days from (- Z.min (span w) EXPAND_REACH_DAYS)))) (num_days_from_ce (start_date w))); lia. }
  assert (Hin : ∀ d, (num_days_from_ce lo ≤ num_days_from_ce d ≤ num_days_from_ce to)%Z →
    is_occurrence w r d = true ↔ original (start_date w) r d).
  { intros d Hd. apply is_occurrence_original; [done..|]. apply (year_between (start_date w) to); [done..|lia]. }
  rewrite list_elem_of_omap. split.
  - intros (d & Hd & Hp). pose proof (place_spec _ _ _ _ _ _ _ Hp) as [-> _]. split; [|done].
    apply elem_of_app in Hd as [Hd|Hd]; [|by apply list_elem_of_filter in Hd as [? _]].
    apply Hds in Hd as [Hor Hc]. by apply Hin.
  - intros [Ho Hp]. exists (odate o). split; [|done]. pose proof (is_occurrence_from _ _ _ Ho) as Hst.
    apply elem_of_app.
    destruct (decide (num_days_from_ce lo ≤ num_days_from_ce (odate o) ≤ num_days_from_ce to)%Z) as [Hc|Hc].
    + left. apply Hall; [|by apply Hin|done]. unfold ample, days_between, EXPAND_REACH_DAYS, EXPAND_MAX in *. cbn [length]. lia.
    + right. destruct (place_spec _ _ _ _ _ _ _ Hp) as [_ [Hm|(w' & Hw & Hov)]].
      * apply list_elem_of_filter. split; [done|]. apply list_elem_of_filter. split; [|done].
        apply orb_true_iff. unfold date_lt. rewrite !Z.ltb_lt. lia.
      * exfalso. pose proof (shifted_overlap _ _ _ _ _ Hok Hw Hov) as [? ?]. apply Hc. split; [|done]. by apply Hlo.
Qed.

(** Sorted, and one occurrence per date. *)
Lemma expand_sorted w r skip moved from to : StronglySorted occ_le (expand w (Some r) skip moved from to).
Proof. unfold expand. apply StronglySorted_merge_sort; apply _. Qed.

Lemma expand_once w r skip moved from to :
  (1 <= interval r)%N → in_years (year (start_date w)) = true → in_years (year to) = true → NoDup moved.*1 →
  NoDup (odate <$> expand w (Some r) skip moved from to).
Proof.
  intros Hi Hys Hyt Hnd. destruct (expand_dates w r skip moved from to Hi Hys Hyt) as (ds & -> & (_ & Hsort & Hds) & _).
  apply NoDup_placed; [|intros d o Hp; by apply place_spec in Hp as [? _]].
  apply NoDup_app. split; [by apply visited_NoDup|]. split; [|by apply NoDup_filter, NoDup_filter].
  intros d [_ Hd]%Hds [_ [Hout _]%list_elem_of_filter]%list_elem_of_filter.
  apply orb_true_iff in Hout. unfold date_lt in Hout. rewrite !Z.ltb_lt in Hout. lia.
Qed.

End NextHit.

(** [next_hit] is the first date of the series at or after a date: what
    it returns is on the rule's pattern, not before [from], and no earlier
    date from [from] on is; it returns nothing only when the pattern names no
    date of a four-digit year from [from] on.  The jumps of the daily, weekly
    and monthly searches lose nothing, and their turn limits are enough. *)
Theorem next_hit_first `{ChronoLaws} start r from :
  (1 <= interval r)%N → in_years (year start) = true → found start r from (next_hit start r from).
Proof. apply next_hit_found. Qed.

(** C24: the expansion of a series is exact.  For an interval of at least one, a
    window of at most 600 days, a task whose own window is at most 366 days,
    year numbers of four digits and no date moved twice: an occurrence is
    listed exactly when its date is an occurrence of the series
    ([is_occurrence]: on the pattern, before the end) and [place] shows it
    (not skipped, its own or moved window overlaps); the list is ordered by
    where the window begins and then by date, and no date is listed twice.
    Within those bounds the caps, [EXPAND_MAX] and [EXPAND_REACH_DAYS], cut
    nothing. *)
Theorem expand_exact `{ChronoLaws} w r skip moved from to :
  (1 <= interval r)%N → in_years (year (start_date w)) = true → in_years (year to) = true →
  when_ok w → (0 ≤ span w ≤ EXPAND_REACH_DAYS)%Z → (days_between from to ≤ 600)%Z → NoDup moved.*1 →
  let os := expand w (Some r) skip moved from to in
  (∀ o, o ∈ os ↔ is_occurrence w r (odate o) = true ∧ place w skip moved from to (odate o) = Some o) ∧
  StronglySorted occ_le os ∧ NoDup (odate <$> os).
Proof.
  intros Hi Hys Hyt Hok Hspan Hdays Hnd os. split; [intros o; by apply expand_members|].
  split; [apply expand_sorted|by apply expand_once].
Qed.
