(* ===== verification/Civil.v ===== *)
(** * The Gregorian calendar

    A concrete calendar with the behaviour the kanban calendar relies on: a
    date is its day number of the common era, its year, month and day follow
    from the leap rule, and the text forms are four, two and two digits.  It
    shows that the class of laws has an instance, and every witness of the
    calendar's theorems evaluates in it. *)

From S2P Require Import Prelude Strs Json Calendar Series.

(** ** Years *)

(** Days before the first of a year. *)
Definition before_year (y : Z) : Z :=
  let p := (y - 1)%Z in (365 * p + p / 4 - p / 100 + p / 400)%Z.

Definition year_len (y : Z) : Z := if leap y then 366 else 365.

Lemma before_year_next y : before_year (y + 1) = (before_year y + year_len y)%Z.
Proof.
  unfold before_year, year_len, leap. cbv zeta. replace (y + 1 - 1)%Z with y by lia.
  destruct (Z.eqb_spec (y mod 4) 0), (Z.eqb_spec (y mod 100) 0), (Z.eqb_spec (y mod 400) 0); cbn [andb orb negb];
    Z.to_euclidean_division_equations; lia.
Qed.

(** The year of a day number: an estimate, off by one at most. *)
Definition civil_year (n : Z) : Z :=
  let e := ((n - 1) * 400 / 146097 + 1)%Z in
  if (before_year (e + 1) <? n)%Z then e + 1 else if (before_year e <? n)%Z then e else e - 1.

Lemma civil_year_spec n : (before_year (civil_year n) < n ≤ before_year (civil_year n + 1))%Z.
Proof.
  unfold civil_year. set (e := ((n - 1) * 400 / 146097 + 1)%Z).
  assert (Hup : (n ≤ before_year (e + 2))%Z) by (unfold before_year, e; Z.to_euclidean_division_equations; lia).
  assert (Hlo : (before_year (e - 1) < n)%Z) by (unfold before_year, e; Z.to_euclidean_division_equations; lia).
  destruct (Z.ltb_spec (before_year (e + 1)) n); [replace (e + 1 + 1)%Z with (e + 2)%Z by lia; lia|].
  destruct (Z.ltb_spec (before_year e) n); [lia|]. replace (e - 1 + 1)%Z with e by lia. lia.
Qed.

Lemma before_year_le a b : (a ≤ b)%Z → (before_year a ≤ before_year b)%Z.
Proof. unfold before_year. intros. Z.to_euclidean_division_equations. lia. Qed.

Lemma civil_year_unique n y : (before_year y < n ≤ before_year (y + 1))%Z → civil_year n = y.
Proof.
  intros Hy. pose proof (civil_year_spec n) as Hn. destruct (Z.lt_trichotomy (civil_year n) y) as [H|[H|H]]; [|done|].
  - pose proof (before_year_le (civil_year n + 1) y). lia.
  - pose proof (before_year_le (y + 1) (civil_year n)). lia.
Qed.

(** ** Months *)

(** Days before the first of a month (0 is January) of a year. *)
Definition before_month (y : Z) (m : N) : Z :=
  foldl (λ acc k, (acc + Z.of_N (month_len y (N.of_nat k + 1)))%Z) 0%Z (seq 0 (N.to_nat m)).

Lemma before_month_next y m : before_month y (m + 1) = (before_month y m + Z.of_N (month_len y (m + 1)))%Z.
Proof.
  unfold before_month. replace (N.to_nat (m + 1)) with (N.to_nat m + 1)%nat by lia.
  rewrite seq_app, foldl_app. cbn [foldl seq]. rewrite Nat.add_0_l, N2Nat.id. done.
Qed.

Lemma before_month_0 y : before_month y 0 = 0%Z.
Proof. done. Qed.

Lemma before_month_12 y : before_month y 12 = year_len y.
Proof. unfold before_month, year_len, month_len. cbn. by destruct (leap y). Qed.

Lemma month_len_pos y m : (28 <= month_len y m <= 31)%N.
Proof. unfold month_len. repeat case_match; lia. Qed.

Lemma before_month_le y a b : (a <= b)%N → (before_month y a ≤ before_month y b)%Z.
Proof.
  intros Hab. replace b with (a + N.of_nat (N.to_nat (b - a)))%N by lia.
  induction (N.to_nat (b - a)) as [|k IH]; [rewrite N.add_0_r; lia|].
  replace (a + N.of_nat (S k))%N with (a + N.of_nat k + 1)%N by lia. rewrite before_month_next. lia.
Qed.

(** The month of a day of the year: the last that begins before it. *)
Fixpoint find_month (y : Z) (doy : Z) (m : nat) : N :=
  match m with
  | O => 0
  | S m => if (before_month y (N.of_nat (S m)) <? doy)%Z then N.of_nat (S m) else find_month y doy m
  end.

Lemma find_month_spec y doy m : (0 < doy ≤ before_month y (N.of_nat m + 1))%Z →
  (find_month y doy m <= N.of_nat m)%N ∧
  (before_month y (find_month y doy m) < doy ≤ before_month y (find_month y doy m + 1))%Z.
Proof.
  induction m as [|m IH]; intros Hd; cbn [find_month]; 
    [change (N.of_nat 0) with 0%N in *; change (before_month y 0) with 0%Z; lia|].
  destruct (Z.ltb_spec (before_month y (N.of_nat (S m))) doy) as [Hlt|Hge]; [lia|].
  destruct IH as [Hle Hb]; [replace (N.of_nat m + 1)%N with (N.of_nat (S m)) by lia; lia|]. split; [lia|done].
Qed.

Lemma month_unique y doy a b : (before_month y a < doy ≤ before_month y (a + 1))%Z →
  (before_month y b < doy ≤ before_month y (b + 1))%Z → a = b.
Proof.
  intros Ha Hb. destruct (N.lt_trichotomy a b) as [H|[H|H]]; [|done|].
  - pose proof (before_month_le y (a + 1) b ltac:(lia)). lia.
  - pose proof (before_month_le y (b + 1) a ltac:(lia)). lia.
Qed.

(** ** Dates *)

Definition civil_doy (n : Z) : Z := (n - before_year (civil_year n))%Z.
Definition civil_month0 (n : Z) : N := find_month (civil_year n) (civil_doy n) 11.
Definition civil_day (n : Z) : N := Z.to_N (civil_doy n - before_month (civil_year n) (civil_month0 n)).
Definition civil_weekday (n : Z) : Weekday :=
  match Z.to_N ((n - 1) mod 7) with
  | 0 => Mon | 1 => Tue | 2 => Wed | 3 => Thu | 4 => Fri | 5 => Sat | _ => Sun
  end%N.

Definition civil_from_ymd (y : Z) (m d : N) : option Z :=
  if (1 <=? m)%N && (m <=? 12)%N && (1 <=? d)%N && (d <=? month_len y m)%N
  then Some (before_year y + before_month y (m - 1) + Z.of_N d)%Z else None.

#[local] Opaque find_month before_month before_year civil_year.

(** A date is its year, month and day. *)
Lemma civil_spec n :
  (civil_month0 n < 12)%N ∧ (1 <= civil_day n <= month_len (civil_year n) (civil_month0 n + 1))%N ∧
  n = (before_year (civil_year n) + before_month (civil_year n) (civil_month0 n) + Z.of_N (civil_day n))%Z.
Proof.
  pose proof (civil_year_spec n) as Hy. rewrite before_year_next in Hy.
  destruct (find_month_spec (civil_year n) (civil_doy n) 11) as [Hm Hb].
  { change (N.of_nat 11 + 1)%N with 12%N. rewrite before_month_12. unfold civil_doy. lia. }
  change (find_month (civil_year n) (civil_doy n) 11) with (civil_month0 n) in Hm, Hb. rewrite before_month_next in Hb. unfold civil_day. split; [lia|]. split; [lia|].
  unfold civil_doy in *. lia.
Qed.

Lemma civil_unique n y m d : (m < 12)%N → (1 <= d <= month_len y (m + 1))%N →
  n = (before_year y + before_month y m + Z.of_N d)%Z →
  civil_year n = y ∧ civil_month0 n = m ∧ civil_day n = d.
Proof.
  intros Hm Hd ->. pose proof (before_month_le y (m + 1) 12 ltac:(lia)) as Hle.
  rewrite before_month_12, before_month_next in Hle. pose proof (before_month_le y 0 m ltac:(lia)) as H0.
  rewrite before_month_0 in H0.
  set (n := (before_year y + before_month y m + Z.of_N d)%Z).
  assert (Hy : civil_year n = y) by (apply civil_year_unique; rewrite before_year_next; unfold n; lia).
  destruct (civil_spec n) as (Hm' & Hd' & Hn). rewrite Hy in *.
  assert (civil_month0 n = m) as Hmm.
  { apply (month_unique y (n - before_year y)); rewrite before_month_next; [lia|unfold n; lia]. }
  rewrite Hmm in *. split; [done|]. split; [done|]. unfold n in *. lia.
Qed.

Lemma civil_from_ymd_spec y m d n : civil_from_ymd y m d = Some n ↔
  civil_year n = y ∧ (civil_month0 n + 1)%N = m ∧ civil_day n = d.
Proof.
  unfold civil_from_ymd. pose proof (civil_spec n) as (Hm & Hd & Hn). split.
  - case_match eqn:E; [|done]. to_prop. intros [= <-].
    destruct (civil_unique (before_year y + before_month y (m - 1) + Z.of_N d) y (m - 1) d) as (-> & -> & ->);
      [lia|replace (m - 1 + 1)%N with m by lia; lia|done|]. split; [done|]. split; [lia|done].
  - intros (Hy & <- & <-). rewrite Hy in *. rewrite N.add_sub.
    replace (_ && _) with true; [by rewrite <-Hn|]. symmetry. rewrite !andb_true_iff, !N.leb_le. lia.
Qed.

Lemma civil_order a b : (a < b)%Z ↔
  (civil_year a * 12 + Z.of_N (civil_month0 a) < civil_year b * 12 + Z.of_N (civil_month0 b))%Z ∨
  (civil_year a * 12 + Z.of_N (civil_month0 a) = civil_year b * 12 + Z.of_N (civil_month0 b))%Z ∧
  (civil_day a < civil_day b)%N.
Proof.
  destruct (civil_spec a) as (Hma & Hda & Ha), (civil_spec b) as (Hmb & Hdb & Hb).
  assert (Hlt : ∀ x y, (civil_year x * 12 + Z.of_N (civil_month0 x) < civil_year y * 12 + Z.of_N (civil_month0 y))%Z → (x < y)%Z).
  { intros x y Hxy. destruct (civil_spec x) as (Hmx & Hdx & Hx), (civil_spec y) as (Hmy & Hdy & Hy).
    pose proof (before_month_le (civil_year x) (civil_month0 x + 1) 12 ltac:(lia)) as H12.
    rewrite before_month_12, before_month_next in H12.
    destruct (decide (civil_year x = civil_year y)) as [He|Hne].
    - rewrite He in *. pose proof (before_month_le (civil_year y) (civil_month0 x + 1) (civil_month0 y) ltac:(lia)) as Hle.
      rewrite before_month_next in Hle. lia.
    - pose proof (before_year_le (civil_year x + 1) (civil_year y) ltac:(lia)) as Hle. rewrite before_year_next in Hle.
      pose proof (before_month_le (civil_year y) 0 (civil_month0 y) ltac:(lia)) as H0.
      rewrite before_month_0 in H0. lia. }
  pose proof (Hlt a b) as Hab. pose proof (Hlt b a) as Hba.
  destruct (Z.lt_trichotomy (civil_year a * 12 + Z.of_N (civil_month0 a)) (civil_year b * 12 + Z.of_N (civil_month0 b))) as [H|[H|H]]; [lia| |lia].
  assert (civil_year a = civil_year b) as Hy by lia. assert (civil_month0 a = civil_month0 b) as Hm by lia.
  rewrite Hy, Hm in *. lia.
Qed.

(** ** Text *)

Definition dig (n : N) : ascii := Ascii.ascii_of_N (48 + n mod 10).
Definition undig (c : ascii) : option N :=
  let n := Ascii.N_of_ascii c in if (48 <=? n)%N && (n <=? 57)%N then Some (n - 48)%N else None.

Lemma undig_dig n : undig (dig n) = Some (n mod 10)%N.
Proof.
  unfold dig, undig. assert (n mod 10 < 10)%N as Hn by (by apply N.mod_upper_bound).
  revert Hn. generalize (n mod 10)%N as m. intros m Hm. rewrite Ascii.N_ascii_embedding by lia.
  rewrite (proj2 (N.leb_le _ _)), (proj2 (N.leb_le _ _)) by lia. cbn [andb]. f_equal. lia.
Qed.

Definition chars2 (n : N) : list ascii := [dig (n / 10); dig n].
Definition chars4 (n : N) : list ascii := chars2 (n / 100) ++ chars2 n.

Definition read2 (a b : ascii) : option N := x ← undig a; y ← undig b; Some (10 * x + y)%N.

Lemma read2_chars n : (n < 100)%N → read2 (dig (n / 10)) (dig n) = Some n.
Proof.
  intros Hn. unfold read2. rewrite !undig_dig. cbn [mbind option_bind]. f_equal.
  pose proof (N.div_mod' n 10). rewrite (N.mod_small (n / 10)); [lia|]. apply N.Div0.div_lt_upper_bound. lia.
Qed.

Definition date_chars (n : Z) : list ascii :=
  chars4 (Z.to_N (civil_year n)) ++ ["-"%char] ++ chars2 (civil_month0 n + 1) ++ ["-"%char] ++ chars2 (civil_day n).

Definition read_date (l : list ascii) : option Z :=
  match l with
  | [a; b; c; d; h1; e; f; h2; g; h] =>
      if bool_decide (h1 = "-"%char ∧ h2 = "-"%char)
      then hi ← read2 a b; lo ← read2 c d; m ← read2 e f; d ← read2 g h;
           civil_from_ymd (Z.of_N (100 * hi + lo)) m d
      else None
  | _ => None
  end.

Definition time_chars (m : N) : list ascii := chars2 (m / 60) ++ [":"%char] ++ chars2 (m mod 60).

Definition read_datetime (l : list ascii) : option (Z * N) :=
  match drop 10 l with
  | [t; a; b; c; d; e] =>
      if bool_decide (t = "T"%char ∧ c = ":"%char)
      then day ← read_date (take 10 l); h ← read2 a b; m ← read2 d e;
           if (h <? 24)%N && (m <? 60)%N then Some (day, 60 * h + m)%N else None
      else None
  | _ => None
  end.

Lemma date_chars_shape n : ∃ a b c d e f g h,
  date_chars n = [a; b; c; d; "-"%char; e; f; "-"%char; g; h] ∧
  ((0 ≤ civil_year n ≤ 9999)%Z → read2 a b = Some (Z.to_N (civil_year n) / 100)%N ∧
     read2 c d = Some (Z.to_N (civil_year n) mod 100)%N) ∧
  read2 e f = Some (civil_month0 n + 1)%N ∧ read2 g h = Some (civil_day n).
Proof.
  destruct (civil_spec n) as (Hm & Hd & _). pose proof (month_len_pos (civil_year n) (civil_month0 n + 1)).
  do 8 eexists. split; [done|]. split; [|split; apply read2_chars; lia].
  intros Hy. set (y := Z.to_N (civil_year n)). split; [apply read2_chars; apply N.Div0.div_lt_upper_bound; lia|].
  unfold read2. rewrite !undig_dig. cbn [mbind option_bind]. f_equal.
  change 100%N with (10 * 10)%N. rewrite N.Div0.mod_mul_r. lia.
Qed.

Lemma read_date_chars n : (0 ≤ civil_year n ≤ 9999)%Z → read_date (date_chars n) = Some n.
Proof.
  intros Hy. destruct (date_chars_shape n) as (a & b & c & d & e & f & g & h & -> & Hyr & Hm & Hd).
  destruct (Hyr Hy) as [H1 H2]. cbn [read_date]. rewrite bool_decide_eq_true_2 by done.
  rewrite H1, H2, Hm, Hd. cbn [mbind option_bind]. apply civil_from_ymd_spec. split; [|done].
  pose proof (N.div_mod' (Z.to_N (civil_year n)) 100). lia.
Qed.

Lemma read_datetime_chars n m : (0 ≤ civil_year n ≤ 9999)%Z → (m < 1440)%N →
  read_datetime (date_chars n ++ ["T"%char] ++ time_chars m) = Some (n, m).
Proof.
  intros Hy Hm. pose proof (read_date_chars n Hy) as Hr.
  destruct (date_chars_shape n) as (a & b & c & d & e & f & g & h & Heq & _). rewrite Heq in *.
  unfold read_datetime, time_chars, chars2. cbn [app drop take]. rewrite bool_decide_eq_true_2 by done.
  rewrite Hr. assert (m / 60 < 24)%N by (apply N.Div0.div_lt_upper_bound; lia).
  assert (m mod 60 < 60)%N by (by apply N.mod_upper_bound).
  rewrite !read2_chars by lia. cbn [mbind option_bind].
  rewrite (proj2 (N.ltb_lt _ _)), (proj2 (N.ltb_lt _ _)) by done. cbn [andb]. do 2 f_equal.
  pose proof (N.div_mod' m 60). lia.
Qed.

Lemma read_datetime_minute l t : read_datetime l = Some t → (t.2 < 1440)%N.
Proof.
  unfold read_datetime. repeat case_match; try done. to_prop. intros (? & _ & Ht)%bind_Some.
  apply bind_Some in Ht as (h & _ & Ht). apply bind_Some in Ht as (m & _ & Ht).
  case_match eqn:E; [|done]. injection Ht as <-. to_prop. cbn [snd]. lia.
Qed.

Lemma read_date_time n m : read_date (date_chars n ++ ["T"%char] ++ time_chars m) = None.
Proof. by destruct (date_chars_shape n) as (a & b & c & d & e & f & g & h & -> & _). Qed.

(** ** The instance *)

Definition civil : Chrono := {|
  NaiveDate := Z;
  num_days_from_ce n := n;
  year := civil_year;
  month0 := civil_month0;
  day := civil_day;
  weekday := civil_weekday;
  from_ymd_opt := civil_from_ymd;
  add_days d n := Some (d + n)%Z;
  date_from_str s := read_date (String.list_ascii_of_string s);
  date_format n := String.string_of_list_ascii (date_chars n);
  datetime_from_str s := read_datetime (String.list_ascii_of_string s);
  datetime_format t := String.string_of_list_ascii (date_chars t.1 ++ ["T"%char] ++ time_chars t.2);
|}.

#[export] Existing Instance civil.

#[export] Instance civil_laws : ChronoLaws.
Proof.
  assert (Hyears : ∀ d : Z, in_years (civil_year d) = true → (0 ≤ civil_year d ≤ 9999)%Z).
  { unfold in_years. intros d Hd. to_prop. lia. }
  split; unfold month_number; cbn [NaiveDate num_days_from_ce year month0 day weekday from_ymd_opt add_days date_from_str
    date_format datetime_from_str datetime_format civil fst snd].
  - done.
  - intros a b z _. by exists z.
  - intros d n e. split; [by intros [= <-]|by intros ->].
  - intros d. unfold civil_weekday. pose proof (Z.mod_pos_bound (d - 1) 7 ltac:(done)) as Hm.
    revert Hm. generalize ((d - 1) mod 7)%Z. intros m Hm.
    assert (m ∈ [0; 1; 2; 3; 4; 5; 6]%Z) as Hin by (rewrite !elem_of_cons; lia).
    repeat (apply elem_of_cons in Hin as [->|Hin]; [done|]). by apply elem_of_nil in Hin.
  - intros d. apply civil_spec.
  - apply civil_from_ymd_spec.
  - intros a b. apply civil_order.
  - intros y m d _. unfold civil_from_ymd. case_match eqn:E.
    + to_prop. split; [lia|by eexists].
    + split; [by intros [? ?]|]. intros Hmd. apply not_true_iff_false in E. destruct E.
      rewrite !andb_true_iff, !N.leb_le. lia.
  - intros d Hd%Hyears. pose proof (civil_year_spec d) as Hs.
    pose proof (before_year_le 0 (civil_year d) ltac:(lia)). pose proof (before_year_le (civil_year d + 1) 10000 ltac:(lia)).
    change (before_year 0) with (-366)%Z in *. change (before_year 10000) with 3652059%Z in *. lia.
  - intros d Hd%Hyears. rewrite String.list_ascii_of_string_of_list_ascii. by apply read_date_chars.
  - intros [d m] Hd%Hyears Hm. rewrite String.list_ascii_of_string_of_list_ascii. by apply read_datetime_chars.
  - intros s t. apply read_datetime_minute.
  - intros [d m]. rewrite String.list_ascii_of_string_of_list_ascii. apply read_date_time.
Qed.

(** ** A monthly series on the 31st *)

Module CivilRun.

Definition on (y : Z) (m d : N) : NaiveDate := default 0%Z (civil_from_ymd y m d).

Definition last_day : Repeat := {| freq := Monthly; interval := 1; byday := []; rend := Open |}.
Definition pay_day : When := AllDay (on 2026 1 31) (on 2026 1 31).

(** February, April and June have no 31st: July's is the fourth. *)
Lemma position_is_walk_witness :
  position (on 2026 1 31) last_day (on 2026 7 31) = Some 3%N ∧
  position (on 2026 1 31) last_day (on 2026 7 31) =
    (if decide (hits (on 2026 1 31) last_day (on 2026 7 31))
     then Some (len (walk (on 2026 1 31) last_day (on 2026 7 31))) else None) ∧
  position_hit (on 2026 1 31) last_day (on 2026 7 31) = bool_decide (hits (on 2026 1 31) last_day (on 2026 7 31)).
Proof. split; [by vm_compute|]. apply (position_is_walk (on 2026 1 31) last_day (on 2026 7 31)); by vm_compute. Defined.

Lemma next_hit_first_witness :
  next_hit (on 2026 1 31) last_day (on 2026 4 2) = Some (on 2026 5 31) ∧
  found (on 2026 1 31) last_day (on 2026 4 2) (next_hit (on 2026 1 31) last_day (on 2026 4 2)).
Proof. split; [by vm_compute|]. apply (next_hit_first (on 2026 1 31) last_day (on 2026 4 2)); by vm_compute. Defined.

(** May's is skipped and July's moved into the window. *)
Definition july_moved : list (NaiveDate * When) := [(on 2026 7 31, AllDay (on 2026 6 3) (on 2026 6 3))].

Lemma expand_exact_witness :
  let os := expand pay_day (Some last_day) [on 2026 5 31] july_moved (on 2026 3 1) (on 2026 6 30) in
  odate <$> os = [on 2026 3 31; on 2026 7 31] ∧
  (∀ o, o ∈ os ↔ is_occurrence pay_day last_day (odate o) = true ∧
     place pay_day [on 2026 5 31] july_moved (on 2026 3 1) (on 2026 6 30) (odate o) = Some o) ∧
  StronglySorted occ_le os ∧ NoDup (odate <$> os).
Proof.
  intros os. split; [by vm_compute|].
  apply (expand_exact pay_day last_day [on 2026 5 31] july_moved (on 2026 3 1) (on 2026 6 30));
    [by vm_compute..| |]; [by vm_compute|]. unfold july_moved. cbn. apply NoDup_singleton.
Defined.

End CivilRun.
