(* ===== verification/Cycle.v ===== *)
(** * Cycles of prerequisites

    crates/molt-core/src/kanban_fold.rs [find_cycle]: an iterative depth-first
    search for a cycle of [blocked_by] links.  The graph is a map from a task
    to its links; only links to known tasks count.  One fuel serves all the
    roots and running out of it is an answer of its own, [OutOfFuel]; the fuel
    given is shown to be enough, the answer to be right both ways. *)

From stdpp Require Import gmap strings relations.
From S2P Require Import Prelude.

(** A task's links. *)
Abbreviation graph := (gmap string (list string)).

Inductive dfs_result :=
  | Found (id : string)
  | Finished (color : gmap string N) (spare : nat)
  | OutOfFuel.

(** The [while let] loop: 1 is on the current path, 2 is done.  A search that
    ends says how much fuel is left. *)
Fixpoint dfs (g : graph) (fuel : nat) (color : gmap string N) (stack : list (string * nat)) : dfs_result :=
  match fuel with
  | O => OutOfFuel
  | S fuel =>
      match stack with
      | [] => Finished color fuel
      | (node, i) :: stack =>
          match default [] (g !! node) !! i with
          | Some next =>
              let stack := (node, S i) :: stack in
              match color !! next with
              | Some c => if (c =? 1)%N then Found next else dfs g fuel color stack
              | None =>
                  match g !! next with
                  | Some _ => dfs g fuel (<[next := 1%N]> color) ((next, O) :: stack)
                  | None => dfs g fuel color stack
                  end
              end
          | None => dfs g fuel (<[node := 2%N]> color) stack
          end
      end
  end.

(** Every node is finished once and every link is followed once. *)
Definition work (g : graph) (color : gmap string N) : nat :=
  sum_list_with (λ nl, if decide (color !! nl.1 = None) then S (length nl.2) else O) (map_to_list g).

(** One step for every task, for every link, and for every root. *)
Definition cycle_fuel (g : graph) (roots : list string) : nat := (work g ∅ + length roots)%nat.

Fixpoint search_roots (g : graph) (fuel : nat) (color : gmap string N) (roots : list string) : dfs_result :=
  match roots with
  | [] => Finished color fuel
  | r :: roots =>
      match color !! r, g !! r with
      | None, Some _ =>
          match dfs g fuel (<[r := 1%N]> color) [(r, O)] with
          | Finished color fuel => search_roots g fuel color roots
          | res => res
          end
      | _, _ => search_roots g fuel color roots
      end
  end.

(** The answer: a task, none, or a search that did not end within its fuel. *)
Inductive cycle_answer :=
  | Cycle (id : string)
  | NoCycle
  | Unfinished.

Definition answer_of (res : dfs_result) : cycle_answer :=
  match res with Found id => Cycle id | Finished _ _ => NoCycle | OutOfFuel => Unfinished end.

Definition find_cycle (g : graph) (roots : list string) : cycle_answer :=
  answer_of (search_roots g (cycle_fuel g roots) ∅ roots).

(** ** The graph *)

(** [n] is blocked by the known task [m]. *)
Definition edge (g : graph) (n m : string) : Prop :=
  m ∈ default [] (g !! n) ∧ is_Some (g !! m).

(** No path of links from [n] goes on for ever. *)
Definition grounded (g : graph) (n : string) : Prop := Acc (λ m n, edge g n m) n.

Lemma grounded_no_cycle g n x : grounded g n → rtc (edge g) n x → ¬ tc (edge g) x x.
Proof.
  intros Hn Hr. assert (Hx : grounded g x).
  { induction Hr as [|a b c Hab _ IH]; [done|]. apply IH. by destruct Hn as [Hn]; apply Hn. }
  clear Hn Hr. induction Hx as [x _ IH]. intros Hc.
  assert (∃ y, edge g x y ∧ tc (edge g) y y) as (y & Hxy & Hy); [|by apply (IH y Hxy)].
  inversion Hc as [a b Hxx|a y b Hxy Hyx]; subst; [by exists x|exists y; split; [done|]]. by eapply tc_r.
Qed.

(** ** The invariant of the search *)

(** The frames of the stack, top first: a frame's followed links are done, or
    the last of them is the frame above. *)
Fixpoint frames (g : graph) (color : gmap string N) (above : option string) (stack : list (string * nat)) : Prop :=
  match stack with
  | [] => True
  | (n, i) :: stack =>
      is_Some (g !! n) ∧ (i ≤ length (default [] (g !! n)))%nat ∧
      (∀ k m, (k < i)%nat → default [] (g !! n) !! k = Some m → is_Some (g !! m) →
         color !! m = Some 2%N ∨ above = Some m) ∧
      (∀ m, above = Some m → edge g n m) ∧
      frames g color (Some n) stack
  end.

Record search_inv (g : graph) (color : gmap string N) (stack : list (string * nat)) : Prop := {
  si_frames : frames g color None stack;
  si_grey n : color !! n = Some 1%N → n ∈ stack.*1;
  si_black n : color !! n = Some 2%N → grounded g n;
  si_colors n c : color !! n = Some c → c = 1%N ∨ c = 2%N;
}.

Lemma frames_path g color above stack n x : frames g color above stack → above = Some n →
  x ∈ stack.*1 → rtc (edge g) x n.
Proof.
  revert above n. induction stack as [|[y i] stack IH]; intros above n Hf Ha Hx; [by apply elem_of_nil in Hx|].
  destruct Hf as (_ & _ & _ & He & Hf). specialize (He n Ha). csimpl in Hx.
  apply elem_of_cons in Hx as [->|Hx]; [by apply rtc_once|].
  eapply rtc_r; [|done]. by eapply IH.
Qed.

Lemma frames_known g color above stack x : frames g color above stack → x ∈ stack.*1 → is_Some (g !! x).
Proof.
  revert above. induction stack as [|[y i] stack IH]; intros above Hf Hx; [by apply elem_of_nil in Hx|].
  destruct Hf as (Hy & _ & _ & _ & Hf). csimpl in Hx. apply elem_of_cons in Hx as [->|Hx]; [done|by eapply IH].
Qed.

(** Colouring keeps what the frames know. *)
Lemma frames_mono g color color' above stack : frames g color above stack →
  (∀ m, color !! m = Some 2%N → color' !! m = Some 2%N) → frames g color' above stack.
Proof.
  intros Hf Hc. revert above Hf. induction stack as [|[n i] stack IH]; intros above; [done|].
  intros (Hn & Hi & Hk & He & Hf). split; [done|]. split; [done|]. split; [|split; [done|by apply IH]].
  intros k m Hki Hm Hg. destruct (Hk k m Hki Hm Hg); [left; by apply Hc|by right].
Qed.

(** The frame below a finished node has that link done. *)
Lemma frames_pop g color n stack : frames g color (Some n) stack → color !! n = Some 2%N → frames g color None stack.
Proof.
  destruct stack as [|[x i] stack]; [done|]. intros (Hn & Hi & Hk & He & Hf) Hc.
  split; [done|]. split; [done|]. split; [|split; [done|done]].
  intros k m Hki Hm Hg. left. destruct (Hk k m Hki Hm Hg) as [?|[= ->]]; done.
Qed.

(** ** The measure *)

Definition stack_work (g : graph) (stack : list (string * nat)) : nat :=
  sum_list_with (λ f, S (length (default [] (g !! f.1)) - f.2)) stack.

Lemma work_color g color x l c : g !! x = Some l → color !! x = None →
  work g color = (S (length l) + work g (<[x := c]> color))%nat.
Proof.
  intros Hx Hc. unfold work. rewrite <-(insert_delete_id g x l Hx).
  rewrite !(map_to_list_insert (delete x g) x l (lookup_delete_eq g x)).
  cbn [sum_list_with fst snd]. rewrite lookup_insert_eq, decide_True, decide_False by done. rewrite Nat.add_0_l. f_equal.
  assert (Hne : ∀ nl, nl ∈ map_to_list (delete x g) → nl.1 ≠ x).
  { intros [n l'] Hin%elem_of_map_to_list Hn. cbn in Hn. subst n. by rewrite lookup_delete_eq in Hin. }
  revert Hne. generalize (map_to_list (delete x g)) as ls. intros ls.
  induction ls as [|nl ls IH]; intros Hne; [done|]. cbn [sum_list_with].
  rewrite lookup_insert_ne by (intros ->; by apply (Hne nl); [constructor|]).
  f_equal. apply IH. intros nl' Hnl. apply Hne. by constructor.
Qed.

Lemma work_mono g color color' : (∀ n, is_Some (color !! n) → is_Some (color' !! n)) →
  (work g color' ≤ work g color)%nat.
Proof.
  intros Hc. unfold work. induction (map_to_list g) as [|nl ls IH]; [done|]. cbn [sum_list_with].
  destruct (decide (color !! nl.1 = None)) as [Hn|Hn]; [destruct (decide (color' !! nl.1 = None)); lia|].
  rewrite decide_False; [lia|]. intros Hn'. apply not_eq_None_Some, Hc in Hn. rewrite Hn' in Hn. by destruct Hn.
Qed.

(** ** Correctness of the loop *)

Section Search.
Variable g : graph.

(** The next link of the top frame, when it needs no visit. *)
Lemma inv_follow color n i next stack : search_inv g color ((n, i) :: stack) →
  default [] (g !! n) !! i = Some next → (color !! next = Some 2%N ∨ g !! next = None) →
  search_inv g color ((n, S i) :: stack).
Proof.
  intros [Hf Hg Hb Hc] Hnext Hdone. destruct Hf as (Hn & Hi & Hk & He & Hf). split; [|done..].
  split; [done|]. split; [by apply lookup_lt_Some in Hnext|]. split; [|done].
  intros k m Hki Hm Hgm. destruct (decide (k = i)) as [->|]; [|apply (Hk k m); [lia|done..]].
  rewrite Hnext in Hm. injection Hm as <-. destruct Hdone as [?|Hno]; [by left|]. rewrite Hno in Hgm. by destruct Hgm.
Qed.

Lemma inv_visit color n i next stack : search_inv g color ((n, i) :: stack) →
  default [] (g !! n) !! i = Some next → color !! next = None → is_Some (g !! next) →
  search_inv g (<[next := 1%N]> color) ((next, O) :: (n, S i) :: stack).
Proof.
  intros [Hf Hg Hb Hc] Hnext Hnew Hgn.
  assert (Hmono : ∀ m, color !! m = Some 2%N → <[next := 1%N]> color !! m = Some 2%N).
  { intros m Hm. rewrite lookup_insert_ne; [done|]. intros ->. congruence. }
  destruct Hf as (Hn & Hi & Hk & He & Hf). split.
  - split; [done|]. split; [lia|]. split; [intros; lia|]. split; [done|].
    split; [done|]. split; [by apply lookup_lt_Some in Hnext|]. split; [|split].
    + intros k m Hki Hm Hgm. destruct (decide (k = i)) as [->|]; [right; congruence|].
      destruct (Hk k m ltac:(lia) Hm Hgm) as [?|?]; [left; by apply Hmono|done].
    + intros m [= <-]. split; [|done]. by eapply list_elem_of_lookup_2.
    + by eapply frames_mono.
  - intros m. csimpl. destruct (decide (m = next)) as [->|]; [by constructor|].
    rewrite lookup_insert_ne by done. intros Hm%Hg. by constructor.
  - intros m. destruct (decide (m = next)) as [->|]; [by rewrite lookup_insert_eq|].
    rewrite lookup_insert_ne by done. apply Hb.
  - intros m c. destruct (decide (m = next)) as [->|]; [rewrite lookup_insert_eq; intros [= <-]; by left|].
    rewrite lookup_insert_ne by done. apply Hc.
Qed.

Lemma inv_finish color n i stack : search_inv g color ((n, i) :: stack) →
  default [] (g !! n) !! i = None → search_inv g (<[n := 2%N]> color) stack.
Proof.
  intros [Hf Hg Hb Hc] Hend. destruct Hf as (Hn & Hi & Hk & He & Hf).
  assert (Hmono : ∀ m, color !! m = Some 2%N → <[n := 2%N]> color !! m = Some 2%N).
  { intros m Hm. destruct (decide (m = n)) as [->|]; [apply lookup_insert_eq|by rewrite lookup_insert_ne]. }
  split.
  - apply (frames_pop _ _ n); [by eapply frames_mono|apply lookup_insert_eq].
  - intros m. destruct (decide (m = n)) as [->|]; [by rewrite lookup_insert_eq|]. rewrite lookup_insert_ne by done.
    intros Hm%Hg. csimpl in Hm. by apply elem_of_cons in Hm as [?|?].
  - intros m. destruct (decide (m = n)) as [->|]; [|rewrite lookup_insert_ne by done; apply Hb]. intros _.
    constructor. intros x [Hx Hgx]. apply list_elem_of_lookup in Hx as [k Hx]. apply Hb.
    apply lookup_ge_None in Hend. pose proof (lookup_lt_Some _ _ _ Hx). by destruct (Hk k x ltac:(lia) Hx Hgx).
  - intros m c. destruct (decide (m = n)) as [->|]; [rewrite lookup_insert_eq; intros [= <-]; by right|].
    rewrite lookup_insert_ne by done. apply Hc.
Qed.

(** What a search says, started with the given colours: it does not run out
    of fuel, and it pays at most one unit for every task it colours, for every
    link of one and for every frame it was handed, plus one. *)
Definition search_ok (R : string → Prop) (color : gmap string N) (budget fuel : nat) (res : dfs_result) : Prop :=
  match res with
  | Found id => tc (edge g) id id ∧ ∃ r, R r ∧ rtc (edge g) r id
  | Finished color' spare =>
      search_inv g color' [] ∧ (∀ n, is_Some (color !! n) → is_Some (color' !! n)) ∧
      (fuel + work g color' ≤ spare + budget + 1)%nat
  | OutOfFuel => False
  end.

Lemma search_ok_mono R color color' budget budget' fuel fuel' res :
  (∀ n, is_Some (color !! n) → is_Some (color' !! n)) → (fuel' + budget ≤ fuel + budget')%nat →
  search_ok R color' budget fuel res → search_ok R color budget' fuel' res.
Proof. intros Hc Hf. destruct res; simpl; [done| |done]. intros (? & Hn & ?). split; [done|]. split; [auto|lia]. Qed.

(** Every task on the stack is reached from the task at its bottom. *)
Definition rooted (R : string → Prop) (stack : list (string * nat)) : Prop :=
  ∀ x, x ∈ stack.*1 → ∃ r, R r ∧ rtc (edge g) r x.

Lemma stack_work_cons n i stack :
  stack_work g ((n, i) :: stack) = (S (length (default [] (g !! n)) - i) + stack_work g stack)%nat.
Proof. reflexivity. Qed.

Lemma dfs_correct R fuel color stack : search_inv g color stack → rooted R stack →
  (work g color + stack_work g stack < fuel)%nat →
  search_ok R color (work g color + stack_work g stack) fuel (dfs g fuel color stack).
Proof.
  revert color stack. induction fuel as [|fuel IH]; intros color stack Hinv Hroot Hfuel; [lia|]. cbn [dfs].
  destruct stack as [|[n i] stack]; [split; [done|]; split; [done|]; cbn; lia|]. rewrite stack_work_cons in *.
  destruct (default [] (g !! n) !! i) as [next|] eqn:Enext.
  - pose proof (lookup_lt_Some _ _ _ Enext) as Hlt.
    assert (Hskip : color !! next = Some 2%N ∨ g !! next = None →
      search_ok R color (work g color + (S (length (default [] (g !! n)) - i) + stack_work g stack)) (S fuel)
        (dfs g fuel color ((n, S i) :: stack))).
    { intros Hd. assert (Hw : stack_work g ((n, S i) :: stack) = (length (default [] (g !! n)) - i + stack_work g stack)%nat)
        by (rewrite stack_work_cons; lia).
      eapply search_ok_mono; [| |apply IH; [by eapply inv_follow|done|]]; [done|rewrite Hw; lia..]. }
    destruct (color !! next) as [c|] eqn:Ec.
    + destruct (N.eqb_spec c 1) as [->|Hc1].
      * destruct Hinv as [Hf Hg _ _]. specialize (Hg next Ec). csimpl in Hg. destruct Hf as (Hn & _ & _ & _ & Hf).
        split; [|by apply Hroot].
        assert (edge g n next) as He; [|apply elem_of_cons in Hg as [->|Hin]; [by apply tc_once|]].
        { split; [by eapply list_elem_of_lookup_2|]. apply elem_of_cons in Hg as [->|Hin]; [done|].
          by eapply frames_known. }
        eapply tc_rtc_l; [by eapply frames_path|by apply tc_once].
      * apply Hskip. left. destruct Hinv as [_ _ _ Hcol]. destruct (Hcol next c Ec); congruence.
    + destruct (g !! next) as [l|] eqn:Eg; [|apply Hskip; by right].
      pose proof (work_color g color next l 1 Eg Ec) as Hwork.
      assert (Hw : stack_work g ((next, O) :: (n, S i) :: stack) =
        (S (length l) + (length (default [] (g !! n)) - i + stack_work g stack))%nat).
      { rewrite !stack_work_cons, Eg. change (default [] (Some l)) with l. lia. }
      apply (search_ok_mono R _ (<[next := 1%N]> color)
        (work g (<[next := 1%N]> color) + stack_work g ((next, O) :: (n, S i) :: stack)) _ fuel);
        [intros m Hm; rewrite lookup_insert_is_Some'; by right|rewrite Hw; lia|].
      apply IH; [apply inv_visit; [done..|by eexists]| |rewrite Hw; lia].
      intros x. csimpl. intros [->|Hx]%elem_of_cons; [|by apply Hroot].
      destruct (Hroot n) as (r & Hr & Hp); [constructor|]. exists r. split; [done|]. eapply rtc_r; [done|].
      split; [by eapply list_elem_of_lookup_2|by eexists].
  - pose proof (work_mono g color (<[n := 2%N]> color)
      (λ m Hm, proj2 (lookup_insert_is_Some' color n m 2%N) (or_intror Hm))).
    apply (search_ok_mono R _ (<[n := 2%N]> color) (work g (<[n := 2%N]> color) + stack_work g stack) _ fuel);
      [intros m Hm; rewrite lookup_insert_is_Some'; by right|lia|].
    apply IH; [by eapply inv_finish| |lia]. intros x Hx. apply Hroot. csimpl. by constructor.
Qed.

Lemma search_root (R : string → Prop) fuel color r l : search_inv g color [] → color !! r = None → g !! r = Some l →
  R r → (work g color < fuel)%nat →
  search_ok R (<[r := 1%N]> color) (work g color) fuel (dfs g fuel (<[r := 1%N]> color) [(r, O)]).
Proof.
  intros [_ Hg Hb Hc] Hr Hl HR Hfuel. pose proof (work_color g color r l 1 Hl Hr) as Hwork.
  assert (Hw : stack_work g [(r, O)] = S (length l)).
  { rewrite stack_work_cons, Hl. change (default [] (Some l)) with l. cbn. lia. }
  eapply search_ok_mono; [| |apply (dfs_correct R)]; [done|rewrite Hw; lia| | |rewrite Hw; lia].
  - split.
    + split; [by eexists|]. split; [lia|]. split; [intros; lia|]. done.
    + intros m. destruct (decide (m = r)) as [->|]; [constructor|]. rewrite lookup_insert_ne by done.
      intros Hm%Hg. by apply elem_of_nil in Hm.
    + intros m. destruct (decide (m = r)) as [->|]; [by rewrite lookup_insert_eq|]. rewrite lookup_insert_ne by done. apply Hb.
    + intros m c. destruct (decide (m = r)) as [->|]; [rewrite lookup_insert_eq; intros [= <-]; by left|].
      rewrite lookup_insert_ne by done. apply Hc.
  - intros x. csimpl. intros ->%list_elem_of_singleton. by exists r.
Qed.

(** Every root ends up done, or a cycle reached from a root is found; the fuel
    is not used up. *)
Lemma search_roots_correct (R : string → Prop) fuel color roots : search_inv g color [] →
  (∀ r, r ∈ roots → is_Some (g !! r) → R r) → (work g color + length roots ≤ fuel)%nat →
  match search_roots g fuel color roots with
  | Found id => tc (edge g) id id ∧ ∃ r, R r ∧ rtc (edge g) r id
  | Finished color' _ => search_inv g color' [] ∧ (∀ n, is_Some (color !! n) → is_Some (color' !! n)) ∧
      ∀ r, r ∈ roots → is_Some (g !! r) → is_Some (color' !! r)
  | OutOfFuel => False
  end.
Proof.
  revert fuel color. induction roots as [|r roots IH]; intros fuel color Hinv HR Hfuel; cbn [search_roots].
  { split; [done|]. split; [done|]. by intros r ?%elem_of_nil. }
  cbn [length] in Hfuel.
  assert (Hrest : ∀ fuel' color', search_inv g color' [] → (work g color' + length roots ≤ fuel')%nat →
    (∀ n, is_Some (color !! n) → is_Some (color' !! n)) → (is_Some (color' !! r) ∨ g !! r = None) →
    match search_roots g fuel' color' roots with
    | Found id => tc (edge g) id id ∧ ∃ r, R r ∧ rtc (edge g) r id
    | Finished color'' _ => search_inv g color'' [] ∧ (∀ n, is_Some (color !! n) → is_Some (color'' !! n)) ∧
        ∀ x, x ∈ r :: roots → is_Some (g !! x) → is_Some (color'' !! x)
    | OutOfFuel => False
    end).
  { intros fuel' color' Hi Hf Hc Hr. specialize (IH fuel' color' Hi (λ x Hx, HR x (list_elem_of_further _ _ _ Hx)) Hf).
    destruct (search_roots g fuel' color' roots) as [id|color''|]; [done| |done].
    destruct IH as (Hi' & Hm & Hall). split; [done|]. split; [by auto|].
    intros x [->|Hx]%elem_of_cons Hg; [|by apply Hall]. destruct Hr as [?|Hno]; [by apply Hm|]. rewrite Hno in Hg. by destruct Hg. }
  destruct (color !! r) as [c|] eqn:Ec; [apply Hrest; [done|lia|done|left; by rewrite Ec]|].
  destruct (g !! r) as [l|] eqn:Eg; [|apply Hrest; [done|lia|done|by right]].
  assert (HRr : R r) by (apply HR; [constructor|by eexists]).
  pose proof (search_root R fuel color r l Hinv Ec Eg HRr ltac:(lia)) as Hs.
  destruct (dfs _ _ _ _) as [id|color1 spare|]; [done| |done]. destruct Hs as (Hi & Hm & Hspare).
  apply Hrest; [done|lia| |left; apply Hm; rewrite lookup_insert_eq; by eexists].
  intros n Hn. apply Hm. rewrite lookup_insert_is_Some'. by right.
Qed.

(** [find_cycle]'s answer: a task on a cycle that a root leads to, or every
    root is grounded. *)
Lemma find_cycle_spec roots :
  match find_cycle g roots with
  | Cycle id => tc (edge g) id id ∧ ∃ r, (r ∈ roots ∧ is_Some (g !! r)) ∧ rtc (edge g) r id
  | NoCycle => ∀ r, r ∈ roots → is_Some (g !! r) → grounded g r
  | Unfinished => False
  end.
Proof.
  unfold find_cycle, cycle_fuel. assert (Hinit : search_inv g ∅ []).
  { split; [done|..]; intros n; rewrite lookup_empty; done. }
  pose proof (search_roots_correct (λ r, r ∈ roots ∧ is_Some (g !! r)) (work g ∅ + length roots) ∅ roots Hinit
    (λ r Hr Hg, conj Hr Hg) (Nat.le_refl _)) as Hs.
  destruct (search_roots g _ ∅ roots) as [id|color|]; [done| |done]. destruct Hs as ([_ Hgrey Hb Hc] & _ & Hall).
  intros r Hr Hg. destruct (Hall r Hr Hg) as [c Hcol]. apply Hb. destruct (Hc r c Hcol) as [Hc1|Hc2]; subst c; [|done].
  apply Hgrey in Hcol. by apply elem_of_nil in Hcol.
Qed.

End Search.

(** The links of all the tasks. *)
Definition total_links (g : graph) : nat := sum_list_with (λ nl, length nl.2) (map_to_list g).

Lemma work_total g : work g ∅ = (size g + total_links g)%nat.
Proof.
  unfold work, total_links. rewrite <-length_map_to_list. induction (map_to_list g) as [|nl ls IH]; [done|].
  cbn [sum_list_with length]. rewrite lookup_empty, decide_True by done. lia.
Qed.

(** C29: the search for a cycle always ends, and is right.  Its fuel, shared
    by all the roots, is one step per task, per link and per given task;
    within it the search never comes out unfinished.  A task it answers lies
    on a cycle of [blocked_by] links and is reached from one of the given
    tasks; when it answers none, no cycle can be reached from any of them. *)
Theorem find_cycle_correct (g : graph) (roots : list string) :
  cycle_fuel g roots = (size g + total_links g + length roots)%nat ∧
  match find_cycle g roots with
  | Cycle id => tc (edge g) id id ∧ ∃ r, r ∈ roots ∧ is_Some (g !! r) ∧ rtc (edge g) r id
  | NoCycle => ∀ r x, r ∈ roots → is_Some (g !! r) → rtc (edge g) r x → ¬ tc (edge g) x x
  | Unfinished => False
  end.
Proof.
  split; [unfold cycle_fuel; by rewrite work_total|].
  pose proof (find_cycle_spec g roots) as Hs. destruct (find_cycle g roots) as [id| |]; [|..|done].
  - destruct Hs as (Hc & r & [Hr Hg] & Hp). split; [done|]. by exists r.
  - intros r x Hr Hg Hx. by apply (grounded_no_cycle g r x (Hs r Hr Hg)).
Qed.

(** Changing the links of grounded tasks keeps every task grounded. *)
Lemma grounded_update (g g' : graph) (touched : gset string) :
  (∀ n, n ∉ touched → g' !! n = g !! n) →
  (∀ n, n ∈ touched → is_Some (g' !! n) → grounded g' n) →
  (∀ n, grounded g n) → ∀ n, grounded g' n.
Proof.
  intros Hsame Htouched Hg n. induction (Hg n) as [n _ IH]. constructor. intros m [Hm Hsome].
  destruct (decide (m ∈ touched)) as [Hin|Hout]; [by apply Htouched|].
  destruct (decide (n ∈ touched)) as [Hn|Hn].
  - destruct (g' !! n) as [l|] eqn:En; [|by apply elem_of_nil in Hm].
    destruct (Htouched n Hn) as [Hacc]; [by eexists|]. apply Hacc. split; [by rewrite En|done].
  - apply IH. split; [by rewrite <-(Hsame n Hn)|by rewrite <-(Hsame m Hout)].
Qed.
