(* ===== verification/Kanban.v ===== *)
(** * Kanban tasks and changesets

    crates/molt-core/src/kanban_fold.rs, the shape of a changeset: the task,
    the fields an act names, the parser at the propose door and at the wire
    door, and the canonical form a proposer signs.  The reasons the code gives
    as text are constructors. *)

From S2P Require Import Prelude Strs Json Calendar.

(** A [BTreeMap<NaiveDate, When>]: its entries in key order. *)
Fixpoint moved_insert `{Chrono} (d : NaiveDate) (w : When) (m : list (NaiveDate * When)) : list (NaiveDate * When) :=
  match m with
  | [] => [(d, w)]
  | (k, v) :: m =>
      if bool_decide (k = d) then (d, w) :: m
      else if date_lt d k then (d, w) :: (k, v) :: m
      else (k, v) :: moved_insert d w m
  end.

(** The first error of a list of fallible steps, or all results. *)
Fixpoint traverse {E A B} (f : A → outcome E B) (l : list A) : outcome E (list B) :=
  match l with
  | [] => Ok []
  | a :: l => let? b := f a in let? bs := traverse f l in Ok (b :: bs)
  end.

(** [Value::is_null]. *)
Definition is_null (v : Value) : bool := match v with Null => true | _ => false end.

(** ** States and sizes *)

Inductive TaskState := Todo | Wip | Success | Fail_ | Cancelled.
#[export] Instance TaskState_eq_dec : EqDecision TaskState.
Proof. solve_decision. Defined.

Definition STATE_ALL : list TaskState := [Todo; Wip; Success; Fail_; Cancelled].

Definition state_str (s : TaskState) : string :=
  match s with Todo => "todo" | Wip => "wip" | Success => "success" | Fail_ => "fail" | Cancelled => "cancelled" end.

Definition state_parse (s : string) : option TaskState := find (λ t, bool_decide (state_str t = s)) STATE_ALL.

Definition is_terminal (s : TaskState) : bool :=
  match s with Success | Fail_ | Cancelled => true | _ => false end.
Definition is_met (s : TaskState) : bool := match s with Success | Cancelled => true | _ => false end.

Inductive Size := Xs | Sm | Md | Lg | Xl | Xxl.
#[export] Instance Size_eq_dec : EqDecision Size.
Proof. solve_decision. Defined.

Definition SIZE_ALL : list Size := [Xs; Sm; Md; Lg; Xl; Xxl].

Definition size_str (s : Size) : string :=
  match s with Xs => "XS" | Sm => "S" | Md => "M" | Lg => "L" | Xl => "XL" | Xxl => "XXL" end.
Definition size_parse (s : string) : option Size := find (λ z, bool_decide (size_str z = s)) SIZE_ALL.

(** ** Tasks *)

(** 32 lowercase hex characters. *)
Abbreviation TaskId := string (only parsing).

Record Task `{Chrono} := mkTask {
  title : string;
  kind : option string;
  creator : string;
  assignees : list string;
  tsize : option Size;
  blocked_by : list TaskId;
  due : option NaiveDate;
  after : option NaiveDate;
  when : option When;
  trepeat : option Repeat;
  skip : list NaiveDate;
  moved : list (NaiveDate * When);
  state : TaskState;
  note : option string;
  evidence : list string;
  description : option string;
  acceptance : list string;
  out_of_scope : list string;
  touched_rev : N;
}.

Arguments mkTask {_}.


Definition is_series `{Chrono} (t : Task) : bool := is_some (trepeat t).
Definition is_timed_once `{Chrono} (t : Task) : bool := is_some (when t) && negb (is_some (trepeat t)).

Definition is_hex32 (s : string) : bool := (str_len s =? 32)%N && str_all is_lower_hex_char s.

Definition is_ref_char (c : ascii) : bool :=
  let n := Ascii.N_of_ascii c in
  ((97 <=? n) && (n <=? 122) || (48 <=? n) && (n <=? 57) || (n =? 95) || (n =? 45))%N.
Definition is_ref_name (s : string) : bool := negb (str_empty s) && str_all is_ref_char s.

(** ** Fields and acts *)

Inductive Field `{Chrono} :=
  | FTitle (s : string)
  | FKind (k : option string)
  | FAssignees (l : list string)
  | FSize (s : option Size)
  | FBlockedBy (l : list TaskId)
  | FDue (d : option NaiveDate)
  | FAfter (d : option NaiveDate)
  | FWhen (w : option When)
  | FRepeat (r : option Repeat)
  | FSkip (l : list NaiveDate)
  | FMoved (m : list (NaiveDate * When))
  | FDescription (s : option string)
  | FAcceptance (l : list string)
  | FOutOfScope (l : list string).

Inductive Act `{Chrono} :=
  | Add (id : option TaskId) (creator : option string) (fields : list Field)
  | Set_ (id : TaskId) (fields : list Field)
  | State (id : TaskId) (to : TaskState) (note : option string) (evidence : list string).

Definition TASK_FIELDS : list string :=
  ["title"; "type"; "assignees"; "size"; "blocked_by"; "due"; "after"; "when"; "repeat"; "skip"; "moved";
   "description"; "acceptance"; "out_of_scope"].

Inductive FieldErr :=
  | NotList (what : string) | NotStrings (what : string) | NotLines (what : string)
  | NotDate (what : string) | NotString (what : string)
  | TitleLine | TypeLine | AssigneesNone | SeatTwice | SizeName | TaskTwice | Cal (e : CalError)
  | MovedNotObject | MovedKey | UnknownField (k : string) | SelfLink | AfterLate.

Definition one_line (s : string) : bool :=
  negb (str_empty (trim s)) && negb (str_has nl s || str_has cr s).

Definition str_list (v : Value) (what : string) : outcome FieldErr (list string) :=
  let? l := ok_or (as_array v) (NotList what) in
  traverse (λ x, ok_or (as_str x) (NotStrings what)) l.

Definition line_list (v : Value) (what : string) : outcome FieldErr (list string) :=
  let? items := str_list v what in
  reject existsb (λ s, negb (one_line s)) items with NotLines what else Ok items.

Definition date_of `{Chrono} (v : Value) (what : string) : outcome FieldErr NaiveDate :=
  ok_or (as_str v ≫= parse_date) (NotDate what).

Definition opt_str (v : Value) (what : string) : outcome FieldErr (option string) :=
  if is_null v then Ok None else let? s := ok_or (as_str v) (NotString what) in Ok (Some s).

(** [if null { None } else { Some(..?) }]. *)
Definition nullable {A} (v : Value) (m : outcome FieldErr A) : outcome FieldErr (option A) :=
  if is_null v then Ok None else let? a := m in Ok (Some a).

(** [if null { Vec::new() } else { ..? }]. *)
Definition null_list {A} (v : Value) (m : outcome FieldErr (list A)) : outcome FieldErr (list A) :=
  if is_null v then Ok [] else m.

Fixpoint parse_moved `{Chrono} (obj : list (string * Value)) (out : list (NaiveDate * When))
    : outcome FieldErr (list (NaiveDate * When)) :=
  match obj with
  | [] => Ok out
  | (k, w) :: obj =>
      let? d := ok_or (parse_date k) MovedKey in
      let? w := omap_err Cal (when_parse w) in
      parse_moved obj (moved_insert d w out)
  end.

Definition parse_field `{Chrono} (key : string) (v : Value) : outcome FieldErr Field :=
  if decide (key = "title") then
    match as_str v with
    | Some t => if one_line t then Ok (FTitle t) else Err TitleLine
    | None => Err TitleLine
    end
  else if decide (key = "type") then
    let? t := opt_str v "type" in
    match t with
    | Some s => if one_line s then Ok (FKind t) else Err TypeLine
    | None => Ok (FKind t)
    end
  else if decide (key = "assignees") then
    let? a := str_list v "assignees" in
    reject match a with [] => true | _ => existsb str_empty a end with AssigneesNone else
    reject negb (bool_decide (NoDup a)) with SeatTwice else
    Ok (FAssignees a)
  else if decide (key = "size") then
    let? s := nullable v (ok_or (as_str v ≫= size_parse) SizeName) in Ok (FSize s)
  else if decide (key = "blocked_by") then
    let? b := null_list v (str_list v "blocked_by") in
    reject negb (bool_decide (NoDup b)) with TaskTwice else
    Ok (FBlockedBy b)
  else if decide (key = "due") then let? d := nullable v (date_of v "due") in Ok (FDue d)
  else if decide (key = "after") then let? d := nullable v (date_of v "after") in Ok (FAfter d)
  else if decide (key = "when") then let? w := nullable v (omap_err Cal (when_parse v)) in Ok (FWhen w)
  else if decide (key = "repeat") then let? r := nullable v (omap_err Cal (repeat_parse v)) in Ok (FRepeat r)
  else if decide (key = "skip") then
    let? l := null_list v (let? l := ok_or (as_array v) (NotList "skip") in traverse (λ d, date_of d "skip") l) in
    Ok (FSkip l)
  else if decide (key = "moved") then
    let? m := null_list v (let? o := ok_or (as_object v) MovedNotObject in parse_moved o []) in Ok (FMoved m)
  else if decide (key = "description") then let? s := opt_str v "description" in Ok (FDescription s)
  else if decide (key = "acceptance") then
    let? l := null_list v (line_list v "acceptance") in Ok (FAcceptance l)
  else if decide (key = "out_of_scope") then
    let? l := null_list v (line_list v "out_of_scope") in Ok (FOutOfScope l)
  else Err (UnknownField key).

(** [check_fields]: the loop, then the dates it collected. *)
Fixpoint check_fields_loop `{Chrono} (id : option string) (fields : list Field) (d a : option NaiveDate)
    : outcome FieldErr (option NaiveDate * option NaiveDate) :=
  match fields with
  | [] => Ok (d, a)
  | FDue d :: fields => check_fields_loop id fields d a
  | FAfter a :: fields => check_fields_loop id fields d a
  | FBlockedBy b :: fields =>
      reject match id with Some id => bool_decide (id ∈ b) | None => false end with SelfLink else
      check_fields_loop id fields d a
  | _ :: fields => check_fields_loop id fields d a
  end.

Definition check_fields `{Chrono} (id : option string) (fields : list Field) : outcome FieldErr unit :=
  let? da := check_fields_loop id fields None None in
  match da with
  | (Some d, Some a) => if date_lt d a then Err AfterLate else Ok tt
  | _ => Ok tt
  end.

(** ** Acts *)

Inductive Door := Propose | Canonical_.
#[export] Instance Door_eq_dec : EqDecision Door.
Proof. solve_decision. Defined.

Inductive ActErr :=
  | ActNotObject | NotTaskId (s : string) | Unresolved (s : string) | KeyMissing (k : string)
  | AddNull (k : string) | InField (e : FieldErr) | TitleMissing | AssigneesMissing | RepeatNeedsWhen
  | AddIdMissing | AddIdRef | RefResolved | RefName | CreatorMissing | NotTrimmed
  | SetUnknown (k : string) | FieldsNothing | NotSettable (k : string) | CannotClear (k : string)
  | StateUnknown (k : string) | UnknownState | NoteString | EvidenceOnly | UnknownAct (s : string) | ActMissing.

Section ParseAct.
Context `{Chrono}.
Variables (door : Door) (refs : list string).

Definition check_id (s : string) : outcome ActErr unit :=
  match strip_prefix "@" s with
  | Some r =>
      reject bool_decide (door = Canonical_) with NotTaskId s else
      reject negb (bool_decide (r ∈ refs)) with Unresolved s else
      Ok tt
  | None => if is_hex32 s then Ok tt else Err (NotTaskId s)
  end.

Definition id_of (v : Value) (key : string) : outcome ActErr string :=
  let? s := ok_or (get_str key v) (KeyMissing key) in
  let? _ := check_id s in
  Ok s.

Fixpoint check_ids (l : list string) : outcome ActErr unit :=
  match l with
  | [] => Ok tt
  | x :: l => let? _ := check_id x in check_ids l
  end.

Fixpoint check_links (fields : list Field) : outcome ActErr unit :=
  match fields with
  | [] => Ok tt
  | FBlockedBy b :: fields => let? _ := check_ids b in check_links fields
  | _ :: fields => check_links fields
  end.

(** The loop over the keys of an [add]. *)
Fixpoint add_fields (obj : list (string * Value)) : outcome ActErr (list Field) :=
  match obj with
  | [] => Ok []
  | (k, val) :: obj =>
      if bool_decide (k ∈ ["act"; "id"; "ref"; "creator"]) then add_fields obj
      else
        reject is_null val with AddNull k else
        let? f := omap_err InField (parse_field k val) in
        let? fs := add_fields obj in
        Ok (f :: fs)
  end.

Definition has_title (fs : list Field) : bool := existsb (λ f, match f with FTitle _ => true | _ => false end) fs.
Definition has_assignees (fs : list Field) : bool :=
  existsb (λ f, match f with FAssignees _ => true | _ => false end) fs.
Definition has_when (fs : list Field) : bool :=
  existsb (λ f, match f with FWhen (Some _) => true | _ => false end) fs.
Definition has_repeat (fs : list Field) : bool :=
  existsb (λ f, match f with FRepeat (Some _) => true | _ => false end) fs.

(** [k.trim() != k] of a type field. *)
Definition untrimmed (f : Field) : bool :=
  match f with FKind (Some k) => negb (bool_decide (trim k = k)) | _ => false end.
Definition first_kind (fs : list Field) : option Field :=
  find (λ f, match f with FKind _ => true | _ => false end) fs.

Definition add_id (v : Value) : outcome ActErr (option TaskId) :=
  match get "id" v with
  | None => if decide (door = Canonical_) then Err AddIdMissing else Ok None
  | Some _ =>
      let? s := id_of v "id" in
      reject starts_with "@" s with AddIdRef else
      Ok (Some s)
  end.

Definition add_ref (v : Value) : outcome ActErr (option string) :=
  match get "ref" v with
  | None => Ok None
  | Some r =>
      reject bool_decide (door = Canonical_) with RefResolved else
      match as_str r with
      | Some r => if is_ref_name r then Ok (Some ("@" +:+ r)) else Err RefName
      | None => Err RefName
      end
  end.

Definition add_creator (v : Value) : outcome ActErr (option string) :=
  if decide (door = Propose) then Ok None
  else match get_str "creator" v with
       | Some c => if str_empty c then Err CreatorMissing else Ok (Some c)
       | None => Err CreatorMissing
       end.

Fixpoint check_each (ids : list string) (fs : list Field) : outcome ActErr unit :=
  match ids with
  | [] => Ok tt
  | i :: ids => let? _ := omap_err InField (check_fields (Some i) fs) in check_each ids fs
  end.

Definition parse_add (v : Value) (obj : list (string * Value)) : outcome ActErr Act :=
  let? fs := add_fields obj in
  reject negb (has_title fs) with TitleMissing else
  reject negb (has_assignees fs) with AssigneesMissing else
  reject negb (has_when fs) && has_repeat fs with RepeatNeedsWhen else
  let? _ := check_links fs in
  let? id := add_id v in
  let? rf := add_ref v in
  let? c := add_creator v in
  reject bool_decide (door = Canonical_) && match first_kind fs with Some f => untrimmed f | None => false end
    with NotTrimmed else
  let? _ := check_each (option_list id ++ option_list rf) fs in
  let? _ := omap_err InField (check_fields None fs) in
  Ok (Add id c fs).

(** The loop over the fields of a [set]. *)
Fixpoint set_fields (fobj : list (string * Value)) : outcome ActErr (list Field) :=
  match fobj with
  | [] => Ok []
  | (k, val) :: fobj =>
      reject bool_decide (k ∈ ["state"; "note"; "evidence"; "creator"]) with NotSettable k else
      reject negb (bool_decide (k ∈ TASK_FIELDS)) with SetUnknown k else
      reject is_null val && bool_decide (k ∈ ["title"; "assignees"]) with CannotClear k else
      let? f := omap_err InField (parse_field k val) in
      reject bool_decide (door = Canonical_) && untrimmed f with NotTrimmed else
      let? fs := set_fields fobj in
      Ok (f :: fs)
  end.

Definition stray (known : list string) (obj : list (string * Value)) : option string :=
  fst <$> find (λ kv, negb (bool_decide (kv.1 ∈ known))) obj.

Definition parse_set (v : Value) (obj : list (string * Value)) : outcome ActErr Act :=
  match stray ["act"; "id"; "fields"] obj with
  | Some k => Err (SetUnknown k)
  | None =>
      let? id := id_of v "id" in
      match get "fields" v ≫= as_object with
      | Some (f :: fobj) =>
          let? fs := set_fields (f :: fobj) in
          let? _ := check_links fs in
          let? _ := omap_err InField (check_fields (Some id) fs) in
          Ok (Set_ id fs)
      | _ => Err FieldsNothing
      end
  end.

Definition parse_state (v : Value) (obj : list (string * Value)) : outcome ActErr Act :=
  match stray ["act"; "id"; "to"; "note"; "evidence"] obj with
  | Some k => Err (StateUnknown k)
  | None =>
      let? id := id_of v "id" in
      let? to := ok_or (get_str "to" v ≫= state_parse) UnknownState in
      let? nt := match get "note" v with
                 | None => Ok None
                 | Some n => let? s := ok_or (as_str n) NoteString in Ok (Some s)
                 end in
      let? ev := match get "evidence" v with
                 | None => Ok []
                 | Some e => reject negb (bool_decide (to = Success)) with EvidenceOnly else
                             omap_err InField (str_list e "evidence")
                 end in
      Ok (State id to nt ev)
  end.

Definition parse_act (v : Value) : outcome ActErr Act :=
  let? obj := ok_or (as_object v) ActNotObject in
  match get_str "act" v with
  | Some a =>
      if decide (a = "add") then parse_add v obj
      else if decide (a = "set") then parse_set v obj
      else if decide (a = "state") then parse_state v obj
      else Err (UnknownAct a)
  | None => Err ActMissing
  end.

End ParseAct.

(** ** Changesets *)

Inductive KanbanErr :=
  | NotAnObject | OpWrong | UnknownKey (k : string) | SummaryLine | BaseRevMissing | OpsEmpty
  | RefTwice (r : string) | AtOp (i : nat) (e : ActErr).

(** The [ref] names of the adds, each once. *)
Fixpoint collect_refs (ops : list Value) (refs : list string) : outcome KanbanErr (list string) :=
  match ops with
  | [] => Ok refs
  | op :: ops =>
      if negb (bool_decide (get_str "act" op = Some "add")) then collect_refs ops refs
      else match get_str "ref" op with
           | Some r => reject bool_decide (r ∈ refs) with RefTwice r else collect_refs ops (r :: refs)
           | None => collect_refs ops refs
           end
  end.

Fixpoint parse_acts `{Chrono} (door : Door) (refs : list string) (i : nat) (ops : list Value)
    : outcome KanbanErr (list Act) :=
  match ops with
  | [] => Ok []
  | op :: ops =>
      let? a := omap_err (AtOp i) (parse_act door refs op) in
      let? acts := parse_acts door refs (S i) ops in
      Ok (a :: acts)
  end.

Definition parse_changeset `{Chrono} (v : Value) (door : Door) : outcome KanbanErr (list Act) :=
  let? obj := ok_or (as_object v) NotAnObject in
  reject negb (bool_decide (op_of v = Some "kanban_ops")) with OpWrong else
  match stray ["op"; "summary"; "base_rev"; "ops"] obj with
  | Some k => Err (UnknownKey k)
  | None =>
      reject negb (match get_str "summary" v with Some s => one_line s | None => false end) with SummaryLine else
      reject negb (is_some (get_u64 "base_rev" v)) with BaseRevMissing else
      match get "ops" v ≫= as_array with
      | Some (op :: ops) =>
          let? refs := (if decide (door = Propose) then collect_refs (op :: ops) [] else Ok []) in
          parse_acts door refs 0 (op :: ops)
      | _ => Err OpsEmpty
      end
  end.

Definition validate_kanban_payload `{Chrono} (v : Value) : outcome KanbanErr unit :=
  let? _ := parse_changeset v Propose in Ok tt.

Definition validate_kanban_wire `{Chrono} (v : Value) : outcome KanbanErr unit :=
  let? _ := parse_changeset v Canonical_ in Ok tt.

(** ** The canonical form *)

(** [Map::insert], [Map::remove] and [Map::get_mut] on a sorted object. *)
Fixpoint obj_insert (k : string) (v : Value) (m : list (string * Value)) : list (string * Value) :=
  match m with
  | [] => [(k, v)]
  | (k', v') :: m =>
      match String.compare k k' with
      | Eq => (k, v) :: m
      | Lt => (k, v) :: (k', v') :: m
      | Gt => (k', v') :: obj_insert k v m
      end
  end.

Definition obj_remove (k : string) (m : list (string * Value)) : list (string * Value) :=
  filter (λ kv, kv.1 ≠ k) m.

Definition obj_modify (k : string) (f : Value → Value) (m : list (string * Value)) : list (string * Value) :=
  (λ kv, if decide (kv.1 = k) then (kv.1, f kv.2) else kv) <$> m.

Record Canonical := mkCanonical { payload : Value; minted : list TaskId }.

Inductive CanonErr := Shape (e : KanbanErr) | MintFailed.

Section Canonicalize.
Context `{Chrono} {St : Type}.
Variables (mint : St → option (TaskId * St)) (author : string).

(** The first pass over one [add]: its id, minted when it has none, its
    [ref] noted and dropped, its creator stamped. *)
Definition stamp_add (obj : list (string * Value)) (refs : list (string * TaskId)) (s : St)
    : outcome CanonErr (list (string * Value) * list (string * TaskId) * list TaskId * St) :=
  let? r :=
    match assoc "id" obj ≫= as_str with
    | Some id => Ok (id, [], obj, s)
    | None => match mint s with
              | Some (id, s) => Ok (id, [id], obj_insert "id" (Str id) obj, s)
              | None => Err MintFailed
              end
    end in
  let '(id, fresh, obj, s) := r in
  let refs := match assoc "ref" obj with Some (Str r) => ("@" +:+ r, id) :: refs | _ => refs end in
  Ok (obj_insert "creator" (Str author) (obj_remove "ref" obj), refs, fresh, s).

Fixpoint stamp (ops : list Value) (refs : list (string * TaskId)) (s : St)
    : outcome CanonErr (list Value * list (string * TaskId) * list TaskId * St) :=
  match ops with
  | [] => Ok ([], refs, [], s)
  | op :: ops =>
      match op with
      | Object obj =>
          if decide (assoc "act" obj ≫= as_str = Some "add") then
            let? r := stamp_add obj refs s in
            let '(obj, refs, fresh, s) := r in
            let? r := stamp ops refs s in
            let '(ops, refs, fresh', s) := r in
            Ok (Object obj :: ops, refs, fresh ++ fresh', s)
          else
            let? r := stamp ops refs s in
            let '(ops, refs, fresh, s) := r in Ok (op :: ops, refs, fresh, s)
      | _ =>
          let? r := stamp ops refs s in
          let '(ops, refs, fresh, s) := r in Ok (op :: ops, refs, fresh, s)
      end
  end.

(** The second pass: references resolved, types trimmed. *)
Definition resolve (refs : list (string * TaskId)) (v : Value) : Value :=
  match as_str v ≫= (λ s, assoc s refs) with Some id => Str id | None => v end.

Definition trim_type (obj : list (string * Value)) : list (string * Value) :=
  obj_modify "type" (λ v, match v with Str t => Str (trim t) | _ => v end) obj.

Definition resolve_links (refs : list (string * TaskId)) (obj : list (string * Value)) : list (string * Value) :=
  obj_modify "blocked_by" (λ v, match v with Array l => Array (resolve refs <$> l) | _ => v end) obj.

Definition rewrite_op (refs : list (string * TaskId)) (op : Value) : Value :=
  match op with
  | Object obj =>
      let obj := resolve_links refs (trim_type (obj_modify "id" (resolve refs) obj)) in
      Object (obj_modify "fields"
        (λ v, match v with Object f => Object (resolve_links refs (trim_type f)) | _ => v end) obj)
  | _ => op
  end.

Definition kanban_canonicalize (p : Value) (s : St) : outcome CanonErr (Canonical * St) :=
  let? _ := omap_err Shape (validate_kanban_payload p) in
  match get "ops" p ≫= as_array, p with
  | Some ops, Object m =>
      let? r := stamp ops [] s in
      let '(ops, refs, fresh, s) := r in
      let out := Object (obj_modify "ops" (λ _, Array (rewrite_op refs <$> ops)) m) in
      let? _ := omap_err Shape (validate_kanban_wire out) in
      Ok ({| payload := out; minted := fresh |}, s)
  | _, _ => Err (Shape OpsEmpty)
  end.

End Canonicalize.
