(* ===== verification/Board.v ===== *)
(** * The kanban board

    crates/molt-core/src/kanban_fold.rs, the fold: applied changesets in chain
    order over the empty board.  A changeset applies whole or is void; the
    lifecycle table, the rules on a task's resulting fields and the search for
    a cycle of prerequisites decide which.  The reasons the code gives as text
    are constructors with the arguments the text is made of. *)

From stdpp Require Import sorting.
From S2P Require Import Prelude Strs Json WikiFold Calendar Cycle Kanban.

Record BoardState `{Chrono} := mkBoard { rev : N; tasks : gmap TaskId Task }.
Definition board_default `{Chrono} : BoardState := {| rev := 0; tasks := ∅ |}.

Inductive BoardReason `{Chrono} :=
  | BadShape (e : KanbanErr)
  | NoId
  | Exists_ (id : TaskId)
  | UnknownTask (id : TaskId)
  | NoteRequired (id : TaskId) (to : TaskState)
  | Blocked (id : TaskId) (verb : string) (b : TaskId) (st : option TaskState)
  | SeriesOnly (id : TaskId)
  | NotStarted (id : TaskId) (to : TaskState)
  | NotAllowed (id : TaskId) (from to : TaskState)
  | CreatorNotSeat (id : TaskId) (c : string)
  | NotSeat (id : TaskId) (a : string)
  | AfterLater (id : TaskId)
  | NeedsWhen (id : TaskId)
  | SeriesState (id : TaskId)
  | NoOccurrence (id : TaskId) (d : NaiveDate)
  | NeedSeries (id : TaskId)
  | SelfBlocked (id : TaskId)
  | BlockedUnknown (id b : TaskId)
  | SeriesLinked (id : TaskId)
  | CycleAt (id : TaskId).

(** A void reason and the task it concerns. *)
Record Fault `{Chrono} := mkFault { reason : BoardReason; ftask : option TaskId }.
Definition fault_at `{Chrono} (id : TaskId) (r : BoardReason) : Fault := {| reason := r; ftask := Some id |}.
Definition fault_from `{Chrono} (r : BoardReason) : Fault := {| reason := r; ftask := None |}.

Inductive FoldStep `{Chrono} := Applied | Void (r : BoardReason) | Skipped.

(** ** One act *)

Definition set_field `{Chrono} (t : Task) (f : Field) : Task :=
  match t with
  | mkTask ti ki cr asg si bb du af wh re sk mo st no ev de ac oo tr =>
      match f with
      | FTitle v => mkTask v ki cr asg si bb du af wh re sk mo st no ev de ac oo tr
      | FKind v => mkTask ti v cr asg si bb du af wh re sk mo st no ev de ac oo tr
      | FAssignees v => mkTask ti ki cr v si bb du af wh re sk mo st no ev de ac oo tr
      | FSize v => mkTask ti ki cr asg v bb du af wh re sk mo st no ev de ac oo tr
      | FBlockedBy v => mkTask ti ki cr asg si v du af wh re sk mo st no ev de ac oo tr
      | FDue v => mkTask ti ki cr asg si bb v af wh re sk mo st no ev de ac oo tr
      | FAfter v => mkTask ti ki cr asg si bb du v wh re sk mo st no ev de ac oo tr
      | FWhen v => mkTask ti ki cr asg si bb du af v re sk mo st no ev de ac oo tr
      | FRepeat v => mkTask ti ki cr asg si bb du af wh v sk mo st no ev de ac oo tr
      | FSkip v => mkTask ti ki cr asg si bb du af wh re v mo st no ev de ac oo tr
      | FMoved v => mkTask ti ki cr asg si bb du af wh re sk v st no ev de ac oo tr
      | FDescription v => mkTask ti ki cr asg si bb du af wh re sk mo st no ev v ac oo tr
      | FAcceptance v => mkTask ti ki cr asg si bb du af wh re sk mo st no ev de v oo tr
      | FOutOfScope v => mkTask ti ki cr asg si bb du af wh re sk mo st no ev de ac v tr
      end
  end.

Definition touch `{Chrono} (r : N) (t : Task) : Task :=
  match t with
  | mkTask ti ki cr asg si bb du af wh re sk mo st no ev de ac oo _ =>
      mkTask ti ki cr asg si bb du af wh re sk mo st no ev de ac oo r
  end.

(** The state act's four assignments. *)
Definition set_state `{Chrono} (to : TaskState) (nt : option string) (ev : list string) (r : N) (t : Task) : Task :=
  match t with
  | mkTask ti ki cr asg si bb du af wh re sk mo _ _ _ de ac oo _ =>
      mkTask ti ki cr asg si bb du af wh re sk mo to nt ev de ac oo r
  end.

Definition new_task `{Chrono} (c : string) (r : N) : Task :=
  mkTask "" None c [] None [] None None None None [] [] Todo None [] None [] [] r.

Definition unmet_prerequisite `{Chrono} (ts : gmap TaskId Task) (t : Task) : option (TaskId * option TaskState) :=
  head (omap (λ b, match ts !! b with
                   | Some p => if is_met (state p) then None else Some (b, Some (state p))
                   | None => Some (b, None)
                   end) (blocked_by t)).

Definition transition `{Chrono} (ts : gmap TaskId Task) (id : TaskId) (to : TaskState) (nt : option string)
    : outcome Fault unit :=
  let? t := ok_or (ts !! id) (fault_at id (UnknownTask id)) in
  let from := state t in
  let has_note := match nt with Some n => negb (str_empty (trim n)) | None => false end in
  let needs_note := if has_note then Ok tt else Err (fault_at id (NoteRequired id to)) in
  let guard verb :=
    match unmet_prerequisite ts t with
    | None => Ok tt
    | Some (b, p) => Err (fault_at b (Blocked id verb b p))
    end in
  reject is_series t && negb (match from, to with Todo, Cancelled | Cancelled, Todo => true | _, _ => false end)
    with fault_at id (SeriesOnly id) else
  match from, to with
  | Todo, Wip => guard "start"
  | Wip, Todo | Wip, Success | Fail_, Wip => Ok tt
  | Success, Todo | Fail_, Todo | Cancelled, Todo => Ok tt
  | Wip, Fail_ | Todo, Cancelled | Wip, Cancelled | Fail_, Cancelled => needs_note
  | Todo, Success | Todo, Fail_ =>
      reject negb (is_timed_once t) with fault_at id (NotStarted id to) else
      let? _ := guard (state_str to) in
      if decide (to = Fail_) then needs_note else Ok tt
  | _, _ => Err (fault_at id (NotAllowed id from to))
  end.

(** ** The rules on a result *)

Fixpoint check_blockers `{Chrono} (ts : gmap TaskId Task) (id : TaskId) (t : Task) (l : list TaskId)
    : outcome BoardReason unit :=
  match l with
  | [] => Ok tt
  | b :: l =>
      reject bool_decide (b = id) with SelfBlocked id else
      match ts !! b with
      | None => Err (BlockedUnknown id b)
      | Some p =>
          reject is_series p || is_series t with SeriesLinked id else
          check_blockers ts id t l
      end
  end.

Definition check_task `{Chrono} (ts : gmap TaskId Task) (id : TaskId) (t : Task) (seats : gset string)
    : outcome BoardReason unit :=
  reject negb (bool_decide (creator t ∈ seats)) with CreatorNotSeat id (creator t) else
  match find (λ a, negb (bool_decide (a ∈ seats))) (assignees t) with
  | Some a => Err (NotSeat id a)
  | None =>
      reject match after t, due t with Some a, Some d => date_lt d a | _, _ => false end with AfterLater id else
      reject is_some (trepeat t) && negb (is_some (when t)) with NeedsWhen id else
      reject is_series t && negb (match state t with Todo | Cancelled => true | _ => false end)
        with SeriesState id else
      let? _ :=
        match when t, trepeat t with
        | Some w, Some r =>
            match find (λ k, negb (is_occurrence w r k)) (skip t ++ (moved t).*1) with
            | Some k => Err (NoOccurrence id k)
            | None => Ok tt
            end
        | _, _ =>
            match skip t, moved t with [], [] => Ok tt | _, _ => Err (NeedSeries id) end
        end in
      check_blockers ts id t (blocked_by t)
  end.

(** [tasks.iter().find(|(_, d)| d.blocked_by.contains(id))]. *)
Definition linked_to `{Chrono} (ts : gmap TaskId Task) (id : TaskId) : option TaskId :=
  fst <$> find (λ e, bool_decide (id ∈ blocked_by e.2)) (sorted_entries ts).

Fixpoint check_touched `{Chrono} (ts : gmap TaskId Task) (seats : gset string) (ids : list TaskId)
    : outcome Fault unit :=
  match ids with
  | [] => Ok tt
  | id :: ids =>
      match ts !! id with
      | None => check_touched ts seats ids
      | Some t =>
          let? _ := omap_err (fault_at id) (check_task ts id t seats) in
          match (if is_series t then linked_to ts id else None) with
          | Some d => Err (fault_at d (SeriesLinked d))
          | None => check_touched ts seats ids
          end
      end
  end.

(** A [BTreeSet<TaskId>] in order. *)
Definition sorted_ids (s : gset string) : list string := merge_sort String.le (elements s).

Definition check_result `{Chrono} (ts : gmap TaskId Task) (touched : gset string) (seats : gset string)
    : outcome Fault unit :=
  let? _ := check_touched ts seats (sorted_ids touched) in
  match find_cycle (blocked_by <$> ts) (sorted_ids touched) with
  | Cycle id => Err (fault_at id (CycleAt id))
  | NoCycle => Ok tt
  | Unfinished => Panic
  end.

(** ** The fold *)

Fixpoint apply_acts `{Chrono} (r : N) (acts : list Act) (ts : gmap TaskId Task) (touched : gset string)
    : outcome Fault (gmap TaskId Task * gset string) :=
  match acts with
  | [] => Ok (ts, touched)
  | Add id c fields :: acts =>
      let? id := ok_or id (fault_from NoId) in
      reject bool_decide (is_Some (ts !! id)) with fault_at id (Exists_ id) else
      apply_acts r acts (<[id := foldl set_field (new_task (default "" c) r) fields]> ts) ({[id]} ∪ touched)
  | Set_ id fields :: acts =>
      let? t := ok_or (ts !! id) (fault_at id (UnknownTask id)) in
      apply_acts r acts (<[id := touch r (foldl set_field t fields)]> ts) ({[id]} ∪ touched)
  | State id to nt ev :: acts =>
      let? _ := transition ts id to nt in
      let? t := ok_or (ts !! id) (fault_at id (UnknownTask id)) in
      apply_acts r acts (<[id := set_state to nt ev r t]> ts) ({[id]} ∪ touched)
  end.

Definition apply_changeset `{Chrono} (board : BoardState) (acts : list Act) (r : N) (seats : gset string)
    : outcome Fault (gmap TaskId Task) :=
  let? res := apply_acts r acts (tasks board) ∅ in
  let '(ts, touched) := res in
  let? _ := check_result ts touched seats in
  Ok ts.

Definition kanban_fold_one `{Chrono} (board : BoardState) (p : Value) (seats : gset string) : BoardState * FoldStep :=
  if decide (op_of p = Some "kanban_ops") then
    let r := u64_saturating_add (rev board) 1 in
    match (let? acts := omap_err (λ e, fault_from (BadShape e)) (parse_changeset p Canonical_) in
           apply_changeset board acts r seats) with
    | Ok ts => ({| rev := r; tasks := ts |}, Applied)
    | Err e => ({| rev := r; tasks := tasks board |}, Void (reason e))
    | Panic => ({| rev := r; tasks := tasks board |}, Skipped)
    end
  else (board, Skipped).

Definition kanban_fold_onto `{Chrono} (board : BoardState) (applied : list Value) (seats : gset string) : BoardState :=
  foldl (λ b p, (kanban_fold_one b p seats).1) board applied.

Definition kanban_fold `{Chrono} (applied : list Value) (seats : gset string) : BoardState :=
  kanban_fold_onto board_default applied seats.

Definition kanban_precheck `{Chrono} (board : BoardState) (p : Value) (seats : gset string) : outcome Fault unit :=
  let? acts := omap_err (λ e, fault_from (BadShape e)) (parse_changeset p Canonical_) in
  let? _ := apply_changeset board acts (u64_saturating_add (rev board) 1) seats in
  Ok tt.
