(* ===== verification/BoardProps.v ===== *)
(** * What every board satisfies

    The invariant of [kanban_fold]: each task's fields obey the rules of the
    board they are on, links name known tasks that are no series, and no task
    waits for itself; the lifecycle as a step relation; what one changeset
    may change; and who a proposer can name as a task's creator. *)

From stdpp Require Import sorting.
From S2P Require Import Prelude Strs Json WikiFold Calendar Cycle Kanban Board.

Section Shape.
Context `{Chrono}.

(** ** What the parser guarantees *)

(** The rules a field obeys wherever it stands. *)
Definition field_ok (f : Field) : Prop :=
  match f with
  | FTitle s => one_line s = true
  | FAssignees l => l ≠ [] ∧ NoDup l
  | FBlockedBy l => NoDup l
  | _ => True
  end.

Definition act_ok (a : Act) : Prop :=
  match a with
  | Add id c fs => (∃ i, id = Some i ∧ is_hex32 i = true) ∧ Forall field_ok fs ∧ has_title fs = true ∧ has_assignees fs = true
  | Set_ _ fs => Forall field_ok fs
  | State _ to _ ev => ev ≠ [] → to = Success
  end.

Lemma parse_field_ok k v f : parse_field k v = Ok f → field_ok f.
Proof.
  unfold parse_field. intros Hp.
  repeat match type of Hp with
    | (if decide ?P then _ else _) = _ => destruct (decide P)
    | (let? _ := _ in _) = Ok _ => apply obind_ok in Hp as (? & ? & Hp)
    | (if ?b then Err _ else _) = Ok _ => destruct b eqn:?; [done|]
    | match ?o with Some _ => _ | None => _ end = Ok _ => destruct o
    | (if ?b then _ else Err _) = Ok _ => destruct b eqn:?; [|done]
    | Ok _ = Ok _ => apply Ok_inj in Hp; subst f
    | Err _ = Ok _ => done
    end; cbn [field_ok]; try done.
  all: to_prop; try done.
  split; [by intros ->|]. done.
Qed.

(** What holds of every parsed field holds of an act's. *)
Lemma add_fields_all (P : Field → Prop) obj fs : (∀ k v f, parse_field k v = Ok f → P f) →
  add_fields obj = Ok fs → Forall P fs.
Proof.
  intros HP. revert fs. induction obj as [|[k v] obj IH]; intros fs Hp; cbn [add_fields] in Hp; [apply Ok_inj in Hp as <-; constructor|].
  destruct (bool_decide _); [by apply IH|]. destruct (is_null v); [done|].
  apply obind_ok in Hp as (f & Hf & Hp). apply obind_ok in Hp as (fs' & Hfs & Hp). apply Ok_inj in Hp as <-.
  apply omap_err_ok in Hf. constructor; [by eapply HP|by apply IH].
Qed.

Lemma set_fields_all (P : Field → Prop) door fobj fs : (∀ k v f, parse_field k v = Ok f → P f) →
  set_fields door fobj = Ok fs → Forall P fs.
Proof.
  intros HP. revert fs. induction fobj as [|[k v] fobj IH]; intros fs Hp; cbn [set_fields] in Hp; [apply Ok_inj in Hp as <-; constructor|].
  apply reject_ok in Hp as [_ Hp]. apply reject_ok in Hp as [_ Hp]. apply reject_ok in Hp as [_ Hp].
  apply obind_ok in Hp as (f & Hf & Hp). apply reject_ok in Hp as [_ Hp].
  apply obind_ok in Hp as (fs' & Hfs & Hp). apply Ok_inj in Hp as <-.
  apply omap_err_ok in Hf. constructor; [by eapply HP|by apply IH].
Qed.

Lemma add_id_hex v o : add_id Canonical_ [] v = Ok o → ∃ i, o = Some i ∧ is_hex32 i = true.
Proof.
  unfold add_id. destruct (get "id" v); [|by rewrite decide_True].
  intros (s & (x & _ & (? & Hc & Hs)%obind_ok)%obind_ok & Ho)%obind_ok.
  apply Ok_inj in Hs as ->. apply reject_ok in Ho as [_ Ho]. apply Ok_inj in Ho as <-.
  exists s. split; [done|]. unfold check_id in Hc. destruct (strip_prefix "@" s); [by rewrite bool_decide_eq_true_2 in Hc|].
  by destruct (is_hex32 s).
Qed.

Definition act_fields (a : Act) : list Field :=
  match a with Add _ _ fs | Set_ _ fs => fs | State _ _ _ _ => [] end.

Lemma parse_act_ok (P : Field → Prop) v a : (∀ k v f, parse_field k v = Ok f → P f) →
  parse_act Canonical_ [] v = Ok a → act_ok a ∧ Forall P (act_fields a).
Proof.
  intros HP. unfold parse_act. intros (obj & _ & Hp)%obind_ok. destruct (get_str "act" v) as [act|]; [|done].
  destruct (decide _).
  { unfold parse_add in Hp. apply obind_ok in Hp as (fs & Hfs & Hp). apply reject_ok in Hp as [Ht Hp].
    apply reject_ok in Hp as [Ha Hp]. apply reject_ok in Hp as [_ Hp]. apply obind_ok in Hp as (? & _ & Hp).
    apply obind_ok in Hp as (id & Hid & Hp). apply obind_ok in Hp as (? & _ & Hp). apply obind_ok in Hp as (c & _ & Hp).
    apply reject_ok in Hp as [_ Hp]. apply obind_ok in Hp as (? & _ & Hp). apply obind_ok in Hp as (? & _ & Hp).
    apply Ok_inj in Hp as <-. split; [|by eapply add_fields_all]. split; [by eapply add_id_hex|].
    split; [eapply add_fields_all; [apply parse_field_ok|done]|]. by destruct (has_title fs), (has_assignees fs). }
  destruct (decide _).
  { unfold parse_set in Hp. destruct (stray _ obj); [done|]. apply obind_ok in Hp as (id & _ & Hp).
    destruct (_ ≫= as_object) as [[|f fobj]|]; [done| |done]. apply obind_ok in Hp as (fs & Hfs & Hp).
    apply obind_ok in Hp as (? & _ & Hp). apply obind_ok in Hp as (? & _ & Hp). apply Ok_inj in Hp as <-.
    split; [eapply set_fields_all; [apply parse_field_ok|done]|by eapply set_fields_all]. }
  destruct (decide _); [|done]. unfold parse_state in Hp. destruct (stray _ obj); [done|].
  apply obind_ok in Hp as (id & _ & Hp). apply obind_ok in Hp as (to & _ & Hp). apply obind_ok in Hp as (nt & _ & Hp).
  apply obind_ok in Hp as (ev & Hev & Hp). apply Ok_inj in Hp as <-. split; [|constructor]. intros Hne.
  destruct (get "evidence" v); [|by apply Ok_inj in Hev as <-]. apply reject_ok in Hev as [Hs _].
  by apply negb_false_iff, bool_decide_eq_true in Hs.
Qed.

Lemma parse_acts_all (P : Field → Prop) i ops acts : (∀ k v f, parse_field k v = Ok f → P f) →
  parse_acts Canonical_ [] i ops = Ok acts → Forall (λ a, act_ok a ∧ Forall P (act_fields a)) acts.
Proof.
  intros HP. revert i acts. induction ops as [|op ops IH]; intros i acts Hp; cbn [parse_acts] in Hp; [apply Ok_inj in Hp as <-; constructor|].
  apply obind_ok in Hp as (a & Ha & Hp). apply obind_ok in Hp as (as' & Has & Hp). apply Ok_inj in Hp as <-.
  apply omap_err_ok in Ha. constructor; [by eapply parse_act_ok|by eapply IH].
Qed.

Lemma parse_acts_ok i ops acts : parse_acts Canonical_ [] i ops = Ok acts → Forall act_ok acts.
Proof.
  intros Hp. eapply Forall_impl; [eapply (parse_acts_all (λ _, True)); done|]. by intros a [? _].
Qed.

Lemma parse_changeset_acts v acts : parse_changeset v Canonical_ = Ok acts →
  ∃ ops, get "ops" v ≫= as_array = Some ops ∧ parse_acts Canonical_ [] 0 ops = Ok acts.
Proof.
  unfold parse_changeset. intros (obj & _ & Hp)%obind_ok. apply reject_ok in Hp as [_ Hp].
  destruct (stray _ obj); [done|]. apply reject_ok in Hp as [_ Hp]. apply reject_ok in Hp as [_ Hp].
  destruct (_ ≫= as_array) as [[|op ops]|]; [done| |done]. exists (op :: ops). split; [done|]. exact Hp.
Qed.

(** ** What an act leaves of a task's shape *)

Record task_shape (r : N) (t : Task) : Prop := {
  ts_title : one_line (title t) = true;
  ts_assignees : assignees t ≠ [];
  ts_assignees_once : NoDup (assignees t);
  ts_links_once : NoDup (blocked_by t);
  ts_evidence : evidence t ≠ [] → state t = Success;
  ts_touched : (touched_rev t <= r)%N;
}.

Lemma set_field_shape r t f : field_ok f → task_shape r t → task_shape r (set_field t f).
Proof. intros Hf []. destruct t, f; split; cbn in *; try done; by destruct Hf. Qed.

Lemma set_fields_shape r fs t : Forall field_ok fs → task_shape r t → task_shape r (foldl set_field t fs).
Proof. intros Hfs. revert t. induction Hfs as [|f fs Hf _ IH]; intros t Ht; [done|]. by apply IH, set_field_shape. Qed.

(** Fields never touch the state, the evidence or the revision. *)
Lemma set_fields_frame fs t : let t' := foldl set_field t fs in
  state t' = state t ∧ evidence t' = evidence t ∧ touched_rev t' = touched_rev t ∧ creator t' = creator t.
Proof.
  revert t. induction fs as [|f fs IH]; intros t; [done|]. cbn [foldl].
  destruct (IH (set_field t f)) as (-> & -> & -> & ->). by destruct t, f.
Qed.

(** The part of the shape that is missing from an empty task until its title
    and its assignees are set. *)
Definition partial_shape (ti asg : bool) (t : Task) : Prop :=
  (ti = true → one_line (title t) = true) ∧ (asg = true → assignees t ≠ []) ∧ NoDup (assignees t) ∧ NoDup (blocked_by t).

Lemma set_fields_partial fs ti asg t : Forall field_ok fs → partial_shape ti asg t →
  partial_shape (ti || has_title fs) (asg || has_assignees fs) (foldl set_field t fs).
Proof.
  intros Hfs. revert ti asg t. induction Hfs as [|f fs Hf _ IH]; intros ti asg t Ht; cbn [foldl].
  { unfold has_title, has_assignees. cbn. by rewrite !orb_false_r. }
  unfold has_title, has_assignees. cbn [existsb]. rewrite !orb_assoc. apply IH.
  destruct Ht as (H1 & H2 & H3 & H4). destruct t, f; cbn in *; rewrite ?orb_true_r, ?orb_false_r; split_and!; naive_solver.
Qed.

Lemma new_task_shape r c fs : Forall field_ok fs → has_title fs = true → has_assignees fs = true →
  task_shape r (foldl set_field (new_task c r) fs).
Proof.
  intros Hfs Ht Ha. destruct (set_fields_frame fs (new_task c r)) as (Hs & He & Hr & _).
  destruct (set_fields_partial fs false false (new_task c r) Hfs) as (H1 & H2 & H3 & H4).
  { split_and!; [done|done|constructor|constructor]. }
  split; [by apply H1|by apply H2|done|done|by rewrite He|by rewrite Hr].
Qed.

End Shape.

Section Fold.
Context `{Chrono}.

(** ** What a changeset may change *)

(** Tasks are never removed, and only touched ones change. *)
Record evolves (r : N) (ts ts' : gmap TaskId Task) (touched : gset string) : Prop := {
  ev_kept id : is_Some (ts !! id) → is_Some (ts' !! id);
  ev_same id : id ∉ touched → ts' !! id = ts !! id;
  ev_touched id t : id ∈ touched → ts' !! id = Some t → touched_rev t = r;
}.

Lemma apply_acts_evolves r acts ts0 ts touched ts' touched' :
  apply_acts r acts ts touched = Ok (ts', touched') →
  evolves r ts0 ts touched → evolves r ts0 ts' touched'.
Proof.
  assert (Hwrite : ∀ ts touched id t, touched_rev t = r → evolves r ts0 ts touched →
    evolves r ts0 (<[id := t]> ts) ({[id]} ∪ touched)).
  { clear. intros ts touched id t Ht [Hk Hs Hr]. split.
    - intros x Hx. rewrite lookup_insert_is_Some'. right. by apply Hk.
    - intros x Hx. rewrite lookup_insert_ne by set_solver. apply Hs. set_solver.
    - intros x u Hx Hu. destruct (decide (x = id)) as [->|].
      + rewrite lookup_insert_eq in Hu. by injection Hu as <-.
      + rewrite lookup_insert_ne in Hu by done. apply (Hr x); [set_solver|done]. }
  revert ts touched. induction acts as [|a acts IH]; intros ts touched Hp Hev; cbn [apply_acts] in Hp.
  { by injection Hp as <- <-. }
  destruct a as [id c fs|id fs|id to nt ev]; apply obind_ok in Hp as (x & Hx & Hp).
  - apply reject_ok in Hp as [_ Hp]. eapply IH; [done|]. apply Hwrite; [|done].
    by destruct (set_fields_frame fs (new_task (default "" c) r)) as (_ & _ & -> & _).
  - eapply IH; [done|]. apply Hwrite; [by destruct (foldl set_field x fs)|done].
  - apply obind_ok in Hp as (t & Ht & Hp). eapply IH; [done|]. apply Hwrite; [by destruct t|done].
Qed.

Lemma apply_acts_shape r acts ts touched ts' touched' :
  apply_acts r acts ts touched = Ok (ts', touched') → Forall act_ok acts →
  (∀ id t, ts !! id = Some t → is_hex32 id = true ∧ task_shape r t) →
  ∀ id t, ts' !! id = Some t → is_hex32 id = true ∧ task_shape r t.
Proof.
  assert (Hwrite : ∀ (ts : gmap TaskId Task) id t, is_hex32 id = true → task_shape r t →
    (∀ id t, ts !! id = Some t → is_hex32 id = true ∧ task_shape r t) →
    ∀ x u, <[id := t]> ts !! x = Some u → is_hex32 x = true ∧ task_shape r u).
  { intros ts0 id t Hid Ht Hall x u Hu. destruct (decide (x = id)) as [->|].
    - rewrite lookup_insert_eq in Hu. by injection Hu as <-.
    - rewrite lookup_insert_ne in Hu by done. by apply Hall. }
  intros Hp Hacts. revert ts touched Hp.
  induction Hacts as [|a acts Ha _ IH]; intros ts touched Hp Hall; cbn [apply_acts] in Hp.
  { by injection Hp as <- <-. }
  destruct a as [id c fs|id fs|id to nt ev]; apply obind_ok in Hp as (x & Hx & Hp).
  - apply reject_ok in Hp as [_ Hp]. destruct Ha as ((i & -> & Hi) & Hfs & Ht & Hg). apply ok_or_ok in Hx as [= <-].
    eapply IH; [done|]. by apply Hwrite; [|apply new_task_shape|].
  - apply ok_or_ok in Hx. destruct (Hall _ _ Hx) as [Hid Hs]. eapply IH; [done|]. apply Hwrite; [done| |done].
    pose proof (set_fields_shape r fs x Ha Hs) as []. by destruct (foldl set_field x fs).
  - apply obind_ok in Hp as (t & Ht & Hp). apply ok_or_ok in Ht. destruct (Hall _ _ Ht) as [Hid Hs].
    eapply IH; [done|]. apply Hwrite; [done| |done]. destruct Hs. by destruct t.
Qed.

(** ** The rules of a board *)

Record task_rules (seats : gset string) (ts : gmap TaskId Task) (id : TaskId) (t : Task) : Prop := {
  tr_creator : creator t ∈ seats;
  tr_assignees a : a ∈ assignees t → a ∈ seats;
  tr_dates a d : after t = Some a → due t = Some d → (num_days_from_ce a ≤ num_days_from_ce d)%Z;
  tr_series_when : is_series t = true → is_some (when t) = true;
  tr_series_state : is_series t = true → state t = Todo ∨ state t = Cancelled;
  tr_exceptions d : d ∈ skip t ++ (moved t).*1 →
    ∃ w rp, when t = Some w ∧ trepeat t = Some rp ∧ is_occurrence w rp d = true;
  tr_links b : b ∈ blocked_by t → b ≠ id ∧ is_series t = false ∧ ∃ p, ts !! b = Some p ∧ is_series p = false;
}.

Lemma check_blockers_ok ts id t l : check_blockers ts id t l = Ok tt →
  ∀ b, b ∈ l → b ≠ id ∧ is_series t = false ∧ ∃ p, ts !! b = Some p ∧ is_series p = false.
Proof.
  induction l as [|x l IH]; cbn [check_blockers]; intros Hp b Hb; [by apply elem_of_nil in Hb|].
  apply reject_ok in Hp as [Hx Hp]. destruct (ts !! x) as [p|] eqn:Ep; [|done]. apply reject_ok in Hp as [Hs Hp].
  apply elem_of_cons in Hb as [->|Hb]; [|by apply IH].
  apply orb_false_iff in Hs as [? ?]. apply bool_decide_eq_false in Hx. split; [done|]. split; [done|]. by exists p.
Qed.

Lemma find_none_all {A} (f : A → bool) l : find f l = None → ∀ x, x ∈ l → f x = false.
Proof. intros Hf x Hx. apply (find_none f l Hf). by apply list_elem_of_In. Qed.

Lemma check_task_rules ts id t seats : check_task ts id t seats = Ok tt → task_rules seats ts id t.
Proof.
  unfold check_task. intros [Hc Hp]%reject_ok. apply negb_false_iff, bool_decide_eq_true in Hc.
  destruct (find _ (assignees t)) eqn:Ea; [done|]. apply reject_ok in Hp as [Hd Hp].
  apply reject_ok in Hp as [Hw Hp]. apply reject_ok in Hp as [Hst Hp]. apply obind_ok in Hp as ([] & Hk & Hl). split.
  - done.
  - intros a Ha. pose proof (find_none_all _ _ Ea a Ha) as Hn. by apply negb_false_iff, bool_decide_eq_true in Hn.
  - intros a d Hafter Hdue. rewrite Hafter, Hdue in Hd. unfold date_lt in Hd. apply Z.ltb_ge in Hd. lia.
  - unfold is_series. intros Hs. rewrite Hs in Hw. cbn [andb] in Hw. by apply negb_false_iff in Hw.
  - intros Hs. rewrite Hs in Hst. cbn [andb] in Hst. apply negb_false_iff in Hst. destruct (state t); auto; done.
  - intros d Hin. destruct (when t) as [w|], (trepeat t) as [rp|];
      try by (destruct (skip t), (moved t); [by apply elem_of_nil in Hin|done..]).
    destruct (find _ (skip t ++ _)) eqn:Ef; [done|]. exists w, rp. split; [done|]. split; [done|].
    pose proof (find_none_all _ _ Ef d Hin) as Hn. by apply negb_false_iff in Hn.
  - by apply check_blockers_ok.
Qed.

Lemma linked_to_none ts id : linked_to ts id = None → ∀ d t, ts !! d = Some t → id ∉ blocked_by t.
Proof.
  unfold linked_to. intros Hn d t Hd Hin. destruct (find _ (sorted_entries ts)) eqn:Ef; [done|].
  pose proof (find_none_all _ _ Ef (d, t)) as Hf. cbn in Hf. rewrite bool_decide_eq_true_2 in Hf by done.
  discriminate Hf. unfold sorted_entries. rewrite merge_sort_Permutation. by apply elem_of_map_to_list.
Qed.

Lemma check_touched_ok ts seats ids : check_touched ts seats ids = Ok tt →
  ∀ id t, id ∈ ids → ts !! id = Some t →
    task_rules seats ts id t ∧ (is_series t = true → ∀ d u, ts !! d = Some u → id ∉ blocked_by u).
Proof.
  induction ids as [|x ids IH]; cbn [check_touched]; intros Hp id t Hid Ht; [by apply elem_of_nil in Hid|].
  destruct (ts !! x) as [u|] eqn:Eu.
  - apply obind_ok in Hp as ([] & Hc%omap_err_ok & Hp). destruct (if is_series u then _ else _) eqn:El; [done|].
    apply elem_of_cons in Hid as [->|Hid]; [|by apply IH]. rewrite Eu in Ht. injection Ht as ->.
    split; [by apply check_task_rules|]. intros Hs. rewrite Hs in El. by apply linked_to_none.
  - apply elem_of_cons in Hid as [->|Hid]; [congruence|by apply IH].
Qed.

(** ** The invariant *)

Record board_ok (seats : gset string) (b : BoardState) : Prop := {
  bo_rev : (rev b <= u64_max)%N;
  bo_tasks id t : tasks b !! id = Some t →
    is_hex32 id = true ∧ task_shape (rev b) t ∧ task_rules seats (tasks b) id t;
  bo_grounded id : grounded (blocked_by <$> tasks b) id;
}.

Lemma board_default_ok seats : board_ok seats board_default.
Proof.
  split; cbn.
  - done.
  - intros id t. by rewrite lookup_empty.
  - intros id. constructor. intros m [Hm _]. rewrite fmap_empty, lookup_empty in Hm. by apply elem_of_nil in Hm.
Qed.

Lemma task_shape_mono r r' t : (r <= r')%N → task_shape r t → task_shape r' t.
Proof. intros Hr []. split; try done. lia. Qed.

(** An untouched task keeps its rules on the new board. *)
Lemma rules_kept seats r ts ts' touched id t :
  evolves r ts ts' touched → task_rules seats ts id t →
  (∀ x u, x ∈ touched → ts' !! x = Some u → is_series u = true → ∀ d v, ts' !! d = Some v → x ∉ blocked_by v) →
  ts' !! id = Some t → task_rules seats ts' id t.
Proof.
  intros [Hk Hs _] [] Hseries Ht. split; try done.
  intros b Hb. destruct (tr_links0 b Hb) as (Hne & Hst & p & Hp & Hps). split; [done|]. split; [done|].
  destruct (Hk b) as [p' Hp']; [by eexists|]. exists p'. split; [done|].
  destruct (decide (b ∈ touched)) as [Hin|Hout].
  - destruct (is_series p') eqn:Es; [|done]. by destruct (Hseries b p' Hin Hp' Es id t Ht).
  - rewrite Hs in Hp' by done. congruence.
Qed.

Lemma elem_of_sorted_ids x s : x ∈ sorted_ids s ↔ x ∈ s.
Proof. unfold sorted_ids. rewrite merge_sort_Permutation. apply elem_of_elements. Qed.

Lemma apply_changeset_ok seats b acts r ts : board_ok seats b → (rev b <= r <= u64_max)%N → Forall act_ok acts →
  apply_changeset b acts r seats = Ok ts → board_ok seats {| rev := r; tasks := ts |}.
Proof.
  intros [_ Htasks Hground] Hr Hacts. unfold apply_changeset. intros ([ts' touched] & Ha & Hp)%obind_ok.
  apply obind_ok in Hp as ([] & Hc & Hp). apply Ok_inj in Hp as ->.
  unfold check_result in Hc. apply obind_ok in Hc as ([] & Ht & Hcyc).
  destruct (find_cycle _ _) eqn:Ef; [done| |done].
  pose proof (apply_acts_evolves r acts (tasks b) (tasks b) ∅ ts touched Ha) as Hev.
  destruct Hev as [Hk Hs Htr]; [split; [done|done|by intros ? ? ?%elem_of_empty]|].
  assert (Hrules : ∀ id t, id ∈ touched → ts !! id = Some t →
    task_rules seats ts id t ∧ (is_series t = true → ∀ d u, ts !! d = Some u → id ∉ blocked_by u)).
  { intros id t Hin Hid. apply (check_touched_ok ts seats _ Ht); [by apply elem_of_sorted_ids|done]. }
  split; cbn.
  - lia.
  - intros id t Hid. destruct (apply_acts_shape r acts (tasks b) ∅ ts touched Ha Hacts) with (id := id) (t := t) as [Hx Hsh]; [|done|].
    { intros x u Hu. destruct (Htasks x u Hu) as (? & ? & _). split; [done|]. apply (task_shape_mono (rev b)); [lia|done]. }
    split; [done|]. split; [done|]. destruct (decide (id ∈ touched)) as [Hin|Hout]; [by apply Hrules|].
    apply (rules_kept seats r (tasks b) ts touched); [done| |intros x u Hx' Hu; by apply (Hrules x u)|done].
    apply Htasks. by rewrite <-Hs.
  - apply (grounded_update (blocked_by <$> tasks b) _ touched); [| |done].
    + intros n Hn. by rewrite !lookup_fmap, Hs.
    + intros n Hn Hsome. pose proof (find_cycle_spec (blocked_by <$> ts) (sorted_ids touched)) as Hspec.
      rewrite Ef in Hspec. apply Hspec; [by apply elem_of_sorted_ids|done].
Qed.

Lemma fold_one_ok seats b p : board_ok seats b → board_ok seats (kanban_fold_one b p seats).1.
Proof.
  intros Hb. unfold kanban_fold_one. destruct (decide _); [|done].
  assert (Hr : (rev b <= u64_saturating_add (rev b) 1 <= u64_max)%N).
  { pose proof (bo_rev _ _ Hb). unfold u64_saturating_add. lia. }
  assert (Hvoid : board_ok seats {| rev := u64_saturating_add (rev b) 1; tasks := tasks b |}).
  { destruct Hb as [_ Ht Hg]. split; cbn; [lia| |done]. intros id t Hid. destruct (Ht id t Hid) as (? & ? & ?).
    split; [done|]. split; [apply (task_shape_mono (rev b)); [lia|done]|done]. }
  destruct (let? acts := _ in _) as [ts|err|] eqn:Ep; cbn [fst]; [|done|done].
  apply obind_ok in Ep as (acts & (ops & _ & Hops)%omap_err_ok%parse_changeset_acts & Hp).
  apply (apply_changeset_ok seats b acts); [done|done|by eapply parse_acts_ok|done].
Qed.

Lemma fold_onto_ok seats b ps : board_ok seats b → board_ok seats (kanban_fold_onto b ps seats).
Proof. revert b. induction ps as [|p ps IH]; intros b Hb; [done|]. by apply IH, fold_one_ok. Qed.

End Fold.

(** C13: the rules of the board hold after every fold.  Whatever payloads were
    applied, in any order: each task's id is 32 hex characters, its title one
    line, its assignees and its creator are seats and no assignee is named
    twice, [after] is not later than [due], a series has a window and is open
    or cancelled, [skip] and [moved] name only dates the series has, every
    prerequisite is a known task other than the task itself, neither being a
    series, evidence stands only on a success, and no chain of prerequisites
    leads back to where it started. *)
Theorem board_invariant `{Chrono} (seats : gset string) (applied : list Value) :
  let b := kanban_fold applied seats in
  (∀ id t, tasks b !! id = Some t →
     is_hex32 id = true ∧ task_shape (rev b) t ∧ task_rules seats (tasks b) id t) ∧
  ∀ id, ¬ tc (edge (blocked_by <$> tasks b)) id id.
Proof.
  intros b. destruct (fold_onto_ok seats board_default applied (board_default_ok seats)) as [_ Ht Hg].
  split; [exact Ht|]. intros id. by apply (grounded_no_cycle _ id).
Qed.

(** ** The lifecycle as a step relation *)

Section Lifecycle.
Context `{Chrono}.

(** Every prerequisite is met. *)
Definition ready (ts : gmap TaskId Task) (t : Task) : Prop :=
  ∀ b, b ∈ blocked_by t → ∃ p, ts !! b = Some p ∧ (state p = Success ∨ state p = Cancelled).

Definition noted (nt : option string) : Prop := ∃ n, nt = Some n ∧ trim n ≠ "".

(** The steps a task may take on a board, with a note. *)
Inductive moves (ts : gmap TaskId Task) (t : Task) (nt : option string) : TaskState → TaskState → Prop :=
  | Start : trepeat t = None → ready ts t → moves ts t nt Todo Wip
  | PutBack : trepeat t = None → moves ts t nt Wip Todo
  | Succeed : trepeat t = None → moves ts t nt Wip Success
  | GiveUp : trepeat t = None → noted nt → moves ts t nt Wip Fail_
  | Retry : trepeat t = None → moves ts t nt Fail_ Wip
  | Attended w : when t = Some w → trepeat t = None → ready ts t → moves ts t nt Todo Success
  | Missed w : when t = Some w → trepeat t = None → ready ts t → noted nt → moves ts t nt Todo Fail_
  | Cancel from : from = Todo ∨ (from = Wip ∨ from = Fail_) ∧ trepeat t = None → noted nt → moves ts t nt from Cancelled
  | Reopen from : from = Cancelled ∨ (from = Success ∨ from = Fail_) ∧ trepeat t = None → moves ts t nt from Todo.

Lemma unmet_ready ts t : unmet_prerequisite ts t = None ↔ ready ts t.
Proof.
  unfold unmet_prerequisite, ready. induction (blocked_by t) as [|b l IH]; csimpl.
  { split; [by intros _ b ?%elem_of_nil|done]. }
  destruct (ts !! b) as [p|] eqn:Ep.
  - destruct (is_met (state p)) eqn:Em.
    + rewrite IH. split.
      * intros Hall x [->|Hx]%elem_of_cons; [|by apply Hall]. exists p. split; [done|]. destruct (state p); auto; done.
      * intros Hall x Hx. apply Hall. by constructor.
    + split; [done|]. intros Hall. destruct (Hall b) as (p' & Hp' & Hs); [by constructor|].
      rewrite Ep in Hp'. injection Hp' as <-. by destruct Hs as [Hs|Hs]; rewrite Hs in Em.
  - split; [done|]. intros Hall. destruct (Hall b) as (p' & Hp' & _); [by constructor|congruence].
Qed.

Lemma has_note_noted nt :
  match nt with Some n => negb (str_empty (trim n)) | None => false end = true ↔ noted nt.
Proof.
  unfold noted. destruct nt as [n|]; [|split; [done|by intros (? & ? & _)]].
  destruct (trim n) as [|c s] eqn:Et; cbn; split; try done.
  - intros (n' & [= <-] & Hn). congruence.
  - intros _. exists n. split; [done|]. by rewrite Et.
Qed.

(** The same table, by pairs of states. *)
Lemma moves_table ts t nt from to : moves ts t nt from to ↔
  match from, to with
  | Todo, Wip => trepeat t = None ∧ ready ts t
  | Wip, Todo | Wip, Success | Fail_, Wip | Success, Todo | Fail_, Todo => trepeat t = None
  | Wip, Fail_ | Wip, Cancelled | Fail_, Cancelled => trepeat t = None ∧ noted nt
  | Todo, Success => is_some (when t) = true ∧ trepeat t = None ∧ ready ts t
  | Todo, Fail_ => is_some (when t) = true ∧ trepeat t = None ∧ ready ts t ∧ noted nt
  | Todo, Cancelled => noted nt
  | Cancelled, Todo => True
  | _, _ => False
  end.
Proof.
  split.
  - destruct 1 as [| | | | |w Hw|w Hw|from Hf|from Hf]; rewrite ?Hw; try done;
      destruct Hf as [->|[[->| ->] ?]]; done.
  - destruct from, to; intros Hm; try done; try (by constructor; naive_solver).
    all: destruct (when t) as [w|] eqn:Ew; [|by destruct Hm]; econstructor; naive_solver.
Qed.

End Lifecycle.

(** The lifecycle is the table.  A state act is accepted exactly when the
    task is known and the step is one of the table's: a start only when every
    prerequisite is met, a failure or a cancellation only with a note, a close
    straight from [todo] only for a task timed once, and a series only to
    cancel or to reopen. *)
Theorem lifecycle_exact `{Chrono} (ts : gmap TaskId Task) (id : TaskId) (to : TaskState) (nt : option string) :
  transition ts id to nt = Ok tt ↔ ∃ t, ts !! id = Some t ∧ moves ts t nt (state t) to.
Proof.
  unfold transition. destruct (ts !! id) as [t|]; cbn [ok_or obind]; [|split; [done|by intros (? & ? & _)]].
  assert (Hone : (∃ u, Some t = Some u ∧ moves ts u nt (state u) to) ↔ moves ts t nt (state t) to).
  { split; [by intros (u & [= <-] & ?)|by exists t]. }
  rewrite Hone. clear Hone. pose proof (has_note_noted nt) as Hnote. pose proof (unmet_ready ts t) as Hready.
  rewrite moves_table. revert Hnote Hready. unfold is_series, is_timed_once.
  generalize (match nt with Some n => negb (str_empty (trim n)) | None => false end) as hn.
  generalize (unmet_prerequisite ts t) as un. intros un hn Hnote Hready.
  destruct (state t), to; cbn; rewrite <-?Hnote, <-?Hready; clear Hnote Hready;
    destruct (trepeat t) as [rp|], un as [[b p]|], hn, (is_some (when t)); cbn;
    (split; intros; destruct_and?; done).
Qed.

(** ** Nothing here panics *)

Definition safe {E A} (m : outcome E A) : Prop := m ≠ Panic.

Lemma safe_obind {E A B} (m : outcome E A) (k : A → outcome E B) : safe m → (∀ a, safe (k a)) → safe (obind m k).
Proof. destruct m; cbn; [by intros _ Hk|done|by intros []]. Qed.
Lemma safe_ok_or {E A} (o : option A) (e : E) : safe (ok_or o e).
Proof. by destruct o. Qed.
Lemma safe_omap_err {E F A} (f : E → F) (m : outcome E A) : safe m → safe (omap_err f m).
Proof. by destruct m. Qed.
Lemma safe_Ok {E A} (a : A) : safe (Ok (E:=E) a).
Proof. done. Qed.
Lemma safe_Err {E A} (e : E) : safe (Err (A:=A) e).
Proof. done. Qed.

#[export] Hint Resolve safe_ok_or safe_omap_err safe_Ok safe_Err : molt.

Ltac no_panic :=
  repeat first
    [ progress eauto with molt
    | apply safe_obind; [|intros ?]
    | apply safe_omap_err
    | match goal with |- safe (match ?x with _ => _ end) => destruct x end ].

Lemma safe_traverse {E A B} (f : A → outcome E B) l : (∀ a, safe (f a)) → safe (traverse f l).
Proof. intros Hf. induction l as [|a l IH]; cbn [traverse]; no_panic. Qed.

#[export] Hint Resolve safe_traverse : molt.

Section NoPanic.
Context `{Chrono}.

Lemma safe_when_parse v : safe (when_parse v).
Proof. unfold when_parse. no_panic. Qed.
Lemma safe_parse_byday days acc : safe (parse_byday days acc).
Proof. revert acc. induction days as [|d days IH]; intros acc; cbn [parse_byday]; no_panic. Qed.
Hint Resolve safe_when_parse safe_parse_byday : molt.
Lemma safe_repeat_parse v : safe (repeat_parse v).
Proof. unfold repeat_parse. no_panic. Qed.
Lemma safe_parse_moved o out : safe (parse_moved o out).
Proof. revert out. induction o as [|[k w] o IH]; intros out; cbn [parse_moved]; no_panic. Qed.
Hint Resolve safe_repeat_parse safe_parse_moved : molt.
Lemma safe_parse_field k v : safe (parse_field k v).
Proof. unfold parse_field, line_list, str_list, date_of, opt_str, nullable, null_list, line_list. no_panic. Qed.
Lemma safe_check_loop id fs d a : safe (check_fields_loop id fs d a).
Proof.
  revert d a. induction fs as [|f fs IH]; intros d a; cbn [check_fields_loop]; [done|].
  destruct f; try apply IH. destruct id; [destruct (bool_decide _); [done|]|]; apply IH.
Qed.
Lemma safe_check_fields id fs : safe (check_fields id fs).
Proof. unfold check_fields. apply safe_obind; [apply safe_check_loop|intros ?; no_panic]. Qed.
Hint Resolve safe_parse_field safe_check_fields : molt.
Lemma safe_check_id door refs s : safe (check_id door refs s).
Proof. unfold check_id. no_panic. Qed.
Hint Resolve safe_check_id : molt.
Lemma safe_id_of door refs v k : safe (id_of door refs v k).
Proof. unfold id_of. no_panic. Qed.
Lemma safe_check_links door refs fs : safe (check_links door refs fs).
Proof.
  induction fs as [|f fs IH]; cbn [check_links]; [no_panic|]. destruct f; try done. apply safe_obind; [|done].
  induction l as [|x l IHl]; cbn [check_ids]; no_panic.
Qed.
Lemma safe_add_fields o : safe (add_fields o).
Proof. induction o as [|[k v] o IH]; cbn [add_fields]; no_panic. Qed.
Lemma safe_set_fields door o : safe (set_fields door o).
Proof. induction o as [|[k v] o IH]; cbn [set_fields]; no_panic. Qed.
Lemma safe_check_each ids fs : safe (check_each ids fs).
Proof. induction ids as [|i ids IH]; cbn [check_each]; no_panic. Qed.
Hint Resolve safe_id_of safe_check_links safe_add_fields safe_set_fields safe_check_each : molt.
Lemma safe_parse_act door refs v : safe (parse_act door refs v).
Proof.
  unfold parse_act, parse_add, parse_set, parse_state, add_id, add_ref, add_creator, str_list. no_panic.
Qed.
Hint Resolve safe_parse_act : molt.
Lemma safe_collect_refs ops rs : safe (collect_refs ops rs).
Proof. revert rs. induction ops as [|op ops IH]; intros rs; cbn [collect_refs]; no_panic. Qed.
Lemma safe_parse_acts door refs i ops : safe (parse_acts door refs i ops).
Proof. revert i. induction ops as [|op ops IH]; intros i; cbn [parse_acts]; no_panic. Qed.
Hint Resolve safe_collect_refs safe_parse_acts : molt.
Lemma safe_parse_changeset v door : safe (parse_changeset v door).
Proof. unfold parse_changeset. no_panic. Qed.
Hint Resolve safe_parse_changeset : molt.

Lemma safe_transition ts id to nt : safe (transition ts id to nt).
Proof. unfold transition. no_panic. Qed.
Hint Resolve safe_transition : molt.
Lemma safe_check_blockers ts id t l : safe (check_blockers ts id t l).
Proof. induction l as [|b l IH]; cbn [check_blockers]; no_panic. Qed.
Hint Resolve safe_check_blockers : molt.
Lemma safe_check_task ts id t seats : safe (check_task ts id t seats).
Proof. unfold check_task. no_panic. Qed.
Hint Resolve safe_check_task : molt.
Lemma safe_check_touched ts seats ids : safe (check_touched ts seats ids).
Proof. induction ids as [|id ids IH]; cbn [check_touched]; no_panic. Qed.
Hint Resolve safe_check_touched : molt.
Lemma safe_apply_acts r acts ts touched : safe (apply_acts r acts ts touched).
Proof. revert ts touched. induction acts as [|a acts IH]; intros ts touched; cbn [apply_acts]; no_panic. Qed.
Hint Resolve safe_apply_acts : molt.
Lemma safe_check_result ts touched seats : safe (check_result ts touched seats).
Proof.
  unfold check_result. apply safe_obind; [apply safe_check_touched|]. intros _.
  pose proof (find_cycle_spec (blocked_by <$> ts) (sorted_ids touched)) as Hs.
  by destruct (find_cycle _ _).
Qed.
Hint Resolve safe_check_result : molt.
Lemma safe_apply_changeset b acts r seats : safe (apply_changeset b acts r seats).
Proof. unfold apply_changeset. no_panic. Qed.

Hint Resolve safe_apply_changeset : molt.

(** The changeset's result: what the fold and the precheck share. *)
Definition attempt (b : BoardState) (p : Value) (seats : gset string) : outcome Fault (gmap TaskId Task) :=
  let? acts := omap_err (λ e, fault_from (BadShape e)) (parse_changeset p Canonical_) in
  apply_changeset b acts (u64_saturating_add (rev b) 1) seats.

Lemma safe_attempt b p seats : safe (attempt b p seats).
Proof. unfold attempt. no_panic. Qed.

Lemma attempt_evolves b p seats ts : attempt b p seats = Ok ts →
  ∃ touched, evolves (u64_saturating_add (rev b) 1) (tasks b) ts touched.
Proof.
  unfold attempt. intros (acts & _ & Ha)%obind_ok. unfold apply_changeset in Ha.
  apply obind_ok in Ha as ([ts' touched] & Ha & Hp). apply obind_ok in Hp as (? & _ & Hp). apply Ok_inj in Hp as ->.
  exists touched. eapply apply_acts_evolves; [done|]. split; [done|done|by intros ? ? ?%elem_of_empty].
Qed.

Lemma precheck_attempt b p seats : kanban_precheck b p seats = (let? _ := attempt b p seats in Ok tt).
Proof. unfold kanban_precheck, attempt. by destruct (parse_changeset p Canonical_). Qed.

End NoPanic.

(** C34: one payload, one verdict.  A payload that is no changeset leaves the
    board as it is.  A changeset always counts in [rev]; it is applied exactly
    when the precheck accepts it, and then no task disappears and every task
    that differs carries the new [rev]; when it is void, the tasks are exactly
    those before and the reason is the one the precheck gave. *)
Theorem fold_step_exact `{Chrono} (seats : gset string) (b : BoardState) (p : Value) :
  let (b', step) := kanban_fold_one b p seats in
  match step with
  | Skipped => op_of p ≠ Some "kanban_ops" ∧ b' = b
  | Applied => rev b' = u64_saturating_add (rev b) 1 ∧ kanban_precheck b p seats = Ok tt ∧
      ∀ id, (is_Some (tasks b !! id) → is_Some (tasks b' !! id)) ∧
        ∀ t, tasks b' !! id = Some t → tasks b !! id = Some t ∨ touched_rev t = rev b'
  | Void r => rev b' = u64_saturating_add (rev b) 1 ∧ tasks b' = tasks b ∧
      ∃ f, kanban_precheck b p seats = Err f ∧ reason f = r
  end.
Proof.
  rewrite precheck_attempt. unfold kanban_fold_one. destruct (decide _) as [Hop|Hop]; [|done].
  fold (attempt b p seats). pose proof (safe_attempt b p seats) as Hsafe.
  destruct (attempt b p seats) as [ts|f|] eqn:Ea; cbn; [| |done].
  - split; [done|]. split; [done|]. destruct (attempt_evolves b p seats ts Ea) as (touched & [Hk Hs Ht]).
    intros id. split; [apply Hk|]. intros t Hid. destruct (decide (id ∈ touched)) as [Hin|Hout].
    + right. by eapply Ht.
    + left. by rewrite <-Hs.
  - split; [done|]. split; [done|]. by exists f.
Qed.
