(* ===== verification/Canonicalize.v ===== *)
(** * What a proposer signs

    [kanban_canonicalize] at the propose door: whoever a payload names, every
    task it adds is signed as the proposer's own. *)

From S2P Require Import Prelude Strs Json Calendar Kanban Board BoardProps.

(** ** Sorted objects *)

Lemma assoc_obj_insert k v m : assoc k (obj_insert k v m) = Some v.
Proof.
  induction m as [|[k' v'] m IH]; cbn [obj_insert]; [by cbn; rewrite decide_True|].
  destruct (String.compare k k') eqn:Ec; cbn [assoc]; [by rewrite decide_True..|].
  rewrite decide_False; [done|]. intros ->. pose proof (String.compare_antisym k' k') as Ha. by rewrite Ec in Ha.
Qed.

Lemma assoc_obj_insert_ne k k' v m : k' ≠ k → assoc k' (obj_insert k v m) = assoc k' m.
Proof.
  intros Hne. induction m as [|[x w] m IH]; cbn [obj_insert]; [by cbn; rewrite decide_False|].
  destruct (String.compare k x) eqn:Ec; cbn [assoc].
  - apply String.compare_eq_iff in Ec as ->. by rewrite !decide_False.
  - by rewrite decide_False.
  - by rewrite IH.
Qed.

Lemma assoc_obj_remove_ne k k' m : k' ≠ k → assoc k' (obj_remove k m) = assoc k' m.
Proof.
  intros Hne. unfold obj_remove. induction m as [|[x w] m IH]; [done|]. rewrite filter_cons. cbn [fst].
  destruct (decide (x ≠ k)) as [Hx|Hx]; cbn [assoc]; [by rewrite IH|].
  apply dec_stable in Hx as ->. by rewrite decide_False.
Qed.

Lemma assoc_obj_modify_ne k k' f m : k' ≠ k → assoc k' (obj_modify k f m) = assoc k' m.
Proof.
  intros Hne. induction m as [|[x w] m IH]; [done|]. csimpl. fold (obj_modify k f m).
  destruct (decide (x = k)) as [->|]; cbn [assoc]; [by rewrite !decide_False|]. by rewrite IH.
Qed.

Lemma assoc_obj_modify k f m : assoc k (obj_modify k f m) = f <$> assoc k m.
Proof.
  induction m as [|[x w] m IH]; [done|]. csimpl. fold (obj_modify k f m).
  destruct (decide (x = k)) as [->|]; cbn [assoc fst snd]; [by rewrite !decide_True|]. rewrite !decide_False; done.
Qed.

Section Creator.
Context `{Chrono} {St : Type}.
Variables (mint : St → option (TaskId * St)) (author : string).

(** An op that adds is signed by the author. *)
Definition signed (op : Value) : Prop :=
  get_str "act" op = Some "add" → get_str "creator" op = Some author.

Lemma stamp_add_signed obj refs s obj' refs' fresh s' :
  stamp_add mint author obj refs s = Ok (obj', refs', fresh, s') → signed (Object obj').
Proof.
  unfold stamp_add. intros ([[[id fr] o] st] & _ & Hp)%obind_ok. injection Hp as <- <- <- <-.
  intros _. unfold get_str, get. by rewrite assoc_obj_insert.
Qed.

Lemma stamp_signed ops refs s ops' refs' fresh s' :
  stamp mint author ops refs s = Ok (ops', refs', fresh, s') → Forall signed ops'.
Proof.
  revert refs s ops' refs' fresh s'. induction ops as [|op ops IH]; intros refs s ops' refs' fresh s' Hp; cbn [stamp] in Hp.
  { injection Hp as <- <- <- <-. constructor. }
  assert (Hplain : ∀ r, stamp mint author ops refs s = Ok r → signed op →
    Forall signed (let '(os, _, _, _) := r in op :: os)).
  { intros [[[os rs] fr] st] Hr Hop. constructor; [done|]. by eapply IH. }
  destruct op as [| | | | |obj];
    try (apply obind_ok in Hp as ([[[os rs] fr] st] & Hr & Hp); injection Hp as <- <- <- <-; by apply (Hplain _ Hr)).
  destruct (decide _) as [Ha|Ha].
  - apply obind_ok in Hp as ([[[o rs] fr] st] & Hs & Hp). apply obind_ok in Hp as ([[[os rs'] fr'] st'] & Hr & Hp).
    injection Hp as <- <- <- <-. constructor; [by eapply stamp_add_signed|by eapply IH].
  - apply obind_ok in Hp as ([[[os rs] fr] st] & Hr & Hp). injection Hp as <- <- <- <-. apply (Hplain _ Hr).
    intros Ha'. done.
Qed.

Lemma rewrite_op_key refs k op : k ∉ ["fields"; "blocked_by"; "type"; "id"] →
  get k (rewrite_op refs op) = get k op.
Proof.
  intros Hk. destruct op; try done. unfold rewrite_op, get, resolve_links, trim_type.
  rewrite !assoc_obj_modify_ne; [done|set_solver..].
Qed.

Lemma rewrite_op_signed refs op : signed op → signed (rewrite_op refs op).
Proof.
  unfold signed, get_str. intros Hs. rewrite !rewrite_op_key; [done| |];
    rewrite !not_elem_of_cons; (split_and!; [done..|apply not_elem_of_nil]).
Qed.

(** The parser reads the creator of an [add] off the op. *)
Lemma parse_act_signed op id c fs : signed op → parse_act Canonical_ [] op = Ok (Add id c fs) → c = Some author.
Proof.
  intros Hs. unfold parse_act. intros (obj & _ & Hp)%obind_ok. destruct (get_str "act" op) as [a|] eqn:Ea; [|done].
  destruct (decide (a = "add")) as [->|].
  - specialize (Hs Ea). unfold parse_add in Hp.
    apply obind_ok in Hp as (fs' & _ & Hp). do 3 apply reject_ok in Hp as [_ Hp].
    do 3 apply obind_ok in Hp as (? & _ & Hp). apply obind_ok in Hp as (c' & Hc & Hp). apply reject_ok in Hp as [_ Hp].
    do 2 apply obind_ok in Hp as (? & _ & Hp). injection Hp as _ <- _.
    unfold add_creator in Hc. rewrite decide_False, Hs in Hc by done. destruct (str_empty author); [done|].
    by apply Ok_inj in Hc as <-.
  - destruct (decide (a = "set")).
    + unfold parse_set in Hp. destruct (stray _ obj); [done|]. apply obind_ok in Hp as (? & _ & Hp).
      destruct (_ ≫= as_object) as [[|f fobj]|]; [done| |done]. do 3 apply obind_ok in Hp as (? & _ & Hp). done.
    + destruct (decide (a = "state")); [|done]. unfold parse_state in Hp. destruct (stray _ obj); [done|].
      do 4 apply obind_ok in Hp as (? & _ & Hp). done.
Qed.

Lemma parse_acts_signed i ops acts : parse_acts Canonical_ [] i ops = Ok acts → Forall signed ops →
  ∀ id c fs, Add id c fs ∈ acts → c = Some author.
Proof.
  revert i acts. induction ops as [|op ops IH]; intros i acts Hp Hs id c fs Hin; cbn [parse_acts] in Hp.
  { apply Ok_inj in Hp as <-. by apply elem_of_nil in Hin. }
  apply Forall_cons in Hs as [Hop Hops].
  apply obind_ok in Hp as (a & Ha%omap_err_ok & Hp). apply obind_ok in Hp as (as' & Has & Hp). apply Ok_inj in Hp as <-.
  apply elem_of_cons in Hin as [<-|Hin]; [by eapply parse_act_signed|by eapply IH].
Qed.

End Creator.

(** A task is signed as its proposer's.  Whatever [creator] a payload
    supplies, and whatever ids the minter returns, a canonical payload is
    accepted at the wire door and every task it adds names the proposer as its
    creator. *)
Theorem adds_name_proposer `{Chrono} {St} (mint : St → option (TaskId * St)) (author : string) (p : Value) (s : St) c s' :
  kanban_canonicalize mint author p s = Ok (c, s') →
  ∃ acts, parse_changeset (payload c) Canonical_ = Ok acts ∧
    ∀ id cr fs, Add id cr fs ∈ acts → cr = Some author.
Proof.
  unfold kanban_canonicalize. intros (? & _ & Hp)%obind_ok.
  destruct (get "ops" p ≫= as_array) as [ops|] eqn:Eops; [|done]. destruct p as [| | | | |m]; try done.
  apply obind_ok in Hp as ([[[ops' refs] fresh] st] & Hst & Hp).
  apply obind_ok in Hp as (? & Hv%omap_err_ok & Hp). injection Hp as <- <-. cbn [payload].
  unfold validate_kanban_wire in Hv. apply obind_ok in Hv as (acts & Hacts & _). exists acts. split; [done|].
  assert (Hops : get "ops" (Object (obj_modify "ops" (λ _, Array (rewrite_op refs <$> ops')) m)) ≫= as_array =
    Some (rewrite_op refs <$> ops')).
  { unfold get in *. rewrite assoc_obj_modify. by destruct (assoc "ops" m). }
  destruct (parse_changeset_acts _ _ Hacts) as (l & Hl & Hparse). rewrite Hops in Hl. injection Hl as <-.
  intros id cr fs. eapply parse_acts_signed; [exact Hparse|]. apply Forall_fmap.
  eapply Forall_impl; [by eapply stamp_signed|]. intros op Hop. by apply rewrite_op_signed.
Qed.
