(* ===== verification/KanbanJson.v ===== *)
(** * The JSON of windows, rules, tasks and boards

    [When::to_json] and [Repeat::to_json] against their parsers, and the
    canonical JSON of a task and of a board, which tells two boards apart. *)

From stdpp Require Import sorting.
From S2P Require Import Prelude Strs Json WikiFold Calendar Kanban Board BoardProps.

(** ** Task::to_json, BoardState::to_json *)

Definition strs (l : list string) : Value := Array (Str <$> l).

(** A key with its value, when it is written. *)
Definition entries (l : list (string * option Value)) : list (string * Value) :=
  omap (λ kv, (λ v, (kv.1, v)) <$> kv.2) l.

Definition if_some {A} (f : A → Value) (o : option A) : option Value := f <$> o.
Definition if_any {A} (f : list A → Value) (l : list A) : option Value := match l with [] => None | _ => Some (f l) end.

(** The keys in the order the code inserts them, which is their order. *)
Definition task_entries `{Chrono} (t : Task) : list (string * option Value) :=
  [("acceptance", if_any strs (acceptance t));
   ("after", if_some (Str ∘ fmt_date) (after t));
   ("assignees", Some (strs (assignees t)));
   ("blocked_by", if_any strs (blocked_by t));
   ("creator", Some (Str (creator t)));
   ("description", if_some Str (description t));
   ("due", if_some (Str ∘ fmt_date) (due t));
   ("evidence", if_any strs (evidence t));
   ("moved", if_any (λ m, Object ((λ kw, (fmt_date kw.1, when_to_json kw.2)) <$> m)) (moved t));
   ("note", if_some Str (note t));
   ("out_of_scope", if_any strs (out_of_scope t));
   ("repeat", if_some repeat_to_json (trepeat t));
   ("size", if_some (Str ∘ size_str) (tsize t));
   ("skip", if_any (λ l, Array (Str ∘ fmt_date <$> l)) (skip t));
   ("state", Some (Str (state_str (state t))));
   ("title", Some (Str (title t)));
   ("touched_rev", Some (Num (PosInt (touched_rev t))));
   ("type", if_some Str (kind t));
   ("when", if_some when_to_json (when t))].

Definition task_to_json `{Chrono} (t : Task) : Value := Object (entries (task_entries t)).

Definition board_to_json `{Chrono} (b : BoardState) : Value :=
  Object [("rev", Num (PosInt (rev b)));
          ("tasks", Object ((λ e, (e.1, task_to_json e.2)) <$> sorted_entries (tasks b)))].

(** ** Windows *)

Section RoundTrip.
Context `{Hlaws : ChronoLaws}.

Definition date_valid (d : NaiveDate) : Prop := in_years (year d) = true.

Definition when_valid (w : When) : Prop :=
  match w with
  | AllDay s e => date_valid s ∧ date_valid e ∧ date_le s e = true
  | Timed s e => (date_valid s.1 ∧ (s.2 < 1440)%N) ∧ (date_valid e.1 ∧ (e.2 < 1440)%N) ∧ time_lt s e = true
  end.

Lemma parse_fmt_date d : date_valid d → parse_date (fmt_date d) = Some d.
Proof.
  intros Hd. unfold parse_date, fmt_date. rewrite (date_roundtrip d Hd). cbn [mbind option_bind].
  by rewrite Hd, bool_decide_eq_true_2.
Qed.

Lemma parse_date_valid s d : parse_date s = Some d → date_valid d ∧ fmt_date d = s.
Proof.
  unfold parse_date. intros (x & _ & Hx)%bind_Some. destruct (_ && _) eqn:E; [|done]. injection Hx as <-.
  apply andb_true_iff in E as [? ?%bool_decide_eq_true]. done.
Qed.

Lemma parse_fmt_datetime (t : NaiveDateTime) : date_valid t.1 → (t.2 < 1440)%N →
  parse_datetime (fmt_datetime t) = Some t ∧ parse_date (fmt_datetime t) = None.
Proof.
  intros Hd Hm. unfold parse_datetime, parse_date, fmt_datetime.
  rewrite (datetime_roundtrip t Hd Hm), datetime_not_date. cbn [mbind option_bind].
  by rewrite Hd, bool_decide_eq_true_2.
Qed.

Lemma parse_datetime_valid s t : parse_datetime s = Some t → date_valid t.1 ∧ (t.2 < 1440)%N ∧ fmt_datetime t = s.
Proof.
  unfold parse_datetime. intros (x & Hs & Hx)%bind_Some. destruct (_ && _) eqn:E; [|done]. injection Hx as <-.
  apply andb_true_iff in E as [? ?%bool_decide_eq_true]. split; [done|]. split; [by eapply datetime_minute|done].
Qed.

Lemma when_parse_valid v w : when_parse v = Ok w → when_valid w.
Proof.
  unfold when_parse. intros (obj & _ & Hp)%obind_ok. apply reject_ok in Hp as [_ Hp].
  apply obind_ok in Hp as (s & _ & Hp). apply obind_ok in Hp as (e & _ & Hp).
  assert (Ht : match parse_datetime s, parse_datetime e with
    | Some start, Some end_ => if time_lt start end_ then Ok (Timed start end_) else Err WhenOrder
    | _, _ => Err WhenMixed end = Ok w → when_valid w).
  { destruct (parse_datetime s) as [ts|] eqn:E1; [|done]. destruct (parse_datetime e) as [te|] eqn:E2; [|done].
    destruct (time_lt ts te) eqn:El; [|done]. intros [= <-].
    apply parse_datetime_valid in E1 as (? & ? & _), E2 as (? & ? & _). done. }
  destruct (parse_date s) as [ds|] eqn:E1; [|by apply Ht]. destruct (parse_date e) as [de|] eqn:E2; [|by apply Ht].
  destruct (date_le ds de) eqn:El; [|done]. injection Hp as <-.
  apply parse_date_valid in E1 as [? _], E2 as [? _]. done.
Qed.

Lemma when_keys s e :
  get_str "start" (Object [("end", Str e); ("start", Str s)]) = Some s ∧
  get_str "end" (Object [("end", Str e); ("start", Str s)]) = Some e.
Proof. done. Qed.

Lemma when_roundtrip w : when_valid w → when_parse (when_to_json w) = Ok w.
Proof.
  destruct w as [s e|s e]; unfold when_parse, when_to_json; cbn [as_object ok_or obind length Nat.eqb negb].
  - intros (Hs & He & Hle). destruct (when_keys (fmt_date s) (fmt_date e)) as [-> ->]. cbn [ok_or obind].
    rewrite (parse_fmt_date s Hs), (parse_fmt_date e He). by rewrite Hle.
  - intros ([Hs Hsm] & [He Hem] & Hlt). destruct (when_keys (fmt_datetime s) (fmt_datetime e)) as [-> ->]. cbn [ok_or obind].
    destruct (parse_fmt_datetime s Hs Hsm) as [H1 H2]. destruct (parse_fmt_datetime e He Hem) as [H3 _].
    rewrite H2, H1, H3. by rewrite Hlt.
Qed.

(** ** Rules *)

Definition repeat_valid (r : Repeat) : Prop :=
  (1 <= interval r)%N ∧ (byday r ≠ [] → freq r = Weekly) ∧ NoDup (byday r) ∧
  match rend r with Open => True | Until u => date_valid u | Count c => (1 <= c)%N end.

Lemma parse_byday_spec days acc l : parse_byday days acc = Ok l → NoDup acc → NoDup l ∧ (acc ≠ [] ∨ days ≠ [] → l ≠ []).
Proof.
  revert acc. induction days as [|d days IH]; intros acc Hp Hnd; cbn [parse_byday] in Hp.
  { apply Ok_inj in Hp as <-. naive_solver. }
  apply obind_ok in Hp as (w & _ & Hp). apply reject_ok in Hp as [Hw Hp]. apply bool_decide_eq_false in Hw.
  destruct (IH _ Hp) as [H1 H2].
  - apply NoDup_app. split; [done|]. split; [|apply NoDup_singleton]. by intros x Hx ->%list_elem_of_singleton.
  - split; [done|]. intros _. apply H2. left. by destruct acc.
Qed.

Lemma weekday_found w : snd <$> find (λ x : string * Weekday, bool_decide (x.1 = weekday_str w)) WEEKDAYS = Some w.
Proof. by destruct w. Qed.

Lemma parse_byday_print l acc : NoDup (acc ++ l) → parse_byday (Str ∘ weekday_str <$> l) acc = Ok (acc ++ l).
Proof.
  revert acc. induction l as [|w l IH]; intros acc Hnd; [by rewrite app_nil_r|].
  change (Str ∘ weekday_str <$> w :: l) with (Str (weekday_str w) :: (Str ∘ weekday_str <$> l)). cbn [parse_byday].
  change (default "" (as_str (Str (weekday_str w)))) with (weekday_str w). rewrite weekday_found. cbn [ok_or obind].
  assert (w ∉ acc) as Hw by (apply NoDup_app in Hnd as (_ & Hd & _); intros Hin; apply (Hd w Hin); by constructor).
  rewrite bool_decide_eq_false_2 by done. rewrite IH by (by rewrite <-app_assoc). by rewrite <-app_assoc.
Qed.

Lemma repeat_parse_valid v r : repeat_parse v = Ok r → repeat_valid r.
Proof.
  unfold repeat_parse. intros (obj & _ & Hp)%obind_ok. destruct (find _ obj) as [[k x]|]; [done|].
  apply obind_ok in Hp as (f & _ & Hp). apply obind_ok in Hp as (i & Hi & Hp). apply obind_ok in Hp as (b & Hb & Hp).
  apply obind_ok in Hp as (e & He & Hp). apply Ok_inj in Hp as <-. unfold repeat_valid. cbn [freq interval byday rend].
  split_and!.
  - destruct (get "interval" v) as [n|]; [|apply Ok_inj in Hi as <-; lia]. destruct (as_u64 n) as [k|]; [|done].
    destruct (N.leb_spec 1 k); [|done]. by apply Ok_inj in Hi as <-.
  - destruct (get "byday" v); [|by apply Ok_inj in Hb as <-]. apply reject_ok in Hb as [Hw _].
    by apply negb_false_iff, bool_decide_eq_true in Hw.
  - destruct (get "byday" v) as [days|]; [|apply Ok_inj in Hb as <-; constructor]. apply reject_ok in Hb as [_ Hb].
    destruct (as_array days) as [[|d ds]|]; [done| |done]. apply parse_byday_spec in Hb as [? _]; [done|constructor].
  - destruct (get "until" v) as [u|], (get "count" v) as [c|]; [done|..].
    + apply obind_ok in He as (d & Hd%ok_or_ok & He). apply Ok_inj in He as <-.
      apply bind_Some in Hd as (x & _ & Hd). by apply parse_date_valid in Hd as [? _].
    + destruct (as_u64 c) as [n|]; [|done]. destruct (N.leb_spec 1 n); [|done]. by apply Ok_inj in He as <-.
    + by apply Ok_inj in He as <-.
Qed.

(** The keys of a rule's JSON. *)
Lemma repeat_keys (b : option Value) (c : option N) (f : string) (i : N) (u : option string) :
  let v := Object (option_list ((λ b, ("byday", b)) <$> b) ++ option_list ((λ c, ("count", Num (PosInt c))) <$> c) ++
    [("freq", Str f); ("interval", Num (PosInt i))] ++ option_list ((λ u, ("until", Str u)) <$> u)) in
  find (λ kv, negb (bool_decide (kv.1 ∈ REPEAT_KEYS))) (default [] (as_object v)) = None ∧
  get_str "freq" v = Some f ∧ get "interval" v = Some (Num (PosInt i)) ∧ get "byday" v = b ∧
  get "count" v = (λ c, Num (PosInt c)) <$> c ∧ get "until" v = Str <$> u.
Proof. by destruct b, c, u. Qed.

Lemma repeat_roundtrip r : repeat_valid r → repeat_parse (repeat_to_json r) = Ok r.
Proof.
  intros (Hi & Hb & Hnd & He). destruct r as [f i b e]; cbn [freq interval byday rend] in *.
  set (ob := match b with [] => None | _ => Some (Array (Str ∘ weekday_str <$> b)) end).
  set (oc := match e with Count c => Some c | _ => None end).
  set (ou := match e with Until u => Some (fmt_date u) | _ => None end).
  pose proof (repeat_keys ob oc (freq_str f) i ou) as Hk. cbv zeta in Hk.
  assert (Hj : repeat_to_json {| freq := f; interval := i; byday := b; rend := e |} =
    Object (option_list ((λ b, ("byday", b)) <$> ob) ++ option_list ((λ c, ("count", Num (PosInt c))) <$> oc) ++
    [("freq", Str (freq_str f)); ("interval", Num (PosInt i))] ++ option_list ((λ u, ("until", Str u)) <$> ou))).
  { unfold repeat_to_json, ob, oc, ou. cbn [freq interval byday rend]. by destruct b, e. }
  rewrite Hj. set (v := Object _) in *. destruct Hk as (H1 & H2 & H3 & H4 & H5 & H6).
  unfold repeat_parse. change (as_object v) with (Some (default [] (as_object v))). cbn [ok_or obind].
  rewrite H1, H2, H3, H4, H5, H6. cbn [as_u64]. rewrite (proj2 (N.leb_le _ _) Hi).
  assert (Hf : match Some (freq_str f) with Some "daily" => Ok Daily | Some "weekly" => Ok Weekly
     | Some "monthly" => Ok Monthly | _ => Err RepeatFreq end = Ok f) by by destruct f.
  rewrite Hf. cbn [obind].
  assert (Hday : match ob with
     | None => Ok []
     | Some days => reject negb (bool_decide (f = Weekly)) with BydayNotWeekly else
         match as_array days with Some (d :: ds) => parse_byday (d :: ds) [] | _ => Err BydayList end
     end = Ok b).
  { unfold ob. destruct b as [|w b]; [done|]. rewrite bool_decide_eq_true_2 by (by apply Hb). cbn [negb as_array].
    change (Str ∘ weekday_str <$> w :: b) with (Str (weekday_str w) :: (Str ∘ weekday_str <$> b)). cbv beta iota.
    exact (parse_byday_print (w :: b) [] Hnd). }
  rewrite Hday. cbn [obind]. unfold oc, ou. destruct e as [|u|c]; cbn [fmap option_fmap option_map as_u64]; [done| |].
  - cbn [as_str mbind option_bind]. by rewrite (parse_fmt_date u He).
  - by rewrite (proj2 (N.leb_le _ _) He).
Qed.

End RoundTrip.

(** ** Telling boards apart *)

Lemma Object_inj m m' : Object m = Object m' → m = m'.
Proof. by intros [= ->]. Qed.

Lemma entries_keys l k v : (k, v) ∈ entries l → k ∈ l.*1.
Proof.
  unfold entries. intros ([k' o] & Hin & Ho)%list_elem_of_omap. cbn in Ho.
  apply fmap_Some in Ho as (x & _ & [= -> _]). apply list_elem_of_fmap. by exists (k', o).
Qed.

Lemma entries_inj l l' : l.*1 = l'.*1 → NoDup l.*1 → entries l = entries l' → l = l'.
Proof.
  revert l'. induction l as [|[k o] l IH]; intros [|[k' o'] l']; try done. csimpl. intros [= <- Hk] Hnd He.
  apply NoDup_cons in Hnd as [Hnot Hnd]. unfold entries in He. csimpl in He. fold (entries l) (entries l') in He.
  assert (Hno : ∀ v es, entries l = (k, v) :: es ∨ entries l' = (k, v) :: es → False).
  { intros v es Hes. apply Hnot. destruct Hes as [Hes|Hes].
    - apply (entries_keys l k v). rewrite Hes. constructor.
    - rewrite Hk. apply (entries_keys l' k v). rewrite Hes. constructor. }
  destruct o as [v|], o' as [v'|]; cbn in He.
  - injection He as -> He. f_equal. by apply IH.
  - exfalso. eapply Hno. by right.
  - exfalso. eapply Hno. by left.
  - f_equal. by apply IH.
Qed.

(** Injectivity on the values that satisfy a predicate. *)
Definition inj_on {A B} (P : A → Prop) (f : A → B) : Prop := ∀ x y, P x → P y → f x = f y → x = y.

Lemma inj_on_list {A B} (P : A → Prop) (f : A → B) : inj_on P f → inj_on (Forall P) (fmap f : list A → list B).
Proof.
  intros Hf l. induction l as [|x l IH]; intros [|y l'] Hl Hl'; try done. csimpl. intros [= Hxy He].
  apply Forall_cons in Hl as [? ?], Hl' as [? ?]. f_equal; [by apply Hf|by apply IH].
Qed.

Lemma inj_on_option {A} (P : A → Prop) (f : A → Value) :
  inj_on P f → inj_on (from_option P True) (if_some f).
Proof. intros Hf [x|] [y|]; cbn; try done. intros Hx Hy [= He]. f_equal. by apply Hf. Qed.

Lemma inj_on_any {A} (P : list A → Prop) (f : list A → Value) : inj_on P f → inj_on P (if_any f).
Proof. intros Hf [|x l] [|y l']; cbn; try done. intros Hx Hy [= He]. by apply Hf. Qed.

Lemma inj_strs : inj_on (λ _, True) strs.
Proof.
  intros l l' _ _ [= He]. revert He. apply (inj_on_list (λ _, True)); [by intros x y _ _ [= ->]|by apply Forall_true..].
Qed.

Section Injective.
Context `{Hlaws : ChronoLaws}.

Lemma inj_fmt_date : inj_on date_valid (Str ∘ fmt_date).
Proof. intros x y Hx Hy [= He]. pose proof (parse_fmt_date x Hx) as H1. rewrite He, (parse_fmt_date y Hy) in H1. congruence. Qed.

Lemma inj_when : inj_on when_valid when_to_json.
Proof. intros x y Hx Hy He. pose proof (when_roundtrip x Hx) as H1. rewrite He, (when_roundtrip y Hy) in H1. congruence. Qed.

Lemma inj_repeat : inj_on repeat_valid repeat_to_json.
Proof. intros x y Hx Hy He. pose proof (repeat_roundtrip x Hx) as H1. rewrite He, (repeat_roundtrip y Hy) in H1. congruence. Qed.

(** The dates of a task are ones the parser accepts. *)
Record task_dates (t : Task) : Prop := {
  td_after : from_option date_valid True (after t);
  td_due : from_option date_valid True (due t);
  td_when : from_option when_valid True (when t);
  td_repeat : from_option repeat_valid True (trepeat t);
  td_skip : Forall date_valid (skip t);
  td_moved : Forall (λ kw, date_valid kw.1 ∧ when_valid kw.2) (moved t);
}.

Lemma inj_moved :
  inj_on (Forall (λ kw, date_valid kw.1 ∧ when_valid kw.2))
    (λ m, Object ((λ kw : NaiveDate * When, (fmt_date kw.1, when_to_json kw.2)) <$> m)).
Proof.
  intros m m' Hm Hm' [= He]. revert He. eapply inj_on_list; [|done..].
  intros [d w] [d' w'] [Hd Hw] [Hd' Hw'] [= Hde Hwe]. cbn in *. f_equal.
  - apply inj_fmt_date; [done..|]. cbn. by rewrite Hde.
  - by apply inj_when.
Qed.

Lemma inj_dates : inj_on (Forall date_valid) (λ l, Array (Str ∘ fmt_date <$> l)).
Proof. intros l l' Hl Hl' [= He]. revert He. by apply (inj_on_list date_valid); [apply inj_fmt_date|..]. Qed.

Lemma task_json_inj : inj_on task_dates task_to_json.
Proof.
  intros t t' [] [] He%Object_inj. apply entries_inj in He; [|done|].
  2:{ apply (bool_decide_eq_true _). by vm_compute. }
  unfold task_entries in He. injection He as E1 E2 E3 E4 E5 E6 E7 E8 E9 E10 E11 E12 E13 E14 E15 E16 E17 E18 E19.
  apply (inj_on_any _ _ inj_strs) in E1, E4, E8, E11; try done.
  apply (inj_on_option _ _ inj_fmt_date) in E2, E7; try done.
  apply (inj_on_any _ _ inj_moved) in E9; try done. apply (inj_on_any _ _ inj_dates) in E14; try done.
  apply (inj_on_option _ _ inj_repeat) in E12; try done. apply (inj_on_option _ _ inj_when) in E19; try done.
  assert (Hstr : inj_on (λ _ : string, True) Str) by by intros x y _ _ [= ->].
  assert (Hopt : ∀ o : option string, from_option (λ _, True) True o) by by intros [].
  apply (inj_on_option _ _ Hstr) in E6, E10, E18; try apply Hopt.
  assert (E3' : assignees t = assignees t') by (apply inj_strs; [done..|]; unfold strs; by rewrite E3).
  assert (E13' : tsize t = tsize t').
  { destruct (tsize t) as [x|], (tsize t') as [y|]; try done. cbn in E13. injection E13 as E13. by destruct x, y. }
  assert (E15' : state t = state t') by (by destruct (state t), (state t')).
  destruct t, t'; cbn in *. by subst.
Qed.

(** ** The dates on a folded board *)

Definition field_dates (f : Field) : Prop :=
  match f with
  | FDue d | FAfter d => from_option date_valid True d
  | FWhen w => from_option when_valid True w
  | FRepeat r => from_option repeat_valid True r
  | FSkip l => Forall date_valid l
  | FMoved m => Forall (λ kw, date_valid kw.1 ∧ when_valid kw.2) m
  | _ => True
  end.

Lemma date_of_valid v what d : date_of v what = Ok d → date_valid d.
Proof. unfold date_of. intros (s & _ & Hs)%ok_or_ok%bind_Some. by apply parse_date_valid in Hs as [? _]. Qed.

Lemma nullable_valid {A} (P : A → Prop) v m o : (∀ a, m = Ok a → P a) → nullable v m = Ok o → from_option P True o.
Proof.
  intros Hm. unfold nullable. destruct (is_null v); [by intros [= <-]|].
  intros (a & Ha & Ho)%obind_ok. apply Ok_inj in Ho as <-. by apply Hm.
Qed.

Lemma null_list_valid {A} (P : A → Prop) v m l : (∀ l, m = Ok l → Forall P l) → null_list v m = Ok l → Forall P l.
Proof. intros Hm. unfold null_list. destruct (is_null v); [intros [= <-]; constructor|apply Hm]. Qed.

Lemma traverse_valid {E A B} (P : B → Prop) (f : A → outcome E B) l bs :
  (∀ a b, f a = Ok b → P b) → traverse f l = Ok bs → Forall P bs.
Proof.
  intros Hf. revert bs. induction l as [|a l IH]; intros bs Hp; cbn [traverse] in Hp; [apply Ok_inj in Hp as <-; constructor|].
  apply obind_ok in Hp as (b & Hb & Hp). apply obind_ok in Hp as (bs' & Hbs & Hp). apply Ok_inj in Hp as <-.
  constructor; [by eapply Hf|by apply IH].
Qed.

Lemma moved_insert_valid (P : NaiveDate * When → Prop) d w m : P (d, w) → Forall P m → Forall P (moved_insert d w m).
Proof.
  intros Hd Hm. induction Hm as [|[k v] m Hk Hm IH]; cbn [moved_insert]; [by constructor|].
  destruct (bool_decide _); [by constructor|]. destruct (date_lt d k); by repeat constructor.
Qed.

Lemma parse_moved_valid o out m : parse_moved o out = Ok m →
  Forall (λ kw, date_valid kw.1 ∧ when_valid kw.2) out → Forall (λ kw, date_valid kw.1 ∧ when_valid kw.2) m.
Proof.
  revert out. induction o as [|[k w] o IH]; intros out Hp Hout; cbn [parse_moved] in Hp; [by apply Ok_inj in Hp as <-|].
  apply obind_ok in Hp as (d & Hd%ok_or_ok & Hp). apply obind_ok in Hp as (w' & Hw%omap_err_ok & Hp).
  apply (IH _ Hp), moved_insert_valid; [|done]. split; [by apply parse_date_valid in Hd as [? _]|by eapply when_parse_valid].
Qed.

Lemma parse_field_dates k v f : parse_field k v = Ok f → field_dates f.
Proof.
  unfold parse_field. intros Hp.
  repeat match type of Hp with
    | (if decide ?P then _ else _) = _ => destruct (decide P)
    | (let? _ := _ in _) = Ok _ => apply obind_ok in Hp as (? & Hx & Hp)
    | (if ?b then Err _ else _) = Ok _ => destruct b eqn:?; [done|]
    | match ?o with Some _ => _ | None => _ end = Ok _ => destruct o
    | (if ?b then _ else Err _) = Ok _ => destruct b eqn:?; [|done]
    | Ok _ = Ok _ => apply Ok_inj in Hp; subst f
    | Err _ = Ok _ => done
    end; cbn [field_dates]; try done.
  - eapply nullable_valid; [|done]. intros d. apply date_of_valid.
  - eapply nullable_valid; [|done]. intros d. apply date_of_valid.
  - eapply nullable_valid; [|done]. intros w Hw%omap_err_ok. by eapply when_parse_valid.
  - eapply nullable_valid; [|done]. intros r Hr%omap_err_ok. by eapply repeat_parse_valid.
  - eapply null_list_valid; [|done]. intros l (a & _ & Hl)%obind_ok. eapply traverse_valid; [|done].
    intros ? ?. apply date_of_valid.
  - eapply null_list_valid; [|done]. intros m (o & _ & Hm)%obind_ok. by eapply parse_moved_valid.
Qed.

Lemma set_fields_dates fs t : Forall field_dates fs → task_dates t → task_dates (foldl set_field t fs).
Proof.
  intros Hfs. revert t. induction Hfs as [|f fs Hf _ IH]; intros t Ht; [done|]. apply IH.
  destruct Ht. by destruct t, f; split.
Qed.

Lemma apply_acts_dates r acts ts touched ts' touched' :
  apply_acts r acts ts touched = Ok (ts', touched') → Forall (λ a, Forall field_dates (act_fields a)) acts →
  map_Forall (λ _, task_dates) ts → map_Forall (λ _, task_dates) ts'.
Proof.
  intros Hp Hacts. revert ts touched Hp.
  induction Hacts as [|a acts Ha _ IH]; intros ts touched Hp Hall; cbn [apply_acts] in Hp; [by injection Hp as <- <-|].
  destruct a as [id c fs|id fs|id to nt ev]; cbn in Ha; apply obind_ok in Hp as (x & Hx & Hp).
  - apply reject_ok in Hp as [_ Hp]. apply (IH _ _ Hp), map_Forall_insert_2; [|done].
    by apply set_fields_dates; [|by split; constructor].
  - apply ok_or_ok in Hx. apply (IH _ _ Hp), map_Forall_insert_2; [|done].
    destruct (set_fields_dates fs x Ha (Hall _ _ Hx)). by destruct (foldl set_field x fs).
  - apply obind_ok in Hp as (t & Ht%ok_or_ok & Hp). apply (IH _ _ Hp), map_Forall_insert_2; [|done].
    destruct (Hall _ _ Ht). by destruct t.
Qed.

Lemma fold_dates applied seats : map_Forall (λ _, task_dates) (tasks (kanban_fold applied seats)).
Proof.
  unfold kanban_fold, kanban_fold_onto.
  assert (H0 : map_Forall (λ _, task_dates) (tasks board_default)) by apply map_Forall_empty.
  revert H0. generalize board_default as b. induction applied as [|p applied IH]; intros b Hb; [done|]. apply IH.
  unfold kanban_fold_one. destruct (decide _); [|done]. destruct (let? acts := _ in _) as [ts|f|] eqn:Ep; [|done|done].
  apply obind_ok in Ep as (acts & (ops & _ & Hops)%omap_err_ok%parse_changeset_acts & Hp).
  unfold apply_changeset in Hp. apply obind_ok in Hp as ([ts' touched] & Ha & Hp).
  apply obind_ok in Hp as (? & _ & Hp). apply Ok_inj in Hp as ->. cbn [fst tasks].
  eapply apply_acts_dates; [done| |done]. eapply Forall_impl; [by eapply (parse_acts_all field_dates), Hops; apply parse_field_dates|].
  by intros a [_ ?].
Qed.

Lemma board_json_inj b b' : (∀ id t, tasks b !! id = Some t → task_dates t) → (∀ id t, tasks b' !! id = Some t → task_dates t) →
  board_to_json b = board_to_json b' → b = b'.
Proof.
  intros Hb Hb' He%Object_inj. injection He as Hrev Htasks.
  assert (Hs : ∀ b : BoardState, (∀ id t, tasks b !! id = Some t → task_dates t) →
    Forall (λ e, task_dates e.2) (sorted_entries (tasks b))).
  { intros c Hc. unfold sorted_entries. rewrite merge_sort_Permutation. apply Forall_forall.
    intros [id t] Hin%elem_of_map_to_list. by eapply Hc. }
  assert (Hl : sorted_entries (tasks b) = sorted_entries (tasks b')).
  { revert Htasks. apply (inj_on_list (λ e, task_dates e.2)); [|by apply Hs..].
    intros [i t] [i' t'] Ht Ht' [Hi Hj]%pair_eq. change (i = i') in Hi. subst i'.
    by rewrite (task_json_inj t t' Ht Ht' Hj). }
  destruct b as [r ts], b' as [r' ts']; cbn in *. subst r'. f_equal. apply map_to_list_inj.
  rewrite <-(merge_sort_Permutation key_le (map_to_list ts)), <-(merge_sort_Permutation key_le (map_to_list ts')).
  unfold sorted_entries in Hl. by rewrite Hl.
Qed.

End Injective.

(** Windows and rules round-trip.  A window or a rule the parser accepts is
    printed as JSON that parses back to the same window or rule. *)
Theorem calendar_json_roundtrip `{ChronoLaws} (v : Value) :
  (∀ w, when_parse v = Ok w → when_parse (when_to_json w) = Ok w) ∧
  (∀ r, repeat_parse v = Ok r → repeat_parse (repeat_to_json r) = Ok r).
Proof.
  split; [intros w Hw; by apply when_roundtrip, (when_parse_valid v)|intros r Hr; by apply repeat_roundtrip, (repeat_parse_valid v)].
Qed.

(** Equal JSON, equal board.  Two boards folded from any payloads, for any
    seats, whose canonical JSON is the same are the same board: nothing a task
    holds is lost in its JSON. *)
Theorem board_json_injective `{ChronoLaws} (applied applied' : list Value) (seats seats' : gset string) :
  board_to_json (kanban_fold applied seats) = board_to_json (kanban_fold applied' seats') →
  kanban_fold applied seats = kanban_fold applied' seats'.
Proof. apply board_json_inj; intros id t Ht; [by apply (fold_dates applied seats id t)|by apply (fold_dates applied' seats' id t)]. Qed.
