(* ===== verification/KanbanRun.v ===== *)
(** * A board

    Two members put up two tasks, the second blocked by the first, and try to
    start them: the kanban definitions evaluated on concrete changesets, in
    the Gregorian calendar of [Civil]. *)

From stdpp Require Import relations.
From S2P Require Import Prelude Strs Json Calendar Civil Cycle Kanban Board BoardProps Canonicalize KanbanJson.

Module BoardRun.

Definition seats : gset string := {["ann"; "bob"]}.

Definition id1 : string := "00000000000000000000000000000001".
Definition id2 : string := "00000000000000000000000000000002".

(** A minter with two ids. *)
Definition mint (n : nat) : option (string * nat) :=
  match n with O => Some (id1, 1%nat) | S O => Some (id2, 2%nat) | _ => None end.

(** Bob's proposal: he names Ann as the creator of the first task. *)
Definition draft : Value :=
  Object
    [("base_rev", Num (PosInt 0)); ("op", Str "kanban_ops");
     ("ops", Array
       [Object [("act", Str "add"); ("assignees", Array [Str "ann"]); ("creator", Str "ann"); ("ref", Str "walls");
                ("title", Str "Paint the walls"); ("type", Str " chore ")];
        Object [("act", Str "add"); ("assignees", Array [Str "bob"]); ("blocked_by", Array [Str "@walls"]);
                ("due", Str "2026-05-01"); ("title", Str "Hang the lamp")]]);
     ("summary", Str "Two tasks")].

Definition canonical : Canonical :=
  match kanban_canonicalize mint "bob" draft 0%nat with
  | Ok (c, _) => c
  | _ => {| payload := Null; minted := [] |}
  end.

Definition act_state (id to : string) : Value :=
  Object
    [("base_rev", Num (PosInt 1)); ("op", Str "kanban_ops");
     ("ops", Array [Object [("act", Str "state"); ("id", Str id); ("to", Str to)]]); ("summary", Str "Go on")].

(** The lamp links back to itself through the walls. *)
Definition knot : Value :=
  Object
    [("base_rev", Num (PosInt 1)); ("op", Str "kanban_ops");
     ("ops", Array [Object [("act", Str "set"); ("fields", Object [("blocked_by", Array [Str id2])]); ("id", Str id1)]]);
     ("summary", Str "A knot")].

Definition board1 : BoardState := kanban_fold [payload canonical] seats.

Example minted_two : minted canonical = [id1; id2].
Proof. by vm_compute. Qed.

(** What a payload did, and the tasks a void reason names. *)
Definition verdict (b : BoardState) (p : Value) : string * list string :=
  match (kanban_fold_one b p seats).2 with
  | Applied => ("applied", [])
  | Skipped => ("skipped", [])
  | Void (Blocked id _ by_ _) => ("blocked", [id; by_])
  | Void (CycleAt id) => ("cycle", [id])
  | Void _ => ("void", [])
  end.

Example steps_of_the_day :
  verdict board_default (payload canonical) = ("applied", []) ∧
  verdict board1 (act_state id2 "wip") = ("blocked", [id2; id1]) ∧
  verdict board1 (act_state id1 "wip") = ("applied", []) ∧
  verdict board1 knot = ("cycle", [id1]) ∧
  verdict board1 Null = ("skipped", []).
Proof. by vm_compute. Qed.

Example board1_tasks :
  (λ t, (creator t, kind t, blocked_by t)) <$> tasks board1 !! id1 = Some ("bob", Some "chore", []) ∧
  (λ t, (creator t, kind t, blocked_by t)) <$> tasks board1 !! id2 = Some ("bob", None, [id1]).
Proof. by vm_compute. Qed.

Lemma adds_name_proposer_witness :
  ∃ acts, parse_changeset (payload canonical) Canonical_ = Ok acts ∧
    ∀ id cr fs, Add id cr fs ∈ acts → cr = Some "bob".
Proof. apply (adds_name_proposer mint "bob" draft 0%nat canonical 2%nat). by vm_compute. Defined.

(** Every other Monday and Thursday until the end of June. *)
Definition rota : Value :=
  Object [("byday", Array [Str "mo"; Str "th"]); ("freq", Str "weekly"); ("interval", Num (PosInt 2));
          ("until", Str "2026-06-30")].

Lemma calendar_json_roundtrip_witness :
  is_ok (repeat_parse rota) = true ∧
  (∀ w, when_parse rota = Ok w → when_parse (when_to_json w) = Ok w) ∧
  (∀ r, repeat_parse rota = Ok r → repeat_parse (repeat_to_json r) = Ok r).
Proof. split; [by vm_compute|]. apply (calendar_json_roundtrip rota). Defined.

(** A void changeset before a valid one still counts. *)
Lemma board_json_injective_witness :
  kanban_fold [Null; payload canonical] seats = kanban_fold [payload canonical; Null] seats.
Proof. apply (board_json_injective [Null; payload canonical] [payload canonical; Null] seats seats). by vm_compute. Defined.

End BoardRun.
