(* ===== verification/Dates.v ===== *)
(** * Deadlines and order of the board

    crates/molt-core/src/kanban_dates.rs: what the board means on a day.  The
    tasks are put in an order with dependents first; along it the deadlines
    flow to the prerequisites, against it the failures to the dependents; then
    the flags, the priority list, what each seat does next, and the
    difference two boards make. *)

From S2P Require Import Prelude Strs Json WikiFold Calendar Cycle Kanban Board.

(** Its constructors carry the type's name: the states of a task have the
    same ones. *)
Inductive Shown :=
  | ShownStuck | ShownBlocked | ShownScheduled | ShownLater | ShownOpen
  | ShownWip | ShownSuccess | ShownFail | ShownCancelled.
#[export] Instance Shown_eq_dec : EqDecision Shown.
Proof. solve_decision. Defined.

Section Dates.
Context `{Chrono}.

Record TaskDerived := mkDerivedTask {
  shown : Shown;
  needed_by : option NaiveDate;
  overdue : bool;
  date_conflict : bool;
  stuck : bool;
  started_on_reopened : bool;
  prerequisite_for : list TaskId;
}.

Record Derived := mkDerived {
  d_tasks : gmap TaskId TaskDerived;
  priority : list TaskId;
  next : gmap string (list TaskId);
}.

Definition is_open (t : Task) : bool := match state t with Todo | Wip => true | _ => false end.

(** ** The order *)

(** [dependents]: for each known prerequisite the tasks it blocks. *)
Definition note_dependent (ts : gmap TaskId Task) (id : TaskId) (m : gmap TaskId (list TaskId)) (b : TaskId)
    : gmap TaskId (list TaskId) :=
  if is_some (ts !! b) then partial_alter (λ o, Some (default [] o ++ [id])) b m else m.

Definition dependents_of (ts : gmap TaskId Task) : gmap TaskId (list TaskId) :=
  foldl (λ m e, foldl (note_dependent ts e.1) m (blocked_by e.2)) ∅ (sorted_entries ts).

(** One prerequisite of a task taken out of [ready]. *)
Definition release (s : gmap TaskId nat * gset TaskId) (b : TaskId) : gmap TaskId nat * gset TaskId :=
  match s.1 !! b with
  | None => s
  | Some n =>
      let n := (n - 1)%nat in
      (<[b := n]> s.1, if (n =? 0)%nat then {[b]} ∪ s.2 else s.2)
  end.

(** The [while let Some(id) = ready.pop_first()] loop. *)
Fixpoint order_loop (fuel : nat) (ts : gmap TaskId Task) (s : gmap TaskId nat * gset TaskId) (order : list TaskId)
    : list TaskId :=
  match fuel, sorted_ids s.2 with
  | S fuel, id :: _ =>
      let s := foldl release (s.1, s.2 ∖ {[id]}) (match ts !! id with Some t => blocked_by t | None => [] end) in
      order_loop fuel ts s (order ++ [id])
  | _, _ => order
  end.

Definition dependents_first (ts : gmap TaskId Task) (dependents : gmap TaskId (list TaskId)) : list TaskId :=
  let waiting : gmap TaskId nat := map_imap (λ id _, Some (length (default [] (dependents !! id)))) ts in
  let ready : gset TaskId := dom (filter (λ kv, kv.2 = O) waiting) in
  order_loop (S (size ts)) ts (waiting, ready) [].

(** ** Deadlines and failures *)

(** [Iterator::min]. *)
Definition min_date (l : list NaiveDate) : option NaiveDate :=
  foldl (λ acc d, match acc with None => Some d | Some m => Some (if date_lt d m then d else m) end) None l.

Definition deadline_step (ts : gmap TaskId Task) (dependents : gmap TaskId (list TaskId))
    (needed : gmap TaskId NaiveDate) (id : TaskId) : gmap TaskId NaiveDate :=
  match ts !! id with
  | None => needed
  | Some t =>
      if negb (is_open t) then needed
      else
        let downstream :=
          omap (λ d, needed !! d)
            (filter (λ d, match ts !! d with Some u => is_open u | None => false end = true)
               (default [] (dependents !! id))) in
        match min_date (option_list (due t) ++ downstream) with
        | Some nb => <[id := nb]> needed
        | None => needed
        end
  end.

Definition deadlines (ts : gmap TaskId Task) (dependents : gmap TaskId (list TaskId)) (order : list TaskId)
    : gmap TaskId NaiveDate := foldl (deadline_step ts dependents) ∅ order.

Definition stuck_step (ts : gmap TaskId Task) (s : gset TaskId) (id : TaskId) : gset TaskId :=
  match ts !! id with
  | None => s
  | Some t =>
      if bool_decide (state t = Todo) &&
         existsb (λ b, match ts !! b with Some p => bool_decide (state p = Fail_) | None => false end ||
                       bool_decide (b ∈ s)) (blocked_by t)
      then {[id]} ∪ s else s
  end.

Definition stuck_tasks (ts : gmap TaskId Task) (order : list TaskId) : gset TaskId :=
  foldl (stuck_step ts) ∅ (reverse order).

(** The closure [unmet]. *)
Definition unmet (ts : gmap TaskId Task) (t : Task) : bool :=
  existsb (λ b, match ts !! b with Some p => negb (is_met (state p)) | None => false end) (blocked_by t).

(** ** One task *)

Definition later_than (d : option NaiveDate) (today : NaiveDate) : bool :=
  match d with Some d => date_lt today d | None => false end.

Definition shown_as (t : Task) (is_stuck blocked : bool) (today : NaiveDate) : Shown :=
  match state t with
  | Todo =>
      if is_stuck then ShownStuck
      else if blocked then ShownBlocked
      else if is_some (when t) then ShownScheduled
      else if later_than (after t) today then ShownLater
      else ShownOpen
  | Wip => ShownWip
  | Success => ShownSuccess
  | Fail_ => ShownFail
  | Cancelled => ShownCancelled
  end.

Definition timed_conflict (ts : gmap TaskId Task) (t : Task) (deps : list TaskId) : bool :=
  match when t with
  | None => false
  | Some w =>
      existsb (λ d, match ts !! d with
                    | Some u => is_open u && match when u with Some dw => before_opt (begins dw) (ends w) | None => false end
                    | None => false
                    end) deps
  end.

Definition derive_task (ts : gmap TaskId Task) (today : NaiveDate) (dependents : gmap TaskId (list TaskId))
    (needed : gmap TaskId NaiveDate) (stuck : gset TaskId) (id : TaskId) (t : Task) : TaskDerived :=
  let nb := needed !! id in
  let is_stuck := bool_decide (id ∈ stuck) in
  let blocked := unmet ts t in
  let deps := default [] (dependents !! id) in
  {| shown := shown_as t is_stuck blocked today;
     needed_by := nb;
     overdue := is_open t && match nb with Some n => date_lt n today | None => false end;
     date_conflict := is_open t &&
       (match nb with Some n => later_than (due t) n || later_than (after t) n | None => false end ||
        timed_conflict ts t deps);
     stuck := is_stuck;
     started_on_reopened := bool_decide (state t = Wip) && blocked;
     prerequisite_for := deps |}.

(** ** Priority and next *)

(** The sort key [(!wip, nb.is_none(), nb, id)] and its order. *)
Definition prio_key (ts : gmap TaskId Task) (needed : gmap TaskId NaiveDate) (id : TaskId) : bool * option Z * TaskId :=
  (negb match ts !! id with Some t => bool_decide (state t = Wip) | None => false end,
   num_days_from_ce <$> needed !! id, id).

Definition key_before (a b : bool * option Z * TaskId) : Prop :=
  match a, b with
  | (false, _, _), (true, _, _) => True
  | (true, _, _), (false, _, _) => False
  | (_, Some _, _), (_, None, _) => True
  | (_, None, _), (_, Some _, _) => False
  | (_, Some x, i), (_, Some y, j) => (x < y)%Z ∨ x = y ∧ String.le i j
  | (_, None, i), (_, None, j) => String.le i j
  end.
#[export] Instance key_before_dec a b : Decision (key_before a b).
Proof. destruct a as [[[] [x|]] i], b as [[[] [y|]] j]; cbn; apply _. Defined.

Definition prio_le (ts : gmap TaskId Task) (needed : gmap TaskId NaiveDate) (a b : TaskId) : Prop :=
  key_before (prio_key ts needed a) (prio_key ts needed b).
#[export] Instance prio_le_dec ts needed a b : Decision (prio_le ts needed a b).
Proof. unfold prio_le. apply _. Defined.

Definition priority_of (ts : gmap TaskId Task) (needed : gmap TaskId NaiveDate) : list TaskId :=
  merge_sort (prio_le ts needed)
    (filter (λ e, is_open e.2 = true ∧ is_series e.2 = false) (sorted_entries ts)).*1.

Definition startable (ts : gmap TaskId Task) (today : NaiveDate) (t : Task) : bool :=
  bool_decide (state t = Todo) && negb (unmet ts t) && negb (later_than (after t) today).

(** [out.next.entry(a).or_default()], with what is pushed onto it. *)
Definition push_next (ids : list TaskId) (m : gmap string (list TaskId)) (a : string) : gmap string (list TaskId) :=
  partial_alter (λ o, Some (default [] o ++ ids)) a m.

Definition next_pass (ts : gmap TaskId Task) (take : Task → bool) (push : TaskId → list TaskId)
    (m : gmap string (list TaskId)) (id : TaskId) : gmap string (list TaskId) :=
  match ts !! id with
  | None => m
  | Some t => if take t then foldl (push_next (push id)) m (assignees t) else m
  end.

Definition next_of (ts : gmap TaskId Task) (today : NaiveDate) (prio : list TaskId) : gmap string (list TaskId) :=
  let m := foldl (next_pass ts (λ _, true) (λ _, [])) ∅ prio in
  let m := foldl (next_pass ts (λ t, bool_decide (state t = Wip)) (λ id, [id])) m prio in
  foldl (next_pass ts (startable ts today) (λ id, [id])) m prio.

Definition derive (board : BoardState) (today : NaiveDate) : Derived :=
  let ts := tasks board in
  let dependents := dependents_of ts in
  let order := dependents_first ts dependents in
  let needed := deadlines ts dependents order in
  let stuck := stuck_tasks ts order in
  let prio := priority_of ts needed in
  {| d_tasks := map_imap (λ id t, Some (derive_task ts today dependents needed stuck id t)) ts;
     priority := prio;
     next := next_of ts today prio |}.

(** ** Impact *)

Inductive Flag := FlagOverdue | FlagDateConflict | FlagStuck | FlagStartedOnReopened.

Inductive ImpactChange :=
  | NeededBy (task : TaskId) (from to : option NaiveDate)
  | FlagSet (task : TaskId) (flag : Flag) (on : bool).

Definition FLAGS : list Flag := [FlagOverdue; FlagDateConflict; FlagStuck; FlagStartedOnReopened].

Definition nb_of (d : option TaskDerived) : option NaiveDate := d ≫= needed_by.
Definition flag_of (f : Flag) (d : option TaskDerived) : bool :=
  match d with
  | None => false
  | Some d =>
      match f with
      | FlagOverdue => overdue d | FlagDateConflict => date_conflict d | FlagStuck => stuck d
      | FlagStartedOnReopened => started_on_reopened d
      end
  end.

Definition impact_one (before after_ : Derived) (id : TaskId) : list ImpactChange :=
  let b := d_tasks before !! id in
  let a := d_tasks after_ !! id in
  (if bool_decide (nb_of b = nb_of a) then [] else [NeededBy id (nb_of b) (nb_of a)]) ++
  omap (λ f, if Bool.eqb (flag_of f b) (flag_of f a) then None else Some (FlagSet id f (flag_of f a))) FLAGS.

Definition impact (before after_ : Derived) : list ImpactChange :=
  mjoin (impact_one before after_ <$> sorted_ids (dom (d_tasks before) ∪ dom (d_tasks after_))).

End Dates.
