(* ===== verification/DatesProps.v ===== *)
(** * What the board means, declaratively

    The order of [dependents_first] is topological and complete on a board
    without cycles, which every folded board is; along it the deadlines and
    the failures of [derive] are the ones declared here by rules. *)

From stdpp Require Import relations.
From S2P Require Import Prelude Strs Json WikiFold Calendar Cycle Kanban Board BoardProps Dates.

(** How often a list names [b]. *)
Definition occ (b : string) (l : list string) : nat := length (filter (λ x, x = b) l).

Lemma occ_cons b x l : occ b (x :: l) = ((if decide (x = b) then 1 else 0) + occ b l)%nat.
Proof. unfold occ. rewrite filter_cons. by destruct (decide (x = b)). Qed.

Lemma occ_zero b l : occ b l = O ↔ b ∉ l.
Proof.
  induction l as [|x l IH]; [split; [by intros _ ?%not_elem_of_nil|done]|]. rewrite occ_cons, not_elem_of_cons.
  destruct (decide (x = b)); naive_solver lia.
Qed.

Section Order.
Context `{Chrono} (ts : gmap TaskId Task).

(** [d] is blocked by the known task [b]. *)
Definition blocks (b d : TaskId) : Prop := ∃ t, ts !! d = Some t ∧ b ∈ blocked_by t ∧ is_Some (ts !! b).

(** ** The dependents *)

Lemma note_all id m l b :
  default [] (foldl (note_dependent ts id) m l !! b) =
  default [] (m !! b) ++ (if is_some (ts !! b) then replicate (occ b l) id else []).
Proof.
  revert m. induction l as [|x l IH]; intros m; cbn [foldl].
  { destruct (is_some _); cbn; by rewrite app_nil_r. }
  rewrite IH, occ_cons. unfold note_dependent. destruct (decide (x = b)) as [->|Hne].
  - destruct (is_some (ts !! b)); [|done]. rewrite lookup_partial_alter_eq. cbn. by rewrite <-app_assoc.
  - destruct (is_some (ts !! x)); [|done]. by rewrite lookup_partial_alter_ne.
Qed.

Definition deps_in (b : TaskId) (es : list (TaskId * Task)) : list TaskId :=
  if is_some (ts !! b) then mjoin ((λ e, replicate (occ b (blocked_by e.2)) e.1) <$> es) else [].

Lemma dependents_lookup b : default [] (dependents_of ts !! b) = deps_in b (sorted_entries ts).
Proof.
  unfold dependents_of. rewrite <-(app_nil_l (deps_in b _)). change [] with (default [] ((∅ : gmap TaskId (list TaskId)) !! b)) at 2.
  generalize (∅ : gmap TaskId (list TaskId)). induction (sorted_entries ts) as [|e es IH]; intros m; cbn [foldl].
  { unfold deps_in. destruct (is_some _); cbn; by rewrite app_nil_r. }
  rewrite IH, note_all. unfold deps_in. destruct (is_some (ts !! b)); cbn; by rewrite <-!app_assoc, ?app_nil_r.
Qed.

Lemma elem_of_dependents b d : d ∈ default [] (dependents_of ts !! b) ↔ blocks b d.
Proof.
  rewrite dependents_lookup. unfold deps_in, blocks. destruct (ts !! b) as [u|] eqn:Eb; cbn.
  - rewrite list_elem_of_join. split.
    + intros (l & Hd & ([k t] & -> & Hin)%list_elem_of_fmap). apply elem_of_replicate in Hd as [-> Ho]. cbn in *.
      rewrite sorted_entries_perm in Hin. apply elem_of_map_to_list in Hin. exists t. split; [done|].
      split; [|by eexists]. destruct (decide (b ∈ blocked_by t)) as [|Hn]; [done|]. by apply occ_zero in Hn.
    + intros (t & Ht & Hb & _). exists (replicate (occ b (blocked_by t)) d). split.
      * apply elem_of_replicate. split; [done|]. intros Hz. by apply occ_zero in Hz.
      * apply list_elem_of_fmap. exists (d, t). split; [done|]. rewrite sorted_entries_perm. by apply elem_of_map_to_list.
  - split; [by intros ?%not_elem_of_nil|]. intros (t & _ & _ & [? [=]]).
Qed.

(** ** The count of dependents that are not out yet *)

Definition cnt (order : list TaskId) (b : TaskId) : nat :=
  sum_list_with (λ e, if decide (e.1 ∈ order) then O else occ b (blocked_by e.2)) (map_to_list ts).

Lemma sum_list_with_perm {A} (f : A → nat) l l' : l ≡ₚ l' → sum_list_with f l = sum_list_with f l'.
Proof. induction 1; cbn; lia. Qed.

Lemma sum_list_with_ext {A} (f g : A → nat) l : (∀ x, x ∈ l → f x = g x) → sum_list_with f l = sum_list_with g l.
Proof.
  induction l as [|x l IH]; intros Hf; [done|]. cbn. rewrite Hf by by left. rewrite IH; [done|]. intros y Hy. apply Hf. by right.
Qed.

Lemma waiting_start b : is_Some (ts !! b) → length (default [] (dependents_of ts !! b)) = cnt [] b.
Proof.
  intros [u Hb]. rewrite dependents_lookup. unfold deps_in, cnt. rewrite Hb. cbn.
  rewrite <-(sum_list_with_perm _ _ _ (sorted_entries_perm ts)), length_join.
  induction (sorted_entries ts) as [|e es IH]; [done|]. cbn. rewrite length_replicate, IH.
  by rewrite decide_False by apply not_elem_of_nil.
Qed.

Lemma cnt_out order id t b : ts !! id = Some t → id ∉ order → cnt order b = (occ b (blocked_by t) + cnt (order ++ [id]) b)%nat.
Proof.
  intros Ht Hid. unfold cnt. rewrite <-(insert_delete_id ts id t Ht) at 1 2.
  rewrite !(sum_list_with_perm _ _ _ (map_to_list_insert (delete id ts) id t (lookup_delete_eq _ _))). cbn.
  rewrite decide_False by done. rewrite decide_True by (apply elem_of_app; right; by left). cbn. f_equal.
  apply sum_list_with_ext. intros [k u] Hk%elem_of_map_to_list. cbn. apply lookup_delete_Some in Hk as [Hne _].
  destruct (decide (k ∈ order)) as [Hin|Hout].
  - rewrite decide_True; [done|]. apply elem_of_app. by left.
  - rewrite decide_False; [done|]. rewrite elem_of_app, list_elem_of_singleton. by intros [?|?].
Qed.

Lemma sum_list_with_zero {A} (f : A → nat) l : sum_list_with f l = O → ∀ x, x ∈ l → f x = O.
Proof. induction l as [|y l IH]; cbn; intros Hs x Hx; [by apply not_elem_of_nil in Hx|]. apply elem_of_cons in Hx as [->|Hx]; [lia|]. apply IH; [lia|done]. Qed.

Lemma cnt_zero order b d t : cnt order b = O → ts !! d = Some t → b ∈ blocked_by t → d ∈ order.
Proof.
  intros Hc Ht Hb. apply elem_of_map_to_list in Ht. pose proof (sum_list_with_zero _ _ Hc _ Ht) as Hz. cbn in Hz.
  destruct (decide (d ∈ order)); [done|]. by apply occ_zero in Hz.
Qed.

Lemma cnt_pos order b : cnt order b ≠ O → ∃ d t, ts !! d = Some t ∧ b ∈ blocked_by t ∧ d ∉ order.
Proof.
  intros Hc. assert (∃ e, e ∈ map_to_list ts ∧ (if decide (e.1 ∈ order) then O else occ b (blocked_by e.2)) ≠ O) as ([d t] & Hin & Hz).
  { unfold cnt in Hc. induction (map_to_list ts) as [|e es IH]; [done|]. cbn in Hc.
    destruct (decide ((if decide (e.1 ∈ order) then O else occ b (blocked_by e.2)) = O)) as [Hz|Hz].
    - destruct IH as (e' & Hin & He'); [lia|]. exists e'. split; [by right|done].
    - exists e. split; [by left|done]. }
  exists d, t. cbn in Hz. split; [by apply elem_of_map_to_list|]. destruct (decide (d ∈ order)); [done|]. split; [|done].
  destruct (decide (b ∈ blocked_by t)) as [|Hn]; [done|]. by apply occ_zero in Hn.
Qed.

(** ** The loop *)

Lemma release_all w r l :
  (∀ b, (foldl release (w, r) l).1 !! b = (λ n, (n - occ b l)%nat) <$> w !! b) ∧
  ∀ b, b ∈ (foldl release (w, r) l).2 ↔ b ∈ r ∨ occ b l ≠ O ∧ ∃ n, w !! b = Some n ∧ (n <= occ b l)%nat.
Proof.
  revert w r. induction l as [|x l IH]; intros w r; cbn [foldl].
  { split; [intros b; cbn; destruct (w !! b); cbn; [f_equal; unfold occ; cbn; lia|done]|]. intros b. cbn. unfold occ. cbn. naive_solver. }
  unfold release at 2 4. cbn [fst snd]. destruct (w !! x) as [n|] eqn:Ex.
  - destruct (IH (<[x := (n - 1)%nat]> w) (if (n - 1 =? 0)%nat then {[x]} ∪ r else r)) as [IH1 IH2]. split.
    + intros b. rewrite IH1, occ_cons. destruct (decide (x = b)) as [->|Hne].
      * rewrite lookup_insert_eq, Ex. cbn. f_equal. lia.
      * by rewrite lookup_insert_ne.
    + intros b. rewrite IH2, occ_cons. destruct (decide (x = b)) as [->|Hne].
      * rewrite lookup_insert_eq, Ex. destruct (Nat.eqb_spec (n - 1) 0); [rewrite elem_of_union, elem_of_singleton|];
          naive_solver lia.
      * rewrite lookup_insert_ne by done. destruct (n - 1 =? 0)%nat; [rewrite elem_of_union, elem_of_singleton|]; naive_solver.
  - destruct (IH w r) as [IH1 IH2]. split; intros b; rewrite ?IH1, ?IH2, occ_cons; destruct (decide (x = b)) as [->|Hne]; rewrite ?Ex; naive_solver.
Qed.

Definition topo (order : list TaskId) : Prop := ∀ l1 b l2, order = l1 ++ b :: l2 → ∀ d, blocks b d → d ∈ l1.

Record ord_inv (s : gmap TaskId nat * gset TaskId) (order : list TaskId) : Prop := {
  oi_nodup : NoDup order;
  oi_known x : x ∈ order → is_Some (ts !! x);
  oi_waiting b : s.1 !! b = (λ _, cnt order b) <$> ts !! b;
  oi_ready b : b ∈ s.2 ↔ is_Some (ts !! b) ∧ (b ∉ order) ∧ cnt order b = O;
  oi_topo : topo order;
}.

Lemma ord_step s order id t : ord_inv s order → id ∈ s.2 → ts !! id = Some t →
  ord_inv (foldl release (s.1, s.2 ∖ {[id]}) (blocked_by t)) (order ++ [id]).
Proof.
  intros [I1 I2 I3 I4 I5] Hr Ht. apply I4 in Hr as (_ & Hnew & Hz). destruct (release_all s.1 (s.2 ∖ {[id]}) (blocked_by t)) as [R1 R2].
  assert (Hc : ∀ b, cnt order b = (occ b (blocked_by t) + cnt (order ++ [id]) b)%nat) by (intros b; by apply cnt_out). split.
  - apply NoDup_app. split; [done|]. split; [|by apply NoDup_singleton]. by intros x Hx ->%list_elem_of_singleton.
  - intros x [Hx| ->%list_elem_of_singleton]%elem_of_app; [by apply I2|by eexists].
  - intros b. rewrite R1, I3. specialize (Hc b). destruct (ts !! b); cbn; [f_equal; lia|done].
  - intros b. rewrite R2, elem_of_difference, elem_of_singleton, I4, not_elem_of_app, list_elem_of_singleton, I3. specialize (Hc b). split.
    + intros [((Hk & Hn & Hb) & Hne)|(Ho & n & Hw & Hle)]; [split_and!; [done..|lia]|].
      destruct (ts !! b) as [u|] eqn:Eb; [|done]. injection Hw as <-. split; [by eexists|]. split; [|lia]. split.
      * intros Hin. apply Hnew. apply list_elem_of_split in Hin as (l1 & l2 & E). rewrite E. apply elem_of_app. left.
        apply (I5 l1 b l2 E). exists t. split; [done|]. split; [|by eexists]. destruct (decide (b ∈ blocked_by t)) as [|Hx]; [done|]. by apply occ_zero in Hx.
      * intros ->. lia.
    + intros (Hk & [Hn Hne] & Hb). destruct (decide (occ b (blocked_by t) = O)) as [Ho|Ho]; [left|right].
      * split_and!; [done..|lia|done].
      * split; [done|]. destruct (ts !! b) as [u|]; [|by destruct Hk]. exists (cnt order b). split; [done|lia].
  - intros l1 b l2 E d Hd. destruct (decide (l2 = [])) as [->|Hne].
    + apply app_inj_tail in E as [<- <-]. destruct Hd as (u & Hu & Hb & _). by eapply cnt_zero.
    + destruct (exists_last Hne) as (l2' & x & ->). rewrite app_comm_cons, app_assoc in E. apply app_inj_tail in E as [E _].
      by eapply I5.
Qed.

Lemma known_length order : NoDup order → (∀ x, x ∈ order → is_Some (ts !! x)) → (length order <= size ts)%nat.
Proof.
  intros Hn Hk. rewrite <-size_dom, <-(size_list_to_set (C := gset TaskId) order) by done. apply subseteq_size.
  intros x Hx%elem_of_list_to_set. by apply elem_of_dom, Hk.
Qed.

Lemma order_loop_ok fuel s order : ord_inv s order → (size ts < fuel + length order)%nat →
  ∃ s', ord_inv s' (order_loop fuel ts s order) ∧ ∀ b, b ∉ s'.2.
Proof.
  revert s order. induction fuel as [|fuel IH]; intros s order Hi Hf.
  { pose proof (known_length order (oi_nodup _ _ Hi) (oi_known _ _ Hi)). lia. }
  cbn [order_loop]. destruct (sorted_ids s.2) as [|id rest] eqn:Er.
  { exists s. split; [done|]. intros b Hb%elem_of_sorted_ids. rewrite Er in Hb. by apply not_elem_of_nil in Hb. }
  assert (Hid : id ∈ s.2) by (apply elem_of_sorted_ids; rewrite Er; by left).
  destruct (proj1 (oi_ready _ _ Hi id) Hid) as ([t Ht] & _ & _). rewrite Ht. apply IH.
  - by apply ord_step.
  - rewrite length_app. cbn. lia.
Qed.

Definition the_order : list TaskId := dependents_first ts (dependents_of ts).

Lemma the_order_ok : ∃ s, ord_inv s the_order ∧ ∀ b, b ∉ s.2.
Proof.
  apply order_loop_ok; [|cbn; lia]. split.
  - constructor.
  - by intros x ?%not_elem_of_nil.
  - intros b. cbn. rewrite map_lookup_imap. destruct (ts !! b) as [t|] eqn:Eb; [|done]. cbn. f_equal.
    apply waiting_start. by eexists.
  - intros b. cbn. rewrite elem_of_dom. split.
    + intros [n [Hn Hz]%map_lookup_filter_Some]. cbn in Hz. subst n. rewrite map_lookup_imap in Hn.
      destruct (ts !! b) as [t|] eqn:Eb; [|done]. cbn in Hn. injection Hn as Hn. split; [by eexists|]. split; [apply not_elem_of_nil|].
      rewrite <-waiting_start; [done|]. by eexists.
    + intros (Hk & _ & Hz). exists O. apply map_lookup_filter_Some. split; [|done]. rewrite map_lookup_imap.
      rewrite <-waiting_start in Hz by done. destruct Hk as [t ->]. cbn. by f_equal.
  - intros l1 b l2 E. by destruct l1.
Qed.

(** A finite set in which every element has another below it has a cycle. *)
Lemma endless_cycle {A} `{Countable A} (R : relation A) (S : gset A) x : x ∈ S → (∀ x, x ∈ S → ∃ y, y ∈ S ∧ R y x) →
  ¬ (∀ x, ¬ tc R x x).
Proof.
  intros Hx Hstep Hac.
  assert (Hchain : ∀ k, ∃ x l, length l = k ∧ NoDup (x :: l) ∧ (∀ y, y ∈ x :: l → y ∈ S) ∧ ∀ y, y ∈ l → tc R x y).
  { induction k as [|k (z & l & Hl & Hnd & Hin & Htc)].
    - exists x, []. split; [done|]. split; [apply NoDup_singleton|]. split; [by intros y ->%list_elem_of_singleton|]. by intros y ?%not_elem_of_nil.
    - destruct (Hstep z) as (y & Hy & Hyz); [apply Hin; by left|].
      assert (Hall : ∀ v, v ∈ z :: l → tc R y v).
      { intros v [->|Hv]%elem_of_cons; [by apply tc_once|]. eapply tc_l; [exact Hyz|by apply Htc]. }
      exists y, (z :: l). split; [cbn; by f_equal|]. split; [|split; [|done]].
      + apply NoDup_cons. split; [|done]. intros Hy'. by apply (Hac y), Hall.
      + intros v [->|Hv]%elem_of_cons; [done|by apply Hin]. }
  destruct (Hchain (size S)) as (z & l & Hl & Hnd & Hin & _).
  assert (Hle : (size (list_to_set (z :: l) : gset A) <= size S)%nat).
  { apply subseteq_size. intros v Hv%elem_of_list_to_set. by apply Hin. }
  rewrite size_list_to_set in Hle by done. cbn in Hle. lia.
Qed.

Context (Hacyclic : ∀ id, ¬ tc (edge (blocked_by <$> ts)) id id).

Lemma blocks_edge b d : blocks b d ↔ edge (blocked_by <$> ts) d b.
Proof.
  unfold blocks, edge. rewrite !lookup_fmap. split.
  - intros (t & -> & Hb & Hk). split; [done|]. by apply fmap_is_Some.
  - intros [Hb Hk%fmap_is_Some]. destruct (ts !! d) as [t|]; [|by apply not_elem_of_nil in Hb]. by exists t.
Qed.

(** The order holds every task once, each behind the tasks it blocks. *)
Lemma order_complete x : is_Some (ts !! x) → x ∈ the_order.
Proof.
  intros Hx. destruct the_order_ok as (s & Hi & Hempty). destruct (decide (x ∈ the_order)) as [|Hout]; [done|]. exfalso.
  assert (Hin : x ∈ dom ts ∖ list_to_set the_order) by (rewrite elem_of_difference, elem_of_dom, elem_of_list_to_set; done).
  apply (endless_cycle (edge (blocked_by <$> ts)) _ x Hin); [|exact Hacyclic].
  intros b. rewrite elem_of_difference, elem_of_dom, elem_of_list_to_set. intros [Hk Hb].
  destruct (cnt_pos the_order b) as (d & t & Ht & Hbt & Hd).
  { intros Hz. apply (Hempty b), (oi_ready _ _ Hi). done. }
  exists d. split; [|apply blocks_edge; by exists t].
  rewrite elem_of_difference, elem_of_dom, elem_of_list_to_set. split; [by eexists|done].
Qed.

Lemma order_nodup : NoDup the_order.
Proof. destruct the_order_ok as (s & Hi & _). apply (oi_nodup _ _ Hi). Qed.
Lemma order_known x : x ∈ the_order → is_Some (ts !! x).
Proof. destruct the_order_ok as (s & Hi & _). apply (oi_known _ _ Hi). Qed.
Lemma order_topo : topo the_order.
Proof. destruct the_order_ok as (s & Hi & _). apply (oi_topo _ _ Hi). Qed.

(** ** Deadlines *)

(** A task's own due date binds it while it is open, and so does every
    deadline of an open task it blocks. *)
Inductive deadline : TaskId → NaiveDate → Prop :=
  | deadline_own x t d : ts !! x = Some t → is_open t = true → due t = Some d → deadline x d
  | deadline_down x t y d : ts !! x = Some t → is_open t = true → blocks x y → deadline y d → deadline x d.

(** The earliest date of a kind, if there is one. *)
Definition earliest (P : NaiveDate → Prop) (o : option NaiveDate) : Prop :=
  match o with
  | Some m => P m ∧ ∀ d, P d → (num_days_from_ce m <= num_days_from_ce d)%Z
  | None => ∀ d, ¬ P d
  end.

Lemma earliest_iff P Q o : (∀ d, P d ↔ Q d) → earliest P o → earliest Q o.
Proof. intros Hpq. destruct o as [m|]; cbn; [|naive_solver]. intros [H1 H2]. split; [by apply Hpq|]. intros d Hd. by apply H2, Hpq. Qed.

Lemma min_date_spec l : earliest (λ d, d ∈ l) (min_date l).
Proof.
  unfold min_date. assert (Hg : ∀ l seen acc, earliest (λ d, d ∈ seen) acc → earliest (λ d, d ∈ seen ++ l)
    (foldl (λ acc d, match acc with None => Some d | Some m => Some (if date_lt d m then d else m) end) acc l)).
  { clear l. induction l as [|x l IH]; intros seen acc Ha; [by rewrite app_nil_r|]. cbn [foldl]. rewrite cons_middle, app_assoc. apply IH.
    destruct acc as [m|]; cbn in Ha |- *.
    - destruct Ha as [Hm Hle]. unfold date_lt. destruct (Z.ltb_spec (num_days_from_ce x) (num_days_from_ce m)) as [Hlt|Hge]; split.
      + apply elem_of_app. right. by left.
      + intros d [Hd%Hle| ->%list_elem_of_singleton]%elem_of_app; lia.
      + apply elem_of_app. by left.
      + intros d [Hd%Hle| ->%list_elem_of_singleton]%elem_of_app; lia.
    - split; [apply elem_of_app; right; by left|]. intros d [Hd| ->%list_elem_of_singleton]%elem_of_app; [by apply Ha in Hd|lia]. }
  apply (Hg l [] None). intros d. apply not_elem_of_nil.
Qed.

Lemma deadline_open x d : deadline x d → ∃ t, ts !! x = Some t ∧ is_open t = true.
Proof. intros [y t e Ht Ho _|y t z e Ht Ho _ _]; by exists t. Qed.

Lemma deadline_inv x t d : ts !! x = Some t → is_open t = true →
  deadline x d ↔ due t = Some d ∨ ∃ y, blocks x y ∧ deadline y d.
Proof.
  intros Ht Ho. split.
  - intros Hd. inversion Hd as [? u ? Hu _ Hdu|? u y ? Hu _ Hb Hy]; subst; rewrite Ht in Hu; injection Hu as ->; [by left|right; by exists y].
  - intros [Hd|(y & Hb & Hd)]; [by eapply deadline_own|by eapply deadline_down].
Qed.

(** What a task's open dependents ask of it. *)
Lemma downstream_earliest (needed : gmap TaskId NaiveDate) x t : ts !! x = Some t → is_open t = true →
  (∀ y, blocks x y → earliest (deadline y) (needed !! y)) →
  earliest (deadline x) (min_date (option_list (due t) ++
    omap (λ d, needed !! d) (filter (λ d, match ts !! d with Some u => is_open u | None => false end = true)
      (default [] (dependents_of ts !! x))))).
Proof.
  intros Ht Ho Hdep. set (l := option_list _ ++ _). pose proof (min_date_spec l) as Hm.
  assert (Hin : ∀ d, d ∈ l ↔ due t = Some d ∨ ∃ y, blocks x y ∧ (∃ u, ts !! y = Some u ∧ is_open u = true) ∧ needed !! y = Some d).
  { intros d. unfold l. rewrite elem_of_app, list_elem_of_omap. f_equiv.
    - destruct (due t) as [e|]; cbn; [rewrite list_elem_of_singleton; naive_solver|]. split; [by intros ?%not_elem_of_nil|done].
    - split.
      + intros (y & [Hopen Hy]%list_elem_of_filter & Hn). exists y. rewrite <-elem_of_dependents. split; [done|]. split; [|done].
        destruct (ts !! y) as [u|]; [by exists u|done].
      + intros (y & Hy & (u & Hu & Huo) & Hn). exists y. split; [|done]. apply list_elem_of_filter. split; [by rewrite Hu|by apply elem_of_dependents]. }
  assert (Hsub : ∀ d, d ∈ l → deadline x d).
  { intros d [Hd|(y & Hb & _ & Hn)]%Hin; [by eapply deadline_own|]. eapply deadline_down; [done..|].
    specialize (Hdep y Hb). rewrite Hn in Hdep. apply Hdep. }
  assert (Hcov : ∀ d, deadline x d → ∃ m, m ∈ l ∧ (num_days_from_ce m <= num_days_from_ce d)%Z).
  { intros d [Hd|(y & Hb & Hd)]%(deadline_inv x t d Ht Ho); [exists d; split; [apply Hin; by left|lia]|].
    specialize (Hdep y Hb). destruct (needed !! y) as [m|] eqn:En; cbn in Hdep; [|by apply Hdep in Hd].
    exists m. split; [|by apply Hdep]. apply Hin. right. exists y. split; [done|]. split; [|done]. by eapply deadline_open. }
  destruct (min_date l) as [m|]; cbn in *.
  - destruct Hm as [Hm Hle]. split; [by apply Hsub|]. intros d (m' & Hm' & ?)%Hcov. specialize (Hle m' Hm'). lia.
  - intros d (m' & Hm' & _)%Hcov. by apply Hm in Hm'.
Qed.

Lemma deadlines_prefix l1 l2 x : the_order = l1 ++ l2 →
  (x ∈ l1 → earliest (deadline x) (foldl (deadline_step ts (dependents_of ts)) ∅ l1 !! x)) ∧
  (x ∉ l1 → foldl (deadline_step ts (dependents_of ts)) ∅ l1 !! x = None).
Proof.
  revert l2 x. induction l1 as [|id l1 IH] using rev_ind; intros l2 x E; [by split; [intros ?%not_elem_of_nil|]|].
  rewrite <-app_assoc in E. cbn [app] in E. rewrite foldl_app. cbn [foldl]. set (needed := foldl _ ∅ l1) in *.
  assert (Hnew : id ∉ l1). { pose proof order_nodup as Hn. rewrite E in Hn. apply NoDup_app in Hn as (_ & Hn & _). intros Hin. apply (Hn id Hin). by left. }
  destruct (order_known id) as [t Ht]; [rewrite E; apply elem_of_app; right; by left|].
  assert (Hother : x ≠ id → deadline_step ts (dependents_of ts) needed id !! x = needed !! x).
  { intros Hne. unfold deadline_step. rewrite Ht. destruct (negb _); [done|]. destruct (min_date _); [by rewrite lookup_insert_ne|done]. }
  rewrite elem_of_app, list_elem_of_singleton. destruct (decide (x = id)) as [->|Hne]; cycle 1.
  { rewrite Hother by done. destruct (IH _ x E) as [IH1 IH2]. split; [naive_solver|]. intros Hx. apply IH2. naive_solver. }
  split; [|intros []; by right]. intros _. unfold deadline_step. rewrite Ht.
  destruct (IH _ id E) as [_ IHn]. specialize (IHn Hnew). destruct (is_open t) eqn:Eo; cbn [negb]; cycle 1.
  { rewrite IHn. intros d (u & Hu & Huo)%deadline_open. congruence. }
  pose proof (downstream_earliest needed id t Ht Eo) as Hmin.
  destruct (min_date _) as [m|]; [rewrite lookup_insert_eq|rewrite IHn]; apply Hmin; intros y Hy; apply (IH _ y E);
    by apply (order_topo l1 id l2 E).
Qed.

Definition needed_dates : gmap TaskId NaiveDate := deadlines ts (dependents_of ts) the_order.

Lemma needed_exact x : earliest (deadline x) (needed_dates !! x).
Proof.
  destruct (deadlines_prefix the_order [] x) as [H1 H2]; [by rewrite app_nil_r|].
  destruct (decide (x ∈ the_order)) as [Hin|Hout]; [by apply H1|]. unfold needed_dates, deadlines. rewrite H2 by done.
  intros d (t & Ht & _)%deadline_open. apply Hout, order_complete. by eexists.
Qed.

(** ** Failures *)

(** A task to do waits on a failed one, directly or through others to do. *)
Inductive stuck_at : TaskId → Prop :=
  | stuck_fail x t b p : ts !! x = Some t → state t = Todo → b ∈ blocked_by t → ts !! b = Some p → state p = Fail_ → stuck_at x
  | stuck_chain x t b : ts !! x = Some t → state t = Todo → b ∈ blocked_by t → stuck_at b → stuck_at x.

Lemma stuck_known x : stuck_at x → is_Some (ts !! x).
Proof. intros [? ? ? ? Ht|? ? ? Ht]; by eexists. Qed.

(** Against the order, prerequisites come first. *)
Lemma behind l1 id l2 b : reverse the_order = l1 ++ id :: l2 → blocks b id → b ∈ l1.
Proof.
  intros E Hb. apply (f_equal reverse) in E. rewrite reverse_involutive, reverse_app, reverse_cons in E.
  rewrite <-app_assoc in E. cbn [app] in E. pose proof order_nodup as Hn. rewrite E in Hn. apply NoDup_app in Hn as (Hn2 & Hn1 & _).
  assert (Hin : b ∈ the_order) by (apply order_complete; by destruct Hb as (_ & _ & _ & ?)). rewrite E in Hin.
  apply elem_of_app in Hin as [Hin|[->|Hin]%elem_of_cons]; [| |by apply elem_of_reverse].
  - apply list_elem_of_split in Hin as (q1 & q2 & Eq). assert (Hid : id ∈ q1).
    { apply (order_topo q1 b (q2 ++ id :: reverse l1)); [|done]. rewrite E, Eq, <-app_assoc. done. }
    exfalso. apply (Hn1 id); [rewrite Eq; apply elem_of_app; by left|by left].
  - exfalso. apply (Hn1 id); [|by left]. by apply (order_topo (reverse l2) id (reverse l1)).
Qed.

Lemma stuck_prefix l1 l2 x : reverse the_order = l1 ++ l2 → x ∈ foldl (stuck_step ts) ∅ l1 ↔ x ∈ l1 ∧ stuck_at x.
Proof.
  revert l2 x. induction l1 as [|id l1 IH] using rev_ind; intros l2 x E.
  { cbn. rewrite elem_of_empty. split; [done|]. by intros [?%not_elem_of_nil _]. }
  rewrite <-app_assoc in E. cbn [app] in E. rewrite foldl_app. cbn [foldl]. set (s := foldl _ ∅ l1) in *.
  destruct (order_known id) as [t Ht]; [apply elem_of_reverse; rewrite E; apply elem_of_app; right; by left|].
  unfold stuck_step. rewrite Ht.
  assert (Hstep : bool_decide (state t = Todo) && existsb (λ b, match ts !! b with Some p => bool_decide (state p = Fail_) | None => false end ||
    bool_decide (b ∈ s)) (blocked_by t) = true ↔ stuck_at id).
  { rewrite andb_true_iff, bool_decide_eq_true, existsb_exists. split.
    - intros [Htd (b & Hb%list_elem_of_In & Hor)]. apply orb_true_iff in Hor as [Hf|Hs%bool_decide_eq_true].
      + destruct (ts !! b) as [p|] eqn:Ep; [|done]. apply bool_decide_eq_true in Hf. by eapply stuck_fail.
      + apply (IH _ b E) in Hs as [_ Hs]. by eapply stuck_chain.
    - intros Hs. inversion Hs as [? u b p Hu Htd Hb Hp Hf|? u b Hu Htd Hb Hsb]; subst; rewrite Ht in Hu; injection Hu as <-; split; try done;
        exists b; (split; [by apply list_elem_of_In|]); apply orb_true_iff.
      + left. by rewrite Hp, bool_decide_eq_true.
      + right. rewrite bool_decide_eq_true. apply (IH _ b E). split; [|done]. apply (behind l1 id l2 b E). exists t. split; [done|]. split; [done|].
        by apply stuck_known. }
  destruct (_ && existsb _ _).
  - rewrite elem_of_union, elem_of_singleton, (IH _ x E), elem_of_app, list_elem_of_singleton. assert (stuck_at id) by (by apply Hstep). naive_solver.
  - rewrite (IH _ x E), elem_of_app, list_elem_of_singleton. split; [naive_solver|]. intros [[Hx| ->] Hs]; [done|]. by apply Hstep in Hs.
Qed.

Lemma stuck_exact x : x ∈ stuck_tasks ts the_order ↔ stuck_at x.
Proof.
  unfold stuck_tasks. rewrite (stuck_prefix _ [] x) by (by rewrite app_nil_r). rewrite elem_of_reverse. split; [by intros [_ ?]|].
  intros Hs. split; [|done]. by apply order_complete, stuck_known.
Qed.

End Order.

(** ** Priority and next *)

Section Lists.
Context `{Chrono} (ts : gmap TaskId Task) (needed : gmap TaskId NaiveDate).

#[local] Instance key_before_trans : Transitive key_before.
Proof.
  intros [[[] [x|]] i] [[[] [y|]] j] [[[] [z|]] k]; cbn; try done; try (intros; by etrans);
    intros [?|[-> ?]] [?|[-> ?]]; try (left; lia); right; (split; [done|]); by etrans.
Qed.
#[local] Instance key_before_total : Total key_before.
Proof.
  intros [[[] [x|]] i] [[[] [y|]] j]; cbn; try (by left); try (by right); try apply (total String.le);
    destruct (Z.lt_trichotomy x y) as [?|[->|?]]; try (by left; left); try (by right; left);
    (destruct (total String.le i j); [left|right]; by right).
Qed.
#[local] Instance prio_le_trans : Transitive (prio_le ts needed).
Proof. intros a b c. apply key_before_trans. Qed.
#[local] Instance prio_le_total : Total (prio_le ts needed).
Proof. intros a b. apply key_before_total. Qed.

Lemma priority_sorted : StronglySorted (prio_le ts needed) (priority_of ts needed).
Proof. apply StronglySorted_merge_sort; apply _. Qed.

Lemma elem_of_priority id : id ∈ priority_of ts needed ↔ ∃ t, ts !! id = Some t ∧ is_open t = true ∧ is_series t = false.
Proof.
  unfold priority_of. rewrite merge_sort_Permutation, list_elem_of_fmap. split.
  - intros ([k t] & -> & [[Ho Hs] Hin]%list_elem_of_filter). rewrite sorted_entries_perm in Hin. exists t.
    split; [by apply elem_of_map_to_list|done].
  - intros (t & Ht & Ho & Hs). exists (id, t). split; [done|]. apply list_elem_of_filter. split; [done|].
    rewrite sorted_entries_perm. by apply elem_of_map_to_list.
Qed.

Lemma priority_nodup : NoDup (priority_of ts needed).
Proof.
  unfold priority_of. rewrite merge_sort_Permutation. eapply NoDup_fmap_fst; cycle 1.
  - apply NoDup_filter. rewrite sorted_entries_perm. apply NoDup_map_to_list.
  - intros k t u [_ H1]%list_elem_of_filter [_ H2]%list_elem_of_filter. rewrite sorted_entries_perm in H1, H2.
    apply elem_of_map_to_list in H1, H2. congruence.
Qed.

Lemma push_all ids m l a : default [] (foldl (push_next ids) m l !! a) = default [] (m !! a) ++ mjoin (replicate (occ a l) ids).
Proof.
  revert m. induction l as [|x l IH]; intros m; cbn [foldl]; [cbn; by rewrite app_nil_r|]. rewrite IH, occ_cons. unfold push_next.
  destruct (decide (x = a)) as [->|Hne]; [rewrite lookup_partial_alter_eq; cbn; by rewrite <-app_assoc|by rewrite lookup_partial_alter_ne].
Qed.

Lemma push_some ids m l a : is_Some (foldl (push_next ids) m l !! a) ↔ is_Some (m !! a) ∨ a ∈ l.
Proof.
  revert m. induction l as [|x l IH]; intros m; cbn [foldl]; [split; [by left|by intros [?|?%not_elem_of_nil]]|]. rewrite IH, elem_of_cons. unfold push_next.
  destruct (decide (x = a)) as [->|Hne]; [rewrite lookup_partial_alter_eq; naive_solver|rewrite lookup_partial_alter_ne by done; naive_solver].
Qed.

(** The task is one of [a]'s that a pass takes. *)
Definition takes (take : Task → bool) (a : string) (id : TaskId) : bool :=
  match ts !! id with Some t => take t && bool_decide (a ∈ assignees t) | None => false end.

Context (Hnd : ∀ id t, ts !! id = Some t → NoDup (assignees t)).

Lemma occ_nodup a l : NoDup l → occ a l = if decide (a ∈ l) then 1%nat else O.
Proof.
  induction 1 as [|x l Hx _ IH]; [done|]. rewrite occ_cons, IH. destruct (decide (x = a)) as [->|Hne].
  - rewrite (decide_False (P := a ∈ l)) by done. rewrite decide_True; [done|]. by left.
  - cbn. destruct (decide (a ∈ l)); [rewrite decide_True by (by right); done|]. rewrite decide_False; [done|]. rewrite elem_of_cons. naive_solver.
Qed.

Lemma pass_one take m id a :
  default [] (next_pass ts take (λ id, [id]) m id !! a) = default [] (m !! a) ++ (if takes take a id then [id] else []).
Proof.
  unfold next_pass, takes. destruct (ts !! id) as [t|] eqn:Et; [|by rewrite app_nil_r]. destruct (take t); [|by rewrite app_nil_r].
  rewrite push_all, (occ_nodup a _ (Hnd id t Et)). cbn [andb]. f_equal. destruct (decide (a ∈ assignees t)).
  - by rewrite bool_decide_eq_true_2.
  - by rewrite bool_decide_eq_false_2.
Qed.

Lemma pass_all take m prio a :
  default [] (foldl (next_pass ts take (λ id, [id])) m prio !! a) =
  default [] (m !! a) ++ filter (λ id, takes take a id = true) prio.
Proof.
  revert m. induction prio as [|id prio IH]; intros m; cbn [foldl]; [by rewrite app_nil_r|]. rewrite IH, pass_one, <-app_assoc, filter_cons.
  destruct (decide (takes take a id = true)) as [E|E]; [by rewrite E|]. apply not_true_is_false in E. by rewrite E.
Qed.

Lemma pass_some take push m prio a : is_Some (foldl (next_pass ts take push) m prio !! a) ↔
  is_Some (m !! a) ∨ ∃ id, id ∈ prio ∧ takes take a id = true.
Proof.
  revert m. induction prio as [|id prio IH]; intros m; cbn [foldl]; [split; [by left|intros [?|(id & ?%not_elem_of_nil & _)]; done]|].
  rewrite IH. assert (Hp : is_Some (next_pass ts take push m id !! a) ↔ is_Some (m !! a) ∨ takes take a id = true).
  { unfold next_pass, takes. destruct (ts !! id) as [t|]; [|naive_solver]. destruct (take t); cbn; [|naive_solver].
    by rewrite push_some, bool_decide_eq_true. }
  rewrite Hp. setoid_rewrite elem_of_cons. naive_solver.
Qed.

Lemma entries_empty prio a : default [] (foldl (next_pass ts (λ _, true) (λ _, [])) ∅ prio !! a) = [].
Proof.
  assert (Hg : ∀ m, default [] (m !! a) = [] → default [] (foldl (next_pass ts (λ _, true) (λ _, [])) m prio !! a) = []).
  { induction prio as [|id prio IH]; intros m Hm; [done|]. cbn [foldl]. apply IH. unfold next_pass. destruct (ts !! id) as [t|]; [|done].
    rewrite push_all, Hm. cbn [app]. by induction (occ a (assignees t)). }
  by apply Hg.
Qed.

Lemma next_exact today prio a :
  default [] (next_of ts today prio !! a) =
    filter (λ id, takes (λ t, bool_decide (state t = Wip)) a id = true) prio ++
    filter (λ id, takes (startable ts today) a id = true) prio ∧
  (is_Some (next_of ts today prio !! a) ↔ ∃ id, id ∈ prio ∧ takes (λ _, true) a id = true).
Proof.
  unfold next_of. split; [by rewrite !pass_all, entries_empty|]. rewrite !pass_some, lookup_empty. unfold takes. split.
  - intros [[[[? [=]]|Hex]|(id & Hin & Ht)]|(id & Hin & Ht)]; [done|..]; exists id; (split; [done|]);
      (destruct (ts !! id); [|done]); apply andb_true_iff in Ht as [_ ?]; by rewrite andb_true_l.
  - intros Hex. left. left. by right.
Qed.

End Lists.

(** C18: the dates of the board.  On every folded board and every day, [derive]
    lists exactly the board's tasks; the date a task is needed by is the
    earliest among its own due date and those of all the open tasks it blocks,
    directly or through open tasks, and is absent only if there is none; a
    task is overdue exactly when some such date has passed; it is stuck exactly
    when it is to do and waits, through tasks to do, on a failed one. *)
Theorem derive_exact `{Chrono} (seats : gset string) (applied : list Value) (today : NaiveDate) (id : TaskId) :
  let b := kanban_fold applied seats in
  match tasks b !! id, d_tasks (derive b today) !! id with
  | Some t, Some d =>
      earliest (deadline (tasks b) id) (needed_by d) ∧
      (overdue d = true ↔ ∃ x, deadline (tasks b) id x ∧ date_lt x today = true) ∧
      (stuck d = true ↔ stuck_at (tasks b) id) ∧
      (∀ x, x ∈ prerequisite_for d ↔ blocks (tasks b) id x)
  | None, None => True
  | _, _ => False
  end.
Proof.
  intros b. destruct (fold_onto_ok seats board_default applied (board_default_ok seats)) as [_ _ Hg].
  assert (Hac : ∀ i, ¬ tc (edge (blocked_by <$> tasks b)) i i) by (intros i; by apply (grounded_no_cycle _ i)).
  unfold derive. cbn [d_tasks]. rewrite map_lookup_imap. destruct (tasks b !! id) as [t|] eqn:Et; [|done]. cbn [mbind option_bind].
  pose proof (needed_exact (tasks b) Hac id) as Hn. unfold derive_task. cbn [needed_by overdue stuck prerequisite_for].
  unfold needed_dates, the_order in Hn.
  split; [exact Hn|]. split; [|split].
  - set (o := deadlines _ _ _ !! id) in *. destruct o as [m|]; cbn in Hn.
    + rewrite andb_true_iff. split; [intros [_ ?]; exists m; by destruct Hn|]. intros (x & Hx & Hlt). split.
      * apply deadline_open in Hx as (u & Hu & ?). congruence.
      * unfold date_lt in *. destruct Hn as [_ Hle]. specialize (Hle x Hx). lia.
    + rewrite andb_false_r. split; [done|]. intros (x & Hx & _). by apply Hn in Hx.
  - rewrite bool_decide_eq_true. apply (stuck_exact (tasks b) Hac).
  - intros x. apply elem_of_dependents.
Qed.

(** What to do next.  The priority list of a folded board holds every open
    task that is no series, each once, ordered by: in progress first, then
    dated before undated, then the earlier date, then the id.  Each seat's list
    is its tasks in progress and then those it can start (to do, nothing unmet
    before it, not for a later day), both in priority order. *)
Theorem priority_exact `{Chrono} (seats : gset string) (applied : list Value) (today : NaiveDate) :
  let b := kanban_fold applied seats in
  let d := derive b today in
  NoDup (priority d) ∧
  (∀ id, id ∈ priority d ↔ ∃ t, tasks b !! id = Some t ∧ is_open t = true ∧ is_series t = false) ∧
  (∃ needed, (∀ id, needed !! id = d_tasks d !! id ≫= needed_by) ∧ StronglySorted (prio_le (tasks b) needed) (priority d)) ∧
  ∀ a, default [] (next d !! a) =
    filter (λ id, takes (tasks b) (λ t, bool_decide (state t = Wip)) a id = true) (priority d) ++
    filter (λ id, takes (tasks b) (startable (tasks b) today) a id = true) (priority d).
Proof.
  intros b d. destruct (fold_onto_ok seats board_default applied (board_default_ok seats)) as [_ Ht Hg].
  assert (Hac : ∀ i, ¬ tc (edge (blocked_by <$> tasks b)) i i) by (intros i; by apply (grounded_no_cycle _ i)).
  split; [apply priority_nodup|]. split; [intros id; apply elem_of_priority|]. split.
  - exists (needed_dates (tasks b)). split; [|apply priority_sorted]. intros id. unfold d, derive. cbn [d_tasks]. rewrite map_lookup_imap.
    destruct (tasks b !! id) as [t|] eqn:Et; [done|]. cbn [mbind option_bind]. pose proof (needed_exact (tasks b) Hac id) as Hn.
    destruct (needed_dates (tasks b) !! id) as [m|]; [|done]. destruct Hn as [(u & Hu & _)%deadline_open _]. congruence.
  - intros a. apply next_exact. intros id t Hid. by destruct (Ht id t Hid) as (_ & [] & _).
Qed.

(** The impact of a change is told exactly: between two derivations a line
    says that a task's needed-by date moved, or that a flag went on or off,
    exactly when it did; a task missing on one side counts as undated and
    unflagged there. *)
Theorem impact_exact `{Chrono} (before after_ : Derived) (c : ImpactChange) :
  c ∈ impact before after_ ↔
  match c with
  | NeededBy id from to =>
      from = nb_of (d_tasks before !! id) ∧ to = nb_of (d_tasks after_ !! id) ∧ from ≠ to
  | FlagSet id f on => flag_of f (d_tasks after_ !! id) = on ∧ flag_of f (d_tasks before !! id) ≠ on
  end.
Proof.
  unfold impact. rewrite list_elem_of_join. setoid_rewrite list_elem_of_fmap. setoid_rewrite elem_of_sorted_ids.
  assert (Hone : ∀ id, c ∈ impact_one before after_ id ↔
    match c with
    | NeededBy id' from to => id' = id ∧ from = nb_of (d_tasks before !! id) ∧ to = nb_of (d_tasks after_ !! id) ∧ from ≠ to
    | FlagSet id' f on => id' = id ∧ flag_of f (d_tasks after_ !! id) = on ∧ flag_of f (d_tasks before !! id) ≠ on
    end).
  { intros id. unfold impact_one. rewrite elem_of_app, list_elem_of_omap. split.
    - intros [Hl|(f & Hf & Hc)].
      + case_bool_decide; [by apply not_elem_of_nil in Hl|]. by apply list_elem_of_singleton in Hl as ->.
      + destruct (Bool.eqb _ _) eqn:Ee; [done|]. injection Hc as <-. apply Bool.eqb_false_iff in Ee. done.
    - destruct c as [id' from to|id' f on].
      + intros (-> & -> & -> & Hne). left. rewrite bool_decide_eq_false_2 by done. by left.
      + intros (-> & <- & Hne). right. exists f. split; [destruct f; unfold FLAGS; set_solver|].
        destruct (Bool.eqb _ _) eqn:Ee; [by apply Bool.eqb_prop in Ee|done]. }
  split.
  - intros (l & Hc & id & -> & _). apply Hone in Hc. destruct c; naive_solver.
  - intros Hc. set (id := match c with NeededBy id _ _ | FlagSet id _ _ => id end). exists (impact_one before after_ id).
    split; [apply Hone; unfold id; destruct c; naive_solver|]. exists id. split; [done|].
    destruct (d_tasks before !! id) eqn:Eb; [apply elem_of_union_l, elem_of_dom; by eexists|].
    destruct (d_tasks after_ !! id) eqn:Ea; [apply elem_of_union_r, elem_of_dom; by eexists|].
    exfalso. unfold id in *. destruct c as [i from to|i f on]; rewrite Ea, Eb in Hc; naive_solver.
Qed.
