(* ===== verification/Wake.v ===== *)
(** * What wakes a seat

    crates/molt-core/src/kanban_wake.rs: the starts of a seat's timed tasks
    that are due, when the next one is, and what the seat can act on.  The
    clock has seconds: a [Stamp] is a date and a second of it, beside the
    minutes of [Calendar]. *)

From S2P Require Import Prelude Strs Json Surface WikiFold Calendar Series Cycle Kanban Board Dates.
#[local] Open Scope Z_scope.

Definition MISSED_HORIZON_SECS : Z := 24 * 3600.
Definition LATE_GRACE_SECS : Z := 60.
Definition LOOKAHEAD_DAYS : Z := 15.
Definition TEST_REASON : string := "test".

Section Wake.
Context `{Chrono}.

(** ** Seconds *)

(** A [NaiveDateTime] at the precision of the clock. *)
Definition Stamp : Type := (NaiveDate * N)%type.

Definition secs (t : Stamp) : Z := 86400 * num_days_from_ce t.1 + Z.of_N t.2.

Definition to_stamp (t : NaiveDateTime) : Stamp := (t.1, (60 * t.2)%N).

(** [t + TimeDelta::seconds(n)]; [None]: out of range, which panics. *)
Definition add_secs (t : Stamp) (n : Z) : option Stamp :=
  let z := Z.of_N t.2 + n in
  d ← add_days t.1 (z / 86400); Some (d, Z.to_N (z mod 86400)).

(** ** Starts *)

Record StartDue := mkStartDue {
  sd_task : TaskId;
  sd_occurrence : option NaiveDate;
  sd_begins : NaiveDateTime;
  sd_blocked : bool;
}.

(** [StartDue::key]. *)
Definition due_key (d : StartDue) : string := (sd_task d +:+ "@" +:+ fmt_datetime (sd_begins d))%string.

Definition due_late (d : StartDue) (now : Stamp) : bool := LATE_GRACE_SECS <? secs now - secs (to_stamp (sd_begins d)).

Definition key_begins (key : string) : option NaiveDateTime :=
  p ← rsplit_once "@" key; parse_datetime p.2.

Record StartScan := mkStartScan { ss_due : list StartDue; ss_next : option Stamp }.

Definition scan_default : StartScan := {| ss_due := []; ss_next := None |}.

(** [n.min(fire)]. *)
Definition min_stamp (n fire : Stamp) : Stamp := if secs n <=? secs fire then n else fire.

(** One occurrence. *)
Definition scan_occurrence (now : Stamp) (lead_min : N) (id : TaskId) (series blocked : bool) (out : StartScan)
    (occ : Occurrence) : outcome unit StartScan :=
  let b := begins (window occ) in
  let? fire := expect (add_secs (to_stamp b) (- (60 * Z.of_N lead_min))) in
  if secs now <? secs fire
  then Ok {| ss_due := ss_due out;
             ss_next := Some (match ss_next out with Some n => min_stamp n fire | None => fire end) |}
  else if secs now - secs (to_stamp b) <? MISSED_HORIZON_SECS
  then Ok {| ss_due := ss_due out ++ [{| sd_task := id; sd_occurrence := if series then Some (odate occ) else None;
                                         sd_begins := b; sd_blocked := blocked |}];
             ss_next := ss_next out |}
  else Ok out.

Fixpoint scan_occurrences (now : Stamp) (lead_min : N) (id : TaskId) (series blocked : bool) (out : StartScan)
    (occs : list Occurrence) : outcome unit StartScan :=
  match occs with
  | [] => Ok out
  | occ :: occs =>
      let? out := scan_occurrence now lead_min id series blocked out occ in
      scan_occurrences now lead_min id series blocked out occs
  end.

Definition is_held (derived : Derived) (id : TaskId) : bool :=
  match d_tasks derived !! id with
  | Some d => match shown d with ShownBlocked | ShownStuck => true | _ => false end
  | None => false
  end.

(** The tasks whose starts are looked at. *)
Definition starts_for (seat : string) (t : Task) : option When :=
  match when t with
  | None => None
  | Some w =>
      if negb (bool_decide (state t = Todo)) || negb (existsb (String.eqb seat) (assignees t)) then None else Some w
  end.

Fixpoint scan_tasks (derived : Derived) (seat : string) (now : Stamp) (lead_min : N) (from to : NaiveDate)
    (out : StartScan) (ts : list (TaskId * Task)) : outcome unit StartScan :=
  match ts with
  | [] => Ok out
  | (id, t) :: ts =>
      let? out :=
        match starts_for seat t with
        | None => Ok out
        | Some w =>
            scan_occurrences now lead_min id (is_series t) (is_held derived id) out
              (expand w (trepeat t) (skip t) (moved t) from to)
        end in
      scan_tasks derived seat now lead_min from to out ts
  end.

(** The latest date there is, where the lookahead leaves the calendar. *)
Definition start_scan (max_date : NaiveDate) (board : BoardState) (derived : Derived) (seat : string)
    (now : Stamp) (lead_min : N) : outcome unit StartScan :=
  let? from := expect (add_secs now (- MISSED_HORIZON_SECS)) in
  let? ahead := expect (add_secs now (60 * Z.of_N lead_min)) in
  let to := default max_date (add_days ahead.1 LOOKAHEAD_DAYS) in
  scan_tasks derived seat now lead_min from.1 to scan_default (sorted_entries (tasks board)).

(** ** What a seat can act on *)

Inductive WakeAction :=
  | Vote (proposal : N) (surface : Surface) (since : N)
  | TaskStart (task : TaskId) (occurrence : option string) (begins_at : string) (late : bool)
  | TaskWip (task : TaskId)
  | TaskStartable (task : TaskId)
  | Poke (by_ : string) (since : N).

Definition start_action (now : Stamp) (d : StartDue) : WakeAction :=
  TaskStart (sd_task d) (fmt_date <$> sd_occurrence d) (fmt_datetime (sd_begins d)) (due_late d now).

Definition task_actions (max_date : NaiveDate) (board : BoardState) (derived : Derived) (seat : string)
    (now : Stamp) (lead_min : N) : outcome unit (list WakeAction) :=
  let? scan := start_scan max_date board derived seat now lead_min in
  let due := filter (λ d, sd_blocked d = false) (ss_due scan) in
  let nx := default [] (next derived !! seat) in
  let state_is s id := bool_decide (state <$> tasks board !! id = Some s) in
  Ok ((start_action now <$> due) ++
      (TaskWip <$> filter (λ id, state_is Wip id = true) nx) ++
      (TaskStartable <$> filter (λ id, state_is Todo id && negb (bool_decide (id ∈ sd_task <$> due)) = true) nx)).
End Wake.
