(* ===== verification/WakeLoop.v ===== *)
(** * Waking this node's own seat

    crates/molt-engine/src/wake.rs: triggers mark reasons pending, one wake
    runs at a time, a beat runs the task timer, which looks at the board only
    when something may have changed since it last did.  The state is the record
    [WakeState] with the persisted keys beside it; what the engine around it
    holds at a step (settings, clock, seat, board, whether
    the system refuses a thread) is the record [Host].  The
    counts of the wake's environment and the votes and pokes of the list of
    actions are left out. *)

From S2P Require Import Prelude Strs Json WikiFold Calendar Series Cycle Kanban Board Dates Wake.
#[local] Open Scope N_scope.

Definition TIMER_IDLE_SECS : N := 3600.
Definition FIRED_KEEP_SECS : Z := 2 * MISSED_HORIZON_SECS.
Definition i64_max : N := 9223372036854775807.

Section WakeLoop.
Context `{Chrono} (max_date : NaiveDate).

(** ** State *)

Record Settings := mkSettings {
  poke_wake_command : string;
  wake_on : list string;
  wake_min_interval_secs : N;
  task_wake_lead_min : N;
}.

Record Host := mkHost {
  nd_settings : Settings;
  nd_now : N;
  nd_workspace : string;
  nd_open : bool;
  nd_member : string;
  nd_board : BoardState;
  nd_refused : option string;
}.

(** A wake that was started. *)
Record Spawn := mkSpawn { sp_reasons : list string; sp_by : string; sp_at : N }.

Record WakeState := mkWake {
  running : bool;
  ended : option string;
  test_running : bool;
  pending : gset string;
  pending_by : string;
  last_at : option N;
  fired : gset string;
  timer : option (N * N * string * N);
  wake_test : string;
  saved : gset string;
}.

Definition set_timer (t : option (N * N * string * N)) (fired saved : gset string) (s : WakeState) : WakeState :=
  {| running := running s; ended := ended s; test_running := test_running s; pending := pending s;
     pending_by := pending_by s; last_at := last_at s; fired := fired; timer := t; wake_test := wake_test s; saved := saved |}.

Definition set_pending (p : gset string) (by_ : string) (s : WakeState) : WakeState :=
  {| running := running s; ended := ended s; test_running := test_running s; pending := p;
     pending_by := by_; last_at := last_at s; fired := fired s; timer := timer s; wake_test := wake_test s; saved := saved s |}.

Definition set_running (r : bool) (e : option string) (test : bool) (at_ : option N) (s : WakeState) : WakeState :=
  {| running := r; ended := e; test_running := test; pending := pending s;
     pending_by := pending_by s; last_at := at_; fired := fired s; timer := timer s; wake_test := wake_test s; saved := saved s |}.

Definition set_test (t : string) (s : WakeState) : WakeState :=
  {| running := running s; ended := ended s; test_running := test_running s; pending := pending s;
     pending_by := pending_by s; last_at := last_at s; fired := fired s; timer := timer s; wake_test := t; saved := saved s |}.

Definition reset_workspace (s : WakeState) : WakeState :=
  {| running := running s; ended := ended s; test_running := test_running s; pending := ∅;
     pending_by := ""; last_at := None; fired := ∅; timer := None; wake_test := wake_test s; saved := saved s |}.

Definition adopt_fired (keys : gset string) (s : WakeState) : WakeState := set_timer None keys (saved s) s.

(** ** Wakes *)

(** [spawn_wake], up to the process it starts. *)
Definition spawn_wake (n : Host) (reasons : list string) (by_ : string) (s : WakeState) : WakeState * list Spawn :=
  if str_empty (trim (poke_wake_command (nd_settings n))) then (s, [])
  else
    let test := existsb (String.eqb TEST_REASON) reasons in
    let s := match nd_refused n with
             | None => set_running true (ended s) test (last_at s) s
             | Some e => set_running false (Some ("error: " +:+ e)%string) test (last_at s) s
             end in
    (s, [{| sp_reasons := reasons; sp_by := by_; sp_at := nd_now n |}]).

Definition wake_pump (n : Host) (s : WakeState) : WakeState * list Spawn :=
  if bool_decide (pending s = ∅) || running s then (s, [])
  else
    let resting := match last_at s with
                   | Some last => nd_now n - last <? wake_min_interval_secs (nd_settings n)
                   | None => false
                   end in
    if resting && negb (bool_decide (TEST_REASON ∈ pending s)) then (s, [])
    else
      let s' := set_pending ∅ "" s in
      let s' := set_running (running s') (ended s') (test_running s') (Some (nd_now n)) s' in
      spawn_wake n (sorted_ids (pending s)) (pending_by s) s'.

Definition wake_trigger (n : Host) (reason by_ : string) (s : WakeState) : WakeState * list Spawn :=
  if str_empty (trim (poke_wake_command (nd_settings n))) then (s, [])
  else if negb (String.eqb reason TEST_REASON) && negb (existsb (String.eqb reason) (wake_on (nd_settings n))) then (s, [])
  else wake_pump n (set_pending ({[reason]} ∪ pending s) (if str_empty by_ then pending_by s else by_) s).

(** ** The task timer *)

Definition epoch : option NaiveDate := from_ymd_opt 1970 1 1.

(** [utc] of crates/molt-engine/src/kanban.rs. *)
Definition utc (s : N) : option Stamp :=
  if i64_max <? s then None
  else e ← epoch; d ← add_days e (Z.of_N (s / 86400)); Some (d, s mod 86400).

(** [t.and_utc().timestamp()] as a [u64]; a time before the epoch is
    [u64::MAX]. *)
Definition timestamp (t : Stamp) : N :=
  match epoch with
  | Some e => let z := (secs t - secs (e, 0%N))%Z in if (z <? 0)%Z then u64_max else Z.to_N z
  | None => u64_max
  end.

Definition day_end (s : N) : N := N.min ((s / 86400 + 1) * 86400) u64_max.

Definition prune_fired (now : Stamp) (fired : gset string) : gset string :=
  filter (λ k, match key_begins k with Some b => (secs now - secs (to_stamp b) <? FIRED_KEEP_SECS)%Z | None => false end = true) fired.

(** The due starts: the keys, whether one was new, whether one fires; and the
    new keys. *)
Fixpoint consume (due : list StartDue) (keys : gset string) (changed fire : bool) (new : list string)
    : gset string * bool * bool * list string :=
  match due with
  | [] => (keys, changed, fire, new)
  | d :: due =>
      if bool_decide (due_key d ∈ keys) then consume due keys changed fire new
      else consume due ({[due_key d]} ∪ keys) true (if sd_blocked d then fire else true) (new ++ [due_key d])
  end.

(** The scan of the timer, and what it decides. *)
Definition scan_timer (n : Host) (s : WakeState) : outcome unit (WakeState * list Spawn * list string) :=
  match utc (nd_now n) with
  | None => Ok (s, [], [])
  | Some now =>
      let lead := task_wake_lead_min (nd_settings n) in
      let derived := derive (nd_board n) now.1 in
      let? scan := start_scan max_date (nd_board n) derived (nd_member n) now lead in
      let next_at := N.min (N.min (match ss_next scan with Some t => timestamp t | None => u64_max end)
                                  (u64_saturating_add (nd_now n) TIMER_IDLE_SECS))
                           (day_end (nd_now n)) in
      let kept := prune_fired now (fired s) in
      let '(keys, changed, fire, new) := consume (ss_due scan) kept (negb (size kept =? size (fired s))%nat) false [] in
      let s := set_timer (Some (rev (nd_board n), lead, nd_member n, next_at)) keys
                 (if changed && nd_open n then keys else saved s) s in
      let r := if fire then wake_trigger n "task_start" "" s else (s, []) in
      Ok (r, new)
  end.

(** Nothing can be due that was not when the timer last looked. *)
Definition timer_rests (n : Host) (s : WakeState) : bool :=
  match timer s with
  | Some (r, l, m, at_) =>
      (r =? rev (nd_board n)) && (l =? task_wake_lead_min (nd_settings n)) && String.eqb m (nd_member n) && (nd_now n <? at_)
  | None => false
  end.

Definition task_timer (n : Host) (s : WakeState) : outcome unit (WakeState * list Spawn * list string) :=
  if str_empty (nd_workspace n) || timer_rests n s then Ok (s, [], []) else scan_timer n s.

(** ** The beat *)

Definition take_ended (n : Host) (s : WakeState) : WakeState :=
  match ended s with
  | None => s
  | Some out =>
      let t := test_running s in
      let s := set_running (running s) None false (Some (nd_now n)) s in
      if t then set_test out s else s
  end.

Definition wake_tick (n : Host) (s : WakeState) : outcome unit (WakeState * list Spawn * list string) :=
  let? r := task_timer n (take_ended n s) in
  let '(s, spawned, new) := r in
  let p := wake_pump n s in
  Ok (p.1, spawned ++ p.2, new).

Definition cmd_test_wake (n : Host) (s : WakeState) : WakeState * list Spawn :=
  if str_empty (trim (poke_wake_command (nd_settings n))) then (s, [])
  else wake_trigger n TEST_REASON "" (set_test (if running s then "waiting" else "started") s).

(** The thread that reaps the wake's process: it leaves the outcome, and then
    clears the flag. *)
Definition leave_outcome (out : string) (s : WakeState) : WakeState :=
  set_running (running s) (Some out) (test_running s) (last_at s) s.
Definition clear_running (s : WakeState) : WakeState := set_running false (ended s) (test_running s) (last_at s) s.

(** ** Runs *)

Inductive WEvent :=
  | WTick (n : Host)
  | WTrigger (n : Host) (reason by_ : string)
  | WTest (n : Host)
  | WEnded (out : string)
  | WIdle
  | WReopen.

Definition wake_step (e : WEvent) (s : WakeState) : outcome unit (WakeState * list Spawn * list string) :=
  match e with
  | WTick n => wake_tick n s
  | WTrigger n reason by_ => let r := wake_trigger n reason by_ s in Ok (r.1, r.2, [])
  | WTest n => let r := cmd_test_wake n s in Ok (r.1, r.2, [])
  | WEnded out => Ok (if running s then leave_outcome out s else s, [], [])
  | WIdle => Ok (clear_running s, [], [])
  | WReopen => Ok (adopt_fired (saved s) (reset_workspace s), [], [])
  end.

Fixpoint wake_run (es : list WEvent) (s : WakeState) : outcome unit (WakeState * list Spawn * list string) :=
  match es with
  | [] => Ok (s, [], [])
  | e :: es =>
      let? a := wake_step e s in
      let? b := wake_run es a.1.1 in
      Ok (b.1.1, a.1.2 ++ b.1.2, a.2 ++ b.2)
  end.
End WakeLoop.
