(* ===== verification/WakeProps.v ===== *)
(** * The task timer misses nothing and repeats nothing

    The theory of [Wake] and [WakeLoop]: which starts a scan lists, that a
    start is consumed once, that resting the timer changes nothing, and that
    wakes are spaced. *)

From S2P Require Import Prelude Strs Json WikiFold Calendar Series Cycle Kanban Board Dates Wake WakeLoop.
#[local] Open Scope Z_scope.

Section Near.
Context `{ChronoLaws}.

(** ** Occurrences near a date *)

(** The expansion lists every occurrence that starts in the window, or was
    moved, however long it is. *)
Lemma expand_near w r skip moved from to o :
  (1 <= interval r)%N → in_years (year (start_date w)) = true → in_years (year to) = true →
  when_ok w → 0 ≤ span w → days_between from to ≤ 600 →
  let shown := is_occurrence w r (odate o) = true ∧ place w skip moved from to (odate o) = Some o in
  (o ∈ expand w (Some r) skip moved from to → shown) ∧
  (odate o ∈ moved.*1 ∨ num_days_from_ce from ≤ num_days_from_ce (odate o) ≤ num_days_from_ce to →
   shown → o ∈ expand w (Some r) skip moved from to).
Proof.
  intros Hi Hys Hyt Hok Hspan Hdays shown.
  destruct (expand_dates w r skip moved from to Hi Hys Hyt) as (ds & -> & (_ & _ & Hds) & Hall).
  set (lo := expand_lo w from) in *.
  assert (Hlo : num_days_from_ce (start_date w) ≤ num_days_from_ce lo ∧ num_days_from_ce from - EXPAND_REACH_DAYS ≤ num_days_from_ce lo ∧
    ∀ d, num_days_from_ce (start_date w) ≤ num_days_from_ce d → num_days_from_ce from ≤ num_days_from_ce d → num_days_from_ce lo ≤ num_days_from_ce d).
  { unfold lo, expand_lo, date_lt. cbv zeta. destruct (add_days from (- Z.min (span w) EXPAND_REACH_DAYS)) as [x|] eqn:Ex; cbn [default]; unfold id.
    - apply add_days_spec in Ex. unfold EXPAND_REACH_DAYS in *. destruct (Z.ltb_spec (num_days_from_ce x) (num_days_from_ce (start_date w))); (split_and!; [lia|lia|intros; lia]).
    - rewrite Z.ltb_irrefl. split_and!; [lia| |by intros].
      destruct (decide (num_days_from_ce (start_date w) ≤ num_days_from_ce from - Z.min (span w) EXPAND_REACH_DAYS)) as [Hle|]; [|unfold EXPAND_REACH_DAYS in *; lia].
      destruct (num_convex (start_date w) from (num_days_from_ce from - Z.min (span w) EXPAND_REACH_DAYS)) as [x Hx]; [unfold EXPAND_REACH_DAYS in *; lia|].
      assert (add_days from (- Z.min (span w) EXPAND_REACH_DAYS) = Some x) by (apply add_days_spec; lia). congruence. }
  destruct Hlo as (Hlos & Hreach & Hlo).
  assert (Hin : ∀ d, num_days_from_ce lo ≤ num_days_from_ce d ≤ num_days_from_ce to → is_occurrence w r d = true ↔ original (start_date w) r d).
  { intros d Hd. apply is_occurrence_original; [done..|]. apply (year_between (start_date w) to); [done..|lia]. }
  rewrite list_elem_of_omap. unfold shown. split.
  - intros (d & Hd & Hp). pose proof (place_spec _ _ _ _ _ _ _ Hp) as [-> _]. split; [|done].
    apply elem_of_app in Hd as [Hd|Hd]; [|by apply list_elem_of_filter in Hd as [? _]].
    apply Hds in Hd as [Hor Hc]. by apply Hin.
  - intros Hnear [Ho Hp]. exists (odate o). split; [|done]. pose proof (is_occurrence_from _ _ _ Ho) as Hst. apply elem_of_app.
    destruct (decide (num_days_from_ce lo ≤ num_days_from_ce (odate o) ≤ num_days_from_ce to)) as [Hc|Hc].
    + left. apply Hall; [|by apply Hin|done]. unfold ample, days_between, EXPAND_REACH_DAYS, EXPAND_MAX in *. cbn [length]. lia.
    + right. destruct Hnear as [Hm|Hn]; [|exfalso; apply Hc; pose proof (Hlo (odate o)); lia].
      apply list_elem_of_filter. split; [done|]. apply list_elem_of_filter. split; [|done].
      apply orb_true_iff. unfold date_lt. rewrite !Z.ltb_lt. lia.
Qed.

(** ** What a start is *)

(** The starts of a task: its own window, or for a series the window of each
    occurrence that is not skipped, moved or not. *)
Definition starts_on (w : When) (rep : option Repeat) (skip : list NaiveDate) (moved : list (NaiveDate * When))
    (d : NaiveDate) (win : When) : Prop :=
  match rep with
  | None => d = start_date w ∧ win = w
  | Some r =>
      is_occurrence w r d = true ∧ d ∉ skip ∧
      match moved_to moved d with
      | Some w' => win = w'
      | None => shifted w (days_between (start_date w) d) = Some win
      end
  end.

(** A window the board's check lets through: its times are of a day, it begins
    before it ends, the year of its start has four digits. *)
Definition window_ok (w : When) : Prop :=
  when_ok w ∧ minutes (begins w) < end_minute w ∧ in_years (year (start_date w)) = true.

Record timed_ok (t : Task) (w : When) : Prop := {
  to_window : window_ok w;
  to_interval : ∀ r, trepeat t = Some r → (1 <= interval r)%N;
  to_moved : Forall (λ p, window_ok p.2) (moved t);
}.

Lemma place_iff w skip moved from to d o : place w skip moved from to d = Some o →
  odate o = d ∧ d ∉ skip ∧
  match moved_to moved d with
  | Some w' => window o = w'
  | None => shifted w (days_between (start_date w) d) = Some (window o)
  end.
Proof.
  unfold place. case_bool_decide; [done|]. destruct (moved_to moved d) as [w'|]; cbn.
  - destruct (overlaps w' from to); [|done]. by intros [= <-].
  - destruct (shifted w _) as [w'|]; cbn; [|done]. destruct (overlaps w' from to); [|done]. by intros [= <-].
Qed.

Lemma moved_to_elem moved d w : moved_to moved d = Some w → (d, w) ∈ moved.
Proof.
  unfold moved_to. destruct (find _ moved) as [[k v]|] eqn:E; [|done]. intros [= <-].
  apply find_some in E as [Hin Hk]. apply bool_decide_eq_true in Hk. cbn in Hk. subst k. by apply list_elem_of_In.
Qed.

(** A window that begins in a range of days overlaps it. *)
Lemma begins_overlaps w from to : when_ok w → minutes (begins w) < end_minute w →
  num_days_from_ce from ≤ num_days_from_ce (start_date w) ≤ num_days_from_ce to → overlaps w from to = true.
Proof.
  intros Hok Hlt Hd. pose proof (begins_bound w Hok) as Hb. unfold overlaps. apply andb_true_iff. split.
  - destruct (add_days to 1) as [x|] eqn:Ex; [|done]. apply add_days_spec in Ex. cbn. apply Z.ltb_lt.
    unfold minutes at 2, midnight. cbn [fst snd]. lia.
  - destruct w as [s e|s e]; cbn in *.
    + destruct (add_days e 1) as [x|] eqn:Ex; [|done]. apply add_days_spec in Ex. cbn. apply Z.ltb_lt.
      unfold minutes, midnight in *. cbn [fst snd] in *. lia.
    + apply Z.ltb_lt. unfold minutes at 1, midnight. cbn [fst snd]. lia.
Qed.

Lemma start_begins w : (begins w).1 = start_date w.
Proof. by destruct w. Qed.

(** The window of a start is a window the check lets through, but that a shifted
    one may start in a later year than a date of four digits. *)
Lemma starts_window t w d win : timed_ok t w → starts_on w (trepeat t) (skip t) (moved t) d win →
  when_ok win ∧ minutes (begins win) < end_minute win ∧
  ∃ a, in_years (year a) = true ∧ num_days_from_ce a ≤ num_days_from_ce (start_date win).
Proof.
  intros [(Hw & Hlt & Hy) _ Hm] Hs. unfold starts_on in Hs.
  destruct (trepeat t) as [r|]; [|destruct Hs as [_ ->]; split_and!; [done..|by exists (start_date w)]].
  destruct Hs as (Ho & _ & Hs). destruct (moved_to (moved t) d) as [w'|] eqn:Em.
  - subst win. apply moved_to_elem in Em. rewrite Forall_forall in Hm. destruct (Hm _ Em) as (? & ? & Hy').
    split_and!; [done..|by exists (start_date w')].
  - pose proof (is_occurrence_from _ _ _ Ho) as Hd. pose proof (shifted_spec _ _ _ Hs) as (H1 & H2 & H3).
    unfold days_between in *. split_and!; [|lia|exists (start_date w); split; [done|lia]].
    destruct w as [s e|s e]; cbn in Hs; apply bind_Some in Hs as (s' & _ & Hs); apply bind_Some in Hs as (e' & _ & [= <-]); done.
Qed.

Lemma ordered_span w : minutes (begins w) < end_minute w → 0 ≤ span w.
Proof. pose proof (span_bound w). lia. Qed.

(** What the expansion lists are starts, and it lists every start in its range. *)
Lemma expand_starts t w from to :
  timed_ok t w → in_years (year to) = true → days_between from to ≤ 600 →
  (∀ o, o ∈ expand w (trepeat t) (skip t) (moved t) from to →
     starts_on w (trepeat t) (skip t) (moved t) (odate o) (window o)) ∧
  (∀ d win, starts_on w (trepeat t) (skip t) (moved t) d win →
     num_days_from_ce from ≤ num_days_from_ce (start_date win) ≤ num_days_from_ce to →
     ∃ o, o ∈ expand w (trepeat t) (skip t) (moved t) from to ∧ odate o = d ∧ window o = win).
Proof.
  intros Hok Hyt Hdays. pose proof Hok as [(Hw & Hlt & Hy) Hi _].
  assert (Hover : ∀ d win, starts_on w (trepeat t) (skip t) (moved t) d win →
    num_days_from_ce from ≤ num_days_from_ce (start_date win) ≤ num_days_from_ce to → overlaps win from to = true).
  { intros d win Hs Hd. destruct (starts_window _ _ _ _ Hok Hs) as (? & ? & _). by apply begins_overlaps. }
  unfold starts_on in *. destruct (trepeat t) as [r|].
  - pose proof (λ o, expand_near w r (skip t) (moved t) from to o (Hi r eq_refl) Hy Hyt Hw (ordered_span _ Hlt) Hdays) as Hnear.
    split.
    + intros o [Ho Hp]%Hnear. split; [done|]. by apply place_iff in Hp as [_ Hp].
    + intros d win Hs Hd. pose proof (Hover _ _ Hs Hd) as Hov. destruct Hs as (Ho & Hk & Hs).
      exists {| odate := d; window := win; is_moved := is_some (moved_to (moved t) d) |}. split; [|done].
      apply Hnear; cbn [odate].
      * destruct (moved_to (moved t) d) as [w'|] eqn:Em.
        -- left. apply moved_to_elem in Em. by apply (list_elem_of_fmap_2 fst) in Em.
        -- right. apply shifted_spec in Hs as (Hs & _). unfold days_between in Hs. lia.
      * split; [done|]. unfold place. rewrite bool_decide_false by done.
        destruct (moved_to (moved t) d) as [w'|]; cbn; [subst w'; by rewrite Hov|]. rewrite Hs. cbn. by rewrite Hov.
  - unfold expand. split.
    + intros o Ho. destruct (overlaps w from to); [|by apply not_elem_of_nil in Ho]. by apply list_elem_of_singleton in Ho as ->.
    + intros d win [-> ->] Hd. rewrite (Hover _ _ (conj eq_refl eq_refl) Hd). eexists. split; [by apply list_elem_of_singleton|done].
Qed.
End Near.

(** ** The scan *)

Section Scan.
Context `{ChronoLaws} (max_date floor : NaiveDate).

(** The calendar reaches 46 days before year 0: the longest lead does not
    leave it. *)
Hypothesis floor_below : num_days_from_ce floor ≤ -412.

Lemma add_secs_spec t n t' : add_secs t n = Some t' → secs t' = secs t + n ∧ (t'.2 < 86400)%N.
Proof.
  unfold add_secs. intros (d & Hd%add_days_spec & [= <-])%bind_Some. unfold secs. cbn [fst snd].
  pose proof (Z.mod_pos_bound (Z.of_N t.2 + n) 86400 ltac:(lia)). pose proof (Z.div_mod (Z.of_N t.2 + n) 86400 ltac:(lia)). lia.
Qed.

Lemma add_secs_some t n a b : 86400 * num_days_from_ce a ≤ secs t + n < 86400 * (num_days_from_ce b + 1) → is_Some (add_secs t n).
Proof.
  intros Hr. unfold add_secs, secs in *. set (z := Z.of_N t.2 + n) in *.
  pose proof (Z.mod_pos_bound z 86400 ltac:(lia)). pose proof (Z.div_mod z 86400 ltac:(lia)).
  destruct (num_convex a b (num_days_from_ce t.1 + z / 86400)) as [x Hx%add_days_spec]; [lia|].
  rewrite Hx. by eexists.
Qed.

(** The second a start is due from, and whether it is due. *)
Definition fire_at (lead_min : N) (win : When) : Z := secs (to_stamp (begins win)) - 60 * Z.of_N lead_min.
Definition due_at (now : Stamp) (lead_min : N) (win : When) : Prop :=
  fire_at lead_min win ≤ secs now < secs (to_stamp (begins win)) + MISSED_HORIZON_SECS.

Definition due_of (id : TaskId) (series blocked : bool) (d : NaiveDate) (win : When) : StartDue :=
  {| sd_task := id; sd_occurrence := if series then Some d else None; sd_begins := begins win; sd_blocked := blocked |}.

(** [sc] is the scan [out] and, beside it, the starts [S]. *)
Definition scans (now : Stamp) (lead_min : N) (out sc : StartScan) (S : StartDue → When → Prop) : Prop :=
  (∀ d, d ∈ ss_due sc ↔ d ∈ ss_due out ∨ ∃ win, S d win ∧ due_at now lead_min win) ∧
  (∀ n, ss_next out = Some n → ∃ n', ss_next sc = Some n' ∧ secs n' ≤ secs n) ∧
  (∀ d win, S d win → secs now < fire_at lead_min win → ∃ n, ss_next sc = Some n ∧ secs n ≤ fire_at lead_min win) ∧
  (∀ n, ss_next sc = Some n → ss_next out = Some n ∨ ∃ d win, S d win ∧ secs n = fire_at lead_min win ∧ secs now < secs n).

Lemma scans_refl now lead out : scans now lead out out (λ _ _, False).
Proof. split_and!; naive_solver. Qed.

Lemma scans_trans now lead a b c S T : scans now lead a b S → scans now lead b c T → scans now lead a c (λ d w, S d w ∨ T d w).
Proof.
  intros (H1 & H2 & H3 & H4) (K1 & K2 & K3 & K4). split_and!.
  - intros d. rewrite K1, H1. naive_solver.
  - intros n (n' & Hn & Hle)%H2. destruct (K2 _ Hn) as (m & ? & ?). exists m. split; [done|lia].
  - intros d w [Hs|Ht] Hf; [|by eapply K3]. destruct (H3 _ _ Hs Hf) as (n & Hn & ?). destruct (K2 _ Hn) as (m & ? & ?). exists m. split; [done|lia].
  - intros n [Hn|(d & w & ? & ?)]%K4; [|right; exists d, w; by split; [right|]]. apply H4 in Hn as [?|(d & w & ? & ?)]; [by left|].
    right. exists d, w. by split; [left|].
Qed.

Lemma scans_iff now lead a b S T : (∀ d w, S d w ↔ T d w) → scans now lead a b S → scans now lead a b T.
Proof.
  intros HST (H1 & H2 & H3 & H4). split_and!; [|done| |].
  - intros d. rewrite H1. naive_solver.
  - intros d w Ht. by apply (H3 d), HST.
  - intros n [?|(d & w & ? & ?)]%H4; [by left|right]. exists d, w. by rewrite <-HST.
Qed.

Lemma scan_occurrence_spec now lead id series blocked out occ :
  (lead <= 65535)%N → -365 ≤ num_days_from_ce (start_date (window occ)) → when_ok (window occ) →
  ∃ sc, scan_occurrence now lead id series blocked out occ = Ok sc ∧
    scans now lead out sc (λ d win, d = due_of id series blocked (odate occ) win ∧ win = window occ).
Proof.
  intros Hl Hlow Hok. unfold scan_occurrence. cbv zeta.
  assert (Hs : secs (to_stamp (begins (window occ))) = 60 * minutes (begins (window occ))).
  { unfold secs, to_stamp, minutes. cbn [fst snd]. lia. }
  pose proof (begins_bound _ Hok) as Hb.
  destruct (add_secs_some (to_stamp (begins (window occ))) (- (60 * Z.of_N lead)) floor (start_date (window occ))) as [fire Hfire]; [lia|].
  rewrite Hfire. apply add_secs_spec in Hfire as [Hfire _]. cbn [expect obind].
  assert (Hf : secs fire = fire_at lead (window occ)) by (unfold fire_at; lia).
  destruct (Z.ltb_spec (secs now) (secs fire)) as [Hlt|Hge]; [|destruct (Z.ltb_spec (secs now - secs (to_stamp (begins (window occ)))) MISSED_HORIZON_SECS)].
  - eexists. split; [done|]. split_and!; cbn [ss_due ss_next].
    + intros d. split; [by left|]. intros [?|(w & [_ ->] & ? & _)]; [done|lia].
    + intros n ->. eexists. split; [done|]. unfold min_stamp. destruct (Z.leb_spec (secs n) (secs fire)); lia.
    + intros d w [_ ->] _. destruct (ss_next out) as [n|]; eexists; (split; [done|]); [|lia].
      unfold min_stamp. destruct (Z.leb_spec (secs n) (secs fire)); lia.
    + intros n Hn. destruct (ss_next out) as [m|]; [unfold min_stamp in Hn; destruct (_ <=? _)|]; simplify_eq; [by left|right|right];
        eexists _, _; (split; [done|]); lia.
  - eexists. split; [done|]. split_and!; cbn [ss_due ss_next].
    + intros d. rewrite elem_of_app, list_elem_of_singleton. split; (intros [?|Hd]; [by left|right]).
      * exists (window occ). subst d. split; [done|]. unfold due_at. lia.
      * by destruct Hd as (w & [-> ->] & _).
    + intros n ->. by exists n.
    + intros d w [_ ->]. lia.
    + by left.
  - eexists. split; [done|]. split_and!.
    + intros d. split; [by left|]. intros [?|(w & [_ ->] & ? & ?)]; [done|lia].
    + intros n ->. by exists n.
    + intros d w [_ ->]. lia.
    + by left.
Qed.

Lemma scan_occurrences_spec now lead id series blocked occs : (lead <= 65535)%N → ∀ out,
  Forall (λ o, -365 ≤ num_days_from_ce (start_date (window o)) ∧ when_ok (window o)) occs →
  ∃ sc, scan_occurrences now lead id series blocked out occs = Ok sc ∧
    scans now lead out sc (λ d win, ∃ o, o ∈ occs ∧ d = due_of id series blocked (odate o) win ∧ win = window o).
Proof.
  intros Hl. induction occs as [|o occs IH]; intros out Hf; cbn.
  - exists out. split; [done|]. eapply scans_iff, scans_refl. intros d w. split; [done|]. by intros (o & ?%not_elem_of_nil & _).
  - apply Forall_cons in Hf as [[Ho1 Ho2] Hf].
    destruct (scan_occurrence_spec now lead id series blocked out o Hl Ho1 Ho2) as (sc & -> & Hs). cbn.
    destruct (IH sc Hf) as (sc' & Hsc' & Hs'). exists sc'. split; [done|].
    eapply scans_iff, scans_trans; [|done..]. intros d w. setoid_rewrite elem_of_cons. naive_solver.
Qed.

(** ** Exactness *)

Context (board : BoardState) (derived : Derived) (seat : string) (lead : N).

(** A start of a task the seat has to begin, as a due entry with its window. *)
Definition seat_start (d : StartDue) (win : When) : Prop :=
  ∃ id t w date, tasks board !! id = Some t ∧ starts_for seat t = Some w ∧
    starts_on w (trepeat t) (skip t) (moved t) date win ∧
    d = due_of id (is_series t) (is_held derived id) date win.

Definition board_timed : Prop := ∀ id t w, tasks board !! id = Some t → when t = Some w → timed_ok t w.

(** A lead of two bytes, a time of day, and a date that still has a year of four digits
    62 days on. *)
Definition clock_ok (now : Stamp) : Prop :=
  (lead <= 65535)%N ∧ (now.2 < 86400)%N ∧ in_years (year now.1) = true ∧
  ∃ later, num_days_from_ce later = num_days_from_ce now.1 + 62 ∧ in_years (year later) = true.

Lemma starts_for_when t w : starts_for seat t = Some w → when t = Some w.
Proof. unfold starts_for. destruct (when t) as [w'|]; [|done]. by destruct (_ || _). Qed.

Lemma scan_tasks_spec now from to : board_timed → (lead <= 65535)%N → in_years (year to) = true → days_between from to ≤ 600 →
  ∀ ts out, (∀ d, d ∈ ts → tasks board !! d.1 = Some d.2) →
  ∃ sc, scan_tasks derived seat now lead from to out ts = Ok sc ∧
    scans now lead out sc (λ d win, ∃ id t w o, (id, t) ∈ ts ∧ starts_for seat t = Some w ∧
      o ∈ expand w (trepeat t) (skip t) (moved t) from to ∧
      d = due_of id (is_series t) (is_held derived id) (odate o) win ∧ win = window o).
Proof.
  intros Hb Hl Hy Hdays. induction ts as [|[id t] ts IH]; intros out Hts; cbn.
  - exists out. split; [done|]. eapply scans_iff, scans_refl. intros d w. split; [done|]. by intros (? & ? & ? & ? & ?%not_elem_of_nil & _).
  - assert (Hrest : ∀ d, d ∈ ts → tasks board !! d.1 = Some d.2) by (intros d Hd; by apply Hts; right).
    assert (Hthis : ∃ sc, match starts_for seat t with
        | None => Ok out
        | Some w => scan_occurrences now lead id (is_series t) (is_held derived id) out (expand w (trepeat t) (skip t) (moved t) from to)
        end = Ok sc ∧ scans now lead out sc (λ d win, ∃ w o, starts_for seat t = Some w ∧
          o ∈ expand w (trepeat t) (skip t) (moved t) from to ∧
          d = due_of id (is_series t) (is_held derived id) (odate o) win ∧ win = window o)).
    { destruct (starts_for seat t) as [w|] eqn:Es.
      - assert (Hok : timed_ok t w) by (apply (Hb id); [apply (Hts (id, t)); left|by apply starts_for_when]).
        destruct (scan_occurrences_spec now lead id (is_series t) (is_held derived id) (expand w (trepeat t) (skip t) (moved t) from to) Hl out) as (sc & Hsc & Hs).
        { apply Forall_forall. intros o Ho. destruct (expand_starts t w from to Hok Hy Hdays) as [He _].
          destruct (starts_window _ _ _ _ Hok (He _ Ho)) as (? & _ & a & ?%num_range & ?). split; [lia|done]. }
        exists sc. split; [done|]. eapply scans_iff; [|done]. naive_solver.
      - exists out. split; [done|]. eapply scans_iff, scans_refl. naive_solver. }
    destruct Hthis as (sc & -> & Hs). cbn. destruct (IH sc Hrest) as (sc' & Hsc' & Hs'). exists sc'. split; [done|].
    eapply scans_iff, scans_trans; [|done..]. intros d w. setoid_rewrite elem_of_cons. naive_solver.
Qed.

(** The range of days a scan expands. *)
Lemma scan_range now : clock_ok now →
  ∃ from ahead to, add_secs now (- MISSED_HORIZON_SECS) = Some from ∧ add_secs now (60 * Z.of_N lead) = Some ahead ∧
    add_days ahead.1 LOOKAHEAD_DAYS = Some to ∧ in_years (year to) = true ∧ days_between from.1 to ≤ 600 ∧
    ∀ win, when_ok win → secs now - MISSED_HORIZON_SECS < secs (to_stamp (begins win)) →
      fire_at lead win ≤ secs now + 86400 * LOOKAHEAD_DAYS →
      num_days_from_ce from.1 ≤ num_days_from_ce (start_date win) ≤ num_days_from_ce to.
Proof.
  intros (Hl & Ht & Hy & later & Hlater & Hyl). pose proof (num_range _ Hy) as Hr.
  unfold MISSED_HORIZON_SECS, LOOKAHEAD_DAYS. assert (Hsn : secs now = 86400 * num_days_from_ce now.1 + Z.of_N now.2) by done.
  destruct (add_secs_some now (- (24 * 3600)) floor later) as [from Hfrom]; [lia|].
  destruct (add_secs_some now (60 * Z.of_N lead) floor later) as [ahead Hahead]; [lia|].
  pose proof (add_secs_spec _ _ _ Hfrom) as [Hf1 Hf2]. pose proof (add_secs_spec _ _ _ Hahead) as [Ha1 Ha2]. unfold secs in Hf1, Ha1.
  destruct (num_convex now.1 later (num_days_from_ce ahead.1 + 15)) as [to Hto]; [lia|].
  exists from, ahead, to. split_and!; [done|done|by apply add_days_spec| |unfold days_between; lia|].
  { apply (year_between now.1 later); [done..|lia]. }
  intros win Hok Hlo Hhi. pose proof (begins_bound win Hok) as Hb. unfold fire_at in Hhi.
  assert (secs (to_stamp (begins win)) = 60 * minutes (begins win)) by (unfold secs, to_stamp, minutes; cbn [fst snd]; lia). lia.
Qed.

Lemma start_scan_members now : board_timed → clock_ok now →
  ∃ sc, start_scan max_date board derived seat now lead = Ok sc ∧
    (∀ d, d ∈ ss_due sc ↔ ∃ win, seat_start d win ∧ due_at now lead win) ∧
    (∀ d win, seat_start d win → secs now < fire_at lead win ≤ secs now + 86400 * LOOKAHEAD_DAYS →
       ∃ n, ss_next sc = Some n ∧ secs n ≤ fire_at lead win) ∧
    (∀ n, ss_next sc = Some n → ∃ d win, seat_start d win ∧ secs n = fire_at lead win ∧ secs now < secs n).
Proof.
  intros Hb Hc. destruct (scan_range _ Hc) as (from & ahead & to & Hfrom & Hahead & Hto & Hy & Hdays & Hrange).
  destruct (scan_tasks_spec now from.1 to Hb (proj1 Hc) Hy Hdays (sorted_entries (tasks board)) scan_default) as (sc & Hsc & Hs).
  { intros d. by rewrite elem_of_entries. }
  set (P := λ d win, _) in Hs. exists sc. split.
  { unfold start_scan. rewrite Hfrom, Hahead. cbn [expect obind]. by rewrite Hto. }
  assert (HP : ∀ d win, P d win → seat_start d win).
  { intros d win (id & t & w & o & Hid%elem_of_entries & Hs1 & Ho & -> & ->). cbn in Hid.
    assert (Hok : timed_ok t w) by (apply (Hb id); [done|by apply starts_for_when]).
    exists id, t, w, (odate o). split_and!; [done|done| |done]. by apply (expand_starts t w from.1 to). }
  assert (HS : ∀ d win, seat_start d win → secs now - MISSED_HORIZON_SECS < secs (to_stamp (begins win)) →
      fire_at lead win ≤ secs now + 86400 * LOOKAHEAD_DAYS → P d win).
  { intros d win (id & t & w & date & Hid & Hs1 & Ho & ->) Hlo Hhi.
    assert (Hok : timed_ok t w) by (apply (Hb id); [done|by apply starts_for_when]).
    destruct (starts_window _ _ _ _ Hok Ho) as (Hwin & _ & _).
    destruct (expand_starts t w from.1 to Hok Hy Hdays) as [_ He]. destruct (He _ _ Ho (Hrange _ Hwin Hlo Hhi)) as (o & Hin & <- & <-).
    exists id, t, w, o. split_and!; [by apply elem_of_entries|done..]. }
  destruct Hs as (H1 & _ & H3 & H4). cbn in H1, H4. split_and!.
  - intros d. rewrite H1. split.
    + intros [?%not_elem_of_nil|(win & Hp%HP & Hd)]; [done|]. by exists win.
    + intros (win & Hp & Hd). right. exists win. split; [|done]. unfold due_at, LOOKAHEAD_DAYS in *. apply HS; [done|lia..].
  - intros d win Hs1 [Hlt Hle]. apply (H3 d win); [|done]. unfold fire_at, MISSED_HORIZON_SECS in *. apply HS; [done|unfold fire_at; lia..].
  - intros n [?|(d & win & ? & ? & ?)]%H4; [done|]. exists d, win. split_and!; [by apply HP|done..].
Qed.
End Scan.

(** C26: the scan of a seat's starts is exact.  For a board whose timed tasks
    passed the check and a clock within the years of four digits, the scan
    does not abort; it lists exactly the starts (occurrences not skipped, at
    their moved windows) of the seat's open tasks from the lead before they begin until a
    day after; and the next fire time is the earliest one still to come, where
    one comes within fifteen days. *)
Theorem start_scan_exact `{ChronoLaws} (max_date floor : NaiveDate) board derived seat lead now :
  num_days_from_ce floor ≤ -412 → board_timed board → clock_ok lead now →
  ∃ sc, start_scan max_date board derived seat now lead = Ok sc ∧
    (∀ d, d ∈ ss_due sc ↔ ∃ win, seat_start board derived seat d win ∧
       fire_at lead win ≤ secs now < secs (to_stamp (begins win)) + MISSED_HORIZON_SECS) ∧
    match ss_next sc with
    | Some n =>
        secs now < secs n ∧ (∃ d win, seat_start board derived seat d win ∧ secs n = fire_at lead win) ∧
        ∀ d win, seat_start board derived seat d win → secs now < fire_at lead win ≤ secs now + 86400 * LOOKAHEAD_DAYS →
          secs n ≤ fire_at lead win
    | None => ∀ d win, seat_start board derived seat d win → secs now < fire_at lead win →
        secs now + 86400 * LOOKAHEAD_DAYS < fire_at lead win
    end.
Proof.
  intros Hf Hb Hc. destruct (start_scan_members max_date floor Hf board derived seat lead now Hb Hc) as (sc & Hsc & H1 & H2 & H3).
  exists sc. split_and!; [done|done|]. destruct (ss_next sc) as [n|].
  - destruct (H3 n eq_refl) as (d & win & Hs & Hn & Hlt). split_and!; [done|by exists d, win|].
    intros d' win' Hs' Hr. by destruct (H2 _ _ Hs' Hr) as (n' & [= <-] & ?).
  - intros d win Hs Hlt. destruct (decide (fire_at lead win ≤ secs now + 86400 * LOOKAHEAD_DAYS)); [|lia].
    by destruct (H2 d win Hs) as (n & ? & _).
Qed.
