(* ===== verification/WakeTimer.v ===== *)
(** * The task timer over runs

    The timer of [WakeLoop]: the keys of the starts it consumed, that none is
    consumed twice, and that resting it is the same as looking at the board on every
    beat. *)

From S2P Require Import Prelude Strs Json WikiFold Calendar Series Cycle Kanban Board Dates Wake WakeLoop WakeProps.
#[local] Open Scope Z_scope.

Lemma rsplit_at a b : rsplit_once "@" b = None → rsplit_once "@" (a +:+ "@" +:+ b) = Some (a, b).
Proof.
  intros Hb. induction a as [|c a IH].
  - change ("" +:+ "@" +:+ b) with (String "@" b). cbn [rsplit_once]. by rewrite Hb.
  - change (String c a +:+ "@" +:+ b) with (String c (a +:+ "@" +:+ b)). cbn [rsplit_once]. by rewrite IH.
Qed.

Section Timer.
Context `{ChronoLaws} (max_date floor : NaiveDate).
Hypothesis floor_below : num_days_from_ce floor ≤ -412.

(** No time is formatted with the separator of the keys. *)
Hypothesis format_no_at : ∀ t, rsplit_once "@" (datetime_format t) = None.

(** ** Keys *)

(** The key of a start that is less than two days past. *)
Definition live (T : Z) (k : string) : Prop :=
  match key_begins k with Some b => T - secs (to_stamp b) < FIRED_KEEP_SECS | None => False end.

#[export] Instance live_dec T k : Decision (live T k).
Proof. unfold live. destruct (key_begins k); apply _. Defined.

Lemma elem_of_prune now f k : k ∈ prune_fired now f ↔ k ∈ f ∧ live (secs now) k.
Proof. unfold prune_fired, live. rewrite elem_of_filter. destruct (key_begins k); rewrite ?Z.ltb_lt; naive_solver. Qed.

Lemma live_mono T T' k : T ≤ T' → live T' k → live T k.
Proof. unfold live. destruct (key_begins k); [lia|done]. Qed.

Lemma key_roundtrip d : in_years (year (sd_begins d).1) = true → ((sd_begins d).2 < 1440)%N →
  key_begins (due_key d) = Some (sd_begins d).
Proof.
  intros Hy Hm. unfold key_begins, due_key, fmt_datetime. rewrite (rsplit_at _ _ (format_no_at _)). cbn.
  unfold parse_datetime. rewrite datetime_roundtrip by done. cbn. by rewrite Hy, bool_decide_true.
Qed.

(** The starts of a board, by key: all that matters of a due entry here. *)
Lemma due_key_live board derived seat lead now d win : board_timed board → clock_ok lead now →
  seat_start board derived seat d win → due_at now lead win →
  key_begins (due_key d) = Some (begins win) ∧ live (secs now) (due_key d).
Proof.
  intros Hb (Hl & Ht & Hy & later & Hlater & Hyl) (id & t & w & date & Hid & Hs & Ho & ->) [Hlo Hhi].
  assert (Hok : timed_ok t w) by (apply (Hb id); [done|by eapply starts_for_when]).
  destruct (starts_window _ _ _ _ Hok Ho) as (Hwin & _ & a & Hya & Ha). pose proof (begins_bound _ Hwin) as Hbb.
  assert (Hsec : secs (to_stamp (begins win)) = 60 * minutes (begins win)) by (unfold secs, to_stamp, minutes; cbn [fst snd]; lia).
  assert (Hk : key_begins (due_key (due_of id (is_series t) (is_held derived id) date win)) = Some (begins win)).
  { rewrite key_roundtrip; cbn [due_of sd_begins]; [done| |].
    - rewrite start_begins. apply (year_between a later); [done..|]. unfold fire_at, secs at 2 in Hlo. lia.
    - destruct win; cbn in *; [lia|tauto]. }
  split; [done|]. unfold live. rewrite Hk. unfold FIRED_KEEP_SECS, MISSED_HORIZON_SECS in *. lia.
Qed.

(** ** The keys a scan consumes *)

Lemma consume_spec due : ∀ keys changed fire new, ∃ add fire',
  consume due keys changed fire new =
    (list_to_set (due_key <$> due) ∪ keys, changed || negb (bool_decide (add = [])), fire', new ++ add) ∧
  NoDup add ∧ (∀ k, k ∈ add ↔ k ∈ due_key <$> due ∧ k ∉ keys) ∧ (add = [] → fire' = fire).
Proof.
  induction due as [|d due IH]; intros keys changed fire new; cbn [consume].
  - exists [], fire. rewrite bool_decide_true by done. cbn [negb fmap list_fmap list_to_set]. rewrite orb_false_r, app_nil_r, (left_id_L ∅ (∪)).
    split_and!; [done|constructor| |done]. intros k. rewrite elem_of_nil. tauto.
  - rewrite fmap_cons, list_to_set_cons. case_bool_decide as Hd.
    + destruct (IH keys changed fire new) as (add & fire' & -> & Hnd & Hadd & Hf). exists add, fire'. split_and!; [|done| |done].
      * do 3 f_equal. set_solver.
      * intros k. rewrite Hadd, elem_of_cons. naive_solver.
    + destruct (IH ({[due_key d]} ∪ keys) true (if sd_blocked d then fire else true) (new ++ [due_key d]))
        as (add & fire' & -> & Hnd & Hadd & Hf). exists (due_key d :: add), fire'. split_and!; [| | |done].
      * rewrite (bool_decide_false (_ :: _ = [])) by done. cbn. rewrite orb_true_r, <-app_assoc. cbn. do 3 f_equal. set_solver.
      * apply NoDup_cons. split; [|done]. rewrite Hadd. set_solver.
      * intros k. rewrite !elem_of_cons, Hadd. destruct (decide (k = due_key d)); set_solver.
Qed.

Lemma consume_changed due : ∀ keys changed fire new, consume due keys changed fire new =
  let c := consume due keys false fire new in (c.1.1.1, changed || c.1.1.2, c.1.2, c.2).
Proof.
  induction due as [|d due IH]; intros keys changed fire new; cbn [consume].
  - by rewrite orb_false_r.
  - case_bool_decide; [apply IH|]. rewrite (IH _ true). cbn. by rewrite orb_true_r.
Qed.

(** What the timer remembers of a host. *)
Definition timer_key (n : Host) : N * N * string := (rev (nd_board n), task_wake_lead_min (nd_settings n), nd_member n).

(** A beat at which the workspace is open, with a board that passed the check. *)
Definition node_ok (n : Host) (now : Stamp) : Prop :=
  utc (nd_now n) = Some now ∧ nd_open n = true ∧ board_timed (nd_board n) ∧
  clock_ok (task_wake_lead_min (nd_settings n)) now.

(** The keys of the starts that are due. *)
Definition due_keys (n : Host) (now : Stamp) (k : string) : Prop :=
  ∃ d win, seat_start (nd_board n) (derive (nd_board n) now.1) (nd_member n) d win ∧
    due_at now (task_wake_lead_min (nd_settings n)) win ∧ k = due_key d.

(** What a scan decides, from the starts it lists: the keys it keeps, whether it
    fires, and the keys it consumes. *)
Definition decided (sc : StartScan) (now : Stamp) (f : gset string) : gset string * bool * bool * list string :=
  consume (ss_due sc) (prune_fired now f) false false [].

Definition next_at (sc : StartScan) (n : Host) : N :=
  N.min (N.min (match ss_next sc with Some t => timestamp t | None => u64_max end)
               (u64_saturating_add (nd_now n) TIMER_IDLE_SECS)) (day_end (nd_now n)).

Definition after_scan (sc : StartScan) (n : Host) (keys : gset string) (s : WakeState) : WakeState :=
  set_timer (Some (timer_key n, next_at sc n)) keys keys s.

Definition node_scan (n : Host) (now : Stamp) : outcome unit StartScan :=
  start_scan max_date (nd_board n) (derive (nd_board n) now.1) (nd_member n) now (task_wake_lead_min (nd_settings n)).

(** The persisted keys are those in memory after a scan too: where nothing is
    written, nothing changed. *)
Lemma scan_timer_eq n now s sc : node_ok n now → saved s = fired s → node_scan n now = Ok sc →
  scan_timer max_date n s =
    let '(keys, _, fire, new) := decided sc now (fired s) in
    Ok (if fire then wake_trigger n "task_start" "" (after_scan sc n keys s) else (after_scan sc n keys s, []), new).
Proof.
  intros (Hutc & Hopen & _) Hsaved Hsc. unfold scan_timer. rewrite Hutc. cbv zeta. unfold node_scan in Hsc. rewrite Hsc. cbn [obind].
  unfold decided. rewrite (consume_changed _ _ (negb _)). destruct (consume_spec (ss_due sc) (prune_fired now (fired s)) false false [])
    as (add & fire & -> & _ & Hadd & _). cbn [fst snd app orb]. rewrite Hopen, andb_true_r. unfold after_scan, timer_key, next_at.
  set (keys := list_to_set _ ∪ _). destruct (_ || _) eqn:E; [done|]. to_prop.
  assert (Hkeys : keys = saved s); [|by rewrite Hkeys]. assert (Heq : prune_fired now (fired s) = fired s).
  { apply set_subseteq_size_eq; [|apply Nat.eqb_eq in H1; lia]. intros k. rewrite elem_of_prune. tauto. }
  unfold keys. rewrite Heq, Hsaved in *. apply set_eq. intros k. rewrite elem_of_union, elem_of_list_to_set.
  split; [|by right]. intros [Hk|]; [|done]. destruct (decide (k ∈ fired s)) as [|Hn]; [done|].
  exfalso. assert (Hin : k ∈ add) by by apply Hadd. subst add. by apply not_elem_of_nil in Hin.
Qed.

Lemma node_scan_spec n now : node_ok n now →
  ∃ sc, node_scan n now = Ok sc ∧ (∀ k, k ∈ due_key <$> ss_due sc ↔ due_keys n now k) ∧
    ∀ d win, seat_start (nd_board n) (derive (nd_board n) now.1) (nd_member n) d win →
      secs now < fire_at (task_wake_lead_min (nd_settings n)) win ≤ secs now + 86400 * LOOKAHEAD_DAYS →
      ∃ t, ss_next sc = Some t ∧ secs now < secs t ≤ fire_at (task_wake_lead_min (nd_settings n)) win.
Proof.
  intros (_ & _ & Hb & Hc).
  destruct (start_scan_members max_date floor floor_below (nd_board n) (derive (nd_board n) now.1) (nd_member n) _ now Hb Hc)
    as (sc & Hsc & Hdue & Hnext & Hleast). exists sc. split_and!; [done| |].
  - intros k. rewrite list_elem_of_fmap. unfold due_keys. setoid_rewrite Hdue. naive_solver.
  - intros d win Hs Hr. destruct (Hnext d win Hs Hr) as (t & Ht & Hle). exists t. split; [done|].
    destruct (Hleast t Ht) as (_ & _ & _ & _ & ?). lia.
Qed.

Lemma due_keys_live n now k : node_ok n now → due_keys n now k → live (secs now) k.
Proof. intros (_ & _ & Hb & Hc) (d & win & Hs & Hd & ->). by eapply due_key_live. Qed.

Lemma decided_spec n now sc f : node_ok n now → node_scan n now = Ok sc →
  ∃ keys changed fire new, decided sc now f = (keys, changed, fire, new) ∧
    (∀ k, k ∈ keys ↔ k ∈ f ∧ live (secs now) k ∨ due_keys n now k) ∧
    NoDup new ∧ (∀ k, k ∈ new ↔ due_keys n now k ∧ k ∉ f) ∧ (new = [] → fire = false).
Proof.
  intros Hn Hsc. destruct (node_scan_spec n now Hn) as (sc' & Hsc' & Hkeys & _).
  rewrite Hsc in Hsc'. injection Hsc' as <-.
  destruct (consume_spec (ss_due sc) (prune_fired now f) false false []) as (add & fire & Hcons & Hnd & Hadd & Hfire).
  eexists _, _, fire, add. split; [exact Hcons|]. split_and!; [|done| |done].
  - intros k. rewrite elem_of_union, elem_of_list_to_set, elem_of_prune, Hkeys. tauto.
  - intros k. rewrite Hadd, Hkeys, elem_of_prune. split; [|tauto]. intros [Hk Hno]. split; [done|].
    intros Hin. apply Hno. split; [done|]. by eapply due_keys_live.
Qed.

(** ** What the wakes leave alone *)

(** Put other keys in a state. *)
Definition with_keys (t : option (N * N * string * N)) (f v : gset string) (r : WakeState * list Spawn) : WakeState * list Spawn :=
  (set_timer t f v r.1, r.2).

Lemma spawn_frame n reasons by_ s t f v :
  spawn_wake n reasons by_ (set_timer t f v s) = with_keys t f v (spawn_wake n reasons by_ s).
Proof. unfold spawn_wake. destruct (str_empty _); [done|]. by destruct (nd_refused n). Qed.

Lemma pump_frame n s t f v : wake_pump n (set_timer t f v s) = with_keys t f v (wake_pump n s).
Proof.
  unfold wake_pump. cbn [set_timer pending running last_at]. destruct (_ || _); [done|]. destruct (_ && _); [done|].
  by rewrite <-spawn_frame.
Qed.

Lemma trigger_frame n reason by_ s t f v :
  wake_trigger n reason by_ (set_timer t f v s) = with_keys t f v (wake_trigger n reason by_ s).
Proof. unfold wake_trigger. destruct (str_empty _); [done|]. destruct (_ && _); [done|]. by rewrite <-pump_frame. Qed.

Lemma test_frame n s t f v : cmd_test_wake n (set_timer t f v s) = with_keys t f v (cmd_test_wake n s).
Proof. unfold cmd_test_wake. destruct (str_empty _); [done|]. by rewrite <-trigger_frame. Qed.

Lemma ended_frame n s t f v : take_ended n (set_timer t f v s) = set_timer t f v (take_ended n s).
Proof. unfold take_ended. cbn [set_timer ended test_running]. destruct (ended s); [|done]. by destruct (test_running s). Qed.

Lemma set_timer_same s : set_timer (timer s) (fired s) (saved s) s = s.
Proof. by destruct s. Qed.

(** A step that is no beat: the state and the wakes, and no key. *)
Definition quiet_step (e : WEvent) (s : WakeState) : option (WakeState * list Spawn) :=
  match e with
  | WTick _ | WReopen => None
  | WTrigger n reason by_ => Some (wake_trigger n reason by_ s)
  | WTest n => Some (cmd_test_wake n s)
  | WEnded out => Some (if running s then leave_outcome out s else s, [])
  | WIdle => Some (clear_running s, [])
  end.

Lemma quiet_frame e s t f v : quiet_step e (set_timer t f v s) = with_keys t f v <$> quiet_step e s.
Proof.
  destruct e; cbn [quiet_step fmap option_fmap option_map]; [done|by rewrite trigger_frame|by rewrite test_frame| |done|done].
  cbn [set_timer running]. by destruct (running s).
Qed.

Lemma quiet_ok e s r : quiet_step e s = Some r → wake_step max_date e s = Ok (r.1, r.2, []).
Proof. destruct e; cbn; by intros [= <-]. Qed.

Lemma quiet_keys e s r : quiet_step e s = Some r → timer r.1 = timer s ∧ fired r.1 = fired s ∧ saved r.1 = saved s.
Proof.
  intros Hq. rewrite <-(set_timer_same s), quiet_frame in Hq. destruct (quiet_step e s) as [r'|]; [|done]. by injection Hq as <-.
Qed.

Lemma event_cases e s : (∃ n, e = WTick n) ∨ e = WReopen ∨ ∃ r, quiet_step e s = Some r.
Proof. destruct e; cbn; eauto. Qed.

(** ** Consumed once *)

(** Beats whose clock does not go back, from [T] on. *)
Fixpoint timely (T : Z) (es : list WEvent) : Prop :=
  match es with
  | [] => True
  | WTick n :: es => ∃ now, node_ok n now ∧ T ≤ secs now ∧ timely (secs now) es
  | _ :: es => timely T es
  end.

(** The keys consumed so far: no two the same, and the live ones kept. *)
Definition consumed_ok (T : Z) (C : list string) (s : WakeState) : Prop :=
  saved s = fired s ∧ NoDup C ∧ ∀ k, k ∈ C → live T k → k ∈ fired s.

Lemma scan_consumed n now s C T : node_ok n now → T ≤ secs now → consumed_ok T C s →
  ∃ s' sp new, scan_timer max_date n s = Ok (s', sp, new) ∧ consumed_ok (secs now) (C ++ new) s'.
Proof.
  intros Hn HT (Hsv & Hnd & HC). destruct (node_scan_spec n now Hn) as (sc & Hsc & _ & _).
  destruct (decided_spec n now sc (fired s) Hn Hsc) as (keys & ch & fire & new & Hdec & Hkeys & Hnew & Hmem & _).
  rewrite (scan_timer_eq _ _ _ _ Hn Hsv Hsc), Hdec.
  assert (Hs : ∃ s' sp, (if fire then wake_trigger n "task_start" "" (after_scan sc n keys s) else (after_scan sc n keys s, [])) = (s', sp)
    ∧ fired s' = keys ∧ saved s' = keys).
  { destruct fire; [|eauto]. unfold after_scan. rewrite trigger_frame. by eexists _, _. }
  destruct Hs as (s' & sp & -> & Hf & Hv). exists s', sp, new. split; [done|]. split_and!; [by rewrite Hf| |].
  - apply NoDup_app. split_and!; [done| |done]. intros k Hk [Hd Hno]%Hmem. apply Hno, HC; [done|].
    eapply live_mono; [done|]. by eapply due_keys_live.
  - intros k [Hk|Hk]%elem_of_app Hl; rewrite Hf; apply Hkeys.
    + left. split; [|done]. apply HC; [done|]. by eapply live_mono.
    + right. by apply Hmem in Hk as [? _].
Qed.

Lemma consumed_keys T T' C s s' : T ≤ T' → fired s' = fired s → saved s' = saved s → consumed_ok T C s → consumed_ok T' C s'.
Proof.
  intros HT Hf Hv (H1 & H2 & H3). split_and!; [congruence|done|]. intros k Hk Hl. rewrite Hf. apply H3; [done|]. by eapply live_mono.
Qed.

Lemma ended_keys n s : timer (take_ended n s) = timer s ∧ fired (take_ended n s) = fired s ∧ saved (take_ended n s) = saved s.
Proof. rewrite <-(set_timer_same s), ended_frame. done. Qed.

Lemma pump_keys n s : timer (wake_pump n s).1 = timer s ∧ fired (wake_pump n s).1 = fired s ∧ saved (wake_pump n s).1 = saved s.
Proof. rewrite <-(set_timer_same s), pump_frame. done. Qed.

Lemma tick_consumed n now s C T : node_ok n now → T ≤ secs now → consumed_ok T C s →
  ∃ s' sp new, wake_tick max_date n s = Ok (s', sp, new) ∧ consumed_ok (secs now) (C ++ new) s'.
Proof.
  intros Hn HT HC. unfold wake_tick, task_timer. destruct (ended_keys n s) as (_ & Hf & Hv).
  assert (HC' : consumed_ok T C (take_ended n s)) by (by eapply consumed_keys; [reflexivity|..]).
  assert (Ht : ∃ s' sp new, (if str_empty (nd_workspace n) || timer_rests n (take_ended n s) then Ok (take_ended n s, [], [])
      else scan_timer max_date n (take_ended n s)) = Ok (s', sp, new) ∧ consumed_ok (secs now) (C ++ new) s').
  { destruct (_ || _); [|by eapply scan_consumed]. eexists _, _, _. split; [done|]. rewrite app_nil_r. by eapply consumed_keys. }
  destruct Ht as (s' & sp & new & -> & Hs'). cbn [obind]. destruct (pump_keys n s') as (_ & Hf' & Hv').
  eexists _, _, _. split; [done|]. by eapply consumed_keys; [reflexivity|..].
Qed.

Lemma run_consumed es : ∀ T C s, timely T es → consumed_ok T C s →
  ∃ s' sp new T', wake_run max_date es s = Ok (s', sp, new) ∧ consumed_ok T' (C ++ new) s'.
Proof.
  induction es as [|e es IH]; intros T C s Ht HC; cbn [wake_run].
  - eexists _, _, _, T. split; [done|]. by rewrite app_nil_r.
  - destruct (event_cases e s) as [[n ->]|[->|[r Hr]]].
    + destruct Ht as (now & Hn & HT & Ht). destruct (tick_consumed n now s C T Hn HT HC) as (s1 & sp & new & Hs1 & HC1).
      change (wake_step max_date (WTick n) s) with (wake_tick max_date n s). rewrite Hs1. cbn [obind fst snd].
      destruct (IH _ _ _ Ht HC1) as (s2 & sp2 & new2 & T' & -> & HC2). eexists _, _, _, T'. split; [done|]. by rewrite app_assoc.
    + cbn [wake_step obind fst snd]. destruct HC as (H1 & H2 & H3).
      destruct (IH T C (adopt_fired (saved s) (reset_workspace s)) Ht) as (s2 & sp2 & new2 & T' & -> & HC2); [by rewrite <-H1 in H3|].
      by eexists _, _, _, T'.
    + rewrite (quiet_ok _ _ _ Hr). cbn [obind fst snd]. destruct (quiet_keys _ _ _ Hr) as (_ & Hf & Hv).
      destruct (IH T C r.1) as (s2 & sp2 & new2 & T' & -> & HC2); [by destruct e|by eapply consumed_keys; [reflexivity|..]|]. by eexists _, _, _, T'.
Qed.
End Timer.

(** C20: a start of a timed task is consumed once.  Over any sequence of beats,
    triggers, tests, ends of wakes and reopenings of the workspace whose clock does not go back,
    the run does not abort and no key of a start is consumed twice: a key is
    dropped only when its start is two days past, and no start is due after
    one.  The keys survive a reopening because a scan that changes them
    writes them. *)
Theorem starts_consumed_once `{ChronoLaws} (max_date floor : NaiveDate) T es s :
  num_days_from_ce floor ≤ -412 → (∀ t, rsplit_once "@" (datetime_format t) = None) →
  timely T es → saved s = fired s →
  ∃ s' sp new, wake_run max_date es s = Ok (s', sp, new) ∧ NoDup new ∧ (∀ k, k ∈ new → live T k → k ∉ fired s).
Proof.
  intros Hfl Hat Ht Hs. set (C := elements (filter (live T) (fired s))).
  destruct (run_consumed max_date floor Hfl Hat es T C s Ht) as (s' & sp & new & T' & Hrun & (_ & Hnd & _)).
  { split_and!; [done|apply NoDup_elements|]. intros k Hk _. unfold C in Hk. by apply elem_of_elements, elem_of_filter in Hk as [_ ?]. }
  apply NoDup_app in Hnd as (_ & Hdis & Hnd). exists s', sp, new. split_and!; [done..|].
  intros k Hk Hl Hin. apply (Hdis k); [|done]. unfold C. by apply elem_of_elements, elem_of_filter.
Qed.
