(* ===== verification/WakeRest.v ===== *)
(** * Resting the timer, and resting between wakes

    The cached check of the timer refines a timer that looks at the board on every beat; and
    wakes keep their distance. *)

From S2P Require Import Prelude Strs Json WikiFold Calendar Series Cycle Kanban Board BoardProps Dates Wake WakeLoop WakeProps WakeTimer.
#[local] Open Scope Z_scope.

Section Rest.
Context `{ChronoLaws} (max_date floor : NaiveDate).
Hypothesis floor_below : num_days_from_ce floor ≤ -412.
Hypothesis format_no_at : ∀ t, rsplit_once "@" (datetime_format t) = None.

(** The board of a revision: the cache's revision changes with the board. *)
Context (boards : N → BoardState).

(** ** Seconds since the epoch *)

Lemma utc_secs : ∃ E, ∀ a now, utc a = Some now → secs now = E + Z.of_N a ∧
  ∀ t, E ≤ secs t → Z.of_N (timestamp t) = secs t - E.
Proof.
  unfold utc, timestamp. destruct epoch as [e|] eqn:He; [|exists 0; intros a now; by destruct (i64_max <? a)%N].
  exists (secs (e, 0%N)). intros a now. destruct (i64_max <? a)%N; [done|]. cbn.
  intros (d & Hd%add_days_spec & [= <-])%bind_Some. split.
  - unfold secs. cbn [fst snd]. pose proof (N.div_mod a 86400 ltac:(lia)). lia.
  - intros t Ht. rewrite (proj2 (Z.ltb_ge _ _)) by lia. lia.
Qed.

Lemma day_end_near a : (day_end a <= a + 86400)%N.
Proof. unfold day_end. etransitivity; [apply N.le_min_l|]. pose proof (N.Div0.mul_div_le a 86400). lia. Qed.

(** ** What a scan covers *)

(** Whether a start is held changes its entry and not its key. *)
Lemma seat_start_derived board dv dv' seat d win : seat_start board dv seat d win →
  ∃ d', seat_start board dv' seat d' win ∧ due_key d' = due_key d.
Proof.
  intros (id & t & w & date & ? & ? & ? & ->). exists (due_of id (is_series t) (is_held dv' id) date win).
  split; [by exists id, t, w, date|done].
Qed.

(** Until the time a scan set, nothing falls due that it did not consume. *)
Lemma scan_covers n0 now0 sc n now k : node_ok n0 now0 → node_scan max_date n0 now0 = Ok sc →
  node_ok n now → nd_board n = nd_board n0 → timer_key n = timer_key n0 → secs now0 ≤ secs now →
  (nd_now n < next_at sc n0)%N → due_keys n now k → due_keys n0 now0 k.
Proof.
  intros Hn0 Hsc (Hutc & _) Hb Hk Hle Hlt (d & win & Hs & [Hlo Hhi] & ->). unfold timer_key in Hk. injection Hk as Hrev Hlead Hme.
  rewrite Hb, Hme in Hs. rewrite Hlead in Hlo. set (lead := task_wake_lead_min (nd_settings n0)) in *.
  destruct (seat_start_derived _ _ (derive (nd_board n0) now0.1) _ _ _ Hs) as (d' & Hs' & <-).
  exists d', win. split_and!; [done| |done]. split; [|lia]. fold lead.
  destruct (decide (fire_at lead win ≤ secs now0)) as [|Hgt]; [done|]. exfalso.
  destruct (node_scan_spec max_date floor floor_below n0 now0 Hn0) as (sc' & Hsc' & _ & Hnext). rewrite Hsc in Hsc'. injection Hsc' as <-.
  destruct utc_secs as [E HE]. destruct (HE _ _ Hutc) as [Hnow Hstamp]. destruct (HE _ _ (proj1 Hn0)) as [Hnow0 _].
  pose proof (day_end_near (nd_now n0)). unfold next_at in Hlt.
  destruct (Hnext d' win Hs') as (t & Ht & Htlo & Hthi); [fold lead; unfold LOOKAHEAD_DAYS; lia|].
  rewrite Ht in Hlt. fold lead in Hthi. pose proof (Hstamp t ltac:(lia)). lia.
Qed.

(** ** The refinement *)

(** A timer that looks on every beat: what it last saw is forgotten. *)
Definition forget_timer (s : WakeState) : WakeState := set_timer None (fired s) (saved s) s.

Fixpoint eager_run (es : list WEvent) (s : WakeState) : outcome unit (WakeState * list Spawn * list string) :=
  match es with
  | [] => Ok (s, [], [])
  | e :: es =>
      let? a := wake_step max_date e (forget_timer s) in
      let? b := eager_run es a.1.1 in
      Ok (b.1.1, a.1.2 ++ b.1.2, a.2 ++ b.2)
  end.

(** What the timer saw covers what is due while it rests. *)
Definition covers_due (T : Z) (s : WakeState) : Prop :=
  ∀ key at_, timer s = Some (key, at_) → ∃ n0 now0 sc, node_ok n0 now0 ∧ node_scan max_date n0 now0 = Ok sc ∧
    nd_board n0 = boards (rev (nd_board n0)) ∧ timer_key n0 = key ∧ at_ = next_at sc n0 ∧ secs now0 ≤ T ∧
    ∀ k, due_keys n0 now0 k → k ∈ fired s.

(** The resting timer [s] and the eager one [a]: the same but for keys of starts
    two days past. *)
Definition alike (T : Z) (s a : WakeState) : Prop :=
  saved s = fired s ∧ covers_due T s ∧
  ∃ t f, a = set_timer t f f s ∧ ∀ k, live T k → k ∈ fired s ↔ k ∈ f.

Lemma consume_agree due : ∀ K K' c c' fire new, (∀ d, d ∈ due → due_key d ∈ K ↔ due_key d ∈ K') →
  (consume due K c fire new).1.2 = (consume due K' c' fire new).1.2 ∧ (consume due K c fire new).2 = (consume due K' c' fire new).2.
Proof.
  induction due as [|d due IH]; intros K K' c c' fire new HK; cbn [consume]; [done|].
  assert (Hd : due_key d ∈ K ↔ due_key d ∈ K') by (apply HK; left). rewrite (bool_decide_ext _ _ Hd).
  case_bool_decide; apply IH; intros d' Hd'; (assert (due_key d' ∈ K ↔ due_key d' ∈ K') by (apply HK; by right)); set_solver.
Qed.

Lemma decided_agree n now sc f f' : node_ok n now → node_scan max_date n now = Ok sc →
  (∀ k, live (secs now) k → k ∈ f ↔ k ∈ f') →
  (decided sc now f).1.2 = (decided sc now f').1.2 ∧ (decided sc now f).2 = (decided sc now f').2.
Proof. intros Hn Hsc Hf. apply consume_agree. intros d _. rewrite !elem_of_prune. naive_solver. Qed.

(** Both look. *)
Lemma look_both n now s t f : node_ok n now → nd_board n = boards (rev (nd_board n)) → saved s = fired s →
  (∀ k, live (secs now) k → k ∈ fired s ↔ k ∈ f) →
  ∃ s' a' sp new, scan_timer max_date n s = Ok (s', sp, new) ∧ scan_timer max_date n (set_timer t f f s) = Ok (a', sp, new) ∧
    alike (secs now) s' a'.
Proof.
  intros Hn Hb Hs Hf. destruct (node_scan_spec max_date floor floor_below n now Hn) as (sc & Hsc & _ & _).
  rewrite (scan_timer_eq max_date floor floor_below format_no_at n now s sc Hn Hs Hsc), (scan_timer_eq max_date floor floor_below format_no_at n now (set_timer t f f s) sc Hn eq_refl Hsc).
  change (fired (set_timer t f f s)) with f. destruct (decided_agree n now sc _ _ Hn Hsc Hf) as [Hfire Hnew].
  destruct (decided_spec max_date floor floor_below format_no_at n now sc (fired s) Hn Hsc) as (keys & c & fire & new & Hd0 & Hkeys & _).
  destruct (decided_spec max_date floor floor_below format_no_at n now sc f Hn Hsc) as (keys' & c' & fire' & new' & Hd & Hkeys' & _).
  rewrite Hd0, Hd in Hfire, Hnew |- *. cbn in Hfire, Hnew. subst fire' new'.
  assert (Hgoal : ∀ r, alike (secs now) (set_timer (Some (timer_key n, next_at sc n)) keys keys r)
    (set_timer (Some (timer_key n, next_at sc n)) keys' keys' r)).
  { intros r. split_and!; [done| |].
    - intros key at_ Hk. cbn in Hk. injection Hk as <- <-. exists n, now, sc. split_and!; [done..|]. intros k Hk. cbn. apply Hkeys. by right.
    - exists (Some (timer_key n, next_at sc n)), keys'. split; [done|]. intros k Hl. cbn. rewrite Hkeys, Hkeys'. naive_solver. }
  unfold after_scan. change (set_timer ?x keys' keys' (set_timer t f f s)) with (set_timer x keys' keys' s). destruct fire.
  - rewrite !trigger_frame. eexists _, _, _, _. split_and!; [reflexivity..|]. apply Hgoal.
  - eexists _, _, _, _. split_and!; [reflexivity..|]. apply (Hgoal s).
Qed.

Lemma covered_later T T' s : T ≤ T' → covers_due T s → covers_due T' s.
Proof.
  intros HT Hc key at_ Hk. destruct (Hc key at_ Hk) as (n0 & now0 & sc & ? & ? & ? & ? & ? & ? & ?).
  exists n0, now0, sc. split_and!; [done..|lia|done].
Qed.

(** The resting timer rests and the eager one looks: it finds nothing. *)
Lemma look_in_vain n now s t f T : node_ok n now → nd_board n = boards (rev (nd_board n)) → T ≤ secs now →
  saved s = fired s → covers_due T s → timer_rests n s = true → (∀ k, live (secs now) k → k ∈ fired s ↔ k ∈ f) →
  ∃ a', scan_timer max_date n (set_timer t f f s) = Ok (a', [], []) ∧ alike (secs now) s a'.
Proof.
  intros Hn Hb HT Hs Hc Hr Hf. unfold timer_rests in Hr. destruct (timer s) as [[[[r l] m] at_]|] eqn:Et; [|done].
  to_prop. apply String.eqb_eq in H3. subst r l m.
  destruct (Hc _ _ Et) as (n0 & now0 & sc0 & Hn0 & Hsc0 & Hb0 & Hkey & -> & Hle & Hcov).
  assert (Hbn : nd_board n = nd_board n0) by (rewrite Hb, Hb0; unfold timer_key in Hkey; congruence).
  assert (Hdue : ∀ k, due_keys n now k → k ∈ fired s).
  { intros k Hk. apply Hcov. eapply (scan_covers n0 now0 sc0 n now); [done..|lia|done|done]. }
  destruct (node_scan_spec max_date floor floor_below n now Hn) as (sc & Hsc & _ & _).
  rewrite (scan_timer_eq max_date floor floor_below format_no_at n now (set_timer t f f s) sc Hn eq_refl Hsc).
  change (fired (set_timer t f f s)) with f.
  destruct (decided_spec max_date floor floor_below format_no_at n now sc f Hn Hsc) as (keys & c & fire & new & -> & Hkeys & _ & Hnew & Hfire).
  assert (new = []) as ->.
  { apply elem_of_nil_inv. intros k [Hk Hno]%Hnew. apply Hno, Hf; [|by apply Hdue].
    by eapply due_keys_live. }
  rewrite Hfire by done. eexists. split; [done|]. split_and!; [done|by eapply covered_later|].
  eexists _, keys. split; [done|]. intros k Hl. rewrite Hkeys. specialize (Hf k Hl). specialize (Hdue k). tauto.
Qed.

(** ** Runs *)

(** Beats whose clock does not go back, each with the board of its revision. *)
Fixpoint revised (es : list WEvent) : Prop :=
  match es with
  | [] => True
  | WTick n :: es => nd_board n = boards (rev (nd_board n)) ∧ revised es
  | _ :: es => revised es
  end.

Lemma tick_alike n now s a T : node_ok n now → nd_board n = boards (rev (nd_board n)) → T ≤ secs now → alike T s a →
  ∃ s' a' sp new, wake_tick max_date n s = Ok (s', sp, new) ∧ wake_tick max_date n (forget_timer a) = Ok (a', sp, new) ∧ alike (secs now) s' a'.
Proof.
  intros Hn Hb HT (Hs & Hc & t & f & -> & Hf). unfold wake_tick, forget_timer. cbn [set_timer fired saved].
  change (set_timer None f f (set_timer t f f s)) with (set_timer None f f s). rewrite ended_frame.
  destruct (ended_keys n s) as (Et & Ef & Ev). rewrite <-Ef in Hf. rewrite <-Ef, <-Ev in Hs.
  assert (Hc1 : covers_due T (take_ended n s)) by (unfold covers_due in *; by rewrite Et, Ef).
  set (s1 := take_ended n s) in *. clearbody s1. clear Et Ef Ev Hc.
  assert (Hf' : ∀ k, live (secs now) k → k ∈ fired s1 ↔ k ∈ f) by (intros k Hl; apply Hf; by eapply live_mono).
  assert (Ht : ∃ s' a' sp new, task_timer max_date n s1 = Ok (s', sp, new) ∧
    task_timer max_date n (set_timer None f f s1) = Ok (a', sp, new) ∧ alike (secs now) s' a').
  { unfold task_timer. destruct (str_empty (nd_workspace n)); cbn [orb].
    - eexists _, _, _, _. split_and!; [done..|]. split_and!; [done|by eapply covered_later|]. by eexists _, f.
    - change (timer_rests n (set_timer None f f s1)) with false. destruct (timer_rests n s1) eqn:Er; [|by apply look_both].
      destruct (look_in_vain n now s1 None f T) as (a' & Ha' & Hal); [done..|]. by eexists _, _, _, _. }
  destruct Ht as (s' & a' & sp & new & -> & -> & (Hs' & Hc' & t' & f' & -> & Hal)). cbn [obind]. rewrite pump_frame.
  destruct (pump_keys n s') as (Et & Ef & Ev). eexists _, _, _, _. split_and!; [done..|].
  split_and!; [by rewrite Ef, Ev|unfold covers_due in *; by rewrite Et, Ef|]. exists t', f'. split; [done|]. by rewrite Ef.
Qed.

Lemma quiet_alike e s a r T : quiet_step e s = Some r → alike T s a →
  ∃ a', quiet_step e (forget_timer a) = Some (a', r.2) ∧ alike T r.1 a'.
Proof.
  intros Hr (Hs & Hc & t & f & -> & Hf). destruct (quiet_keys _ _ _ Hr) as (Et & Ef & Ev).
  unfold forget_timer. change (set_timer None _ _ _) with (set_timer None f f s). rewrite quiet_frame, Hr. eexists. split; [done|].
  split_and!; [by rewrite Ef, Ev|unfold covers_due in *; by rewrite Et, Ef|]. exists None, f. split; [done|]. by rewrite Ef.
Qed.

Lemma run_alike es : ∀ T s a, timely T es → revised es → alike T s a →
  ∃ s' a' sp new, wake_run max_date es s = Ok (s', sp, new) ∧ eager_run es a = Ok (a', sp, new).
Proof.
  induction es as [|e es IH]; intros T s a Ht Hb Hal; cbn [wake_run eager_run]; [by eexists _, _, _, _|].
  assert (Hstep : ∃ T' s1 a1 sp new, wake_step max_date e s = Ok (s1, sp, new) ∧ wake_step max_date e (forget_timer a) = Ok (a1, sp, new) ∧
    alike T' s1 a1 ∧ timely T' es ∧ revised es).
  { destruct (event_cases e s) as [[n ->]|[->|[r Hr]]].
    - destruct Ht as (now & Hn & HT & Ht). destruct Hb as [Hb Hbs].
      destruct (tick_alike n now s a T Hn Hb HT Hal) as (s1 & a1 & sp & new & ? & ? & ?). by eexists (secs now), _, _, _, _.
    - destruct Hal as (Hs & Hc & t & f & -> & Hf). eexists T, _, _, _, _. split_and!; [done..| |done|done].
      split_and!; [done|by intros|]. exists None, f. split; [done|]. cbn. by rewrite Hs.
    - destruct (quiet_alike _ _ _ _ _ Hr Hal) as (a1 & Ha1 & Hal1). exists T, r.1, a1, r.2, [].
      split_and!; [by apply quiet_ok|by apply (quiet_ok _ e (forget_timer a) (a1, r.2))|done|by destruct e|by destruct e]. }
  destruct Hstep as (T' & s1 & a1 & sp & new & -> & -> & Hal1 & Ht1 & Hb1). cbn [obind fst snd].
  destruct (IH _ _ _ Ht1 Hb1 Hal1) as (s' & a' & sp' & new' & -> & ->). by eexists _, _, _, _.
Qed.
End Rest.

(** C19: the resting timer refines an eager one.  The timer skips a beat while
    the board's revision, the lead and the seat are those it last looked at
    and the time it set has not come.  Over any sequence of events whose clock
    does not go back, and in which a revision names one board ([revised]), it
    starts the same wakes and consumes the same starts in the same order as a
    timer that looks at the board on every beat, and neither aborts.  The
    hypothesis on revisions is one the code does not secure: a swap of the tip
    can leave another board under the same revision, and the timer rests on
    ([WakeRun.rests_on_swapped_board]). *)
Theorem timer_rest_refines `{ChronoLaws} (max_date floor : NaiveDate) boards T es s :
  num_days_from_ce floor ≤ -412 → (∀ t, rsplit_once "@" (datetime_format t) = None) →
  timely T es → revised boards es → saved s = fired s → timer s = None →
  ∃ s' a' sp new, wake_run max_date es s = Ok (s', sp, new) ∧ eager_run max_date es s = Ok (a', sp, new).
Proof.
  intros Hfl Hat Ht Hb Hs Htm. apply (run_alike max_date floor Hfl Hat boards es T); [done..|].
  split_and!; [done|intros key at_; congruence|]. exists None, (fired s). split; [|done]. by destruct s; cbn in *; subst.
Qed.

(** ** Spacing *)

Section Spacing.
Context `{Chrono} (max_date : NaiveDate) (rest : N).
#[local] Open Scope N_scope.

(** The node of an event that may start a wake. *)
Definition ev_node (e : WEvent) : option Host :=
  match e with WTick n | WTrigger n _ _ | WTest n => Some n | _ => None end.

(** A clock that does not go back from [T] on, an interval of at least
    [rest], and no reopening of the workspace. *)
Fixpoint spaced_in (T : N) (es : list WEvent) : Prop :=
  match es with
  | [] => True
  | WReopen :: _ => False
  | e :: es =>
      match ev_node e with
      | Some n => T <= nd_now n ∧ rest <= wake_min_interval_secs (nd_settings n) ∧ spaced_in (nd_now n) es
      | None => spaced_in T es
      end
  end.

Definition apart (a b : Spawn) : Prop := TEST_REASON ∈ sp_reasons b ∨ sp_at a + rest <= sp_at b.

(** The wakes so far were started no later than the last one was, or ended. *)
Definition spaced (T : N) (P : list Spawn) (s : WakeState) : Prop :=
  StronglySorted apart P ∧ (∀ l, last_at s = Some l → l <= T) ∧
  ∀ x, x ∈ P → ∃ l, last_at s = Some l ∧ sp_at x <= l.

Lemma spaced_last T T' P s s' : T <= T' → last_at s' = last_at s ∨ last_at s' = Some T' → spaced T P s → spaced T' P s'.
Proof.
  intros HT Hl (H1 & H2 & H3). split_and!; [done| |].
  - intros l Hs. destruct Hl as [Hl|Hl]; rewrite Hl in Hs; [apply H2 in Hs; lia|]. injection Hs as <-. lia.
  - intros x (l & Hs & Hx)%H3. destruct Hl as [Hl|Hl]; rewrite Hl; [by exists l|]. exists T'. split; [done|]. apply H2 in Hs. lia.
Qed.

Lemma pump_spaced n P s T : T <= nd_now n → rest <= wake_min_interval_secs (nd_settings n) → spaced T P s →
  spaced (nd_now n) (P ++ (wake_pump n s).2) (wake_pump n s).1.
Proof.
  intros HT Hr HP. assert (Hid : spaced (nd_now n) (P ++ []) s) by (rewrite app_nil_r; eapply spaced_last; [done|by left|done]).
  unfold wake_pump. destruct (bool_decide (pending s = ∅) || running s); [done|]. cbv zeta.
  destruct (match last_at s with Some last => _ | None => _ end && _) eqn:Er; [done|].
  unfold spawn_wake. destruct (str_empty _); cbn [fst snd].
  - rewrite app_nil_r. eapply spaced_last; [done|by right|done].
  - set (s' := match nd_refused n with None => _ | Some _ => _ end). assert (Hl : last_at s' = Some (nd_now n)) by by destruct (nd_refused n).
    destruct (spaced_last T (nd_now n) P s s' HT (or_intror Hl) HP) as (H1 & H2 & H3). split_and!; [|done|].
    + apply StronglySorted_app. split_and!; [|done|by repeat constructor].
      intros x y Hx ->%list_elem_of_singleton. destruct HP as (_ & Hlast & Hsp). destruct (Hsp x Hx) as (l & Hl' & Hle). unfold apart. cbn [sp_reasons sp_at].
      rewrite Hl' in Er. apply andb_false_iff in Er as [Er|Er]; [right|left; to_prop; by apply elem_of_sorted_ids].
      to_prop. pose proof (Hlast l Hl'). lia.
    + intros x [Hx| ->%list_elem_of_singleton]%elem_of_app; [by apply H3|]. exists (nd_now n). by split.
Qed.

(** What a step leaves of the wakes at the same node. *)
Definition keeps_spaced (n : Host) (s : WakeState) (r : WakeState * list Spawn) : Prop :=
  ∀ P T, T <= nd_now n → spaced T P s → spaced (nd_now n) (P ++ r.2) r.1.

Lemma keeps_refl n s s' : last_at s' = last_at s ∨ last_at s' = Some (nd_now n) → keeps_spaced n s (s', []).
Proof. intros Hl P T HT HP. cbn. rewrite app_nil_r. by eapply spaced_last. Qed.

Lemma keeps_trans n s r r' : keeps_spaced n s r → keeps_spaced n r.1 r' → keeps_spaced n s (r'.1, r.2 ++ r'.2).
Proof. intros H1 H2 P T HT HP. cbn. rewrite app_assoc. eapply H2; [reflexivity|]. by eapply H1. Qed.

Lemma keeps_pump n s s' : rest <= wake_min_interval_secs (nd_settings n) → last_at s' = last_at s → keeps_spaced n s (wake_pump n s').
Proof.
  intros Hr Hl P T HT HP. eapply pump_spaced; [reflexivity|done|]. eapply spaced_last; [done|by left|]. done.
Qed.

Lemma keeps_trigger n reason by_ s s' : rest <= wake_min_interval_secs (nd_settings n) → last_at s' = last_at s →
  keeps_spaced n s (wake_trigger n reason by_ s').
Proof.
  intros Hr Hl. unfold wake_trigger. destruct (str_empty _); [apply keeps_refl; by left|].
  destruct (_ && _); [apply keeps_refl; by left|]. by apply keeps_pump.
Qed.

Lemma keeps_tick n s s' sp new : rest <= wake_min_interval_secs (nd_settings n) → wake_tick max_date n s = Ok (s', sp, new) →
  keeps_spaced n s (s', sp).
Proof.
  intros Hr Hrun. unfold wake_tick in Hrun. run_inv Hrun. destruct a as [[s1 sp1] new1]. injection Hrun1 as <- <- <-.
  apply (keeps_trans n s (take_ended n s, []) (_, sp1 ++ _)).
  { apply keeps_refl. unfold take_ended. destruct (ended s); [|by left]. right. by destruct (test_running s). }
  apply (keeps_trans n (take_ended n s) (s1, sp1)); [|by apply keeps_pump].
  unfold task_timer in Hrun0. destruct (_ || _); [injection Hrun0 as <- <- <-; apply keeps_refl; by left|].
  unfold scan_timer in Hrun0. destruct (utc (nd_now n)) as [now|]; [|injection Hrun0 as <- <- <-; apply keeps_refl; by left].
  cbv zeta in Hrun0. apply obind_ok in Hrun0 as (sc & _ & Hrun0). destruct (consume _ _ _ _ _) as [[[keys changed] fire] nw].
  apply Ok_inj in Hrun0. destruct fire.
  - assert (Hr1 : wake_trigger n "task_start" "" _ = (s1, sp1)) by (by injection Hrun0). rewrite <-Hr1. by apply keeps_trigger.
  - injection Hrun0 as <- <- <-. apply keeps_refl. by left.
Qed.

Lemma run_spaced es : ∀ T P s s' sp new, spaced_in T es → spaced T P s → wake_run max_date es s = Ok (s', sp, new) →
  StronglySorted apart (P ++ sp).
Proof.
  induction es as [|e es IH]; intros T P s s' sp new Hes HP Hrun; cbn [wake_run] in Hrun.
  { injection Hrun as <- <- <-. rewrite app_nil_r. apply HP. }
  apply obind_ok in Hrun as ([[s1 sp1] new1] & Hstep & Hrun). apply obind_ok in Hrun as ([[s2 sp2] new2] & Hrun & Hres).
  injection Hres as <- <- <-. cbn [fst snd] in *. rewrite app_assoc.
  destruct e as [n|n reason by_|n|out| |]; cbn [spaced_in ev_node] in Hes; [| | | | |done].
  1: destruct Hes as (HT & Hr & Hes); eapply (IH (nd_now n) (P ++ sp1) s1); [done| |done];
     by apply (keeps_tick n s s1 sp1 new1 Hr Hstep P T).
  1: destruct Hes as (HT & Hr & Hes); injection Hstep as <- <- <-; eapply (IH (nd_now n)); [done| |done];
     by eapply (keeps_trigger n reason by_ s s Hr eq_refl).
  1: destruct Hes as (HT & Hr & Hes); injection Hstep as <- <- <-; eapply (IH (nd_now n)); [done| |done].
  1: { unfold cmd_test_wake. destruct (str_empty _); [by apply (keeps_refl n s s (or_introl eq_refl) P T)|]. by eapply keeps_trigger. }
  1,2: injection Hstep as <- <- <-; rewrite app_nil_r; eapply (IH T); [done| |done];
    (eapply spaced_last; [reflexivity| |done]); left; first [done|by destruct (running s)].
Qed.

Lemma running_alone e s r : running s = true → wake_step max_date e s = Ok r → r.1.2 = [].
Proof.
  intros Hrun. assert (Hp : ∀ n s, running s = true → wake_pump n s = (s, [])).
  { intros n s0 Hr. unfold wake_pump. by rewrite Hr, orb_true_r. }
  assert (Ht : ∀ n reason by_ s, running s = true → (wake_trigger n reason by_ s).2 = [] ∧ running (wake_trigger n reason by_ s).1 = true).
  { intros n reason by_ s0 Hr. unfold wake_trigger. destruct (str_empty _); [done|]. destruct (_ && _); [done|]. by rewrite Hp. }
  destruct e as [n|n reason by_|n|out| |]; cbn [wake_step]; try (by intros [= <-]).
  - unfold wake_tick. intros ([[s1 sp1] new1] & Htm & [= <-])%obind_ok. cbn [fst snd].
    assert (He : running (take_ended n s) = true).
    { unfold take_ended. destruct (ended s); [|done]. by destruct (test_running s). }
    assert (Hs : sp1 = [] ∧ running s1 = true); [|destruct Hs as [-> Hs1]; by rewrite Hp].
    unfold task_timer in Htm. destruct (_ || _); [by injection Htm as <- <- <-|].
    unfold scan_timer in Htm. destruct (utc (nd_now n)) as [now|]; [|by injection Htm as <- <- <-].
    cbv zeta in Htm. apply obind_ok in Htm as (sc & _ & Htm). destruct (consume _ _ _ _ _) as [[[keys changed] fire] nw].
    apply Ok_inj in Htm. destruct fire; [|by injection Htm as <- <- <-].
    assert (Hr1 : wake_trigger n "task_start" "" _ = (s1, sp1)) by (by injection Htm).
    match type of Hr1 with wake_trigger _ _ _ ?x = _ => specialize (Ht n "task_start" "" x He) end. by rewrite Hr1 in Ht.
  - intros [= <-]. by apply Ht.
  - intros [= <-]. cbn. unfold cmd_test_wake. destruct (str_empty _); [done|]. by apply Ht.
Qed.
End Spacing.

(** C35: wakes are alone and keep their distance.  Over any sequence of events
    that does not reopen the workspace and whose clock does not go back, a
    wake for anything but a test starts at least the minimum interval after
    every wake before it, whatever its reasons and whether it came from a
    trigger, the timer or the beat; and no step starts a wake while one runs. *)
Theorem wakes_spaced `{Chrono} (max_date : NaiveDate) rest T es s s' sp new :
  spaced_in rest T es → (∀ l, last_at s = Some l → (l <= T)%N) → wake_run max_date es s = Ok (s', sp, new) →
  StronglySorted (λ a b, TEST_REASON ∈ sp_reasons b ∨ (sp_at a + rest <= sp_at b)%N) sp ∧
  ∀ e s1 r, running s1 = true → wake_step max_date e s1 = Ok r → r.1.2 = [].
Proof.
  intros Hes Hl Hrun. split.
  - apply (run_spaced max_date rest es T [] s s' sp new); [done| |done]. split_and!; [constructor|done|].
    by intros x ?%not_elem_of_nil.
  - intros e s1 r. apply running_alone.
Qed.
