(* ===== verification/WakeRun.v ===== *)
(** * A seat is woken

    Ann's weekly appointment: the definitions of [Wake] and [WakeLoop] on a
    concrete board and a concrete morning, in the Gregorian calendar of
    [Civil]. *)

From S2P Require Import Prelude Strs Json WikiFold Calendar Series Civil Cycle Kanban Board Dates Wake WakeLoop WakeProps WakeTimer WakeRest.
#[local] Open Scope Z_scope.

Module WakeRun.
Import CivilRun.

(** ** The calendar's formats have no separator of keys *)

Lemma no_at_chars l : Forall (λ c, Ascii.eqb "@" c = false) l → rsplit_once "@" (String.string_of_list_ascii l) = None.
Proof.
  induction 1 as [|c l Hc _ IH]; [done|]. cbn [String.string_of_list_ascii rsplit_once]. rewrite IH.
  cbn [strip_prefix]. by rewrite Hc.
Qed.

Lemma dig_not_at n : Ascii.eqb "@" (dig n) = false.
Proof.
  unfold dig. pose proof (N.mod_lt n 10 ltac:(done)) as Hm. revert Hm. generalize (n mod 10)%N. intros m Hm.
  assert (m ∈ [0; 1; 2; 3; 4; 5; 6; 7; 8; 9]%N) as Hin by (rewrite !elem_of_cons; lia).
  rewrite !elem_of_cons in Hin. by decompose [or] Hin; subst; try by apply not_elem_of_nil in H0.
Qed.

Lemma civil_no_at (t : NaiveDate * N) : rsplit_once "@" (datetime_format t) = None.
Proof.
  apply no_at_chars. unfold date_chars, time_chars, chars4, chars2. repeat (apply Forall_app; split);
    repeat constructor; apply dig_not_at.
Qed.

(** ** A morning *)

(** Thursdays at nine; the second one is moved to the Friday, an hour earlier. *)
Definition meeting : Task :=
  {| title := "Meet"; kind := None; creator := "ann"; assignees := ["ann"]; tsize := None; blocked_by := [];
     due := None; after := None; when := Some (Timed (on 2026 5 7, 540%N) (on 2026 5 7, 600%N));
     trepeat := Some {| freq := Weekly; interval := 1; byday := []; rend := Open |};
     skip := []; moved := [(on 2026 5 14, Timed (on 2026 5 15, 480%N) (on 2026 5 15, 540%N))];
     state := Todo; note := None; evidence := []; description := None; acceptance := []; out_of_scope := []; touched_rev := 1 |}.

Definition board : BoardState := {| rev := 1; tasks := {["m" := meeting]} |}.

(** Ann's node, on a day of May 2026 at a second of it; ten minutes lead, five minutes of rest. *)
Definition node (d h m s : N) : Host :=
  {| nd_settings := {| poke_wake_command := "wake me"; wake_on := ["task_start"; "poked"]; wake_min_interval_secs := 300;
                       task_wake_lead_min := 10 |};
     nd_now := (Z.to_N (on 2026 5 d - on 1970 1 1) * 86400 + h * 3600 + m * 60 + s)%N;
     nd_workspace := "w"; nd_open := true; nd_member := "ann"; nd_board := board; nd_refused := None |}.

Definition idle : WakeState :=
  {| running := false; ended := None; test_running := false; pending := ∅; pending_by := ""; last_at := None;
     fired := ∅; timer := None; wake_test := ""; saved := ∅ |}.

(** Nothing is due and the timer rests; ten minutes before nine it fires; a
    poke waits for the wake to end and for the rest; the workspace is reopened
    and the start is not consumed again; the next week's is, at its moved
    time. *)
Definition morning : list WEvent :=
  [WTick (node 7 8 49 0); WTick (node 7 8 49 30); WTick (node 7 8 50 0); WTrigger (node 7 8 50 10) "poked" "bob";
   WEnded "exit 0"; WIdle; WTick (node 7 8 51 0); WTick (node 7 8 55 59); WTick (node 7 8 56 0);
   WEnded "exit 0"; WIdle; WReopen; WTick (node 7 9 30 0); WTick (node 8 8 0 0); WTick (node 15 7 50 1)].

Definition latest : NaiveDate := on 9999 12 31.

(** What a run started, second by second, and what it consumed. *)
Definition outcome_of (r : outcome unit (WakeState * list Spawn * list string)) : list (list string * string * N) * list string :=
  match r with
  | Ok (_, sp, new) => ((λ x, (sp_reasons x, sp_by x, sp_at x)) <$> sp, new)
  | _ => ([], ["panic"])
  end.

Example morning_runs : outcome_of (wake_run latest morning idle) =
  ([(["task_start"], "", nd_now (node 7 8 50 0)); (["poked"], "bob", nd_now (node 7 8 56 0)); (["task_start"], "", nd_now (node 15 7 50 1))],
   ["m@2026-05-07T09:00"; "m@2026-05-15T08:00"]).
Proof. by vm_compute. Qed.

(** ** Before the beat *)

(** A wake that ran for six minutes ends: where the beat comes first, the rest
    runs from the end and a poke waits five minutes; where the poke comes
    first, it is measured from the start of the wake and fires at once. *)
Lemma rest_from_start :
  let ends := [WTick (node 7 8 50 0); WEnded "exit 0"; WIdle] in
  (outcome_of (wake_run latest (ends ++ [WTick (node 7 8 56 0); WTrigger (node 7 8 56 0) "poked" "bob"]) idle)).1 =
    [(["task_start"], "", nd_now (node 7 8 50 0))] ∧
  (outcome_of (wake_run latest (ends ++ [WTrigger (node 7 8 56 0) "poked" "bob"; WTick (node 7 8 56 0)]) idle)).1 =
    [(["task_start"], "", nd_now (node 7 8 50 0)); (["poked"], "bob", nd_now (node 7 8 56 0))].
Proof. split; by vm_compute. Qed.

(** The same order loses the outcome of a test wake: the next wake's start
    overwrites that the last one was the test. *)
Lemma test_outcome_lost :
  let test := [WTest (node 7 7 0 0); WEnded "exit 7"; WIdle] in
  let shown es := match wake_run latest (test ++ es) idle with Ok (s, _, _) => wake_test s | _ => "panic" end in
  shown [WTick (node 7 7 6 0); WTrigger (node 7 7 12 0) "poked" "bob"; WTick (node 7 7 12 1)] = "exit 7" ∧
  shown [WTrigger (node 7 7 6 0) "poked" "bob"; WTick (node 7 7 6 1); WTick (node 7 7 12 0)] = "started".
Proof. cbv zeta. split; by vm_compute. Qed.

(** Two boards of one revision: the chain's tip was swapped, and the other
    block of that height adds no meeting.  Its holder looked at the empty
    board at eight; the tip with the meeting takes its place, but the timer
    compares only the revision and goes on resting, so the start is fired when
    the rest of an hour runs out, ten minutes late; a timer that looked would
    have fired it in time. *)
Definition empty_board : BoardState := {| rev := 1; tasks := ∅ |}.
Definition on_board (b : BoardState) (n : Host) : Host :=
  {| nd_settings := nd_settings n; nd_now := nd_now n; nd_workspace := nd_workspace n; nd_open := nd_open n;
     nd_member := nd_member n; nd_board := b; nd_refused := nd_refused n |}.
Lemma rests_on_swapped_board :
  let swap := [WTick (on_board empty_board (node 7 8 0 0)); WTick (node 7 8 50 0); WTick (node 7 8 59 59); WTick (node 7 9 0 0)] in
  rev empty_board = rev board ∧
  (outcome_of (wake_run latest swap idle)).1 = [(["task_start"], "", nd_now (node 7 9 0 0))] ∧
  (outcome_of (eager_run latest swap idle)).1 = [(["task_start"], "", nd_now (node 7 8 50 0))].
Proof. cbv zeta. split_and!; by vm_compute. Qed.

(** ** The theorems, here *)

Lemma board_ok : board_timed board.
Proof.
  intros id t w Ht Hw. change (({["m" := meeting]} : gmap TaskId Task) !! id = Some t) in Ht. apply lookup_singleton_Some in Ht as [_ <-]. injection Hw as <-. split.
  - split_and!; [done|by vm_compute|by vm_compute].
  - intros r [= <-]. by vm_compute.
  - repeat constructor; by vm_compute.
Qed.

(** The moment of a node. *)
Definition moment (n : Host) : Stamp := default (0%Z, 0%N) (utc (nd_now n)).

(** A decidable form of [node_ok] for the nodes of this board. *)
Definition moment_ok (n : Host) : bool :=
  is_some (utc (nd_now n)) && in_years (year (moment n).1) && in_years (year ((moment n).1 + 62)) && ((moment n).2 <? 86400)%N.

Lemma node_here d h m s : moment_ok (node d h m s) = true → node_ok (node d h m s) (moment (node d h m s)).
Proof.
  unfold moment_ok. set (n := node d h m s). intros [[[Hu Hy]%andb_true_iff Hl]%andb_true_iff Ht%N.ltb_lt]%andb_true_iff.
  split_and!; [|done|apply board_ok|].
  - unfold moment. by destruct (utc _).
  - split_and!; [by vm_compute|done|done|]. exists ((moment n).1 + 62). by split.
Qed.

Ltac beats :=
  repeat lazymatch goal with
  | |- timely _ (WTick (node ?d ?h ?m ?s) :: _) =>
      exists (moment (node d h m s)); split; [apply node_here; by vm_compute|]; split; [by vm_compute|]
  | |- timely ?T (_ :: ?es) => change (timely T es)
  | |- timely _ [] => exact I
  end.

Ltac gaps :=
  repeat lazymatch goal with
  | |- spaced_in ?r _ (WTick ?n :: ?es) => refine (conj _ (conj _ (_ : spaced_in r (nd_now n) es))); [by vm_compute|by vm_compute|]
  | |- spaced_in ?r _ (WTrigger ?n _ _ :: ?es) => refine (conj _ (conj _ (_ : spaced_in r (nd_now n) es))); [by vm_compute|by vm_compute|]
  | |- spaced_in ?r ?T (_ :: ?es) => change (spaced_in r T es)
  | |- spaced_in _ _ [] => exact I
  end.

Lemma start_scan_exact_witness :
  ∃ sc, start_scan latest board (derive board (on 2026 5 15)) "ann" (on 2026 5 15, 28201%N) 10 = Ok sc ∧
    (∀ d, d ∈ ss_due sc ↔ ∃ win, seat_start board (derive board (on 2026 5 15)) "ann" d win ∧
       fire_at 10 win ≤ secs (on 2026 5 15, 28201%N) < secs (to_stamp (begins win)) + MISSED_HORIZON_SECS).
Proof.
  destruct (start_scan_exact latest (-500) board (derive board (on 2026 5 15)) "ann" 10 (on 2026 5 15, 28201%N)) as (sc & Hsc & Hdue & _).
  - by vm_compute.
  - apply board_ok.
  - split_and!; [by vm_compute..|]. exists (on 2026 5 15 + 62). split; by vm_compute.
  - exact (ex_intro _ sc (conj Hsc Hdue)).
Defined.

Lemma starts_consumed_once_witness :
  ∃ s' sp new, wake_run latest morning idle = Ok (s', sp, new) ∧ NoDup new.
Proof.
  destruct (starts_consumed_once latest (-500) 0 morning idle) as (s' & sp & new & Hrun & Hnd & _).
  - by vm_compute.
  - apply civil_no_at.
  - unfold morning. beats.
  - done.
  - exact (ex_intro _ s' (ex_intro _ sp (ex_intro _ new (conj Hrun Hnd)))).
Defined.

Lemma timer_rest_refines_witness :
  ∃ s' a' sp new, wake_run latest morning idle = Ok (s', sp, new) ∧ eager_run latest morning idle = Ok (a', sp, new).
Proof.
  apply (timer_rest_refines latest (-500) (λ _, board) 0 morning idle).
  - by vm_compute.
  - apply civil_no_at.
  - unfold morning. beats.
  - by repeat split.
  - done.
  - done.
Defined.

(** The morning up to the reopening. *)
Definition early : list WEvent := take 11 morning.

Lemma wakes_spaced_witness :
  ∃ s' sp new, wake_run latest early idle = Ok (s', sp, new) ∧
    StronglySorted (λ a b, TEST_REASON ∈ sp_reasons b ∨ (sp_at a + 300 <= sp_at b)%N) sp.
Proof.
  destruct (wake_run latest early idle) as [[[s' sp] new]| |] eqn:Hrun; [|by vm_compute in Hrun..].
  exists s', sp, new. split; [done|]. refine (proj1 (wakes_spaced latest 300 0 early idle s' sp new _ _ Hrun)).
  - unfold early, morning. cbn [take]. gaps.
  - intros l Hl. discriminate Hl.
Defined.
End WakeRun.
