(* ===== verification/Votes.v ===== *)
(** * Voting on proposals

    crates/molt-engine/src/chain/governance.rs and
    crates/molt-engine/src/proposals.rs: the votes on an open proposal.
    Approvals are signatures over a chain position, collected per proposal and
    sealed into a block at the threshold; a decline is one member's voice, and
    enough of them turn a card down; the proposer may pull a card back.  Votes
    that outrun their card are parked.  [Votes] is the part of the engine's
    state these operations read and write; a sealed block is handed to the
    chain, whose checks are in [Verify] and [Walk]. *)

From S2P Require Import Prelude Bytes Strs Json Env Surface Roster Chain Checkpoint WikiFold Vault Cuts Standing Ledger Verify.

Inductive ProposalState := Proposed | Settled | Rejected.
#[export] Instance ProposalState_eq_dec : EqDecision ProposalState.
Proof. solve_decision. Defined.

Inductive SupersededKind := Rebase | Conflict.
#[export] Instance SupersededKind_eq_dec : EqDecision SupersededKind.
Proof. solve_decision. Defined.

Record ProposalRecord := mkCard {
  p_surface : Surface;
  p_payload : Value;
  p_approvals : N;
  p_state : ProposalState;
  p_applied_at : N;
  p_declined_at : N;
  p_declined_by : string;
  p_decliners : list string;
  p_voted : list string;
  p_by : string;
  p_superseded : bool;
  p_superseded_kind : option SupersededKind;
  p_withdrawn : bool;
  p_wiki_rev : option N;
}.

(** The collected signatures of one proposal. *)
Record PendingApproval := mkPending {
  pa_height : N;
  pa_sigs : list RosterAttestation;
  pa_verified : gset string;
}.
Definition pending_default : PendingApproval := {| pa_height := 0; pa_sigs := []; pa_verified := ∅ |}.

Record Replica := {
  rp_roster : list string;
  rp_rule_m : N;
  rp_republic_id : string;
  rp_identities : list MemberIdentity;
}.

(** A parked decline: who, when, and the hash of the payload they saw. *)
Abbreviation Voice := (string * N * string)%type (only parsing).

Record Votes := mkVotes {
  v_me : string;
  v_members : list string;
  v_replica : option Replica;
  v_nostr : bool;
  v_now : N;
  v_next_id : N;
  v_cards : gmap N ProposalRecord;
  v_head : option ChainHead;
  v_head_moved_at : N;
  v_anchors : gmap string string;
  v_seen : gset N;
  v_changes : gmap N ChainChange;
  v_pending : gmap N PendingApproval;
  v_own : gset N;
  v_parked : gmap N (list Voice);
  v_withdrawals : gmap N (string * N);
  v_collisions : gmap N string;
  v_held : gset N;
  v_signing : gmap string N;
  v_standing : Standing;
}.

(** Field updates. *)
Definition with_cards (f : gmap N ProposalRecord → gmap N ProposalRecord) (s : Votes) : Votes :=
  {| v_me := v_me s; v_members := v_members s; v_replica := v_replica s; v_nostr := v_nostr s; v_now := v_now s;
     v_next_id := v_next_id s; v_cards := f (v_cards s); v_head := v_head s; v_head_moved_at := v_head_moved_at s;
     v_anchors := v_anchors s; v_seen := v_seen s; v_changes := v_changes s; v_pending := v_pending s; v_own := v_own s;
     v_parked := v_parked s; v_withdrawals := v_withdrawals s; v_collisions := v_collisions s; v_held := v_held s;
     v_signing := v_signing s; v_standing := v_standing s |}.
Definition with_pending (f : gmap N PendingApproval → gmap N PendingApproval) (s : Votes) : Votes :=
  {| v_me := v_me s; v_members := v_members s; v_replica := v_replica s; v_nostr := v_nostr s; v_now := v_now s;
     v_next_id := v_next_id s; v_cards := v_cards s; v_head := v_head s; v_head_moved_at := v_head_moved_at s;
     v_anchors := v_anchors s; v_seen := v_seen s; v_changes := v_changes s; v_pending := f (v_pending s); v_own := v_own s;
     v_parked := v_parked s; v_withdrawals := v_withdrawals s; v_collisions := v_collisions s; v_held := v_held s;
     v_signing := v_signing s; v_standing := v_standing s |}.
Definition with_parks (f : gmap N (list Voice) → gmap N (list Voice)) (g : gmap N (string * N) → gmap N (string * N))
    (n : N) (s : Votes) : Votes :=
  {| v_me := v_me s; v_members := v_members s; v_replica := v_replica s; v_nostr := v_nostr s; v_now := v_now s;
     v_next_id := n; v_cards := v_cards s; v_head := v_head s; v_head_moved_at := v_head_moved_at s;
     v_anchors := v_anchors s; v_seen := v_seen s; v_changes := v_changes s; v_pending := v_pending s; v_own := v_own s;
     v_parked := f (v_parked s); v_withdrawals := g (v_withdrawals s); v_collisions := v_collisions s;
     v_held := v_held s; v_signing := v_signing s; v_standing := v_standing s |}.
Definition with_registers (own : gset N → gset N) (changes : gmap N ChainChange → gmap N ChainChange)
    (held : gset N → gset N) (collisions : gmap N string → gmap N string) (signing : gmap string N → gmap string N)
    (s : Votes) : Votes :=
  {| v_me := v_me s; v_members := v_members s; v_replica := v_replica s; v_nostr := v_nostr s; v_now := v_now s;
     v_next_id := v_next_id s; v_cards := v_cards s; v_head := v_head s; v_head_moved_at := v_head_moved_at s;
     v_anchors := v_anchors s; v_seen := v_seen s; v_changes := changes (v_changes s); v_pending := v_pending s;
     v_own := own (v_own s); v_parked := v_parked s; v_withdrawals := v_withdrawals s;
     v_collisions := collisions (v_collisions s); v_held := held (v_held s); v_signing := signing (v_signing s);
     v_standing := v_standing s |}.

Definition with_standing (f : Standing → Standing) (s : Votes) : Votes :=
  {| v_me := v_me s; v_members := v_members s; v_replica := v_replica s; v_nostr := v_nostr s; v_now := v_now s;
     v_next_id := v_next_id s; v_cards := v_cards s; v_head := v_head s; v_head_moved_at := v_head_moved_at s;
     v_anchors := v_anchors s; v_seen := v_seen s; v_changes := v_changes s; v_pending := v_pending s; v_own := v_own s;
     v_parked := v_parked s; v_withdrawals := v_withdrawals s; v_collisions := v_collisions s; v_held := v_held s;
     v_signing := v_signing s; v_standing := f (v_standing s) |}.

(** No change. *)
Definition id_ {A} (x : A) : A := x.

Definition with_own (f : gset N → gset N) : Votes → Votes := with_registers f id id id id.
Definition with_changes (f : gmap N ChainChange → gmap N ChainChange) : Votes → Votes := with_registers id f id id id.
Definition with_held (f : gset N → gset N) : Votes → Votes := with_registers id id f id id.
Definition with_collisions (f : gmap N string → gmap N string) : Votes → Votes := with_registers id id id f id.
Definition with_signing (f : gmap string N → gmap string N) : Votes → Votes := with_registers id id id id f.

(** Updates of one card. *)
Definition card_declined (by_ : string) (c : ProposalRecord) : ProposalRecord :=
  mkCard (p_surface c) (p_payload c) (p_approvals c) (p_state c) (p_applied_at c) (p_declined_at c) (p_declined_by c)
    (p_decliners c ++ [by_]) (p_voted c) (p_by c) (p_superseded c) (p_superseded_kind c) (p_withdrawn c) (p_wiki_rev c).
Definition card_rejected (ts : N) (by_ : string) (c : ProposalRecord) : ProposalRecord :=
  mkCard (p_surface c) (p_payload c) (p_approvals c) Rejected (p_applied_at c) ts by_
    (p_decliners c) (p_voted c) (p_by c) (p_superseded c) (p_superseded_kind c) (p_withdrawn c) (p_wiki_rev c).
Definition card_withdrawn (ts : N) (c : ProposalRecord) : ProposalRecord :=
  mkCard (p_surface c) (p_payload c) (p_approvals c) Rejected (p_applied_at c) ts (p_declined_by c)
    (p_decliners c) (p_voted c) (p_by c) (p_superseded c) (p_superseded_kind c) true (p_wiki_rev c).
Definition card_voted (l : list string) (c : ProposalRecord) : ProposalRecord :=
  mkCard (p_surface c) (p_payload c) (p_approvals c) (p_state c) (p_applied_at c) (p_declined_at c) (p_declined_by c)
    (p_decliners c) (foldl (λ v m, if bool_decide (m ∈ v) then v else v ++ [m]) (p_voted c) l) (p_by c)
    (p_superseded c) (p_superseded_kind c) (p_withdrawn c) (p_wiki_rev c).
Definition settle_applied (c : ProposalRecord) : ProposalRecord :=
  mkCard (p_surface c) (p_payload c) (p_approvals c) Settled (p_applied_at c) (p_declined_at c) (p_declined_by c)
    (p_decliners c) (p_voted c) (p_by c) false None (p_withdrawn c) (p_wiki_rev c).
Definition card_applied_at (t : N) (c : ProposalRecord) : ProposalRecord :=
  mkCard (p_surface c) (p_payload c) (p_approvals c) (p_state c) t (p_declined_at c) (p_declined_by c)
    (p_decliners c) (p_voted c) (p_by c) (p_superseded c) (p_superseded_kind c) (p_withdrawn c) (p_wiki_rev c).
Definition card_undecline (m : string) (c : ProposalRecord) : ProposalRecord :=
  mkCard (p_surface c) (p_payload c) (p_approvals c) (p_state c) (p_applied_at c) (p_declined_at c) (p_declined_by c)
    (filter (λ d, d ≠ m) (p_decliners c)) (p_voted c) (p_by c) (p_superseded c) (p_superseded_kind c) (p_withdrawn c)
    (p_wiki_rev c).

Definition card_superseded (c : ProposalRecord) : ProposalRecord :=
  mkCard (p_surface c) (p_payload c) (p_approvals c) Rejected (p_applied_at c) (p_declined_at c) (p_declined_by c)
    (p_decliners c) (p_voted c) (p_by c) true (Some Conflict) (p_withdrawn c) (p_wiki_rev c).
Definition card_reopened (c : ProposalRecord) : ProposalRecord :=
  mkCard (p_surface c) (p_payload c) (p_approvals c) Proposed (p_applied_at c) (p_declined_at c) (p_declined_by c)
    (p_decliners c) (p_voted c) (p_by c) false None (p_withdrawn c) (p_wiki_rev c).
Definition card_rebased (c : ProposalRecord) : ProposalRecord :=
  mkCard (p_surface c) (p_payload c) (p_approvals c) (p_state c) (p_applied_at c) (p_declined_at c) (p_declined_by c)
    (p_decliners c) (p_voted c) (p_by c) (p_superseded c) (Some Rebase) (p_withdrawn c) (p_wiki_rev c).

Definition PARKED_DECLINE_IDS_MAX : nat := 1024.
Definition PARKED_DECLINES_PER_MEMBER_MAX : nat := 64.
Definition PARKED_DECLINE_ID_WINDOW : N := 1024.
Definition ID_COLLISIONS_MAX : nat := 64.
Definition OPEN_CARDS_PER_PROPOSER_MAX : nat := 64.
Definition SEAL_PACE_SECS : N := 5.

(** [wallet::is_init]. *)
Definition is_init (payload : Value) : bool := bool_decide (op_of payload = Some "wallet_init").

(** [State::roster], [State::republic_id]. *)
Definition roster_of (s : Votes) : list string :=
  match v_replica s with Some r => rp_roster r | None => v_members s end.
Definition republic_id_of (s : Votes) : string :=
  match v_replica s with Some r => rp_republic_id r | None => "" end.

(** ** Changes and cards *)

Definition is_chain_governed (s : Votes) : bool := match v_head s with Some _ => true | None => false end.

Definition is_membership_op (payload : Value) : bool :=
  bool_decide (op_of payload = Some "restore_member") || bool_decide (op_of payload = Some "add_member").

Definition proposal_change (s : Votes) (id : N) : option ChainChange :=
  match v_changes s !! id with
  | Some change => Some change
  | None =>
      p ← v_cards s !! id;
      if is_membership_op (p_payload p) then None else Some (Applied id (p_surface p) (p_payload p))
  end.

Definition membership_op_str (op : MembershipOp) : string :=
  match op with Restored => "restore_member" | Joined => "add_member" end.

Definition wears (op : MembershipOp) (member : string) (p : ProposalRecord) : bool :=
  bool_decide (p_surface p = Organization) &&
  bool_decide (op_of (p_payload p) = Some (membership_op_str op)) &&
  bool_decide (get_str "member" (p_payload p) = Some member).

#[export] Instance ChainChange_eq_dec : EqDecision ChainChange.
Proof. solve_decision. Defined.

Definition id_free_for (s : Votes) (id : N) (change : ChainChange) : bool :=
  match v_changes s !! id with
  | Some existing => bool_decide (existing = change)
  | None =>
      match v_cards s !! id with
      | None => true
      | Some p => match change with Membership op member _ _ _ _ => wears op member p | _ => false end
      end
  end.

Definition stash_voted (id : N) (s : Votes) : Votes :=
  let members := match v_pending s !! id with Some p => att_member <$> pa_sigs p | None => [] end in
  match members with [] => s | _ => with_cards (alter (card_voted members) id) s end.

Definition stamp_applied_at (proposal_id at_ : N) (s : Votes) : Votes :=
  if (at_ =? 0)%N then s
  else with_cards (alter (λ c, card_applied_at (if (p_applied_at c =? 0)%N then at_ else N.min (p_applied_at c) at_) c)
         proposal_id) s.

Definition forget_vote (id : N) (s : Votes) : Votes :=
  with_changes (delete id) (with_pending (delete id) (stash_voted id s)).

(** The ids come in key order. *)
Definition sorted_keys {A} (m : gmap N A) : list N := merge_sort N.le (elements (dom m)).

Definition forget_votes_for (sealed : ChainChange) (s : Votes) : Votes :=
  foldl (λ s id, forget_vote id s) s
    (filter (λ id, v_changes s !! id = Some sealed) (sorted_keys (v_changes s))).

(** ** Approvals *)

Section Approvals.
Context `{Env}.

Definition own_signature_stands (s : Votes) (id : N) : bool :=
  match v_head s with
  | None => false
  | Some head =>
      match v_pending s !! id with
      | Some p => (pa_height p =? hd_height head + 1)%N && existsb (λ a, bool_decide (att_member a = v_me s)) (pa_sigs p)
      | None => false
      end
  end.

Definition chain_approval_count (s : Votes) (id : N) : nat :=
  match v_pending s !! id with Some p => size (pa_verified p) | None => 0 end.

(** A card that is not open collects nothing. *)
Definition is_open (s : Votes) (id : N) : bool :=
  match v_cards s !! id with Some p => bool_decide (p_state p = Proposed) | None => true end.

Definition rostered (s : Votes) (member : string) : bool :=
  match v_head s with
  | Some h => existsb (λ i, bool_decide (mi_member i = member)) (hd_identities h)
  | None => bool_decide (member ∈ roster_of s)
  end.

(** The entry after the height rule: a newer height starts it over, an older
    one is refused. *)
Definition rebased (height : N) (e : PendingApproval) : option PendingApproval :=
  if (pa_height e <? height)%N then Some {| pa_height := height; pa_sigs := []; pa_verified := ∅ |}
  else if (height <? pa_height e)%N then None else Some e.

Definition put_sig (member sig : string) (e : PendingApproval) : PendingApproval :=
  {| pa_height := pa_height e;
     pa_sigs := filter (λ a, att_member a ≠ member) (pa_sigs e) ++ [{| att_member := member; att_sig := sig |}];
     pa_verified := pa_verified e ∖ {[member]} |}.

Definition collect_sig (id height : N) (member sig : string) (verified : bool) (s : Votes) : Votes :=
  if negb (is_open s id) then s
  else if negb (rostered s member) then s
  else if negb verified && bool_decide (member = v_me s) then s
  else
    let entry := default pending_default (v_pending s !! id) in
    match rebased height entry with
    | None => with_pending <[id := entry]> s
    | Some e =>
        if negb verified && bool_decide (member ∈ pa_verified e) then with_pending <[id := e]> s
        else with_pending <[id := put_sig member sig e]> s
    end.

(** [h.height + 1] with the release build's overflow check. *)
Definition next_height (head : ChainHead) : run N := expect (u64_checked_add (hd_height head) 1).

(** Does one signature verify as the named member's? *)
Definition sig_by (head : ChainHead) (b : bytes) (a : RosterAttestation) : bool :=
  existsb (λ i, bool_decide (mi_member i = att_member a) && identity_verify (mi_identity_pk i) b (att_sig a))
    (hd_identities head).

Definition approval_verifies (s : Votes) (id height : N) (member sig : string) : run bool :=
  match v_head s with
  | None => Ok false
  | Some head =>
      let? target := next_height head in
      if negb (height =? target)%N then Ok false
      else
        match proposal_change s id with
        | None => Ok false
        | Some change =>
            let? b := expect (approval_bytes (republic_id_of s) height change) in
            Ok (sig_by head b {| att_member := member; att_sig := sig |})
        end
  end.

Definition mark_verified (id : N) (member : string) : Votes → Votes :=
  with_pending (alter (λ e, {| pa_height := pa_height e; pa_sigs := pa_sigs e; pa_verified := {[member]} ∪ pa_verified e |}) id).

Definition note_signer (member : string) (height : N) : Votes → Votes :=
  with_signing (λ m, <[member := N.max (default 0%N (m !! member)) height]> m).

(** The loop of [reverify_pending]. *)
Fixpoint reverify_each (id height : N) (l : list RosterAttestation) (s : Votes) : run Votes :=
  match l with
  | [] => Ok s
  | a :: l =>
      let? ok := approval_verifies s id height (att_member a) (att_sig a) in
      reverify_each id height l
        (if (ok : bool) then note_signer (att_member a) height (mark_verified id (att_member a) s) else s)
  end.

Definition reverify_pending (id : N) (s : Votes) : run Votes :=
  match v_pending s !! id with
  | None => Ok s
  | Some p => reverify_each id (pa_height p) (filter (λ a, att_member a ∉ pa_verified p) (pa_sigs p)) s
  end.

(** ** The seal *)

(** [sort_by] the member's name: stable. *)
Fixpoint insert_att (a : RosterAttestation) (l : list RosterAttestation) : list RosterAttestation :=
  match l with
  | [] => [a]
  | b :: l => if bool_decide (String.le (att_member a) (att_member b)) then a :: b :: l else b :: insert_att a l
  end.
Definition sort_atts (l : list RosterAttestation) : list RosterAttestation := foldr insert_att [] l.

(** [dedup_by]: of a run of equal names the first stays. *)
Fixpoint dedup_atts (l : list RosterAttestation) : list RosterAttestation :=
  match l with
  | [] => []
  | a :: l =>
      match dedup_atts l with
      | [] => [a]
      | b :: r => if bool_decide (att_member a = att_member b) then a :: r else a :: b :: r
      end
  end.

Definition decliners_of (s : Votes) (id : N) : list string :=
  match v_cards s !! id with Some p => p_decliners p | None => [] end.

Inductive RestoreRefusal := NoConsent | NotAnchored | Refused (e : ConsentError).

Definition restore_consent_at (s : Votes) (change : ChainChange) (height : N) : outcome RestoreRefusal ConsentKind :=
  match change, v_head s with
  | Membership _ member _ nostr_pk relays (Some consent), Some head =>
      match find_member (hd_identities head) member with
      | None => Err NotAnchored
      | Some i =>
          let? kind := omap_err Refused
            (verify_restore_consent (republic_id_of s) (mi_identity_pk i) height member nostr_pk relays consent) in
          let? _ := omap_err Refused (consent_spends change (λ m,
            match v_anchors s !! m with
            | Some pk => pk
            | None => match v_replica s with Some r => roster_anchor (rp_identities r) m | None => "" end
            end)) in
          Ok kind
      end
  | Membership _ _ _ _ _ (Some _), None => Err NotAnchored
  | _, _ => Err NoConsent
  end.

(** A consented restore: its member, when the consent still stands here. *)
Definition consented_restore (change : ChainChange) : option string :=
  match change with Membership Restored member _ _ _ (Some _) => Some member | _ => None end.

Definition need_of (head : ChainHead) (change : ChainChange) : nat :=
  match cut_of change with Some _ => length (hd_identities head) | None => N.to_nat (hd_rule_m head) end.

(** The signatures a block would carry, when there are enough. *)
Definition enough (need consented : nat) (valid : list RosterAttestation) : option (list RosterAttestation) :=
  if (need <=? length valid)%nat then Some (take need valid)
  else if (length valid + consented <? need)%nat then None else Some valid.

Definition seal_pace_secs (s : Votes) : N := if v_nostr s then SEAL_PACE_SECS else 0.

(** [try_commit]: the state, and the block to adopt when one seals. *)
Definition try_commit (id : N) (s : Votes) : run (Votes * option ChainBlock) :=
  match v_head s with
  | None => Ok (s, None)
  | Some head =>
      if negb (is_open s id) then Ok (s, None)
      else
        let? target := next_height head in
        match proposal_change s id with
        | None => Ok (s, None)
        | Some change =>
            let? b := expect (approval_bytes (republic_id_of s) target change) in
            match v_pending s !! id with
            | None => Ok (s, None)
            | Some pending =>
                if negb (pa_height pending =? target)%N then Ok (s, None)
                else
                  let valid := filter (λ a, (att_member a ∉ decliners_of s id) ∧ sig_by head b a = true) (pa_sigs pending) in
                  let valid := dedup_atts (sort_atts valid) in
                  let checked :=
                    match consented_restore change with
                    | Some member =>
                        match restore_consent_at s change target with
                        | Ok _ => Ok (Some (filter (λ a, att_member a ≠ member) valid, 1%nat))
                        | Err _ => Ok None
                        | Panic => Panic
                        end
                    | None => Ok (Some (valid, 0%nat))
                    end in
                  let? r := (checked : run (option (list RosterAttestation * nat))) in
                  match r with
                  | None => Ok (s, None)
                  | Some (valid, consented) =>
                      match enough (need_of head change) consented valid with
                      | None => Ok (s, None)
                      | Some sigs =>
                          let pace := seal_pace_secs s in
                          if (0 <? pace)%N && (v_now s - v_head_moved_at s <? pace)%N
                          then Ok (with_held (λ h, {[id]} ∪ h) s, None)
                          else Ok (with_held (λ h, h ∖ {[id]}) s,
                                   Some {| height := target; prev := hd_hash head; change := change; sigs := sigs |})
                      end
                  end
            end
        end
  end.

Definition plausible_wire_id (s : Votes) (id : N) : bool :=
  (id <=? u64_saturating_add (v_next_id s) PARKED_DECLINE_ID_WINDOW)%N.

(** [receive_approval]: whether the vote was for a height beyond the next
    block, and the block to adopt. *)
Definition receive_approval (id : N) (by_ : string) (height : N) (sig : string) (s : Votes)
    : run (Votes * bool * option ChainBlock) :=
  if str_empty sig then Ok (s, false, None)
  else if negb (plausible_wire_id s id) then Ok (s, false, None)
  else
    let? beyond :=
      match v_head s with
      | Some h => let? t := next_height h in Ok ((t <? height)%N)
      | None => Ok false
      end in
    if (beyond : bool) then Ok (s, true, None)
    else
      let? verified := approval_verifies s id height by_ sig in
      let s := collect_sig id height by_ sig verified s in
      let s := if (verified : bool) then note_signer by_ height (mark_verified id by_ s) else s in
      let? r := try_commit id s in
      Ok (r.1, false, r.2).

End Approvals.

(** ** Declines *)

Inductive DeclineOutcome := DVoice | DRejected | DKnown | DParked.

Section Declines.
Context `{Env}.

(** [hex(sha256(tag ++ to_vec(payload).unwrap_or_default()))]. *)
Definition decline_payload_hash (payload : Value) : string :=
  content_hash (as_bytes "molt-decline-payload-v1" ++ [x00] ++ default [] (json_to_vec payload)).

Definition member_parked (s : Votes) (by_ : string) : nat :=
  length (filter (λ kv, existsb (λ v : Voice, bool_decide (v.1.1 = by_)) kv.2 = true) (map_to_list (v_parked s))).

(** The park is full for a new id of this member. *)
Definition park_full (s : Votes) (by_ : string) : bool :=
  (PARKED_DECLINE_IDS_MAX <=? size (v_parked s))%nat || (PARKED_DECLINES_PER_MEMBER_MAX <=? member_parked s by_)%nat.

Definition decline_would_shed (s : Votes) (id : N) (by_ : string) : bool :=
  if negb (is_chain_governed s) || bool_decide (is_Some (v_cards s !! id)) then false
  else if negb (plausible_wire_id s id) then false
  else if bool_decide (is_Some (v_parked s !! id)) then false
  else park_full s by_.

(** How many declines a card survives. *)
Definition veto_room (s : Votes) (p : ProposalRecord) : nat :=
  if bool_decide (p_surface p = Wallet) && is_init (p_payload p) then 0
  else match v_replica s with
       | Some r => length (rp_roster r) - Nat.max (N.to_nat (rp_rule_m r)) 1
       | None => 0
       end.

(** A member's signature leaves the collection. *)
Definition drop_sig (by_ : string) (e : PendingApproval) : PendingApproval :=
  {| pa_height := pa_height e; pa_sigs := filter (λ a, att_member a ≠ by_) (pa_sigs e);
     pa_verified := pa_verified e ∖ {[by_]} |}.

(** A decline of an unknown id waits for its card. *)
Definition park_decline (id : N) (by_ : string) (ts : N) (hash : string) (s : Votes) : Votes * DeclineOutcome :=
  if negb (plausible_wire_id s id) then (s, DKnown)
  else
    let s := with_parks id_ id_ (N.max (v_next_id s) (u64_saturating_add id 1)) s in
    if negb (bool_decide (is_Some (v_parked s !! id))) && park_full s by_ then (s, DKnown)
    else
      let parked := default [] (v_parked s !! id) in
      let parked := if existsb (λ v : Voice, bool_decide (v.1.1 = by_)) parked then parked else parked ++ [(by_, ts, hash)] in
      (with_parks <[id := parked]> id_ (v_next_id s) s, DParked).

Definition register_decline (id : N) (by_ : string) (ts : N) (hash : string) (s : Votes) : Votes * DeclineOutcome :=
  match v_cards s !! id with
  | None => park_decline id by_ ts hash s
  | Some p =>
      if negb (str_empty hash) && negb (bool_decide (decline_payload_hash (p_payload p) = hash)) then (s, DKnown)
      else if negb (bool_decide (p_state p = Proposed)) || bool_decide (by_ ∈ p_decliners p) then (s, DKnown)
      else
        let s := with_pending (alter (drop_sig by_) id) s in
        let s := if bool_decide (by_ = v_me s) then with_own (λ o, o ∖ {[id]}) s else s in
        let s := with_cards (alter (card_declined by_) id) s in
        if (veto_room s p <? length (p_decliners p ++ [by_]))%nat
        then (stash_voted id (with_cards (alter (card_rejected ts by_) id) s), DRejected)
        else (s, DVoice)
  end.

(** The drained voices that registered, and whether the card turned down. *)
Fixpoint drain_voices (id : N) (l : list Voice) (s : Votes) : Votes * list string * bool :=
  match l with
  | [] => (s, [], false)
  | (by_, ts, hash) :: l =>
      let '(s, o) := register_decline id by_ ts hash s in
      let '(s, voices, rejected) := drain_voices id l s in
      match o with
      | DRejected => (s, by_ :: voices, true)
      | DVoice => (s, by_ :: voices, rejected)
      | _ => (s, voices, rejected)
      end
  end.

Definition register_parked_declines (id : N) (s : Votes) : Votes * list string * bool :=
  match v_parked s !! id with
  | None => (s, [], false)
  | Some parked => drain_voices id parked (with_parks (delete id) id_ (v_next_id s) s)
  end.

(** ** Withdrawals *)

Inductive WithdrawOutcome := WWithdrawn | WParked | WIgnored.

(** The seat whose stride an id falls on. *)
Definition minting_seat (s : Votes) (id : N) : option string :=
  match v_replica s with
  | None => None
  | Some r =>
      let roster := merge_sort String.le (rp_roster r) in
      let n := len roster in
      if (n =? 0)%N then None else roster !! N.to_nat ((id mod n + n - 1) mod n)%N
  end.

Definition register_withdraw (id : N) (by_ : string) (ts : N) (s : Votes) : Votes * WithdrawOutcome :=
  match v_cards s !! id with
  | None =>
      if negb (plausible_wire_id s id) then (s, WIgnored)
      else
        let s := with_parks id_ id_ (N.max (v_next_id s) (u64_saturating_add id 1)) s in
        if negb (bool_decide (is_Some (v_withdrawals s !! id))) && (PARKED_DECLINE_IDS_MAX <=? size (v_withdrawals s))%nat
        then (s, WIgnored)
        else (with_parks id_ (partial_alter (λ o, match o with Some w => Some w | None => Some (by_, ts) end) id)
                (v_next_id s) s, WParked)
  | Some p =>
      if negb (bool_decide (p_state p = Proposed)) then (s, WIgnored)
      else if negb (bool_decide (default (p_by p) (minting_seat s id) = by_)) then (s, WIgnored)
      else
        let s := with_cards (alter (card_withdrawn ts) id) s in
        let s := stash_voted id s in
        let s := with_own (λ o, o ∖ {[id]}) (with_pending (delete id) s) in
        (with_parks (delete id) id_ (v_next_id s) s, WWithdrawn)
  end.

Definition register_parked_withdrawal (id : N) (s : Votes) : Votes * WithdrawOutcome :=
  match v_withdrawals s !! id with
  | None => (s, WIgnored)
  | Some (by_, ts) => register_withdraw id by_ ts (with_parks id_ (delete id) (v_next_id s) s)
  end.

(** ** Cards *)

(** *** The cards a replace or a moved base retires *)

(** A card that is retired keeps the voices that reached it. *)
Definition retire (id : N) (s : Votes) : Votes := stash_voted id (with_cards (alter card_superseded id) s).

(** One Vault card: the lists of the cards to retire and to reopen. *)
Definition judge_vault (id : N) (p : ProposalRecord) (replaced : option bool) (l : list N * list N) : list N * list N :=
  match replaced with
  | None => l
  | Some replaced =>
      match p_state p with
      | Proposed => if replaced then (id :: l.1, l.2) else l
      | Rejected =>
          if negb replaced && p_superseded p && bool_decide (p_superseded_kind p = Some Conflict) then (l.1, id :: l.2) else l
      | Settled => l
      end
  end.

Fixpoint judge_vault_cards `{VaultSerde} (st : VaultState) (rid : string) (cards : list (N * ProposalRecord))
    : run (list N * list N) :=
  match cards with
  | [] => Ok ([], [])
  | (id, p) :: cards =>
      let? replaced := if decide (p_surface p = Vault) then vault_replaced st rid (p_payload p) else Ok None in
      let? l := judge_vault_cards st rid cards in
      Ok (judge_vault id p replaced l)
  end.

Definition supersede_stale_vault_cards `{VaultSerde} (s : Votes) : run Votes :=
  if vault_base_pending (v_standing s) then Ok s
  else
    let? st := vault_state (republic_id_of s) (v_standing s) in
    let? l := judge_vault_cards st (republic_id_of s) (map_to_list (v_cards s)) in
    let s := foldl (λ s id, retire id s) s l.1 in
    Ok (foldl (λ s id, with_cards (alter card_reopened id) s) s l.2).

(** A Vault card registered here.  What the arrival of a deposit starts beside
    the votes, its holder check, is left out; its id is formed. *)
Definition after_vault_proposed `{VaultSerde} (id : N) (s : Votes) : run Votes :=
  match v_cards s !! id with
  | None => Ok s
  | Some p =>
      match op_from_value (p_payload p) with
      | Some (Deposit d) =>
          let? s := supersede_stale_vault_cards s in
          if is_open s id then let? _ := expect (secret_id (republic_id_of s) d) in Ok s else Ok s
      | Some (Grant _) => supersede_stale_vault_cards s
      | _ => Ok s
      end
  end.

(** The open wiki patches. *)
Definition wiki_cands (cards : gmap N ProposalRecord) : list (N * ProposalRecord) :=
  filter (λ e, p_surface e.2 = Memory ∧ p_state e.2 = Proposed ∧ op_of (p_payload e.2) = Some "wiki_patch") (map_to_list cards).

(** One patch against the tree: re-based, retired, or left as it was. *)
Definition judge_wiki (t : tree) (moved : option (gset string)) (replay : gmap N N) (blocks : list ChainBlock)
    (e : N * ProposalRecord) (l : list N * list N) : list N * list N :=
  match wiki_patch_files (p_payload e.2) with
  | None => l
  | Some files =>
      let paths := touched_paths files in
      if match moved with Some m => bool_decide (paths ## m) | None => false end then l
      else if wiki_patch_applies t files then
        let replayed := match replay !! e.1 with Some at_ => chain_moved_since blocks at_ paths | None => false end in
        if bool_decide (is_Some moved) || replayed then (e.1 :: l.1, l.2) else l
      else (l.1, e.1 :: l.2)
  end.

Definition supersede_stale_wiki (moved : option (gset string)) (s : Votes) : run Votes :=
  let st := v_standing s in
  if st_adopting st then Ok s
  else
    match wiki_cands (v_cards s) with
    | [] => Ok (with_standing (set_replay ∅) s)
    | cands =>
        match wiki_base st with
        | Panic => Panic
        | Err _ => Ok s
        | Ok base =>
            let l := foldr (judge_wiki base.1 moved (st_replay st) (st_chain st)) ([], []) cands in
            let s := with_standing (set_replay ∅) s in
            let s := foldl (λ s id, with_cards (alter card_rebased id) s) s l.1 in
            Ok (foldl (λ s id, retire id s) s l.2)
        end
    end.

Definition new_card (surface : Surface) (payload : Value) (by_ : string) : ProposalRecord :=
  mkCard surface payload 0 Proposed 0 0 "" [] [] by_ false None false None.

(** [receive_proposed] past the surfaces' own checks: the flood cap, the
    collisions, the card, and what its arrival sets off. *)
Definition admit_card `{VaultSerde} (id : N) (surface : Surface) (payload : Value) (by_ : string) (s : Votes) : run (Votes * bool) :=
  let open_by := length (filter (λ kv, p_state kv.2 = Proposed ∧ p_by kv.2 = by_) (map_to_list (v_cards s))) in
  if negb (bool_decide (is_Some (v_cards s !! id))) && (OPEN_CARDS_PER_PROPOSER_MAX <=? open_by)%nat then Ok (s, false)
  else
    let s := with_parks id_ id_ (N.max (v_next_id s) (u64_saturating_add id 1)) s in
    if bool_decide (is_Some (v_changes s !! id)) then Ok (s, false)
    else if bool_decide (id ∈ v_seen s) then Ok (s, false)
    else
      match v_cards s !! id with
      | Some existing =>
          if bool_decide (p_surface existing = surface ∧ p_payload existing = payload) then Ok (s, false)
          else if (size (v_collisions s) <? ID_COLLISIONS_MAX)%nat || bool_decide (is_Some (v_collisions s !! id))
               then Ok (with_collisions <[id := by_]> s, false)
               else Ok (s, false)
      | None =>
          let s := with_cards <[id := new_card surface payload by_]> s in
          let? s := if decide (surface = Vault) then after_vault_proposed id s else Ok s in
          let? s := if decide (surface = Memory) then supersede_stale_wiki None s else Ok s in
          let? s := reverify_pending id s in
          Ok (s, true)
      end.

(** [cmd_approve]'s stance: the own standing decline is taken back. *)
Definition retract_decline (id : N) (s : Votes) : Votes := with_cards (alter (card_undecline (v_me s)) id) s.

End Declines.
