(* ===== verification/VotesProps.v ===== *)
(** * What the votes guarantee

    A block this node seals carries the signatures the verifier asks for; a
    card turned down by declines can no longer reach the threshold; declines
    count the same whether they come before or after their card; and the
    registers of the votes keep their invariant under every step. *)

From stdpp Require Import relations sorting.
From S2P Require Import Prelude Bytes Strs Json Env Surface Roster Chain Checkpoint WikiFold Vault Cuts Standing Ledger Verify Walk Approvals Votes.

(** ** Sorted names *)

Lemma insert_att_perm a l : insert_att a l ≡ₚ a :: l.
Proof.
  induction l as [|b l IH]; [done|]. cbn [insert_att]. destruct (bool_decide _); [done|].
  rewrite IH. apply Permutation_swap.
Qed.

Lemma sort_atts_perm l : sort_atts l ≡ₚ l.
Proof. induction l as [|a l IH]; [done|]. cbn. fold (sort_atts l). by rewrite insert_att_perm, IH. Qed.

Definition att_le (a b : RosterAttestation) : Prop := String.le (att_member a) (att_member b).

Lemma insert_att_sorted a l : StronglySorted att_le l → StronglySorted att_le (insert_att a l).
Proof.
  induction 1 as [|b l Hl IH Hb]; [repeat constructor|]. cbn [insert_att]. case_bool_decide as Hab.
  - constructor; [by constructor|]. constructor; [done|]. eapply Forall_impl; [done|]. intros c Hc. unfold att_le in *. by etrans.
  - constructor; [done|]. rewrite insert_att_perm. constructor; [|done].
    destruct (total String.le (att_member a) (att_member b)); done.
Qed.

Lemma sort_atts_sorted l : StronglySorted att_le (sort_atts l).
Proof. induction l as [|a l IH]; cbn; [constructor|]. by apply insert_att_sorted. Qed.

Lemma dedup_atts_sub l a : a ∈ dedup_atts l → a ∈ l.
Proof.
  revert a. induction l as [|x l IH]; intros a; cbn [dedup_atts]; [done|].
  destruct (dedup_atts l) as [|b r] eqn:E; [intros ->%list_elem_of_singleton; constructor|].
  case_bool_decide; intros [->|Ha]%elem_of_cons; try constructor; apply IH; [by constructor|done].
Qed.

(** A sorted list without repeats names each member once. *)
Lemma dedup_atts_nodup l : StronglySorted att_le l →
  StronglySorted att_le (dedup_atts l) ∧ NoDup (att_member <$> dedup_atts l).
Proof.
  induction 1 as [|a l Hl [IHs IHn] Ha]; cbn [dedup_atts]; [split; constructor|].
  assert (Hd : Forall (att_le a) (dedup_atts l)).
  { apply Forall_forall. intros x Hx%dedup_atts_sub. rewrite Forall_forall in Ha. by apply Ha. }
  destruct (dedup_atts l) as [|b r] eqn:E; [split; [repeat constructor|apply NoDup_singleton]|].
  apply StronglySorted_inv in IHs as [Hr Hbr]. csimpl in IHn. apply NoDup_cons in IHn as [Hb Hn].
  apply Forall_cons in Hd as [Hab Har]. case_bool_decide as Heq.
  - split; [by constructor|]. csimpl. constructor; [by rewrite Heq|done].
  - split; [repeat constructor; done|]. csimpl. constructor; [|by constructor].
    rewrite elem_of_cons. intros [Hc|Hin]; [done|]. apply list_elem_of_fmap in Hin as (x & Hx & Hin).
    apply Heq. rewrite Forall_forall in Hbr. specialize (Hbr x Hin). unfold att_le in *. rewrite <-Hx in Hbr.
    by apply (anti_symm String.le).
Qed.

(** ** The sealer counts like the verifier *)

Section Seal.
Context `{Env}.

(** The table of a verified head: distinct names, and no more than n to ask
    for. *)
Definition head_ok (head : ChainHead) : Prop :=
  NoDup (mi_member <$> hd_identities head) ∧ (hd_rule_m head <= len (hd_identities head))%N.

Lemma sig_by_signed head b a : NoDup (mi_member <$> hd_identities head) → sig_by head b a = true →
  ∃ i, find_member (hd_identities head) (att_member a) = Some i ∧ identity_verify (mi_identity_pk i) b (att_sig a) = true.
Proof.
  intros Hnd (i & Hi & Hv)%existsb_true. apply andb_true_iff in Hv as [Hm%bool_decide_eq_true Hv].
  exists i. split; [|done]. rewrite <-Hm. by apply find_member_nodup.
Qed.

(** The verifier's signers of a list of valid signatures by distinct
    members. *)
Lemma valid_signers_all head b sigs : NoDup (mi_member <$> hd_identities head) →
  NoDup (att_member <$> sigs) → (∀ a, a ∈ sigs → sig_by head b a = true) →
  valid_signers (hd_identities head) b sigs = list_to_set (att_member <$> sigs) ∧
  size (valid_signers (hd_identities head) b sigs) = length sigs.
Proof.
  intros Hids Hnd Hall.
  assert (Heq : valid_signers (hd_identities head) b sigs = list_to_set (att_member <$> sigs)).
  { apply set_eq. intros m. rewrite valid_signers_spec, elem_of_list_to_set, list_elem_of_fmap. split.
    - intros (i & Hf & a & Ha & Hm & _). exists a. split; [|done]. apply find_member_some in Hf as [_ <-]. done.
    - intros (a & -> & Ha). destruct (sig_by_signed head b a Hids (Hall a Ha)) as (i & Hf & Hv).
      exists i. split; [done|]. exists a. split; [done|]. split; [|done]. by apply find_member_some in Hf as [_ ->]. }
  split; [done|]. by rewrite Heq, size_list_to_set, length_fmap.
Qed.

Lemma enough_spec need consented valid sigs : enough need consented valid = Some sigs →
  (need ≤ length sigs + consented)%nat ∧ (∀ a, a ∈ sigs → a ∈ valid) ∧
  (NoDup (att_member <$> valid) → NoDup (att_member <$> sigs)).
Proof.
  unfold enough. destruct (Nat.leb_spec need (length valid)) as [Hle|Hgt].
  - intros [= <-]. split; [rewrite length_take; lia|]. split.
    + intros a (i & Hi & _)%elem_of_take. by eapply list_elem_of_lookup_2.
    + intros Hnd. rewrite fmap_take. eapply sublist_NoDup; [done|apply sublist_take].
  - destruct (Nat.ltb_spec (length valid + consented) need); [done|]. intros [= <-]. split; [lia|]. done.
Qed.

(** The block [try_commit] hands over, taken apart. *)
Lemma try_commit_block id s s' block head : try_commit id s = Ok (s', Some block) → v_head s = Some head →
  ∃ b valid consented, u64_checked_add (hd_height head) 1 = Some (height block) ∧ prev block = hd_hash head ∧
    approval_bytes (republic_id_of s) (height block) (change block) = Some b ∧
    NoDup (att_member <$> valid) ∧ (∀ a, a ∈ valid → sig_by head b a = true ∧ att_member a ∉ decliners_of s id) ∧
    enough (need_of head (change block)) consented valid = Some (sigs block) ∧
    match consented_restore (change block) with
    | Some member => consented = 1%nat ∧ (∀ a, a ∈ valid → att_member a ≠ member) ∧
        ∃ k, restore_consent_at s (change block) (height block) = Ok k
    | None => consented = 0%nat
    end.
Proof.
  unfold try_commit. intros Hp Hh. rewrite Hh in Hp. destruct (negb (is_open s id)); [done|].
  apply obind_ok in Hp as (target & Ht%expect_ok & Hp). destruct (proposal_change s id) as [ch|]; [|done].
  apply obind_ok in Hp as (b & Hb%expect_ok & Hp). destruct (v_pending s !! id) as [pending|]; [|done].
  destruct (negb _); [done|]. set (raw := filter _ (pa_sigs pending)) in Hp.
  destruct (dedup_atts_nodup (sort_atts raw) (sort_atts_sorted raw)) as [_ Hnd].
  assert (Hraw : ∀ a, a ∈ dedup_atts (sort_atts raw) → sig_by head b a = true ∧ att_member a ∉ decliners_of s id).
  { intros a Ha%dedup_atts_sub. rewrite sort_atts_perm in Ha. by apply list_elem_of_filter in Ha as [[??] _]. }
  apply obind_ok in Hp as (r & Hr & Hp). destruct r as [[valid consented]|]; [|done].
  destruct (enough _ consented valid) as [sg|] eqn:Een; [|done]. destruct (_ && _); [done|]. injection Hp as <- <-.
  exists b, valid, consented. cbn [height prev change sigs]. split; [done|]. split; [done|]. split; [done|].
  destruct (consented_restore ch) as [member|].
  - destruct (restore_consent_at s ch target) as [k|e|]; [|done|done]. injection Hr as <- <-.
    split_and!; [|intros a [_ Ha]%list_elem_of_filter; by apply Hraw|done|done| |by exists k].
    + eapply sublist_NoDup; [exact Hnd|]. apply fmap_sublist, sublist_filter.
    + by intros a [? _]%list_elem_of_filter.
  - injection Hr as <- <-. by split_and!.
Qed.

(** A consent rides only a restore. *)
Definition consent_restores (c : ChainChange) : Prop :=
  match c with Membership op _ _ _ _ (Some _) => op = Restored | _ => True end.

Lemma sealed_signers id s s' block head : try_commit id s = Ok (s', Some block) → v_head s = Some head →
  head_ok head → republic_id_of s = hd_republic_id head → consent_restores (change block) →
  ∃ signers, block_signers (hd_republic_id head) (hd_identities head) block = Ok signers ∧
    (need_of head (change block) ≤ size signers)%nat.
Proof.
  intros Hp Hh [Hids _] Hrid Hcons. destruct (try_commit_block _ _ _ _ _ Hp Hh) as
    (b & valid & consented & _ & _ & Hb & Hnd & Hall & Hen & Hcr).
  destruct (enough_spec _ _ _ _ Hen) as (Hneed & Hsub & Hnd').
  destruct (valid_signers_all head b (sigs block) Hids (Hnd' Hnd)) as [Hset Hsize].
  { intros a Ha. by apply Hall, Hsub. }
  unfold block_signers. rewrite <-Hrid, Hb. cbn [expect obind]. rewrite Hset in *.
  destruct (change block) as [| |op member pk npk relays [consent|]| | |] eqn:Ec; cbn in Hcons, Hcr;
    try (exists (list_to_set (att_member <$> sigs block)); split; [done|]; subst; lia).
  - subst op. cbn in Hcr. destruct Hcr as (-> & Hne & k & Hk). rewrite bool_decide_eq_true_2 by done. cbn [negb].
    assert (Hnot : member ∉ (list_to_set (att_member <$> sigs block) : gset string)).
    { rewrite elem_of_list_to_set, list_elem_of_fmap. intros (a & Hm & Ha). by apply (Hne a (Hsub a Ha)). }
    rewrite bool_decide_eq_false_2 by done. cbn in Hk. rewrite Hh in Hk.
    destruct (find_member (hd_identities head) member) as [i|]; [|done]. cbn [fmap option_fmap option_map ok_or obind].
    apply obind_ok in Hk as (kind & Hv%omap_err_ok & _). rewrite Hv. cbn [omap_err obind].
    eexists. split; [done|]. rewrite size_union, size_singleton by set_solver. lia.
  - destruct op; subst; exists (list_to_set (att_member <$> sigs block)); (split; [done|lia]).
Qed.

End Seal.

(** C5: what this node seals, the verifier counts.  A block handed over by
    [try_commit], on a head whose table names each seat once, follows that head
    and links to it; the verifier accepts its signatures and its consent, and
    finds the threshold reached (every seat, for a cut), so that only the
    change's own rules are left to check; and no signature on it is by a member
    who at that moment declines. *)
Theorem sealed_block_counts `{Env} (id : N) (s s' : Votes) (block : ChainBlock) (head : ChainHead) :
  try_commit id s = Ok (s', Some block) → v_head s = Some head →
  head_ok head → republic_id_of s = hd_republic_id head → consent_restores (change block) →
  (∀ a, a ∈ sigs block → att_member a ∉ decliners_of s id) ∧
  (∃ signers, block_signers (hd_republic_id head) (hd_identities head) block = Ok signers ∧
     (need_of head (change block) ≤ size signers)%nat) ∧
  ∀ seen, verify_next head block seen =
    (let? consumed := check_change block seen in
     let? identities :=
       match change block with
       | Membership op member identity_pk _ _ _ => apply_membership (hd_identities head) op member identity_pk
       | _ => Ok (hd_identities head)
       end in
     let? hash := expect (block_hash (hd_republic_id head) block) in
     Ok ({| hd_height := height block; hd_hash := hash; hd_republic_id := hd_republic_id head;
            hd_rule_m := hd_rule_m head; hd_identities := identities |}, consumed)).
Proof.
  intros Hp Hh Hok Hrid Hcons.
  destruct (try_commit_block _ _ _ _ _ Hp Hh) as (b & valid & consented & Hnext & Hprev & _ & _ & Hall & Hen & _).
  destruct (enough_spec _ _ _ _ Hen) as (_ & Hsub & _).
  destruct (sealed_signers _ _ _ _ _ Hp Hh Hok Hrid Hcons) as (signers & Hs & Hneed).
  split; [intros a Ha; by apply Hall, Hsub|]. split; [by exists signers|]. intros seen.
  unfold verify_next. rewrite Hnext, Hprev. cbn [expect obind]. rewrite N.eqb_refl, bool_decide_eq_true_2 by done. cbn [negb].
  destruct (check_change block seen); cbn [obind]; [|done|done]. rewrite Hs. cbn [obind].
  destruct (N.ltb_spec (N.of_nat (size signers)) (hd_rule_m head)) as [Hlt|_]; [|done]. exfalso.
  destruct Hok as [_ Hm]. unfold need_of, len in *. destruct (cut_of _); lia.
Qed.

(** ** Declines and the order of arrival *)

Section Order.
Context `{Env, VaultSerde}.

Definition decline_all (id : N) (voices : list Voice) (s : Votes) : Votes :=
  foldl (λ s v, (register_decline id v.1.1 v.1.2 v.2 s).1) s voices.

Lemma drain_is_decline_all id voices s : (drain_voices id voices s).1.1 = decline_all id voices s.
Proof.
  revert s. induction voices as [|[[by_ ts] hash] voices IH]; intros s; [done|]. cbn [drain_voices decline_all foldl fst snd].
  destruct (register_decline id by_ ts hash s) as [s1 o]. specialize (IH s1). cbn [fst].
  destruct (drain_voices id voices s1) as [[s2 vs] rj]. by destruct o.
Qed.

(** A state with some voices parked under [id]. *)
Definition parked_with (id : N) (l : list Voice) (s : Votes) : Votes :=
  with_parks <[id := l]> id_ (N.max (v_next_id s) (u64_saturating_add id 1)) s.

Lemma plausible_parked id l s : plausible_wire_id s id = true → plausible_wire_id (parked_with id l s) id = true.
Proof. unfold plausible_wire_id, u64_saturating_add. cbn. rewrite !N.leb_le. lia. Qed.

Lemma park_first id v s : v_cards s !! id = None → v_parked s !! id = None → plausible_wire_id s id = true →
  park_full s v.1.1 = false → (register_decline id v.1.1 v.1.2 v.2 s).1 = parked_with id [v] s.
Proof.
  intros Hc Hp Hid Hfull. unfold register_decline. rewrite Hc. unfold park_decline. rewrite Hid. cbn [negb]. cbv zeta.
  replace (park_full (with_parks _ _ _ s) v.1.1) with (park_full s v.1.1) by done.
  rewrite Hfull, andb_false_r. cbn [fst]. unfold parked_with.
  replace (v_parked (with_parks id_ id_ (N.max (v_next_id s) (u64_saturating_add id 1)) s) !! id) with (@None (list Voice)) by done.
  by destruct v as [[? ?] ?].
Qed.

Lemma park_next id l v s : v_cards s !! id = None → plausible_wire_id s id = true → v.1.1 ∉ l.*1.*1 →
  (register_decline id v.1.1 v.1.2 v.2 (parked_with id l s)).1 = parked_with id (l ++ [v]) s.
Proof.
  intros Hc Hid Hv. unfold register_decline.
  replace (v_cards (parked_with id l s) !! id) with (@None ProposalRecord) by done.
  unfold park_decline. rewrite plausible_parked by done. cbn [negb]. cbv zeta.
  set (s1 := with_parks id_ id_ _ (parked_with id l s)).
  assert (Hl : v_parked s1 !! id = Some l) by (cbn; apply lookup_insert_eq). rewrite Hl.
  rewrite bool_decide_eq_true_2 by (by eexists). cbn [negb andb fst default].
  replace (existsb (λ v0 : Voice, bool_decide (v0.1.1 = v.1.1)) l) with false.
  - unfold parked_with, with_parks, s1. cbn. f_equal; [lia|]. rewrite insert_insert_eq. by destruct v as [[? ?] ?].
  - symmetry. apply existsb_false. intros x Hx. apply bool_decide_eq_false. intros He. apply Hv. rewrite <-He.
    by apply list_elem_of_fmap_2, list_elem_of_fmap_2.
Qed.

Lemma park_all id v voices s : v_cards s !! id = None → v_parked s !! id = None → plausible_wire_id s id = true →
  park_full s v.1.1 = false → NoDup (v :: voices).*1.*1 →
  decline_all id (v :: voices) s = parked_with id (v :: voices) s.
Proof.
  intros Hc Hp Hid Hfull Hnd. cbn [decline_all foldl]. rewrite park_first by done.
  fold (decline_all id voices (parked_with id [v] s)).
  change (v :: voices) with ([v] ++ voices) in *. revert Hnd. generalize [v] as l. clear v Hfull.
  induction voices as [|v voices IH]; intros l Hnd; [by rewrite app_nil_r|].
  cbn [decline_all foldl]. rewrite park_next; [|done|done|].
  - replace (l ++ v :: voices) with ((l ++ [v]) ++ voices) by (by rewrite <-app_assoc).
    apply IH. by rewrite <-app_assoc.
  - rewrite !fmap_app in Hnd. csimpl in Hnd. apply NoDup_app in Hnd as (_ & Hd & _). intros Hin. apply (Hd _ Hin). constructor.
Qed.

(** ** The park is invisible to a card's arrival *)

Definition with_park (id : N) (l : list Voice) (s : Votes) : Votes := with_parks <[id := l]> id_ (v_next_id s) s.

(** An operation that neither reads nor writes the park. *)
Record parkless (f : Votes → run Votes) : Prop := {
  pl_park id l s : f (with_park id l s) = (let? s' := f s in Ok (with_park id l s'));
  pl_same s s' : f s = Ok s' → v_parked s' = v_parked s;
}.

Lemma parkless_ok : parkless (λ s, Ok s).
Proof. split; [done|]. by intros s s' [= <-]. Qed.

Lemma parkless_bind f g : parkless f → parkless g → parkless (λ s, let? s := f s in g s).
Proof.
  intros Hf Hg. split.
  - intros id l s. rewrite (pl_park f Hf). destruct (f s) as [s1|e|]; [|done|done]. cbn [obind]. apply (pl_park g Hg).
  - intros s s' (s1 & H1 & H2)%obind_ok. by rewrite (pl_same g Hg _ _ H2), (pl_same f Hf _ _ H1).
Qed.

(** A choice by what the park has no part in. *)
Lemma parkless_read {A} (r : Votes → outcome Empty_set A) (f : A → Votes → run Votes) :
  (∀ id l s, r (with_park id l s) = r s) → (∀ a, parkless (f a)) → parkless (λ s, let? a := r s in f a s).
Proof.
  intros Hr Hf. split.
  - intros id l s. rewrite Hr. destruct (r s) as [a|e|]; [|done|done]. cbn [obind]. apply (pl_park _ (Hf a)).
  - intros s s' (a & _ & Hp)%obind_ok. by apply (pl_same _ (Hf a)) in Hp.
Qed.

Lemma parkless_case {A} (r : Votes → A) (f : A → Votes → run Votes) :
  (∀ id l s, r (with_park id l s) = r s) → (∀ a, parkless (f a)) → parkless (λ s, f (r s) s).
Proof. intros Hr Hf. split; [intros id l s; rewrite Hr; apply (pl_park _ (Hf (r s)))|intros s s'; apply (pl_same _ (Hf (r s)))]. Qed.

Lemma parkless_cards g : parkless (λ s, Ok (with_cards g s)).
Proof. split; [done|]. by intros s s' [= <-]. Qed.
Lemma parkless_standing g : parkless (λ s, Ok (with_standing g s)).
Proof. split; [done|]. by intros s s' [= <-]. Qed.

Lemma parkless_stash id : parkless (λ s, Ok (stash_voted id s)).
Proof.
  apply (parkless_case (λ s, match v_pending s !! id with Some p => att_member <$> pa_sigs p | None => [] end)
    (λ l s, Ok (match l with [] => s | _ => with_cards (alter (card_voted l) id) s end))); [done|].
  intros [|m ms]; [apply parkless_ok|apply parkless_cards].
Qed.

Lemma parkless_foldl (f : Votes → N → Votes) ids : (∀ i, parkless (λ s, Ok (f s i))) → parkless (λ s, Ok (foldl f s ids)).
Proof.
  intros Hf. induction ids as [|i ids IH]; [apply parkless_ok|]. cbn [foldl]. apply (parkless_bind _ _ (Hf i) IH).
Qed.

Lemma parkless_retire id : parkless (λ s, Ok (retire id s)).
Proof. exact (parkless_bind _ _ (parkless_cards _) (parkless_stash id)). Qed.

Lemma parkless_vault : parkless supersede_stale_vault_cards.
Proof.
  apply (parkless_case (λ s, vault_base_pending (v_standing s)) (λ (b : bool) s, if b then Ok s else
    let? st := vault_state (republic_id_of s) (v_standing s) in
    let? l := judge_vault_cards st (republic_id_of s) (map_to_list (v_cards s)) in
    Ok (foldl (λ s id, with_cards (alter card_reopened id) s) (foldl (λ s id, retire id s) s l.1) l.2))); [done|].
  intros []; [apply parkless_ok|]. apply parkless_read; [done|]. intros st. apply parkless_read; [done|]. intros l.
  apply (parkless_bind (λ s, Ok (foldl (λ s id, retire id s) s l.1))
    (λ s, Ok (foldl (λ s id, with_cards (alter card_reopened id) s) s l.2))); apply parkless_foldl; intros i;
    [apply parkless_retire|apply parkless_cards].
Qed.

Lemma parkless_after_vault id : parkless (after_vault_proposed id).
Proof.
  apply (parkless_case (λ s, v_cards s !! id) (λ c s, match c with
    | None => Ok s
    | Some p => match op_from_value (p_payload p) with
      | Some (Deposit d) =>
          let? s := supersede_stale_vault_cards s in
          if is_open s id then let? _ := expect (secret_id (republic_id_of s) d) in Ok s else Ok s
      | Some (Grant _) => supersede_stale_vault_cards s
      | _ => Ok s
      end end)); [done|].
  intros [p|]; [|apply parkless_ok]. destruct (op_from_value (p_payload p)) as [[d|g|r]|]; try apply parkless_ok; [|apply parkless_vault].
  apply parkless_bind; [apply parkless_vault|].
  apply (parkless_case (λ s, is_open s id) (λ (b : bool) s, if b then let? _ := expect (secret_id (republic_id_of s) d) in Ok s else Ok s)); [done|].
  intros []; [|apply parkless_ok]. apply parkless_read; [done|]. intros _. apply parkless_ok.
Qed.

Lemma parkless_wiki moved : parkless (supersede_stale_wiki moved).
Proof.
  apply (parkless_case (λ s, v_standing s) (λ st s, if st_adopting st then Ok s else match wiki_cands (v_cards s) with
    | [] => Ok (with_standing (set_replay ∅) s)
    | cands => match wiki_base st with
        | Panic => Panic
        | Err _ => Ok s
        | Ok base =>
            let l := foldr (judge_wiki base.1 moved (st_replay st) (st_chain st)) ([], []) cands in
            Ok (foldl (λ s id, retire id s) (foldl (λ s id, with_cards (alter card_rebased id) s) (with_standing (set_replay ∅) s) l.1) l.2)
        end end)); [done|].
  intros st. destruct (st_adopting st); [apply parkless_ok|].
  apply (parkless_case (λ s, wiki_cands (v_cards s)) (λ c s, match c with [] => _ | _ => _ end)); [done|].
  intros [|c cands]; [apply parkless_standing|]. destruct (wiki_base st) as [base|e|]; [|apply parkless_ok|by split].
  set (l := foldr _ _ _).
  apply (parkless_bind (λ s, Ok (with_standing (set_replay ∅) s)) (λ s, Ok (foldl (λ s id, retire id s)
    (foldl (λ s id, with_cards (alter card_rebased id) s) s l.1) l.2))); [apply parkless_standing|].
  apply (parkless_bind (λ s, Ok (foldl (λ s id, with_cards (alter card_rebased id) s) s l.1))
    (λ s, Ok (foldl (λ s id, retire id s) s l.2))); apply parkless_foldl; intros i;
    [apply parkless_cards|apply parkless_retire].
Qed.

Lemma parkless_reverify_each id h sigs : parkless (reverify_each id h sigs).
Proof.
  induction sigs as [|a sigs IH]; [apply parkless_ok|]. cbn [reverify_each].
  apply parkless_read; [done|]. intros [|]; [|exact IH].
  apply (parkless_bind (λ s, Ok (note_signer (att_member a) h (mark_verified id (att_member a) s)))); [|exact IH].
  split; [done|]. by intros s s' [= <-].
Qed.

Lemma parkless_reverify id : parkless (reverify_pending id).
Proof.
  apply (parkless_case (λ s, v_pending s !! id) (λ o s, match o with
    | None => Ok s
    | Some p => reverify_each id (pa_height p) (filter (λ a, att_member a ∉ pa_verified p) (pa_sigs p)) s end)); [done|].
  intros [p|]; [apply parkless_reverify_each|apply parkless_ok].
Qed.

(** What a card's arrival sets off. *)
Definition arrival (id : N) (surface : Surface) (s : Votes) : run Votes :=
  let? s := if decide (surface = Vault) then after_vault_proposed id s else Ok s in
  let? s := if decide (surface = Memory) then supersede_stale_wiki None s else Ok s in
  reverify_pending id s.

Lemma parkless_arrival id surface : parkless (arrival id surface).
Proof.
  apply parkless_bind; [destruct (decide _); [apply parkless_after_vault|apply parkless_ok]|].
  apply parkless_bind; [destruct (decide _); [apply parkless_wiki|apply parkless_ok]|apply parkless_reverify].
Qed.

(** The card's entry, before and after a park. *)
Lemma admit_parked id l surface payload by_ s s2 : v_cards s !! id = None →
  admit_card id surface payload by_ s = Ok (s2, true) →
  admit_card id surface payload by_ (parked_with id l s) = Ok (with_park id l s2, true) ∧ v_parked s2 = v_parked s.
Proof.
  intros Hc. unfold admit_card. cbv zeta. rewrite !Hc.
  replace (v_cards (parked_with id l s) !! id) with (@None ProposalRecord) by done.
  set (full := (OPEN_CARDS_PER_PROPOSER_MAX <=? _)%nat). rewrite (bool_decide_eq_false_2 (is_Some None)) by (by intros []).
  cbn [negb andb]. destruct full; [done|].
  set (t := with_parks id_ id_ _ s). set (u := with_parks id_ id_ _ (parked_with id l s)).
  assert (Hu : u = with_park id l t).
  { unfold u, t, with_park, parked_with, with_parks. cbn. f_equal. lia. }
  rewrite Hu. change (v_changes (with_park id l t)) with (v_changes t).
  destruct (bool_decide (is_Some (v_changes t !! id))); [done|].
  change (v_seen (with_park id l t)) with (v_seen t). destruct (bool_decide (id ∈ v_seen t)); [done|].
  replace (v_cards t !! id) with (@None ProposalRecord) by done.
  replace (v_cards (with_park id l t) !! id) with (@None ProposalRecord) by done.
  pose proof (parkless_arrival id surface) as Hpl.
  assert (Harr : ∀ c, (let? s := if decide (surface = Vault) then after_vault_proposed id c else Ok c in
    let? s := if decide (surface = Memory) then supersede_stale_wiki None s else Ok s in
    let? s := reverify_pending id s in Ok (s, true)) = (let? s := arrival id surface c in Ok (s, true))).
  { intros c. unfold arrival. destruct (decide (surface = Vault)), (decide (surface = Memory)); cbn [obind]; try done;
      [|destruct (after_vault_proposed _ _)|destruct (supersede_stale_wiki _ _)]; try done; subst; done. }
  rewrite !Harr. change (with_cards ?f (with_park id l t)) with (with_park id l (with_cards f t)).
  set (c := with_cards _ t). rewrite (pl_park _ Hpl). destruct (arrival id surface c) as [c'|e|] eqn:Er; cbn [obind]; [|done|done].
  intros [= <-]. split; [done|]. by rewrite (pl_same _ Hpl _ _ Er).
Qed.

End Order.

(** C32: a decline counts the same before and after its card.  Take any voices
    against an id, each by another member: parked while the card is unknown and
    drained when it arrives, they leave the state exactly as when the card
    comes first and each is registered on arrival, with what a vault or a
    memory card's arrival sets off.  The id is within the window, nothing is
    parked for it yet, and the park has room for the first of the voices. *)
Theorem decline_order_irrelevant `{Env, VaultSerde} (id : N) (v : Voice) (voices : list Voice) (surface : Surface) (payload : Value)
    (by_ : string) (s s2 : Votes) :
  v_cards s !! id = None → v_parked s !! id = None → plausible_wire_id s id = true → park_full s v.1.1 = false →
  NoDup (v :: voices).*1.*1 →
  admit_card id surface payload by_ s = Ok (s2, true) →
  ∃ s1, admit_card id surface payload by_ (decline_all id (v :: voices) s) = Ok (s1, true) ∧
    (register_parked_declines id s1).1.1 = decline_all id (v :: voices) s2.
Proof.
  intros Hc Hp Hid Hfull Hnd Ha. rewrite park_all by done.
  destruct (admit_parked id (v :: voices) surface payload by_ s s2 Hc Ha) as [Hadm Hpk].
  eexists. split; [exact Hadm|]. unfold register_parked_declines, with_park. cbn [v_parked with_parks].
  rewrite lookup_insert_eq, drain_is_decline_all. f_equal.
  unfold with_parks. cbn. unfold id_. rewrite delete_insert_id by (by rewrite Hpk). by destruct s2.
Qed.

(** ** When declines turn a card down *)

(** A card is turned down exactly when approval is out of reach.  A fresh
    voice against an open card (not the purse's first card, which one decline
    ends) rejects it exactly when the roster members who do not decline are
    fewer than the threshold; otherwise the card stays open with one voice
    more. *)
Theorem decline_tips_exactly `{Env} (id : N) (by_ : string) (ts : N) (s : Votes) (p : ProposalRecord) (r : Replica) :
  v_cards s !! id = Some p → v_replica s = Some r → p_state p = Proposed → is_init (p_payload p) = false →
  NoDup (rp_roster r) → NoDup (p_decliners p ++ [by_]) → (∀ m, m ∈ p_decliners p ++ [by_] → m ∈ rp_roster r) →
  let remaining := filter (λ m, m ∉ p_decliners p ++ [by_]) (rp_roster r) in
  let need := Nat.max (N.to_nat (rp_rule_m r)) 1 in
  (register_decline id by_ ts "" s).2 = (if decide (length remaining < need)%nat then DRejected else DVoice) ∧
  ∃ p', v_cards (register_decline id by_ ts "" s).1 !! id = Some p' ∧
    p_decliners p' = p_decliners p ++ [by_] ∧
    p_state p' = (if decide (length remaining < need)%nat then Rejected else Proposed).
Proof.
  intros Hc Hr Hst Hinit Hro Hnd Hsub remaining need.
  assert (Hlen : (length remaining + length (p_decliners p ++ [by_]) = length (rp_roster r))%nat).
  { unfold remaining. rewrite <-length_app. apply Permutation_length, NoDup_Permutation; [|done|].
    - apply NoDup_app. split; [by apply NoDup_filter|]. split; [|done]. by intros x [? _]%list_elem_of_filter.
    - intros x. rewrite elem_of_app, list_elem_of_filter. split; [intros [[? ?]|?]; [done|by apply Hsub]|].
      intros Hx. destruct (decide (x ∈ p_decliners p ++ [by_])); [by right|by left]. }
  assert (Hby : by_ ∉ p_decliners p).
  { apply NoDup_app in Hnd as (_ & Hd & _). intros Hin. apply (Hd _ Hin). constructor. }
  unfold register_decline. rewrite Hc, Hst. cbn [str_empty negb andb].
  rewrite (bool_decide_eq_true_2 (Proposed = Proposed)), (bool_decide_eq_false_2 (by_ ∈ p_decliners p)) by done. cbn [negb orb].
  set (s1 := if bool_decide (by_ = _) then _ else _).
  assert (Hs1 : v_cards s1 = v_cards s ∧ v_replica s1 = v_replica s) by (unfold s1; by destruct (bool_decide _)).
  destruct Hs1 as [Hc1 Hr1].
  assert (Hveto : veto_room (with_cards (alter (card_declined by_) id) s1) p = (length (rp_roster r) - need)%nat).
  { unfold veto_room. rewrite Hinit, andb_false_r. cbn [v_replica with_cards]. by rewrite Hr1, Hr. }
  rewrite Hveto.
  assert (Hcard : v_cards (with_cards (alter (card_declined by_) id) s1) !! id = Some (card_declined by_ p)).
  { cbn. by rewrite lookup_alter_eq, Hc1, Hc. }
  destruct (Nat.ltb_spec (length (rp_roster r) - need) (length (p_decliners p ++ [by_]))) as [Hlt|Hge].
  - rewrite !decide_True by lia. split; [done|]. cbn [fst].
    assert (Hrej : v_cards (with_cards (alter (card_rejected ts by_) id) (with_cards (alter (card_declined by_) id) s1)) !! id =
      Some (card_rejected ts by_ (card_declined by_ p))).
    { cbn [v_cards with_cards] in *. by rewrite lookup_alter_eq, Hcard. }
    unfold stash_voted. destruct (match v_pending _ !! id with Some _ => _ | None => _ end) as [|m ms].
    + exists (card_rejected ts by_ (card_declined by_ p)). split; [exact Hrej|done].
    + exists (card_voted (m :: ms) (card_rejected ts by_ (card_declined by_ p))).
      split; [|done]. cbn [v_cards with_cards] in *. by rewrite lookup_alter_eq, Hrej.
  - assert (1 ≤ length (p_decliners p ++ [by_]))%nat by (rewrite length_app; cbn; lia).
    rewrite !decide_False by lia. split; [done|]. exists (card_declined by_ p).
    split; [exact Hcard|]. split; [done|exact Hst].
Qed.
