(* ===== verification/VotesInv.v ===== *)
(** * The invariant of the votes

    The steps that change the votes, as a relation: an approval, a decline or a
    withdrawal from the wire, a card's arrival with what was parked for it, the
    own approval, an attempt to seal, and a decided vote's clean-up.  What holds of the registers
    after any sequence of them, and what a decided card keeps. *)

From stdpp Require Import relations.
From S2P Require Import Prelude Bytes Strs Json Env Surface Roster Chain Checkpoint WikiFold Vault Cuts Standing Ledger Verify Votes VotesProps.

Section Invariant.
Context `{Env, VaultSerde}.

(** One operation on the votes. *)
Inductive vote_step (s : Votes) : Votes → Prop :=
  | StepApproval id by_ h sig s' beyond block :
      receive_approval id by_ h sig s = Ok (s', beyond, block) → vote_step s s'
  | StepDecline id by_ ts hash : vote_step s (register_decline id by_ ts hash s).1
  | StepWithdraw id by_ ts : vote_step s (register_withdraw id by_ ts s).1
  | StepCard id surface payload by_ s1 :
      admit_card id surface payload by_ s = Ok (s1, true) →
      vote_step s (register_parked_declines id (register_parked_withdrawal id s1).1).1.1
  | StepCardRefused id surface payload by_ s1 :
      admit_card id surface payload by_ s = Ok (s1, false) → vote_step s s1
  | StepOwn id h sig :
      approval_verifies s id h (v_me s) sig = Ok true →
      vote_step s (note_signer (v_me s) h (mark_verified id (v_me s)
        (collect_sig id h (v_me s) sig true (with_own (λ o, {[id]} ∪ o) (retract_decline id s)))))
  | StepCommit id s' block : try_commit id s = Ok (s', block) → vote_step s s'
  | StepForget id : vote_step s (forget_vote id s).

(** ** Decided cards *)

(** A vault card that a replace turned down: [supersede_stale_vault_cards] may
    reopen it. *)
Definition reopens (p : ProposalRecord) : Prop :=
  p_surface p = Vault ∧ p_state p = Rejected ∧ p_superseded p = true ∧ p_superseded_kind p = Some Conflict.

(** What a decided card keeps. *)
Definition verdict (p : ProposalRecord) : ProposalState * bool * bool * option SupersededKind :=
  (p_state p, p_withdrawn p, p_superseded p, p_superseded_kind p).

(** What later steps keep of a card: its change always, its verdict once it
    has one that no pass reopens. *)
Definition keeps (p p' : ProposalRecord) : Prop :=
  p_surface p' = p_surface p ∧ p_payload p' = p_payload p ∧
  (p_state p ≠ Proposed → verdict p' = verdict p ∨ reopens p).

Definition cards_keep (s s' : Votes) : Prop :=
  ∀ id p, v_cards s !! id = Some p → ∃ p', v_cards s' !! id = Some p' ∧ keeps p p'.

#[local] Instance keeps_refl : Reflexive keeps.
Proof. intros p. split; [done|]. split; [done|]. intros _. by left. Qed.
#[local] Instance keeps_trans : Transitive keeps.
Proof.
  intros p q r (H1 & H2 & H3) (H4 & H5 & H6). split; [congruence|]. split; [congruence|]. intros Hp.
  destruct (H3 Hp) as [Hv|?]; [|by right]. pose proof Hv as [= Hs _ Hsup Hkind].
  destruct H6 as [Hv'|(Hq1 & Hq2 & Hq3 & Hq4)]; [congruence|left; congruence|right]. unfold reopens. split_and!; congruence.
Qed.
#[local] Instance cards_keep_refl : Reflexive cards_keep.
Proof. intros s id p Hp. by exists p. Qed.
#[local] Instance cards_keep_trans : Transitive cards_keep.
Proof.
  intros s t u Hst Htu id p Hp. destruct (Hst id p Hp) as (q & Hq & Hpq). destruct (Htu id q Hq) as (r & Hr & Hqr).
  exists r. split; [done|]. by etrans.
Qed.

Lemma cards_keep_eq s s' : v_cards s' = v_cards s → cards_keep s s'.
Proof. intros He id p Hp. exists p. by rewrite He. Qed.

Lemma cards_keep_alter f id s s' : v_cards s' = alter f id (v_cards s) →
  (∀ p, v_cards s !! id = Some p → keeps p (f p)) → cards_keep s s'.
Proof.
  intros He Hf x p Hp. rewrite He. destruct (decide (x = id)) as [->|].
  - exists (f p). rewrite lookup_alter_eq, Hp. split; [done|by apply Hf].
  - exists p. by rewrite lookup_alter_ne.
Qed.

(** A change of a card that is open, or of nothing its verdict names. *)
Lemma keeps_open p p' : p_surface p' = p_surface p → p_payload p' = p_payload p → p_state p = Proposed → keeps p p'.
Proof. intros H1 H2 H3. split; [done|]. split; [done|]. by rewrite H3. Qed.
Lemma keeps_same p p' : p_surface p' = p_surface p → p_payload p' = p_payload p → verdict p' = verdict p → keeps p p'.
Proof. intros H1 H2 H3. split; [done|]. split; [done|]. by left. Qed.

Lemma stash_voted_keep id s : cards_keep s (stash_voted id s).
Proof.
  unfold stash_voted. destruct (match v_pending s !! id with Some _ => _ | None => _ end) as [|m ms]; [done|].
  eapply cards_keep_alter; [done|]. intros p _. by apply keeps_same.
Qed.

Lemma stash_voted_other id x s : x ≠ id → v_cards (stash_voted id s) !! x = v_cards s !! x.
Proof.
  intros Hx. unfold stash_voted. destruct (match v_pending s !! id with Some _ => _ | None => _ end) as [|m ms]; [done|].
  cbn. by rewrite lookup_alter_ne.
Qed.

(** *** The passes *)

(** Each card of a list of distinct ids is changed once. *)
Lemma foldl_cards_keep (f : Votes → N → Votes) (Q : ProposalRecord → Prop) ids : NoDup ids →
  (∀ s id, (∀ p, v_cards s !! id = Some p → Q p) → cards_keep s (f s id)) →
  (∀ s id x, x ≠ id → v_cards (f s id) !! x = v_cards s !! x) →
  ∀ s, (∀ id p, id ∈ ids → v_cards s !! id = Some p → Q p) →
  cards_keep s (foldl f s ids) ∧ ∀ x, x ∉ ids → v_cards (foldl f s ids) !! x = v_cards s !! x.
Proof.
  intros Hnd Hf Ho. induction Hnd as [|id ids Hid _ IH]; intros s Hq; [done|]. cbn [foldl].
  destruct (IH (f s id)) as [Hk Hx].
  { intros x p Hx. rewrite Ho by (intros ->; done). apply Hq. by right. }
  split.
  - transitivity (f s id); [|done]. apply Hf. intros p. apply Hq. left.
  - intros x [Hne Hin]%not_elem_of_cons. rewrite Hx by done. by apply Ho.
Qed.

Lemma retire_keep id s : (∀ p, v_cards s !! id = Some p → p_state p = Proposed) → cards_keep s (retire id s).
Proof.
  intros Hp. unfold retire. etrans; [|apply stash_voted_keep]. eapply cards_keep_alter; [done|].
  intros p Hc. apply keeps_open; [done|done|by apply Hp].
Qed.
Lemma retire_other id x s : x ≠ id → v_cards (retire id s) !! x = v_cards s !! x.
Proof. intros Hx. unfold retire. rewrite stash_voted_other by done. cbn. by rewrite lookup_alter_ne. Qed.

Lemma retire_all_keep ids s : NoDup ids → (∀ id p, id ∈ ids → v_cards s !! id = Some p → p_state p = Proposed) →
  cards_keep s (foldl (λ s id, retire id s) s ids) ∧
  ∀ x, x ∉ ids → v_cards (foldl (λ s id, retire id s) s ids) !! x = v_cards s !! x.
Proof.
  intros Hnd. apply (foldl_cards_keep (λ s id, retire id s)); [done|intros; by apply retire_keep|intros; by apply retire_other].
Qed.

Lemma alter_all_keep f (Q : ProposalRecord → Prop) ids s : NoDup ids → (∀ p, Q p → keeps p (f p)) →
  (∀ id p, id ∈ ids → v_cards s !! id = Some p → Q p) →
  cards_keep s (foldl (λ s id, with_cards (alter f id) s) s ids) ∧
  ∀ x, x ∉ ids → v_cards (foldl (λ s id, with_cards (alter f id) s) s ids) !! x = v_cards s !! x.
Proof.
  intros Hnd Hf. apply (foldl_cards_keep (λ s id, with_cards (alter f id) s)); [done| |].
  - intros t id Hq. eapply cards_keep_alter; [done|]. auto.
  - intros t id x Hx. cbn. by rewrite lookup_alter_ne.
Qed.

(** What the pass over the vault cards picks: open cards to retire, and cards
    to reopen, of the ids it is given. *)
Lemma judge_vault_picks st rid cards l : judge_vault_cards st rid cards = Ok l → NoDup cards.*1 →
  NoDup l.1 ∧ NoDup l.2 ∧
  (∀ id, id ∈ l.1 → ∃ p, (id, p) ∈ cards ∧ p_surface p = Vault ∧ p_state p = Proposed) ∧
  (∀ id, id ∈ l.2 → ∃ p, (id, p) ∈ cards ∧ reopens p).
Proof.
  revert l. induction cards as [|[id p] cards IH]; intros l Hl Hnd; cbn [judge_vault_cards] in Hl.
  { injection Hl as <-. split_and!; [constructor|constructor|by intros ? ?%elem_of_nil..]. }
  csimpl in Hnd. apply NoDup_cons in Hnd as [Hid Hnd].
  apply obind_ok in Hl as (o & Ho & Hl). apply obind_ok in Hl as (l1 & Hl1 & Hl). injection Hl as <-.
  destruct (IH l1 Hl1 Hnd) as (N1 & N2 & P1 & P2).
  assert (Hin1 : id ∉ l1.1) by (intros (q & Hq & _)%P1; apply Hid; by apply (list_elem_of_fmap_2 fst) in Hq).
  assert (Hin2 : id ∉ l1.2) by (intros (q & Hq & _)%P2; apply Hid; by apply (list_elem_of_fmap_2 fst) in Hq).
  assert (Hold1 : ∀ x, x ∈ l1.1 → ∃ p0, (x, p0) ∈ (id, p) :: cards ∧ p_surface p0 = Vault ∧ p_state p0 = Proposed).
  { intros x (q & ? & ?)%P1. exists q. split; [by right|done]. }
  assert (Hold2 : ∀ x, x ∈ l1.2 → ∃ p0, (x, p0) ∈ (id, p) :: cards ∧ reopens p0).
  { intros x (q & ? & ?)%P2. exists q. split; [by right|done]. }
  unfold judge_vault. destruct o as [replaced|]; [|done]. destruct (decide (p_surface p = Vault)) as [Hv|]; [|done].
  destruct (p_state p) eqn:Est; [destruct replaced|done|destruct (negb replaced && _ && _) eqn:Er]; cbn [fst snd]; try done.
  - split_and!; [by constructor|done| |done]. intros x [->|Hx]%elem_of_cons; [|by apply Hold1]. exists p. split; [left|done].
  - apply andb_true_iff in Er as [[_ Hsup]%andb_true_iff Hk%bool_decide_eq_true].
    split_and!; [done|by constructor|done|]. intros x [->|Hx]%elem_of_cons; [|by apply Hold2].
    exists p. split; [left|]. by split_and!.
Qed.

Lemma vault_pass_keep s s' : supersede_stale_vault_cards s = Ok s' → cards_keep s s'.
Proof.
  unfold supersede_stale_vault_cards. destruct (vault_base_pending _); [by intros [= <-]|].
  intros (st & _ & Hp)%obind_ok. apply obind_ok in Hp as (l & Hl & Hp). injection Hp as <-.
  destruct (judge_vault_picks _ _ _ _ Hl (NoDup_fst_map_to_list _)) as (N1 & N2 & P1 & P2).
  destruct (retire_all_keep l.1 s N1) as [Hk1 Hx1].
  { intros id p (q & Hq%elem_of_map_to_list & _ & Hst)%P1 Hid. congruence. }
  etrans; [exact Hk1|]. apply (alter_all_keep card_reopened reopens); [done| |].
  - intros p Hp. split; [done|]. split; [done|]. intros _. by right.
  - intros id p Hid Hc. destruct (P2 id Hid) as (q & Hq%elem_of_map_to_list & Hr).
    rewrite Hx1 in Hc; [congruence|]. intros (q' & Hq'%elem_of_map_to_list & _ & Hst)%P1.
    destruct Hr as (_ & Hst' & _). congruence.
Qed.

Lemma after_vault_keep id s s' : after_vault_proposed id s = Ok s' → cards_keep s s'.
Proof.
  unfold after_vault_proposed. destruct (v_cards s !! id) as [p|]; [|by intros [= <-]].
  destruct (op_from_value (p_payload p)) as [[d|g|x]|]; try (by intros [= <-]); [|apply vault_pass_keep].
  intros (t & Ht & Hp)%obind_ok. apply vault_pass_keep in Ht. destruct (is_open t id); [|by injection Hp as <-].
  apply obind_ok in Hp as (sid & _ & Hp). by injection Hp as <-.
Qed.

(** What the pass over the wiki patches picks: each open card at most once. *)
Lemma judge_wiki_picks t moved replay blocks cands :
  let l := foldr (judge_wiki t moved replay blocks) ([], []) cands in
  (∀ id, id ∈ l.1 → id ∈ cands.*1) ∧ (∀ id, id ∈ l.2 → id ∈ cands.*1) ∧
  (NoDup cands.*1 → NoDup l.1 ∧ NoDup l.2 ∧ l.1 ## l.2).
Proof.
  cbv zeta. induction cands as [|e cands (I1 & I2 & I3)]; cbn [foldr].
  { split_and!; [by intros ? ?%elem_of_nil..|]. intros _. split_and!; [constructor|constructor|by intros ? ?%elem_of_nil]. }
  set (l := foldr _ _ cands) in *. clearbody l. csimpl. unfold judge_wiki.
  assert (Hkeep : (∀ id, id ∈ l.1 → id ∈ e.1 :: cands.*1) ∧ (∀ id, id ∈ l.2 → id ∈ e.1 :: cands.*1) ∧
    (NoDup (e.1 :: cands.*1) → NoDup l.1 ∧ NoDup l.2 ∧ l.1 ## l.2)).
  { split_and!; [intros; right; by apply I1|intros; right; by apply I2|]. intros [_ Hn]%NoDup_cons. by apply I3. }
  destruct (wiki_patch_files _) as [files|]; [|done]. cbv zeta.
  destruct (match moved with Some _ => _ | None => _ end); [done|].
  destruct (wiki_patch_applies t files); [destruct (_ || _); [|done]|]; cbn [fst snd]; (split_and!;
    [intros id; rewrite ?elem_of_cons; naive_solver|intros id; rewrite ?elem_of_cons; naive_solver|]);
    intros [Hn Hnd]%NoDup_cons; destruct (I3 Hnd) as (N1 & N2 & Hd); (split_and!; [try constructor; auto|try constructor; auto|]);
    intros x; rewrite ?elem_of_cons; naive_solver.
Qed.

Lemma wiki_pass_keep moved s s' : supersede_stale_wiki moved s = Ok s' → cards_keep s s'.
Proof.
  unfold supersede_stale_wiki. destruct (st_adopting _); [by intros [= <-]|].
  assert (Hopen : ∀ id p, id ∈ (wiki_cands (v_cards s)).*1 → v_cards s !! id = Some p → p_state p = Proposed).
  { intros id p Hid Hp. apply list_elem_of_fmap in Hid as ([id' q] & -> & Hin). apply list_elem_of_filter in Hin as [(_ & Hst & _) Hq].
    apply elem_of_map_to_list in Hq. cbn in *. congruence. }
  assert (Hnd : NoDup (wiki_cands (v_cards s)).*1).
  { eapply sublist_NoDup; [apply (NoDup_fst_map_to_list (v_cards s))|]. apply fmap_sublist, sublist_filter. }
  destruct (wiki_cands (v_cards s)) as [|c cands]; [intros [= <-]; by apply cards_keep_eq|].
  destruct (wiki_base _) as [base|e|]; [|by intros [= <-]|done]. cbv zeta.
  destruct (judge_wiki_picks base.1 moved (st_replay (v_standing s)) (st_chain (v_standing s)) (c :: cands)) as (P1 & P2 & P3).
  destruct (P3 Hnd) as (N1 & N2 & Hd). intros [= <-].
  set (l := foldr _ _ _) in *. set (s0 := with_standing (set_replay ∅) s).
  destruct (alter_all_keep card_rebased (λ p, p_state p = Proposed) l.1 s0 N1) as [Hk1 Hx1].
  { intros p Hp. by apply keeps_open. }
  { intros id p Hid. apply Hopen. by apply P1. }
  transitivity s0; [by apply cards_keep_eq|]. etrans; [exact Hk1|]. apply retire_all_keep; [done|].
  intros id p Hid. rewrite Hx1 by (intros Hin; by apply (Hd id)). apply Hopen. by apply P2.
Qed.

Lemma register_decline_keep id by_ ts hash s : cards_keep s (register_decline id by_ ts hash s).1.
Proof.
  unfold register_decline. destruct (v_cards s !! id) as [p|] eqn:Ep.
  2:{ unfold park_decline. destruct (negb _); [done|]. by destruct (_ && _); apply cards_keep_eq. }
  destruct (_ && _); [done|]. destruct (negb _ || _) eqn:Eo; [done|].
  apply orb_false_iff in Eo as [Hst%negb_false_iff%bool_decide_eq_true _].
  set (s1 := if bool_decide (by_ = _) then _ else _).
  assert (Hc1 : v_cards s1 = v_cards s) by (unfold s1; by destruct (bool_decide _)).
  assert (Hd : cards_keep s (with_cards (alter (card_declined by_) id) s1)).
  { eapply cards_keep_alter; [cbn; by rewrite Hc1|]. intros q _. by apply keeps_same. }
  destruct (_ <? _)%nat; cbn [fst]; [|done]. etrans; [|apply stash_voted_keep].
  eapply (cards_keep_alter (card_rejected ts by_ ∘ card_declined by_) id).
  - cbn. rewrite Hc1. apply map_eq. intros x. destruct (decide (x = id)) as [->|].
    + rewrite !lookup_alter_eq. by destruct (v_cards s !! id).
    + by rewrite !lookup_alter_ne.
  - intros q Hq. rewrite Ep in Hq. injection Hq as <-. apply keeps_open; [done|done|exact Hst].
Qed.

Lemma register_withdraw_keep id by_ ts s : cards_keep s (register_withdraw id by_ ts s).1.
Proof.
  unfold register_withdraw. destruct (v_cards s !! id) as [p|] eqn:Ep.
  2:{ destruct (negb _); [done|]. by destruct (_ && _); apply cards_keep_eq. }
  destruct (negb (bool_decide (p_state p = Proposed))) eqn:Est; [done|].
  apply negb_false_iff, bool_decide_eq_true in Est. destruct (negb _); [done|]. cbn [fst].
  transitivity (stash_voted id (with_cards (alter (card_withdrawn ts) id) s)); [|by apply cards_keep_eq].
  etrans; [|apply stash_voted_keep]. eapply cards_keep_alter; [done|].
  intros q Hq. rewrite Ep in Hq. injection Hq as <-. by apply keeps_open.
Qed.

Lemma drain_keep id l s : cards_keep s (drain_voices id l s).1.1.
Proof.
  rewrite drain_is_decline_all. revert s. induction l as [|v l IH]; intros s; [done|]. cbn.
  etrans; [apply register_decline_keep|apply IH].
Qed.

Lemma reverify_cards id h l s s' : reverify_each id h l s = Ok s' → v_cards s' = v_cards s.
Proof.
  revert s. induction l as [|a l IH]; intros s Hp; cbn [reverify_each] in Hp; [by apply Ok_inj in Hp as <-|].
  apply obind_ok in Hp as (ok & _ & Hp). rewrite (IH _ Hp). by destruct ok.
Qed.

Lemma admit_keep id surface payload by_ s s1 ok : admit_card id surface payload by_ s = Ok (s1, ok) → cards_keep s s1.
Proof.
  unfold admit_card. cbv zeta. destruct (negb _ && _); [by intros [= <- <-]|].
  set (t := with_parks _ _ _ s). destruct (bool_decide _); [by intros [= <- <-]; apply cards_keep_eq|].
  destruct (bool_decide _); [by intros [= <- <-]; apply cards_keep_eq|].
  change (v_cards t) with (v_cards s). destruct (v_cards s !! id) as [p|] eqn:Ep.
  - destruct (bool_decide _); [by intros [= <- <-]; apply cards_keep_eq|].
    destruct (_ || _); intros [= <- <-]; by apply cards_keep_eq.
  - set (c := with_cards _ t). intros (u & Hu & Hp)%obind_ok. apply obind_ok in Hp as (w & Hw & Hp).
    apply obind_ok in Hp as (r & Hr & Hp). injection Hp as <- <-.
    transitivity c.
    { intros x p Hx. exists p. split; [|reflexivity]. unfold c. cbn. rewrite lookup_insert_ne; [done|]. intros <-. congruence. }
    transitivity u; [destruct (decide (surface = Vault)); [by eapply after_vault_keep|by injection Hu as <-]|].
    transitivity w; [destruct (decide (surface = Memory)); [by eapply wiki_pass_keep|by injection Hw as <-]|]. apply cards_keep_eq.
    unfold reverify_pending in Hr. destruct (v_pending w !! id); [by rewrite (reverify_cards _ _ _ _ _ Hr)|].
    by apply Ok_inj in Hr as <-.
Qed.

Lemma collect_sig_cards id h m sig v s : v_cards (collect_sig id h m sig v s) = v_cards s.
Proof. unfold collect_sig. repeat (case_match; try done). Qed.

Lemma try_commit_cards id s s' b : try_commit id s = Ok (s', b) → s' = s ∨ s' = with_held (λ h, {[id]} ∪ h) s ∨ s' = with_held (λ h, h ∖ {[id]}) s.
Proof.
  unfold try_commit. destruct (v_head s) as [head|]; [|intros [= <- <-]; by left].
  destruct (negb _); [intros [= <- <-]; by left|]. intros (t & _ & Hp)%obind_ok.
  destruct (proposal_change s id); [|injection Hp as <- <-; by left]. apply obind_ok in Hp as (bs & _ & Hp).
  destruct (v_pending s !! id); [|injection Hp as <- <-; by left]. destruct (negb _); [injection Hp as <- <-; by left|].
  apply obind_ok in Hp as (r & _ & Hp). destruct r as [[valid cons]|]; [|injection Hp as <- <-; by left].
  destruct (enough _ _ _); [|injection Hp as <- <-; by left]. destruct (_ && _); injection Hp as <- <-; [right; by left|right; by right].
Qed.

Lemma parked_withdrawal_keep id s : cards_keep s (register_parked_withdrawal id s).1.
Proof.
  unfold register_parked_withdrawal. destruct (v_withdrawals s !! id) as [[by' ts]|]; [|done].
  transitivity (with_parks id_ (delete id) (v_next_id s) s); [by apply cards_keep_eq|apply register_withdraw_keep].
Qed.

Lemma parked_declines_keep id s : cards_keep s (register_parked_declines id s).1.1.
Proof.
  unfold register_parked_declines. destruct (v_parked s !! id) as [l|]; [|done].
  transitivity (with_parks (delete id) id_ (v_next_id s) s); [by apply cards_keep_eq|apply drain_keep].
Qed.

Lemma step_keeps s s' : vote_step s s' → cards_keep s s'.
Proof.
  destruct 1 as [id by_ h sig s' d b Hp|id by_ ts hash|id by_ ts|id surface payload by_ s1 Ha|id surface payload by_ s1 Ha|id h sig Hv|id s' b Hp|id].
  - unfold receive_approval in Hp. destruct (str_empty sig); [by injection Hp as <- _ _|].
    destruct (negb _); [by injection Hp as <- _ _|]. apply obind_ok in Hp as (beyond & _ & Hp).
    destruct beyond; [by injection Hp as <- _ _|]. apply obind_ok in Hp as (v & _ & Hp). cbv zeta in Hp.
    set (s1 := if (v : bool) then _ else _) in Hp.
    assert (Hc : v_cards s1 = v_cards s) by (unfold s1; destruct v; cbn; by rewrite collect_sig_cards).
    apply obind_ok in Hp as ([s2 bl] & Ht & Hp). injection Hp as <- _ _. cbn [fst].
    apply cards_keep_eq. destruct (try_commit_cards _ _ _ _ Ht) as [->|[->| ->]]; done.
  - apply register_decline_keep.
  - apply register_withdraw_keep.
  - transitivity s1; [by eapply admit_keep|].
    transitivity (register_parked_withdrawal id s1).1; [apply parked_withdrawal_keep|apply parked_declines_keep].
  - by eapply admit_keep.
  - transitivity (retract_decline id s); [eapply cards_keep_alter; [done|]; intros p _; by apply keeps_same|]. apply cards_keep_eq.
    cbn. by rewrite collect_sig_cards.
  - apply cards_keep_eq. destruct (try_commit_cards _ _ _ _ Hp) as [->|[->| ->]]; done.
  - unfold forget_vote. transitivity (stash_voted id s); [apply stash_voted_keep|by apply cards_keep_eq].
Qed.

Lemma steps_keep s s' : rtc vote_step s s' → cards_keep s s'.
Proof. induction 1 as [|s t u Hst _ IH]; [done|]. transitivity t; [by apply step_keeps|done]. Qed.

End Invariant.

(** C33: a decided card stays decided.  Whatever votes, withdrawals, clean-ups
    and arriving cards, with the cards their arrival retires and reopens,
    follow in any order, a card's change is never replaced, and a card that was
    applied, turned down or pulled back keeps that verdict and its withdrawn
    mark.  The exception is a vault card that was turned down as superseded by
    a replace, which the pass over the vault cards may reopen: of that one
    only the change is kept. *)
Theorem verdict_is_final `{Env, VaultSerde} (s s' : Votes) (id : N) (p : ProposalRecord) :
  rtc vote_step s s' → v_cards s !! id = Some p →
  ∃ p', v_cards s' !! id = Some p' ∧ p_surface p' = p_surface p ∧ p_payload p' = p_payload p ∧
    (p_state p ≠ Proposed →
     (p_state p' = p_state p ∧ p_withdrawn p' = p_withdrawn p) ∨
     (p_surface p = Vault ∧ p_state p = Rejected ∧ p_superseded p = true ∧ p_superseded_kind p = Some Conflict)).
Proof.
  intros Hr%steps_keep Hp. destruct (Hr id p Hp) as (p' & Hp' & Hs & Hv & Hd). exists p'.
  split_and!; [done..|]. intros Hst. destruct (Hd Hst) as [[= ? ? _ _]|?]; [by left|by right].
Qed.
