(* ===== verification/VotesRun.v ===== *)
(** * The votes at work

    A small republic of three seats, two of which approve: a proposal arrives
    after its signatures, gathers them, seals; another is declined until it
    turns down; a wiki patch and a vault grant are retired by what moved under
    them, and the grant is opened again. *)

From stdpp Require Import relations.
From S2P Require Import Prelude Bytes Strs Json Env Surface Roster Chain Checkpoint WikiFold Vault Cuts Standing Ledger Verify Votes VotesProps VotesInv Demo.
#[local] Open Scope string_scope.

Module VotesRun.

Definition table : ChainHead :=
  {| hd_height := 2; hd_hash := "tip"; hd_republic_id := demo_rid; hd_rule_m := 2; hd_identities := seats |}.
Definition replica : Replica :=
  {| rp_roster := ["ada"; "bob"; "cleo"]; rp_rule_m := 2; rp_republic_id := demo_rid; rp_identities := seats |}.

(** A wiki of one document, and no vault. *)
Definition standing : Standing :=
  {| st_prepared := false; st_vault := []; st_vault_base := None; st_adopting := false;
     st_memory := [demo_patch "a.md" "hello"]; st_wiki_base := None; st_chain := []; st_replay := ∅ |}.

Definition start : Votes :=
  {| v_me := "ada"; v_members := ["ada"; "bob"; "cleo"]; v_replica := Some replica; v_nostr := false; v_now := 100;
     v_next_id := 10; v_cards := ∅; v_head := Some table; v_head_moved_at := 0; v_anchors := ∅; v_seen := ∅;
     v_changes := ∅; v_pending := ∅; v_own := ∅; v_parked := ∅; v_withdrawals := ∅; v_collisions := ∅; v_held := ∅;
     v_signing := ∅; v_standing := standing |}.

Definition name_change : Value := obj2 "set_name" "Demo III".
Definition voted : ChainChange := Applied 10 Organization name_change.
(** The signature of seat [i] for the next block. *)
Definition vote (i : N) : string :=
  match approval_bytes demo_rid 3 voted with Some b => att_sig (sign i b) | None => "" end.

Definition state_of {A} (r : run (Votes * A)) : Votes := match r with Ok x => x.1 | _ => start end.
(** A signature before its card, the card, then the second signature. *)
Definition early : Votes := match receive_approval 10 "bob" 3 (vote 1) start with Ok (s, _, _) => s | _ => start end.
Definition carded : Votes := state_of (admit_card 10 Organization name_change "cleo" early).
Definition ready : Votes := collect_sig 10 3 "cleo" (vote 2) true carded.
Definition sealed : Votes * ChainBlock :=
  match try_commit 10 ready with Ok (s, Some b) => (s, b) | _ => (start, demo_genesis) end.

(** The early signature counts once the card is here. *)
Example early_vote_counts : (chain_approval_count early 10, chain_approval_count carded 10) = (0, 1)%nat.
Proof. vm_compute. reflexivity. Qed.

Lemma sealed_block_counts_witness :
  try_commit 10 ready = Ok (sealed.1, Some sealed.2) ∧ length (sigs sealed.2) = 2%nat ∧
  ∃ signers, block_signers demo_rid seats sealed.2 = Ok signers ∧ (2 ≤ size signers)%nat.
Proof.
  split; [vm_compute; reflexivity|]. split; [vm_compute; reflexivity|].
  refine (proj1 (proj2 (sealed_block_counts 10 ready sealed.1 sealed.2 table _ _ _ _ _))).
  - vm_compute. reflexivity.
  - vm_compute. reflexivity.
  - split; [apply (bool_decide_unpack _); vm_compute; exact I|vm_compute; discriminate].
  - reflexivity.
  - vm_compute. exact I.
Defined.

(** Two voices against a card that is not here yet. *)
Definition voices : list Voice := [("ada", 5%N, ""); ("bob", 6%N, "")].
Definition carded_first : Votes := state_of (admit_card 10 Organization name_change "cleo" start).

Lemma decline_order_irrelevant_witness :
  ∃ s1, admit_card 10 Organization name_change "cleo" (decline_all 10 voices start) = Ok (s1, true) ∧
    (register_parked_declines 10 s1).1.1 = decline_all 10 voices carded_first.
Proof.
  apply (decline_order_irrelevant 10 ("ada", 5%N, "") [("bob", 6%N, "")]).
  - reflexivity.
  - reflexivity.
  - vm_compute. reflexivity.
  - vm_compute. reflexivity.
  - apply (bool_decide_unpack _). vm_compute. exact I.
  - vm_compute. reflexivity.
Defined.

Definition once : Votes := (register_decline 10 "ada" 5 "" carded_first).1.
Definition open_card : ProposalRecord := new_card Organization name_change "cleo".

Lemma decline_tips_exactly_witness : (register_decline 10 "bob" 6 "" once).2 = DRejected.
Proof.
  refine (proj1 (decline_tips_exactly 10 "bob" 6 once (card_declined "ada" open_card) replica _ _ _ _ _ _ _)).
  - vm_compute. reflexivity.
  - reflexivity.
  - reflexivity.
  - reflexivity.
  - apply (bool_decide_unpack _). vm_compute. exact I.
  - apply (bool_decide_unpack _). vm_compute. exact I.
  - cbn. set_solver.
Defined.

(** Turned down, then approved and pulled back: still turned down. *)
Definition twice : Votes := (register_decline 10 "bob" 6 "" once).1.
Definition late : Votes := match receive_approval 10 "cleo" 3 (vote 2) twice with Ok (s, _, _) => s | _ => start end.
Definition turned_down : ProposalRecord := card_rejected 6 "bob" (card_declined "bob" (card_declined "ada" open_card)).

Lemma verdict_is_final_witness :
  ∃ p, v_cards (register_withdraw 10 "cleo" 9 late).1 !! 10%N = Some p ∧ p_state p = Rejected ∧ p_withdrawn p = false.
Proof.
  destruct (verdict_is_final twice (register_withdraw 10 "cleo" 9 late).1 10 turned_down) as (p & Hp & _ & _ & Hs).
  - eapply rtc_l; [eapply (StepApproval twice 10 "cleo" 3 (vote 2) late); vm_compute; reflexivity|].
    apply rtc_once, StepWithdraw.
  - vm_compute. reflexivity.
  - exists p. split; [exact Hp|]. destruct Hs as [Hv|[Hv _]]; [discriminate|exact Hv|discriminate Hv].
Defined.

(** ** Cards retired and reopened *)

(** A patch that adds a document the wiki has is retired as it arrives; one
    that adds another stays open. *)
Definition state_at (id : N) (s : Votes) : option (ProposalState * bool) :=
  (λ p, (p_state p, p_superseded p)) <$> v_cards s !! id.
Example stale_patch_retired :
  (state_at 11 (state_of (admit_card 11 Memory (demo_patch "a.md" "again") "bob" start)),
   state_at 11 (state_of (admit_card 11 Memory (demo_patch "b.md" "more") "bob" start))) =
  (Some (Rejected, true), Some (Proposed, false)).
Proof. vm_compute. reflexivity. Qed.

(** Two versions of one secret, and a grant on the first. *)
Definition version (old hash : string) : VaultDeposit :=
  {| depositor := "ada"; dep_name := "seed"; dep_kind := "text"; replaces := old; dep_m := 2; dep_holders := ["bob"; "cleo"];
     commitments := []; enc_share := []; dep_payload := {| pr_hash := hash; pr_size := 1 |}; nonce := ""; sig_depositor := "" |}.
Definition first_id : string := default "" (secret_id demo_rid (version "" "x")).
Definition op_value (op : string) : Value := Object [("op", Str op)].
#[local] Instance reading : VaultSerde := {
  op_from_value v :=
    if decide (op_of v = Some "first") then Some (Deposit (version "" "x"))
    else if decide (op_of v = Some "second") then Some (Deposit (version first_id "y"))
    else if decide (op_of v = Some "grant") then Some (Grant {| g_grant_id := "g"; g_secret_id := first_id; reader := "bob" |})
    else None;
  op_to_value _ := None;
}.

Definition with_vault (l : list string) : Votes → Votes :=
  with_standing (λ st, {| st_prepared := true; st_vault := op_value <$> l; st_vault_base := None; st_adopting := st_adopting st;
    st_memory := st_memory st; st_wiki_base := st_wiki_base st; st_chain := st_chain st; st_replay := st_replay st |}).

(** The grant is open while the first version stands; the second one is
    committed, and a replace that comes late retires the grant with itself; a
    reorg takes the second version back, and the next card reopens both. *)
Definition granted : Votes := state_of (admit_card 20 Vault (op_value "grant") "bob" (with_vault ["first"] start)).
Definition replaced : Votes := state_of (admit_card 21 Vault (op_value "second") "ada" (with_vault ["first"; "second"] granted)).
Definition reorged : Votes := state_of (admit_card 22 Vault (op_value "grant") "cleo" (with_vault ["first"] replaced)).
Example grant_retired_and_reopened :
  (state_at 20 granted, state_at 20 replaced, state_at 21 replaced, state_at 20 reorged, state_at 21 reorged) =
  (Some (Proposed, false), Some (Rejected, true), Some (Rejected, true), Some (Proposed, false), Some (Proposed, false)).
Proof. vm_compute. reflexivity. Qed.

End VotesRun.
