(* ===== verification/Actions.v ===== *)
(** * What a seat can act on

    [read_actions] of crates/molt-engine/src/wake.rs: the proposals that wait
    for the seat's vote ([waits_on] of crates/molt-engine/src/proposals.rs),
    the due starts, the tasks in progress and those that can be started, and
    the pokes it has not answered. *)

From S2P Require Import Prelude Bytes Strs Json Env Surface Roster Chain Checkpoint WikiFold Vault Cuts Ledger Verify Votes Calendar Series Cycle Kanban Board BoardProps Canonicalize KanbanJson Dates DatesProps Wake WakeLoop WakeProps.

Definition operator_approved (p : ProposalRecord) : bool := (0 <? p_approvals p)%N.

Definition waits_on (s : Votes) (id : N) (p : ProposalRecord) (member : string) : bool :=
  if negb (bool_decide (p_state p = Proposed)) then false
  else if existsb (String.eqb member) (p_decliners p) then false
  else if is_chain_governed s then
    negb match v_pending s !! id with
         | Some a => existsb (λ x, String.eqb (att_member x) member) (pa_sigs a)
         | None => false
         end
  else if String.eqb member (v_me s) then negb (operator_approved p)
  else true.

(** The order of the votes: by when they were proposed, then by id. *)
Definition vote_key (a : WakeAction) : N * N := match a with Vote p _ since => (since, p) | _ => (0, 0)%N end.
Definition vote_le (a b : WakeAction) : Prop :=
  ((vote_key a).1 < (vote_key b).1 ∨ (vote_key a).1 = (vote_key b).1 ∧ (vote_key a).2 <= (vote_key b).2)%N.
#[export] Instance vote_le_dec : RelDecision vote_le.
Proof. intros a b. unfold vote_le. apply _. Defined.

Definition vote_action (proposed_at : gmap N N) (e : N * ProposalRecord) : WakeAction :=
  Vote e.1 (p_surface e.2) (default 0%N (proposed_at !! e.1)).

Definition vote_actions (s : Votes) (proposed_at : gmap N N) (me : string) : list WakeAction :=
  merge_sort vote_le (vote_action proposed_at <$> filter (λ e, waits_on s e.1 e.2 me = true) (map_to_list (v_cards s))).

Section Actions.
Context `{Chrono} (max_date : NaiveDate).

Definition read_actions (s : Votes) (proposed_at : gmap N N) (pokes : gmap string N) (board : BoardState)
    (clock lead_min : N) : outcome unit (list WakeAction) :=
  let me := v_me s in
  let out := vote_actions s proposed_at me in
  let? ts := match utc clock with
             | Some now => task_actions max_date board (derive board now.1) me now lead_min
             | None => Ok []
             end in
  Ok (out ++ ts ++ ((λ e, Poke e.1 e.2) <$> sorted_entries pokes)).
End Actions.

(** ** Lists *)

Lemma existsb_eqb x l : existsb (String.eqb x) l = true ↔ x ∈ l.
Proof.
  rewrite existsb_exists. split; [|by exists x; rewrite <-list_elem_of_In, String.eqb_refl].
  by intros (y & Hy%list_elem_of_In & ->%String.eqb_eq).
Qed.

(** The member has a voice in the proposal that it has not used. *)
Definition unheard (s : Votes) (id : N) (p : ProposalRecord) (me : string) : Prop :=
  p_state p = Proposed ∧ me ∉ p_decliners p ∧
  if is_chain_governed s
  then ∀ a, v_pending s !! id = Some a → me ∉ att_member <$> pa_sigs a
  else me = v_me s → p_approvals p = 0%N.

Lemma waits_on_iff s id p me : waits_on s id p me = true ↔ unheard s id p me.
Proof.
  unfold waits_on, unheard. case_bool_decide; cbn [negb]; [|naive_solver].
  destruct (existsb (String.eqb me) (p_decliners p)) eqn:Ed; [apply existsb_eqb in Ed; naive_solver|].
  apply not_true_iff_false in Ed. rewrite existsb_eqb in Ed. destruct (is_chain_governed s).
  - rewrite negb_true_iff. destruct (v_pending s !! id) as [a|]; [|naive_solver].
    rewrite <-not_true_iff_false, existsb_exists. split.
    + intros Hn. split_and!; [done..|]. intros a' [= <-] (x & -> & Hx)%list_elem_of_fmap. apply Hn. exists x.
      by rewrite <-list_elem_of_In, String.eqb_refl.
    + intros (_ & _ & Hn) (x & Hx%list_elem_of_In & <-%String.eqb_eq). apply (Hn a eq_refl). by apply list_elem_of_fmap_2.
  - destruct (String.eqb_spec me (v_me s)) as [->|]; [|naive_solver]. unfold operator_approved.
    rewrite negb_true_iff, N.ltb_ge. split; [intros; split_and!; [done..|lia]|]. intros (_ & _ & Hz). rewrite Hz by done. lia.
Qed.

Lemma elem_of_votes s proposed_at me a : a ∈ vote_actions s proposed_at me ↔
  ∃ id p, v_cards s !! id = Some p ∧ unheard s id p me ∧ a = vote_action proposed_at (id, p).
Proof.
  unfold vote_actions. rewrite merge_sort_Permutation, list_elem_of_fmap. split.
  - intros ([id p] & -> & [Hw Hin]%list_elem_of_filter). exists id, p. split; [by apply elem_of_map_to_list|]. by rewrite <-waits_on_iff.
  - intros (id & p & Hin & Hw & ->). exists (id, p). split; [done|]. apply list_elem_of_filter.
    split; [by apply waits_on_iff|by apply elem_of_map_to_list].
Qed.

#[local] Instance vote_le_trans : Transitive vote_le.
Proof. intros a b c. unfold vote_le. lia. Qed.
#[local] Instance vote_le_total : Total vote_le.
Proof. intros a b. unfold vote_le. lia. Qed.

Lemma votes_sorted s proposed_at me : StronglySorted vote_le (vote_actions s proposed_at me).
Proof. apply StronglySorted_merge_sort; apply _. Qed.

(** ** Folded boards *)

Section Folded.
Context `{ChronoLaws} (applied : list Value) (seats : gset string).
Let board := kanban_fold applied seats.

(** The timed tasks of a folded board are as the scan takes them. *)
Lemma valid_window w : when_valid w → window_ok w.
Proof.
  destruct w as [s e|s e]; cbn.
  - intros (Hs & _ & Hle). unfold date_le in Hle. apply Z.leb_le in Hle. split_and!; [done| |done]. unfold begins, end_minute, minutes, midnight. cbn [fst snd]. lia.
  - intros ((Hs & Hs2) & (_ & He2) & Hlt). unfold time_lt in Hlt. apply Z.ltb_lt in Hlt. by split_and!.
Qed.

Lemma folded_timed : board_timed board.
Proof.
  intros id t w Ht Hw. destruct (fold_dates applied seats id t Ht) as [_ _ Hwin Hrep _ Hmv]. rewrite Hw in Hwin. split.
  - by apply valid_window.
  - intros r Hr. rewrite Hr in Hrep. by destruct Hrep.
  - eapply Forall_impl; [exact Hmv|]. intros [k v] [_ Hv]. by apply valid_window.
Qed.

(** What a task in the seat's list is. *)
Lemma elem_of_next today me id : id ∈ default [] (next (derive board today) !! me) ↔
  ∃ t, tasks board !! id = Some t ∧ is_series t = false ∧ me ∈ assignees t ∧
    (state t = Wip ∨ startable (tasks board) today t = true).
Proof.
  destruct (fold_onto_ok seats board_default applied (board_default_ok seats)) as [_ Hts _].
  unfold derive. cbn [next]. destruct (next_exact (tasks board)) with (today := today) (prio := priority_of (tasks board) (needed_dates (tasks board))) (a := me) as [Hn _].
  { intros i t Hi. by destruct (Hts i t Hi) as (_ & [] & _). }
  unfold needed_dates, the_order in Hn. rewrite Hn, elem_of_app, !list_elem_of_filter, elem_of_priority. unfold takes. split.
  - intros [[Ht (t & Hid & _ & Hse)]|[Ht (t & Hid & _ & Hse)]]; rewrite Hid in Ht; to_prop; exists t; eauto 6.
  - intros (t & Hid & Hse & Hme & Hst). rewrite Hid.
    assert (Hop : is_open t = true).
    { unfold is_open. destruct Hst as [->|Hst]; [done|]. unfold startable in Hst. to_prop. by rewrite H1. }
    destruct Hst as [Hst|Hst]; [left|right]; (split; [rewrite ?Hst, ?bool_decide_true by done; done|eauto]).
Qed.

Lemma stuck_unmet (ts : gmap TaskId Task) id t : stuck_at ts id → ts !! id = Some t → unmet ts t = true.
Proof.
  intros Hs Ht. unfold unmet. apply existsb_exists. destruct Hs as [x u b p Hu _ Hb Hp Hf|x u b Hu _ Hb Hsb]; simplify_eq.
  - exists b. rewrite <-list_elem_of_In, Hp. split; [done|]. by rewrite Hf.
  - exists b. rewrite <-list_elem_of_In. split; [done|]. destruct Hsb as [y p ? ? Hp Hst _ _ _|y p ? Hp Hst _ _]; rewrite Hp, Hst; done.
Qed.

(** Neither a task in progress nor one that can be started is held. *)
Lemma next_not_held today id t : tasks board !! id = Some t →
  state t = Wip ∨ startable (tasks board) today t = true → is_held (derive board today) id = false.
Proof.
  intros Ht Hst. destruct (fold_onto_ok seats board_default applied (board_default_ok seats)) as [_ _ Hg].
  unfold is_held, derive. cbn [d_tasks]. rewrite map_lookup_imap, Ht. cbn [mbind option_bind derive_task shown]. unfold shown_as.
  destruct Hst as [->|Hst]; [done|]. unfold startable in Hst. to_prop. rewrite H1, H3. rewrite bool_decide_false; [by destruct (when t), (later_than _ _)|].
  intros Hs. apply (stuck_exact (tasks board)) in Hs; [|intros i; by apply (grounded_no_cycle _ i)].
  by rewrite (stuck_unmet _ _ _ Hs Ht) in H3.
Qed.
End Folded.

(** The task an entry is about. *)
Definition action_task (a : WakeAction) : option TaskId :=
  match a with TaskStart id _ _ _ | TaskWip id | TaskStartable id => Some id | _ => None end.

Lemma elem_of_pokes (pokes : gmap string N) a :
  a ∈ (λ e, Poke e.1 e.2) <$> sorted_entries pokes ↔ ∃ by_ since, pokes !! by_ = Some since ∧ a = Poke by_ since.
Proof.
  rewrite list_elem_of_fmap. setoid_rewrite elem_of_entries. split; [intros ([k v] & -> & Hk); eauto|].
  intros (k & v & Hk & ->). by exists (k, v).
Qed.

Lemma seat_start_held `{Chrono} b dv me d win : seat_start b dv me d win → sd_blocked d = is_held dv (sd_task d).
Proof. by intros (id & t & w & date & _ & _ & _ & ->). Qed.

Section Exact.
Context `{ChronoLaws} (max_date floor : NaiveDate) (applied : list Value) (seats : gset string).
Context (Hfloor : (num_days_from_ce floor ≤ -412)%Z) (lead : N) (now : Stamp) (Hclock : clock_ok lead now) (me : string).
Let board := kanban_fold applied seats.
Let dv := derive board now.1.

(** The part of the tasks. *)
Lemma task_actions_spec : ∃ l, task_actions max_date board dv me now lead = Ok l ∧
  (∀ a, a ∈ l ↔
    (∃ d win, seat_start board dv me d win ∧ due_at now lead win ∧ sd_blocked d = false ∧ a = start_action now d) ∨
    (∃ id t, tasks board !! id = Some t ∧ state t = Wip ∧ is_series t = false ∧ me ∈ assignees t ∧ a = TaskWip id) ∨
    (∃ id t, tasks board !! id = Some t ∧ startable (tasks board) now.1 t = true ∧ is_series t = false ∧ me ∈ assignees t ∧
       (∀ d win, seat_start board dv me d win → due_at now lead win → sd_blocked d = false → sd_task d ≠ id) ∧ a = TaskStartable id)).
Proof.
  destruct (start_scan_members max_date floor Hfloor board dv me lead now (folded_timed applied seats) Hclock) as (sc & Hsc & Hdue & _).
  unfold task_actions. rewrite Hsc. cbn [obind]. eexists. split; [done|]. intros a. rewrite !elem_of_app, !list_elem_of_fmap.
  pose proof (elem_of_next applied seats now.1 me) as Hn. fold board dv in Hn. set (nx := default [] _) in *.
  assert (Hst : ∀ id st, bool_decide (state <$> tasks board !! id = Some st) = true ↔ ∃ t, tasks board !! id = Some t ∧ state t = st).
  { intros id st. rewrite bool_decide_eq_true, fmap_Some. naive_solver. }
  assert (Hsu : ∀ t, startable (tasks board) now.1 t = true → state t = Todo) by (intros t Ht; unfold startable in Ht; by to_prop).
  set (su := startable (tasks board) now.1) in *. clearbody su.
  apply Morphisms_Prop.or_iff_morphism; [|apply Morphisms_Prop.or_iff_morphism].
  - setoid_rewrite list_elem_of_filter. setoid_rewrite Hdue. naive_solver.
  - setoid_rewrite list_elem_of_filter. setoid_rewrite Hst. setoid_rewrite Hn. naive_solver.
  - setoid_rewrite list_elem_of_filter. setoid_rewrite andb_true_iff. setoid_rewrite negb_true_iff. setoid_rewrite bool_decide_eq_false.
    setoid_rewrite Hst. setoid_rewrite Hn. setoid_rewrite list_elem_of_fmap. setoid_rewrite list_elem_of_filter. setoid_rewrite Hdue.
    split.
    + intros (id & -> & [(t & Ht & Htodo) Hno] & (t' & Ht' & Hse & Hme & Hw)). rewrite Ht in Ht'. injection Ht' as <-. exists id, t.
      split_and!; [done|destruct Hw; [congruence|done]|done|done| |done]. naive_solver.
    + intros (id & t & Ht & Hstart & Hse & Hme & Hno & ->). exists id. split_and!; [done| |naive_solver|naive_solver]. eauto.
Qed.
End Exact.

(** C25: the list a woken seat reads is exact.  On every folded board, with a
    clock within the years of four digits: a vote is listed for exactly the
    open proposals in which the seat has neither signed (or, without a chain,
    approved) nor declined, oldest first; a start exactly for the due
    starts of its tasks that nothing holds back; a task in progress and one that can be
    started exactly for its own, the latter only if no start of it is
    listed; a poke for each one unanswered; and no listed task is blocked or
    stuck. *)
Theorem read_actions_exact `{ChronoLaws} (max_date floor : NaiveDate) applied seats s proposed_at pokes clock lead now :
  (num_days_from_ce floor ≤ -412)%Z → utc clock = Some now → clock_ok lead now →
  let b := kanban_fold applied seats in
  let dv := derive b now.1 in
  let me := v_me s in
  ∃ votes l, read_actions max_date s proposed_at pokes b clock lead = Ok (votes ++ l) ∧ StronglySorted vote_le votes ∧
    (∀ a, a ∈ votes ↔ ∃ id p, v_cards s !! id = Some p ∧ unheard s id p me ∧
       a = Vote id (p_surface p) (default 0%N (proposed_at !! id))) ∧
    (∀ id o at_ late, TaskStart id o at_ late ∈ l ↔
       ∃ d win, seat_start b dv me d win ∧ due_at now lead win ∧ is_held dv id = false ∧ start_action now d = TaskStart id o at_ late) ∧
    (∀ id, TaskWip id ∈ l ↔ ∃ t, tasks b !! id = Some t ∧ state t = Wip ∧ is_series t = false ∧ me ∈ assignees t) ∧
    (∀ id, TaskStartable id ∈ l ↔ ∃ t, tasks b !! id = Some t ∧ startable (tasks b) now.1 t = true ∧ is_series t = false ∧
       me ∈ assignees t ∧ ∀ o at_ late, TaskStart id o at_ late ∉ l) ∧
    (∀ by_ since, Poke by_ since ∈ l ↔ pokes !! by_ = Some since) ∧
    (∀ a id, a ∈ l → action_task a = Some id → is_held dv id = false).
Proof.
  intros Hf Hu Hc b dv me. destruct (task_actions_spec max_date floor applied seats Hf lead now Hc me) as (l & Hl & Hin).
  fold b dv in Hl, Hin. exists (vote_actions s proposed_at me), (l ++ ((λ e, Poke e.1 e.2) <$> sorted_entries pokes)).
  pose proof (seat_start_held b dv me) as Hheld. pose proof (elem_of_pokes pokes) as Hpoke.
  assert (Hstart : ∀ id o at_ late, TaskStart id o at_ late ∈ l ↔
    ∃ d win, seat_start b dv me d win ∧ due_at now lead win ∧ is_held dv id = false ∧ start_action now d = TaskStart id o at_ late).
  { intros id o at_ late. rewrite Hin. split.
    - intros [(d & win & Hs & Hd & Hb & He)|[(? & ? & _ & _ & _ & _ & ?)|(? & ? & _ & _ & _ & _ & _ & ?)]]; [|done|done].
      exists d, win. rewrite (Hheld d win Hs) in Hb. assert (id = sd_task d) as -> by (unfold start_action in He; congruence). by split_and!.
    - intros (d & win & Hs & Hd & Hb & He). left. exists d, win. rewrite (Hheld d win Hs).
      assert (sd_task d = id) as -> by (unfold start_action in He; congruence). by split_and!. }
  assert (Happ : ∀ a, a ∈ l ++ ((λ e, Poke e.1 e.2) <$> sorted_entries pokes) ↔ a ∈ l ∨ ∃ by_ since, pokes !! by_ = Some since ∧ a = Poke by_ since).
  { intros a. by rewrite elem_of_app, Hpoke. }
  assert (Hstart' : ∀ id o at_ late, TaskStart id o at_ late ∈ l ++ ((λ e, Poke e.1 e.2) <$> sorted_entries pokes) ↔ TaskStart id o at_ late ∈ l).
  { intros id o at_ late. rewrite Happ. naive_solver. }
  split_and!; [|apply votes_sorted|intros a; apply elem_of_votes|..].
  - unfold read_actions. rewrite Hu. fold me dv. by rewrite Hl.
  - intros id o at_ late. by rewrite Hstart', Hstart.
  - intros id. rewrite Happ, Hin. unfold start_action. naive_solver.
  - intros id. rewrite Happ, Hin. setoid_rewrite Hstart'. setoid_rewrite Hstart. unfold start_action. split.
    + intros [[(? & ? & _ & _ & _ & ?)|[(? & ? & _ & _ & _ & _ & ?)|(id' & t & Ht & Hsu & Hse & Hme & Hno & [= <-])]]|(? & ? & _ & ?)]; [done|done| |done].
      exists t. split_and!; [done..|]. intros o at_ late (d & win & Hs & Hd & Hh & He).
      assert (Hid : sd_task d = id) by congruence. apply (Hno d win Hs Hd); [|done]. by rewrite (Hheld d win Hs), Hid.
    + intros (t & Ht & Hsu & Hse & Hme & Hno). left. right. right. exists id, t. split_and!; [done..| |done].
      intros d win Hs Hd Hb <-. rewrite (Hheld d win Hs) in Hb. eapply Hno. by exists d, win.
  - intros by_ since. rewrite Happ, Hin. unfold start_action. naive_solver.
  - intros a id Ha Hid. apply Happ in Ha as [Ha|(? & ? & _ & ->)]; [|done].
    apply Hin in Ha as [(d & win & Hs & Hd & Hb & ->)|[(id' & t & Ht & Hst & _ & _ & ->)|(id' & t & Ht & Hst & _ & _ & _ & ->)]];
      cbn in Hid; injection Hid as <-.
    + by rewrite <-(Hheld d win Hs).
    + eapply next_not_held; [done|by left].
    + eapply next_not_held; [done|by right].
Qed.
