(* ===== verification/ActionsRun.v ===== *)
(** * A seat reads its list

    Cleo's proposal waits for Ada's vote, an appointment of hers is about to begin, and Bob poked
    her: [Actions] on a concrete state. *)

From S2P Require Import Prelude Bytes Strs Json Env Surface Roster Chain Verify Votes VotesRun Calendar Civil Cycle Kanban Board Canonicalize Dates Wake WakeLoop WakeProps Actions.

Module ActionsRun.
Import CivilRun.

Definition seats : gset string := {["ada"; "bob"; "cleo"]}.

(** Ids for three tasks. *)
Definition mint (n : nat) : option (string * nat) :=
  match n with
  | O => Some ("00000000000000000000000000000001", 1%nat)
  | S O => Some ("00000000000000000000000000000002", 2%nat)
  | S (S O) => Some ("00000000000000000000000000000003", 3%nat)
  | _ => None
  end.

(** An appointment, a task anyone could begin, and one that waits for it. *)
Definition draft : Value :=
  Object
    [("base_rev", Num (PosInt 0)); ("op", Str "kanban_ops");
     ("ops", Array
       [Object [("act", Str "add"); ("assignees", Array [Str "ada"]); ("title", Str "Meet");
                ("when", Object [("end", Str "2026-05-07T10:00"); ("start", Str "2026-05-07T09:00")])];
        Object [("act", Str "add"); ("assignees", Array [Str "ada"; Str "bob"]); ("ref", Str "walls"); ("title", Str "Paint the walls")];
        Object [("act", Str "add"); ("assignees", Array [Str "ada"]); ("blocked_by", Array [Str "@walls"]); ("title", Str "Hang the lamp")]]);
     ("summary", Str "Three tasks")].

Definition applied : list Value :=
  match kanban_canonicalize mint "bob" draft 0%nat with Ok (c, _) => [payload c] | _ => [] end.

(** A minute before nine. *)
Definition clock : N := (Z.to_N (on 2026 5 7 - on 1970 1 1) * 86400 + 8 * 3600 + 59 * 60)%N.
Definition pokes : gmap string N := {["bob" := 7%N]}.

(** A card that Ada has not voted on. *)
Definition table : Votes := VotesRun.carded_first.
Example her_seat : v_me table = "ada".
Proof. by vm_compute. Qed.

Example her_list : read_actions (on 9999 12 31) table {[10%N := 5%N]} pokes (kanban_fold applied seats) clock 10 =
  Ok [Vote 10 Organization 5; TaskStart "00000000000000000000000000000001" None "2026-05-07T09:00" false;
      TaskStartable "00000000000000000000000000000002"; Poke "bob" 7].
Proof. by vm_compute. Qed.

Definition moment : Stamp := default (on 1970 1 1, 0%N) (utc clock).

Lemma read_actions_exact_witness :
  ∃ votes l, read_actions (on 9999 12 31) table {[10%N := 5%N]} pokes (kanban_fold applied seats) clock 10 = Ok (votes ++ l) ∧
    StronglySorted vote_le votes ∧
    ∀ a id, a ∈ l → action_task a = Some id → is_held (derive (kanban_fold applied seats) moment.1) id = false.
Proof.
  destruct (read_actions_exact (on 9999 12 31) (-500)%Z applied seats table {[10%N := 5%N]} pokes clock 10 moment)
    as (votes & l & Hl & Hs & _ & _ & _ & _ & _ & Hheld).
  - by vm_compute.
  - by vm_compute.
  - split; [by vm_compute|]. split; [by vm_compute|]. split; [by vm_compute|]. exists (moment.1 + 62)%Z. split; by vm_compute.
  - exact (ex_intro _ votes (ex_intro _ l (conj Hl (conj Hs Hheld)))).
Defined.
End ActionsRun.
