(* ===== verification/View.v ===== *)
(** * The board as an agent reads it

    crates/molt-core/src/kanban_view.rs: the board's JSON narrowed to a seat,
    a task or a window of the calendar: the filters, the list of tasks and its
    order, one task with its prerequisites to any depth, the calendar.  The
    reader of one proposal, which renders texts, is left out.  Case folding is
    the class [CaseFold]. *)

From S2P Require Import Prelude Strs Json WikiFold Votes Calendar Series Cycle Kanban.
#[local] Open Scope N_scope.

Definition RECENT_CLOSED_REVS : N := 10.
Definition TEXT_FIELDS : list string := ["description"; "acceptance"; "out_of_scope"; "evidence"].

(** [unicase]: a string folded so that it can be compared without its case. *)
Class CaseFold := { to_folded_case : string → string }.

Inductive ViewFilter :=
  | Mine | ToActOn | StartingNow | CreatedByMe | NeedsMyVote
  | FBlocked | FStuck | FOverdue | FDateConflict | Closed
  | FState (s : TaskState) | Floating | FTimed | FSize (z : Size) | FType (label : string).

(** The reasons of this file. *)
Inductive ViewError :=
  | UnknownFilter (s : string) | NoTaskNamed | UnknownTaskNamed (s : string) | AmbiguousTask (s : string)
  | FromAfterTo | FromWithoutTo.

(** ** The JSON of a task *)

Definition str_of (t : Value) (key : string) : string := default "" (get_str key t).
Definition array_of (v : option Value) : list Value := default [] (v ≫= as_array).
Definition has_str (t : Value) (key want : string) : bool :=
  existsb (λ v, bool_decide (as_str v = Some want)) (array_of (get key t)).
Definition str_set (v : option Value) : gset string := list_to_set (omap as_str (array_of v)).
Definition state_of (t : Value) : option TaskState := state_parse (str_of t "state").

Section View.
Context `{CaseFold}.

Definition type_key (s : string) : string := to_folded_case (trim s).

(** ** Filters *)

(** [ViewFilter::parse]. *)
Definition filter_parse (s : string) : outcome ViewError ViewFilter :=
  match strip_prefix "size:" s with
  | Some size => ok_or (FSize <$> size_parse size) (UnknownFilter s)
  | None =>
      match strip_prefix "type:" s with
      | Some label => let folded := type_key label in if str_empty folded then Err (UnknownFilter s) else Ok (FType folded)
      | None =>
          match state_parse s with
          | Some st => Ok (FState st)
          | None =>
              ok_or (assoc s [("mine", Mine); ("to_act_on", ToActOn); ("starting_now", StartingNow); ("created_by_me", CreatedByMe);
                              ("needs_my_vote", NeedsMyVote); ("blocked", FBlocked); ("stuck", FStuck); ("overdue", FOverdue);
                              ("date_conflict", FDateConflict); ("closed", Closed); ("floating", Floating); ("timed", FTimed)])
                    (UnknownFilter s)
          end
      end
  end.

Definition is_state (f : ViewFilter) : bool := match f with Closed | FState _ => true | _ => false end.

(** What the filters of a seat read. *)
Record ViewCtx := mkViewCtx { cx_seat : string; cx_next : gset string; cx_starting : gset string; cx_voting : gset string }.

Definition filter_keeps (c : ViewCtx) (id : string) (t : Value) (f : ViewFilter) : bool :=
  match f with
  | Mine => has_str t "assignees" (cx_seat c)
  | ToActOn => bool_decide (id ∈ cx_next c)
  | StartingNow => bool_decide (id ∈ cx_starting c)
  | CreatedByMe => String.eqb (str_of t "creator") (cx_seat c)
  | NeedsMyVote => bool_decide (id ∈ cx_voting c)
  | FBlocked => String.eqb (str_of t "shown") "blocked"
  | FStuck => String.eqb (str_of t "shown") "stuck" || has_str t "flags" "stuck"
  | FOverdue => has_str t "flags" "overdue"
  | FDateConflict => has_str t "flags" "date_conflict"
  | Closed => match state_of t with Some s => is_terminal s | None => false end
  | FState s => bool_decide (state_of t = Some s)
  | Floating => negb (is_some (get "when" t))
  | FTimed => is_some (get "when" t)
  | FSize z => String.eqb (str_of t "size") (size_str z)
  | FType label => String.eqb (type_key (str_of t "type")) label
  end.

(** The groups within which filters are alternatives; 0 is none. *)
Definition group (f : ViewFilter) : N :=
  match f with
  | Closed | FState _ => 1
  | Floating | FTimed => 2
  | FSize _ => 3
  | FType _ => 4
  | _ => 0
  end.

(** The loop of [Ctx::matches]: [None] is its early return. *)
Fixpoint match_loop (c : ViewCtx) (id : string) (t : Value) (fs : list ViewFilter) (any : gmap N bool) : option (gmap N bool) :=
  match fs with
  | [] => Some any
  | f :: fs =>
      let hit := filter_keeps c id t f in
      if (group f =? 0) then (if hit then match_loop c id t fs any else None)
      else match_loop c id t fs (<[group f := default false (any !! group f) || hit]> any)
  end.

Definition matches (c : ViewCtx) (id : string) (t : Value) (fs : list ViewFilter) : bool :=
  match match_loop c id t fs ∅ with
  | Some any => forallb snd (map_to_list any)
  | None => false
  end.

(** ** What waits for a vote *)

Inductive VoteState := VOpen | VApproved | VDeclined.
#[export] Instance VoteState_eq_dec : EqDecision VoteState.
Proof. solve_decision. Defined.

(** The fields of a proposal's view that are read here. *)
Record ProposalView := mkProposalView {
  pv_state : ProposalState;
  pv_votes : list (string * VoteState);
  pv_approved_by_me : bool;
  pv_declined_by_me : bool;
  pv_payload : Value;
}.

Definition vote_open (p : ProposalView) (seat me : string) : bool :=
  match find (λ v, String.eqb v.1 seat) (pv_votes p) with
  | Some v => bool_decide (v.2 = VOpen)
  | None => String.eqb seat me && negb (pv_approved_by_me p) && negb (pv_declined_by_me p)
  end.

Definition touched_ids (p : ProposalView) : list string :=
  omap (get_str "id")
    (filter (λ op, get_str "act" op ≠ Some "add") (array_of (get "ops" (pv_payload p)))).

Definition awaiting (pending : list ProposalView) (seat me : string) : gset string :=
  list_to_set
    (concat (touched_ids <$> filter (λ p, pv_state p = Proposed ∧ vote_open p seat me = true) pending)).

(** ** One task *)

Definition task_header (id : string) (t : Value) : Value :=
  let m := default [] (as_object t) in
  Object (obj_insert "id" (Str id) (foldl (λ m k, obj_remove k m) m TEXT_FIELDS)).

(** [trim_start_matches('#')]. *)
Fixpoint strip_hashes (s : string) : string :=
  match s with String "#" s => strip_hashes s | _ => s end.

Definition resolve_task (tasks : list (string * Value)) (named : string) : outcome ViewError string :=
  let prefix := strip_hashes (trim named) in
  if str_empty prefix then Err NoTaskNamed
  else if is_some (assoc prefix tasks) then Ok prefix
  else match filter (λ id, starts_with prefix id = true) tasks.*1 with
       | [id] => Ok id
       | _ :: _ :: _ => Err (AmbiguousTask named)
       | [] => Err (UnknownTaskNamed named)
       end.

Definition blockers (tasks : list (string * Value)) (parent : string) : list string :=
  omap as_str (array_of (assoc parent tasks ≫= get "blocked_by")).

(** A row of the prerequisites. *)
Definition row (tasks : list (string * Value)) (depth : N) (b : string) : Value :=
  let bt := default Null (assoc b tasks) in
  Object [("depth", Num (PosInt depth)); ("id", Str b); ("shown", Str (str_of bt "shown"));
          ("state", Str (str_of bt "state")); ("title", Str (str_of bt "title"))].

Definition succeeded (tasks : list (string * Value)) (b : string) : bool :=
  bool_decide (state_of (default Null (assoc b tasks)) = Some Success).

(** One parent's prerequisites: the ones not yet seen, and how many of them
    succeeded. *)
Fixpoint visit (tasks : list (string * Value)) (depth : N) (bs : list string)
    (acc : gset string * list Value * list string * N) : gset string * list Value * list string * N :=
  match bs with
  | [] => acc
  | b :: bs =>
      let '(seen, pre, next, n) := acc in
      if bool_decide (b ∈ seen) then visit tasks depth bs acc
      else visit tasks depth bs ({[b]} ∪ seen, pre ++ [row tasks depth b], next ++ [b],
                                 if succeeded tasks b then n + 1 else n)
  end.

(** The loop over the levels; [None]: out of fuel. *)
Fixpoint detail_loop (fuel : nat) (tasks : list (string * Value)) (depth : N) (level : list string)
    (seen : gset string) (pre : list Value) (n : N) : option (list Value * N) :=
  match fuel with
  | O => None
  | S fuel =>
      match level with
      | [] => Some (pre, n)
      | _ =>
          let depth := depth + 1 in
          let '(seen, pre, next, n) :=
            foldl (λ acc parent, visit tasks depth (blockers tasks parent) acc) (seen, pre, [], n) level in
          detail_loop fuel tasks depth next seen pre n
      end
  end.

(** Every id some task waits for. *)
Definition mentioned (tasks : list (string * Value)) : list string := concat (blockers tasks <$> tasks.*1).

Definition task_detail (tasks : list (string * Value)) (id : string) : option Value :=
  let out := obj_insert "id" (Str id) (default [] (assoc id tasks ≫= as_object)) in
  r ← detail_loop (length (mentioned tasks) + 2) tasks 0 [id] {[id]} [] 0;
  Some (Object (obj_insert "progress" (Object [("succeeded", Num (PosInt r.2)); ("total", Num (PosInt (N.of_nat (length r.1))))])
         (obj_insert "prerequisites" (Array r.1) out))).

(** ** The list *)

Definition touched_rev_of (t : Value) : N := default 0 (get_u64 "touched_rev" t).
Definition is_closed (t : Value) : bool := match state_of t with Some s => is_terminal s | None => false end.

(** [listed]; the addition overflows, and panics, only next to the largest
    revision. *)
Definition listed (c : ViewCtx) (fs : list ViewFilter) (rev : N) (e : string * Value) : outcome ViewError bool :=
  if negb (matches c e.1 e.2 fs) then Ok false
  else if existsb is_state fs || negb (is_closed e.2) then Ok true
  else let? z := expect (u64_checked_add (touched_rev_of e.2) RECENT_CLOSED_REVS) in Ok (rev <? z).

(** The closed tasks: latest touched first, then by id. *)
Definition closed_le (a b : N * string) : Prop := b.1 < a.1 ∨ a.1 = b.1 ∧ String.le a.2 b.2.
#[export] Instance closed_le_dec : RelDecision closed_le.
Proof. intros a b. unfold closed_le. apply _. Defined.

(** The order of the list: the priority, the other open tasks, the closed ones. *)
Definition view_order (tasks : list (string * Value)) (priority : list string) : list string :=
  let order := filter (λ id, is_some (assoc id tasks) = true) priority in
  let rest := filter (λ e, e.1 ∉ order) tasks in
  let open := (filter (λ e, is_closed e.2 = false) rest).*1 in
  let closed := (λ e, (touched_rev_of e.2, e.1)) <$> filter (λ e, is_closed e.2 = true) rest in
  order ++ open ++ (merge_sort closed_le closed).*2.

Fixpoint keep_listed (c : ViewCtx) (fs : list ViewFilter) (rev : N) (es : list (string * Value)) : outcome ViewError (list (string * Value)) :=
  match es with
  | [] => Ok []
  | e :: es =>
      let? k := listed c fs rev e in
      let? r := keep_listed c fs rev es in
      Ok (if k then e :: r else r)
  end.

(** The [tasks] of the view. *)
Definition view_tasks (c : ViewCtx) (fs : list ViewFilter) (rev : N) (tasks : list (string * Value)) (priority : list string)
    : outcome ViewError (list Value) :=
  let? es := keep_listed c fs rev (omap (λ id, (λ t, (id, t)) <$> assoc id tasks) (view_order tasks priority)) in
  Ok ((λ e, task_header e.1 e.2) <$> es).
End View.
