(* ===== verification/ViewProps.v ===== *)
(** * The view shows what it says

    The theory of [View]: the prerequisites of a task are found breadth first, and the list is the
    board's tasks that the filters let through, each once, in the order of the
    view. *)

From S2P Require Import Prelude Strs Json WikiFold Votes Calendar Series Cycle Kanban Canonicalize View.

Lemma assoc_known {A} k (ts : list (string * A)) : is_Some (assoc k ts) ↔ k ∈ ts.*1.
Proof.
  induction ts as [|[k' v] ts IH]; cbn; [split; [by intros [? ?]|by intros ?%not_elem_of_nil]|]. rewrite elem_of_cons.
  case_decide; [naive_solver|]. rewrite IH. naive_solver.
Qed.

(** ** Prerequisites *)

Section Detail.
Context (tasks : list (string * Value)) (id : string).

(** [x] is reached from the task by [n] links. *)
Fixpoint path (n : nat) (x : string) : Prop :=
  match n with
  | O => x = id
  | S n => ∃ p, path n p ∧ x ∈ blockers tasks p
  end.

(** ... and by no fewer. *)
Definition first_at (n : nat) (x : string) : Prop := path n x ∧ ∀ m, (m < n)%nat → ¬ path m x.

Lemma first_unique m n x : first_at m x → first_at n x → m = n.
Proof.
  intros [Hm Hm'] [Hn Hn']. destruct (decide (m < n)%nat) as [Hlt|]; [by destruct (Hn' m Hlt)|].
  destruct (decide (n < m)%nat) as [Hlt|]; [by destruct (Hm' n Hlt)|lia].
Qed.

Lemma first_parent m x : first_at (S m) x → ∃ p, first_at m p ∧ x ∈ blockers tasks p.
Proof.
  intros [(p & Hp & Hx) Hno]. exists p. split; [|done]. split; [done|]. intros j Hj Hpj. apply (Hno (S j)); [lia|by exists p].
Qed.

Lemma first_below k m x : (k ≤ m)%nat → first_at m x → ∃ y, first_at k y.
Proof. intros Hle. revert x. induction Hle as [|m _ IH]; [eauto|]. intros x (p & Hp & _)%first_parent. eauto. Qed.

(** The ids of a list that were not seen, each once. *)
Fixpoint news (seen : gset string) (bs : list string) : list string :=
  match bs with
  | [] => []
  | b :: bs => if bool_decide (b ∈ seen) then news seen bs else b :: news ({[b]} ∪ seen) bs
  end.

Lemma news_spec bs : ∀ seen, NoDup (news seen bs) ∧ ∀ x, x ∈ news seen bs ↔ x ∈ bs ∧ x ∉ seen.
Proof.
  induction bs as [|b bs IH]; intros seen; cbn [news]; [split; [constructor|intros x; rewrite elem_of_nil; tauto]|].
  case_bool_decide as Hb.
  - destruct (IH seen) as [Hnd Hx]. split; [done|]. intros x. rewrite Hx, elem_of_cons. naive_solver.
  - destruct (IH ({[b]} ∪ seen)) as [Hnd Hx]. split; [apply NoDup_cons; split; [rewrite Hx; set_solver|done]|].
    intros x. rewrite !elem_of_cons, Hx. destruct (decide (x = b)); set_solver.
Qed.

Definition how_many (l : list string) : N := N.of_nat (length (filter (λ b, succeeded tasks b = true) l)).

Lemma visit_news depth bs : ∀ seen pre next n, visit tasks depth bs (seen, pre, next, n) =
  (list_to_set (news seen bs) ∪ seen, pre ++ (row tasks depth <$> news seen bs), next ++ news seen bs, (n + how_many (news seen bs))%N).
Proof.
  induction bs as [|b bs IH]; intros seen pre next n; cbn [visit news].
  - cbn [list_to_set fmap list_fmap]. unfold how_many. cbn. by rewrite (left_id_L ∅ (∪)), !app_nil_r, N.add_0_r.
  - case_bool_decide as Hb; rewrite IH; [done|]. rewrite fmap_cons, list_to_set_cons, <-!app_assoc. cbn [app].
    f_equal; [f_equal; f_equal; set_solver|]. unfold how_many. rewrite filter_cons. destruct (succeeded tasks b) eqn:E.
    + rewrite decide_True by done. cbn [length]. lia.
    + rewrite decide_False by done. done.
Qed.

Lemma visit_level depth level acc : foldl (λ acc parent, visit tasks depth (blockers tasks parent) acc) acc level =
  visit tasks depth (concat (blockers tasks <$> level)) acc.
Proof.
  assert (Happ : ∀ a b acc, visit tasks depth (a ++ b) acc = visit tasks depth b (visit tasks depth a acc)).
  { induction a as [|x a IH]; intros b [[[s p] q] n]; [done|]. cbn [app visit]. by case_bool_decide; rewrite IH. }
  revert acc. induction level as [|p level IH]; intros acc; [done|]. cbn [foldl fmap list_fmap concat]. by rewrite IH, Happ.
Qed.

(** All that is to be found. *)
Definition universe : gset string := {[id]} ∪ list_to_set (mentioned tasks).

Lemma blockers_mentioned p x : x ∈ blockers tasks p → x ∈ universe.
Proof.
  intros Hx. apply elem_of_union_r, elem_of_list_to_set. unfold mentioned. apply list_elem_of_In, in_concat.
  exists (blockers tasks p). split; [|by apply list_elem_of_In]. apply list_elem_of_In, list_elem_of_fmap_2.
  unfold blockers in Hx. destruct (assoc p tasks) as [t|] eqn:E; [|by apply not_elem_of_nil in Hx]. by apply assoc_known; eexists.
Qed.

(** The level [k] and what was seen up to it. *)
Definition at_level (k : nat) (level : list string) (seen : gset string) : Prop :=
  (∀ x, x ∈ level ↔ first_at k x) ∧ (∀ x, x ∈ seen ↔ ∃ m, (m ≤ k)%nat ∧ path m x) ∧ seen ⊆ universe.

Lemma next_level k level seen : at_level k level seen →
  let new := news seen (concat (blockers tasks <$> level)) in
  at_level (S k) new (list_to_set new ∪ seen).
Proof.
  intros (Hl & Hs & Hu) new. destruct (news_spec (concat (blockers tasks <$> level)) seen) as [_ Hn]. fold new in Hn.
  assert (Hc : ∀ x, x ∈ concat (blockers tasks <$> level) ↔ ∃ p, first_at k p ∧ x ∈ blockers tasks p).
  { intros x. rewrite list_elem_of_In, in_concat. split.
    - intros (l & (p & -> & Hp)%list_elem_of_In%list_elem_of_fmap & Hx). exists p. split; [by apply Hl|by apply list_elem_of_In].
    - intros (p & Hp & Hx). exists (blockers tasks p). split; [|by apply list_elem_of_In].
      apply list_elem_of_In, list_elem_of_fmap_2. by apply Hl. }
  assert (Hnew : ∀ x, x ∈ new ↔ first_at (S k) x).
  { intros x. rewrite Hn, Hc, Hs. split.
    - intros [(p & [Hp _] & Hx) Hno]. split; [by exists p|]. intros m Hm Hpm. apply Hno. exists m. split; [lia|done].
    - intros Hx. split; [by apply first_parent|]. destruct Hx as [_ Hno]. intros (m & Hm & Hpm). apply (Hno m); [lia|done]. }
  split_and!; [done| |].
  - intros x. rewrite elem_of_union, elem_of_list_to_set, Hnew, Hs. split.
    + intros [[Hp _]|(m & Hm & Hp)]; eauto.
    + intros (m & Hm & Hp). destruct (decide (x ∈ seen)) as [Hx|Hx]; [right; by apply Hs|left].
      assert (m = S k) as ->. { destruct (decide (m = S k)); [done|]. destruct Hx. apply Hs. exists m. split; [lia|done]. }
      split; [done|]. intros m' Hm' Hp'. apply Hx, Hs. exists m'. split; [lia|done].
  - intros x [Hx|Hx]%elem_of_union; [|by apply Hu]. apply elem_of_list_to_set, Hnew in Hx as [(p & _ & Hx) _]. by eapply blockers_mentioned.
Qed.

(** A level that is not the last one takes from what is to be found. *)
Lemma next_fuel k level seen fuel : at_level k level seen → (size (universe ∖ seen) + 2 ≤ S fuel)%nat →
  let new := news seen (concat (blockers tasks <$> level)) in
  (size (universe ∖ (list_to_set new ∪ seen)) + match new with [] => 1 | _ => 2 end ≤ fuel)%nat.
Proof.
  intros Hlev Hfuel new. pose proof (next_level k level seen Hlev) as Hnext. fold new in Hnext. cbv zeta in Hnext.
  destruct (news_spec (concat (blockers tasks <$> level)) seen) as [_ Hmem]. fold new in Hmem. destruct new as [|y new'] eqn:En.
  - rewrite list_to_set_nil, (left_id_L ∅ (∪)). lia.
  - assert (Hy : y ∈ y :: new') by left. pose proof (proj2 (proj2 Hnext)) as Hu.
    assert (Hlt : (size (universe ∖ (list_to_set (y :: new') ∪ seen)) < size (universe ∖ seen))%nat); [|lia].
    apply subset_size. split; [set_solver|]. intros Hsub. apply Hmem in Hy as [_ Hy].
    assert (Hyu : y ∈ universe ∖ seen) by (apply elem_of_difference; split; [apply Hu; set_solver|done]).
    apply Hsub in Hyu. set_solver.
Qed.

(** The rows from a level on: an id and its depth each. *)
Lemma detail_loop_spec fuel : ∀ k level seen pre n, at_level k level seen →
  (size (universe ∖ seen) + match level with [] => 1 | _ => 2 end ≤ fuel)%nat →
  ∃ more, detail_loop fuel tasks (N.of_nat k) level seen pre n =
      Some (pre ++ ((λ r, row tasks r.2 r.1) <$> more), n + how_many more.*1)%N ∧
    NoDup more.*1 ∧ StronglySorted (λ a b, a.2 ≤ b.2)%N more ∧
    ∀ x d, (x, d) ∈ more ↔ ∃ m, (k < m)%nat ∧ d = N.of_nat m ∧ first_at m x.
Proof.
  induction fuel as [|fuel IH]; intros k level seen pre n Hlev Hfuel; [destruct level; lia|]. cbn [detail_loop].
  destruct level as [|l0 level0] eqn:El.
  - exists []. cbn [fmap list_fmap]. unfold how_many. cbn. rewrite app_nil_r, N.add_0_r. split_and!; [done|constructor|constructor|].
    intros x d. rewrite elem_of_nil. split; [done|]. intros (m & Hm & _ & Hx). destruct (first_below k m x) as [y Hy]; [lia|done|].
    by apply Hlev, not_elem_of_nil in Hy.
  - cbv zeta. rewrite visit_level, visit_news, <-El in *. set (new := news seen (concat (blockers tasks <$> level))).
    pose proof (next_level k level seen Hlev) as Hnext. fold new in Hnext. cbv zeta in Hnext.
    destruct (news_spec (concat (blockers tasks <$> level)) seen) as [Hnd Hmem]. fold new in Hnd, Hmem.
    pose proof (next_fuel k level seen fuel Hlev Hfuel) as Hsize. fold new in Hsize. cbv zeta in Hsize.
    replace (N.of_nat k + 1)%N with (N.of_nat (S k)) by lia.
    destruct (IH (S k) new _ (pre ++ (row tasks (N.of_nat (S k)) <$> new)) (n + how_many new)%N Hnext Hsize) as (more & Hrun & Hndm & Hsort & Hin).
    exists (((λ x, (x, N.of_nat (S k))) <$> new) ++ more). split_and!.
    + cbn [app]. rewrite Hrun, fmap_app, <-list_fmap_compose, <-app_assoc, fmap_app, <-list_fmap_compose. f_equal. f_equal.
      unfold how_many. rewrite filter_app, length_app. change (fst ∘ (λ x : string, (x, N.of_nat (S k)))) with (λ x : string, x).
      rewrite list_fmap_id. lia.
    + rewrite fmap_app, <-list_fmap_compose. change (fst ∘ (λ x : string, (x, N.of_nat (S k)))) with (λ x : string, x). rewrite list_fmap_id.
      apply NoDup_app. split_and!; [done| |done]. intros x Hx ([x' d] & Hx' & Hd)%list_elem_of_fmap. cbn in Hx'. subst x'.
      apply Hnext in Hx. apply Hin in Hd as (m & Hm & _ & Hf). pose proof (first_unique _ _ _ Hx Hf). lia.
    + apply StronglySorted_app. split_and!; [| |done].
      * intros a b (x & -> & _)%list_elem_of_fmap Hb. destruct b as [y d]. apply Hin in Hb as (m & Hm & -> & _). cbn. lia.
      * clear. induction new as [|x new IHn]; constructor; [done|]. apply Forall_forall. intros a (y & -> & _)%list_elem_of_fmap. done.
    + intros x d. rewrite elem_of_app, list_elem_of_fmap, Hin. split.
      * intros [(y & [= -> ->] & Hy)|(m & Hm & -> & Hf)]; [exists (S k); split_and!; [lia|done|by apply Hnext]|exists m; split_and!; [lia|done|done]].
      * intros (m & Hm & -> & Hf). destruct (decide (m = S k)) as [->|]; [left; exists x; split; [done|by apply Hnext]|right].
        exists m. split_and!; [lia|done|done].
Qed.
End Detail.

(** C30: a task is shown with all it waits for.  On any board, the detail of a
    task comes back; its rows are exactly the tasks it waits for, directly or
    through others, each once, the nearer before the farther, with the number
    of links of the shortest way to it; the progress counts them and those that
    succeeded. *)
Theorem task_detail_exact (tasks : list (string * Value)) (id : string) :
  ∃ v rows, task_detail tasks id = Some v ∧
    get "prerequisites" v = Some (Array ((λ r, row tasks r.2 r.1) <$> rows)) ∧
    get "progress" v = Some (Object [("succeeded", Num (PosInt (N.of_nat (length (filter (λ r, succeeded tasks r.1 = true) rows)))));
                                     ("total", Num (PosInt (N.of_nat (length rows))))]) ∧
    NoDup rows.*1 ∧ StronglySorted (λ a b, a.2 ≤ b.2)%N rows ∧
    ∀ x d, (x, d) ∈ rows ↔ ∃ n, (0 < n)%nat ∧ d = N.of_nat n ∧ first_at tasks id n x.
Proof.
  destruct (detail_loop_spec tasks id (length (mentioned tasks) + 2) 0 [id] {[id]} [] 0) as (rows & Hrun & Hnd & Hsort & Hin).
  { split_and!; [| |unfold universe; set_solver].
    - intros x. rewrite list_elem_of_singleton. split; [intros ->; split; [done|lia]|by intros [? _]].
    - intros x. rewrite elem_of_singleton. split; [intros ->; by exists O|]. intros (m & Hm & Hp). by replace m with O in Hp by lia. }
  { cbn. assert (Hs : (size (universe tasks id ∖ {[id]}) ≤ length (mentioned tasks))%nat); [|lia].
    etransitivity; [|apply size_list_to_set_le]. apply subseteq_size. unfold universe. set_solver. }
  unfold task_detail. change (N.of_nat 0) with 0%N in Hrun. rewrite Hrun. cbn [mbind option_bind fst snd app].
  eexists _, rows. split; [done|]. unfold get. rewrite assoc_obj_insert_ne by done. rewrite !assoc_obj_insert. split_and!; [done| |done..].
  rewrite length_fmap. do 6 f_equal. rewrite N.add_0_l. unfold how_many. f_equal.
  clear. induction rows as [|r rows IH]; [done|]. rewrite fmap_cons, !filter_cons. case_decide; cbn; by rewrite IH.
Qed.

(** ** Names *)

(** A name resolves to the task it is, or else to the only one it begins. *)
Lemma resolve_task_spec tasks named id : NoDup tasks.*1 → resolve_task tasks named = Ok id ↔
  let prefix := strip_hashes (trim named) in
  prefix ≠ ""%string ∧ id ∈ tasks.*1 ∧ starts_with prefix id = true ∧
  (id = prefix ∨ prefix ∉ tasks.*1 ∧ ∀ x, x ∈ tasks.*1 → starts_with prefix x = true → x = id).
Proof.
  intros Hnd. unfold resolve_task. set (prefix := strip_hashes (trim named)). clearbody prefix. cbv zeta.
  assert (Hself : starts_with prefix prefix = true).
  { unfold starts_with. induction prefix as [|a p IH]; [done|]. cbn. by rewrite Ascii.eqb_refl. }
  destruct prefix as [|a p] eqn:Ep; [cbn; split; [done|by intros [? _]]|]. cbn [str_empty]. rewrite <-Ep in *.
  assert (Hne : prefix ≠ ""%string) by (by rewrite Ep). clear Ep.
  pose proof (assoc_known prefix tasks) as Hk. destruct (assoc prefix tasks) as [t|]; cbn [is_some].
  - assert (Hin : prefix ∈ tasks.*1) by (by apply Hk). split; [intros [= <-]; split_and!; [done|done|done|by left]|]. by intros (_ & _ & _ & [->|[? _]]).
  - assert (Hno : prefix ∉ tasks.*1) by (rewrite <-Hk; by intros [? ?]).
    assert (Hl : ∀ x, x ∈ filter (λ id, starts_with prefix id = true) tasks.*1 ↔ x ∈ tasks.*1 ∧ starts_with prefix x = true)
      by (intros x; rewrite list_elem_of_filter; tauto).
    assert (Hndl : NoDup (filter (λ id, starts_with prefix id = true) tasks.*1)) by by apply NoDup_filter.
    destruct (filter _ tasks.*1) as [|x [|y l]].
    + split; [done|]. intros (_ & Hi & Hs & _). pose proof (proj2 (Hl id) (conj Hi Hs)) as Hx. by apply not_elem_of_nil in Hx.
    + split.
      * intros [= <-]. destruct (proj1 (Hl x)) as [Hx Hs]; [left|]. split_and!; [done|done|done|right]. split; [done|].
        intros z Hz Hzs. by apply list_elem_of_singleton, Hl.
      * intros (_ & Hi & Hs & _). f_equal. symmetry. by apply list_elem_of_singleton, Hl.
    + split; [done|]. intros (_ & Hi & Hs & [->|[_ Hu]]); [done|].
      destruct (proj1 (Hl x)) as [Hx Hxs]; [left|]. destruct (proj1 (Hl y)) as [Hy Hys]; [right; left|].
      apply NoDup_cons in Hndl as [Hxy _]. destruct Hxy. rewrite (Hu x Hx Hxs), (Hu y Hy Hys). left.
Qed.

(** ** Filters *)

Section Filters.
Context `{CaseFold} (c : ViewCtx) (id : string) (t : Value).

(** Alternatives within a group, all of the rest. *)
Definition satisfies (fs : list ViewFilter) : Prop :=
  (∀ f, f ∈ fs → group f = 0%N → filter_keeps c id t f = true) ∧
  (∀ f, f ∈ fs → group f ≠ 0%N → ∃ f', f' ∈ fs ∧ group f' = group f ∧ filter_keeps c id t f' = true).

Lemma match_loop_spec fs : ∀ any,
  match match_loop c id t fs any with
  | Some any' =>
      (∀ f, f ∈ fs → group f = 0%N → filter_keeps c id t f = true) ∧
      (∀ g b, any' !! g = Some b → (b = true ↔ any !! g = Some true ∨ ∃ f, f ∈ fs ∧ group f = g ∧ g ≠ 0%N ∧ filter_keeps c id t f = true)) ∧
      (∀ g, is_Some (any' !! g) ↔ is_Some (any !! g) ∨ ∃ f, f ∈ fs ∧ group f = g ∧ g ≠ 0%N)
  | None => ∃ f, f ∈ fs ∧ group f = 0%N ∧ filter_keeps c id t f = false
  end.
Proof.
  induction fs as [|f fs IH]; intros any; cbn [match_loop].
  - split_and!; [by intros f ?%not_elem_of_nil| |].
    + intros g b Hg. rewrite Hg. split; [intros ->; by left|]. intros [[= ->]|(f & ?%not_elem_of_nil & _)]; done.
    + intros g. split; [by left|]. intros [?|(f & ?%not_elem_of_nil & _)]; done.
  - destruct (N.eqb_spec (group f) 0) as [Hg0|Hg0].
    + destruct (filter_keeps c id t f) eqn:Ek; [|exists f; split_and!; [left|done|done]]. specialize (IH any).
      destruct (match_loop c id t fs any) as [any'|]; [|destruct IH as (f' & ? & ? & ?); exists f'; split_and!; [by right|done|done]].
      destruct IH as (H1 & H2 & H3). split_and!.
      * intros f' [->|Hf']%elem_of_cons; [done|by apply H1].
      * intros g b Hg. rewrite (H2 g b Hg). setoid_rewrite elem_of_cons. naive_solver.
      * intros g. rewrite H3. setoid_rewrite elem_of_cons. naive_solver.
    + set (hit := filter_keeps c id t f). set (any1 := <[group f := default false (any !! group f) || hit]> any). specialize (IH any1).
      destruct (match_loop c id t fs any1) as [any'|]; [|destruct IH as (f' & ? & ? & ?); exists f'; split_and!; [by right|done|done]].
      destruct IH as (H1 & H2 & H3). split_and!.
      * intros f' [->|Hf']%elem_of_cons; [done|by apply H1].
      * intros g b Hg. rewrite (H2 g b Hg). unfold any1. setoid_rewrite elem_of_cons. destruct (decide (g = group f)) as [->|Hne].
        -- rewrite lookup_insert_eq. assert (Hor : Some (default false (any !! group f) || hit) = Some true ↔ any !! group f = Some true ∨ hit = true).
           { destruct (any !! group f) as [[]|], hit; cbn; intuition congruence. }
           rewrite Hor. unfold hit. split; [intros [[?|?]|(f' & ? & ?)]; eauto 8|]. intros [?|(f' & [->|?] & ? & ? & ?)]; eauto 8.
        -- rewrite lookup_insert_ne by done. naive_solver.
      * intros g. rewrite H3. unfold any1. setoid_rewrite elem_of_cons. destruct (decide (g = group f)) as [->|Hne].
        -- rewrite lookup_insert_eq. naive_solver.
        -- rewrite lookup_insert_ne by done. naive_solver.
Qed.

Lemma matches_iff fs : matches c id t fs = true ↔ satisfies fs.
Proof.
  unfold matches, satisfies. pose proof (match_loop_spec fs ∅) as Hm. destruct (match_loop c id t fs ∅) as [any|].
  - destruct Hm as (H1 & H2 & H3). rewrite forallb_forall. split.
    + intros Hall. split; [done|]. intros f Hf Hg. destruct (proj2 (H3 (group f))) as [b Hb]; [right; eauto|].
      assert (b = true) as ->. { apply (Hall (group f, b)), list_elem_of_In. by apply elem_of_map_to_list. }
      destruct (proj1 (H2 _ _ Hb) eq_refl) as [Hx|(f' & ? & ? & _ & ?)]; [by rewrite lookup_empty in Hx|eauto].
    + intros [_ Hall] [g b] Hgb%list_elem_of_In%elem_of_map_to_list. cbn. apply (H2 _ _ Hgb).
      destruct (proj1 (H3 g)) as [[? Hx]|(f & Hf & Hfg & Hg)]; [eauto|by rewrite lookup_empty in Hx|].
      subst g. destruct (Hall f Hf Hg) as (f' & ? & Hg' & ?). right. exists f'. split_and!; [done|done|done|done].
  - destruct Hm as (f & Hf & Hg & Hk). split; [done|]. intros [Hall _]. by rewrite (Hall f Hf Hg) in Hk.
Qed.
End Filters.

(** ** The list *)

Lemma sorted_unmap {A B} (f : A → B) (R : relation B) l : StronglySorted R (f <$> l) → StronglySorted (λ a b, R (f a) (f b)) l.
Proof.
  induction l as [|x l IH]; [constructor|]. rewrite fmap_cons. intros [Hf Hs]%StronglySorted_cons. constructor; [by apply IH|].
  exact (proj1 (Forall_fmap f (R (f x)) l) Hf).
Qed.

Lemma sorted_filter {A} (R : relation A) (P : A → Prop) `{!∀ x, Decision (P x)} l : StronglySorted R l → StronglySorted R (filter P l).
Proof.
  induction 1 as [|x l _ IH Hf]; [constructor|]. rewrite filter_cons. case_decide; [|done]. constructor; [done|].
  apply Forall_forall. intros y [_ Hy]%list_elem_of_filter. rewrite Forall_forall in Hf. by apply Hf.
Qed.

#[local] Instance closed_le_trans : Transitive closed_le.
Proof. intros [a x] [b y] [d z]. unfold closed_le. cbn. intros [?|[-> ?]] [?|[-> ?]]; [left; lia|by left|by left|right]. split; [done|]. by etransitivity. Qed.
#[local] Instance closed_le_total : Total closed_le.
Proof. intros [a x] [b y]. unfold closed_le. cbn. destruct (N.lt_total a b) as [?|[->|?]]; [by right; left| |by left; left]. destruct (total String.le x y); [left|right]; by right. Qed.

Section Listing.
Context `{CaseFold} (c : ViewCtx) (fs : list ViewFilter) (rev : N) (tasks : list (string * Value)) (priority : list string).
Context (Hnd : NoDup tasks.*1) (Hprio : NoDup priority).
Hypothesis revs : ∀ e, e ∈ tasks → (touched_rev_of e.2 + RECENT_CLOSED_REVS <= u64_max)%N.

(** An entry that is shown. *)
Definition shows (e : string * Value) : Prop :=
  matches c e.1 e.2 fs = true ∧
  (existsb is_state fs = true ∨ is_closed e.2 = false ∨ (rev < touched_rev_of e.2 + RECENT_CLOSED_REVS)%N).

#[local] Instance shows_dec e : Decision (shows e).
Proof. unfold shows. apply _. Defined.

Lemma assoc_elem e : assoc e.1 tasks = Some e.2 ↔ e ∈ tasks.
Proof.
  clear revs. destruct e as [k v]. cbn. induction tasks as [|[k' v'] ts IH]; cbn; [by rewrite elem_of_nil|].
  apply NoDup_cons in Hnd as [Hk Hnd']. rewrite elem_of_cons. case_decide as Hd.
  - subst k'. split; [intros [= <-]; by left|]. intros [[= ->]|Hin]; [done|]. destruct Hk. by apply (list_elem_of_fmap_2 fst) in Hin.
  - rewrite IH by done. naive_solver.
Qed.

Lemma keep_listed_spec es : (∀ e, e ∈ es → e ∈ tasks) → keep_listed c fs rev es = Ok (filter shows es).
Proof.
  induction es as [|e es IH]; intros Hin; [done|]. cbn [keep_listed].
  assert (Hl : ∃ b, listed c fs rev e = Ok b ∧ (b = true ↔ shows e)).
  { unfold listed, shows. destruct (matches c e.1 e.2 fs); cbn [negb]; [|exists false; split; [done|]; split; [done|]; by intros [? _]].
    destruct (existsb is_state fs); cbn [orb]; [exists true; tauto|].
    destruct (is_closed e.2); cbn [negb]; [|exists true; tauto].
    assert (Hr : (touched_rev_of e.2 + RECENT_CLOSED_REVS <= u64_max)%N) by (apply revs, Hin; left).
    unfold u64_checked_add. rewrite (proj2 (N.leb_le _ _) Hr). cbn [expect obind]. eexists. split; [done|].
    rewrite N.ltb_lt. split; [tauto|]. by intros [_ [?|[?|?]]]. }
  destruct Hl as (b & -> & Hb). cbn [obind]. rewrite IH by (intros; apply Hin; by right). cbn [obind]. rewrite filter_cons.
  destruct (decide (shows e)) as [Hs|Hs], b; [done|by apply Hb in Hs|by destruct Hs; apply Hb|done].
Qed.

(** The entries of a list of known ids. *)
Definition entries_of (ids : list string) : list (string * Value) := omap (λ id, (λ t, (id, t)) <$> assoc id tasks) ids.

Lemma elem_of_entries_of ids e : e ∈ entries_of ids ↔ e.1 ∈ ids ∧ e ∈ tasks.
Proof.
  unfold entries_of. rewrite list_elem_of_omap. rewrite <-(assoc_elem e). split.
  - intros (id & Hid & (t & Ht & ->)%fmap_Some). done.
  - intros [Hid He]. exists e.1. split; [done|]. rewrite He. by destruct e.
Qed.

Lemma entries_of_self es : (∀ e, e ∈ es → e ∈ tasks) → entries_of (es.*1) = es.
Proof.
  induction es as [|e es IH]; intros Hin; [done|]. unfold entries_of. cbn. rewrite (proj2 (assoc_elem e)) by (apply Hin; left). cbn.
  f_equal; [by destruct e|]. apply IH. intros; apply Hin; by right.
Qed.

Lemma entries_of_keys ids : (∀ id, id ∈ ids → is_Some (assoc id tasks)) → (entries_of ids).*1 = ids.
Proof.
  induction ids as [|id ids IH]; intros Hin; [done|]. unfold entries_of. cbn. destruct (Hin id) as [t Ht]; [left|]. rewrite Ht. cbn.
  f_equal. apply IH. intros; apply Hin; by right.
Qed.

Definition closed_key (e : string * Value) : N * string := (touched_rev_of e.2, e.1).
Definition ranked : list string := filter (λ id, is_some (assoc id tasks) = true) priority.
Definition unranked : list (string * Value) := filter (λ e, e.1 ∉ ranked) tasks.

(** The closed tasks, in their order. *)
Definition closed_part : list (string * Value) :=
  entries_of (merge_sort closed_le (closed_key <$> filter (λ e, is_closed e.2 = true) unranked)).*2.

Lemma closed_part_spec :
  (∀ e, e ∈ closed_part ↔ e ∈ tasks ∧ e.1 ∉ ranked ∧ is_closed e.2 = true) ∧
  NoDup closed_part.*1 ∧ StronglySorted (λ e e', closed_le (closed_key e) (closed_key e')) closed_part.
Proof.
  set (cl := filter (λ e, is_closed e.2 = true) unranked).
  assert (Hcl : ∀ e, e ∈ cl ↔ e ∈ tasks ∧ e.1 ∉ ranked ∧ is_closed e.2 = true).
  { intros e. unfold cl, unranked. rewrite !list_elem_of_filter. tauto. }
  set (srt := merge_sort closed_le (closed_key <$> cl)).
  assert (Hperm : srt ≡ₚ (closed_key <$> cl)) by apply merge_sort_Permutation.
  assert (Hback : ∀ l, (∀ x, x ∈ l → ∃ e, e ∈ tasks ∧ x = closed_key e) → closed_key <$> entries_of (l.*2) = l).
  { induction l as [|x l IH]; intros Hin; [done|]. destruct (Hin x) as (e & He & ->); [left|]. unfold entries_of. cbn.
    rewrite (proj2 (assoc_elem e) He). cbn. f_equal. apply IH. intros y Hy. apply Hin. by right. }
  assert (Hkey : closed_key <$> closed_part = srt).
  { apply Hback. intros x Hx. fold cl srt in Hx. rewrite Hperm in Hx. apply list_elem_of_fmap in Hx as (e & -> & He). apply Hcl in He as [He _]. by exists e. }
  assert (Hids : srt.*2 ≡ₚ cl.*1) by (rewrite Hperm, <-list_fmap_compose; done).
  split_and!.
  - intros e. unfold closed_part. fold cl srt. rewrite elem_of_entries_of, Hids, list_elem_of_fmap, <-Hcl. split.
    + intros [(e' & He & He') Hin]. replace e with e'; [done|]. apply Hcl in He' as [Ht' _].
      apply assoc_elem in Ht', Hin. destruct e, e'. cbn in *. subst. rewrite Ht' in Hin. congruence.
    + intros He. split; [by exists e|]. apply Hcl in He as [He _]. exact He.
  - replace closed_part.*1 with srt.*2; [|rewrite <-Hkey, <-list_fmap_compose; done]. rewrite Hids.
    eapply sublist_NoDup; [exact Hnd|]. apply fmap_sublist. unfold cl, unranked. etransitivity; apply sublist_filter.
  - apply (sorted_unmap closed_key closed_le). rewrite Hkey. apply StronglySorted_merge_sort; apply _.
Qed.
End Listing.

(** The three parts have no id in common. *)
Lemma view_parts_nodup (tasks open cp : list (string * Value)) (rk : list string) :
  NoDup tasks.*1 → NoDup rk → NoDup open.*1 → NoDup cp.*1 →
  (∀ e, e ∈ open ↔ e ∈ tasks ∧ e.1 ∉ rk ∧ is_closed e.2 = false) → (∀ e, e ∈ cp ↔ e ∈ tasks ∧ e.1 ∉ rk ∧ is_closed e.2 = true) →
  NoDup (rk ++ open.*1 ++ cp.*1).
Proof.
  intros Hnd Hrk Ho Hc Hopen Hcp. apply NoDup_app. split_and!; [done| |apply NoDup_app; split_and!; [done| |done]].
  - intros i Hi [Hx|Hx]%elem_of_app; apply list_elem_of_fmap in Hx as (e & -> & He);
      [apply Hopen in He as (_ & Hn & _)|apply Hcp in He as (_ & Hn & _)]; done.
  - intros i (e & -> & He)%list_elem_of_fmap (e' & Heq & He')%list_elem_of_fmap.
    apply Hopen in He as (Ht & _ & Hf). apply Hcp in He' as (Ht' & _ & Hf'). apply (assoc_elem tasks Hnd) in Ht, Ht'.
    rewrite Heq in Ht. rewrite Ht in Ht'. injection Ht' as Hv. by rewrite Hv, Hf' in Hf.
Qed.

(** C31: the list of the view.  For a board whose ids and whose priority list
    have no repetition and whose revisions leave room for ten more, the list
    comes back; it shows each task at most once, and exactly those the filters
    let through (alternatives among states, time modes, sizes and types, all
    of the others) that are open, were touched in the last ten changesets, or
    were asked for by a state; first in the order of priority, then the other
    open ones as the board has them, then the closed ones, the latest touched
    first. *)
Theorem view_list_exact `{CaseFold} c fs rev (tasks : list (string * Value)) (priority : list string) :
  NoDup tasks.*1 → NoDup priority → (∀ e, e ∈ tasks → touched_rev_of e.2 + RECENT_CLOSED_REVS <= u64_max)%N →
  ∃ first open closed, view_tasks c fs rev tasks priority = Ok ((λ e, task_header e.1 e.2) <$> first ++ open ++ closed) ∧
    NoDup (first ++ open ++ closed).*1 ∧
    (∀ id t, (id, t) ∈ first ++ open ++ closed ↔ (id, t) ∈ tasks ∧ satisfies c id t fs ∧
       (existsb is_state fs = true ∨ is_closed t = false ∨ (rev < touched_rev_of t + RECENT_CLOSED_REVS)%N)) ∧
    first.*1 `sublist_of` priority ∧ open `sublist_of` tasks ∧
    Forall (λ e, is_closed e.2 = false ∧ e.1 ∉ priority) open ∧ Forall (λ e, is_closed e.2 = true) closed ∧
    StronglySorted (λ e e', closed_le (closed_key e) (closed_key e')) closed.
Proof.
  intros Hnd Hpr Hrevs. set (P := shows c fs rev). set (rk := ranked tasks priority).
  set (open := filter (λ e, is_closed e.2 = false) (unranked tasks priority)).
  destruct (closed_part_spec tasks priority Hnd) as (Hcm & Hcnd & Hcs). set (cp := closed_part tasks priority) in *.
  assert (Hopen : ∀ e, e ∈ open ↔ e ∈ tasks ∧ e.1 ∉ rk ∧ is_closed e.2 = false).
  { intros e. unfold open, unranked. rewrite !list_elem_of_filter. tauto. }
  assert (Hfirst : ∀ e, e ∈ entries_of tasks rk ↔ e.1 ∈ rk ∧ e ∈ tasks) by (intros e; by apply elem_of_entries_of).
  exists (filter P (entries_of tasks rk)), (filter P open), (filter P cp).
  assert (Hsub : (filter P (entries_of tasks rk) ++ filter P open ++ filter P cp) `sublist_of` entries_of tasks rk ++ open ++ cp)
    by (repeat apply sublist_app; apply sublist_filter).
  assert (Hkeys : (entries_of tasks rk).*1 = rk).
  { apply entries_of_keys. intros i [Hi _]%list_elem_of_filter. by destruct (assoc i tasks). }
  assert (Hord : entries_of tasks (view_order tasks priority) = entries_of tasks rk ++ open ++ cp).
  { unfold entries_of at 1, view_order. rewrite !omap_app. f_equal. f_equal. apply entries_of_self; [done|]. by intros e [? _]%Hopen. }
  assert (Hin : ∀ e, e ∈ entries_of tasks rk ++ open ++ cp ↔ e ∈ tasks).
  { intros e. rewrite !elem_of_app, Hfirst, Hopen, Hcm. destruct (decide (e.1 ∈ rk)), (is_closed e.2); tauto. }
  split_and!.
  - unfold view_tasks. change (omap _ (view_order tasks priority)) with (entries_of tasks (view_order tasks priority)).
    rewrite Hord, (keep_listed_spec c fs rev tasks Hrevs) by (intros e; apply Hin). cbn [obind]. by rewrite !filter_app.
  - eapply sublist_NoDup; [|apply fmap_sublist, Hsub]. rewrite !fmap_app, Hkeys. apply (view_parts_nodup tasks); [done|by apply NoDup_filter| |done|done|done].
    eapply sublist_NoDup; [exact Hnd|]. apply fmap_sublist. unfold open, unranked. etransitivity; apply sublist_filter.
  - intros i t. rewrite <-!filter_app, list_elem_of_filter, Hin. unfold P, shows. cbn [fst snd]. rewrite matches_iff. tauto.
  - etransitivity; [apply fmap_sublist, sublist_filter|]. rewrite Hkeys. apply sublist_filter.
  - etransitivity; [apply sublist_filter|]. unfold open, unranked. etransitivity; apply sublist_filter.
  - apply Forall_forall. intros e [_ (Ht & Hn & Hc)%Hopen]%list_elem_of_filter. split; [done|]. intros Hp. apply Hn.
    apply list_elem_of_filter. split; [|done]. apply assoc_elem in Ht; [|done]. by rewrite Ht.
  - apply Forall_forall. by intros e [_ (_ & _ & Hc)%Hcm]%list_elem_of_filter.
  - by apply sorted_filter.
Qed.
