(* ===== verification/ViewRun.v ===== *)
(** * A view

    A board of five tasks: [View] by evaluation, with a fold of ASCII letters
    for the case. *)

From S2P Require Import Prelude Strs Json WikiFold Votes Calendar Series Cycle Kanban View ViewProps.

Module ViewRun.

(** Capital letters made small. *)
Fixpoint lower (s : string) : string :=
  match s with
  | "" => ""
  | String a s =>
      let n := Ascii.N_of_ascii a in
      String (if (65 <=? n)%N && (n <=? 90)%N then Ascii.ascii_of_N (n + 32) else a) (lower s)
  end.

#[local] Instance ascii_fold : CaseFold := {| to_folded_case := lower |}.

Definition task (title state type : string) (blocked_by : list string) (touched : N) : Value :=
  Object [("blocked_by", Array (Str <$> blocked_by)); ("state", Str state); ("title", Str title);
          ("touched_rev", Num (PosInt touched)); ("type", Str type)].

(** The roof waits for the walls and the wood, the walls for the ground and
    the wood, the ground for the wood. *)
Definition house : list (string * Value) :=
  [("a1", task "Walls" "wip" " BUILD " ["g1"; "w1"] 5); ("g1", task "Ground" "success" "Dig" ["w1"] 3);
   ("h1", task "House" "todo" "build" ["r1"] 4); ("r1", task "Roof" "todo" "Build" ["a1"; "w1"] 4);
   ("w1", task "Wood" "success" "buy" [] 40)].

Definition ctx : ViewCtx := {| cx_seat := "ada"; cx_next := {["a1"]}; cx_starting := ∅; cx_voting := ∅ |}.

Definition titles (r : outcome ViewError (list Value)) : list string := match r with Ok l => omap (get_str "title") l | _ => ["error"] end.

(** Everything; what is built; what is to do or in progress and to act on. *)
Example house_views :
  titles (view_tasks ctx [] 41 house ["a1"; "h1"]) = ["Walls"; "House"; "Roof"; "Wood"] ∧
  titles (view_tasks ctx [FType "build"] 41 house ["a1"; "h1"]) = ["Walls"; "House"; "Roof"] ∧
  titles (view_tasks ctx [FState Todo; ToActOn; FState Wip] 41 house ["a1"; "h1"]) = ["Walls"] ∧
  titles (view_tasks ctx [Closed] 41 house ["a1"; "h1"]) = ["Wood"; "Ground"].
Proof. split_and!; by vm_compute. Qed.

(** Names, short and ambiguous, and filters. *)
Example house_names :
  resolve_task house " #a" = Ok "a1" ∧ resolve_task (house ++ [("wa", Null)]) "w" = Err (AmbiguousTask "w") ∧ resolve_task house "#" = Err NoTaskNamed ∧
  filter_parse "type: DIG " = Ok (FType "dig") ∧ filter_parse "wip" = Ok (FState Wip) ∧ filter_parse "size:XYZ" = Err (UnknownFilter "size:XYZ").
Proof. split_and!; by vm_compute. Qed.

(** The house waits for the roof, then the walls and the wood, then the
    ground; two of the four are done. *)
Example house_detail :
  (λ v, (array_of (get "prerequisites" v), get "progress" v)) <$> task_detail house "h1" =
  Some ([row house 1 "r1"; row house 2 "a1"; row house 2 "w1"; row house 3 "g1"],
        Some (Object [("succeeded", Num (PosInt 2)); ("total", Num (PosInt 4))])).
Proof. by vm_compute. Qed.

Lemma view_list_exact_witness :
  ∃ first open closed, view_tasks ctx [] 41 house ["a1"; "h1"] = Ok ((λ e, task_header e.1 e.2) <$> first ++ open ++ closed) ∧
    NoDup (first ++ open ++ closed).*1.
Proof.
  destruct (view_list_exact ctx [] 41 house ["a1"; "h1"]) as (first & open & closed & Hv & Hnd & _).
  - apply (bool_decide_unpack _). by vm_compute.
  - apply (bool_decide_unpack _). by vm_compute.
  - assert (Hall : forallb (λ e, touched_rev_of e.2 + RECENT_CLOSED_REVS <=? u64_max)%N house = true) by (by vm_compute).
    rewrite forallb_forall in Hall. intros e He%list_elem_of_In. by apply N.leb_le, Hall.
  - exact (ex_intro _ first (ex_intro _ open (ex_intro _ closed (conj Hv Hnd)))).
Defined.
End ViewRun.
