(* ===== verification/Sync.v ===== *)
(** * Catch-up and fork choice

    crates/molt-engine/src/chain/sync.rs, with the parts of governance.rs,
    projection.rs and checkpoint.rs it calls: how a node takes blocks from its
    peers.  A block extends the held chain, contends for a slot that is
    filled, or waits in a bounded buffer for the blocks below it; blocks of
    another branch are collected until they link, and the branch whose block
    at the fork has the smaller hash wins; a sealed cut drops the history
    below it.

    [Node] is the chain's part of the engine's state.  Cards and votes are
    [Votes]; what of them reaches the chain are the blocks they seal during
    the bookkeeping after a block (rebase_pending_approvals), and these are
    an input here ([take_seals]): [n_seals] lists, for each such occasion, the blocks the
    votes seal on it.  [n_wiki_durable] and [n_vault_durable] say whether the
    disk takes a folded base, which may change at any time ([EDisk]). *)

From S2P Require Import Prelude Bytes Strs Json Env Surface Roster Chain Checkpoint WikiFold Vault Cuts Standing Ledger Verify Walk WalkProps Projection Votes.

(** L3: how far past the head a block is buffered, and the buffers' size. *)
Definition CATCHUP_BUFFER_WINDOW : N := 4096.
Definition KNOWN_HEADS_MAX : nat := 16.

Record Node := mkNode {
  n_me : string;
  n_rid : string;
  n_now : N;
  n_blocks : list ChainBlock;
  n_blob : option CheckpointState;
  n_head : option ChainHead;
  n_walk : option ChainWalk;
  n_moved_at : N;
  n_wiki : option tree;
  n_vault : option VaultBase;
  n_pending : gmap N ChainBlock;
  n_served : option CheckpointState;
  n_forks : gmap N ChainBlock;
  n_catchup : option N;
  n_requests : list (N * list (N * string));
  n_diverged : gmap string (N * N);
  n_peers : gmap string N;
  n_wiki_durable : bool;
  n_vault_durable : bool;
  n_seals : list (list ChainBlock);
}.

(** Field updates. *)
Definition with_chain (blocks : list ChainBlock) (blob : option CheckpointState) (head : option ChainHead)
    (walk : option ChainWalk) (moved : N) (n : Node) : Node :=
  mkNode (n_me n) (n_rid n) (n_now n) blocks blob head walk moved (n_wiki n) (n_vault n) (n_pending n) (n_served n)
    (n_forks n) (n_catchup n) (n_requests n) (n_diverged n) (n_peers n) (n_wiki_durable n) (n_vault_durable n) (n_seals n).
Definition with_bases (wiki : option tree) (vault : option VaultBase) (n : Node) : Node :=
  mkNode (n_me n) (n_rid n) (n_now n) (n_blocks n) (n_blob n) (n_head n) (n_walk n) (n_moved_at n) wiki vault
    (n_pending n) (n_served n) (n_forks n) (n_catchup n) (n_requests n) (n_diverged n) (n_peers n) (n_wiki_durable n)
    (n_vault_durable n) (n_seals n).
Definition with_buffers (pending : gmap N ChainBlock) (served : option CheckpointState) (forks : gmap N ChainBlock)
    (n : Node) : Node :=
  mkNode (n_me n) (n_rid n) (n_now n) (n_blocks n) (n_blob n) (n_head n) (n_walk n) (n_moved_at n) (n_wiki n) (n_vault n)
    pending served forks (n_catchup n) (n_requests n) (n_diverged n) (n_peers n) (n_wiki_durable n) (n_vault_durable n)
    (n_seals n).
Definition with_peers (catchup : option N) (requests : list (N * list (N * string))) (diverged : gmap string (N * N))
    (peers : gmap string N) (seals : list (list ChainBlock)) (n : Node) : Node :=
  mkNode (n_me n) (n_rid n) (n_now n) (n_blocks n) (n_blob n) (n_head n) (n_walk n) (n_moved_at n) (n_wiki n) (n_vault n)
    (n_pending n) (n_served n) (n_forks n) catchup requests diverged peers (n_wiki_durable n) (n_vault_durable n) seals.

Definition set_walk (w : option ChainWalk) (n : Node) : Node :=
  with_chain (n_blocks n) (n_blob n) (n_head n) w (n_moved_at n) n.
Definition set_pending (p : gmap N ChainBlock) (n : Node) : Node := with_buffers p (n_served n) (n_forks n) n.
Definition set_served (b : option CheckpointState) (n : Node) : Node := with_buffers (n_pending n) b (n_forks n) n.
Definition set_forks (f : gmap N ChainBlock) (n : Node) : Node := with_buffers (n_pending n) (n_served n) f n.
Definition set_catchup (c : option N) (n : Node) : Node :=
  with_peers c (n_requests n) (n_diverged n) (n_peers n) (n_seals n) n.
Definition set_diverged (d : gmap string (N * N)) (n : Node) : Node :=
  with_peers (n_catchup n) (n_requests n) d (n_peers n) (n_seals n) n.

(** Entries above a height; the top entry shed while there are too many. *)
Definition keep_above {A} (h : N) (m : gmap N A) : gmap N A := filter (λ kv, (h < kv.1)%N) m.

Fixpoint shed {A} (fuel : nat) (m : gmap N A) : gmap N A :=
  match fuel with
  | O => m
  | S fuel =>
      if (CATCHUP_BUFFER_WINDOW <? N.of_nat (size m))%N
      then match last (sorted_keys m) with Some top => shed fuel (delete top m) | None => m end
      else m
  end.

(** Hash order, as Rust compares strings. *)
Definition str_lt (a b : string) : bool := negb (bool_decide (String.le b a)).

Definition block_at (blocks : list ChainBlock) (h : N) : option ChainBlock := find (λ b, (height b =? h)%N) blocks.

#[export] Instance ChainBlock_eq_dec : EqDecision ChainBlock.
Proof. solve_decision. Defined.

Section Sync.
Context `{Env, VaultSerde}.

(** ** The held chain *)

(** One surface's applied payloads; the log from before the chain is empty in
    a republic that has one. *)
Definition applied_payloads (sf : Surface) (n : Node) : list Value :=
  snd <$> default [] (p_applied (apply_chain_to_state (n_blob n) (n_blocks n)) !! sf).

Definition vault_founding_ctx (n : Node) : option VaultCtx :=
  match n_head n with
  | None => None
  | Some _ =>
      match n_blob n with
      | Some blob => ctx_from_founding (cs_rule_m blob) (founding_identities blob)
      | None =>
          match change <$> head (n_blocks n) with
          | Some (Genesis _ _ rule_m _ identities _ _ _) => ctx_from_founding rule_m identities
          | _ => None
          end
      end
  end.

Definition vault_base_committed (n : Node) : option (string * N) :=
  match vault_founding_ctx n with
  | None => None
  | Some _ => head (omap vault_base_commitment_of (applied_payloads Vault n))
  end.

Definition wiki_base_committed (n : Node) : option (string * N) :=
  head (omap wiki_base_commitment_of (applied_payloads Memory n)).

Definition EMPTY_BASE : VaultBase := {| vb_deposits := [] |}.

(** The hash a vault base is kept with. *)
Definition vault_hash (b : VaultBase) : option string := fst <$> vault_commitment b.

Definition vault_base_now (n : Node) : option VaultBase :=
  match vault_base_committed n with
  | None => None
  | Some (want, _) =>
      match n_vault n with
      | Some b => if bool_decide (vault_hash b = Some want) then Some b
                  else if bool_decide (vault_hash EMPTY_BASE = Some want) then Some EMPTY_BASE else None
      | None => if bool_decide (vault_hash EMPTY_BASE = Some want) then Some EMPTY_BASE else None
      end
  end.

Definition held_bases (n : Node) : Held := {| held_wiki := n_wiki n; held_vault := vault_base_now n |}.

Definition walk_own (n : Node) (blocks : list ChainBlock) : outcome ChainError ChainWalk :=
  match n_blob n with
  | None => walk_chain blocks
  | Some blob => walk_suffix_chain blob blocks (n_rid n) (held_bases n)
  end.

(** [set_checkpoint_blob]: the cached walk goes with it. *)
Definition set_checkpoint_blob (blob : option CheckpointState) (n : Node) : Node :=
  with_chain (n_blocks n) blob (n_head n) None (n_moved_at n) n.

Definition adopt_chain (chain : list ChainBlock) (n : Node) : run Node :=
  match walk_own n chain with
  | Ok walk => Ok (with_chain chain (n_blob n) (Some (w_head walk)) (Some walk) (n_now n) n)
  | Err _ => Ok (with_chain [] None None None (n_moved_at n) n)
  | Panic => Panic
  end.

(** [extend_own]: the walk that is kept, and the verdict. *)
Definition extend_own (block : ChainBlock) (n : Node) : Node * outcome ChainError ChainHead :=
  let walk :=
    match n_walk n with
    | Some w => if describes w (n_blocks n) (n_blob n) then Ok w else walk_own n (n_blocks n)
    | None => walk_own n (n_blocks n)
    end in
  match walk with
  | Ok w =>
      let '(w, r) := step w block (held_bases n) in
      (set_walk (Some w) n,
       match r with Ok _ => Ok (w_head w) | Err e => Err e | Panic => Panic end)
  | Err e => (set_walk None n, Err e)
  | Panic => (n, Panic)
  end.

Definition append_committed_block (block : ChainBlock) (n : Node) : run (Node * bool) :=
  let '(n, r) := extend_own block n in
  match r with
  | Ok head => Ok (with_chain (n_blocks n ++ [block]) (n_blob n) (Some head) (n_walk n) (n_now n) n, true)
  | Err _ => Ok (n, false)
  | Panic => Panic
  end.

(** ** Cuts *)

Definition own_cut_state (upto : N) (kind : CutKind) (n : Node)
    : outcome (ChainError + CutError) (CheckpointState * FoldedCut) :=
  let? st := omap_err inl
    match n_blob n with
    | None => checkpoint_state (n_blocks n) upto
    | Some blob => fold_state blob (n_blocks n) upto
    end in
  omap_err inr (fold_cut st kind (held_bases n)).

(** The cut arm of [after_block_applied]: the history below a sealed cut is
    dropped, unless its state cannot be built or its bases kept. *)
Definition drop_history (block : ChainBlock) (n : Node) : run Node :=
  match cut_of (change block) with
  | None => Ok n
  | Some (upto, _, kind) =>
      match own_cut_state upto kind n with
      | Ok (blob, folded) =>
          if is_some (fc_tree folded) && negb (n_wiki_durable n) then Ok n
          else if is_some (fc_vault folded) && negb (n_vault_durable n) then Ok n
          else
            let n := with_bases (match fc_tree folded with Some t => Some t | None => n_wiki n end)
                                (match fc_vault folded with Some b => Some b | None => n_vault n end) n in
            let n := set_checkpoint_blob (Some blob) n in
            Ok (with_chain (filter (λ b, (height block <= height b)%N) (n_blocks n)) (n_blob n) (n_head n) (n_walk n)
                  (n_moved_at n) n)
      | Err _ => Ok n
      | Panic => Panic
      end
  end.

(** A block the votes seal while the votes are re-based; the re-base inside it
    goes on with the list. *)
Definition adopt_sealed (block : ChainBlock) (n : Node) : run Node :=
  let? r := append_committed_block block n in
  if (r.2 : bool) then drop_history block r.1 else Ok r.1.

Fixpoint adopt_all (blocks : list ChainBlock) (n : Node) : run Node :=
  match blocks with
  | [] => Ok n
  | b :: blocks => let? n := adopt_sealed b n in adopt_all blocks n
  end.

(** Stands for rebase_pending_approvals: what the votes seal on this occasion
    is read off the input, each block adopted with its own bookkeeping. *)
Definition take_seals (n : Node) : run Node :=
  match n_seals n with
  | [] => Ok n
  | sealed :: rest =>
      adopt_all sealed (with_peers (n_catchup n) (n_requests n) (n_diverged n) (n_peers n) rest n)
  end.

Definition after_block_applied (block : ChainBlock) (n : Node) : run Node :=
  let? n := drop_history block n in take_seals n.

(** [adopt_committed_block]: a block sealed here. *)
Definition adopt_committed_block (block : ChainBlock) (n : Node) : run Node :=
  let? r := append_committed_block block n in
  if (r.2 : bool) then after_block_applied block r.1 else Ok r.1.

(** ** Asking and answering *)

(** [known_heads]: head first, then 1, 2, 4, ... back. *)
Fixpoint known_from (fuel : nat) (rid : string) (blocks : list ChainBlock) (head back : N) : run (list (N * string)) :=
  match fuel with
  | O => Ok []
  | S fuel =>
      if (head <? back)%N then Ok []
      else
        match block_at blocks (head - back) with
        | None => Ok []
        | Some b =>
            let? hash := expect (block_hash rid b) in
            let back := if (back =? 0)%N then 1%N else N.min (back * 2) u64_max in
            let? rest := known_from fuel rid blocks head back in
            Ok ((height b, hash) :: rest)
        end
  end.

Definition known_heads (n : Node) : run (list (N * string)) :=
  match last (n_blocks n) with
  | None => Ok []
  | Some b => known_from KNOWN_HEADS_MAX (n_rid n) (n_blocks n) (height b) 0
  end.

Definition request_catchup (from : N) (n : Node) : run Node :=
  if negb (is_some (n_head n)) || bool_decide (n_catchup n = Some from) then Ok n
  else
    let? known := known_heads n in
    Ok (with_peers (Some from) (n_requests n ++ [(from, known)]) (n_diverged n) (n_peers n) (n_seals n) n).

(** Does the node hold the block a sample names? *)
Fixpoint holds (rid : string) (blocks : list ChainBlock) (k : N * string) : run bool :=
  match blocks with
  | [] => Ok false
  | b :: blocks =>
      if (height b =? k.1)%N
      then let? h := expect (block_hash rid b) in if bool_decide (h = k.2) then Ok true else holds rid blocks k
      else holds rid blocks k
  end.

Fixpoint shared_heads (rid : string) (blocks : list ChainBlock) (known : list (N * string)) : run (list N) :=
  match known with
  | [] => Ok []
  | k :: known =>
      let? ok := holds rid blocks k in
      let? rest := shared_heads rid blocks known in
      Ok (if (ok : bool) then u64_saturating_add k.1 1 :: rest else rest)
  end.

Definition serve_from_for (from_height : N) (known : list (N * string)) (n : Node) : run N :=
  let? l := shared_heads (n_rid n) (n_blocks n) known in
  Ok (match l with [] => from_height | x :: l => foldl N.max x l end).

(** [serve_chain_from]: the blob ahead of the suffix, where there is one and
    the request lies below it ([fits] is [served_blob_fits]). *)
Definition serve_chain_from (fits : CheckpointState → bool) (from : N) (n : Node)
    : option CheckpointState * list ChainBlock :=
  let blocks := filter (λ b, (from <= height b)%N) (n_blocks n) in
  match blocks with
  | [] => (None, [])
  | _ =>
      (match n_blob n, head (n_blocks n) with
       | Some blob, Some anchor => if (from <? height anchor)%N && fits blob then Some blob else None
       | _, _ => None
       end, blocks)
  end.

(** [anchor_bootstrap]: the smallest prefix that verifies alone. *)
Definition anchor_bootstrap (fits : CheckpointState → bool) (n : Node) : option CheckpointState * list ChainBlock :=
  match head (n_blocks n) with
  | None => (None, [])
  | Some anchor => (blob ← n_blob n; if fits blob then Some blob else None, [anchor])
  end.

(** ** Divergence and heights *)

Definition note_divergence (from : string) (since_height : N) (n : Node) : Node :=
  if str_empty from then n
  else set_diverged (partial_alter (λ o,
         match o with
         | Some (since, _) => Some (N.min since since_height, n_now n)
         | None => Some (since_height, n_now n)
         end) from (n_diverged n)) n.

Definition clear_divergence (from : string) (n : Node) : Node := set_diverged (delete from (n_diverged n)) n.

Definition note_peer_height (from : string) (h : N) (n : Node) : Node :=
  if str_empty from || bool_decide (from = n_me n) then n
  else with_peers (n_catchup n) (n_requests n) (n_diverged n)
         (partial_alter (λ o, Some (N.max (default 0%N o) h)) from (n_peers n)) (n_seals n) n.

(** ** Another branch *)

Definition stash_fork_candidate (block : ChainBlock) (n : Node) : Node :=
  let m := <[height block := block]> (n_forks n) in set_forks (shed (size m) m) n.

(** The lowest candidate that links into the held chain. *)
Fixpoint find_fork (rid : string) (blocks : list ChainBlock) (forks : gmap N ChainBlock) (anchor : N) (hs : list N)
    : run (option N) :=
  match hs with
  | [] => Ok None
  | h :: hs =>
      if (h <=? anchor)%N then find_fork rid blocks forks anchor hs
      else
        match block_at blocks (h - 1), forks !! h with
        | Some below, Some cand =>
            let? hash := expect (block_hash rid below) in
            if bool_decide (hash = prev cand) then Ok (Some h) else find_fork rid blocks forks anchor hs
        | _, _ => find_fork rid blocks forks anchor hs
        end
  end.

(** The contiguous run of candidates from [h] upward, each linking to the one
    before. *)
Fixpoint linked_run (fuel : nat) (rid : string) (forks : gmap N ChainBlock) (h : N) (below : option ChainBlock)
    : run (list ChainBlock) :=
  match fuel with
  | O => Ok []
  | S fuel =>
      match forks !! h with
      | None => Ok []
      | Some c =>
          let? links :=
            match below with
            | None => Ok true
            | Some p => let? hash := expect (block_hash rid p) in Ok (bool_decide (prev c = hash))
            end in
          if (links : bool)
          then let? rest := linked_run fuel rid forks (u64_saturating_add h 1) (Some c) in Ok (c :: rest)
          else Ok []
      end
  end.

Definition with_prev (p : string) (b : ChainBlock) : ChainBlock :=
  {| height := height b; prev := p; change := change b; sigs := sigs b |}.

(** Own blocks, re-linked above [below]. *)
Fixpoint relink (rid : string) (below : option ChainBlock) (own : list ChainBlock) : run (list ChainBlock) :=
  match own with
  | [] => Ok []
  | b :: own =>
      let? p := match below with Some p => expect (block_hash rid p) | None => Ok "" end in
      let b := with_prev p b in
      let? rest := relink rid (Some b) own in
      Ok (b :: rest)
  end.

Fixpoint after_all (blocks : list ChainBlock) (n : Node) : run Node :=
  match blocks with
  | [] => Ok n
  | b :: blocks => let? n := after_block_applied b n in after_all blocks n
  end.

Definition relink_onto_variant (from : string) (candidate : list ChainBlock) (n : Node) : run Node :=
  let old_head := match n_head n with Some h => hd_height h | None => 0%N end in
  let top := match last candidate with Some b => height b | None => 0%N end in
  let? own := relink (n_rid n) (last candidate) (filter (λ b, (top < height b)%N) (n_blocks n)) in
  let candidate := candidate ++ own in
  let n := set_forks ∅ n in
  match walk_own n candidate with
  | Ok _ =>
      let fresh := filter (λ b, (old_head < height b)%N) candidate in
      let? n := adopt_chain candidate n in
      let? n := after_all fresh n in
      Ok (clear_divergence from n)
  | Err _ => Ok n
  | Panic => Panic
  end.

(** Does the other branch decide what ours decides, slot by slot? *)
Definition same_decisions (blocks suffix : list ChainBlock) : bool :=
  forallb (λ c, match block_at blocks (height c) with
                | Some o => bool_decide (change o = change c)
                | None => true
                end) suffix.

(** The reorganisation proper: our prefix below [f], their suffix. *)
Definition take_branch (f : N) (suffix : list ChainBlock) (n : Node) : run Node :=
  let candidate := filter (λ b, (height b < f)%N) (n_blocks n) ++ suffix in
  match walk_own n candidate with
  | Err _ => Ok (set_forks ∅ n)
  | Panic => Panic
  | Ok _ =>
      let? n := adopt_chain candidate n in
      let? n := after_all suffix n in
      let? n := take_seals n in
      let n := set_diverged ∅ (set_forks ∅ n) in
      match n_head n with
      | Some h => request_catchup (u64_saturating_add (hd_height h) 1) (set_catchup None n)
      | None => Ok n
      end
  end.

Definition try_reorg (from : string) (n : Node) : run Node :=
  match head (n_blocks n) with
  | None => Ok n
  | Some first =>
      let anchor := height first in
      let? fork := find_fork (n_rid n) (n_blocks n) (n_forks n) anchor (sorted_keys (n_forks n)) in
      match fork with
      | None =>
          match head (sorted_keys (n_forks n)) with
          | Some lowest =>
              if (u64_saturating_add anchor 1 <? lowest)%N
              then request_catchup (N.max (lowest - 1) (u64_saturating_add anchor 1)) n
              else Ok n
          | None => Ok n
          end
      | Some f =>
          let? suffix := linked_run (S (size (n_forks n))) (n_rid n) (n_forks n) f None in
          match block_at (n_blocks n) f, suffix with
          | None, _ => Ok n
          | Some _, [] => Panic
          | Some ours, theirs :: _ =>
              let? mine := expect (block_hash (n_rid n) ours) in
              let? other := expect (block_hash (n_rid n) theirs) in
              if bool_decide (String.le mine other) then Ok (set_forks ∅ n)
              else if same_decisions (n_blocks n) suffix
                   then relink_onto_variant from (filter (λ b, (height b < f)%N) (n_blocks n) ++ suffix) n
                   else take_branch f suffix n
          end
      end
  end.

(** ** A contended slot *)

Definition signed_enough (n : Node) (block : ChainBlock) : run bool :=
  match n_head n with
  | None => Ok false
  | Some h =>
      match block_signers (n_rid n) (hd_identities h) block with
      | Ok signers => Ok (hd_rule_m h <=? N.of_nat (size signers))%N
      | Err _ => Ok false
      | Panic => Panic
      end
  end.

Definition links_below (n : Node) (block : ChainBlock) : run bool :=
  match find (λ b, (u64_saturating_add (height b) 1 =? height block)%N) (n_blocks n) with
  | None => Ok true
  | Some below => let? hash := expect (block_hash (n_rid n) below) in Ok (bool_decide (hash = prev block))
  end.

(** The tip is replaced, if the chain then verifies. *)
Definition swap_tip (block : ChainBlock) (n : Node) : run Node :=
  let blocks := take (length (n_blocks n) - 1) (n_blocks n) ++ [block] in
  match walk_own n blocks with
  | Ok w => after_block_applied block (with_chain blocks (n_blob n) (Some (w_head w)) (n_walk n) (n_now n) n)
  | Err _ => Ok n
  | Panic => Panic
  end.

Definition tie_break (from : string) (block : ChainBlock) (n : Node) : run Node :=
  match block_at (n_blocks n) (height block) with
  | None => Ok n
  | Some existing =>
      if bool_decide (existing = block) then Ok (clear_divergence from n)
      else
        let? incoming := expect (block_hash (n_rid n) block) in
        let? current := expect (block_hash (n_rid n) existing) in
        let is_tip := match last (n_blocks n) with Some b => (height b =? height block)%N | None => false end in
        let? shared_prev := links_below n block in
        let? signed := signed_enough n block in
        if (shared_prev : bool) && bool_decide (change existing = change block) then
          if str_lt incoming current && (signed : bool) then try_reorg from (stash_fork_candidate block n) else Ok n
        else if negb shared_prev || negb is_tip then
          let since := if shared_prev : bool then height block else (height block - 1)%N in
          try_reorg from (stash_fork_candidate block (note_divergence from since n))
        else if str_lt incoming current then
          if (signed : bool) then swap_tip block n else Ok n
        else Ok n
  end.

(** ** Blocks in order *)

Definition apply_next_block (block : ChainBlock) (n : Node) : run (Node * bool) :=
  let? r := append_committed_block block n in
  if (r.2 : bool) then
    let? n := after_block_applied block r.1 in
    Ok (match n_catchup n with
        | Some f => if (f <=? height block)%N then set_catchup None n else n
        | None => n
        end, true)
  else Ok (r.1, false).

Fixpoint drain_loop (fuel : nat) (n : Node) : run Node :=
  match fuel, n_head n with
  | S fuel, Some head =>
      let? next := expect (u64_checked_add (hd_height head) 1) in
      match n_pending n !! next with
      | None => Ok n
      | Some block =>
          let? r := apply_next_block block (set_pending (delete next (n_pending n)) n) in
          if (r.2 : bool) then drain_loop fuel r.1 else Ok r.1
      end
  | _, _ => Ok n
  end.

Definition drain_buffered_blocks (n : Node) : run Node :=
  let? n := drain_loop (S (size (n_pending n))) n in
  Ok (set_pending (keep_above (match n_head n with Some h => hd_height h | None => 0%N end) (n_pending n)) n).

(** ** A served summary *)

Definition drop_a_stale_wiki_base (n : Node) : run Node :=
  match n_wiki n with
  | None => Ok n
  | Some t =>
      let? c := expect (wiki_commitment t) in
      Ok (if bool_decide (Some c.1 = fst <$> wiki_base_committed n) then n else with_bases None (n_vault n) n)
  end.

Definition drop_a_stale_vault_base (n : Node) : Node :=
  match n_vault n with
  | None => n
  | Some b =>
      if bool_decide (vault_hash b = fst <$> vault_base_committed n) then n else with_bases (n_wiki n) None n
  end.

(** The buffered run from [h] on. *)
Fixpoint buffered_run (fuel : nat) (pending : gmap N ChainBlock) (h : N) : list ChainBlock :=
  match fuel with
  | O => []
  | S fuel =>
      match pending !! h with
      | None => []
      | Some b => b :: match u64_checked_add h 1 with Some next => buffered_run fuel pending next | None => [] end
      end
  end.

Definition try_adopt_from_blob (n : Node) : run Node :=
  match n_served n with
  | None => Ok n
  | Some blob =>
      if match n_head n with Some h => (cs_upto blob <? hd_height h)%N | None => false end then Ok (set_served None n)
      else
        match u64_checked_add (cs_upto blob) 1 with
        | None => Ok (set_served None n)
        | Some anchor_height =>
            if negb (is_some (n_pending n !! anchor_height)) then Ok n
            else
              let candidate := buffered_run (S (size (n_pending n))) (n_pending n) anchor_height in
              match walk_suffix_chain blob candidate (n_rid n) (held_bases n) with
              | Ok w =>
                  let h := hd_height (w_head w) in
                  let n := with_chain candidate (Some blob) (Some (w_head w)) None (n_moved_at n) n in
                  let n := with_buffers (keep_above h (n_pending n)) None (n_forks n) n in
                  let? n := drop_a_stale_wiki_base n in
                  let? n := take_seals (drop_a_stale_vault_base n) in
                  Ok (match n_catchup n with
                      | Some f => if (f <=? h)%N then set_catchup None n else n
                      | None => n
                      end)
              | Err _ => Ok (set_served None n)
              | Panic => Panic
              end
        end
  end.

Definition receive_checkpoint_blob (blob : CheckpointState) (n : Node) : run Node :=
  let behind := match n_head n with None => true | Some h => (hd_height h <? cs_upto blob)%N end in
  if negb behind || is_some (n_served n) then Ok n
  else
    let? rid := expect (republic_id (founding_name blob) (cs_rule_m blob) (cs_rule_n blob) (founding_identities blob)) in
    if negb (bool_decide (rid = n_rid n)) || negb (bool_decide (rid = cs_republic_id blob)) then Ok n
    else try_adopt_from_blob (set_served (Some blob) n).

(** ** A block arrives *)

Definition buffer (block : ChainBlock) (n : Node) : Node :=
  let m := <[height block := block]> (n_pending n) in set_pending (shed (size m) m) n.

Definition receive_headless (block : ChainBlock) (n : Node) : run Node :=
  if (height block =? 0)%N then
    if match change block with
       | Genesis _ rid _ _ _ _ _ _ => negb (str_empty (n_rid n)) && negb (bool_decide (rid = n_rid n))
       | _ => false
       end then Ok n
    else
      let? n := adopt_chain [block] n in
      if is_some (n_head n) then drain_buffered_blocks n else Ok n
  else try_adopt_from_blob (buffer block n).

Definition receive_ahead (head : ChainHead) (block : ChainBlock) (n : Node) : run Node :=
  let anchor_ok :=
    match n_served n with
    | Some blob => (cs_upto blob <? height block)%N &&
                   (height block <=? u64_saturating_add (cs_upto blob) CATCHUP_BUFFER_WINDOW)%N
    | None => false
    end in
  if (u64_saturating_add (hd_height head) CATCHUP_BUFFER_WINDOW <? height block)%N && negb anchor_ok then Ok n
  else
    let n := set_pending (keep_above (hd_height head) (n_pending n)) n in
    let? n := try_adopt_from_blob (buffer block n) in
    let? next := expect (u64_checked_add (hd_height head) 1) in
    request_catchup next n.

Definition receive_block_from (from : string) (block : ChainBlock) (n : Node) : run Node :=
  let n := note_peer_height from (height block) n in
  match n_head n with
  | None => receive_headless block n
  | Some head =>
      let? next := expect (u64_checked_add (hd_height head) 1) in
      if (height block =? next)%N then
        if negb (bool_decide (prev block = hd_hash head))
        then try_reorg from (stash_fork_candidate block (note_divergence from (hd_height head) n))
        else
          let? r := apply_next_block block n in
          if (r.2 : bool) then drain_buffered_blocks (clear_divergence from r.1) else Ok r.1
      else if (height block <=? hd_height head)%N then tie_break from block n
      else receive_ahead head block n
  end.

(** ** Runs *)

Inductive event :=
  | EBlock (from : string) (block : ChainBlock)
  | EBlob (blob : CheckpointState)
  | ESealed (block : ChainBlock)
  | EClock (now : N)
  | EDisk (wiki vault : bool).

Definition set_now (now : N) (n : Node) : Node :=
  mkNode (n_me n) (n_rid n) now (n_blocks n) (n_blob n) (n_head n) (n_walk n) (n_moved_at n) (n_wiki n) (n_vault n)
    (n_pending n) (n_served n) (n_forks n) (n_catchup n) (n_requests n) (n_diverged n) (n_peers n) (n_wiki_durable n)
    (n_vault_durable n) (n_seals n).

(** What the disk takes from now on. *)
Definition set_durable (wiki vault : bool) (n : Node) : Node :=
  mkNode (n_me n) (n_rid n) (n_now n) (n_blocks n) (n_blob n) (n_head n) (n_walk n) (n_moved_at n) (n_wiki n) (n_vault n)
    (n_pending n) (n_served n) (n_forks n) (n_catchup n) (n_requests n) (n_diverged n) (n_peers n) wiki vault (n_seals n).

Definition handle (e : event) (n : Node) : run Node :=
  match e with
  | EBlock from block => receive_block_from from block n
  | EBlob blob => receive_checkpoint_blob blob n
  | ESealed block => adopt_committed_block block n
  | EClock now => Ok (set_now now n)
  | EDisk wiki vault => Ok (set_durable wiki vault n)
  end.

Fixpoint run_node (es : list event) (n : Node) : run Node :=
  match es with
  | [] => Ok n
  | e :: es => let? n := handle e n in run_node es n
  end.

End Sync.
