(* ===== verification/Fork.v ===== *)
(** * The order of the fork choice

    Two branches that part at some height are compared at that height: the
    one whose block has the smaller hash is the better
    (crates/molt-engine/src/chain/sync.rs, [try_reorg] and [tie_break]).
    [moved a b] says that history [b] extends [a] or is better than it. *)

From S2P Require Import Prelude Bytes Strs Json Env Surface Roster Chain Checkpoint Verify Votes Sync.

Lemma str_lt_irrefl s : str_lt s s = false.
Proof. unfold str_lt. rewrite bool_decide_eq_true_2; [done|]. apply (reflexivity (R := String.le)). Qed.

Lemma str_lt_trans a b c : str_lt a b = true → str_lt b c = true → str_lt a c = true.
Proof.
  unfold str_lt. rewrite !negb_true_iff, !bool_decide_eq_false. intros H1 H2 H3.
  destruct (total String.le a b) as [Hab|Hba]; [|done]. apply H2. by transitivity a.
Qed.

Section Fork.
Context `{Env}.

(** The branch [b] parts from [a] with a smaller hash. *)
Definition parts (rid : string) (a b : list ChainBlock) : Prop :=
  ∃ p x s y t hx hy, p ≠ [] ∧ a = p ++ x :: s ∧ b = p ++ y :: t ∧
    block_hash rid x = Some hx ∧ block_hash rid y = Some hy ∧ str_lt hy hx = true.

Definition moved (rid : string) (a b : list ChainBlock) : Prop := (∃ ext, b = a ++ ext) ∨ parts rid a b.

#[export] Instance moved_refl rid : Reflexive (moved rid).
Proof. intros a. left. exists []. by rewrite app_nil_r. Qed.

Lemma moved_app rid a ext : moved rid a (a ++ ext).
Proof. left. by exists ext. Qed.

(** Where two cuts of one list lie. *)
Lemma middle_inv {A} (p q : list A) x y s t : p ++ x :: s = q ++ y :: t →
  (∃ k, p = q ++ y :: k ∧ t = k ++ x :: s) ∨ p = q ∧ x = y ∧ s = t ∨ (∃ k, q = p ++ x :: k ∧ s = k ++ y :: t).
Proof.
  revert q. induction p as [|z p IH]; intros [|w q] E; cbn in E.
  - injection E as -> ->. by right; left.
  - injection E as -> ->. right; right. by exists q.
  - injection E as <- <-. left. by exists p.
  - injection E as -> E. destruct (IH _ E) as [(k & -> & ->)|[(-> & -> & ->)|(k & -> & ->)]]; [left|right; left|right; right]; eauto.
Qed.

Lemma parts_trans rid a b c : parts rid a b → parts rid b c → parts rid a c.
Proof.
  intros (p & x & s & y & t & hx & hy & Hp & -> & -> & Hx & Hy & Hxy)
    (q & x' & s' & z & u & hx' & hz & Hq & E & -> & Hx' & Hz & Hxz).
  destruct (middle_inv _ _ _ _ _ _ E) as [(k & -> & ->)|[(-> & -> & ->)|(k & -> & ->)]].
  - exists q, x', (k ++ x :: s), z, u, hx', hz. rewrite <-app_assoc. by split_and!.
  - exists q, x, s, z, u, hx, hz. rewrite Hy in Hx'. injection Hx' as ->. split_and!; try done. by eapply str_lt_trans.
  - exists p, x, s, y, (k ++ z :: u), hx, hy. rewrite <-app_assoc. by split_and!.
Qed.

#[export] Instance moved_trans rid : Transitive (moved rid).
Proof.
  intros a b c [[ext ->]|Hab] [[ext' ->]|Hbc].
  - left. exists (ext ++ ext'). by rewrite app_assoc.
  - destruct Hbc as (p & x & s & y & t & hx & hy & Hp & E & -> & Hx & Hy & Hlt).
    destruct ext as [|e ext].
    + rewrite app_nil_r in E. right. exists p, x, s, y, t, hx, hy. by split_and!.
    + destruct (middle_inv _ _ _ _ _ _ E) as [(k & -> & Es)|[(-> & -> & ->)|(k & -> & ->)]].
      * right. exists p, x, k, y, t, hx, hy. by split_and!.
      * left. by eexists.
      * left. exists (e :: k ++ y :: t). by rewrite <-app_assoc.
  - right. destruct Hab as (p & x & s & y & t & hx & hy & Hp & -> & -> & Hx & Hy & Hlt).
    exists p, x, s, y, (t ++ ext'), hx, hy. rewrite <-app_assoc. by split_and!.
  - right. by eapply parts_trans.
Qed.

Lemma parts_irrefl rid a : ¬ parts rid a a.
Proof.
  intros (p & x & s & y & t & hx & hy & _ & -> & E & Hx & Hy & Hlt). apply app_inv_head in E. injection E as -> ->.
  rewrite Hx in Hy. injection Hy as ->. by rewrite str_lt_irrefl in Hlt.
Qed.

(** A history that was given up never comes back. *)
#[export] Instance moved_antisym rid : AntiSymm eq (moved rid).
Proof.
  intros a b [[ext ->]|Hab] [[ext' E]|Hba]; [| | |].
  - rewrite <-app_assoc in E. apply (f_equal length) in E as El. rewrite !length_app in El.
    destruct ext; [by rewrite app_nil_r|simpl in El; lia].
  - assert (Hx : moved rid a (a ++ ext)) by apply moved_app. exfalso.
    destruct ext as [|e ext]; [rewrite app_nil_r in Hba; by eapply parts_irrefl|].
    destruct Hba as (p & x & s & y & t & hx & hy & Hp & E & Ea & Hx' & Hy & Hlt). subst a.
    rewrite <-app_assoc in E. apply app_inv_head in E. cbn in E. injection E as -> _.
    rewrite Hx' in Hy. injection Hy as ->. by rewrite str_lt_irrefl in Hlt.
  - exfalso. subst a. destruct Hab as (p & x & s & y & t & hx & hy & Hp & E & -> & Hx & Hy & Hlt).
    rewrite <-app_assoc in E. apply app_inv_head in E. cbn in E. injection E as <- _.
    rewrite Hx in Hy. injection Hy as ->. by rewrite str_lt_irrefl in Hlt.
  - destruct (parts_irrefl rid a). by eapply parts_trans.
Qed.

End Fork.
