(* ===== verification/SyncInv.v ===== *)
(** * The history behind a node

    Whatever blocks reach a node, from whomever and in whatever order, the
    chain it holds is the end of a history that the walk accepts from the
    genesis on, whether or not the node pruned it; and the histories it goes
    through only ever move up in the order of the fork choice. *)

From S2P Require Import Prelude Bytes Strs Json Env Surface Roster Chain Checkpoint WikiFold Vault Cuts Ledger Verify Walk WalkProps Projection Prune Votes Sync Fork.

Definition outcome_rel {E A B} (R : A → B → Prop) (x : outcome E A) (y : outcome E B) : Prop :=
  match x, y with Ok a, Ok b => R a b | Err e, Err e' => e = e' | Panic, Panic => True | _, _ => False end.

Section History.
Context `{Env, VaultSerde}.

(** ** What a pruned chain stands for *)

(** [pre] is what the holder of [blob] and [wiki] dropped below [cp]. *)
Definition dropped (blob : option CheckpointState) (wiki : option tree) (cp : ChainBlock) (pre : list ChainBlock) : Prop :=
  match blob with
  | None => pre = [] ∧ wiki = None
  | Some blob => pre ≠ [] ∧ ∃ upto h kind st fc, cut_of (change cp) = Some (upto, h, kind) ∧
      checkpoint_state pre upto = Ok st ∧ fold_cut st kind Held_default = Ok (blob, fc) ∧ wiki = fc_tree fc
  end.

(** The walk of the full history and the holder's own. *)
Definition sim (blob : option CheckpointState) (wiki : option tree) (w1 w2 : ChainWalk) : Prop :=
  match blob with None => w1 = w2 | Some _ => walk_sim (default ∅ wiki) w1 w2 end.

Definition own_walk (blob : option CheckpointState) (wiki : option tree) (rid : string) (blocks : list ChainBlock)
    : outcome ChainError ChainWalk :=
  match blob with
  | None => walk_chain blocks
  | Some blob => walk_suffix_chain blob blocks rid (Held_of_wiki wiki)
  end.

Lemma sim_report blob wiki w1 w2 : sim blob wiki w1 w2 → w_head w2 = w_head w1 ∧ w_seen w2 = w_seen w1.
Proof. destruct blob as [blob|]; [intros []; done|intros ->; done]. Qed.

Lemma step_rel blob wiki w1 w2 b : (blob = None → wiki = None) → sim blob wiki w1 w2 → brings_no_base b →
  (step w1 b Held_default).2 = (step w2 b (Held_of_wiki wiki)).2 ∧
  ((step w1 b Held_default).2 = Ok tt → sim blob wiki (step w1 b Held_default).1 (step w2 b (Held_of_wiki wiki)).1).
Proof.
  intros Hw Hs Hb. destruct blob as [blob|]; [by apply step_sim|]. rewrite (Hw eq_refl). simpl in Hs. subst w2. done.
Qed.

Lemma steps_rel blob wiki w1 w2 bs : (blob = None → wiki = None) → sim blob wiki w1 w2 → Forall brings_no_base bs →
  outcome_rel (sim blob wiki) (steps w1 bs Held_default) (steps w2 bs (Held_of_wiki wiki)).
Proof.
  intros Hw. revert w1 w2. induction bs as [|b bs IH]; intros w1 w2 Hs Hb; simpl; [done|].
  apply Forall_cons in Hb as [Hb Hbs]. destruct (step_rel blob wiki w1 w2 b Hw Hs Hb) as [E1 E2].
  destruct (step w1 b Held_default) as [w1' r1], (step w2 b (Held_of_wiki wiki)) as [w2' r2].
  simpl in *. subst r2. destruct r1 as [[]| |]; simpl; try done. apply IH; auto.
Qed.

(** The holder's walk over its own chain, and any other continuation from the
    same anchor, is the walk over the full history. *)
Lemma own_walk_sim f blob wiki cp pre w rest : dropped blob wiki cp pre →
  walk_chain (pre ++ [cp]) = Ok w → head (pre ++ [cp]) ≫= founding_of = Some f → keyed (f_ids f) = false →
  Forall brings_no_base rest →
  outcome_rel (sim blob wiki) (walk_chain (pre ++ cp :: rest)) (own_walk blob wiki (f_rid f) (cp :: rest)).
Proof.
  intros Hd Hw Hf Hk Hrest. rewrite cons_middle, app_assoc, walk_chain_app by (by destruct pre). rewrite Hw. cbn [obind].
  destruct blob as [blob|]; cbn [dropped own_walk] in *.
  - destruct Hd as (Hne & upto & h & kind & st & fc & Hcut & Hst & Hfc & ->).
    destruct (proj1 (walk_chain_last pre cp w Hne) Hw) as (w0 & Hw0 & Hs).
    destruct (walk_chain_repr _ _ Hw0) as [f' Hr].
    assert (f' = f) as ->.
    { destruct (wr_genesis _ _ _ Hr) as (g & r & -> & Hg). simpl in Hf. congruence. }
    assert (Hgen : ∀ hd, head pre = Some hd → is_ok (verify_genesis hd) = true).
    { destruct pre as [|g r]; [done|]. intros hd [= <-]. unfold walk_chain, genesis_walk in Hw0.
      by destruct (verify_genesis g). }
    apply unkeyed_vault in Hk.
    destruct (anchor_sim f pre cp w w0 upto h kind blob fc st) as (Ha & w2 & Hw2 & Hsim); try done.
    unfold walk_suffix_chain. rewrite Ha. cbn [obind]. rewrite Hw2. cbn [obind].
    by apply (steps_rel (Some blob) (fc_tree fc)).
  - destruct Hd as [-> ->]. change (cp :: rest) with ([cp] ++ rest). rewrite walk_chain_app by done.
    change ([] ++ [cp]) with [cp] in Hw. rewrite Hw. cbn [obind]. by apply (steps_rel None None).
Qed.

(** ** The node and its history *)

(** A cached walk is the node's own, or one of a tip that lost its slot. *)
Definition cache_ok (n : Node) (wf : ChainWalk) : Prop :=
  ∀ w, n_walk n = Some w → sim (n_blob n) (n_wiki n) wf w ∨
    hd_republic_id (w_head w) = n_rid n ∧ str_lt (hd_hash (w_head wf)) (hd_hash (w_head w)) = true.

(** The node holds the end of [pre ++ n_blocks n]. *)
Record backed (f : Founding) (pre : list ChainBlock) (n : Node) : Prop := {
  bk_blocks : n_blocks n ≠ [];
  bk_dropped : ∀ cp, head (n_blocks n) = Some cp → dropped (n_blob n) (n_wiki n) cp pre;
  bk_founding : head (pre ++ n_blocks n) ≫= founding_of = Some f;
  bk_rid : n_rid n = f_rid f;
  bk_keyed : keyed (f_ids f) = false;
  bk_plain : Forall brings_no_base (n_blocks n);
  bk_walk : ∃ wf, walk_chain (pre ++ n_blocks n) = Ok wf ∧ n_head n = Some (w_head wf) ∧ cache_ok n wf;
}.

Lemma founding_keyless f : keyed (f_ids f) = false → ctx_from_founding (f_m f) (f_ids f) = None.
Proof. by intros ?%unkeyed_vault. Qed.

(** The cut a pruned holder stands on, against the history it dropped. *)
Lemma dropped_cut f blob wiki cp pre suf wf : dropped (Some blob) wiki cp pre →
  walk_chain (pre ++ cp :: suf) = Ok wf → head (pre ++ cp :: suf) ≫= founding_of = Some f → keyed (f_ids f) = false →
  ∃ w0 upto h kind fc, walk_chain pre = Ok w0 ∧ walk_repr f pre w0 ∧ block_valid f pre cp ∧
    cut_of (change cp) = Some (upto, h, kind) ∧ cut_vault kind = false ∧ cs_upto blob = upto ∧
    fold_cut (state_at (w_running w0) upto) kind Held_default = Ok (blob, fc) ∧ wiki = fc_tree fc ∧
    state_sim (cut_wiki kind) (default ∅ (fc_tree fc)) (w_running w0) blob.
Proof.
  intros (Hne & upto & h & kind & st & fc & Hcut & Hst & Hfc & Hwiki) Hw Hf Hk.
  destruct (walk_chain_repr _ _ Hw) as [f' Hr].
  destruct (walk_chain_valid _ _ _ _ _ Hw Hr Hne) as (w0 & Hw0 & Hr0 & Hv).
  assert (f' = f) as ->.
  { destruct (wr_genesis _ _ _ Hr) as (g & r & Eg & Hg). rewrite Eg in Hf. simpl in Hf. congruence. }
  destruct (bv_cut _ _ _ Hv _ _ _ Hcut) as (Hup & Hkv & _). pose proof (bv_height _ _ _ Hv).
  rewrite (repr_checkpoint _ _ _ upto Hr0) in Hst by lia. apply Ok_inj in Hst as <-.
  apply unkeyed_vault in Hk. rewrite Hk in Hkv. simpl in Hkv.
  destruct (fold_cut_sim _ _ _ _ _ (frozen_memory _ (wr_groups _ _ _ Hr0)) Hkv Hfc) as (_ & K2 & K3).
  exists w0, upto, h, kind, fc. by split_and!.
Qed.

Lemma dropped_founding f blob wiki cp pre suf wf : dropped (Some blob) wiki cp pre →
  walk_chain (pre ++ cp :: suf) = Ok wf → head (pre ++ cp :: suf) ≫= founding_of = Some f → keyed (f_ids f) = false →
  ctx_from_founding (cs_rule_m blob) (founding_identities blob) = None.
Proof.
  intros Hd Hw Hf Hk. destruct (dropped_cut _ _ _ _ _ _ _ Hd Hw Hf Hk) as
    (w0 & upto & h & kind & fc & _ & Hr & _ & _ & _ & _ & _ & _ & Hs).
  apply state_sim_constitution in Hs. pose proof (wr_constitution _ _ _ Hr) as Hc.
  unfold constitution in *. simpl in *. injection Hs as _ -> _ -> _ _ _ _ _. injection Hc as _ -> _ -> _ _ _ _ _ _.
  by apply founding_keyless.
Qed.

(** A republic without vault keys holds no vault base. *)
Lemma backed_held f pre n : backed f pre n → held_bases n = Held_of_wiki (n_wiki n).
Proof.
  intros Hb. unfold held_bases, Held_of_wiki. f_equal.
  assert (vault_founding_ctx n = None) as Hc.
  { unfold vault_founding_ctx. destruct (n_head n); [|done]. pose proof (bk_dropped _ _ _ Hb) as Hd.
    pose proof (bk_founding _ _ _ Hb) as Hf. pose proof (bk_keyed _ _ _ Hb) as Hk.
    destruct (bk_walk _ _ _ Hb) as (wf & Hw & _).
    destruct (n_blocks n) as [|cp suf] eqn:Eb; [by destruct (bk_blocks _ _ _ Hb)|]. specialize (Hd cp eq_refl).
    destruct (n_blob n) as [blob|]; [by eapply dropped_founding|].
    destruct Hd as [-> _]. simpl in Hf. unfold founding_of in Hf. simpl. destruct (change cp); simplify_eq.
    exact (founding_keyless _ Hk). }
  unfold vault_base_now, vault_base_committed. by rewrite Hc.
Qed.

Lemma backed_own f pre n blocks : backed f pre n → walk_own n blocks = own_walk (n_blob n) (n_wiki n) (f_rid f) blocks.
Proof.
  intros Hb. unfold walk_own, own_walk. destruct (n_blob n); [|done]. by rewrite (backed_held _ _ _ Hb), (bk_rid _ _ _ Hb).
Qed.

Lemma backed_candidate f pre n cp suf rest : backed f pre n → n_blocks n = cp :: suf → Forall brings_no_base rest →
  outcome_rel (sim (n_blob n) (n_wiki n)) (walk_chain (pre ++ cp :: rest)) (walk_own n (cp :: rest)).
Proof.
  intros Hb Eb Hrest. rewrite (backed_own _ _ _ _ Hb). destruct (bk_walk _ _ _ Hb) as (wf & Hw & _).
  pose proof (bk_founding _ _ _ Hb) as Hf. pose proof (bk_dropped _ _ _ Hb cp) as Hd.
  rewrite Eb in *. rewrite cons_middle, app_assoc in Hw.
  destruct (walk_chain_prefix _ _ _ Hw) as [w Hw1]; [by destruct pre|].
  eapply own_walk_sim; [by apply Hd|done| |by apply (bk_keyed _ _ _ Hb)|done]. destruct pre; exact Hf.
Qed.

(** Only the node's own walk describes its chain. *)
Lemma cache_hit f pre n wf w : backed f pre n → walk_chain (pre ++ n_blocks n) = Ok wf → cache_ok n wf →
  n_walk n = Some w → describes w (n_blocks n) (n_blob n) = true → sim (n_blob n) (n_wiki n) wf w.
Proof.
  intros Hb Hw Hc Ew Hd. destruct (Hc w Ew) as [?|[Hrid Hlt]]; [done|]. exfalso.
  unfold describes in Hd. apply andb_true_iff in Hd as [_ Hd].
  destruct (last (n_blocks n)) as [b|] eqn:El; [|done]. apply bool_decide_eq_true in Hd.
  destruct (walk_chain_repr _ _ Hw) as [f' Hr]. pose proof (wr_hash _ _ _ Hr) as Hh.
  rewrite last_app, El in Hh. simpl in Hh. rewrite Hrid, (bk_rid _ _ _ Hb) in Hd.
  assert (f' = f) as ->.
  { destruct (wr_genesis _ _ _ Hr) as (g & r & Eg & Hg). pose proof (bk_founding _ _ _ Hb) as Hf.
    rewrite Eg in Hf. simpl in Hf. congruence. }
  rewrite Hd in Hh. injection Hh as Hh. rewrite Hh, str_lt_irrefl in Hlt. done.
Qed.

Lemma step_refused w b held : (step w b held).2 ≠ Ok tt → (step w b held).1 = w.
Proof. intros Hn. destruct (step_inv w b held) as [(hd & c & run & _ & _ & He)|[_ He]]; [|done]. by rewrite He in Hn. Qed.

(** Extending the held chain is walking the extended history. *)
Lemma extend_backed f pre n b : backed f pre n → brings_no_base b →
  match extend_own b n with
  | (n', Ok hd) => ∃ wf w, walk_chain ((pre ++ n_blocks n) ++ [b]) = Ok wf ∧ hd = w_head wf ∧ n' = set_walk (Some w) n ∧
      sim (n_blob n) (n_wiki n) wf w
  | (n', Err e) => walk_chain ((pre ++ n_blocks n) ++ [b]) = Err e ∧ backed f pre n' ∧ ∃ w, n' = set_walk w n
  | (_, Panic) => walk_chain ((pre ++ n_blocks n) ++ [b]) = Panic
  end.
Proof.
  intros Hb Hpl. destruct (bk_walk _ _ _ Hb) as (wf & Hw & Hh & Hc). pose proof (bk_dropped _ _ _ Hb) as Hd.
  assert (Hne : pre ++ n_blocks n ≠ []) by (intros [_ ?]%app_nil; by apply (bk_blocks _ _ _ Hb)).
  assert (Hwk : n_blob n = None → n_wiki n = None).
  { destruct (n_blocks n) as [|cp suf] eqn:Eb; [by destruct (bk_blocks _ _ _ Hb)|]. specialize (Hd cp eq_refl).
    intros He. rewrite He in Hd. by destruct Hd. }
  assert (Hown : ∃ w, sim (n_blob n) (n_wiki n) wf w ∧ walk_own n (n_blocks n) = Ok w).
  { destruct (n_blocks n) as [|cp suf] eqn:Eb; [by destruct (bk_blocks _ _ _ Hb)|].
    pose proof (bk_plain _ _ _ Hb) as Hp. rewrite Eb in Hp. apply Forall_cons in Hp as [_ Hp].
    pose proof (backed_candidate f pre n cp suf suf Hb Eb Hp) as Hr. rewrite Hw in Hr.
    destruct (walk_own n (cp :: suf)) as [w| |]; [|done|done]. by exists w. }
  unfold extend_own. set (o := match n_walk n with Some _ => _ | None => _ end).
  assert (Ho : ∃ w, sim (n_blob n) (n_wiki n) wf w ∧ o = Ok w).
  { unfold o. destruct (n_walk n) as [w|] eqn:Ew; [|done].
    destruct (describes w (n_blocks n) (n_blob n)) eqn:Ed; [|done]. exists w. split; [by eapply cache_hit|done]. }
  destruct Ho as (w & Hs & ->). rewrite (backed_held _ _ _ Hb), walk_chain_snoc by done. rewrite Hw. cbn [obind].
  destruct (step_rel _ _ _ _ b Hwk Hs Hpl) as [E1 E2]. pose proof (step_refused w b (Held_of_wiki (n_wiki n))) as Href.
  destruct (step wf b Held_default) as [wf' r1], (step w b (Held_of_wiki (n_wiki n))) as [w' r2]. simpl in *. subst r2.
  destruct r1 as [[]|e|]; simpl.
  - specialize (E2 eq_refl). exists wf', w'. split; [done|]. split; [|done]. by destruct (sim_report _ _ _ _ E2).
  - split; [done|]. split; [|by eexists]. rewrite Href by done. destruct Hb as [B1 B2 B3 B4 B5 B6 B7]. split; try done.
    exists wf. split; [done|]. split; [done|]. intros w0 [= <-]. by left.
  - done.
Qed.

(** What the chain operations leave alone. *)
Definition buffers (n : Node) := (n_me n, n_rid n, n_pending n, n_served n, n_forks n).

Lemma append_backed f pre n b n' ok : backed f pre n → brings_no_base b → append_committed_block b n = Ok (n', ok) →
  backed f pre n' ∧ n_blocks n' = n_blocks n ++ (if ok then [b] else []) ∧ buffers n' = buffers n ∧ n_seals n' = n_seals n ∧
  ok = is_ok (walk_chain ((pre ++ n_blocks n) ++ [b])).
Proof.
  intros Hb Hpl Ha. unfold append_committed_block in Ha. pose proof (extend_backed f pre n b Hb Hpl) as He.
  destruct (extend_own b n) as [n1 [hd|e|]]; [| |done].
  - destruct He as (wf & w & Hw & -> & -> & Hs). injection Ha as <- <-. cbn.
    split; [|by rewrite Hw]. destruct Hb as [B1 B2 B3 B4 B5 B6 B7]. split; cbn; try done.
    + by intros [_ ?]%app_nil.
    + intros cp Hcp. apply B2. destruct (n_blocks n); done.
    + rewrite app_assoc. destruct (pre ++ n_blocks n) eqn:E; [|done]. by apply app_nil in E as [_ ?].
    + apply Forall_app. split; [done|]. by apply Forall_singleton.
    + exists wf. rewrite app_assoc. split; [done|]. split; [done|]. intros w0 [= <-]. by left.
  - destruct He as (Hw & Hb' & w & ->). injection Ha as <- <-. rewrite Hw, app_nil_r. done.
Qed.

Lemma steps_running w bs held w' upto : steps w bs held = Ok w' → Forall (λ b, (height b <= upto)%N) bs →
  fold_blocks (w_running w) bs upto (w_vault w) = Ok (w_running w').
Proof.
  revert w. induction bs as [|b bs IH]; intros w Hs Hh; simpl in *; [by injection Hs as <-|].
  apply Forall_cons in Hh as [Hb Hh]. rewrite (proj2 (N.ltb_ge _ _)) by done.
  destruct (step_inv w b held) as [(hd & c & run & _ & Hf & He)|[Hn _]].
  - rewrite He in Hs. rewrite Hf. cbn [obind] in *. exact (IH _ Hs Hh).
  - destruct (step w b held) as [w1 [[]| |]]; done.
Qed.

(** Blocks above the height are not folded. *)
Lemma fold_blocks_stop s bs b l upto v : Forall (λ b, (height b <= upto)%N) bs → (upto < height b)%N →
  fold_blocks s (bs ++ b :: l) upto v = fold_blocks s bs upto v.
Proof.
  intros Hbs Hb. rewrite fold_blocks_app by done. destruct (fold_blocks s bs upto v); simpl; [|done|done].
  by rewrite (proj2 (N.ltb_lt _ _)).
Qed.

Lemma heights_upto f pre n wf l1 b l2 : backed f pre n → walk_chain (pre ++ n_blocks n) = Ok wf →
  n_blocks n = l1 ++ b :: l2 → Forall (λ x, (height x < height b)%N) (pre ++ l1) ∧ Forall (λ x, (height b < height x)%N) l2 ∧
  height b = len (pre ++ l1).
Proof.
  intros Hb Hw Eb. rewrite Eb, app_assoc in Hw. destruct (walk_chain_repr _ _ Hw) as [f' Hr].
  pose proof (wr_heights _ _ _ Hr) as Hh.
  assert (height b = len (pre ++ l1)) as E by (apply Hh; by rewrite list_lookup_middle).
  split; [|split; [|done]]; apply Forall_lookup; intros i x Hx.
  - rewrite (Hh i x) by (by apply lookup_app_l_Some). apply lookup_lt_Some in Hx. rewrite E. unfold len. lia.
  - rewrite (Hh (length (pre ++ l1) + S i)%nat x). { rewrite E. unfold len. lia. }
    rewrite lookup_app_r by lia. by replace (_ + _ - _)%nat with (S i) by lia.
Qed.

(** The summary the node makes of its own chain is that of the history. *)
Lemma own_cut_backed f pre n l1 b l2 upto h kind : backed f pre n → n_blocks n = l1 ++ b :: l2 → l1 ≠ [] →
  cut_of (change b) = Some (upto, h, kind) →
  ∃ st, checkpoint_state (pre ++ l1) upto = Ok st ∧
    own_cut_state upto kind n = omap_err inr (fold_cut st kind Held_default).
Proof.
  intros Hb Eb Hne Hcut. destruct (bk_walk _ _ _ Hb) as (wf & Hw & _).
  destruct (heights_upto _ _ _ _ _ _ _ Hb Hw Eb) as (Hlow & _ & Eh). pose proof Hw as Hw'.
  rewrite Eb, app_assoc in Hw'. destruct (walk_chain_repr _ _ Hw') as [f' Hr].
  destruct (walk_chain_valid _ _ _ _ _ Hw' Hr) as (w0 & Hw0 & Hr0 & Hv); [by intros [_ ?]%app_nil|].
  assert (f' = f) as ->.
  { destruct (wr_genesis _ _ _ Hr) as (g & r & Eg & Hg). pose proof (bk_founding _ _ _ Hb) as Hf.
    rewrite Eb, app_assoc, Eg in Hf. simpl in Hf. congruence. }
  destruct (bv_cut _ _ _ Hv _ _ _ Hcut) as (Hup & Hkv & Hfold & _).
  exists (state_at (w_running w0) upto). split; [apply (repr_checkpoint f); [done|lia]|].
  assert (Hle : Forall (λ x, (height x <= upto)%N) (pre ++ l1)).
  { eapply Forall_impl; [exact Hlow|]. intros x Hx. simpl in *. lia. }
  assert (Hkey := bk_keyed _ _ _ Hb). apply unkeyed_vault in Hkey as Hvf. rewrite Hvf in Hkv. simpl in Hkv.
  unfold own_cut_state. rewrite (backed_held _ _ _ Hb). destruct l1 as [|cp l1]; [done|].
  pose proof (bk_dropped _ _ _ Hb cp) as Hd. rewrite Eb in Hd. specialize (Hd eq_refl).
  destruct (n_blob n) as [blob|] eqn:Ebl; cycle 1.
  - destruct Hd as [-> Hwk]. rewrite Hwk, Eb. change ([] ++ cp :: l1) with (cp :: l1) in *.
    pose proof (repr_checkpoint _ _ _ upto Hr0 ltac:(lia)) as Hst. unfold checkpoint_state, fold_state in *. cbn [app] in *.
    destruct (change cp); try done. rewrite fold_blocks_stop by (try lia; by apply Forall_cons in Hle as [_ ?]).
    rewrite Hst. done.
  - apply Forall_app in Hle as [_ Hle]. apply Forall_cons in Hle as [Hcp Hle].
    assert (Hpl := bk_plain _ _ _ Hb). rewrite Eb in Hpl. apply Forall_app in Hpl as [Hpl _]. apply Forall_cons in Hpl as [_ Hpl].
    pose proof (backed_candidate f pre n cp (l1 ++ b :: l2) l1 Hb Eb Hpl) as Hrel. rewrite Hw0 in Hrel.
    unfold walk_own in Hrel. rewrite Ebl in Hrel. unfold walk_suffix_chain in Hrel.
    destruct (check_anchor blob cp (n_rid n)) as [k'| |]; [|done|done]. cbn [obind] in Hrel. unfold anchor_walk in Hrel.
    destruct (block_hash (cs_republic_id blob) cp) as [hh|]; [|done]. cbn [expect obind] in Hrel.
    match type of Hrel with outcome_rel _ _ (steps ?w1 _ _) => pose proof (steps_running w1 l1 (held_bases n)) as Hrun end.
    destruct (steps _ l1 (held_bases n)) as [w2| |]; [|done|done]. specialize (Hrun w2 upto eq_refl Hle). cbn [w_running w_vault] in Hrun.
    cbn [outcome_rel sim] in Hrel. rewrite Eb. unfold fold_state. cbn [app fold_blocks]. rewrite (proj2 (N.ltb_ge _ _)) by done.
    assert (Hcc : ∃ c, cut_of (change cp) = Some c) by (destruct Hd as (_ & ? & ? & ? & ? & ? & ? & _); eauto).
    destruct Hcc as [c Hcc]. rewrite (fold_one_cut _ _ _ _ Hcc). cbn [obind].
    rewrite fold_blocks_stop by (try lia; done). rewrite Hrun. cbn [obind omap_err].
    f_equal. symmetry. destruct Hrel as [_ _ Hst _ _ _ _ _]. eapply fold_cut_agree; [reflexivity|exact Hst|done|].
    rewrite (wr_folded_cut _ _ _ Hr0). exact Hfold.
Qed.

Lemma filter_above l1 b l2 : Forall (λ x, (height x < height b)%N) l1 → Forall (λ x, (height b < height x)%N) l2 →
  filter (λ x, (height b <= height x)%N) (l1 ++ b :: l2) = b :: l2.
Proof.
  intros H1 H2. rewrite filter_app.
  assert (filter (λ x, (height b <= height x)%N) l1 = []) as ->.
  { induction H1 as [|x l Hx _ IH]; [done|]. rewrite filter_cons_False by lia. done. }
  rewrite filter_cons_True by lia. simpl. f_equal.
  induction H2 as [|x l Hx _ IH]; [done|]. rewrite filter_cons_True by lia. by rewrite IH.
Qed.

Lemma fold_cut_tree st kind held blob fc : is_Some (find_group Memory (cs_applied st)) →
  fold_cut st kind held = Ok (blob, fc) → is_some (fc_tree fc) = cut_wiki kind.
Proof.
  intros [g Hg] Hf. unfold fold_cut in Hf. apply obind_ok in Hf as ([s1 t] & Hw & Hf).
  apply obind_ok in Hf as ([s2 v] & _ & Hf). apply obind_ok in Hf as (h & _ & Hf). injection Hf as <- <-. cbn.
  destruct (cut_wiki kind); [|by injection Hw as <- <-]. unfold wiki_summarize_state in Hw. rewrite Hg in Hw.
  apply obind_ok in Hw as ([[fo tr] r] & _ & Hw). by injection Hw as <- <-.
Qed.

(** A node that never folded its memory keeps no tree. *)
Lemma unfolded_wiki f pre n l1 b l2 : backed f pre n → n_blocks n = l1 ++ b :: l2 → l1 ≠ [] →
  any_folded_cut (pre ++ l1) = false → n_wiki n = None.
Proof.
  intros Hb Eb Hne Hany. destruct l1 as [|cp l1]; [done|]. pose proof (bk_dropped _ _ _ Hb cp) as Hd.
  rewrite Eb in Hd. specialize (Hd eq_refl). destruct (n_blob n) as [blob|] eqn:Ebl; [|by destruct Hd].
  destruct (bk_walk _ _ _ Hb) as (wf & Hw & _). pose proof (bk_founding _ _ _ Hb) as Hf. rewrite Eb in Hw, Hf.
  destruct (dropped_cut f blob _ cp pre (l1 ++ b :: l2) wf Hd Hw Hf (bk_keyed _ _ _ Hb)) as
    (w0 & upto & h & kind & fc & _ & Hr & _ & Hcut & _ & _ & Hfc & Hwk & _).
  apply fold_cut_tree in Hfc; [|exact (frozen_memory _ (wr_groups _ _ _ Hr))].
  unfold any_folded_cut in Hany. rewrite existsb_app in Hany. apply orb_false_iff in Hany as [_ Hany].
  cbn [existsb] in Hany. apply orb_false_iff in Hany as [Hcp _]. unfold is_folded_cut in Hcp. rewrite Hcut in Hcp.
  rewrite Hcp in Hfc. rewrite Hwk. by destruct (fc_tree fc).
Qed.

(** The history below a cut is dropped, or the node is as it was. *)
Lemma drop_backed f pre n l1 b l2 n' : backed f pre n → n_blocks n = l1 ++ b :: l2 → l1 ≠ [] → drop_history b n = Ok n' →
  buffers n' = buffers n ∧ n_seals n' = n_seals n ∧
  (n' = n ∨ is_Some (cut_of (change b)) ∧ backed f (pre ++ l1) n' ∧ n_blocks n' = b :: l2).
Proof.
  intros Hb Eb Hne Hd. unfold drop_history in Hd.
  destruct (cut_of (change b)) as [[[upto h] kind]|] eqn:Hcut; [|injection Hd as <-; by split_and!; [..|left]].
  destruct (own_cut_backed f pre n l1 b l2 upto h kind Hb Eb Hne Hcut) as (st & Hst & Hown). rewrite Hown in Hd.
  destruct (fold_cut st kind Held_default) as [[blob fc]|e|] eqn:Hfc; cbn [omap_err] in Hd; [|injection Hd as <-; by split_and!; [..|left]|done].
  destruct (is_some (fc_tree fc) && negb (n_wiki_durable n)); [injection Hd as <-; by split_and!; [..|left]|].
  destruct (is_some (fc_vault fc) && negb (n_vault_durable n)); [injection Hd as <-; by split_and!; [..|left]|].
  injection Hd as <-. split; [done|]. split; [done|]. right. split; [by eexists|].
  destruct (bk_walk _ _ _ Hb) as (wf & Hw & Hh & _). destruct (heights_upto _ _ _ _ _ _ _ Hb Hw Eb) as (Hlow & Hhigh & _).
  apply Forall_app in Hlow as [_ Hlow]. cbn. rewrite Eb, filter_above by done. split; [|done].
  assert (Hwiki : match fc_tree fc with Some t => Some t | None => n_wiki n end = fc_tree fc).
  { destruct (fc_tree fc) eqn:Et; [done|]. apply (unfolded_wiki f pre n l1 b l2); try done.
    rewrite Eb, app_assoc in Hw. destruct (walk_chain_repr _ _ Hw) as [f' Hr].
    destruct (walk_chain_valid _ _ _ _ _ Hw Hr) as (w0 & _ & Hr0 & Hv); [by intros [_ ?]%app_nil|].
    destruct (bv_cut _ _ _ Hv _ _ _ Hcut) as (Hup & _ & Hfold & _). pose proof (bv_height _ _ _ Hv).
    rewrite (repr_checkpoint _ _ _ upto Hr0) in Hst by lia. apply Ok_inj in Hst as <-.
    apply fold_cut_tree in Hfc; [|exact (frozen_memory _ (wr_groups _ _ _ Hr0))]. rewrite Et in Hfc. simpl in Hfc.
    destruct (any_folded_cut (pre ++ l1)); [|done]. by rewrite Hfold in Hfc. }
  destruct Hb as [B1 B2 B3 B4 B5 B6 B7]. rewrite Eb in *. split; cbn; try done.
  - intros cp [= <-]. split; [by intros [_ ?]%app_nil|]. exists upto, h, kind, st, fc. by rewrite Hwiki.
  - rewrite <-app_assoc. exact B3.
  - apply Forall_app in B6 as [_ B6]. done.
  - rewrite <-app_assoc. exists wf. done.
Qed.

End History.
