(* ===== verification/SyncProps.v ===== *)
(** * What catch-up guarantees

    The operations of [Sync] keep the history behind the node ([SyncInv]) and
    move it only up in the order of the fork choice ([Fork]). *)

From S2P Require Import Prelude Bytes Strs Json Env Surface Roster Chain Checkpoint WikiFold Vault Cuts Ledger Verify Walk WalkProps Projection Prune Votes Sync Fork SyncInv.

Section Steps.
Context `{Env, VaultSerde}.

(** The blocks in circulation: none brings a base entry of its own into the
    memory, no two cuts of one height and state hash are of different kinds,
    there is one founding; and a block may be linked anew. *)
Record circulating (U : ChainBlock → Prop) : Prop := {
  c_plain b : U b → brings_no_base b;
  c_kind b b' upto h k k' : U b → U b' → cut_of (change b) = Some (upto, h, k) → cut_of (change b') = Some (upto, h, k') →
    k = k';
  c_genesis b b' : U b → U b' → is_Some (founding_of b) → is_Some (founding_of b') → change b = change b';
  c_prev b p : U b → U (with_prev p b);
}.

Context (U : ChainBlock → Prop) (HU : circulating U).

(** The buffers hold blocks in circulation under their heights, no summary was
    served, and what the votes seal during the bookkeeping is no cut: a cut
    needs every seat's signature at the head just reached. *)
Record stocked (n : Node) : Prop := {
  st_blocks : Forall U (n_blocks n);
  st_pending h b : n_pending n !! h = Some b → U b ∧ height b = h;
  st_forks h b : n_forks n !! h = Some b → U b ∧ height b = h;
  st_seals : Forall (Forall (λ b, U b ∧ cut_of (change b) = None)) (n_seals n);
  st_served : n_served n = None;
}.

Definition good (f : Founding) (pre : list ChainBlock) (n : Node) : Prop := backed f pre n ∧ stocked n.

(** The part of the node its history is about. *)
Definition chain_part (n : Node) := (n_rid n, n_blocks n, n_blob n, n_head n, n_walk n, n_wiki n).

Lemma backed_frame f pre n n' : chain_part n' = chain_part n → backed f pre n → backed f pre n'.
Proof.
  unfold chain_part. intros [= E1 E2 E3 E4 E5 E6] [B1 B2 B3 B4 B5 B6 B7].
  split; rewrite ?E1, ?E2, ?E3, ?E4, ?E6; try done. destruct B7 as (wf & Hw & Hh & Hc). exists wf.
  split; [done|]. split; [done|]. unfold cache_ok. rewrite E1, E3, E5, E6. exact Hc.
Qed.

Lemma stocked_frame n n' : n_blocks n' = n_blocks n → buffers n' = buffers n → n_seals n' = n_seals n → stocked n → stocked n'.
Proof. unfold buffers. intros E1 [= _ _ E2 E3 E4] E5 [S1 S2 S3 S4 S5]. split; rewrite ?E1, ?E2, ?E3, ?E4, ?E5; done. Qed.

(** ** Blocks the votes seal *)

Lemma adopt_all_good f pre n l n' : backed f pre n → Forall (λ b, U b ∧ cut_of (change b) = None) l → adopt_all l n = Ok n' →
  ∃ ext, backed f pre n' ∧ n_blocks n' = n_blocks n ++ ext ∧ Forall U ext ∧ buffers n' = buffers n ∧ n_seals n' = n_seals n.
Proof.
  revert n. induction l as [|b l IH]; intros n Hb Hl Ha; cbn [adopt_all] in Ha.
  { injection Ha as <-. exists []. rewrite app_nil_r. by split_and!. }
  apply Forall_cons in Hl as [[Hu Hc] Hl]. apply obind_ok in Ha as (n1 & Hn1 & Ha).
  unfold adopt_sealed in Hn1. apply obind_ok in Hn1 as ([n2 ok] & Happ & Hn1).
  destruct (append_backed f pre n b n2 ok Hb (c_plain _ HU b Hu) Happ) as (Hb2 & Eb & Ebuf & Es & _). cbn [fst snd] in Hn1.
  assert (n1 = n2) as ->.
  { destruct ok; [|by injection Hn1]. unfold drop_history in Hn1. rewrite Hc in Hn1. by injection Hn1. }
  destruct (IH n2 Hb2 Hl Ha) as (ext & Hb' & Eb' & Hext & Ebuf' & Es').
  exists ((if ok then [b] else []) ++ ext). rewrite Eb', Eb, <-app_assoc, Ebuf', Es'. split_and!; try done.
  apply Forall_app. split; [|done]. destruct ok; [|constructor]. by apply Forall_singleton.
Qed.

Lemma rebase_good f pre n n' : good f pre n → take_seals n = Ok n' →
  ∃ ext, good f pre n' ∧ n_blocks n' = n_blocks n ++ ext ∧ buffers n' = buffers n.
Proof.
  intros [Hb Hs] Hr. unfold take_seals in Hr. destruct (n_seals n) as [|sealed rest] eqn:Es.
  { injection Hr as <-. exists []. rewrite app_nil_r. by split_and!. }
  pose proof (st_seals _ Hs) as Hse. rewrite Es in Hse. apply Forall_cons in Hse as [Hse Hrest].
  eapply adopt_all_good in Hr; [|eapply backed_frame; [|exact Hb]; reflexivity|exact Hse].
  destruct Hr as (ext & Hb' & Eb & Hext & Ebuf & Es'). cbn in *. exists ext. split; [|done]. split; [done|].
  destruct Hs as [S1 S2 S3 S4 S5]. unfold buffers in Ebuf. cbn in Ebuf. injection Ebuf as _ _ E2 E3 E4.
  split; rewrite ?Eb, ?E2, ?E3, ?E4, ?Es'; try done. by apply Forall_app.
Qed.

(** ** The bookkeeping after a block *)

Lemma drop_good f pre n l1 b l2 n' : good f pre n → n_blocks n = l1 ++ b :: l2 → l1 ≠ [] → drop_history b n = Ok n' →
  ∃ pre' l1', good f pre' n' ∧ n_blocks n' = l1' ++ b :: l2 ∧ pre' ++ l1' = pre ++ l1 ∧ buffers n' = buffers n.
Proof.
  intros [Hb Hs] Eb Hne Hd. destruct (drop_backed f pre n l1 b l2 n' Hb Eb Hne Hd) as (Ebuf & Es & [->|(_ & Hb' & Eb')]).
  - exists pre, l1. by split_and!.
  - exists (pre ++ l1), []. rewrite app_nil_r. split_and!; try done.
    destruct Hs as [S1 S2 S3 S4 S5]. unfold buffers in Ebuf. injection Ebuf as _ _ E2 E3 E4.
    split; [done|]. split; rewrite ?Eb', ?E2, ?E3, ?E4, ?Es; try done. rewrite Eb in S1. by apply Forall_app in S1 as [_ ?].
Qed.

Lemma after_good f pre n l1 b l2 n' : good f pre n → n_blocks n = l1 ++ b :: l2 → l1 ≠ [] → after_block_applied b n = Ok n' →
  ∃ pre' l1' ext, good f pre' n' ∧ n_blocks n' = l1' ++ b :: l2 ++ ext ∧ pre' ++ l1' = pre ++ l1 ∧ buffers n' = buffers n.
Proof.
  intros Hg Eb Hne Ha. unfold after_block_applied in Ha. apply obind_ok in Ha as (n1 & Hd & Hr).
  destruct (drop_good f pre n l1 b l2 n1 Hg Eb Hne Hd) as (pre' & l1' & Hg1 & Eb1 & Ep & Ebuf).
  destruct (rebase_good f pre' n1 n' Hg1 Hr) as (ext & Hg' & Eb' & Ebuf').
  exists pre', l1', ext. rewrite Eb', Eb1, <-app_assoc, Ebuf'. by split_and!.
Qed.

Lemma after_all_good f pre n l1 bs l2 n' : good f pre n → n_blocks n = l1 ++ bs ++ l2 → l1 ≠ [] → after_all bs n = Ok n' →
  ∃ pre' ext, good f pre' n' ∧ pre' ++ n_blocks n' = (pre ++ n_blocks n) ++ ext ∧ buffers n' = buffers n.
Proof.
  revert pre n l1 l2. induction bs as [|b bs IH]; intros pre n l1 l2 Hg Eb Hne Ha; cbn [after_all] in Ha.
  { injection Ha as <-. exists pre, []. rewrite app_nil_r. by split_and!. }
  apply obind_ok in Ha as (n1 & Hn1 & Ha).
  destruct (after_good f pre n l1 b (bs ++ l2) n1 Hg Eb Hne Hn1) as (pre1 & l1' & ext1 & Hg1 & Eb1 & Ep & Ebuf1).
  destruct (IH pre1 n1 (l1' ++ [b]) (l2 ++ ext1) Hg1) as (pre' & ext & Hg' & E' & Ebuf'); [| |done|].
  - rewrite Eb1, <-!app_assoc. done.
  - by destruct l1'.
  - exists pre', (ext1 ++ ext). split_and!; [done| |by rewrite Ebuf'].
    rewrite E', Eb1, Eb. rewrite (app_assoc pre1), Ep, <-!app_assoc. cbn. by rewrite <-!app_assoc.
Qed.

(** ** Steps that leave the chain alone *)

Definition quiet (n n' : Node) : Prop :=
  chain_part n' = chain_part n ∧ buffers n' = buffers n ∧ n_seals n' = n_seals n.

#[local] Instance quiet_refl : Reflexive quiet.
Proof. by intros n. Qed.
#[local] Instance quiet_trans : Transitive quiet.
Proof. intros a b c (A1 & A2 & A3) (B1 & B2 & B3). split_and!; by etrans. Qed.

Lemma good_quiet f pre n n' : quiet n n' → good f pre n → good f pre n'.
Proof.
  intros (Q1 & Q2 & Q3) [Hb Hs]. split; [by eapply backed_frame|]. eapply stocked_frame; [|done..].
  unfold chain_part in Q1. by injection Q1.
Qed.

Lemma quiet_blocks n n' : quiet n n' → n_blocks n' = n_blocks n.
Proof. intros [Q _]. unfold chain_part in Q. by injection Q. Qed.

Lemma note_divergence_quiet from h n : quiet n (note_divergence from h n).
Proof. unfold note_divergence. by destruct (str_empty from). Qed.
Lemma clear_divergence_quiet from n : quiet n (clear_divergence from n).
Proof. done. Qed.
Lemma note_peer_quiet from h n : quiet n (note_peer_height from h n).
Proof. unfold note_peer_height. by destruct (_ || _). Qed.
Lemma request_quiet from n n' : request_catchup from n = Ok n' → quiet n n'.
Proof.
  unfold request_catchup. destruct (_ || _); [by intros [= <-]|]. intros (k & _ & [= <-])%obind_ok. done.
Qed.

Lemma forks_good f pre n m : good f pre n → (∀ h b, m !! h = Some b → U b ∧ height b = h) → good f pre (set_forks m n).
Proof. intros [Hb [S1 S2 S3 S4 S5]] Hm. split; [by eapply backed_frame; [|exact Hb]|]. by split. Qed.
Lemma pending_good f pre n m : good f pre n → (∀ h b, m !! h = Some b → U b ∧ height b = h) → good f pre (set_pending m n).
Proof. intros [Hb [S1 S2 S3 S4 S5]] Hm. split; [by eapply backed_frame; [|exact Hb]|]. by split. Qed.

Lemma shed_sub {A} fuel (m : gmap N A) h b : shed fuel m !! h = Some b → m !! h = Some b.
Proof.
  revert m. induction fuel as [|fuel IH]; intros m; cbn [shed]; [done|]. destruct (_ <? _)%N; [|done].
  destruct (last _) as [top|]; [|done]. intros Hm%IH. by apply lookup_delete_Some in Hm as [_ ?].
Qed.

Lemma stash_good f pre n b : good f pre n → U b → good f pre (stash_fork_candidate b n).
Proof.
  intros Hg Hu. unfold stash_fork_candidate. apply forks_good; [done|]. intros h x Hx%shed_sub.
  apply lookup_insert_Some in Hx as [[<- <-]|[_ Hx]]; [done|]. destruct Hg as [_ Hs]. by apply (st_forks _ Hs).
Qed.
Lemma buffer_good f pre n b : good f pre n → U b → good f pre (buffer b n).
Proof.
  intros Hg Hu. unfold buffer. apply pending_good; [done|]. intros h x Hx%shed_sub.
  apply lookup_insert_Some in Hx as [[<- <-]|[_ Hx]]; [done|]. destruct Hg as [_ Hs]. by apply (st_pending _ Hs).
Qed.

(** ** Another branch *)

Lemma filter_none {P : ChainBlock → Prop} `{!∀ x, Decision (P x)} l : Forall (λ x, ¬ P x) l → filter P l = [].
Proof. induction 1 as [|x l Hx _ IH]; [done|]. by rewrite filter_cons_False. Qed.
Lemma filter_all {P : ChainBlock → Prop} `{!∀ x, Decision (P x)} l : Forall P l → filter P l = l.
Proof. induction 1 as [|x l Hx _ IH]; [done|]. by rewrite filter_cons_True, IH. Qed.

Lemma filter_below l1 o l2 : Forall (λ x, (height x < height o)%N) l1 → Forall (λ x, (height o < height x)%N) l2 →
  filter (λ b, (height b < height o)%N) (l1 ++ o :: l2) = l1.
Proof.
  intros H1 H2. rewrite filter_app, (filter_all l1), (filter_none (o :: l2)), app_nil_r; [done| |done].
  constructor; [lia|]. eapply Forall_impl; [exact H2|]. simpl. lia.
Qed.

(** Where a held block above the anchor stands. *)
Lemma block_at_split f pre n cp suf h o : backed f pre n → n_blocks n = cp :: suf → (height cp < h)%N →
  block_at (n_blocks n) h = Some o →
  ∃ l1 l2, n_blocks n = (cp :: l1) ++ o :: l2 ∧ height o = h ∧ filter (λ b, (height b < h)%N) (n_blocks n) = cp :: l1.
Proof.
  intros Hb Eb Hlt Hat. unfold block_at in Hat. apply find_some in Hat as [Hin Hh%N.eqb_eq].
  apply list_elem_of_In, list_elem_of_split in Hin as (l1 & l2 & E).
  destruct (bk_walk _ _ _ Hb) as (wf & Hw & _). destruct (heights_upto _ _ _ _ _ _ _ Hb Hw E) as (Hlow & Hhigh & _).
  apply Forall_app in Hlow as [_ Hlow]. rewrite Eb in E. destruct l1 as [|c l1]; cbn in E; injection E as E0 E; [subst; lia|]. subst c.
  exists l1, l2. rewrite Eb, E. split; [done|]. split; [done|]. subst h.
  apply (filter_below (cp :: l1) o l2); done.
Qed.

(** A continuation from the anchor that verifies is adopted. *)
Lemma adopt_good f pre n cp suf rest w n' : good f pre n → n_blocks n = cp :: suf → Forall U rest →
  walk_own n (cp :: rest) = Ok w → adopt_chain (cp :: rest) n = Ok n' →
  good f pre n' ∧ n_blocks n' = cp :: rest ∧ buffers n' = buffers n.
Proof.
  intros [Hb Hs] Eb Hrest Hw Ha. unfold adopt_chain in Ha. rewrite Hw in Ha. injection Ha as <-. cbn.
  assert (Hpl : Forall brings_no_base rest) by (eapply Forall_impl; [done|]; apply (c_plain _ HU)).
  pose proof (backed_candidate f pre n cp suf rest Hb Eb Hpl) as Hr. rewrite Hw in Hr.
  destruct (walk_chain (pre ++ cp :: rest)) as [wf| |] eqn:Hwf; [|done|done].
  split; [|done]. destruct Hb as [B1 B2 B3 B4 B5 B6 B7]. destruct Hs as [S1 S2 S3 S4 S5]. rewrite Eb in *. split; split; cbn; try done.
  - destruct pre; exact B3.
  - apply Forall_cons in B6 as [? _]. by constructor.
  - exists wf. split; [done|]. split; [by destruct (sim_report _ _ _ _ Hr) as [-> _]|]. intros w0 [= <-]. by left.
  - apply Forall_cons in S1 as [? _]. by constructor.
Qed.

Lemma linked_run_in fuel rid forks h below l : (∀ h b, forks !! h = Some b → U b ∧ height b = h) →
  linked_run fuel rid forks h below = Ok l → Forall U l.
Proof.
  intros Hf. revert h below l. induction fuel as [|fuel IH]; intros h below l Hl; cbn [linked_run] in Hl; [by injection Hl as <-|].
  destruct (forks !! h) as [c|] eqn:Ec; [|by injection Hl as <-]. apply obind_ok in Hl as (links & _ & Hl).
  destruct links; [|by injection Hl as <-]. apply obind_ok in Hl as (rest & Hrest & Hl). injection Hl as <-.
  constructor; [by apply (Hf h)|by eapply IH].
Qed.

Lemma relink_in rid below own l : Forall U own → relink rid below own = Ok l → Forall U l.
Proof.
  intros Ho. revert below l. induction Ho as [|b own Hb _ IH]; intros below l Hl; cbn [relink] in Hl; [by injection Hl as <-|].
  apply obind_ok in Hl as (p & _ & Hl). apply obind_ok in Hl as (rest & Hrest & Hl). injection Hl as <-.
  constructor; [by apply (c_prev _ HU)|by eapply IH].
Qed.

(** The node keeps a history, and the history moves up. *)
Definition follows (f : Founding) (pre : list ChainBlock) (n n' : Node) : Prop :=
  ∃ pre', good f pre' n' ∧ moved (f_rid f) (pre ++ n_blocks n) (pre' ++ n_blocks n').

Lemma follows_quiet f pre n n' : good f pre n → quiet n n' → follows f pre n n'.
Proof. intros Hg Hq. exists pre. split; [by eapply good_quiet|]. by rewrite (quiet_blocks _ _ Hq). Qed.

Lemma follows_same f pre n n' : good f pre n' → n_blocks n' = n_blocks n → follows f pre n n'.
Proof. intros Hg Eb. exists pre. split; [done|]. by rewrite Eb. Qed.

Lemma follows_trans f pre n n1 n' : follows f pre n n1 → (∀ pre1, good f pre1 n1 → follows f pre1 n1 n') → follows f pre n n'.
Proof.
  intros (pre1 & Hg1 & Hm1) Hn. destruct (Hn pre1 Hg1) as (pre' & Hg' & Hm'). exists pre'. split; [done|].
  by transitivity (pre1 ++ n_blocks n1).
Qed.

(** Their block at the fork has the smaller hash. *)
Lemma branch_moved rid pre l1 ours l2 theirs t mine other : pre ++ l1 ≠ [] → block_hash rid ours = Some mine →
  block_hash rid theirs = Some other → ¬ String.le mine other →
  moved rid (pre ++ l1 ++ ours :: l2) (pre ++ l1 ++ theirs :: t).
Proof.
  intros Hne Hm Ho Hlt. right. exists (pre ++ l1), ours, l2, theirs, t, mine, other. rewrite <-!app_assoc. split_and!; try done.
  unfold str_lt. by rewrite bool_decide_eq_false_2.
Qed.

Lemma filter_suffix h l k : (∀ i b, l !! i = Some b → height b = k + N.of_nat i)%N →
  ∃ l1, l = l1 ++ filter (λ b, (h < height b)%N) l ∧ ((k <= h)%N → l ≠ [] → l1 ≠ []).
Proof.
  revert k. induction l as [|x l IH]; intros k Hl; [by exists []|].
  pose proof (Hl 0%nat x eq_refl) as Hx. destruct (decide (h < height x)%N) as [Hlt|Hge].
  - exists []. split; [|lia]. cbn [app]. rewrite filter_all; [done|]. apply Forall_lookup. intros i b Hb.
    rewrite (Hl i b Hb). lia.
  - destruct (IH (k + 1)%N) as (l1 & E & _).
    { intros i b Hb. rewrite (Hl (S i) b Hb). lia. }
    exists (x :: l1). rewrite filter_cons_False by done. split; [|done]. cbn. by rewrite <-E.
Qed.

Lemma heights_from f pre n i b : backed f pre n → n_blocks n !! i = Some b → height b = (len pre + N.of_nat i)%N.
Proof.
  intros Hb Hi. destruct (bk_walk _ _ _ Hb) as (wf & Hw & _). destruct (walk_chain_repr _ _ Hw) as [f' Hr].
  rewrite (wr_heights _ _ _ Hr (length pre + i)%nat b); [unfold len; lia|].
  rewrite lookup_app_r by lia. by replace (_ + _ - _)%nat with i by lia.
Qed.

Lemma head_height f pre n hd : backed f pre n → n_head n = Some hd →
  (hd_height hd + 1 = len pre + len (n_blocks n))%N.
Proof.
  intros Hb Hh. destruct (bk_walk _ _ _ Hb) as (wf & Hw & Hh' & _). rewrite Hh in Hh'. injection Hh' as ->.
  destruct (walk_chain_repr _ _ Hw) as [f' Hr]. rewrite (wr_head _ _ _ Hr). cbn. rewrite len_app.
  pose proof (bk_blocks _ _ _ Hb). destruct (n_blocks n); [done|]. rewrite len_cons. lia.
Qed.

Lemma after_all_follows f pre n n1 n' l1 bs l2 cand : good f pre n1 → n_blocks n1 = l1 ++ bs ++ l2 → l1 ≠ [] →
  after_all bs n1 = Ok n' → moved (f_rid f) (pre ++ n_blocks n) (pre ++ cand) → n_blocks n1 = cand → follows f pre n n'.
Proof.
  intros Hg Eb Hne Ha Hm Ec. destruct (after_all_good f pre n1 l1 bs l2 n' Hg Eb Hne Ha) as (pre' & ext & Hg' & E & _).
  exists pre'. split; [done|]. rewrite E, Ec. etrans; [exact Hm|apply moved_app].
Qed.

Lemma take_branch_follows f pre n cp suf l1 ours l2 theirs t mine other n' : good f pre n → n_blocks n = cp :: suf →
  n_blocks n = (cp :: l1) ++ ours :: l2 → filter (λ b, (height b < height ours)%N) (n_blocks n) = cp :: l1 →
  Forall U (theirs :: t) → block_hash (f_rid f) ours = Some mine → block_hash (f_rid f) theirs = Some other →
  ¬ String.le mine other → take_branch (height ours) (theirs :: t) n = Ok n' → follows f pre n n'.
Proof.
  intros Hg Ecp Eb Efil Hu Hm Ho Hlt Ht. unfold take_branch in Ht. rewrite Efil in Ht.
  assert (Hmv := branch_moved (f_rid f) pre (cp :: l1) ours l2 theirs t mine other ltac:(by destruct pre) Hm Ho Hlt).
  rewrite <-Eb in Hmv. change ((cp :: l1) ++ theirs :: t) with (cp :: l1 ++ theirs :: t) in *.
  destruct (walk_own n (cp :: l1 ++ theirs :: t)) as [w|e|] eqn:Hw; [| |done].
  2:{ injection Ht as <-. apply follows_same; [|done]. by apply forks_good. }
  apply obind_ok in Ht as (n1 & Hn1 & Ht). apply obind_ok in Ht as (n2 & Hn2 & Ht). apply obind_ok in Ht as (n3 & Hn3 & Ht).
  assert (Hrest : Forall U (l1 ++ theirs :: t)).
  { apply Forall_app. split; [|done]. destruct Hg as [_ Hs]. pose proof (st_blocks _ Hs) as Hb. rewrite Eb in Hb.
    apply Forall_app in Hb as [Hb _]. by apply Forall_cons in Hb as [_ ?]. }
  destruct (adopt_good f pre n cp suf _ w n1 Hg Ecp Hrest Hw Hn1) as (Hg1 & Eb1 & _).
  apply follows_trans with n2.
  { eapply (after_all_follows f pre n n1 n2 (cp :: l1) (theirs :: t) []); try done. by rewrite Eb1, app_nil_r. }
  intros pre2 Hg2. destruct (rebase_good f pre2 n2 n3 Hg2 Hn3) as (ext & Hg3 & Eb3 & _).
  apply follows_trans with n3. { exists pre2. split; [done|]. rewrite Eb3, app_assoc. apply moved_app. }
  intros pre3 Hg3'. apply follows_trans with (set_forks ∅ n3). { apply follows_same; [|done]. by apply forks_good. }
  intros pre4 Hg4. apply follows_quiet; [done|]. destruct (n_head _); [|by injection Ht as <-].
  apply request_quiet in Ht. exact Ht.
Qed.

Lemma relink_follows f pre n cp suf l1 ours l2 theirs t mine other from n' : good f pre n → n_blocks n = cp :: suf →
  n_blocks n = (cp :: l1) ++ ours :: l2 → Forall U (theirs :: t) → block_hash (f_rid f) ours = Some mine →
  block_hash (f_rid f) theirs = Some other → ¬ String.le mine other →
  relink_onto_variant from ((cp :: l1) ++ theirs :: t) n = Ok n' → follows f pre n n'.
Proof.
  intros Hg Ecp Eb Hu Hm Ho Hlt Ht. unfold relink_onto_variant in Ht. set (top := match last _ with Some _ => _ | None => _ end) in Ht.
  apply obind_ok in Ht as (own & Hown & Ht). set (n0 := set_forks ∅ n) in Ht.
  assert (Hg0 : good f pre n0) by (by apply forks_good).
  assert (Hfil : Forall U (filter (λ b, (top < height b)%N) (n_blocks n))).
  { apply Forall_forall. intros x Hx. apply list_elem_of_filter in Hx as [_ Hx]. destruct Hg as [_ Hs].
    pose proof (st_blocks _ Hs) as Hb. rewrite Forall_forall in Hb. by apply Hb. }
  apply relink_in in Hown; [|done]. rewrite <-app_assoc in Ht. cbn [app] in Ht.
  assert (Hmv := branch_moved (f_rid f) pre (cp :: l1) ours l2 theirs (t ++ own) mine other ltac:(by destruct pre) Hm Ho Hlt).
  rewrite <-Eb in Hmv. cbn [app] in Hmv.
  destruct (walk_own n0 (cp :: l1 ++ theirs :: t ++ own)) as [w|e|] eqn:Hw; [| |done].
  2:{ injection Ht as <-. by apply follows_same. }
  apply obind_ok in Ht as (n1 & Hn1 & Ht). apply obind_ok in Ht as (n2 & Hn2 & Ht). injection Ht as <-.
  assert (Hrest : Forall U (l1 ++ theirs :: t ++ own)).
  { change (theirs :: t ++ own) with ((theirs :: t) ++ own). rewrite !Forall_app. split_and!; try done.
    destruct Hg as [_ Hs]. pose proof (st_blocks _ Hs) as Hb. rewrite Eb in Hb.
    apply Forall_app in Hb as [Hb _]. by apply Forall_cons in Hb as [_ ?]. }
  destruct (adopt_good f pre n0 cp suf _ w n1 Hg0 Ecp Hrest Hw Hn1) as (Hg1 & Eb1 & _).
  destruct Hg as [Hbk Hs]. destruct (bk_walk _ _ _ Hbk) as (wf & Hwf & Hh & _). rewrite Hh in Hn2.
  pose proof (head_height _ _ _ _ Hbk Hh) as Hhd. rewrite Ecp, len_cons in Hhd.
  destruct (filter_suffix (hd_height (w_head wf)) (n_blocks n1) (len pre)) as (l0 & E0 & Hne0).
  { intros i b. destruct Hg1 as [Hb1 _]. by apply (heights_from f). }
  rewrite <-Eb1 in Hn2. apply follows_trans with n2; [|intros pre2 Hg2; by apply follows_quiet].
  eapply (after_all_follows f pre n n1 n2 l0 _ []); try done.
  - rewrite app_nil_r. exact E0.
  - apply Hne0; [lia|]. by rewrite Eb1.
Qed.

Lemma find_fork_some rid blocks forks anchor hs h : find_fork rid blocks forks anchor hs = Ok (Some h) →
  (anchor < h)%N ∧ is_Some (forks !! h).
Proof.
  induction hs as [|x hs IH]; cbn [find_fork]; [done|]. destruct (N.leb_spec x anchor) as [|Hlt]; [done|].
  destruct (block_at blocks (x - 1)) as [below|]; [|done]. destruct (forks !! x) as [c|] eqn:Ec; [|done].
  intros (hash & _ & Hr)%obind_ok. case_bool_decide; [|by apply IH]. injection Hr as <-. split; [done|by eexists].
Qed.

Lemma try_reorg_follows f pre n from n' : good f pre n → try_reorg from n = Ok n' → follows f pre n n'.
Proof.
  intros Hg Ht. unfold try_reorg in Ht. destruct (n_blocks n) as [|cp suf] eqn:Ecp.
  { injection Ht as <-. by apply follows_quiet. }
  cbn [head hd_error] in Ht. rewrite <-Ecp in Ht. apply obind_ok in Ht as (fork & Hf & Ht).
  destruct fork as [h|].
  2:{ apply follows_quiet; [done|]. destruct (head (sorted_keys _)) as [lowest|]; [|by injection Ht as <-].
      destruct (_ <? lowest)%N; [by apply request_quiet in Ht|by injection Ht as <-]. }
  apply find_fork_some in Hf as [Hlt _]. apply obind_ok in Ht as (suffix & Hrun & Ht).
  apply linked_run_in in Hrun; [|destruct Hg as [_ Hs]; apply (st_forks _ Hs)].
  destruct (block_at (n_blocks n) h) as [ours|] eqn:Eo; [|injection Ht as <-; by apply follows_quiet].
  destruct suffix as [|theirs t]; [done|]. apply obind_ok in Ht as (mine & Hm%expect_ok & Ht).
  apply obind_ok in Ht as (other & Ho%expect_ok & Ht). destruct Hg as [Hb Hs].
  destruct (block_at_split f pre n cp suf h ours Hb Ecp Hlt Eo) as (l1 & l2 & Eb & <- & Efil).
  rewrite (bk_rid _ _ _ Hb) in Hm, Ho. case_bool_decide as Hle.
  { injection Ht as <-. apply follows_same; [|done]. by apply forks_good. }
  destruct (same_decisions _ _).
  - rewrite Efil in Ht. by eapply relink_follows.
  - by eapply take_branch_follows.
Qed.

(** ** A contended slot *)

Lemma cut_of_inj c c' x : cut_of c = Some x → cut_of c' = Some x → c = c'.
Proof. destruct c, c'; cbn; intros E E'; simplify_eq; congruence. Qed.

Lemma check_anchor_cut blob b rid kind : check_anchor blob b rid = Ok kind →
  ∃ h, cut_of (change b) = Some (cs_upto blob, h, kind) ∧ checkpoint_state_hash blob = Some h.
Proof.
  unfold check_anchor. intros Hc. apply obind_ok in Hc as ([[upto h] k] & Hcut%ok_or_ok & Hc). run_inv Hc. subst k. to_prop.
  exists h. subst. rewrite Hcut. done.
Qed.

(** Only the anchor's own change verifies in the anchor's place. *)
Lemma anchor_change f pre n cp b w : good f pre n → U b → n_blocks n = [cp] → walk_own n [b] = Ok w → change cp = change b.
Proof.
  intros [Hb Hs] Hu Eb Hw. pose proof (st_blocks _ Hs) as HUs. rewrite Eb in HUs. apply Forall_cons in HUs as [HUs _].
  pose proof (backed_candidate f pre n cp [] [] Hb Eb ltac:(constructor)) as Hr.
  destruct (bk_walk _ _ _ Hb) as (wf & Hwf & _). rewrite Eb in Hwf. rewrite Hwf in Hr.
  pose proof (bk_dropped _ _ _ Hb cp) as Hd. rewrite Eb in Hd. specialize (Hd eq_refl).
  unfold walk_own in *. destruct (n_blob n) as [blob|].
  - unfold walk_suffix_chain in *. destruct (check_anchor blob cp (n_rid n)) as [k| |] eqn:Ek; [|done|done].
    apply obind_ok in Hw as (k' & Ek' & _). apply check_anchor_cut in Ek as (h & Hc & Hh), Ek' as (h' & Hc' & Hh').
    rewrite Hh in Hh'. injection Hh' as <-. rewrite <-(c_kind _ HU _ _ _ _ _ _ HUs Hu Hc Hc') in Hc'. by eapply cut_of_inj.
  - destruct Hd as [-> _]. pose proof (bk_founding _ _ _ Hb) as Hf. rewrite Eb in Hf. cbn in Hf.
    apply (c_genesis _ HU); [done|done|by eexists|]. rewrite walk_chain_single in Hw.
    apply genesis_repr in Hw as (f' & Hf' & _). by eexists.
Qed.

Lemma swap_backed f pre n l1 old b incoming current w : backed f pre n → brings_no_base b → n_blocks n = l1 ++ [old] → l1 ≠ [] →
  block_hash (f_rid f) b = Some incoming → block_hash (f_rid f) old = Some current → str_lt incoming current = true →
  walk_own n (l1 ++ [b]) = Ok w →
  backed f pre (with_chain (l1 ++ [b]) (n_blob n) (Some (w_head w)) (n_walk n) (n_now n) n).
Proof.
  intros Hb Hpl Eb Hne Hi Hc Hlt Hw. destruct l1 as [|cp l1]; [done|]. cbn [app] in *.
  assert (Hpl' : Forall brings_no_base (l1 ++ [b])).
  { pose proof (bk_plain _ _ _ Hb) as Hp. rewrite Eb in Hp. apply Forall_cons in Hp as [_ Hp].
    apply Forall_app in Hp as [Hp _]. apply Forall_app. split; [done|]. by apply Forall_singleton. }
  pose proof (backed_candidate f pre n cp _ _ Hb Eb Hpl') as Hr. rewrite Hw in Hr.
  destruct (walk_chain (pre ++ cp :: l1 ++ [b])) as [wf| |] eqn:Hwf; [|done|done].
  assert (Hhash : ∀ wf x, walk_chain (pre ++ cp :: l1 ++ [x]) = Ok wf →
    head (pre ++ cp :: l1 ++ [x]) ≫= founding_of = Some f →
    hd_republic_id (w_head wf) = f_rid f ∧ block_hash (f_rid f) x = Some (hd_hash (w_head wf))).
  { intros wx x Hx Hf. destruct (walk_chain_repr _ _ Hx) as [f' Hrx].
    assert (f' = f) as ->. { destruct (wr_genesis _ _ _ Hrx) as (g & r & Eg & Hg). rewrite Eg in Hf. cbn in Hf. congruence. }
    split; [by rewrite (wr_head _ _ _ Hrx)|]. pose proof (wr_hash _ _ _ Hrx) as Hh.
    rewrite (app_comm_cons l1 [x] cp), app_assoc, last_snoc in Hh. exact Hh. }
  destruct Hb as [B1 B2 B3 B4 B5 B6 (wo & Hwo & Hho & Hco)]. rewrite Eb in *.
  assert (Hf' : head (pre ++ cp :: l1 ++ [b]) ≫= founding_of = Some f) by (destruct pre; exact B3).
  destruct (Hhash _ _ Hwf Hf') as [_ Hn]. destruct (Hhash _ _ Hwo B3) as [Hro Hoo]. rewrite Hi in Hn. rewrite Hc in Hoo.
  injection Hn as ->. injection Hoo as ->. split; cbn; try done.
  - apply Forall_cons in B6 as [? _]. by constructor.
  - exists wf. split; [done|]. split; [by destruct (sim_report _ _ _ _ Hr) as [-> _]|].
    intros w0 Ew. right. destruct (Hco w0 Ew) as [Hs|[Hrid Hl]].
    + destruct (sim_report _ _ _ _ Hs) as [-> _]. split; [exact (eq_trans Hro (eq_sym B4))|done].
    + split; [done|]. by eapply str_lt_trans.
Qed.

Lemma swap_follows f pre n l1 old b incoming current n' : good f pre n → U b → n_blocks n = l1 ++ [old] →
  change old ≠ change b → block_hash (f_rid f) b = Some incoming → block_hash (f_rid f) old = Some current →
  str_lt incoming current = true → swap_tip b n = Ok n' → follows f pre n n'.
Proof.
  intros Hg Hu Eb Hch Hi Hc Hlt Hs. unfold swap_tip in Hs. rewrite Eb, length_app in Hs. cbn [length] in Hs.
  rewrite take_app_le, take_ge in Hs by lia.
  destruct (walk_own n (l1 ++ [b])) as [w|e|] eqn:Hw; [|injection Hs as <-; by apply follows_quiet|done].
  destruct (decide (l1 = [])) as [->|Hne]; [destruct Hch; by eapply anchor_change|].
  destruct Hg as [Hb Hst]. pose proof (swap_backed f pre n l1 old b incoming current w Hb (c_plain _ HU b Hu) Eb Hne Hi Hc Hlt Hw) as Hb1.
  set (n1 := with_chain _ _ _ _ _ _) in *. assert (Hg1 : good f pre n1).
  { split; [done|]. destruct Hst as [S1 S2 S3 S4 S5]. split; try done. cbn. rewrite Eb in S1. apply Forall_app in S1 as [S1 _].
    apply Forall_app. split; [done|]. by apply Forall_singleton. }
  destruct (after_good f pre n1 l1 b [] n' Hg1 eq_refl Hne Hs) as (pre' & l1' & ext & Hg' & E & Ep & _).
  assert (E2 : pre' ++ n_blocks n' = (pre ++ l1) ++ b :: ext) by (rewrite E; cbn [app]; by rewrite app_assoc, Ep).
  exists pre'. split; [done|]. rewrite E2, Eb. right. exists (pre ++ l1), old, [], b, ext, current, incoming.
  split_and!; try done; [|by rewrite <-app_assoc].
  by intros [_ ?]%app_nil.
Qed.

(** The held block at the tip's height is the tip. *)
Lemma tip_block f pre n tip o h : backed f pre n → last (n_blocks n) = Some tip → height tip = h →
  block_at (n_blocks n) h = Some o → ∃ l1, n_blocks n = l1 ++ [o].
Proof.
  intros Hb El Eh Ho. unfold block_at in Ho. apply find_some in Ho as [Hin Hho%N.eqb_eq].
  apply list_elem_of_In, list_elem_of_lookup in Hin as [i Hi]. apply last_Some in El as [l1 Eb].
  assert (Ht : n_blocks n !! length l1 = Some tip) by (by rewrite Eb, list_lookup_middle).
  pose proof (heights_from f pre n i o Hb Hi). pose proof (heights_from f pre n _ tip Hb Ht).
  assert (i = length l1) as -> by lia. rewrite Ht in Hi. injection Hi as ->. by exists l1.
Qed.

Lemma tie_break_follows f pre n from b n' : good f pre n → U b → tie_break from b n = Ok n' → follows f pre n n'.
Proof.
  intros Hg Hu Ht. unfold tie_break in Ht. destruct (block_at (n_blocks n) (height b)) as [old|] eqn:Eo.
  2:{ injection Ht as <-. by apply follows_quiet. }
  case_bool_decide; [injection Ht as <-; apply follows_quiet; [done|apply clear_divergence_quiet]|].
  apply obind_ok in Ht as (incoming & Hi%expect_ok & Ht). apply obind_ok in Ht as (current & Hc%expect_ok & Ht).
  apply obind_ok in Ht as (shared & _ & Ht). apply obind_ok in Ht as (signed & _ & Ht).
  destruct (shared && bool_decide (change old = change b)) eqn:Esh.
  { destruct (_ && signed); [|injection Ht as <-; by apply follows_quiet].
    eapply follows_trans; [apply (follows_same f pre n (stash_fork_candidate b n)); [by apply stash_good|done]|].
    intros pre1 Hg1. by eapply try_reorg_follows. }
  destruct (negb shared || negb _) eqn:Efar.
  { set (since := if shared then _ else _) in Ht.
    eapply follows_trans; [apply (follows_quiet f pre n (note_divergence from since n)); [done|apply note_divergence_quiet]|].
    intros pre1 Hg1. eapply follows_trans; [apply (follows_same f pre1 _ (stash_fork_candidate b (note_divergence from since n))); [by apply stash_good|done]|].
    intros pre2 Hg2. by eapply try_reorg_follows. }
  destruct (str_lt incoming current) eqn:Elt; [|injection Ht as <-; by apply follows_quiet].
  destruct signed; [|injection Ht as <-; by apply follows_quiet].
  apply orb_false_iff in Efar as [Es%negb_false_iff Etip%negb_false_iff]. subst shared. cbn in Esh. apply bool_decide_eq_false in Esh.
  destruct (last (n_blocks n)) as [tip|] eqn:El; [|done]. apply N.eqb_eq in Etip. destruct Hg as [Hb Hst].
  destruct (tip_block f pre n tip old (height b) Hb El Etip Eo) as [l1 Eb]. rewrite (bk_rid _ _ _ Hb) in Hi, Hc.
  by eapply (swap_follows f pre n l1 old b incoming current).
Qed.

(** ** Blocks in order *)

Lemma apply_next_follows f pre n b n' ok : good f pre n → U b → apply_next_block b n = Ok (n', ok) →
  follows f pre n n' ∧ n_pending n' = n_pending n ∧
  (ok = true → ∃ pre' ext, good f pre' n' ∧ pre' ++ n_blocks n' = (pre ++ n_blocks n) ++ b :: ext).
Proof.
  intros Hg Hu Ha. unfold apply_next_block in Ha. apply obind_ok in Ha as ([n1 ok1] & Happ & Ha). cbn [fst snd] in Ha.
  destruct Hg as [Hb Hs]. destruct (append_backed f pre n b n1 ok1 Hb (c_plain _ HU b Hu) Happ) as (Hb1 & Eb1 & Ebuf & Eseal & _).
  pose proof Ebuf as Ebuf0. unfold buffers in Ebuf0. injection Ebuf0 as _ _ Ep _ _. destruct ok1.
  - assert (Hg1 : good f pre n1).
    { split; [done|]. destruct Hs as [S1 S2 S3 S4 S5]. unfold buffers in Ebuf. injection Ebuf as _ _ E2 E3 E4.
      split; rewrite ?Eb1, ?E2, ?E3, ?E4, ?Eseal; try done. apply Forall_app. split; [done|]. by apply Forall_singleton. }
    apply obind_ok in Ha as (n2 & Hn2 & Ha). pose proof (bk_blocks _ _ _ Hb) as Hne.
    destruct (after_good f pre n1 (n_blocks n) b [] n2 Hg1 Eb1 Hne Hn2) as (pre' & l1' & ext & Hg2 & E2 & Epre & Ebuf2).
    set (n3 := match n_catchup n2 with Some _ => _ | None => _ end) in Ha. injection Ha as <- <-.
    assert (Hq : quiet n2 n3) by (unfold n3; destruct (n_catchup n2) as [c|]; [destruct (_ <=? _)%N|]; done).
    assert (E3 : pre' ++ n_blocks n3 = (pre ++ n_blocks n) ++ b :: ext).
    { rewrite (quiet_blocks _ _ Hq), E2. cbn [app]. by rewrite app_assoc, Epre. }
    assert (Hg3 : good f pre' n3) by (by eapply good_quiet).
    split; [exists pre'; split; [done|]; rewrite E3; apply moved_app|]. split; [|by exists pre', ext].
    destruct Hq as (_ & Hq & _). unfold buffers in Hq, Ebuf2. injection Hq as _ _ Hq _ _. injection Ebuf2 as _ _ Hp2 _ _. congruence.
  - injection Ha as <- <-. split; [|by split]. apply follows_same; [|by rewrite Eb1, app_nil_r]. split; [done|].
    eapply stocked_frame; [|done..]. by rewrite Eb1, app_nil_r.
Qed.

Lemma drain_loop_follows fuel f pre n n' : good f pre n → drain_loop fuel n = Ok n' → follows f pre n n'.
Proof.
  revert pre n. induction fuel as [|fuel IH]; intros pre n Hg Hd; cbn [drain_loop] in Hd.
  { injection Hd as <-. by apply follows_quiet. }
  destruct (n_head n) as [hd|]; [|injection Hd as <-; by apply follows_quiet].
  apply obind_ok in Hd as (next & _ & Hd). destruct (n_pending n !! next) as [b|] eqn:Ep.
  2:{ injection Hd as <-. by apply follows_quiet. }
  apply obind_ok in Hd as ([n1 ok] & Hn1 & Hd). cbn [fst snd] in Hd.
  pose proof Hg as [_ Hs]. destruct (st_pending _ Hs _ _ Ep) as [Hu _].
  assert (Hg0 : good f pre (set_pending (delete next (n_pending n)) n)).
  { apply pending_good; [done|]. intros h x [_ Hx]%lookup_delete_Some. by apply (st_pending _ Hs). }
  destruct (apply_next_follows f pre _ b n1 ok Hg0 Hu Hn1) as (Hf & _ & _).
  eapply follows_trans; [by apply (follows_same f pre n (set_pending (delete next (n_pending n)) n))|].
  intros pre0 Hg0'. destruct (apply_next_follows f pre0 _ b n1 ok Hg0' Hu Hn1) as (Hf' & _ & _).
  eapply follows_trans; [exact Hf'|]. intros pre1 Hg1. destruct ok; [by eapply IH|]. injection Hd as <-. by apply follows_quiet.
Qed.

Lemma keep_above_good f pre n h : good f pre n → good f pre (set_pending (keep_above h (n_pending n)) n).
Proof.
  intros Hg. apply pending_good; [done|]. intros k b [Hk _]%map_lookup_filter_Some. destruct Hg as [_ Hs]. by apply (st_pending _ Hs).
Qed.

Lemma drain_follows f pre n n' : good f pre n → drain_buffered_blocks n = Ok n' → follows f pre n n'.
Proof.
  intros Hg Hd. unfold drain_buffered_blocks in Hd. apply obind_ok in Hd as (n1 & Hn1 & Hd). injection Hd as <-.
  eapply follows_trans; [by eapply drain_loop_follows|]. intros pre1 Hg1. apply follows_same; [|done]. by apply keep_above_good.
Qed.

(** ** A block arrives *)

Lemma ahead_follows f pre n hd b n' : good f pre n → U b → receive_ahead hd b n = Ok n' → follows f pre n n'.
Proof.
  intros Hg Hu Hr. unfold receive_ahead in Hr. destruct (_ && negb _); [injection Hr as <-; by apply follows_quiet|].
  set (n1 := buffer b (set_pending _ n)) in Hr.
  assert (Hg1 : good f pre n1) by (apply buffer_good; [by apply keep_above_good|done]).
  apply obind_ok in Hr as (n2 & Hn2 & Hr). unfold try_adopt_from_blob in Hn2. pose proof Hg1 as [_ Hs1]. rewrite (st_served _ Hs1) in Hn2.
  injection Hn2 as <-. apply obind_ok in Hr as (next & _ & Hr). eapply follows_trans; [by apply (follows_same f pre n n1)|].
  intros pre1 Hg1'. apply follows_quiet; [done|]. by apply request_quiet in Hr.
Qed.

Lemma receive_follows f pre n from b n' : good f pre n → U b → receive_block_from from b n = Ok n' → follows f pre n n'.
Proof.
  intros Hg Hu Hr. unfold receive_block_from in Hr.
  eapply follows_trans; [apply (follows_quiet f pre n _ Hg (note_peer_quiet from (height b) n))|]. clear pre Hg. intros pre Hg.
  set (n0 := note_peer_height from (height b) n) in *. destruct Hg as [Hb Hs]. destruct (bk_walk _ _ _ Hb) as (wf & _ & Hh & _).
  rewrite Hh in Hr. apply obind_ok in Hr as (next & _ & Hr).
  destruct (height b =? next)%N.
  - case_bool_decide as Hp; cbn [negb] in Hr.
    + apply obind_ok in Hr as ([n1 ok] & Hn1 & Hr). cbn [fst snd] in Hr.
      destruct (apply_next_follows f pre n0 b n1 ok (conj Hb Hs) Hu Hn1) as (Hf & _ & _).
      eapply follows_trans; [exact Hf|]. intros pre1 Hg1. destruct ok; [|injection Hr as <-; by apply follows_quiet].
      eapply follows_trans; [apply (follows_quiet f pre1 n1 _ Hg1 (clear_divergence_quiet from n1))|].
      intros pre2 Hg2. by eapply drain_follows.
    + set (n1 := note_divergence from (hd_height (w_head wf)) n0) in Hr.
      eapply follows_trans; [apply (follows_quiet f pre n0 n1); [done|apply note_divergence_quiet]|]. intros pre1 Hg1.
      eapply follows_trans; [apply (follows_same f pre1 _ (stash_fork_candidate b n1)); [by apply stash_good|done]|].
      intros pre2 Hg2. by eapply try_reorg_follows.
  - destruct (height b <=? hd_height (w_head wf))%N; [by eapply tie_break_follows|by eapply ahead_follows].
Qed.

Lemma sealed_follows f pre n b n' : good f pre n → U b → adopt_committed_block b n = Ok n' → follows f pre n n'.
Proof.
  intros Hg Hu Ha. unfold adopt_committed_block in Ha. apply obind_ok in Ha as ([n1 ok] & Happ & Ha). cbn [fst snd] in Ha.
  assert (Hn : apply_next_block b n = Ok (match n_catchup n' with Some f => if (f <=? height b)%N then set_catchup None n' else n' | None => n' end, true)
    ∨ ok = false) by (destruct ok; [left|by right]; unfold apply_next_block; rewrite Happ; cbn; by rewrite Ha).
  destruct Hn as [Hn| ->].
  - destruct (apply_next_follows f pre n b _ true Hg Hu Hn) as (Hf & _ & _).
    set (n2 := match n_catchup n' with Some _ => _ | None => _ end) in *.
    assert (Hq : quiet n2 n') by (unfold n2; destruct (n_catchup n') as [c|]; [destruct (_ <=? _)%N|]; done).
    eapply follows_trans; [exact Hf|]. intros pre1 Hg1. by apply follows_quiet.
  - injection Ha as <-. destruct Hg as [Hb Hs].
    destruct (append_backed f pre n b n1 false Hb (c_plain _ HU b Hu) Happ) as (Hb1 & Eb1 & Ebuf & Eseal & _).
    rewrite app_nil_r in Eb1. apply follows_same; [|done]. split; [done|]. by eapply stocked_frame.
Qed.

(** An event within the theorem: blocks in circulation, no served summary. *)
Definition event_ok (e : event) : Prop :=
  match e with EBlock _ b | ESealed b => U b | EBlob _ => False | EClock _ | EDisk _ _ => True end.

Lemma run_follows f pre n es n' : good f pre n → Forall event_ok es → run_node es n = Ok n' → follows f pre n n'.
Proof.
  intros Hg Hes. revert pre n Hg. induction Hes as [|e es He _ IH]; intros pre n Hg Hr; cbn [run_node] in Hr.
  { injection Hr as <-. by apply follows_quiet. }
  apply obind_ok in Hr as (n1 & Hn1 & Hr). apply follows_trans with n1.
  - destruct e as [from b|blob|b|now|wd vd]; cbn in He, Hn1; [by eapply receive_follows|done|by eapply sealed_follows|..];
      injection Hn1 as <-; by apply follows_quiet.
  - intros pre1 Hg1. by apply (IH pre1).
Qed.

End Steps.

(** C6: the history behind a node.  Start a node from a chain that verifies,
    in a republic without vault keys, and let events happen: blocks from
    anyone, in any order, of any branch, and blocks sealed here, cuts among
    them, so that the node drops history as it goes.  The blocks are of one
    universe ([circulating]): there is a single founding, none brings a base
    entry of its own, no two cuts of one height and state hash differ in kind.
    No summary is served, and what the votes seal during the bookkeeping is no
    cut ([good], [event_ok]).  As long as the run does not panic, at every
    point the blocks it holds are the end of a history the walk accepts from
    the genesis on, and its head is that history's; each later history extends
    the earlier or beats it at the first block where they part; so a history
    the node gave up never comes back. *)
Theorem node_history `{Env, VaultSerde} (U : ChainBlock → Prop) (f : Founding) (pre : list ChainBlock) (n n1 n2 : Node)
    (es1 es2 : list event) :
  circulating U → good U f pre n → Forall (event_ok U) es1 → Forall (event_ok U) es2 →
  run_node es1 n = Ok n1 → run_node es2 n1 = Ok n2 →
  ∃ pre1 pre2, backed f pre1 n1 ∧ backed f pre2 n2 ∧
    moved (f_rid f) (pre ++ n_blocks n) (pre1 ++ n_blocks n1) ∧
    moved (f_rid f) (pre1 ++ n_blocks n1) (pre2 ++ n_blocks n2) ∧
    (pre2 ++ n_blocks n2 = pre ++ n_blocks n → pre1 ++ n_blocks n1 = pre ++ n_blocks n).
Proof.
  intros HU Hg He1 He2 Hr1 Hr2. destruct (run_follows U HU f pre n es1 n1 Hg He1 Hr1) as (pre1 & Hg1 & Hm1).
  destruct (run_follows U HU f pre1 n1 es2 n2 Hg1 He2 Hr2) as (pre2 & Hg2 & Hm2).
  exists pre1, pre2. destruct Hg1 as [? _], Hg2 as [? _]. split_and!; try done.
  intros E. rewrite E in Hm2. by apply (anti_symm (moved (f_rid f))).
Qed.
