(* ===== verification/Catchup.v ===== *)
(** * Catching up

    A node that is behind gets the blocks it misses in any order, more than
    once, with others buffered in between; once each has arrived it stands on
    the chain they make (crates/molt-engine/src/chain/sync.rs,
    [receive_block_from], [drain_buffered_blocks]).  No step of the way
    panics. *)

From S2P Require Import Prelude Bytes Strs Json Env Surface Roster Chain Checkpoint WikiFold Vault Cuts Ledger Verify Walk WalkProps Projection Prune Votes Sync Fork SyncInv SyncProps.

(** Nothing is shed from a buffer within its bound. *)
Lemma shed_fits {A} fuel (m : gmap N A) : (N.of_nat (size m) <= CATCHUP_BUFFER_WINDOW)%N → shed fuel m = m.
Proof. intros Hs. destruct fuel as [|fuel]; [done|]. cbn [shed]. by rewrite (proj2 (N.ltb_ge _ _)). Qed.

Section Catchup.
Context `{Env, VaultSerde}.

(** ** Steps that cannot fail *)

(** Every block of an accepted chain has a hash. *)
Lemma accepted_hashes f bs w b : walk_chain bs = Ok w → head bs ≫= founding_of = Some f → b ∈ bs →
  is_Some (block_hash (f_rid f) b).
Proof.
  intros Hw Hf (l1 & l2 & ->)%list_elem_of_split. rewrite cons_middle, app_assoc in Hw.
  destruct (walk_chain_prefix _ _ _ Hw) as [w' Hw']; [by intros [_ ?]%app_nil|].
  destruct (walk_chain_repr _ _ Hw') as [f' Hr]. assert (f' = f) as ->.
  { destruct (wr_genesis _ _ _ Hr) as (g & r & Eg & Hg). destruct l1; cbn in *; injection Eg as -> _; congruence. }
  pose proof (wr_hash _ _ _ Hr) as Hh. rewrite last_snoc in Hh. by eexists.
Qed.

Lemma backed_hashes f pre n b : backed f pre n → b ∈ n_blocks n → is_Some (block_hash (n_rid n) b).
Proof.
  intros Hb Hin. destruct (bk_walk _ _ _ Hb) as (wf & Hw & _). rewrite (bk_rid _ _ _ Hb).
  eapply accepted_hashes; [exact Hw|apply (bk_founding _ _ _ Hb)|]. apply elem_of_app. by right.
Qed.

Lemma known_from_total fuel rid blocks hd back : (∀ b, b ∈ blocks → is_Some (block_hash rid b)) →
  ∃ l, known_from fuel rid blocks hd back = Ok l.
Proof.
  intros Hh. revert back. induction fuel as [|fuel IH]; intros back; cbn [known_from]; [by eexists|].
  destruct (hd <? back)%N; [by eexists|]. destruct (block_at blocks (hd - back)) as [b|] eqn:Eb; [|by eexists].
  unfold block_at in Eb. apply find_some in Eb as [Hin _]. apply list_elem_of_In in Hin.
  destruct (Hh b Hin) as [x ->]. cbn [expect obind]. set (k := if (back =? 0)%N then _ else _).
  destruct (IH k) as [l ->]. by eexists.
Qed.

Lemma request_total f pre n from : backed f pre n → ∃ n', request_catchup from n = Ok n'.
Proof.
  intros Hb. unfold request_catchup. destruct (_ || _); [by eexists|]. unfold known_heads.
  destruct (last (n_blocks n)) as [b|]; [|by eexists].
  destruct (known_from_total KNOWN_HEADS_MAX (n_rid n) (n_blocks n) (height b) 0) as [l ->]; [|by eexists].
  intros x. by apply (backed_hashes f pre).
Qed.

(** The state of a cut that verified can be built again. *)
Lemma drop_total f pre n l1 b l2 : backed f pre n → n_blocks n = l1 ++ b :: l2 → l1 ≠ [] → ∃ n', drop_history b n = Ok n'.
Proof.
  intros Hb Eb Hne. unfold drop_history. destruct (cut_of (change b)) as [[[upto h] kind]|] eqn:Hcut; [|by eexists].
  destruct (own_cut_backed f pre n l1 b l2 upto h kind Hb Eb Hne Hcut) as (st & Hst & ->).
  destruct (bk_walk _ _ _ Hb) as (wf & Hw & _). rewrite Eb, app_assoc in Hw. destruct (walk_chain_repr _ _ Hw) as [f' Hr].
  destruct (walk_chain_valid _ _ _ _ _ Hw Hr) as (w0 & _ & _ & Hv); [by intros [_ ?]%app_nil|].
  destruct (bv_cut _ _ _ Hv _ _ _ Hcut) as (_ & _ & _ & st0 & blob & fc & Hst0 & Hfc & _).
  rewrite Hst in Hst0. injection Hst0 as <-. rewrite Hfc. cbn [omap_err].
  destruct (_ && _); [by eexists|]. destruct (_ && _); by eexists.
Qed.

(** The next block of an accepted chain is applied. *)
Lemma apply_next_total f pre n b : backed f pre n → n_seals n = [] → brings_no_base b →
  is_ok (walk_chain ((pre ++ n_blocks n) ++ [b])) = true →
  ∃ n' pre', apply_next_block b n = Ok (n', true) ∧ backed f pre' n' ∧ pre' ++ n_blocks n' = (pre ++ n_blocks n) ++ [b] ∧
    buffers n' = buffers n ∧ n_seals n' = [].
Proof.
  intros Hb Hs Hpl Hok. unfold apply_next_block. pose proof (extend_backed f pre n b Hb Hpl) as He.
  destruct (append_committed_block b n) as [[n1 ok]|e|] eqn:Ha; cycle 1.
  { unfold append_committed_block in Ha. by destruct (extend_own b n) as [? [| |]]. }
  { unfold append_committed_block in Ha. destruct (extend_own b n) as [? [| |]]; [done..|]. by rewrite He in Hok. }
  destruct (append_backed f pre n b n1 ok Hb Hpl Ha) as (Hb1 & Eb1 & Ebuf & Es & ->). rewrite Hok in *. cbn [obind fst snd].
  pose proof (bk_blocks _ _ _ Hb) as Hne.
  destruct (drop_total f pre n1 (n_blocks n) b [] Hb1 Eb1 Hne) as [n2 Hd]. unfold after_block_applied. rewrite Hd. cbn [obind].
  destruct (drop_backed f pre n1 (n_blocks n) b [] n2 Hb1 Eb1 Hne Hd) as (Ebuf2 & Es2 & Hcase).
  unfold take_seals. rewrite Es2, Es, Hs. cbn [obind]. set (n3 := match n_catchup n2 with Some _ => _ | None => _ end).
  assert (Hq : chain_part n3 = chain_part n2 ∧ buffers n3 = buffers n2 ∧ n_seals n3 = n_seals n2).
  { unfold n3. destruct (n_catchup n2) as [c|]; [destruct (_ <=? _)%N|]; done. }
  destruct Hq as (Q1 & Q2 & Q3). assert (Eb3 : n_blocks n3 = n_blocks n2) by (unfold chain_part in Q1; by injection Q1).
  destruct Hcase as [->|(_ & Hb2 & Eb2)].
  - exists n3, pre. split; [done|]. split; [by eapply backed_frame|]. rewrite Eb3, Eb1, app_assoc. split; [done|]. split; congruence.
  - exists n3, (pre ++ n_blocks n). split; [done|]. split; [by eapply backed_frame|]. rewrite Eb3, Eb2. split; [done|]. split; congruence.
Qed.

(** ** The way to the full chain *)

Context (f : Founding) (hist ext : list ChainBlock).

(** [k] of the missing blocks are in; of the others from [lo] on, some wait. *)
Record catching (lo k : nat) (n : Node) : Prop := {
  ct_backed : ∃ pre, backed f pre n ∧ pre ++ n_blocks n = hist ++ take k ext;
  ct_served : n_served n = None;
  ct_seals : n_seals n = [];
  ct_within : (k <= length ext)%nat;
  ct_pending h b : n_pending n !! h = Some b → ∃ i, (lo <= i)%nat ∧ ext !! i = Some b ∧ height b = h;
}.

(** The node has a block: it is in, or it waits. *)
Definition has (k : nat) (n : Node) (i : nat) : Prop :=
  (i < k)%nat ∨ ∃ b, ext !! i = Some b ∧ n_pending n !! height b = Some b.

Context (w : ChainWalk) (Hfull : walk_chain (hist ++ ext) = Ok w) (Hplain : Forall brings_no_base ext)
  (Hwidth : (len hist + len ext <= u64_max)%N) (Hshort : (len ext <= CATCHUP_BUFFER_WINDOW)%N).

Lemma ext_height i b : ext !! i = Some b → height b = (len hist + N.of_nat i)%N.
Proof.
  intros Hi. destruct (walk_chain_repr _ _ Hfull) as [f' Hr]. rewrite (wr_heights _ _ _ Hr (length hist + i)%nat b).
  - unfold len. lia.
  - rewrite lookup_app_r by lia. by replace (_ + _ - _)%nat with i by lia.
Qed.

Lemma catching_head lo k n : catching lo k n → hist ≠ [] →
  ∃ hd, n_head n = Some hd ∧ (hd_height hd + 1 = len hist + N.of_nat k)%N ∧
    (∀ b, ext !! k = Some b → prev b = hd_hash hd).
Proof.
  intros [(pre & Hb & E) _ _ Hk _] Hne. destruct (bk_walk _ _ _ Hb) as (wf & Hw & Hh & _). exists (w_head wf). split; [done|].
  rewrite E in Hw. destruct (walk_chain_repr _ _ Hw) as [f' Hr]. rewrite (wr_head _ _ _ Hr) at 1. cbn. split.
  - rewrite len_app. unfold len. rewrite length_take_le by done. destruct hist; [done|]. cbn [length]. lia.
  - intros b Hb'. rewrite <-(take_drop_middle ext k b Hb'), app_assoc in Hfull. destruct (walk_chain_repr _ _ Hfull) as [f2 Hr2].
    destruct (walk_chain_valid _ _ _ _ _ Hfull Hr2) as (w0 & Hw0 & Hr0 & Hv); [by intros [? _]%app_nil|].
    rewrite Hw in Hw0. injection Hw0 as <-. destruct (bv_link _ _ _ Hv) as (l & El & Hl).
    pose proof (wr_hash _ _ _ Hr0) as Hx. rewrite El in Hx. cbn in Hx. congruence.
Qed.

Lemma catching_weaken lo lo' k n : catching lo k n → (lo' <= lo)%nat → catching lo' k n.
Proof. intros [C1 C2 C3 C4 C5] Hle. split; try done. intros h b (i & ? & ?)%C5. exists i. split; [lia|done]. Qed.

Lemma catching_apply lo k n b : catching lo k n → hist ≠ [] → ext !! k = Some b →
  ∃ n', apply_next_block b n = Ok (n', true) ∧ catching lo (S k) n' ∧ n_pending n' = n_pending n.
Proof.
  intros [(pre & Hb & E) Hs Hse Hk Hp] Hne Hkb.
  assert (Hpl : brings_no_base b) by (eapply Forall_lookup_1; [exact Hplain|exact Hkb]).
  destruct (apply_next_total f pre n b Hb Hse Hpl) as (n' & pre' & Ha & Hb' & E' & Ebuf & Hse').
  { rewrite E, <-app_assoc, <-take_S_r by done. rewrite <-(take_drop (S k) ext), app_assoc in Hfull.
    destruct (walk_chain_prefix _ _ _ Hfull) as [w' ->]; [by intros [? _]%app_nil|done]. }
  unfold buffers in Ebuf. injection Ebuf as _ _ E2 E3 _. exists n'. split; [done|]. split; [|done].
  split; try done; try congruence.
  - exists pre'. split; [done|]. by rewrite E', E, <-app_assoc, <-take_S_r.
  - apply lookup_lt_Some in Hkb. lia.
  - rewrite E2. exact Hp.
Qed.

(** Draining takes in every block that is next, and loses none. *)
Lemma drain_loop_catching fuel k n : catching k k n → hist ≠ [] → (size (n_pending n) < fuel)%nat →
  ∃ n' k', drain_loop fuel n = Ok n' ∧ catching (S k') k' n' ∧ ∀ i, has k n i → has k' n' i.
Proof.
  revert k n. induction fuel as [|fuel IH]; intros k n Hc Hne Hsz; [lia|].
  destruct (catching_head k k n Hc Hne) as (hd & Hh & Hhh & _). cbn [drain_loop]. rewrite Hh. unfold u64_checked_add.
  rewrite (proj2 (N.leb_le _ _)). 2:{ pose proof (ct_within _ _ _ Hc). unfold len in *. lia. }
  cbn [expect obind]. destruct (n_pending n !! (hd_height hd + 1)%N) as [b|] eqn:Ep; cycle 1.
  { exists n, k. split; [done|]. split; [|done]. destruct Hc as [C1 C2 C3 C4 C5]. split; try done.
    intros h b Hb. destruct (C5 h b Hb) as (i & Hi & Eb & Eh). exists i. split; [|done].
    destruct (decide (i = k)) as [->|]; [|lia]. rewrite (ext_height k b Eb), <-Hhh in Eh. by rewrite <-Eh, Ep in Hb. }
  destruct (ct_pending _ _ _ Hc _ _ Ep) as (i & Hi & Eb & Eh). rewrite (ext_height i b Eb) in Eh. assert (i = k) as -> by lia.
  set (m := delete _ _). assert (Hc0 : catching (S k) k (set_pending m n)).
  { destruct Hc as [(pre & C0 & C1) C2 C3 C4 C5]. split; try done; [exists pre; split; [by eapply backed_frame; [|exact C0]|done]|].
    cbn. intros h x [Hd Hx]%lookup_delete_Some. destruct (C5 h x Hx) as (j & Hj & Ex & Exh). exists j. split; [|done].
    destruct (decide (j = k)) as [->|]; [|lia]. rewrite (ext_height k x Ex) in Exh. lia. }
  destruct (catching_apply (S k) k _ b Hc0 Hne Eb) as (n1 & Ha & Hc1 & Ep1). rewrite Ha. cbn [obind fst snd].
  destruct (IH (S k) n1 Hc1 Hne) as (n' & k' & Hd & Hc' & Hhas).
  { rewrite Ep1. cbn. unfold m. rewrite map_size_delete, Ep.
    pose proof (map_size_ne_0_lookup_2 (n_pending n) (hd_height hd + 1)%N ltac:(by eexists)). lia. }
  exists n', k'. split; [done|]. split; [done|]. intros j [Hj|(x & Ex & Hx)]; apply Hhas; [left; lia|].
  destruct (decide (j = k)) as [->|Hjk]; [left; lia|]. right. exists x. split; [done|]. rewrite Ep1. cbn. unfold m.
  rewrite lookup_delete_ne; [done|]. rewrite (ext_height j x Ex). lia.
Qed.

Lemma drain_catching k n : catching k k n → hist ≠ [] →
  ∃ n' k', drain_buffered_blocks n = Ok n' ∧ catching (S k') k' n' ∧ ∀ i, has k n i → has k' n' i.
Proof.
  intros Hc Hne. unfold drain_buffered_blocks.
  destruct (drain_loop_catching (S (size (n_pending n))) k n Hc Hne) as (n1 & k' & -> & Hc1 & Hhas); [lia|]. cbn [obind].
  destruct (catching_head _ _ _ Hc1 Hne) as (hd & -> & Hhh & _). set (m := keep_above _ _).
  exists (set_pending m n1), k'. split; [done|].
  assert (Hm : m = n_pending n1).
  { apply map_eq. intros h. unfold m, keep_above. rewrite map_lookup_filter. destruct (n_pending n1 !! h) as [b|] eqn:Eb; [|done].
    cbn. rewrite option_guard_True; [done|]. cbn. destruct (ct_pending _ _ _ Hc1 h b Eb) as (i & Hi & Ex & Eh).
    rewrite (ext_height i b Ex) in Eh. lia. }
  rewrite Hm. split; [|done]. by destruct n1.
Qed.

(** ** One block arrives *)

Lemma catching_quiet lo k n n' : chain_part n' = chain_part n → buffers n' = buffers n → n_seals n' = n_seals n →
  catching lo k n → catching lo k n'.
Proof.
  intros Q1 Q2 Q3 [(pre & C0 & C1) C2 C3 C4 C5]. unfold buffers in Q2. injection Q2 as _ _ E2 E3 _.
  split; try congruence; [|by rewrite E2]. exists pre. split; [by eapply backed_frame|].
  unfold chain_part in Q1. injection Q1 as _ -> _ _ _ _. done.
Qed.

Lemma has_same k n n' i : n_pending n' = n_pending n → has k n i → has k n' i.
Proof. unfold has. by intros ->. Qed.

(** A block that is in already changes nothing but the divergence record. *)
Lemma tie_break_known lo k n from b i : catching lo k n → ext !! i = Some b → (i < k)%nat →
  ∃ n', tie_break from b n = Ok n' ∧ chain_part n' = chain_part n ∧ buffers n' = buffers n ∧ n_seals n' = n_seals n.
Proof.
  intros [(pre & Hb & E) _ _ Hk _] Hi Hlt. unfold tie_break. destruct (block_at (n_blocks n) (height b)) as [o|] eqn:Eo; [|by exists n].
  unfold block_at in Eo. apply find_some in Eo as [Hin Hh%N.eqb_eq]. apply list_elem_of_In, list_elem_of_lookup in Hin as [j Hj].
  pose proof (heights_from f pre n j o Hb Hj) as Hoh. rewrite Hh, (ext_height i b Hi) in Hoh.
  assert (Ho : (hist ++ take k ext) !! (length hist + i)%nat = Some o).
  { rewrite <-E, lookup_app_r by (unfold len in Hoh; lia).
    by replace (_ + _ - _)%nat with j by (unfold len in Hoh; lia). }
  rewrite lookup_app_r, Nat.add_comm, Nat.add_sub, lookup_take_lt, Hi in Ho by lia. injection Ho as ->.
  rewrite bool_decide_eq_true_2 by done. by eexists.
Qed.

Lemma pending_size lo k n : catching lo k n → (size (n_pending n) <= length ext - lo)%nat.
Proof.
  intros Hc. rewrite <-size_dom, <-(length_seq lo (length ext - lo)).
  transitivity (size (list_to_set ((λ i, (len hist + N.of_nat i)%N) <$> seq lo (length ext - lo)) : gset N)).
  - apply subseteq_size. intros h [b Hb]%elem_of_dom. destruct (ct_pending _ _ _ Hc h b Hb) as (i & Hi & Ex & <-).
    rewrite (ext_height i b Ex). apply elem_of_list_to_set, list_elem_of_fmap. exists i. split; [done|].
    apply lookup_lt_Some in Ex. apply elem_of_seq. lia.
  - rewrite length_seq. etrans; [apply size_list_to_set_le|]. by rewrite length_fmap, length_seq.
Qed.

(** A block past the next one waits. *)
Lemma ahead_catching k n hd b i : catching (S k) k n → hist ≠ [] → n_head n = Some hd → ext !! i = Some b → (k < i)%nat →
  ∃ n', receive_ahead hd b n = Ok n' ∧ catching (S k) k n' ∧ (∀ j, has k n j → has k n' j) ∧ has k n' i.
Proof.
  intros Hc Hne Hh Hi Hlt. destruct (catching_head _ _ _ Hc Hne) as (hd' & Hh' & Hhh & _). rewrite Hh in Hh'. injection Hh' as <-.
  pose proof (lookup_lt_Some _ _ _ Hi) as Hil. pose proof (ext_height i b Hi) as Hbh.
  unfold receive_ahead. rewrite (ct_served _ _ _ Hc), andb_true_r. rewrite (proj2 (N.ltb_ge _ _)).
  2:{ unfold u64_saturating_add, len in *. lia. }
  assert (Hkeep : keep_above (hd_height hd) (n_pending n) = n_pending n).
  { apply map_eq. intros h. unfold keep_above. rewrite map_lookup_filter. destruct (n_pending n !! h) as [x|] eqn:Ex; [|done].
    cbn. rewrite option_guard_True; [done|]. cbn. destruct (ct_pending _ _ _ Hc h x Ex) as (j & Hj & Exj & Eh).
    rewrite (ext_height j x Exj) in Eh. lia. }
  rewrite Hkeep. set (m := <[height b := b]> (n_pending n)). set (n1 := set_pending m n).
  assert (Hc1 : catching (S k) k n1).
  { destruct Hc as [(pre & C0 & C1) C2 C3 C4 C5]. split; try done; [exists pre; split; [by eapply backed_frame; [|exact C0]|done]|].
    intros h x Hx. change (m !! h = Some x) in Hx. apply lookup_insert_Some in Hx as [[<- <-]|[_ Hx]]; [|by apply C5]. by exists i. }
  assert (Hbuf : buffer b (set_pending (n_pending n) n) = n1).
  { unfold buffer. cbn. fold m. rewrite shed_fits; [done|]. pose proof (pending_size _ _ _ Hc1) as Hsz. cbn in Hsz. unfold len in *. lia. }
  rewrite Hbuf. unfold try_adopt_from_blob. rewrite (ct_served _ _ _ Hc1). cbn [obind]. unfold u64_checked_add.
  rewrite (proj2 (N.leb_le _ _)) by (unfold len in *; lia). cbn [expect obind].
  destruct (ct_backed _ _ _ Hc1) as (pre & Hb & _). destruct (request_total f pre n1 (hd_height hd + 1)%N Hb) as [n' Hr].
  exists n'. split; [done|]. destruct (request_quiet _ _ _ Hr) as (Q1 & Q2 & Q3). split; [by eapply catching_quiet|].
  assert (Ep : n_pending n' = m) by (unfold buffers in Q2; by injection Q2). split.
  - intros j [?|(x & Ex & Hx)]; [by left|]. right. exists x. split; [done|]. rewrite Ep. unfold m.
    destruct (decide (j = i)) as [->|Hji]; [rewrite Hi in Ex; injection Ex as ->; by rewrite lookup_insert_eq|].
    rewrite lookup_insert_ne; [done|]. rewrite Hbh, (ext_height j x Ex). lia.
  - right. exists b. split; [done|]. rewrite Ep. apply lookup_insert_eq.
Qed.

Lemma receive_catching k n from b i : catching (S k) k n → hist ≠ [] → ext !! i = Some b →
  ∃ n' k', receive_block_from from b n = Ok n' ∧ catching (S k') k' n' ∧ (∀ j, has k n j → has k' n' j) ∧ has k' n' i.
Proof.
  intros Hc0 Hne Hi. unfold receive_block_from. set (n0 := note_peer_height from (height b) n).
  assert (Hq : quiet n n0) by apply note_peer_quiet. destruct Hq as (Q1 & Q2 & Q3).
  assert (Hc : catching (S k) k n0) by (by eapply catching_quiet).
  assert (Ep0 : n_pending n0 = n_pending n) by (unfold buffers in Q2; by injection Q2).
  assert (Hj0 : ∀ j, has k n j → has k n0 j) by (intros j; by apply has_same). clearbody n0. clear Q1 Q2 Q3 Hc0 Ep0.
  destruct (catching_head _ _ _ Hc Hne) as (hd & Hh & Hhh & Hprev). rewrite Hh.
  pose proof (ct_within _ _ _ Hc) as Hk. pose proof (lookup_lt_Some _ _ _ Hi) as Hil. pose proof (ext_height i b Hi) as Hbh.
  unfold u64_checked_add. rewrite (proj2 (N.leb_le _ _)) by (unfold len in *; lia). cbn [expect obind].
  destruct (N.eqb_spec (height b) (hd_height hd + 1)) as [Heq|Hneq].
  - assert (i = k) as -> by lia. rewrite bool_decide_eq_true_2 by (by apply Hprev). cbn [negb].
    destruct (catching_apply (S k) k n0 b Hc Hne Hi) as (n1 & -> & Hc1 & Ep1). cbn [obind fst snd].
    destruct (drain_catching (S k) (clear_divergence from n1)) as (n' & k' & -> & Hc' & Hhas); [by eapply catching_quiet; [..|exact Hc1]|done|].
    exists n', k'. split; [done|]. split; [done|]. split; [|apply Hhas; left; lia]. intros j Hj%Hj0. apply Hhas.
    destruct Hj as [?|(x & Ex & Hx)]; [left; lia|]. right. exists x. cbn. by rewrite Ep1.
  - destruct (N.leb_spec (height b) (hd_height hd)).
    + destruct (tie_break_known (S k) k n0 from b i Hc Hi) as (n' & -> & Q1 & Q2 & Q3); [lia|]. exists n', k. split; [done|].
      split; [by eapply catching_quiet|]. split; [|left; lia]. intros j Hj. apply (has_same k n0); [|by apply Hj0].
      unfold buffers in Q2. by injection Q2.
    + destruct (ahead_catching k n0 hd b i Hc Hne Hh Hi) as (n' & -> & Hc' & Hhas & Hhi); [lia|]. exists n', k. by eauto 10.
Qed.

(** What a run delivers: missing blocks, in any order, more than once. *)
Definition delivers (e : event) : Prop :=
  match e with EBlock _ b => b ∈ ext | EClock _ | EDisk _ _ => True | _ => False end.

Lemma run_catching es k n : catching (S k) k n → hist ≠ [] → Forall delivers es →
  ∃ n' k', run_node es n = Ok n' ∧ catching (S k') k' n' ∧ (∀ j, has k n j → has k' n' j) ∧
    ∀ from b, EBlock from b ∈ es → ∃ i, ext !! i = Some b ∧ has k' n' i.
Proof.
  intros Hc Hne Hes. revert k n Hc. induction Hes as [|e es He _ IH]; intros k n Hc; cbn [run_node].
  { exists n, k. do 3 (split; [done|]). by intros from b ?%not_elem_of_nil. }
  destruct e as [from b|blob|b|now|wd vd]; cbn in He; [|done|done|..]; cbn [handle].
  - apply list_elem_of_lookup in He as [i Hi]. destruct (receive_catching k n from b i Hc Hne Hi) as (n1 & k1 & -> & Hc1 & Hh1 & Hhi).
    cbn [obind]. destruct (IH k1 n1 Hc1) as (n' & k' & -> & Hc' & Hh' & Hin). exists n', k'. do 2 (split; [done|]). split; [by eauto|].
    intros fr x [[= -> ->]|Hx]%elem_of_cons; [|by eapply Hin]. exists i. by eauto.
  - cbn [obind]. destruct (IH k (set_now now n)) as (n' & k' & -> & Hc' & Hh' & Hin); [by eapply catching_quiet; [..|exact Hc]|].
    exists n', k'. do 2 (split; [done|]). split; [intros j Hj; by apply Hh'|].
    intros fr x [?|Hx]%elem_of_cons; [done|]. by eapply Hin.
  - cbn [obind]. destruct (IH k (set_durable wd vd n)) as (n' & k' & -> & Hc' & Hh' & Hin); [by eapply catching_quiet; [..|exact Hc]|].
    exists n', k'. do 2 (split; [done|]). split; [intros j Hj; by apply Hh'|].
    intros fr x [?|Hx]%elem_of_cons; [done|]. by eapply Hin.
Qed.

(** Nothing waits once every block is in. *)
Lemma catching_done k n : catching (S k) k n → (∀ i, (i < length ext)%nat → has k n i) → k = length ext ∧ n_pending n = ∅.
Proof.
  intros Hc Hall. assert (k = length ext) as Ek.
  { pose proof (ct_within _ _ _ Hc). destruct (decide (k = length ext)) as [|Hk]; [done|]. exfalso.
    destruct (Hall k ltac:(lia)) as [?|(b & Eb & Hb)]; [lia|].
    destruct (ct_pending _ _ _ Hc _ _ Hb) as (i & Hi & Ei & _). pose proof (ext_height i b Ei). pose proof (ext_height k b Eb). lia. }
  split; [done|]. apply map_eq. intros h. rewrite lookup_empty. destruct (n_pending n !! h) as [b|] eqn:Eb; [|done].
  destruct (ct_pending _ _ _ Hc _ _ Eb) as (i & Hi & Ei & _). apply lookup_lt_Some in Ei. lia.
Qed.

End Catchup.

(** C7: catching up reaches the chain.  A node of a republic without vault keys
    holds the end of a history, with nothing waiting, no votes to seal and no
    summary served; the blocks that continue it to a longer chain the walk
    accepts (cuts among them, base entries not, and no more of them than the
    catch-up window of 4096) reach it in any order, from anyone, any of them
    again and again, and no other block does.  Once each has arrived at least
    once, whatever the order, the node has not panicked, stands on the whole
    longer chain and has nothing left waiting. *)
Theorem catchup_any_order `{Env, VaultSerde} (f : Founding) (pre ext : list ChainBlock) (n : Node) (es : list event) :
  backed f pre n → n_served n = None → n_seals n = [] → n_pending n = ∅ →
  is_ok (walk_chain ((pre ++ n_blocks n) ++ ext)) = true → Forall brings_no_base ext →
  (len (pre ++ n_blocks n) + len ext <= u64_max)%N → (len ext <= CATCHUP_BUFFER_WINDOW)%N →
  Forall (delivers ext) es → (∀ b, b ∈ ext → ∃ from, EBlock from b ∈ es) →
  ∃ n' pre', run_node es n = Ok n' ∧ backed f pre' n' ∧ pre' ++ n_blocks n' = (pre ++ n_blocks n) ++ ext ∧ n_pending n' = ∅.
Proof.
  intros Hb Hs Hse Hp Hok Hpl Hwd Hsh Hes Hall. set (hist := pre ++ n_blocks n) in *.
  assert (Hne : hist ≠ []) by (intros [_ ?]%app_nil; by apply (bk_blocks _ _ _ Hb)).
  destruct (walk_chain (hist ++ ext)) as [w| |] eqn:Hw; [|done|done].
  assert (Hc : catching f hist ext 1 0 n).
  { split; try done; [exists pre; split; [done|]; by rewrite take_0, app_nil_r|lia|]. intros h b. by rewrite Hp, lookup_empty. }
  destruct (run_catching f hist ext w Hw Hpl Hwd Hsh es 0 n Hc Hne Hes) as (n' & k' & Hr & Hc' & _ & Hin).
  destruct (catching_done f hist ext w Hw Hwd Hsh k' n' Hc') as [-> Hpe].
  { intros i Hi. destruct (lookup_lt_is_Some_2 ext i Hi) as [b Eb]. destruct (Hall b) as [from Hf]; [by eapply list_elem_of_lookup_2|].
    destruct (Hin from b Hf) as (j & Ej & Hj). pose proof (ext_height hist ext w Hw Hwd Hsh i b Eb). pose proof (ext_height hist ext w Hw Hwd Hsh j b Ej).
    by assert (j = i) as -> by lia. }
  destruct (ct_backed _ _ _ _ _ _ Hc') as (pre' & Hb' & E'). exists n', pre'. rewrite take_ge in E' by done. by split_and!.
Qed.
