(* ===== verification/SyncBounds.v ===== *)
(** * Bounds of catch-up

    Whatever peers send, blocks of any height, of any branch or served
    summaries, the two buffers of a node hold at most
    [CATCHUP_BUFFER_WINDOW] blocks and each request it broadcasts carries at
    most [KNOWN_HEADS_MAX] samples (crates/molt-engine/src/chain/sync.rs). *)

From S2P Require Import Prelude Bytes Strs Json Env Surface Roster Chain Checkpoint WikiFold Vault Cuts Ledger Verify Walk WalkProps Projection Votes Sync.

(** Shedding, with as much fuel as there are entries, ends within the bound. *)
Lemma sorted_keys_elem {A} (m : gmap N A) k : k ∈ sorted_keys m ↔ is_Some (m !! k).
Proof. unfold sorted_keys. by rewrite merge_sort_Permutation, elem_of_elements, elem_of_dom. Qed.

Lemma sorted_keys_last {A} (m : gmap N A) : m ≠ ∅ → ∃ k, last (sorted_keys m) = Some k ∧ is_Some (m !! k).
Proof.
  intros Hm. destruct (last (sorted_keys m)) as [k|] eqn:El.
  - exists k. split; [done|]. apply sorted_keys_elem. apply last_Some in El as [l ->]. apply elem_of_app. right. by left.
  - apply last_None in El. destruct Hm. apply map_eq. intros k. rewrite lookup_empty. destruct (m !! k) as [x|] eqn:Ek; [|done].
    assert (k ∈ sorted_keys m) as Hk by (apply sorted_keys_elem; by eexists). rewrite El in Hk. by apply not_elem_of_nil in Hk.
Qed.

Lemma shed_bound {A} fuel (m : gmap N A) : (size m <= fuel)%nat → (N.of_nat (size (shed fuel m)) <= CATCHUP_BUFFER_WINDOW)%N.
Proof.
  revert m. induction fuel as [|fuel IH]; intros m Hm; cbn [shed]; [unfold CATCHUP_BUFFER_WINDOW; lia|].
  destruct (N.ltb_spec CATCHUP_BUFFER_WINDOW (N.of_nat (size m))) as [Hlt|]; [|done].
  destruct (sorted_keys_last m) as (k & -> & Hk); [intros ->; by rewrite map_size_empty in Hlt|]. apply IH.
  rewrite map_size_delete. destruct Hk as [x ->]. lia.
Qed.

Lemma filter_bound {A} (P : N * A → Prop) `{!∀ x, Decision (P x)} (m : gmap N A) b :
  (N.of_nat (size m) <= b)%N → (N.of_nat (size (filter P m)) <= b)%N.
Proof. intros Hm. pose proof (map_subseteq_size (filter P m) m (map_filter_subseteq _ _)). lia. Qed.

Section Bounds.
Context `{Env, VaultSerde}.

Record bounded (n : Node) : Prop := {
  bd_pending : (N.of_nat (size (n_pending n)) <= CATCHUP_BUFFER_WINDOW)%N;
  bd_forks : (N.of_nat (size (n_forks n)) <= CATCHUP_BUFFER_WINDOW)%N;
  bd_requests : Forall (λ r, (length r.2 <= KNOWN_HEADS_MAX)%nat) (n_requests n);
}.

Definition stores (n : Node) := (n_pending n, n_forks n, n_requests n).

Lemma bounded_frame n n' : stores n' = stores n → bounded n → bounded n'.
Proof. unfold stores. intros [= E1 E2 E3] [B1 B2 B3]. split; by rewrite ?E1, ?E2, ?E3. Qed.

Lemma bounded_pending n p : bounded n → (N.of_nat (size p) <= CATCHUP_BUFFER_WINDOW)%N → bounded (set_pending p n).
Proof. intros [B1 B2 B3] Hp. by split. Qed.
Lemma bounded_forks n p : bounded n → (N.of_nat (size p) <= CATCHUP_BUFFER_WINDOW)%N → bounded (set_forks p n).
Proof. intros [B1 B2 B3] Hp. by split. Qed.

(** ** Steps that leave the stores alone *)

Lemma append_stores b n n' ok : append_committed_block b n = Ok (n', ok) → stores n' = stores n.
Proof.
  unfold append_committed_block, extend_own. destruct (match n_walk n with Some _ => _ | None => _ end) as [w| |]; [|by intros [= <- _]|done].
  destruct (step w b (held_bases n)) as [w' [[]| |]]; [by intros [= <- _]..|done].
Qed.

Lemma drop_stores b n n' : drop_history b n = Ok n' → stores n' = stores n.
Proof.
  unfold drop_history. destruct (cut_of (change b)) as [[[upto h] kind]|]; [|by intros [= <-]].
  destruct (own_cut_state upto kind n) as [[blob fc]| |]; [|by intros [= <-]|done].
  destruct (_ && _); [by intros [= <-]|]. destruct (_ && _); by intros [= <-].
Qed.

Lemma adopt_all_stores l n n' : adopt_all l n = Ok n' → stores n' = stores n.
Proof.
  revert n. induction l as [|b l IH]; intros n Ha; cbn [adopt_all] in Ha; [by injection Ha as <-|].
  apply obind_ok in Ha as (n1 & Hn1 & Ha). rewrite (IH _ Ha). unfold adopt_sealed in Hn1.
  apply obind_ok in Hn1 as ([n2 ok] & Happ & Hn1). rewrite <-(append_stores _ _ _ _ Happ). cbn in Hn1.
  destruct ok; [by eapply drop_stores|]. by injection Hn1 as <-.
Qed.

Lemma rebase_stores n n' : take_seals n = Ok n' → stores n' = stores n.
Proof. unfold take_seals. destruct (n_seals n); [by intros [= <-]|]. by intros ->%adopt_all_stores. Qed.

Lemma after_stores b n n' : after_block_applied b n = Ok n' → stores n' = stores n.
Proof. unfold after_block_applied. intros (n1 & ?%drop_stores & ->%rebase_stores)%obind_ok. done. Qed.

Lemma after_all_stores l n n' : after_all l n = Ok n' → stores n' = stores n.
Proof.
  revert n. induction l as [|b l IH]; intros n Ha; cbn [after_all] in Ha; [by injection Ha as <-|].
  apply obind_ok in Ha as (n1 & Hn1%after_stores & Ha%IH). congruence.
Qed.

Lemma adopt_chain_stores l n n' : adopt_chain l n = Ok n' → stores n' = stores n.
Proof. unfold adopt_chain. destruct (walk_own n l); [by intros [= <-]..|done]. Qed.

Lemma note_divergence_stores from h n : stores (note_divergence from h n) = stores n.
Proof. unfold note_divergence. by destruct (str_empty from). Qed.
Lemma note_peer_stores from h n : stores (note_peer_height from h n) = stores n.
Proof. unfold note_peer_height. by destruct (_ || _). Qed.

Lemma catchup_clear_stores h n : stores (match n_catchup n with Some f => if (f <=? h)%N then set_catchup None n else n | None => n end) = stores n.
Proof. destruct (n_catchup n) as [c|]; [destruct (_ <=? _)%N|]; done. Qed.

Lemma apply_next_stores b n n' ok : apply_next_block b n = Ok (n', ok) → stores n' = stores n.
Proof.
  unfold apply_next_block. intros ([n1 ok1] & H1%append_stores & H2)%obind_ok. cbn in H2. destruct ok1.
  - apply obind_ok in H2 as (n2 & H2%after_stores & H3). injection H3 as <- _. rewrite catchup_clear_stores. congruence.
  - by injection H2 as <- _.
Qed.

(** ** Requests and buffers *)

Lemma known_from_bound fuel rid blocks hd back l : known_from fuel rid blocks hd back = Ok l → (length l <= fuel)%nat.
Proof.
  revert back l. induction fuel as [|fuel IH]; intros back l Hl; cbn [known_from] in Hl; [by injection Hl as <-|].
  destruct (hd <? back)%N; [injection Hl as <-; cbn; lia|]. destruct (block_at _ _); [|injection Hl as <-; cbn; lia].
  apply obind_ok in Hl as (x & _ & Hl). apply obind_ok in Hl as (rest & Hr%IH & Hl). injection Hl as <-. cbn. lia.
Qed.

Lemma request_bounded from n n' : bounded n → request_catchup from n = Ok n' → bounded n'.
Proof.
  intros Hb. unfold request_catchup. destruct (_ || _); [by intros [= <-]|]. intros (k & Hk & [= <-])%obind_ok.
  destruct Hb as [B1 B2 B3]. split; [done..|]. cbn. apply Forall_app. split; [done|]. apply Forall_singleton. cbn.
  unfold known_heads in Hk. destruct (last _); [by apply known_from_bound in Hk|]. injection Hk as <-. cbn. lia.
Qed.

Lemma stash_bounded b n : bounded n → bounded (stash_fork_candidate b n).
Proof. intros Hb. apply bounded_forks; [done|]. by apply shed_bound. Qed.
Lemma buffer_bounded b n : bounded n → bounded (buffer b n).
Proof. intros Hb. apply bounded_pending; [done|]. by apply shed_bound. Qed.

(** ** The operations *)

Lemma relink_bounded from cand n n' : bounded n → relink_onto_variant from cand n = Ok n' → bounded n'.
Proof.
  intros Hb. unfold relink_onto_variant. intros (own & _ & Hr)%obind_ok.
  assert (Hb0 : bounded (set_forks ∅ n)) by (by apply bounded_forks). destruct (walk_own _ _); [|by injection Hr as <-|done].
  apply obind_ok in Hr as (n1 & H1%adopt_chain_stores & Hr). apply obind_ok in Hr as (n2 & H2%after_all_stores & Hr).
  injection Hr as <-. eapply bounded_frame; [|exact Hb0]. rewrite <-H1, <-H2. done.
Qed.

Lemma take_branch_bounded h suffix n n' : bounded n → take_branch h suffix n = Ok n' → bounded n'.
Proof.
  intros Hb. unfold take_branch. destruct (walk_own _ _); [|intros [= <-]; by apply bounded_forks|done].
  intros (n1 & H1%adopt_chain_stores & Hr)%obind_ok. apply obind_ok in Hr as (n2 & H2%after_all_stores & Hr).
  apply obind_ok in Hr as (n3 & H3%rebase_stores & Hr). assert (Hb3 : bounded n3) by (eapply bounded_frame; [|exact Hb]; congruence).
  assert (Hb4 : bounded (set_diverged ∅ (set_forks ∅ n3))) by (eapply bounded_frame; [|apply (bounded_forks n3 ∅); done]; done).
  destruct (n_head _); [|by injection Hr as <-]. eapply request_bounded; [|exact Hr]. by eapply bounded_frame; [|exact Hb4].
Qed.

Lemma try_reorg_bounded from n n' : bounded n → try_reorg from n = Ok n' → bounded n'.
Proof.
  intros Hb. unfold try_reorg. destruct (head (n_blocks n)) as [first|]; [|by intros [= <-]].
  intros (fork & _ & Hr)%obind_ok. destruct fork as [h|].
  - apply obind_ok in Hr as (suffix & _ & Hr). destruct (block_at _ _) as [ours|]; [|by injection Hr as <-].
    destruct suffix as [|theirs t]; [done|]. apply obind_ok in Hr as (mine & _ & Hr). apply obind_ok in Hr as (other & _ & Hr).
    case_bool_decide; [injection Hr as <-; by apply bounded_forks|].
    destruct (same_decisions _ _); [by eapply relink_bounded|by eapply take_branch_bounded].
  - destruct (head (sorted_keys _)); [|by injection Hr as <-]. destruct (_ <? _)%N; [by eapply request_bounded|by injection Hr as <-].
Qed.

Lemma swap_tip_bounded b n n' : bounded n → swap_tip b n = Ok n' → bounded n'.
Proof.
  intros Hb. unfold swap_tip. destruct (walk_own _ _); [|by intros [= <-]|done]. intros Ha%after_stores.
  eapply bounded_frame; [exact Ha|]. by eapply bounded_frame; [|exact Hb].
Qed.

Lemma tie_break_bounded from b n n' : bounded n → tie_break from b n = Ok n' → bounded n'.
Proof.
  intros Hb. unfold tie_break. destruct (block_at _ _) as [old|]; [|by intros [= <-]].
  case_bool_decide; [intros [= <-]; by eapply bounded_frame; [|exact Hb]|].
  intros (i & _ & Ht)%obind_ok. apply obind_ok in Ht as (c & _ & Ht). apply obind_ok in Ht as (sh & _ & Ht).
  apply obind_ok in Ht as (sg & _ & Ht). destruct (sh && _).
  { destruct (_ && sg); [|by injection Ht as <-]. eapply try_reorg_bounded; [|exact Ht]. by apply stash_bounded. }
  destruct (_ || _).
  { eapply try_reorg_bounded; [|exact Ht]. apply stash_bounded. eapply bounded_frame; [apply note_divergence_stores|done]. }
  destruct (str_lt _ _); [|by injection Ht as <-]. destruct sg; [by eapply swap_tip_bounded|by injection Ht as <-].
Qed.

Lemma drain_loop_bounded fuel n n' : bounded n → drain_loop fuel n = Ok n' → bounded n'.
Proof.
  revert n. induction fuel as [|fuel IH]; intros n Hb Hd; cbn [drain_loop] in Hd; [by injection Hd as <-|].
  destruct (n_head n) as [hd|]; [|by injection Hd as <-]. apply obind_ok in Hd as (next & _ & Hd).
  destruct (n_pending n !! next) as [b|]; [|by injection Hd as <-].
  apply obind_ok in Hd as ([n1 ok] & H1%apply_next_stores & Hd). cbn in Hd. assert (Hb1 : bounded n1).
  { eapply bounded_frame; [exact H1|]. apply bounded_pending; [done|]. pose proof (bd_pending _ Hb).
    pose proof (map_subseteq_size _ _ (delete_subseteq (n_pending n) next)). lia. }
  destruct ok; [by eapply IH|]. by injection Hd as <-.
Qed.

Lemma drain_bounded n n' : bounded n → drain_buffered_blocks n = Ok n' → bounded n'.
Proof.
  intros Hb. unfold drain_buffered_blocks. intros (n1 & H1 & [= <-])%obind_ok. eapply drain_loop_bounded in H1; [|done].
  apply bounded_pending; [done|]. apply filter_bound. apply (bd_pending _ H1).
Qed.

Lemma stale_wiki_stores n n' : drop_a_stale_wiki_base n = Ok n' → stores n' = stores n.
Proof.
  unfold drop_a_stale_wiki_base. destruct (n_wiki n); [|by intros [= <-]]. intros (c & _ & [= <-])%obind_ok. by case_bool_decide.
Qed.
Lemma stale_vault_stores n : stores (drop_a_stale_vault_base n) = stores n.
Proof. unfold drop_a_stale_vault_base. destruct (n_vault n); [|done]. by case_bool_decide. Qed.

Lemma blob_bounded n n' : bounded n → try_adopt_from_blob n = Ok n' → bounded n'.
Proof.
  intros Hb. assert (Hs : bounded (set_served None n)) by (by eapply bounded_frame; [|exact Hb]).
  unfold try_adopt_from_blob. destruct (n_served n) as [blob|]; [|by intros [= <-]].
  destruct (match n_head n with Some _ => _ | None => _ end); [by intros [= <-]|].
  destruct (u64_checked_add _ _) as [h|]; [|by intros [= <-]]. destruct (negb _); [by intros [= <-]|].
  destruct (walk_suffix_chain _ _ _ _) as [w| |]; [|by intros [= <-]|done]. intros (n1 & H1%stale_wiki_stores & Hr)%obind_ok.
  apply obind_ok in Hr as (n2 & H2%rebase_stores & [= <-]). eapply bounded_frame; [apply catchup_clear_stores|].
  eapply bounded_frame; [exact H2|]. eapply bounded_frame; [apply stale_vault_stores|]. eapply bounded_frame; [exact H1|].
  destruct Hb as [B1 B2 B3]. split; try done. cbn. by apply filter_bound.
Qed.

Lemma receive_bounded from b n n' : bounded n → receive_block_from from b n = Ok n' → bounded n'.
Proof.
  intros Hb Hr. unfold receive_block_from in Hr. set (n0 := note_peer_height from (height b) n) in *.
  assert (Hb0 : bounded n0) by (eapply bounded_frame; [apply note_peer_stores|done]). destruct (n_head n0) as [hd|].
  - apply obind_ok in Hr as (next & _ & Hr). destruct (_ =? _)%N.
    + destruct (negb _).
      * eapply try_reorg_bounded; [|exact Hr]. apply stash_bounded. eapply bounded_frame; [apply note_divergence_stores|done].
      * apply obind_ok in Hr as ([n1 ok] & H1%apply_next_stores & Hr). cbn in Hr.
        assert (bounded n1) by (by eapply bounded_frame). destruct ok; [|by injection Hr as <-].
        eapply drain_bounded; [|exact Hr]. by eapply bounded_frame; [|done].
    + destruct (_ <=? _)%N; [by eapply tie_break_bounded|]. unfold receive_ahead in Hr. destruct (_ && _); [by injection Hr as <-|].
      apply obind_ok in Hr as (n1 & H1 & Hr). apply obind_ok in Hr as (nx & _ & Hr). eapply request_bounded; [|exact Hr].
      eapply blob_bounded; [|exact H1]. apply buffer_bounded, bounded_pending; [done|]. apply filter_bound, (bd_pending _ Hb0).
  - unfold receive_headless in Hr. destruct (height b =? 0)%N.
    + destruct (match change b with Genesis _ _ _ _ _ _ _ _ => _ | _ => _ end); [by injection Hr as <-|].
      apply obind_ok in Hr as (n1 & H1%adopt_chain_stores & Hr). assert (bounded n1) by (by eapply bounded_frame).
      destruct (is_some _); [by eapply drain_bounded|by injection Hr as <-].
    + eapply blob_bounded; [|exact Hr]. by apply buffer_bounded.
Qed.

Lemma handle_bounded e n n' : bounded n → handle e n = Ok n' → bounded n'.
Proof.
  intros Hb Hh. destruct e as [from b|blob|b|now|wd vd]; cbn in Hh.
  - by eapply receive_bounded.
  - unfold receive_checkpoint_blob in Hh. destruct (_ || _); [by injection Hh as <-|]. apply obind_ok in Hh as (rid & _ & Hh).
    destruct (_ || _); [by injection Hh as <-|]. eapply blob_bounded; [|exact Hh]. by eapply bounded_frame; [|exact Hb].
  - unfold adopt_committed_block in Hh. apply obind_ok in Hh as ([n1 ok] & H1%append_stores & Hh). cbn in Hh.
    assert (bounded n1) by (by eapply bounded_frame). destruct ok; [|by injection Hh as <-].
    apply after_stores in Hh. by eapply bounded_frame.
  - injection Hh as <-. by eapply bounded_frame; [|exact Hb].
  - injection Hh as <-. by eapply bounded_frame; [|exact Hb].
Qed.

(** ** The loops' fuel

    Each loop visits a key of its buffer once; a turn for each, and one, is
    all it can use. *)

Lemma above_shrinks {A} (m : gmap N A) h x : m !! h = Some x →
  (size (keep_above h m) < size (filter (λ kv, (h <= kv.1)%N) m))%nat.
Proof.
  intros Hh. rewrite <-(size_dom (filter _ m)), <-(size_dom (keep_above h m)). apply subset_size. split.
  - intros k [y [Hy Hk]%map_lookup_filter_Some]%elem_of_dom. apply elem_of_dom. exists y. apply map_lookup_filter_Some.
    split; [done|]. cbn in *. lia.
  - intros Hsub. assert (h ∈ dom (keep_above h m)) as [y [_ Hy]%map_lookup_filter_Some]%elem_of_dom; [|cbn in Hy; lia].
    apply Hsub, elem_of_dom. exists x. apply map_lookup_filter_Some. split; [done|]. cbn. lia.
Qed.

Lemma above_next {A} (m : gmap N A) h h' : (h < h')%N → (size (filter (λ kv, (h' <= kv.1)%N) m) <= size (keep_above h m))%nat.
Proof.
  intros Hlt. apply map_subseteq_size, map_subseteq_spec. intros k x [Hx Hk]%map_lookup_filter_Some.
  apply map_lookup_filter_Some. split; [done|]. cbn in *. lia.
Qed.

Lemma buffered_run_fuel fuel fuel' p h : (size (filter (λ kv, (h <= kv.1)%N) p) < fuel)%nat →
  (size (filter (λ kv, (h <= kv.1)%N) p) < fuel')%nat → buffered_run fuel p h = buffered_run fuel' p h.
Proof.
  revert fuel' h. induction fuel as [|fuel IH]; intros [|fuel'] h H1 H2; [lia..|]. cbn [buffered_run].
  destruct (p !! h) as [b|] eqn:Eb; [|done]. f_equal. destruct (u64_checked_add h 1) as [h'|] eqn:Eh; [|done].
  unfold u64_checked_add in Eh. destruct (_ <=? _)%N; [|done]. injection Eh as <-. pose proof (above_shrinks p h b Eb).
  pose proof (above_next p h (h + 1)%N ltac:(lia)). apply IH; lia.
Qed.

Lemma linked_run_fuel fuel fuel' rid p h below : (∀ k, is_Some (p !! k) → (k < u64_max)%N) →
  (size (filter (λ kv, (h <= kv.1)%N) p) < fuel)%nat → (size (filter (λ kv, (h <= kv.1)%N) p) < fuel')%nat →
  linked_run fuel rid p h below = linked_run fuel' rid p h below.
Proof.
  intros Hp. revert fuel' h below. induction fuel as [|fuel IH]; intros [|fuel'] h below H1 H2; [lia..|]. cbn [linked_run].
  destruct (p !! h) as [c|] eqn:Ec; [|done]. destruct (match below with Some _ => _ | None => _ end) as [[|]| |]; cbn [obind]; [|done..].
  assert (Hh : u64_saturating_add h 1 = (h + 1)%N) by (unfold u64_saturating_add; specialize (Hp h ltac:(by eexists)); lia).
  rewrite Hh. pose proof (above_shrinks p h c Ec). pose proof (above_next p h (h + 1)%N ltac:(lia)).
  rewrite (IH fuel' (h + 1)%N (Some c)); [done|lia..].
Qed.

Lemma drain_loop_fuel fuel fuel' n : (size (n_pending n) < fuel)%nat → (size (n_pending n) < fuel')%nat →
  drain_loop fuel n = drain_loop fuel' n.
Proof.
  revert fuel' n. induction fuel as [|fuel IH]; intros [|fuel'] n H1 H2; [lia..|]. cbn [drain_loop].
  destruct (n_head n) as [hd|]; [|done]. destruct (expect _) as [next| |]; cbn [obind]; [|done..].
  destruct (n_pending n !! next) as [b|] eqn:Ep; [|done]. destruct (apply_next_block _ _) as [[n1 ok]| |] eqn:Ea; cbn [obind]; [|done..].
  cbn [fst snd]. destruct ok; [|done]. apply apply_next_stores in Ea. unfold stores in Ea. injection Ea as Ea _ _. cbn in Ea.
  pose proof (map_size_delete next (n_pending n)) as Hd. rewrite Ep in Hd. cbn in Hd.
  pose proof (map_size_ne_0_lookup_2 (n_pending n) next ltac:(by eexists)). apply IH; rewrite Ea; lia.
Qed.

End Bounds.

(** C40: catch-up keeps within its bounds.  From a node within them (a fresh
    one), no events, served summaries and blocks of any height from anyone
    among them, make either buffer larger than the window, nor a request carry
    more samples than its bound. *)
Theorem sync_bounded `{Env, VaultSerde} (es : list event) (n n' : Node) : bounded n → run_node es n = Ok n' → bounded n'.
Proof.
  revert n. induction es as [|e es IH]; intros n Hb Hr; cbn [run_node] in Hr; [by injection Hr as <-|].
  apply obind_ok in Hr as (n1 & H1 & Hr). eapply IH; [|exact Hr]. by eapply handle_bounded.
Qed.
