(* ===== verification/SyncRun.v ===== *)
(** * Catch-up at work

    A node of the small republic ([Demo]) that holds the genesis: it follows
    a branch that loses, moves to the better one, takes the cut and drops its
    history; and it catches up from blocks that come in reverse. *)

From S2P Require Import Prelude Bytes Strs Json Env Surface Roster Chain Checkpoint WikiFold Vault Cuts Ledger Verify Walk WalkProps Projection Prune Votes Sync Fork SyncInv SyncProps Catchup SyncBounds Demo.
#[local] Open Scope string_scope.
#[local] Open Scope list_scope.

Module SyncRun.

Definition start : Node :=
  {| n_me := "cleo"; n_rid := demo_rid; n_now := 100; n_blocks := [demo_genesis]; n_blob := None;
     n_head := match walk_chain [demo_genesis] with Ok w => Some (w_head w) | _ => None end; n_walk := None;
     n_moved_at := 0; n_wiki := None; n_vault := None; n_pending := ∅; n_served := None; n_forks := ∅; n_catchup := None;
     n_requests := []; n_diverged := ∅; n_peers := ∅; n_wiki_durable := true; n_vault_durable := true; n_seals := [] |}.

(** A branch that parts above the genesis and loses there. *)
Definition losing : list ChainBlock :=
  seal [1; 2]%N (Applied 21 Memory (demo_patch "x.md" "lost"))
    (seal [0; 1]%N (Applied 20 Organization (obj2 "set_name" "Demo X")) [demo_genesis]).

Definition sent (bs : list ChainBlock) : list event := EBlock "bob" <$> bs.
Definition first_part : list event := sent (tail losing).
Definition second_part : list event := sent (reverse (take 2 (tail chain4)) ++ drop 3 chain4).
Definition after (es : list event) (n : Node) : Node := match run_node es n with Ok n => n | _ => n end.
Definition lost : Node := after first_part start.
Definition moved_on : Node := after second_part lost.

Lemma ran es n : is_ok (run_node es n) = true → run_node es n = Ok (after es n).
Proof. unfold after. by destruct (run_node es n). Qed.

Example lost_holds : n_blocks lost = losing.
Proof. vm_compute. reflexivity. Qed.
(** The node is on the other branch and dropped all but its last cut. *)
Example moved_on_holds : n_blocks moved_on = drop 6 chain4.
Proof. vm_compute. reflexivity. Qed.

(** The blocks of both branches circulate, however they are linked. *)
Definition changes : list ChainChange := (change <$> chain4) ++ (change <$> losing).
Definition around (b : ChainBlock) : Prop := change b ∈ changes.

#[local] Instance CutKind_eq_dec : EqDecision CutKind.
Proof. solve_decision. Defined.

Definition bare (c : ChainChange) : ChainBlock := {| height := 0; prev := ""; change := c; sigs := [] |}.
Definition plain (c : ChainChange) : bool :=
  match c with Applied _ Memory p => negb (bool_decide (op_of p = Some WIKI_BASE_OP)) | _ => true end.
Definition agree (c c' : ChainChange) : bool :=
  match cut_of c, cut_of c' with
  | Some (u, h, k), Some (u', h', k') => implb (bool_decide ((u, h) = (u', h'))) (bool_decide (k = k'))
  | _, _ => true
  end &&
  implb (is_some (founding_of (bare c)) && is_some (founding_of (bare c'))) (bool_decide (c = c')).

Lemma around_checks : forallb plain changes && forallb (λ c, forallb (agree c) changes) changes = true.
Proof. vm_compute. reflexivity. Qed.

#[local] Opaque changes.

Lemma around_agree b b' : around b → around b' → agree (change b) (change b') = true.
Proof.
  intros Hb Hb'. destruct (andb_prop _ _ around_checks) as [_ Ha]. rewrite forallb_forall in Ha.
  specialize (Ha _ (proj1 (list_elem_of_In _ _) Hb)). rewrite forallb_forall in Ha. by apply Ha, list_elem_of_In.
Qed.

Lemma around_plain b : around b → brings_no_base b.
Proof.
  intros Hb id p E. destruct (andb_prop _ _ around_checks) as [Hp _]. rewrite forallb_forall in Hp.
  specialize (Hp _ (proj1 (list_elem_of_In _ _) Hb)). rewrite E in Hp. cbn in Hp. by case_bool_decide.
Qed.

Lemma around_circulating : circulating around.
Proof.
  split.
  - apply around_plain.
  - intros b b' u h k k' Hb Hb' E E'. pose proof (around_agree b b' Hb Hb') as Ha. unfold agree in Ha. rewrite E, E' in Ha.
    apply andb_prop in Ha as [Ha _]. rewrite bool_decide_eq_true_2 in Ha by done. cbn in Ha. by case_bool_decide.
  - intros b b' Hb Hb' [f Hf] [f' Hf']. pose proof (around_agree b b' Hb Hb') as Ha. unfold agree in Ha.
    apply andb_prop in Ha as [_ Ha]. change (founding_of (bare (change b))) with (founding_of b) in Ha.
    change (founding_of (bare (change b'))) with (founding_of b') in Ha. rewrite Hf, Hf' in Ha. cbn in Ha. by case_bool_decide.
  - done.
Qed.

Definition founded : Founding :=
  {| f_name := "demo"; f_rid := demo_rid; f_m := 2; f_n := 3; f_ids := seats; f_agenda := "a charter";
     f_relays := ["wss://a"]; f_features := Some ["memory"] |}.

Lemma start_backed : backed founded [] start.
Proof.
  split; try done.
  - constructor; [|done]. intros id p. done.
  - destruct (walk_chain [demo_genesis]) as [w| |] eqn:Hw.
    + exists w. split; [done|]. split; [|done]. cbn [start n_head]. by rewrite Hw.
    + assert (is_ok (walk_chain [demo_genesis]) = true) as Hk by (vm_compute; reflexivity). by rewrite Hw in Hk.
    + assert (is_ok (walk_chain [demo_genesis]) = true) as Hk by (vm_compute; reflexivity). by rewrite Hw in Hk.
Qed.

Lemma all_around bs : forallb (λ b, bool_decide (change b ∈ changes)) bs = true → Forall around bs.
Proof. intros Hb. apply Forall_forall. intros b Hin%list_elem_of_In. rewrite forallb_forall in Hb. by apply Hb, bool_decide_eq_true in Hin. Qed.

Lemma sent_ok bs : Forall around bs → Forall (event_ok around) (sent bs).
Proof. intros Hb. unfold sent. apply Forall_fmap. exact Hb. Qed.

Lemma start_good : good around founded [] start.
Proof.
  split; [exact start_backed|]. split; try done.
  apply all_around. vm_compute. reflexivity.
Qed.

Lemma first_ok : Forall (event_ok around) first_part.
Proof. apply sent_ok, all_around. vm_compute. reflexivity. Qed.
Lemma second_ok : Forall (event_ok around) second_part.
Proof. apply sent_ok, all_around. vm_compute. reflexivity. Qed.

Lemma node_history_witness :
  run_node first_part start = Ok lost ∧ run_node second_part lost = Ok moved_on ∧
  ∃ pre1 pre2, backed founded pre1 lost ∧ backed founded pre2 moved_on ∧
    moved demo_rid [demo_genesis] (pre1 ++ n_blocks lost) ∧
    moved demo_rid (pre1 ++ n_blocks lost) (pre2 ++ n_blocks moved_on) ∧
    (pre2 ++ n_blocks moved_on = [demo_genesis] → pre1 ++ n_blocks lost = [demo_genesis]).
Proof.
  assert (run_node first_part start = Ok lost) as H1 by (apply ran; vm_compute; reflexivity).
  assert (run_node second_part lost = Ok moved_on) as H2 by (apply ran; vm_compute; reflexivity).
  split; [exact H1|]. split; [exact H2|].
  exact (node_history around founded [] start lost moved_on first_part second_part around_circulating start_good
    first_ok second_ok H1 H2).
Defined.

(** The blocks of the whole chain in reverse, the first two of them twice. *)
Definition backwards (ext : list ChainBlock) : list event := EClock 200 :: sent (reverse ext ++ take 2 ext).

Lemma backwards_delivers ext : Forall (delivers ext) (backwards ext).
Proof.
  constructor; [done|]. unfold sent. apply Forall_fmap. apply Forall_forall. intros b [Hb|Hb]%elem_of_app.
  - cbn. by apply elem_of_reverse.
  - cbn. rewrite <-(take_drop 2 ext). apply elem_of_app. by left.
Qed.

Lemma backwards_all ext b : b ∈ ext → ∃ from, EBlock from b ∈ backwards ext.
Proof.
  intros Hb. exists "bob". apply elem_of_cons. right. unfold sent. apply list_elem_of_fmap. exists b. split; [done|].
  apply elem_of_app. left. by apply elem_of_reverse.
Qed.

Definition missing : list ChainBlock := tail chain4.

Lemma catchup_any_order_witness :
  ∃ n pre, run_node (backwards missing) start = Ok n ∧ backed founded pre n ∧
    pre ++ n_blocks n = ([] ++ n_blocks start) ++ missing ∧ n_pending n = ∅.
Proof.
  refine (catchup_any_order founded [] missing start (backwards missing) start_backed eq_refl eq_refl eq_refl _ _ _ _
    (backwards_delivers missing) (backwards_all missing)).
  - vm_compute. reflexivity.
  - eapply Forall_impl; [|exact around_plain]. apply all_around. vm_compute. reflexivity.
  - vm_compute. discriminate.
  - vm_compute. discriminate.
Defined.

Lemma sync_bounded_witness : bounded start ∧ bounded lost ∧ bounded moved_on.
Proof.
  assert (bounded start) as H0 by (split; [vm_compute; discriminate..|constructor]).
  assert (bounded lost) as H1.
  { refine (sync_bounded first_part start lost H0 _). apply ran. vm_compute. reflexivity. }
  split; [exact H0|]. split; [exact H1|]. refine (sync_bounded second_part lost moved_on H1 _). apply ran. vm_compute. reflexivity.
Defined.

(** A genesis of another republic the same members founded. *)
Definition other_genesis : ChainBlock :=
  let rid := default "" (republic_id "b" 2 3 seats) in
  let c := Genesis "b" rid 2 3 seats "a charter" ["wss://a"] (Some ["memory"]) in
  {| height := 0; prev := GENESIS_PREV; change := c; sigs := sign_all [0; 1; 2]%N (approval_bytes rid 0 c) |}.

(** A node without a head refuses it; a node that holds nothing but its own
    genesis lets the two contend, and ends with the other republic's. *)
Lemma foreign_genesis_taken :
  n_blocks (after [EBlock "bob" other_genesis] (with_chain [] None None None 0 start)) = [] ∧
  n_blocks (after [EBlock "bob" other_genesis] start) = [other_genesis] ∧
  bool_decide (hd_republic_id <$> n_head (after [EBlock "bob" other_genesis] start) = Some (n_rid start)) = false.
Proof. vm_compute. done. Qed.

End SyncRun.
