(* ===== verification/FilePlane.v ===== *)
(** * The file plane: pieces and manifests

    crates/molt-net/src/file_plane.rs, series v2: a shared file travels as
    blocks of one size.  The data slices come first; above them the list of
    their hashes, cut into manifest chunks; above those one top record that
    names the chunks by hash.  The hash of the top record is the share's root.
    Also the sealing of a block (envelope.rs) and the sinks a fetch writes to.

    A [usize] is 64 bits.  The block size is the real one throughout. *)

From S2P Require Import Prelude Bytes Strs Env Chunk.

(** ** Constants *)

Definition FILE_CHUNK_PLAIN_LEN : N := 44000.
Definition PIECE_HEADER_LEN : N := 12.
Definition PIECE_PAYLOAD_LEN : N := FILE_CHUNK_PLAIN_LEN.
Definition MANIFEST_HEADER_LEN : N := 12.
Definition HASHES_PER_CHUNK : N := PIECE_PAYLOAD_LEN / 32.
Definition MAX_SERIES_PIECES : N := 1374 * 1375.
Definition NONCE_LEN : N := 12.
Definition TAG_LEN : N := 16.

(** The refusals of the file plane, one per message text. *)
Inductive FileError :=
  | PayloadTooLong (n : N)
  | PieceLen
  | NotOneBlock (n : N)
  | ClaimsPayload (n : N)
  | TopSize
  | TopGeometry
  | ChunksDoNotAddUp
  | TooLarge
  | TooManyPieces
  | ReadFailed
  | CountMismatch
  | BeyondLargest
  | BudgetSpent
  | NoTopRecord
  | LandingFailed (index : N)
  | Deaf
  | NoManifest
  | PiecesMissing (n : N)
  | Cancelled
  | OutsideSeries (index : N)
  | SliceGeometry
  | SliceOffset
  | OpenFailed
  | ManifestShort
  | FileChanged (index : N)
  | BadShape
  | EpochOpaque
  | SealFailed.

(** ** Widths and slices *)

(** [u32::try_from]. *)
Definition u32_try_from (n : N) : option N := if (n <=? u32_max)%N then Some n else None.

Definition u64_saturating_mul (a b : N) : N := N.min (a * b) u64_max.

(** [a.div_ceil(b)]. *)
Definition div_ceil (a b : N) : N := ((a + b - 1) / b)%N.

(** [l.get(a..b)]. *)
Definition get_range {A} (a b : N) (l : list A) : option (list A) :=
  if ((a <=? b) && (b <=? len l))%N
  then Some (take (N.to_nat (b - a)) (drop (N.to_nat a) l)) else None.

(** [l.chunks_exact(k)]: the whole chunks; what is left over is dropped. *)
Fixpoint chunks_exact_fuel {A} (fuel k : nat) (l : list A) : list (list A) :=
  match fuel with
  | O => []
  | S fuel => if (length l <? k)%nat then [] else take k l :: chunks_exact_fuel fuel k (drop k l)
  end.
Definition chunks_exact {A} (k : nat) (l : list A) : list (list A) := chunks_exact_fuel (length l) k l.

(** ** Pieces *)

Definition frame_piece (index count : N) (payload : bytes) : outcome FileError bytes :=
  reject (PIECE_PAYLOAD_LEN <? len payload)%N with PayloadTooLong (len payload) else
  let? l := ok_or (u32_try_from (len payload)) PieceLen in
  Ok (resize0 (PIECE_HEADER_LEN + PIECE_PAYLOAD_LEN)
        (le_bytes 4 index ++ le_bytes 4 count ++ le_bytes 4 l ++ payload)).

(** The closure [word] of [parse_piece]. *)
Definition word32 (plain : bytes) (at_ : N) : outcome FileError N :=
  let? b := expect (slice at_ (at_ + 4) plain) in Ok (of_le_bytes b).

Definition parse_piece (plain : bytes) : outcome FileError (N * N * bytes) :=
  reject negb (len plain =? PIECE_HEADER_LEN + PIECE_PAYLOAD_LEN)%N with NotOneBlock (len plain) else
  let? index := word32 plain 0 in
  let? count := word32 plain 4 in
  let? l := word32 plain 8 in
  reject (PIECE_PAYLOAD_LEN <? l)%N with ClaimsPayload l else
  let? payload := expect (slice PIECE_HEADER_LEN (PIECE_HEADER_LEN + l) plain) in
  Ok (index, count, payload).

(** ** Sealed pieces *)

(** ChaCha20-Poly1305, HKDF-SHA256 and base64 (crates chacha20poly1305, hkdf
    and base64). *)
Class Sealing := {
  aead_encrypt : bytes → bytes → bytes → option bytes;
  aead_decrypt : bytes → bytes → bytes → option bytes;
  hkdf_expand : bytes → bytes → bytes;
  base64_encode : bytes → string;
  base64_decode : string → option bytes;
}.

(** Documented behaviour of them: what is sealed opens again under its key
    and nonce, the tag adds its bytes, and the text decodes to what was
    encoded. *)
Definition sealing_faithful `{Sealing} : Prop :=
  (∀ k n m c, aead_encrypt k n m = Some c →
     aead_decrypt k n c = Some m ∧ len c = (len m + TAG_LEN)%N) ∧
  (∀ b, base64_decode (base64_encode b) = Some b).

(** [seal_outer], with the nonce the system's generator gave ([None]: it
    gave none). *)
Definition seal_outer `{Sealing} (nonce : option bytes) (secret plaintext : bytes) : outcome FileError string :=
  let? nonce := ok_or nonce SealFailed in
  let? sealed := ok_or (aead_encrypt secret nonce plaintext) SealFailed in
  Ok (base64_encode (nonce ++ sealed)).

(** The loop of [open_outer]: the first secret that opens it. *)
Fixpoint try_secrets `{Sealing} (secrets : list bytes) (nonce sealed : bytes) : outcome FileError bytes :=
  match secrets with
  | [] => Err EpochOpaque
  | secret :: secrets =>
      match aead_decrypt secret nonce sealed with
      | Some plaintext => Ok plaintext
      | None => try_secrets secrets nonce sealed
      end
  end.

Definition open_outer `{Sealing} (secrets : list bytes) (content : string) : outcome FileError bytes :=
  let? raw := ok_or (base64_decode content) BadShape in
  reject (len raw <? NONCE_LEN + TAG_LEN)%N with BadShape else
  try_secrets secrets (take (N.to_nat NONCE_LEN) raw) (drop (N.to_nat NONCE_LEN) raw).

Definition outer_key `{Sealing} (key : bytes) : bytes := hkdf_expand key (as_bytes "molt-piece-outer-v2").

Definition seal_piece `{Sealing} (nonce : option bytes) (key : bytes) (index count : N) (payload : bytes)
    : outcome FileError string :=
  let? framed := frame_piece index count payload in
  seal_outer nonce (outer_key key) framed.

Definition open_piece `{Sealing} (key : bytes) (content : string) : outcome FileError (N * N * bytes) :=
  let? plain := open_outer [outer_key key] content in
  parse_piece plain.

(** ** The manifest *)

Record Manifest := mkManifest {
  m_count : N;
  m_size : N;
  m_hashes : list bytes;
}.

Record TopRecord := mkTop {
  t_count : N;
  t_size : N;
  t_chunk_hashes : list bytes;
}.

Record SeriesLayout := mkLayout {
  l_count : N;
  l_chunks : N;
  l_top : N;
}.

#[export] Instance TopRecord_eq_dec : EqDecision TopRecord.
Proof. solve_decision. Defined.

Definition piece_count_for (size : N) : N :=
  default u32_max (u32_try_from (div_ceil size PIECE_PAYLOAD_LEN)).

Definition chunk_count_for (count : N) : N := div_ceil count HASHES_PER_CHUNK.

Definition layout_for (count : N) : option SeriesLayout :=
  if (MAX_SERIES_PIECES <? count)%N then None
  else
    let chunks := chunk_count_for count in
    let top := (count + chunks)%N in
    if (top <=? u32_max)%N then Some {| l_count := count; l_chunks := chunks; l_top := top |} else None.

(** [SeriesLayout::pieces]. *)
Definition pieces (l : SeriesLayout) : N := (l_top l + 1)%N.

(** [TopRecord::parse]. *)
Definition top_parse (b : bytes) : outcome FileError TopRecord :=
  reject (len b <? MANIFEST_HEADER_LEN)%N || (PIECE_PAYLOAD_LEN <? len b)%N with TopSize else
  let? c := expect (slice 0 4 b) in
  let count := of_le_bytes c in
  let? z := expect (slice 4 12 b) in
  let size := of_le_bytes z in
  let chunks := chunk_count_for count in
  let want := u64_saturating_add MANIFEST_HEADER_LEN (u64_saturating_mul chunks 32) in
  reject negb (len b =? want)%N || negb (count =? piece_count_for size)%N || (MAX_SERIES_PIECES <? count)%N
    with TopGeometry else
  Ok {| t_count := count; t_size := size;
        t_chunk_hashes := chunks_exact 32 (drop (N.to_nat MANIFEST_HEADER_LEN) b) |}.

(** [Manifest::chunk]. *)
Definition chunk (m : Manifest) (slot : N) : bytes :=
  let from := u64_saturating_mul slot HASHES_PER_CHUNK in
  let to := N.min (u64_saturating_add from HASHES_PER_CHUNK) (len (m_hashes m)) in
  mjoin (default [] (get_range (N.min from (len (m_hashes m))) to (m_hashes m))).

Section Hashes.
Context `{Env}.

(** [sha256] gives 32 bytes. *)
Definition sha_width : Prop := ∀ b, length (sha256 b) = 32%nat.

Definition top_bytes (m : Manifest) : bytes :=
  le_bytes 4 (m_count m) ++ le_bytes 8 (m_size m) ++
  mjoin ((λ slot, sha256 (chunk m slot)) <$> range (chunk_count_for (m_count m))).

Definition root (m : Manifest) : string := hex_encode (sha256 (top_bytes m)).
End Hashes.

Definition from_parts (top : TopRecord) (chunks : list bytes) : outcome FileError Manifest :=
  let b := mjoin chunks in
  let want := u64_saturating_mul (t_count top) 32 in
  reject negb (len b =? want)%N with ChunksDoNotAddUp else
  Ok {| m_count := t_count top; m_size := t_size top; m_hashes := chunks_exact 32 b |}.

(** ** Reading a file *)

(** What successive reads of a file give: a part of its bytes, or a failure
    of the disk.  An empty part is the end. *)
Abbreviation Reader := (list (option bytes)).

(** [read_full], the buffer having room for [n] bytes: what was read and the
    reader after it. *)
Fixpoint read_full (reader : Reader) (n : nat) : outcome FileError (bytes * Reader) :=
  match n, reader with
  | O, _ | _, [] => Ok ([], reader)
  | _, None :: _ => Err ReadFailed
  | _, Some [] :: _ => Ok ([], reader)
  | _, Some part :: rest =>
      if (n <? length part)%nat then Ok (take n part, Some (drop n part) :: rest)
      else let? r := read_full rest (n - length part) in Ok (part ++ r.1, r.2)
  end.

(** Bytes a reader may still give, and a turn to find the end. *)
Definition reader_fuel (reader : Reader) : nat := S (length (mjoin (default [] <$> reader))).

(** The loop of [manifest_of_reader]; [whole] is what the running hash took. *)
Fixpoint read_slices `{Env} (fuel : nat) (reader : Reader) (hashes : list bytes) (size : N) (whole : bytes)
    : outcome FileError (list bytes * N * bytes) :=
  match fuel with
  | O => Panic
  | S fuel =>
      let? r := read_full reader (N.to_nat PIECE_PAYLOAD_LEN) in
      let n := len r.1 in
      if (n =? 0)%N then Ok (hashes, size, whole)
      else
        let whole := whole ++ r.1 in
        let hashes := hashes ++ [sha256 r.1] in
        let size := u64_saturating_add size n in
        reject (MAX_SERIES_PIECES <? len hashes)%N with TooLarge else
        if (n <? PIECE_PAYLOAD_LEN)%N then Ok (hashes, size, whole)
        else read_slices fuel r.2 hashes size whole
  end.

Definition manifest_of_reader `{Env} (reader : Reader) : outcome FileError (Manifest * string) :=
  let? r := read_slices (reader_fuel reader) reader [] 0 [] in
  let '(hashes, size, whole) := r in
  let? count := ok_or (u32_try_from (len hashes)) TooManyPieces in
  Ok ({| m_count := count; m_size := size; m_hashes := hashes |}, hex_encode (sha256 whole)).

(** ** Slices and their hashes *)

Definition expected_slice_len (index count size : N) : option N :=
  if (count <=? index)%N then None
  else if (index + 1 <? count)%N then Some PIECE_PAYLOAD_LEN
  else
    let head := ((count - 1) * PIECE_PAYLOAD_LEN)%N in
    if (head <=? u64_max)%N then if (head <=? size)%N then Some (size - head)%N else None else None.

(** [hash_in]. *)
Definition hash_in (chunk : bytes) (index per : N) : option bytes :=
  let at_ := (index mod per * 32)%N in
  get_range at_ (at_ + 32) chunk.

(** ** Sinks *)

(** The trait [PieceSink]: [None] is a write the disk refused. *)
Class PieceSink (S : Type) := {
  put : S → N → bytes → option S;
  spills : S → bool;
  held : S → list N;
  note_verified : S → N → S;
  digest : S → N → option bytes;
}.

(** [impl PieceSink for Vec<u8>]. *)
Definition vec_put (v : bytes) (index : N) (payload : bytes) : option bytes :=
  let at_ := (index * PIECE_PAYLOAD_LEN)%N in
  if (u64_max <? at_)%N then None
  else
    let end_ := u64_saturating_add at_ (len payload) in
    let v := if (len v <? end_)%N then resize0 end_ v else v in
    Some (take (N.to_nat at_) v ++ payload ++ drop (N.to_nat end_) v).

Definition vec_digest `{Env} (v : bytes) (size : N) : option bytes :=
  Some (match get_range 0 size v with Some b => sha256 b | None => replicate 32 x00 end).

#[export] Instance vec_sink `{Env} : PieceSink bytes := {
  put := vec_put;
  spills := λ _, false;
  held := λ _, [];
  note_verified := λ v _, v;
  digest := vec_digest;
}.
