(* ===== verification/FilePlaneProps.v ===== *)
(** * The file plane: round trips and what the root commits to

    The theory of [FilePlane].  A file is cut into [blocks]; its manifest is
    [manifest_of]; reading, framing, parsing and putting together are inverse
    to cutting, and the root determines the file. *)

From S2P Require Import Prelude Bytes Strs Env Chunk FilePlane.

(** ** Constants *)

Lemma payload_pos : (0 < PIECE_PAYLOAD_LEN)%N.
Proof. done. Qed.
Lemma per_pos : (0 < HASHES_PER_CHUNK)%N.
Proof. done. Qed.
Lemma payload_per : PIECE_PAYLOAD_LEN = (32 * HASHES_PER_CHUNK)%N.
Proof. done. Qed.
Lemma payload_val : PIECE_PAYLOAD_LEN = 44000%N.
Proof. done. Qed.
Lemma per_val : HASHES_PER_CHUNK = 1375%N.
Proof. done. Qed.
Lemma max_pieces_val : MAX_SERIES_PIECES = 1889250%N.
Proof. done. Qed.

#[global] Opaque PIECE_PAYLOAD_LEN HASHES_PER_CHUNK MAX_SERIES_PIECES.

(** ** Cutting a list into blocks *)

Section Blocks.
Context {A : Type}.
Implicit Types l : list A.

Lemma mjoin_cons (x : list A) ls : mjoin (x :: ls) = x ++ mjoin ls.
Proof. done. Qed.

(** The [i]-th block of [n] elements. *)
Definition block (n : nat) l (i : nat) : list A := take n (drop (i * n) l).

Definition nblocks (n : nat) l : nat := N.to_nat (div_ceil (len l) (N.of_nat n)).

Definition blocks (n : nat) l : list (list A) := block n l <$> seq 0 (nblocks n l).

Lemma div_ceil_le a b k : (0 < b)%N → (div_ceil a b ≤ k ↔ a ≤ k * b)%N.
Proof.
  intros Hb. unfold div_ceil. split; intros Hk.
  - pose proof (N.div_mod (a + b - 1) b ltac:(lia)). pose proof (N.mod_upper_bound (a + b - 1) b ltac:(lia)). nia.
  - apply N.lt_succ_r. apply N.Div0.div_lt_upper_bound; nia.
Qed.

Lemma nblocks_lt n l i : (0 < n)%nat → (i < nblocks n l ↔ i * n < length l)%nat.
Proof.
  intros Hn. unfold nblocks.
  pose proof (div_ceil_le (len l) (N.of_nat n) (N.of_nat i) ltac:(lia)). unfold len in *.
  split; intros Hi; [apply Nat.nle_gt|apply Nat.nle_gt]; intros Hc; [|]; lia.
Qed.

Lemma length_blocks n l : length (blocks n l) = nblocks n l.
Proof. unfold blocks. by rewrite length_fmap, length_seq. Qed.

Lemma lookup_blocks n l i : (i < nblocks n l)%nat → blocks n l !! i = Some (block n l i).
Proof. intros Hi. unfold blocks. rewrite list_lookup_fmap, lookup_seq_lt by done. done. Qed.

Lemma lookup_blocks_Some n l i b :
  blocks n l !! i = Some b ↔ (i < nblocks n l)%nat ∧ b = block n l i.
Proof.
  split.
  - intros Hb. assert (Hi : (i < nblocks n l)%nat) by (rewrite <-length_blocks; by eapply lookup_lt_Some).
    rewrite lookup_blocks in Hb by done. by simplify_eq.
  - intros [Hi ->]. by apply lookup_blocks.
Qed.

Lemma block_cons n l i : block n l (S i) = block n (drop n l) i.
Proof. unfold block. rewrite drop_drop. f_equal. Qed.

Lemma length_block n l i : length (block n l i) = n `min` (length l - i * n).
Proof. unfold block. by rewrite length_take, length_drop. Qed.

Lemma nblocks_drop n l : (0 < n)%nat → (0 < length l)%nat → nblocks n l = S (nblocks n (drop n l)).
Proof.
  intros Hn Hl. pose proof (λ i, nblocks_lt n l i Hn) as H1. pose proof (λ i, nblocks_lt n (drop n l) i Hn) as H2.
  setoid_rewrite length_drop in H2. pose proof (proj2 (H1 0%nat) ltac:(lia)).
  apply Nat.le_antisymm.
  - apply Nat.nlt_ge. intros Hc%H1.
    destruct (decide (nblocks n (drop n l) * n < length l - n)%nat) as [Hd%H2|Hd]; [lia|nia].
  - destruct (nblocks n (drop n l)) as [|k] eqn:Ek; [lia|]. apply H1. pose proof (proj1 (H2 k) ltac:(lia)). nia.
Qed.

Lemma nblocks_nil n : (0 < n)%nat → nblocks n ([] : list A) = 0%nat.
Proof. intros Hn. pose proof (nblocks_lt n [] 0 Hn). simpl in *. lia. Qed.

Lemma blocks_nil n : (0 < n)%nat → blocks n ([] : list A) = [].
Proof. intros Hn. unfold blocks. by rewrite nblocks_nil. Qed.

Lemma blocks_cons n l : (0 < n)%nat → (0 < length l)%nat → blocks n l = take n l :: blocks n (drop n l).
Proof.
  intros Hn Hl. unfold blocks. rewrite nblocks_drop by done. cbn [seq fmap list_fmap].
  f_equal. rewrite <-fmap_S_seq, <-list_fmap_compose. apply list_fmap_ext. intros i x _. apply block_cons.
Qed.

(** Induction over the blocks of a list. *)
Lemma blocks_ind n (P : list A → Prop) :
  (0 < n)%nat → P [] → (∀ l, (0 < length l)%nat → P (drop n l) → P l) → ∀ l, P l.
Proof.
  intros Hn H0 HS l. remember (length l) as k eqn:Ek. revert l Ek.
  induction (lt_wf k) as [k _ IH]. intros l ->. destruct (decide (length l = 0)%nat) as [Hz|Hz].
  - by rewrite (nil_length_inv _ Hz).
  - apply HS; [lia|]. eapply IH; [|done]. rewrite length_drop. lia.
Qed.

Lemma join_blocks n l : (0 < n)%nat → mjoin (blocks n l) = l.
Proof.
  intros Hn. revert l. apply (blocks_ind n); [done|by rewrite blocks_nil|]. intros l Hl IH.
  rewrite blocks_cons by done. rewrite mjoin_cons, IH. apply take_drop.
Qed.

Lemma join_block_lookup (k : nat) (ls : list (list A)) i b :
  (∀ x, x ∈ ls → length x = k) → ls !! i = Some b → take k (drop (i * k) (mjoin ls)) = b.
Proof.
  revert i. induction ls as [|x ls IH]; intros i Hk Hb; [done|].
  pose proof (Hk x ltac:(by left)) as Hx. rewrite mjoin_cons. destruct i as [|i].
  - injection Hb as ->. change (0 * k)%nat with 0%nat. rewrite drop_0, take_app_le, take_ge; [done|lia|lia].
  - change (ls !! i = Some b) in Hb. rewrite drop_app_ge by lia.
    replace (S i * k - length x)%nat with (i * k)%nat by lia.
    apply IH; [|done]. intros y Hy. apply Hk. by right.
Qed.

Lemma length_join_uniform (k : nat) (ls : list (list A)) :
  (∀ x, x ∈ ls → length x = k) → length (mjoin ls) = (length ls * k)%nat.
Proof.
  induction ls as [|x ls IH]; intros Hk; [done|]. rewrite mjoin_cons, length_app, IH by (intros; apply Hk; by right).
  rewrite (Hk x) by (by left). simpl. lia.
Qed.

Lemma chunks_exact_join (k : nat) (ls : list (list A)) :
  (0 < k)%nat → (∀ x, x ∈ ls → length x = k) → chunks_exact k (mjoin ls) = ls.
Proof.
  intros Hk Hls. unfold chunks_exact. assert (Hf : (length ls ≤ length (mjoin ls))%nat).
  { rewrite (length_join_uniform k) by done. nia. }
  revert Hf. generalize (length (mjoin ls)) as fuel. revert Hls.
  induction ls as [|x ls IH]; intros Hls fuel Hf.
  - destruct fuel; simpl; [done|]. by destruct (Nat.ltb_spec 0 k); [|lia].
  - destruct fuel as [|fuel]; [simpl in Hf; lia|]. assert (Hx : length x = k) by (apply Hls; by left).
    rewrite mjoin_cons. cbn [chunks_exact_fuel]. rewrite length_app.
    destruct (Nat.ltb_spec (length x + length (mjoin ls)) k); [lia|].
    rewrite take_app_le, take_ge by lia. rewrite drop_app_ge by lia. rewrite Hx, Nat.sub_diag, drop_0.
    f_equal. apply IH; [|simpl in Hf; lia]. intros y Hy. apply Hls. by right.
Qed.

(** A list of [k]-element parts is the cut of its concatenation. *)
Lemma chunks_exact_spec (k : nat) (q : nat) l :
  (0 < k)%nat → length l = (q * k)%nat →
  mjoin (chunks_exact k l) = l ∧ length (chunks_exact k l) = q ∧ ∀ x, x ∈ chunks_exact k l → length x = k.
Proof.
  intros Hk Hl. unfold chunks_exact. assert (Hf : (q ≤ length l)%nat) by nia.
  revert Hf. generalize (length l) as fuel. revert l Hl.
  induction q as [|q IH]; intros l Hl fuel Hf.
  - rewrite (nil_length_inv l) by lia. destruct fuel; simpl; [set_solver|].
    destruct (Nat.ltb_spec 0 k); [|lia]. set_solver.
  - destruct fuel as [|fuel]; [lia|]. cbn [chunks_exact_fuel]. destruct (Nat.ltb_spec (length l) k); [nia|].
    destruct (IH (drop k l) ltac:(rewrite length_drop; nia) fuel ltac:(lia)) as (Hj & Hn & Hx).
    rewrite mjoin_cons. split_and!.
    + rewrite Hj. apply take_drop.
    + cbn [length]. by rewrite Hn.
    + intros x [->|Hin]%elem_of_cons; [rewrite length_take; lia|by apply Hx].
Qed.
End Blocks.

Lemma get_range_some {A} (a b : N) (l : list A) :
  (a ≤ b)%N → (b ≤ len l)%N → get_range a b l = Some (take (N.to_nat (b - a)) (drop (N.to_nat a) l)).
Proof.
  intros Ha Hb. unfold get_range. by rewrite (proj2 (N.leb_le _ _) Ha), (proj2 (N.leb_le _ _) Hb).
Qed.

(** ** Pieces *)

Lemma slice_app (a b : N) (l x y z : bytes) :
  l = x ++ y ++ z → len x = a → len y = (b - a)%N → (a ≤ b)%N → slice a b l = Some y.
Proof.
  intros -> Hx Hy Hab. unfold slice. rewrite !len_app.
  destruct (N.leb_spec a b); [|lia]. destruct (N.leb_spec b (len x + (len y + len z))); [|lia].
  cbn [andb]. f_equal. unfold len in *. rewrite drop_app_ge by lia.
  replace (N.to_nat a - length x)%nat with 0%nat by lia. rewrite drop_0, take_app_le, take_ge by lia. done.
Qed.

Lemma le_bytes_u32 n : (n ≤ u32_max)%N → of_le_bytes (le_bytes 4 n) = n.
Proof. intros Hn. rewrite of_le_bytes_le_bytes. apply N.mod_small. unfold u32_max in *. simpl. lia. Qed.

Lemma le_bytes_u64 n : (n ≤ u64_max)%N → of_le_bytes (le_bytes 8 n) = n.
Proof. intros Hn. rewrite of_le_bytes_le_bytes. apply N.mod_small. unfold u64_max in *. simpl. lia. Qed.

Lemma resize0_ge n v : (len v ≤ n)%N → resize0 n v = v ++ replicate (N.to_nat (n - len v)) x00.
Proof. unfold len, resize0. intros Hn. rewrite resize_ge by lia. do 2 f_equal. lia. Qed.

Lemma frame_piece_ok i c p : (len p ≤ PIECE_PAYLOAD_LEN)%N →
  frame_piece i c p = Ok (le_bytes 4 i ++ le_bytes 4 c ++ le_bytes 4 (len p) ++ p ++
                          replicate (N.to_nat (PIECE_PAYLOAD_LEN - len p)) x00).
Proof.
  intros Hp. unfold frame_piece. destruct (N.ltb_spec PIECE_PAYLOAD_LEN (len p)); [lia|].
  unfold u32_try_from. pose proof payload_val. destruct (N.leb_spec (len p) u32_max); [|unfold u32_max in *; lia].
  cbn [ok_or obind]. f_equal.
  assert (El : len (le_bytes 4 i ++ le_bytes 4 c ++ le_bytes 4 (len p) ++ p) = (PIECE_HEADER_LEN + len p)%N).
  { rewrite !len_app, !len_le_bytes. unfold PIECE_HEADER_LEN. lia. }
  rewrite resize0_ge, El by lia. rewrite <-!app_assoc.
  by replace (PIECE_HEADER_LEN + PIECE_PAYLOAD_LEN - (PIECE_HEADER_LEN + len p))%N with (PIECE_PAYLOAD_LEN - len p)%N by lia.
Qed.

(** A framed piece is one block, and parses to what was framed. *)
Lemma parse_frame i c p b : (i ≤ u32_max)%N → (c ≤ u32_max)%N → frame_piece i c p = Ok b →
  len b = (PIECE_HEADER_LEN + PIECE_PAYLOAD_LEN)%N ∧ parse_piece b = Ok (i, c, p).
Proof.
  intros Hi Hc Hf. assert (Hp : (len p ≤ PIECE_PAYLOAD_LEN)%N).
  { unfold frame_piece in Hf. run_inv Hf. by to_prop. }
  rewrite frame_piece_ok in Hf by done. apply Ok_inj in Hf as <-. pose proof payload_val as Hv.
  assert (Hl : ∀ q, len (le_bytes 4 i ++ le_bytes 4 c ++ le_bytes 4 (len p) ++ p ++ replicate q x00) =
    (PIECE_HEADER_LEN + len p + N.of_nat q)%N).
  { intros q. rewrite !len_app, !len_le_bytes. unfold len at 2, PIECE_HEADER_LEN. rewrite length_replicate. lia. }
  split; [rewrite Hl; lia|]. unfold parse_piece. rewrite Hl.
  set (q := N.to_nat (PIECE_PAYLOAD_LEN - len p)).
  destruct (N.eqb_spec (PIECE_HEADER_LEN + len p + N.of_nat q) (PIECE_HEADER_LEN + PIECE_PAYLOAD_LEN)); [|lia].
  cbn [negb]. unfold word32.
  erewrite (slice_app 0 _ _ [] (le_bytes 4 i)); [|done|done|by rewrite len_le_bytes|done]. cbn [expect obind].
  erewrite (slice_app 4 _ _ (le_bytes 4 i) (le_bytes 4 c)); [|done|by rewrite len_le_bytes..|done]. cbn [expect obind].
  erewrite (slice_app 8 _ _ (le_bytes 4 i ++ le_bytes 4 c) (le_bytes 4 (len p)));
    [|by rewrite <-app_assoc|by rewrite len_app, !len_le_bytes|by rewrite len_le_bytes|done].
  cbn [expect obind]. rewrite !le_bytes_u32 by (unfold u32_max in *; lia).
  destruct (N.ltb_spec PIECE_PAYLOAD_LEN (len p)); [lia|].
  erewrite (slice_app PIECE_HEADER_LEN _ _ (le_bytes 4 i ++ le_bytes 4 c ++ le_bytes 4 (len p)) p);
    [done|by rewrite <-!app_assoc|by rewrite !len_app, !len_le_bytes|lia|lia].
Qed.

(** A block never makes the parser panic. *)
Lemma parse_piece_total b : parse_piece b ≠ Panic.
Proof.
  unfold parse_piece. destruct (N.eqb_spec (len b) (PIECE_HEADER_LEN + PIECE_PAYLOAD_LEN)) as [Hb|]; [|done].
  cbn [negb]. pose proof payload_val. unfold PIECE_HEADER_LEN in *.
  assert (Hs : ∀ a e, (a ≤ e)%N → (e ≤ len b)%N → ∃ x, slice a e b = Some x).
  { intros a e Ha He. unfold slice. destruct (N.leb_spec a e), (N.leb_spec e (len b)); try lia. eauto. }
  unfold word32. destruct (Hs 0 (0 + 4))%N as [x ->]; [lia..|]. destruct (Hs 4 (4 + 4))%N as [y ->]; [lia..|].
  destruct (Hs 8 (8 + 4))%N as [z ->]; [lia..|]. cbn [expect obind].
  destruct (N.ltb_spec PIECE_PAYLOAD_LEN (of_le_bytes z)); [done|].
  destruct (Hs 12 (12 + of_le_bytes z))%N as [w ->]; [lia..|]. done.
Qed.

(** The payload of a parsed block fits. *)
Lemma parse_piece_fits b i c p : parse_piece b = Ok (i, c, p) → (len p ≤ PIECE_PAYLOAD_LEN)%N.
Proof.
  intros Hp. unfold parse_piece in Hp. run_inv Hp. to_prop. simplify_eq.
  unfold slice in Hrun3. case_match; [|done]. simplify_eq. to_prop. unfold len in *. rewrite length_take. lia.
Qed.

(** ** Manifests *)

Section Manifests.
Context `{Env}.

Record manifest_wf (m : Manifest) : Prop := {
  mw_count : m_count m = len (m_hashes m);
  mw_max : (m_count m ≤ MAX_SERIES_PIECES)%N;
  mw_size : (m_size m ≤ u64_max)%N;
  mw_pieces : m_count m = piece_count_for (m_size m);
  mw_hashes : ∀ h, h ∈ m_hashes m → length h = 32%nat;
}.

(** The chunks of a manifest, in slot order. *)
Definition chunk_list (m : Manifest) : list bytes := (λ hs : list bytes, mjoin hs) <$> blocks (N.to_nat HASHES_PER_CHUNK) (m_hashes m).

(** Its top record. *)
Definition top_of (m : Manifest) : TopRecord :=
  {| t_count := m_count m; t_size := m_size m; t_chunk_hashes := sha256 <$> chunk_list m |}.

Lemma chunk_block m slot : (m_count m = len (m_hashes m))%N → (m_count m ≤ MAX_SERIES_PIECES)%N →
  (slot < chunk_count_for (m_count m))%N →
  chunk m slot = mjoin (block (N.to_nat HASHES_PER_CHUNK) (m_hashes m) (N.to_nat slot)).
Proof.
  intros Hc Hm Hs. unfold chunk. pose proof per_val as Hp. pose proof max_pieces_val.
  assert (Hlt : (slot * HASHES_PER_CHUNK < m_count m)%N).
  { apply N.nle_gt. intros Hle. apply div_ceil_le in Hle; [|lia]. unfold chunk_count_for in Hs. lia. }
  unfold u64_saturating_mul, u64_saturating_add, u64_max.
  rewrite (N.min_l (slot * HASHES_PER_CHUNK)) by lia.
  rewrite (N.min_l (slot * HASHES_PER_CHUNK + HASHES_PER_CHUNK)) by lia.
  rewrite (N.min_l (slot * HASHES_PER_CHUNK) (len (m_hashes m))) by lia.
  rewrite get_range_some by lia. cbn [default]. unfold block. f_equal.
  destruct (decide (slot * HASHES_PER_CHUNK + HASHES_PER_CHUNK ≤ len (m_hashes m))%N) as [Hle|Hle].
  - rewrite N.min_l by lia. replace (slot * HASHES_PER_CHUNK + HASHES_PER_CHUNK - slot * HASHES_PER_CHUNK)%N with HASHES_PER_CHUNK by lia.
    by rewrite N2Nat.inj_mul.
  - rewrite N.min_r by lia. rewrite N2Nat.inj_mul. rewrite !take_ge; [done|..]; rewrite length_drop; unfold len in *; lia.
Qed.

Lemma nblocks_chunks m : (m_count m = len (m_hashes m))%N →
  nblocks (N.to_nat HASHES_PER_CHUNK) (m_hashes m) = N.to_nat (chunk_count_for (m_count m)).
Proof. intros ->. unfold nblocks, chunk_count_for. by rewrite N2Nat.id. Qed.

Lemma chunks_are m : (m_count m = len (m_hashes m))%N → (m_count m ≤ MAX_SERIES_PIECES)%N →
  chunk m <$> range (chunk_count_for (m_count m)) = chunk_list m.
Proof.
  intros Hc Hm. unfold chunk_list, blocks, range. rewrite nblocks_chunks by done.
  rewrite <-!list_fmap_compose. apply list_fmap_ext. intros i x Hx%lookup_seq. simpl.
  rewrite chunk_block, Nat2N.id by (done || lia). by destruct Hx as [-> _].
Qed.

Lemma top_bytes_eq m : (m_count m = len (m_hashes m))%N → (m_count m ≤ MAX_SERIES_PIECES)%N →
  top_bytes m = le_bytes 4 (m_count m) ++ le_bytes 8 (m_size m) ++ mjoin (sha256 <$> chunk_list m).
Proof.
  intros Hc Hm. unfold top_bytes. rewrite <-chunks_are by done. by rewrite <-list_fmap_compose.
Qed.

Lemma length_chunk_list m : (m_count m = len (m_hashes m))%N →
  length (chunk_list m) = N.to_nat (chunk_count_for (m_count m)).
Proof. intros Hc. unfold chunk_list. by rewrite length_fmap, length_blocks, nblocks_chunks. Qed.

Lemma chunk_count_small c : (c ≤ MAX_SERIES_PIECES)%N → (chunk_count_for c ≤ 1374)%N.
Proof. intros Hc. apply div_ceil_le; [apply per_pos|]. pose proof max_pieces_val. pose proof per_val. lia. Qed.

Lemma join_chunk_list m : mjoin (chunk_list m) = mjoin (m_hashes m).
Proof.
  unfold chunk_list. rewrite <-(join_blocks (N.to_nat HASHES_PER_CHUNK) (m_hashes m)) at 2 by (pose proof per_pos; lia).
  induction (blocks (N.to_nat HASHES_PER_CHUNK) (m_hashes m)) as [|x l IH]; [done|].
  rewrite fmap_cons, !mjoin_cons, IH. by rewrite join_app.
Qed.
End Manifests.

Section RoundTrip.
Context `{Env} (Hw : sha_width).

Lemma join_hashes_len (l : list bytes) : length (mjoin (sha256 <$> l)) = (length l * 32)%nat.
Proof.
  rewrite (length_join_uniform 32), length_fmap; [done|]. intros x (y & -> & _)%list_elem_of_fmap. apply Hw.
Qed.

(** The top record of a manifest parses back to its counts and chunk hashes. *)
Lemma top_parse_bytes m : manifest_wf m → top_parse (top_bytes m) = Ok (top_of m).
Proof.
  intros [Hc Hm Hs Hp Hh]. rewrite top_bytes_eq by done. pose proof (chunk_count_small _ Hm) as Hk.
  pose proof payload_val as Hv. pose proof (max_pieces_val) as Hmv.
  set (tail := mjoin (sha256 <$> chunk_list m)).
  assert (Ht : len tail = (32 * chunk_count_for (m_count m))%N).
  { unfold tail, len. rewrite join_hashes_len, length_chunk_list by done. lia. }
  unfold top_parse. rewrite !len_app, !len_le_bytes, Ht. unfold MANIFEST_HEADER_LEN.
  destruct (N.ltb_spec (N.of_nat 4 + (N.of_nat 8 + 32 * chunk_count_for (m_count m))) 12); [lia|].
  destruct (N.ltb_spec PIECE_PAYLOAD_LEN (N.of_nat 4 + (N.of_nat 8 + 32 * chunk_count_for (m_count m)))); [lia|].
  cbn [orb]. erewrite (slice_app 0 4 _ [] (le_bytes 4 (m_count m))); [|done|done|by rewrite len_le_bytes|done].
  cbn [expect obind]. erewrite (slice_app 4 12 _ (le_bytes 4 (m_count m)) (le_bytes 8 (m_size m)));
    [|done|by rewrite len_le_bytes..|done].
  cbn [expect obind]. rewrite le_bytes_u32, le_bytes_u64 by (unfold u32_max in *; lia).
  unfold u64_saturating_add, u64_saturating_mul, u64_max. rewrite !N.min_l by lia.
  destruct (N.eqb_spec (N.of_nat 4 + (N.of_nat 8 + 32 * chunk_count_for (m_count m))) (12 + chunk_count_for (m_count m) * 32)); [|lia].
  rewrite <-Hp, N.eqb_refl. destruct (N.ltb_spec MAX_SERIES_PIECES (m_count m)); [lia|]. cbn [negb orb].
  unfold top_of. do 2 f_equal.
  change (N.to_nat 12) with (length (le_bytes 4 (m_count m) ++ le_bytes 8 (m_size m))).
  rewrite app_assoc, drop_app_length. apply chunks_exact_join; [lia|].
  intros x (y & -> & _)%list_elem_of_fmap. apply Hw.
Qed.

(** The chunks of a manifest, put together, are the manifest. *)
Lemma from_parts_chunks m : manifest_wf m → from_parts (top_of m) (chunk_list m) = Ok m.
Proof.
  intros [Hc Hm Hs Hp Hh]. unfold from_parts. rewrite join_chunk_list.
  assert (Hl : length (mjoin (m_hashes m)) = (length (m_hashes m) * 32)%nat) by by apply length_join_uniform.
  pose proof max_pieces_val. unfold len at 1. rewrite Hl. simpl t_count. simpl t_size.
  unfold u64_saturating_mul, u64_max. rewrite N.min_l by lia.
  destruct (N.eqb_spec (N.of_nat (length (m_hashes m) * 32)) (m_count m * 32)) as [|Hne];
    [|exfalso; apply Hne; rewrite Hc; unfold len; lia].
  cbn [negb]. rewrite chunks_exact_join by (done || lia). by destruct m.
Qed.
End RoundTrip.

(** ** Files *)

Section Files.
Context `{Env}.

(** The data slices of a file. *)
Definition slices (f : bytes) : list bytes := blocks (N.to_nat PIECE_PAYLOAD_LEN) f.

Definition manifest_of (f : bytes) : Manifest :=
  {| m_count := len (slices f); m_size := len f; m_hashes := sha256 <$> slices f |}.

(** The file is no larger than the largest series. *)
Definition fits (f : bytes) : Prop := (len (slices f) ≤ MAX_SERIES_PIECES)%N.

(** What a disk gives that neither fails nor ends early. *)
Definition clean (reader : Reader) : Prop := Forall (λ p, ∃ b, p = Some b ∧ b ≠ []) reader.

Definition content (reader : Reader) : bytes := mjoin (default [] <$> reader).

Lemma content_cons p reader : content (p :: reader) = default [] p ++ content reader.
Proof. done. Qed.

Lemma len_slices f : len (slices f) = div_ceil (len f) PIECE_PAYLOAD_LEN.
Proof. unfold slices, len at 1. rewrite length_blocks. unfold nblocks. by rewrite !N2Nat.id. Qed.

Lemma payload_nat_pos : (0 < N.to_nat PIECE_PAYLOAD_LEN)%nat.
Proof. pose proof payload_pos. lia. Qed.

Lemma fits_size f : fits f → (len f ≤ MAX_SERIES_PIECES * PIECE_PAYLOAD_LEN)%N.
Proof. unfold fits. rewrite len_slices, div_ceil_le by apply payload_pos. done. Qed.

Lemma piece_count_fits f : fits f → piece_count_for (len f) = len (slices f).
Proof.
  intros Hf. unfold piece_count_for, u32_try_from. rewrite <-len_slices.
  unfold fits in Hf. pose proof max_pieces_val. destruct (N.leb_spec (len (slices f)) u32_max); [done|].
  unfold u32_max in *. lia.
Qed.

Lemma manifest_of_wf f : sha_width → fits f → manifest_wf (manifest_of f).
Proof.
  intros Hw Hf. constructor; simpl.
  - unfold len. by rewrite length_fmap.
  - done.
  - pose proof (fits_size f Hf). pose proof max_pieces_val. pose proof payload_val. unfold u64_max. lia.
  - by rewrite piece_count_fits.
  - intros h (s & -> & _)%list_elem_of_fmap. apply Hw.
Qed.

(** Reading gives the next bytes however the disk portions them. *)
Lemma read_full_clean reader n : clean reader →
  ∃ rest, read_full reader n = Ok (take n (content reader), rest) ∧ clean rest ∧
          content rest = drop n (content reader).
Proof.
  intros Hc. revert n. induction Hc as [|p reader (b & -> & Hb) Hc IH]; intros n.
  - exists []. unfold content, clean. cbn. rewrite take_nil, drop_nil. by destruct n.
  - destruct n as [|n']; [exists (Some b :: reader); rewrite take_0, drop_0; split_and!; [done|by constructor; eauto|done]|].
    set (n := S n'). rewrite content_cons. cbn [default from_option id]. destruct b as [|x b']; [done|]. set (b := x :: b') in *.
    replace (read_full (Some b :: reader) n) with
      (if (n <? length b)%nat then Ok (take n b, Some (drop n b) :: reader)
       else let? r := read_full reader (n - length b) in Ok (b ++ r.1, r.2)) by done.
    destruct (Nat.ltb_spec n (length b)) as [Hlt|Hge].
    + exists (Some (drop n b) :: reader). rewrite take_app_le, drop_app_le by lia. split_and!; [done| |by rewrite content_cons].
      constructor; [|done]. eexists. split; [done|]. intros He%(f_equal length). rewrite length_drop in He. simpl in He. simpl in Hlt. lia.
    + destruct (IH (n - length b)%nat) as (rest & -> & Hr & Hd). exists rest. cbn [obind fst snd].
      rewrite take_app_ge, drop_app_ge by lia. done.
Qed.

Lemma read_slices_spec fuel reader hashes size whole :
  clean reader → (length (content reader) < fuel)%nat →
  (size + len (content reader) ≤ u64_max)%N →
  read_slices fuel reader hashes size whole =
    if (MAX_SERIES_PIECES <? len hashes + len (slices (content reader)))%N && (0 <? len (content reader))%N then Err TooLarge
    else Ok (hashes ++ (sha256 <$> slices (content reader)), (size + len (content reader))%N, whole ++ content reader).
Proof.
  pose proof payload_nat_pos as Hpos. revert reader hashes size whole.
  induction fuel as [|fuel IH]; intros reader hashes size whole Hc Hf Hs; [lia|].
  cbn [read_slices]. destruct (read_full_clean reader (N.to_nat PIECE_PAYLOAD_LEN) Hc) as (rest & -> & Hr & Hd).
  cbn [obind fst snd]. set (f := content reader) in *. set (part := take (N.to_nat PIECE_PAYLOAD_LEN) f).
  assert (Hpart : len part = N.min PIECE_PAYLOAD_LEN (len f)) by (unfold part, len; rewrite length_take; lia).
  pose proof payload_pos. destruct (N.eqb_spec (len part) 0) as [Hz|Hz].
  - assert (f = []) as -> by (apply nil_length_inv; unfold len in *; lia).
    unfold slices. rewrite blocks_nil by done. rewrite fmap_nil, !app_nil_r, len_nil, andb_false_r. by rewrite N.add_0_r.
  - assert (Hsl : slices f = part :: slices (drop (N.to_nat PIECE_PAYLOAD_LEN) f)).
    { apply blocks_cons; [done|]. unfold len in *. lia. }
    assert (Hadd : u64_saturating_add size (len part) = (size + len part)%N) by (unfold u64_saturating_add; lia).
    assert (Hlf : (0 <? len f)%N = true) by (apply N.ltb_lt; lia). rewrite Hlf, andb_true_r, Hadd, len_app, Hsl.
    assert (Hjoin : part ++ drop (N.to_nat PIECE_PAYLOAD_LEN) f = f) by apply take_drop.
    assert (Hlen : (len part + len (drop (N.to_nat PIECE_PAYLOAD_LEN) f) = len f)%N) by (by rewrite <-len_app, Hjoin).
    change (len [sha256 part]) with 1%N. rewrite len_cons.
    destruct (N.ltb_spec (len part) PIECE_PAYLOAD_LEN) as [Hlast|Hfull].
    + assert (drop (N.to_nat PIECE_PAYLOAD_LEN) f = []) as Hnil by (apply nil_length_inv; unfold len in *; lia).
      rewrite Hnil in *. unfold slices at 1 2. rewrite blocks_nil by done. rewrite len_nil, N.add_0_r.
      rewrite app_nil_r in Hjoin. rewrite <-Hjoin. done.
    + specialize (IH rest (hashes ++ [sha256 part]) (size + len part)%N (whole ++ part) Hr).
      rewrite Hd in IH. specialize (IH ltac:(rewrite length_drop; unfold len in *; lia) ltac:(lia)).
      rewrite fmap_cons. rewrite len_app in IH. change (len [sha256 part]) with 1%N in IH.
      rewrite IH, <-!app_assoc. cbn [app]. rewrite Hjoin, <-(N.add_assoc size), Hlen.
      set (k := len (slices (drop (N.to_nat PIECE_PAYLOAD_LEN) f))).
      assert (Hk : (0 <? len (drop (N.to_nat PIECE_PAYLOAD_LEN) f))%N = true ∨ k = 0%N).
      { unfold k. destruct (N.ltb_spec 0 (len (drop (N.to_nat PIECE_PAYLOAD_LEN) f))); [by left|right].
        rewrite len_slices. apply N.le_0_r, div_ceil_le; [done|lia]. }
      replace (len hashes + 1 + k)%N with (len hashes + (1 + k))%N by lia.
      destruct (N.ltb_spec MAX_SERIES_PIECES (len hashes + 1)) as [Ha|Ha].
      * rewrite (proj2 (N.ltb_lt MAX_SERIES_PIECES (len hashes + (1 + k)))) by lia. done.
      * destruct Hk as [->|Hk0]; [by rewrite andb_true_r|].
        rewrite (proj2 (N.ltb_ge MAX_SERIES_PIECES (len hashes + (1 + k)))) by lia. done.
Qed.

(** Building a manifest from a file, however the disk portions its bytes. *)
Lemma manifest_of_reader_exact reader : clean reader → (len (content reader) ≤ u64_max)%N →
  manifest_of_reader reader =
    if (MAX_SERIES_PIECES <? len (slices (content reader)))%N then Err TooLarge
    else Ok (manifest_of (content reader), hex_encode (sha256 (content reader))).
Proof.
  intros Hc Hl. unfold manifest_of_reader. rewrite read_slices_spec; [|done|unfold reader_fuel; fold (content reader); lia|lia].
  set (f := content reader) in *. rewrite len_nil, !N.add_0_l, !app_nil_l.
  assert (E : ((MAX_SERIES_PIECES <? len (slices f)) && (0 <? len f) = (MAX_SERIES_PIECES <? len (slices f)))%N).
  { destruct (N.ltb_spec 0 (len f)) as [|Hz]; [by rewrite andb_true_r|]. rewrite andb_false_r. symmetry. apply N.ltb_ge.
    rewrite len_slices. etrans; [apply (div_ceil_le _ _ 0)|]; [apply payload_pos|lia|lia]. }
  rewrite E. destruct (N.ltb_spec MAX_SERIES_PIECES (len (slices f))) as [|Hf]; [done|]. cbn [obind].
  unfold u32_try_from. replace (len (sha256 <$> slices f)) with (len (slices f)) by (unfold len; by rewrite length_fmap).
  pose proof max_pieces_val. destruct (N.leb_spec (len (slices f)) u32_max); [done|unfold u32_max in *; lia].
Qed.
End Files.
