(* ===== verification/Fetch.v ===== *)
(** * Fetching a series

    crates/molt-net/src/file_plane.rs, [fetch_series_v2_with]: pieces arrive
    from relays in any order, repeated, mixed with forgeries.  Data slices land
    in the sink as they come; the top record is checked against the root, each
    manifest chunk against the record, each slice against its chunk.  What
    cannot be checked yet waits in bounded stores.  Without a root the first
    top record is tried, and given up for another when its series stalls or
    assembles to other bytes than the committed ones.

    What the surroundings decide is input: the time at each turn of the loop,
    what the disk under the spill file does, and the answer of [on_quiet]. *)

From S2P Require Import Prelude Bytes Strs Env Chunk FilePlane.

Definition MANIFEST_CANDIDATES_PER_SLOT : nat := 64.
Definition SPILL_DISK_MAX : N := 512 * 1024 * 1024.
Definition SPILL_MEMORY_MAX : N := 64 * 1024 * 1024.
Definition SLICE_CANDIDATES_PER_INDEX : nat := 4.
Definition SLICE_SIDE_MAX : N := 32 * 1024 * 1024.
Definition TOP_RIVALS_MAX : nat := 8.
Definition TOPS_DISOWNED_MAX : nat := 4096.
Definition TOP_STALL_QUIETS : N := 12.
Definition PIECE_WANT_MAX_RANGES : nat := 64.

(** [str::to_lowercase], used on text that is then compared with lower-case
    hex: only ASCII letters lower to a hex digit. *)
Definition lower_char (c : ascii) : ascii :=
  let n := N_of_ascii c in if ((65 <=? n) && (n <=? 90))%N then ascii_of_N (n + 32) else c.
Fixpoint to_lowercase (s : string) : string :=
  match s with "" => "" | String c s => String (lower_char c) (to_lowercase s) end.

(** ** Manifest chunks waiting for the top record *)

(** What the disk under the spill file does during one event: whether the
    file opens, how far a failing write got, which offsets can be read. *)
Record Disk := mkDisk {
  d_opens : bool;
  d_fails_after : option nat;
  d_reads : N → bool;
}.

Record CandidateStore := mkCands {
  c_spill : bool;
  c_file : option bytes;
  c_memory : list bytes;
  c_slots : gmap N (list (bytes * N * N));
  c_total : N;
}.

Definition cands_new (spill : bool) : CandidateStore :=
  {| c_spill := spill; c_file := None; c_memory := []; c_slots := ∅; c_total := 0 |}.

Definition capacity (cs : CandidateStore) : N := if c_spill cs then SPILL_DISK_MAX else SPILL_MEMORY_MAX.

(** The spill file is opened by the first candidate; one that does not open
    is given up. *)
Definition open_spill (d : Disk) (cs : CandidateStore) : CandidateStore :=
  match c_file cs, c_spill cs with
  | None, true =>
      if d_opens d
      then {| c_spill := true; c_file := Some []; c_memory := c_memory cs; c_slots := c_slots cs; c_total := c_total cs |}
      else {| c_spill := false; c_file := None; c_memory := c_memory cs; c_slots := c_slots cs; c_total := c_total cs |}
  | _, _ => cs
  end.

Definition note_cand (slot at_ : N) (hash payload : bytes) (file : option bytes) (memory : list bytes)
    (cs : CandidateStore) : CandidateStore :=
  {| c_spill := c_spill cs; c_file := file; c_memory := memory;
     c_slots := partial_alter (λ o, Some (default [] o ++ [(hash, at_, len payload)])) slot (c_slots cs);
     c_total := u64_saturating_add (c_total cs) (len payload) |}.

Section Fetch.
Context `{Env, Sealing} {Snk : Type} `{PieceSink Snk}.

(** [CandidateStore::push]. *)
Definition cands_push (d : Disk) (slot : N) (payload : bytes) (cs : CandidateStore) : CandidateStore * bool :=
  let hash := sha256 payload in
  let entries := default [] (c_slots cs !! slot) in
  if existsb (λ e, bool_decide (e.1.1 = hash)) entries then (cs, true)
  else if (MANIFEST_CANDIDATES_PER_SLOT <=? length entries)%nat ||
          (capacity cs <? u64_saturating_add (c_total cs) (len payload))%N then (cs, false)
  else
    let cs := open_spill d cs in
    match c_file cs with
    | Some file =>
        match d_fails_after d with
        | Some n =>
            ({| c_spill := c_spill cs; c_file := Some (file ++ take n payload); c_memory := c_memory cs;
                c_slots := c_slots cs; c_total := c_total cs |}, false)
        | None => (note_cand slot (len file) hash payload (Some (file ++ payload)) (c_memory cs) cs, true)
        end
    | None =>
        (note_cand slot (len (c_memory cs)) hash payload None (c_memory cs ++ [payload]) cs, true)
    end.

(** One entry of [CandidateStore::take]. *)
Definition read_cand (d : Disk) (cs : CandidateStore) (e : bytes * N * N) : option bytes :=
  match c_file cs with
  | Some file => if d_reads d e.1.2 then get_range e.1.2 (e.1.2 + e.2) file else None
  | None => c_memory cs !! N.to_nat e.1.2
  end.

Definition cands_take (d : Disk) (slot : N) (cs : CandidateStore) : CandidateStore * list bytes :=
  match c_slots cs !! slot with
  | None => (cs, [])
  | Some entries =>
      ({| c_spill := c_spill cs; c_file := c_file cs; c_memory := c_memory cs;
          c_slots := delete slot (c_slots cs); c_total := c_total cs |},
       omap (read_cand d cs) entries)
  end.

(** ** Slices waiting for their chunk *)

Record Unverified := mkUnverified {
  u_landed : gmap N bytes;
  u_side : gmap N (list bytes);
  u_bytes : N;
}.

Definition unverified_default : Unverified := {| u_landed := ∅; u_side := ∅; u_bytes := 0 |}.

Definition offer_side (index : N) (payload : bytes) (u : Unverified) : Unverified :=
  let cands := default [] (u_side u !! index) in
  if (SLICE_CANDIDATES_PER_INDEX <=? length cands)%nat ||
     (SLICE_SIDE_MAX <? u64_saturating_add (u_bytes u) (len payload))%N ||
     bool_decide (payload ∈ cands)
  then {| u_landed := u_landed u; u_side := <[index := cands]> (u_side u); u_bytes := u_bytes u |}
  else {| u_landed := u_landed u; u_side := <[index := cands ++ [payload]]> (u_side u);
          u_bytes := u64_saturating_add (u_bytes u) (len payload) |}.

Definition forget_side (index : N) (u : Unverified) : Unverified :=
  match u_side u !! index with
  | None => u
  | Some cands =>
      {| u_landed := u_landed u; u_side := delete index (u_side u);
         u_bytes := (u_bytes u - foldr (λ c n, (len c + n)%N) 0%N cands)%N |}
  end.

Definition forget_landed (index : N) (u : Unverified) : Unverified :=
  {| u_landed := delete index (u_landed u); u_side := u_side u; u_bytes := u_bytes u |}.

(** What settling works on: the waiting slices, the verified ones, the sink. *)
Record Slots := mkSlots { s_pending : Unverified; s_verified : gset N; s_sink : Snk }.

Definition mark_slice (index : N) (s : Slots) : Slots :=
  {| s_pending := s_pending s; s_verified := {[index]} ∪ s_verified s;
     s_sink := note_verified (s_sink s) index |}.

Definition with_pending (u : Unverified) (s : Slots) : Slots :=
  {| s_pending := u; s_verified := s_verified s; s_sink := s_sink s |}.

(** [sink.put(..)], with its error. *)
Definition land (index : N) (payload : bytes) (s : Slots) : outcome FileError Slots :=
  let? sink := ok_or (put (s_sink s) index payload) (LandingFailed index) in
  Ok {| s_pending := s_pending s; s_verified := s_verified s; s_sink := sink |}.

(** One index of [Unverified::settle]. *)
Definition settle_one (chunk : bytes) (per : N) (s : Slots) (index : N) : outcome FileError Slots :=
  let want := hash_in chunk index per in
  let landed := u_landed (s_pending s) !! index in
  let u := forget_landed index (s_pending s) in
  if is_some landed && bool_decide (landed = want)
  then Ok (with_pending (forget_side index u) (mark_slice index s))
  else
    let good := find (λ c, bool_decide (Some (sha256 c) = want)) (default [] (u_side u !! index)) in
    let s := with_pending (forget_side index u) s in
    match good with
    | Some payload => let? s := land index payload s in Ok (mark_slice index s)
    | None => Ok s
    end.

Fixpoint settle_loop (chunk : bytes) (per : N) (indices : list N) (s : Slots) : outcome FileError Slots :=
  match indices with
  | [] => Ok s
  | index :: indices => let? s := settle_one chunk per s index in settle_loop chunk per indices s
  end.

Definition u32_saturating_mul (a b : N) : N := N.min (a * b) u32_max.
Definition u32_saturating_add (a b : N) : N := N.min (a + b) u32_max.

(** The indices chunk [slot] covers. *)
Definition covered (slot count per : N) : list N :=
  let from := u32_saturating_mul slot per in
  let to := N.min (u32_saturating_add from per) count in
  (λ i, (from + i)%N) <$> range (to - from).

Definition settle (slot : N) (chunk : bytes) (count per : N) (s : Slots) : outcome FileError Slots :=
  settle_loop chunk per (covered slot count per) s.

(** ** Missing pieces *)

(** [out.last_mut()] extended, or a new range. *)
Definition extend_ranges (out : list (N * N)) (index : N) : list (N * N) :=
  match last out with
  | Some (lo, hi) =>
      if (hi + 1 =? index)%N then take (length out - 1) out ++ [(lo, index)] else out ++ [(index, index)]
  | None => [(index, index)]
  end.

Definition missing_pieces (verified : gset N) (chunks_known : list bool) (have_top : bool) (layout : SeriesLayout)
    : list N :=
  filter (λ i, i ∉ verified) (range (l_count layout)) ++
  (snd <$> filter (λ e, e.1 = false) (zip chunks_known ((λ s, u32_saturating_add (l_count layout) s) <$> range (len chunks_known)))) ++
  (if have_top then [] else [l_top layout]).

Definition missing_ranges (verified : gset N) (chunks_known : list bool) (have_top : bool) (layout : SeriesLayout)
    : list (N * N) :=
  take PIECE_WANT_MAX_RANGES (foldl extend_ranges [] (missing_pieces verified chunks_known have_top layout)).

(** ** The fetch *)

Record SeriesExpect := mkExpect {
  e_count : N;
  e_size : N;
  e_root : option string;
  e_content : option string;
}.

Record FetchOpts := mkOpts {
  o_quiet : N;
  o_ceiling : option N;
  o_resumable : bool;
}.

(** The values a call computes once. *)
Record Ctx := mkCtx {
  x_layout : SeriesLayout;
  x_size : N;
  x_root : option string;
  x_content : option string;
  x_outer : bytes;
  x_stall_after : N;
  x_deadline : option N;
  x_resumable : bool;
}.

(** The record that is tried, and its rivals. *)
Record Tops := mkTops {
  r_top : option TopRecord;
  r_hash : bytes;
  r_rivals : list (TopRecord * bytes);
  r_disowned : gset bytes;
  r_mark : N * N;
  r_moved : N;
  r_doubt : bool;
  r_ask : bool;
}.

Record Fetch := mkFetch {
  f_tops : Tops;
  f_chunks : list (option bytes);
  f_cands : CandidateStore;
  f_slots : Slots;
  f_asked : list (list (N * N));
}.

Definition with_tops (t : Tops) (f : Fetch) : Fetch :=
  {| f_tops := t; f_chunks := f_chunks f; f_cands := f_cands f; f_slots := f_slots f; f_asked := f_asked f |}.
Definition with_slots (s : Slots) (f : Fetch) : Fetch :=
  {| f_tops := f_tops f; f_chunks := f_chunks f; f_cands := f_cands f; f_slots := s; f_asked := f_asked f |}.
Definition with_cands (c : CandidateStore) (f : Fetch) : Fetch :=
  {| f_tops := f_tops f; f_chunks := f_chunks f; f_cands := c; f_slots := f_slots f; f_asked := f_asked f |}.
Definition with_chunk (at_ : nat) (c : bytes) (f : Fetch) : Fetch :=
  {| f_tops := f_tops f; f_chunks := <[at_ := Some c]> (f_chunks f); f_cands := f_cands f;
     f_slots := f_slots f; f_asked := f_asked f |}.

Definition no_chunks (x : Ctx) : list (option bytes) := replicate (N.to_nat (l_chunks (x_layout x))) None.

(** Everything held is held and verified. *)
Definition done (x : Ctx) (f : Fetch) : bool :=
  is_some (r_top (f_tops f)) && forallb is_some (f_chunks f) &&
  (N.of_nat (size (s_verified (f_slots f))) =? l_count (x_layout x))%N.

(** A rootless series that assembled to other bytes than the committed ones. *)
Definition wrong (x : Ctx) (f : Fetch) : bool :=
  done x f && negb (is_some (x_root x)) &&
  match x_content x with
  | Some want =>
      match digest (s_sink (f_slots f)) (x_size x) with
      | Some have => negb (String.eqb (hex_encode have) want)
      | None => false
      end
  | None => false
  end.

Definition disown (t : Tops) : Tops :=
  {| r_top := None; r_hash := r_hash t; r_rivals := r_rivals t;
     r_disowned := if (size (r_disowned t) <? TOPS_DISOWNED_MAX)%nat then {[r_hash t]} ∪ r_disowned t else r_disowned t;
     r_mark := r_mark t; r_moved := r_moved t; r_doubt := true; r_ask := r_ask t |}.

(** The progress watch of a rootless fetch. *)
Definition watch_progress (x : Ctx) (now : N) (f : Fetch) : Tops :=
  let t := f_tops f in
  let progress := (N.of_nat (size (s_verified (f_slots f))),
                   N.of_nat (length (filter (λ c, is_some c = true) (f_chunks f)))) in
  if negb (bool_decide (progress = r_mark t)) then
    {| r_top := r_top t; r_hash := r_hash t; r_rivals := r_rivals t; r_disowned := r_disowned t;
       r_mark := progress; r_moved := now; r_doubt := r_doubt t; r_ask := r_ask t |}
  else if is_some (r_top t) && (x_stall_after x <=? now - r_moved t)%N then
    {| r_top := r_top t; r_hash := r_hash t; r_rivals := r_rivals t; r_disowned := r_disowned t;
       r_mark := r_mark t; r_moved := r_moved t; r_doubt := true; r_ask := r_ask t |}
  else t.

(** The record in doubt is exchanged for the next rival, if there is one, and
    the fetch starts over on it. *)
Definition restart (x : Ctx) (now : N) (f : Fetch) : Fetch :=
  let t := f_tops f in
  let next := head (r_rivals t) in
  if is_some next || negb (is_some (r_top t)) then
    let rivals := tail (r_rivals t) ++ match r_top t with Some old => [(old, r_hash t)] | None => [] end in
    {| f_tops := {| r_top := fst <$> next; r_hash := match next with Some n => n.2 | None => r_hash t end;
                    r_rivals := rivals; r_disowned := r_disowned t; r_mark := (u64_max, 0%N); r_moved := now;
                    r_doubt := false; r_ask := false |};
       f_chunks := no_chunks x;
       f_cands := cands_new (spills (s_sink (f_slots f)));
       f_slots := {| s_pending := unverified_default; s_verified := ∅; s_sink := s_sink (f_slots f) |};
       f_asked := f_asked f |}
  else
    with_tops {| r_top := r_top t; r_hash := r_hash t; r_rivals := r_rivals t; r_disowned := r_disowned t;
                 r_mark := r_mark t; r_moved := now; r_doubt := false; r_ask := true |} f.

(** [deadline.is_some_and(|d| now >= d)]. *)
Definition expired (x : Ctx) (now : N) : bool :=
  match x_deadline x with Some d => (d <=? now)%N | None => false end.

Inductive Turn :=
  | TReturn (r : outcome FileError (Manifest * Snk))
  | TAgain (f : Fetch)
  | TRecv (f : Fetch)
  | TSpin.

(** The loop's body up to [sub.recv]. *)
Definition turn (x : Ctx) (now : N) (f : Fetch) : Turn :=
  let bad := wrong x f in
  if done x f && negb bad then
    TReturn (let? top := ok_or (r_top (f_tops f)) NoTopRecord in
             let? m := from_parts top (omap id (f_chunks f)) in
             Ok (m, s_sink (f_slots f)))
  else
    let f := if bad then with_tops (disown (f_tops f)) f else f in
    if expired x now then TReturn (Err BudgetSpent)
    else
      let f := if is_some (x_root x) then f else with_tops (watch_progress x now f) f in
      if r_doubt (f_tops f) then TAgain (restart x now f) else TRecv f.

(** ** One arriving piece *)

(** A rival of the record that is tried. *)
Definition add_rival (record : TopRecord) (hash : bytes) (t : Tops) : Tops :=
  if bool_decide (hash = r_hash t) || existsb (λ r, bool_decide (r.2 = hash)) (r_rivals t) then t
  else
    let rivals := if (TOP_RIVALS_MAX <=? length (r_rivals t))%nat then tail (r_rivals t) else r_rivals t in
    {| r_top := r_top t; r_hash := r_hash t; r_rivals := rivals ++ [(record, hash)]; r_disowned := r_disowned t;
       r_mark := r_mark t; r_moved := r_moved t; r_doubt := r_doubt t || r_ask t; r_ask := r_ask t |}.

Definition take_top (record : TopRecord) (hash : bytes) (t : Tops) : Tops :=
  {| r_top := Some record; r_hash := hash; r_rivals := r_rivals t; r_disowned := r_disowned t;
     r_mark := r_mark t; r_moved := r_moved t; r_doubt := r_doubt t; r_ask := r_ask t |}.

(** A chunk that is verified: its indices settle and it is kept. *)
Definition take_chunk (x : Ctx) (slot : N) (chunk : bytes) (f : Fetch) : outcome FileError Fetch :=
  let? s := settle slot chunk (l_count (x_layout x)) HASHES_PER_CHUNK (f_slots f) in
  Ok (with_chunk (N.to_nat slot) chunk (with_slots s f)).

(** The chunks that waited for the record. *)
Fixpoint settle_waiting (x : Ctx) (d : Disk) (record : TopRecord) (slots : list N) (f : Fetch)
    : outcome FileError Fetch :=
  match slots with
  | [] => Ok f
  | slot :: slots =>
      let want := t_chunk_hashes record !! N.to_nat slot in
      let taken := cands_take d slot (f_cands f) in
      let f := with_cands taken.1 f in
      let? f := match find (λ c, bool_decide (Some (sha256 c) = want)) taken.2 with
                | Some good => take_chunk x slot good f
                | None => Ok f
                end in
      settle_waiting x d record slots f
  end.

Definition receive_top (x : Ctx) (d : Disk) (payload : bytes) (f : Fetch) : outcome FileError Fetch :=
  let t := f_tops f in
  let hash := sha256 payload in
  if (is_some (r_top t) && is_some (x_root x)) ||
     match x_root x with Some r => negb (String.eqb (hex_encode hash) r) | None => false end ||
     bool_decide (hash ∈ r_disowned t) then Ok f
  else
    match top_parse payload with
    | Panic => Panic
    | Err _ => Ok f
    | Ok record =>
        if negb (t_count record =? l_count (x_layout x))%N || negb (t_size record =? x_size x)%N then Ok f
        else
          match r_top t with
          | Some _ => Ok (with_tops (add_rival record hash t) f)
          | None =>
              let? f := settle_waiting x d record (range (l_chunks (x_layout x))) f in
              Ok (with_tops (take_top record hash (f_tops f)) f)
          end
    end.

Definition receive_chunk (x : Ctx) (d : Disk) (slot : N) (payload : bytes) (f : Fetch) : outcome FileError Fetch :=
  let at_ := N.to_nat slot in
  match f_chunks f !! at_ with
  | Some (Some _) => Ok f
  | _ =>
      match r_top (f_tops f) with
      | Some record =>
          if bool_decide (t_chunk_hashes record !! at_ = Some (sha256 payload))
          then take_chunk x slot payload f else Ok f
      | None => Ok (with_cands (cands_push d slot payload (f_cands f)).1 f)
      end
  end.

Definition receive_slice (x : Ctx) (index : N) (payload : bytes) (f : Fetch) : outcome FileError Fetch :=
  let s := f_slots f in
  if bool_decide (index ∈ s_verified s) then Ok f
  else if negb (bool_decide (expected_slice_len index (l_count (x_layout x)) (x_size x) = Some (len payload))) then Ok f
  else
    let have := sha256 payload in
    match f_chunks f !! N.to_nat (index / HASHES_PER_CHUNK) with
    | Some (Some chunk) =>
        if bool_decide (hash_in chunk index HASHES_PER_CHUNK = Some have)
        then let? s := land index payload s in Ok (with_slots (mark_slice index s) f)
        else Ok f
    | _ =>
        match u_landed (s_pending s) !! index with
        | Some landed =>
            if bool_decide (landed = have) then Ok f
            else Ok (with_slots (with_pending (offer_side index payload (s_pending s)) s) f)
        | None =>
            let? s := land index payload s in
            Ok (with_slots (with_pending {| u_landed := <[index := have]> (u_landed (s_pending s));
                                            u_side := u_side (s_pending s); u_bytes := u_bytes (s_pending s) |} s) f)
        end
    end.

Definition receive_piece (x : Ctx) (d : Disk) (index claimed : N) (payload : bytes) (f : Fetch)
    : outcome FileError Fetch :=
  let count := l_count (x_layout x) in
  if negb (claimed =? count)%N || (l_top (x_layout x) <? index)%N then Ok f
  else if (index =? l_top (x_layout x))%N then receive_top x d payload f
  else if (count <=? index)%N then receive_chunk x d (index - count) payload f
  else receive_slice x index payload f.

(** [GroupRecv]: a frame, or a quiet slice with the answer of [on_quiet]. *)
Inductive Recv :=
  | Frame (content : string)
  | Quiet (deaf keep : bool).

Definition receive (x : Ctx) (d : Disk) (ev : Recv) (f : Fetch) : outcome FileError Fetch :=
  match ev with
  | Frame content =>
      match open_outer [x_outer x] content with
      | Panic => Panic
      | Err _ => Ok f
      | Ok plain =>
          match parse_piece plain with
          | Panic => Panic
          | Err _ => Ok f
          | Ok (index, claimed, payload) => receive_piece x d index claimed payload f
          end
      end
  | Quiet deaf keep =>
      if negb (x_resumable x) then
        Err (if deaf then Deaf
             else match r_top (f_tops f) with
                  | None => NoManifest
                  | Some _ => PiecesMissing (l_count (x_layout x) - N.of_nat (size (s_verified (f_slots f))))
                  end)
      else
        let t := f_tops f in
        let missing := missing_ranges (s_verified (f_slots f)) (is_some <$> f_chunks f)
                         (is_some (r_top t) && negb (r_ask t)) (x_layout x) in
        reject negb keep with Cancelled else
        Ok {| f_tops := t; f_chunks := f_chunks f; f_cands := f_cands f; f_slots := f_slots f;
              f_asked := f_asked f ++ [missing] |}
  end.

(** ** The loop *)

(** Turns without receiving: each gives up a record.  [TSpin] is never
    reached. *)
Fixpoint turns (fuel : nat) (x : Ctx) (now : N) (f : Fetch) : Turn :=
  match fuel with
  | O => TSpin
  | S fuel => match turn x now f with TAgain f => turns fuel x now f | t => t end
  end.

Definition turn_fuel (f : Fetch) : nat := 3 + length (r_rivals (f_tops f)).

Inductive Outcome :=
  | Returned (r : outcome FileError (Manifest * Snk))
  | Waiting (f : Fetch)
  | Spinning.

Fixpoint fetch_loop (x : Ctx) (evs : list (N * Disk * Recv)) (end_ : N) (f : Fetch) : Outcome :=
  match evs with
  | [] =>
      match turns (turn_fuel f) x end_ f with
      | TReturn r => Returned r
      | TRecv f => Waiting f
      | _ => Spinning
      end
  | (now, d, ev) :: evs =>
      match turns (turn_fuel f) x now f with
      | TReturn r => Returned r
      | TRecv f =>
          match receive x d ev f with
          | Ok f => fetch_loop x evs end_ f
          | Err e => Returned (Err e)
          | Panic => Returned Panic
          end
      | _ => Spinning
      end
  end.

Definition fetch_ctx (key : bytes) (expect : SeriesExpect) (opts : FetchOpts) (start : N) (layout : SeriesLayout) : Ctx :=
  {| x_layout := layout; x_size := e_size expect; x_root := to_lowercase <$> e_root expect;
     x_content := to_lowercase <$> e_content expect; x_outer := outer_key key;
     x_stall_after := o_quiet opts * TOP_STALL_QUIETS;
     x_deadline := (λ c, (start + c)%N) <$> o_ceiling opts; x_resumable := o_resumable opts |}.

Definition fetch_start (x : Ctx) (start : N) (sink : Snk) : Fetch :=
  {| f_tops := {| r_top := None; r_hash := replicate 32 x00; r_rivals := []; r_disowned := ∅;
                  r_mark := (u64_max, 0%N); r_moved := start; r_doubt := false; r_ask := false |};
     f_chunks := no_chunks x;
     f_cands := cands_new (spills sink);
     f_slots := {| s_pending := unverified_default;
                   s_verified := list_to_set (filter (λ i, (i < l_count (x_layout x))%N) (held sink));
                   s_sink := sink |};
     f_asked := [] |}.

(** [fetch_series_v2_with]: the call is made at [start], the events are what
    [sub.recv] gives, each with the time of its turn; [end_] is the time of
    the turn after the last. *)
Definition fetch_series_v2_with (key : bytes) (expect : SeriesExpect) (sink : Snk) (opts : FetchOpts)
    (start : N) (evs : list (N * Disk * Recv)) (end_ : N) : Outcome :=
  if negb (e_count expect =? piece_count_for (e_size expect))%N then Returned (Err CountMismatch)
  else
    match layout_for (e_count expect) with
    | None => Returned (Err BeyondLargest)
    | Some layout =>
        let x := fetch_ctx key expect opts start layout in
        fetch_loop x evs end_ (fetch_start x start sink)
    end.
End Fetch.
