(* ===== verification/FetchInv.v ===== *)
(** * What a fetch holds

    The laws of a sink as an interface ([SinkLaws]), proved for [Vec<u8>]; the
    invariant of a fetch with a root: the record hashes to the root, every
    chunk to the record's hash of its slot, every verified slice to its chunk's
    hash, and the sink holds it.  Every event preserves it. *)

From S2P Require Import Prelude Bytes Strs Env Chunk FilePlane FilePlaneProps Fetch.

(** ** Sinks *)

(** What a fetch relies on: a written slice is there, and stays while others
    are written; nothing is written beyond the slices. *)
Class SinkLaws (Snk : Type) `{PieceSink Snk} := {
  holds_at : Snk → N → bytes → Prop;
  extent : Snk → N;
  put_holds s s' i p : (i ≤ u32_max)%N → (len p ≤ PIECE_PAYLOAD_LEN)%N → put s i p = Some s' → holds_at s' i p;
  put_keeps s s' i p j q : (i ≤ u32_max)%N → (len p ≤ PIECE_PAYLOAD_LEN)%N → (len q ≤ PIECE_PAYLOAD_LEN)%N →
    put s i p = Some s' → i ≠ j → holds_at s j q → holds_at s' j q;
  put_extent s s' i p : (i ≤ u32_max)%N → (len p ≤ PIECE_PAYLOAD_LEN)%N → put s i p = Some s' → (extent s' ≤ N.max (extent s) (i * PIECE_PAYLOAD_LEN + len p))%N;
  note_keeps s i j q : holds_at s j q → holds_at (note_verified s i) j q;
  note_extent s i : extent (note_verified s i) = extent s;
}.

Section VecSink.
Context `{Env}.

Lemma get_range_spec {A} (a b : N) (l q : list A) :
  get_range a b l = Some q ↔ (a ≤ b)%N ∧ (b ≤ len l)%N ∧ q = take (N.to_nat (b - a)) (drop (N.to_nat a) l).
Proof.
  unfold get_range. destruct (N.leb_spec a b), (N.leb_spec b (len l)); cbn [andb]; split; try done; try (by intros (?&?&?); lia).
  - by intros [= <-].
  - by intros (_ & _ & ->).
Qed.

(** A range of a list in three parts. *)
Lemma get_range_app {A} (a b : N) (x y z : list A) :
  a = len x → b = (len x + len y)%N → get_range a b (x ++ y ++ z) = Some y.
Proof.
  intros -> ->. apply get_range_spec. rewrite !len_app. split_and!; [lia|lia|].
  unfold len. rewrite Nat2N.id, drop_app_length. replace (N.to_nat _) with (length y) by lia.
  by rewrite take_app_length.
Qed.

Lemma get_range_len {A} (a b : N) (l q : list A) : get_range a b l = Some q → len q = (b - a)%N.
Proof. intros (Ha & Hb & ->)%get_range_spec. unfold len in *. rewrite length_take, length_drop. lia. Qed.

(** Two lists that agree on a range. *)
Lemma get_range_ext {A} (a b : N) (l k : list A) :
  (b ≤ len l)%N → (b ≤ len k)%N → (∀ i, a ≤ i < b → l !! N.to_nat i = k !! N.to_nat i)%N → get_range a b l = get_range a b k.
Proof.
  intros Hl Hk He. unfold get_range. rewrite (proj2 (N.leb_le _ _) Hl), (proj2 (N.leb_le _ _) Hk).
  destruct (N.leb_spec a b); [|done]. cbn [andb]. f_equal. apply list_eq. intros i.
  destruct (decide (i < N.to_nat (b - a))%nat) as [Hi|Hi].
  - rewrite !lookup_take_lt, !lookup_drop by done. specialize (He (a + N.of_nat i)%N ltac:(lia)).
    by replace (N.to_nat (a + N.of_nat i)) with (N.to_nat a + i)%nat in He by lia.
  - rewrite !lookup_take_ge by lia. done.
Qed.

Lemma vec_put_some (v : bytes) i p v' : vec_put v i p = Some v' →
  let a := (i * PIECE_PAYLOAD_LEN)%N in
  (a + len p ≤ u64_max)%N →
  ∃ w, v' = take (N.to_nat a) w ++ p ++ drop (N.to_nat (a + len p)) w ∧
       (a + len p ≤ len w)%N ∧ len w = N.max (len v) (a + len p) ∧
       ∀ k, (k < length v)%nat → w !! k = v !! k.
Proof.
  intros Hp a Ha. unfold vec_put in Hp. fold a in Hp. destruct (N.ltb_spec u64_max a); [done|].
  assert (Es : u64_saturating_add a (len p) = (a + len p)%N) by (unfold u64_saturating_add; lia).
  rewrite Es in Hp. injection Hp as <-.
  destruct (N.ltb_spec (len v) (a + len p)) as [Hlt|Hge].
  - exists (resize0 (a + len p) v). rewrite len_resize0. split_and!; [done|lia|lia|].
    intros k Hk. rewrite resize0_ge by lia. by rewrite lookup_app_l.
  - exists v. split_and!; [done|lia|lia|done].
Qed.

Lemma vec_put_bound i (p : bytes) : (i ≤ u32_max)%N → (len p ≤ PIECE_PAYLOAD_LEN)%N → (i * PIECE_PAYLOAD_LEN + len p ≤ u64_max)%N.
Proof. pose proof payload_val. unfold u32_max, u64_max. nia. Qed.

#[export] Program Instance vec_laws : SinkLaws bytes := {
  holds_at v i p := get_range (i * PIECE_PAYLOAD_LEN) (i * PIECE_PAYLOAD_LEN + len p) v = Some p;
  extent := len;
}.
Next Obligation.
  cbn. intros s s' i p Hi Hp Hput. destruct (vec_put_some _ _ _ _ Hput) as (w & -> & Hw & _ & _); [by apply vec_put_bound|].
  assert (Hl : len (take (N.to_nat (i * PIECE_PAYLOAD_LEN)) w) = (i * PIECE_PAYLOAD_LEN)%N)
    by (unfold len in *; rewrite length_take; lia).
  apply get_range_app; lia.
Qed.
Next Obligation.
  cbn. intros s s' i p j q Hi Hp Hq Hput Hij Hj. pose proof payload_pos.
  destruct (vec_put_some _ _ _ _ Hput) as (w & -> & Hw & Hmax & Hsame); [by apply vec_put_bound|].
  apply get_range_spec in Hj as Hj'. destruct Hj' as (_ & Hjl & _). rewrite <-Hj.
  set (a := (i * PIECE_PAYLOAD_LEN)%N) in *. set (b := (j * PIECE_PAYLOAD_LEN)%N) in *.
  assert (Ht : len (take (N.to_nat a) w) = a) by (unfold len in *; rewrite length_take; lia).
  assert (Hlen : len (take (N.to_nat a) w ++ p ++ drop (N.to_nat (a + len p)) w) = len w)
    by (rewrite !len_app, Ht; unfold len in *; rewrite length_drop; lia).
  apply get_range_ext; [lia|done|]. intros k Hk. rewrite <-Hsame by (unfold len in *; lia).
  assert (b + len q ≤ a ∨ a + len p ≤ b)%N as [Hlt|Hge].
  { subst a b. destruct (decide (j < i)%N); [left|right]; nia. }
  - rewrite lookup_app_l, lookup_take_lt by (unfold len in *; lia). done.
  - rewrite lookup_app_r by (unfold len in *; lia). rewrite lookup_app_r by (unfold len in *; lia).
    rewrite lookup_drop. f_equal. unfold len in *. lia.
Qed.
Next Obligation.
  cbn. intros s s' i p Hi Hp Hput. destruct (vec_put_some _ _ _ _ Hput) as (w & -> & Hw & Hmax & _); [by apply vec_put_bound|].
  rewrite !len_app. unfold len in *. rewrite length_take, length_drop. lia.
Qed.
Next Obligation. done. Qed.
Next Obligation. done. Qed.

(** A vector that holds every slice of a file is the file. *)
Lemma vec_assembled (f v : bytes) : (len v ≤ len f)%N →
  (∀ i s, slices f !! i = Some s → holds_at v (N.of_nat i) s) → v = f.
Proof.
  intros Hl Hs. pose proof payload_nat_pos as Hpos. apply list_eq. intros k.
  destruct (decide (k < length f)%nat) as [Hk|Hk]; [|rewrite !lookup_ge_None_2; unfold len in *; (done || lia)].
  set (B := N.to_nat PIECE_PAYLOAD_LEN) in *. set (i := (k / B)%nat).
  pose proof (Nat.div_mod_eq k B) as Hdm. pose proof (Nat.mod_upper_bound k B ltac:(lia)) as Hm. fold i in Hdm.
  assert (Hi : (i < nblocks B f)%nat) by (apply nblocks_lt; [done|lia]).
  specialize (Hs i _ (lookup_blocks B f i Hi)). cbn in Hs.
  apply get_range_spec in Hs as (_ & Hr & He).
  assert (Hlen : length (block B f i) = B `min` (length f - i * B)) by apply length_block.
  assert (HB : (N.of_nat i * PIECE_PAYLOAD_LEN)%N = N.of_nat (i * B)) by lia.
  apply (f_equal (λ l, l !! (k mod B)%nat)) in He.
  rewrite HB in *. unfold len in *. rewrite lookup_take_lt, lookup_drop in He by lia.
  unfold block in He. rewrite lookup_take_lt, lookup_drop in He by lia.
  replace (i * B + k mod B)%nat with k in He by lia.
  replace (N.to_nat (N.of_nat (i * B)) + k mod B)%nat with k in He by lia. done.
Qed.
End VecSink.

(** ** Ranges *)

Lemma range_NoDup n : NoDup (range n).
Proof. unfold range. apply NoDup_fmap_2; [apply _|apply NoDup_seq]. Qed.

(** ** The invariant *)

Section Inv.
Context `{Env, Sealing} {Snk : Type} `{SinkLaws Snk}.
(** The fetch: its fixed values, its root, what was verified before it
    started and how far the sink reached then. *)
Context (x : Ctx) (r : string) (before : N → bytes → Prop) (e0 : N).
Context (Hlayout : layout_for (l_count (x_layout x)) = Some (x_layout x))
  (Hcount : l_count (x_layout x) = piece_count_for (x_size x)).

Abbreviation count := (l_count (x_layout x)).
Abbreviation per := HASHES_PER_CHUNK.

Definition right_len (i : N) (p : bytes) : Prop := expected_slice_len i count (x_size x) = Some (len p).

(** Slice [i] is [p], as chunk [i / per] says. *)
Definition named (chunks : list (option bytes)) (i : N) (p : bytes) : Prop :=
  ∃ c, chunks !! N.to_nat (i / per) = Some (Some c) ∧ hash_in c i per = Some (sha256 p).

Record slots_ok (chunks : list (option bytes)) (s : Slots (Snk:=Snk)) : Prop := {
  so_verified i : i ∈ s_verified s →
    ∃ p, right_len i p ∧ holds_at (s_sink s) i p ∧ (before i p ∨ named chunks i p);
  so_landed i h : u_landed (s_pending s) !! i = Some h →
    (i ∉ s_verified s) ∧ ∃ p, right_len i p ∧ holds_at (s_sink s) i p ∧ sha256 p = h;
  so_side i l : u_side (s_pending s) !! i = Some l →
    (i ∉ s_verified s) ∧ (i < count)%N ∧ ∀ p, p ∈ l → right_len i p;
  so_extent : (extent (s_sink s) ≤ N.max e0 (x_size x))%N;
}.

(** The chunks are those [top] names; the slices those the chunks name. *)
Record held_ok (top : option TopRecord) (f : Fetch (Snk:=Snk)) : Prop := {
  ho_chunk s c : f_chunks f !! s = Some (Some c) → ∃ t, top = Some t ∧ t_chunk_hashes t !! s = Some (sha256 c);
  ho_slots : slots_ok (f_chunks f) (f_slots f);
  ho_settled i c : (i < count)%N → f_chunks f !! N.to_nat (i / per) = Some (Some c) →
    u_landed (s_pending (f_slots f)) !! i = None ∧ u_side (s_pending (f_slots f)) !! i = None;
  ho_len : length (f_chunks f) = N.to_nat (l_chunks (x_layout x));
}.

Record fetch_ok (f : Fetch (Snk:=Snk)) : Prop := {
  fo_doubt : r_doubt (f_tops f) = false;
  fo_disowned : r_disowned (f_tops f) = ∅;
  fo_top t : r_top (f_tops f) = Some t →
    ∃ b, hex_encode (sha256 b) = r ∧ top_parse b = Ok t ∧ t_count t = count ∧ t_size t = x_size x;
  fo_held : held_ok (r_top (f_tops f)) f;
}.

(** ** Geometry *)

Lemma count_max : (count ≤ MAX_SERIES_PIECES)%N.
Proof. unfold layout_for in Hlayout. destruct (N.ltb_spec MAX_SERIES_PIECES count); [done|lia]. Qed.

Lemma layout_chunks : l_chunks (x_layout x) = chunk_count_for count ∧ l_top (x_layout x) = (count + chunk_count_for count)%N.
Proof.
  unfold layout_for in Hlayout. destruct (MAX_SERIES_PIECES <? count)%N; [done|].
  destruct (_ <=? u32_max)%N; [|done]. injection Hlayout as Hx. by rewrite <-Hx.
Qed.

Lemma count_size : (x_size x ≤ count * PIECE_PAYLOAD_LEN)%N ∧ ∀ k, (x_size x ≤ k * PIECE_PAYLOAD_LEN → count ≤ k)%N.
Proof.
  pose proof count_max as Hm. pose proof payload_pos as Hp. pose proof max_pieces_val.
  rewrite Hcount in *. unfold piece_count_for, u32_try_from in *.
  destruct (N.leb_spec (div_ceil (x_size x) PIECE_PAYLOAD_LEN) u32_max); cbn [default] in *; [|unfold u32_max in *; simpl in Hm; lia].
  split; [by apply div_ceil_le|]. intros k Hk. by apply div_ceil_le.
Qed.

Lemma right_len_spec i p : right_len i p →
  (i < count)%N ∧ (len p ≤ PIECE_PAYLOAD_LEN)%N ∧ (i * PIECE_PAYLOAD_LEN + len p ≤ x_size x)%N ∧ (i ≤ u32_max)%N.
Proof.
  unfold right_len, expected_slice_len. pose proof count_size as [Hs Hk]. pose proof count_max. pose proof max_pieces_val.
  destruct (N.leb_spec count i); [done|]. destruct (N.ltb_spec (i + 1) count) as [Hlt|Hge].
  - intros [= Hl]. rewrite <-Hl. split_and!; [lia|lia| |unfold u32_max; lia].
    destruct (N.le_gt_cases (x_size x) (i * PIECE_PAYLOAD_LEN + PIECE_PAYLOAD_LEN)) as [Hle|]; [|lia].
    specialize (Hk (i + 1)%N ltac:(lia)). lia.
  - destruct (_ <=? u64_max)%N; [|done]. destruct (N.leb_spec ((count - 1) * PIECE_PAYLOAD_LEN) (x_size x)); [|done].
    intros [= Hl]. assert (count = i + 1)%N as Ec by lia. rewrite Ec in *.
    replace (i + 1 - 1)%N with i in * by lia. split_and!; [lia|nia|nia|unfold u32_max; lia].
Qed.

Lemma covered_slot slot i : (slot < chunk_count_for count)%N → i ∈ covered slot count per → (i / per = slot ∧ i < count)%N.
Proof.
  intros Hs Hi. pose proof (chunk_count_small _ count_max) as Hk. pose proof per_val as Hp.
  unfold covered, range, u32_saturating_mul, u32_saturating_add in Hi.
  apply list_elem_of_fmap in Hi as (k & -> & (j & -> & Hj%elem_of_seq)%list_elem_of_fmap).
  rewrite (N.min_l (slot * per)) in * by (unfold u32_max; nia).
  rewrite (N.min_l (slot * per + per)) in * by (unfold u32_max; nia).
  split; [|lia]. symmetry. apply (N.div_unique _ _ _ (N.of_nat j)); lia.
Qed.

Lemma covers_index i : (i < count)%N → i ∈ covered (i / per) count per ∧ (i / per < chunk_count_for count)%N.
Proof.
  intros Hi. pose proof count_max. pose proof max_pieces_val. pose proof per_val as Hp.
  pose proof (N.div_mod i per ltac:(lia)) as Hd. pose proof (N.mod_upper_bound i per ltac:(lia)) as Hm.
  rewrite Hp in Hd, Hm |- *. set (q := (i / 1375)%N) in *. set (m := (i mod 1375)%N) in *. split.
  - unfold covered, range, u32_saturating_mul, u32_saturating_add.
    rewrite (N.min_l (q * 1375)) by (unfold u32_max; lia).
    rewrite (N.min_l (q * 1375 + 1375)) by (unfold u32_max; lia).
    apply list_elem_of_fmap. exists m. split; [lia|].
    apply list_elem_of_fmap. exists (N.to_nat m). split; [lia|]. apply elem_of_seq. lia.
  - apply N.nle_gt. unfold chunk_count_for. rewrite Hp. intros Hle%div_ceil_le; [|lia]. lia.
Qed.

(** ** Slots *)

Lemma named_mono chunks chunks' i p :
  (∀ k c, chunks !! k = Some (Some c) → chunks' !! k = Some (Some c)) → named chunks i p → named chunks' i p.
Proof. intros Hm (c & Hc & Hh). exists c. auto. Qed.

Lemma slots_mono chunks chunks' s :
  (∀ k c, chunks !! k = Some (Some c) → chunks' !! k = Some (Some c)) → slots_ok chunks s → slots_ok chunks' s.
Proof.
  intros Hm [Hv Hl Hs He]. constructor; [|done..]. intros i Hi. destruct (Hv i Hi) as (p & ? & ? & Hb).
  exists p. split_and!; [done..|]. destruct Hb as [?|?]; [by left|right; by eapply named_mono].
Qed.

(** A written slice that nothing waits for. *)
Lemma land_ok chunks s i p s' : slots_ok chunks s → right_len i p → i ∉ s_verified s →
  u_landed (s_pending s) !! i = None → land i p s = Ok s' →
  slots_ok chunks s' ∧ holds_at (s_sink s') i p ∧ s_pending s' = s_pending s ∧ s_verified s' = s_verified s.
Proof.
  intros [Hv Hl Hs He] Hp Hnv Hnl Hland. unfold land in Hland. run_inv Hland. simplify_eq. cbn.
  destruct (right_len_spec _ _ Hp) as (Hi & Hlen & Hend & Hu).
  assert (Hkeep : ∀ j q, j ≠ i → right_len j q → holds_at (s_sink s) j q → holds_at a j q).
  { intros j q Hne Hq Hh. destruct (right_len_spec _ _ Hq) as (_ & Hlq & _ & _).
    eapply put_keeps; [exact Hu|exact Hlen|exact Hlq|exact Hrun|done|done]. }
  split_and!; [|by eapply put_holds|done|done]. constructor; cbn.
  - intros j Hj. destruct (Hv j Hj) as (q & Hq & Hh & Hb). exists q. split_and!; [done| |done]. apply Hkeep; [set_solver|done..].
  - intros j h Hj. destruct (Hl j h Hj) as (Hn & q & Hq & Hh & Hb). split; [done|]. exists q. split_and!; [done| |done].
    apply Hkeep; [by intros ->; rewrite Hnl in Hj|done..].
  - done.
  - pose proof (put_extent _ _ _ _ Hu Hlen Hrun). lia.
Qed.

Lemma mark_ok chunks s i p : slots_ok chunks s → u_landed (s_pending s) !! i = None →
  u_side (s_pending s) !! i = None → right_len i p → holds_at (s_sink s) i p → named chunks i p →
  slots_ok chunks (mark_slice i s).
Proof.
  intros [Hv Hl Hs He] Hnl Hns Hp Hh Hn. constructor; cbn.
  - intros j [->%elem_of_singleton|Hj]%elem_of_union.
    + exists p. split_and!; [done|by apply note_keeps|by right].
    + destruct (Hv j Hj) as (q & ? & ? & ?). exists q. split_and!; [done|by apply note_keeps|done].
  - intros j h Hj. destruct (Hl j h Hj) as (Hnv & q & ? & ? & ?). split.
    + apply not_elem_of_union. split; [|done]. intros ->%elem_of_singleton. by rewrite Hnl in Hj.
    + exists q. split_and!; [done|by apply note_keeps|done].
  - intros j l Hj. destruct (Hs j l Hj) as [Hnv Hr]. split; [|done].
    apply not_elem_of_union. split; [|done]. intros ->%elem_of_singleton. by rewrite Hns in Hj.
  - by rewrite note_extent.
Qed.

Lemma forget_ok chunks s i : slots_ok chunks s →
  slots_ok chunks (with_pending (forget_side i (forget_landed i (s_pending s))) s) ∧
  let u := forget_side i (forget_landed i (s_pending s)) in
  u_landed u = delete i (u_landed (s_pending s)) ∧ u_side u = delete i (u_side (s_pending s)).
Proof.
  intros [Hv Hl Hs He]. set (u := forget_side i (forget_landed i (s_pending s))).
  assert (Hu : u_landed u = delete i (u_landed (s_pending s)) ∧ u_side u = delete i (u_side (s_pending s))).
  { unfold u, forget_side, forget_landed. cbn. destruct (u_side (s_pending s) !! i) eqn:E; [done|].
    split; [done|]. cbn. by rewrite delete_id. }
  split; [|done]. destruct Hu as [E1 E2]. constructor; cbn; [done| | |done].
  - intros j h. rewrite E1. intros [_ Hj]%lookup_delete_Some. by apply Hl.
  - intros j l. rewrite E2. intros [_ Hj]%lookup_delete_Some. by apply Hs.
Qed.

(** A waiting candidate that the chunk names. *)
Lemma settle_side_ok chunks c s i s' : slots_ok chunks s → chunks !! N.to_nat (i / per) = Some (Some c) →
  match find (λ p, bool_decide (Some (sha256 p) = hash_in c i per)) (default [] (u_side (s_pending s) !! i)) with
  | Some payload =>
      let? s := land i payload (with_pending (forget_side i (forget_landed i (s_pending s))) s) in Ok (mark_slice i s)
  | None => Ok (with_pending (forget_side i (forget_landed i (s_pending s))) s)
  end = Ok s' → slots_ok chunks s'.
Proof.
  intros Hok Hc Hr. destruct (forget_ok chunks s i Hok) as [Hf [Ef1 Ef2]].
  set (u := forget_side i (forget_landed i (s_pending s))) in *.
  destruct (find _ _) as [p|] eqn:Ef; [|by apply Ok_inj in Hr as <-].
  apply find_some in Ef as [Hin Hsha%bool_decide_eq_true]. apply list_elem_of_In in Hin.
  destruct (u_side (s_pending s) !! i) as [l|] eqn:Es; [|by apply elem_of_nil in Hin].
  destruct (so_side _ _ Hok i l Es) as (Hnv & _ & Hp). specialize (Hp p Hin). run_inv Hr. subst s'.
  destruct (land_ok chunks (with_pending u s) i p a Hf Hp Hnv) as (Ha & Hh & Hpe & Hve); [|done|].
  - cbn. rewrite Ef1. apply lookup_delete_eq.
  - apply (mark_ok chunks a i p Ha); [| |done..|by exists c]; rewrite Hpe; cbn.
    + rewrite Ef1. apply lookup_delete_eq.
    + rewrite Ef2. apply lookup_delete_eq.
Qed.

(** One index of a chunk that is verified. *)
Lemma settle_one_ok chunks c s i s' : slots_ok chunks s → chunks !! N.to_nat (i / per) = Some (Some c) →
  settle_one c per s i = Ok s' → slots_ok chunks s'.
Proof.
  intros Hok Hc Hr. unfold settle_one in Hr.
  destruct (is_some _ && bool_decide _) eqn:Ew; [|by eapply settle_side_ok].
  apply andb_true_iff in Ew as [Hsome Hw%bool_decide_eq_true].
  destruct (forget_ok chunks s i Hok) as [Hf [Ef1 Ef2]].
  destruct (u_landed (s_pending s) !! i) as [h|] eqn:El; [|done].
  destruct (so_landed _ _ Hok i h El) as (Hnv & p & Hp & Hh & Hsha). apply Ok_inj in Hr as <-.
  apply (mark_ok chunks (with_pending (forget_side i (forget_landed i (s_pending s))) s) i p); try done.
  - cbn [s_pending with_pending]. rewrite Ef1. apply lookup_delete_eq.
  - cbn [s_pending with_pending]. rewrite Ef2. apply lookup_delete_eq.
  - exists c. split; [done|]. by rewrite <-Hw, Hsha.
Qed.

Lemma settle_loop_ok chunks c idx s s' : slots_ok chunks s →
  (∀ i, i ∈ idx → chunks !! N.to_nat (i / per) = Some (Some c)) → settle_loop c per idx s = Ok s' → slots_ok chunks s'.
Proof.
  revert s. induction idx as [|i idx IH]; intros s Hok Hc Hr; cbn [settle_loop] in Hr; [by apply Ok_inj in Hr as <-|].
  run_inv Hr. eapply IH; [|intros j Hj; apply Hc; by right|done].
  eapply settle_one_ok; [done| |done]. apply Hc. by left.
Qed.

(** Settling an index leaves nothing waiting for it. *)
Lemma settle_one_pending c s i s' : settle_one c per s i = Ok s' →
  u_landed (s_pending s') = delete i (u_landed (s_pending s)) ∧ u_side (s_pending s') = delete i (u_side (s_pending s)).
Proof.
  intros Hr. assert (s_pending s' = forget_side i (forget_landed i (s_pending s))) as ->.
  { unfold settle_one, land in Hr. destruct (_ && _); [by apply Ok_inj in Hr as <-|].
    destruct (find _ _); [|by apply Ok_inj in Hr as <-]. run_inv Hr. by subst. }
  unfold forget_side, forget_landed. cbn. destruct (u_side (s_pending s) !! i) eqn:E; [done|].
  split; [done|]. cbn. by rewrite delete_id.
Qed.

Lemma settle_loop_clears c idx s s' i : settle_loop c per idx s = Ok s' →
  i ∈ idx ∨ (u_landed (s_pending s) !! i = None ∧ u_side (s_pending s) !! i = None) →
  u_landed (s_pending s') !! i = None ∧ u_side (s_pending s') !! i = None.
Proof.
  revert s. induction idx as [|j idx IH]; intros s Hr Hi; cbn [settle_loop] in Hr.
  { apply Ok_inj in Hr as <-. destruct Hi as [Hi|Hi]; [by apply elem_of_nil in Hi|done]. }
  run_inv Hr. destruct (settle_one_pending _ _ _ _ Hrun) as [E1 E2]. apply (IH _ Hrun0). rewrite E1, E2.
  destruct (decide (i = j)) as [->|Hne]; [right; by rewrite !lookup_delete_eq|].
  destruct Hi as [[->|Hi]%elem_of_cons|Hi]; [done|by left|right]. by rewrite !lookup_delete_ne by done.
Qed.

(** ** Events *)

Lemma take_chunk_ok top slot c f f' : held_ok top f → (slot < l_chunks (x_layout x))%N →
  (∀ c, f_chunks f !! N.to_nat slot ≠ Some (Some c)) →
  (∃ t, top = Some t ∧ t_chunk_hashes t !! N.to_nat slot = Some (sha256 c)) →
  take_chunk x slot c f = Ok f' → held_ok top f' ∧ f_tops f' = f_tops f.
Proof.
  intros [Hc Hs Hse Hl] Hslot Hnone Htop Hr. unfold take_chunk in Hr. run_inv Hr. subst f'. split; [|done].
  assert (Hlt : (N.to_nat slot < length (f_chunks f))%nat) by lia.
  assert (Hmono : ∀ k d, f_chunks f !! k = Some (Some d) → <[N.to_nat slot:=Some c]> (f_chunks f) !! k = Some (Some d)).
  { intros k d Hk. destruct (decide (k = N.to_nat slot)) as [->|Hne]; [by destruct (Hnone d)|].
    by rewrite list_lookup_insert_ne. }
  constructor; cbn.
  - intros k d. destruct (decide (k = N.to_nat slot)) as [->|Hne].
    + rewrite list_lookup_insert_eq by done. intros [= <-]. done.
    + rewrite list_lookup_insert_ne by done. apply Hc.
  - eapply settle_loop_ok; [by eapply slots_mono| |done]. intros i Hi.
    destruct (covered_slot slot i) as [-> _]; [by rewrite <-(proj1 layout_chunks)|done|]. by rewrite list_lookup_insert_eq.
  - intros i d Hi Hd. eapply settle_loop_clears; [done|]. destruct (decide (i / per = slot)%N) as [<-|Hne].
    + left. by apply covers_index.
    + right. rewrite list_lookup_insert_ne in Hd by lia. by eapply Hse.
  - by rewrite length_insert.
Qed.

Lemma with_cands_ok top c f : held_ok top f → held_ok top (with_cands c f).
Proof. by intros []. Qed.
Lemma with_tops_ok top t f : held_ok top f → held_ok top (with_tops t f).
Proof. by intros []. Qed.

(** While the record was missing no chunk was held. *)
Lemma settle_waiting_ok d record slots f f' : held_ok (Some record) f →
  (∀ s, s ∈ slots → (s < l_chunks (x_layout x))%N ∧ ∀ c, f_chunks f !! N.to_nat s ≠ Some (Some c)) → NoDup slots →
  settle_waiting x d record slots f = Ok f' → held_ok (Some record) f' ∧ f_tops f' = f_tops f.
Proof.
  revert f. induction slots as [|slot slots IH]; intros f Hok Hs Hnd Hr; cbn [settle_waiting] in Hr.
  { by apply Ok_inj in Hr as <-. }
  apply NoDup_cons in Hnd as [Hni Hnd]. destruct (Hs slot ltac:(by left)) as [Hlt Hnone].
  set (f1 := with_cands (cands_take d slot (f_cands f)).1 f) in *. run_inv Hr.
  destruct (find _ _) as [c|] eqn:Ef.
  - apply find_some in Ef as [_ Hsha%bool_decide_eq_true].
    destruct (take_chunk_ok (Some record) slot c f1 a) as [Ha Et]; [by apply with_cands_ok|done|done|by eauto|done|].
    apply IH in Hrun0 as [Hok' Et']; [split; [done|by rewrite Et', Et]|done| |done].
    intros s Hin. destruct (Hs s ltac:(by right)) as [Hsl Hsn]. split; [done|]. intros c'.
    assert (Hne : s ≠ slot) by set_solver. unfold take_chunk in Hrun. run_inv Hrun. subst a. cbn.
    rewrite list_lookup_insert_ne by lia. apply Hsn.
  - apply Ok_inj in Hrun as <-. apply IH in Hrun0 as [Hok' Et']; [by split|by apply with_cands_ok| |done].
    intros s Hin. apply Hs. by right.
Qed.

Lemma held_none record f : held_ok None f → held_ok (Some record) f.
Proof. intros [Hc Hs Hse Hl]. constructor; [|done..]. intros s c Hs'. by destruct (Hc s c Hs') as (t & ? & _). Qed.

(** What arrives keeps the fetch's holdings in order, with a root or without. *)
Abbreviation held_by f := (held_ok (r_top (f_tops f)) f).

Lemma receive_top_held d payload f f' : held_by f → receive_top x d payload f = Ok f' → held_by f'.
Proof.
  intros Hh Hr. unfold receive_top in Hr. destruct (_ || _) in Hr; [by apply Ok_inj in Hr as <-|].
  destruct (top_parse payload) as [record| |]; [|by apply Ok_inj in Hr as <-|done].
  destruct (_ || _) in Hr; [by apply Ok_inj in Hr as <-|].
  destruct (r_top (f_tops f)) as [t|] eqn:Et.
  { apply Ok_inj in Hr as <-. apply with_tops_ok. cbn [f_tops with_tops]. unfold add_rival. destruct (_ || _); cbn; by rewrite Et. }
  run_inv Hr. subst f'.
  destruct (settle_waiting_ok d record (range (l_chunks (x_layout x))) f a) as [Ha _]; [by apply held_none| |apply range_NoDup|done|].
  - intros s Hin%elem_of_range. split; [done|]. intros c Hc. by destruct (ho_chunk _ _ Hh _ _ Hc) as (? & ? & _).
  - by apply with_tops_ok.
Qed.

Lemma receive_chunk_held d slot payload f f' : held_by f → (slot < l_chunks (x_layout x))%N →
  receive_chunk x d slot payload f = Ok f' → held_by f' ∧ f_tops f' = f_tops f.
Proof.
  intros Hh Hslot Hr. unfold receive_chunk in Hr.
  destruct (f_chunks f !! N.to_nat slot) as [[c|]|] eqn:Ec; [by apply Ok_inj in Hr as <-| |].
  - destruct (r_top (f_tops f)) as [record|] eqn:Et.
    + case_bool_decide as Hsha; [|apply Ok_inj in Hr as <-; by rewrite Et].
      destruct (take_chunk_ok (Some record) slot payload f f') as [Hf Etf]; [done|done|by rewrite Ec|by eauto|done|].
      by rewrite Etf, Et.
    + apply Ok_inj in Hr as <-. cbn. rewrite Et. split; [by apply with_cands_ok|done].
  - exfalso. apply lookup_ge_None_1 in Ec. rewrite (ho_len _ _ Hh) in Ec. lia.
Qed.

Lemma offer_side_ok chunks s i p : slots_ok chunks s → right_len i p → i ∉ s_verified s →
  slots_ok chunks (with_pending (offer_side i p (s_pending s)) s).
Proof.
  intros [Hv Hl Hs He] Hp Hnv. unfold offer_side. set (cands := default [] (u_side (s_pending s) !! i)).
  assert (Hcands : ∀ q, q ∈ cands → right_len i q).
  { unfold cands. destruct (u_side (s_pending s) !! i) as [l|] eqn:El; [|set_solver]. by apply (Hs i l). }
  pose proof (proj1 (right_len_spec _ _ Hp)).
  destruct (_ || _); constructor; cbn; try done; intros j l Hj;
    apply lookup_insert_Some in Hj as [[-> <-]|[Hne Hj]]; try (by eapply Hs); split_and!; try done.
  intros q Hq. apply elem_of_app in Hq as [Hq| ->%list_elem_of_singleton]; [by apply Hcands|done].
Qed.

(** A slice whose chunk is not known yet. *)
Lemma receive_early_held i payload f f' : held_by f → i ∉ s_verified (f_slots f) → right_len i payload →
  (∀ c, f_chunks f !! N.to_nat (i / per) ≠ Some (Some c)) →
  match u_landed (s_pending (f_slots f)) !! i with
  | Some landed =>
      if bool_decide (landed = sha256 payload) then Ok f
      else Ok (with_slots (with_pending (offer_side i payload (s_pending (f_slots f))) (f_slots f)) f)
  | None =>
      let? s := land i payload (f_slots f) in
      Ok (with_slots (with_pending {| u_landed := <[i := sha256 payload]> (u_landed (s_pending s));
                                      u_side := u_side (s_pending s); u_bytes := u_bytes (s_pending s) |} s) f)
  end = Ok f' → held_by f' ∧ f_tops f' = f_tops f.
Proof.
  intros Hh0 Hnv Hlen Hnone Hr. pose proof Hh0 as [Hc Hs Hse Hl].
  assert (Hup : ∀ s, slots_ok (f_chunks f) s →
    (∀ j, j ≠ i → u_landed (s_pending s) !! j = u_landed (s_pending (f_slots f)) !! j ∧
                  u_side (s_pending s) !! j = u_side (s_pending (f_slots f)) !! j) → held_by (with_slots s f) ∧ f_tops (with_slots s f) = f_tops f).
  { intros s Hso Hj. split; [|done]. constructor; [done|done| |done]. intros j c Hjc Hcj.
    assert (j ≠ i) by (intros ->; by destruct (Hnone c)). cbn. destruct (Hj j) as [-> ->]; [done|]. by eapply Hse. }
  destruct (u_landed (s_pending (f_slots f)) !! i) as [h|] eqn:El.
  - case_bool_decide; apply Ok_inj in Hr as <-; [done|]. apply Hup; [by apply offer_side_ok|].
    intros j Hne. cbn. unfold offer_side. destruct (_ || _); cbn; by rewrite lookup_insert_ne by done.
  - run_inv Hr. subst f'. destruct (land_ok _ _ _ _ _ Hs Hlen Hnv El Hrun) as (Hs' & Hh & Ep & Ev). apply Hup.
    + destruct Hs' as [Hv' Hl' Hsd' He']. constructor; cbn; [done| |done..].
      intros j h Hj. apply lookup_insert_Some in Hj as [[-> <-]|[Hne Hj]]; [|by apply Hl'].
      split; [by rewrite Ev|by exists payload].
    + intros j Hne. cbn. rewrite lookup_insert_ne by done. by rewrite Ep.
Qed.

Lemma receive_slice_held i payload f f' : held_by f → receive_slice x i payload f = Ok f' → held_by f' ∧ f_tops f' = f_tops f.
Proof.
  intros Hh0 Hr. pose proof Hh0 as [Hc Hs Hse Hl]. unfold receive_slice in Hr.
  case_bool_decide as Hnv; [by apply Ok_inj in Hr as <-|].
  destruct (negb _) eqn:Elen in Hr; [by apply Ok_inj in Hr as <-|]. to_prop.
  destruct (f_chunks f !! N.to_nat (i / per)) as [[c|]|] eqn:Ec.
  - case_bool_decide as Hsha; [|by apply Ok_inj in Hr as <-]. run_inv Hr. subst f'. split; [|done].
    destruct (Hse i c) as [Hnl Hns]; [by apply (right_len_spec i payload)|done|].
    destruct (land_ok _ _ _ _ _ Hs Elen Hnv Hnl Hrun) as (Hs' & Hh & Ep & Ev).
    constructor; [done| | |done]; cbn.
    + apply (mark_ok _ _ _ payload); rewrite ?Ep; try done. by exists c.
    + rewrite Ep. done.
  - eapply receive_early_held; [done|done|done|by rewrite Ec|done].
  - eapply receive_early_held; [done|done|done|by rewrite Ec|done].
Qed.

Lemma receive_piece_held d index claimed payload f f' : held_by f → receive_piece x d index claimed payload f = Ok f' → held_by f'.
Proof.
  intros Hh Hr. unfold receive_piece in Hr. destruct layout_chunks as [Ec Et].
  destruct (_ || _) eqn:Eg in Hr; [by apply Ok_inj in Hr as <-|]. apply orb_false_iff in Eg as [_ Eg]. to_prop.
  destruct (N.eqb_spec index (l_top (x_layout x))); [by eapply receive_top_held|].
  destruct (N.leb_spec count index); [|by eapply receive_slice_held].
  eapply receive_chunk_held; [done| |done]. lia.
Qed.

Lemma receive_held d ev f f' : held_by f → receive x d ev f = Ok f' → held_by f'.
Proof.
  intros Hh Hr. destruct ev as [content|deaf keep]; cbn [receive] in Hr.
  - destruct (open_outer _ _) as [plain| |]; [|by apply Ok_inj in Hr as <-|done].
    destruct (parse_piece plain) as [[[index claimed] payload]| |]; [|by apply Ok_inj in Hr as <-|done].
    by eapply receive_piece_held.
  - destruct (negb (x_resumable x)); [done|]. run_inv Hr. subst f'. by destruct Hh.
Qed.

Context (Hroot : x_root x = Some r).

(** With a root, the record is the root's. *)
Lemma same_tops_ok f f' : fetch_ok f → held_by f' → f_tops f' = f_tops f → fetch_ok f'.
Proof. intros [Hd Hdo Ht _] Hh E. constructor; rewrite ?E; [done|done|done|by rewrite <-E]. Qed.

Lemma receive_top_ok d payload f f' : fetch_ok f → receive_top x d payload f = Ok f' → fetch_ok f'.
Proof.
  intros Hok Hr. pose proof Hok as [Hd Hdo Ht Hh]. pose proof (receive_top_held _ _ _ _ Hh Hr) as Hh'.
  unfold receive_top in Hr. rewrite Hroot in Hr. cbn [is_some] in Hr.
  destruct (_ || _) eqn:Eg in Hr; [by apply Ok_inj in Hr as <-|].
  apply orb_false_iff in Eg as [[Eg1 Eg2]%orb_false_iff _]. rewrite andb_true_r in Eg1. apply negb_false_iff, String.eqb_eq in Eg2.
  destruct (top_parse payload) as [record| |] eqn:Ep; [|by apply Ok_inj in Hr as <-|done].
  destruct (_ || _) eqn:Eg in Hr; [by apply Ok_inj in Hr as <-|]. apply orb_false_iff in Eg as [Ec Es]. to_prop.
  destruct (r_top (f_tops f)) as [t|] eqn:Et; [done|]. run_inv Hr. subst f'.
  destruct (settle_waiting_ok d record (range (l_chunks (x_layout x))) f a) as [_ Eta]; [by apply held_none| |apply range_NoDup|done|].
  - intros s Hin%elem_of_range. split; [done|]. intros c Hc. by destruct (ho_chunk _ _ Hh _ _ Hc) as (? & ? & _).
  - constructor; cbn [f_tops with_tops take_top r_doubt r_top r_disowned]; [by rewrite Eta|by rewrite Eta| |done].
    intros t [= <-]. exists payload. done.
Qed.

Lemma receive_piece_ok d index claimed payload f f' : fetch_ok f → receive_piece x d index claimed payload f = Ok f' → fetch_ok f'.
Proof.
  intros Hok Hr. unfold receive_piece in Hr. destruct layout_chunks as [Ec Et]. pose proof (fo_held _ Hok) as Hh.
  destruct (_ || _) eqn:Eg in Hr; [by apply Ok_inj in Hr as <-|]. apply orb_false_iff in Eg as [_ Eg]. to_prop.
  destruct (N.eqb_spec index (l_top (x_layout x))); [by eapply receive_top_ok|].
  destruct (N.leb_spec count index).
  - destruct (receive_chunk_held d (index - count) payload f f') as [Hh' E]; [done|lia|done|]. by eapply same_tops_ok.
  - destruct (receive_slice_held index payload f f' Hh Hr) as [Hh' E]. by eapply same_tops_ok.
Qed.
End Inv.
