(* ===== verification/FetchProps.v ===== *)
(** * A fetch gives the shared file or nothing

    The theory of [Fetch] for a fetch with a root: whatever arrives, what it
    returns is the file the root was made of, or two byte strings with one
    SHA-256 exist; and one round of the publisher completes it. *)

From S2P Require Import Prelude Bytes Strs Env Chunk FilePlane FilePlaneProps Fetch FetchInv.

Section Rooted.
Context `{Env, Sealing} {Snk : Type} `{SinkLaws Snk}.
Context (x : Ctx) (r : string) (before : N → bytes → Prop) (e0 : N).
Context (Hroot : x_root x = Some r) (Hlayout : layout_for (l_count (x_layout x)) = Some (x_layout x))
  (Hcount : l_count (x_layout x) = piece_count_for (x_size x)).

Abbreviation ok := (fetch_ok (Snk:=Snk) x r before e0).

Lemma receive_ok d ev f f' : ok f → receive x d ev f = Ok f' → ok f'.
Proof.
  intros Hok Hr. destruct ev as [content|deaf keep]; cbn [receive] in Hr.
  - destruct (open_outer _ _) as [plain| |]; [|by apply Ok_inj in Hr as <-|done].
    destruct (parse_piece plain) as [[[index claimed] payload]| |]; [|by apply Ok_inj in Hr as <-|done].
    by eapply receive_piece_ok.
  - destruct (negb (x_resumable x)); [done|]. run_inv Hr. subst f'. by destruct Hok as [? ? ? []].
Qed.

(** With a root the record is never in doubt: a turn returns or receives. *)
Lemma turn_rooted now f : ok f →
  turn x now f = if done x f then TReturn (let? top := ok_or (r_top (f_tops f)) NoTopRecord in
                                           let? m := from_parts top (omap id (f_chunks f)) in
                                           Ok (m, s_sink (f_slots f)))
                 else if expired x now then TReturn (Err BudgetSpent)
                 else TRecv f.
Proof.
  intros Hok. unfold turn, wrong. rewrite Hroot. cbn [is_some negb]. rewrite andb_false_r. cbn [andb negb].
  rewrite andb_true_r. destruct (done x f); [done|]. destruct (expired x _); [done|].
  by rewrite (fo_doubt _ _ _ _ _ Hok).
Qed.

Lemma turns_rooted now f : ok f → turns (turn_fuel f) x now f = turn x now f.
Proof. intros Hok. unfold turn_fuel. cbn [turns plus]. rewrite turn_rooted by done. by destruct (done x f), (expired x now). Qed.

(** What a fetch returns was held by a state that is done. *)
Lemma returned_done evs end_ f m sink : ok f → fetch_loop x evs end_ f = Returned (Ok (m, sink)) →
  ∃ f', ok f' ∧ done x f' = true ∧ sink = s_sink (f_slots f') ∧
        ∃ top, r_top (f_tops f') = Some top ∧ from_parts top (omap id (f_chunks f')) = Ok m.
Proof.
  assert (Hturn : ∀ now f, ok f → turn x now f = TReturn (Ok (m, sink)) →
    ∃ f', ok f' ∧ done x f' = true ∧ sink = s_sink (f_slots f') ∧
          ∃ top, r_top (f_tops f') = Some top ∧ from_parts top (omap id (f_chunks f')) = Ok m).
  { intros now g Hg. rewrite turn_rooted by done. destruct (done x g) eqn:Ed; [|by destruct (expired x _)].
    intros Hr. injection Hr as Hr. run_inv Hr. simplify_eq. exists g. eauto 8. }
  revert f. induction evs as [|[[now d] ev] evs IH]; intros f Hok Hl; cbn [fetch_loop] in Hl; rewrite turns_rooted in Hl by done;
    destruct (turn x _ f) as [res| |g|] eqn:Et; try done.
  - injection Hl as ->. by eapply Hturn.
  - injection Hl as ->. by eapply Hturn.
  - assert (g = f) as ->. { rewrite turn_rooted in Et by done. destruct (done x f); [done|]. by destruct (expired x _); simplify_eq. }
    destruct (receive x d ev f) as [f1| |] eqn:Er; [|done..]. eapply IH; [by eapply receive_ok|done].
Qed.

Lemma fetch_start_ok start sink : extent sink = e0 →
  (∀ i, i ∈ held sink → (i < l_count (x_layout x))%N → ∃ p, right_len x i p ∧ holds_at sink i p ∧ before i p) →
  ok (fetch_start x start sink).
Proof.
  intros He Hh. constructor; cbn; [done|done|done|]. constructor; cbn.
  - intros s c. unfold no_chunks. rewrite lookup_replicate. by intros [? _].
  - constructor; cbn; [|by intros i h; rewrite lookup_empty|by intros i l; rewrite lookup_empty|lia].
    intros i Hi. apply elem_of_list_to_set, list_elem_of_filter in Hi as [Hlt Hin].
    destruct (Hh i Hin Hlt) as (p & ? & ? & ?). exists p. eauto.
  - intros i c _. unfold no_chunks. rewrite lookup_replicate. by intros [? _].
  - apply length_replicate.
Qed.
End Rooted.

(** ** The file behind the root *)

Section Shared.
Context `{Env} (Hw : sha_width) (Hhex : hex_faithful).
Context (F : bytes) (Hfit : fits F).
Abbreviation M := (manifest_of F).

Lemma sha_inj a b : sha256 a = sha256 b → a = b ∨ collision.
Proof. intros E. destruct (decide (a = b)); [by left|right; by exists a, b]. Qed.

Lemma Forall_or {A} (P : A → Prop) (Q : Prop) (l : list A) : (∀ a, a ∈ l → P a ∨ Q) → Forall P l ∨ Q.
Proof.
  induction l as [|a l IH]; intros Hl; [by left|]. destruct (Hl a) as [Ha|]; [by left| |by right].
  destruct IH as [?|]; [intros; apply Hl; by right| |by right]. left. by constructor.
Qed.

(** A record that hashes to the root is the file's. *)
Lemma record_is b t : hex_encode (sha256 b) = root M → top_parse b = Ok t → t = top_of M ∨ collision.
Proof.
  intros Hr Hp. apply Hhex, sha_inj in Hr as [->|]; [|by right]. left.
  rewrite top_parse_bytes in Hp by (done || by apply manifest_of_wf). by apply Ok_inj in Hp as <-.
Qed.

(** A chunk the record names is the file's. *)
Lemma chunk_is s c : t_chunk_hashes (top_of M) !! s = Some (sha256 c) → chunk_list M !! s = Some c ∨ collision.
Proof.
  cbn [top_of t_chunk_hashes]. rewrite list_lookup_fmap. destruct (chunk_list M !! s) as [c'|]; [|done].
  cbn. intros [= He]. apply sha_inj in He as [->|]; [by left|by right].
Qed.

(** The hash a chunk of the file gives for a slice is the slice's. *)
Lemma hash_in_chunk i s c : (N.to_nat (i / HASHES_PER_CHUNK) = s)%nat → chunk_list M !! s = Some c →
  hash_in c i HASHES_PER_CHUNK = sha256 <$> (slices F !! N.to_nat i).
Proof.
  intros <- Hc. unfold chunk_list in Hc. rewrite list_lookup_fmap in Hc.
  destruct (blocks _ _ !! _) as [hs|] eqn:Eb; [|done]. cbn in Hc. injection Hc as <-.
  apply lookup_blocks_Some in Eb as [Hs ->]. set (per := N.to_nat HASHES_PER_CHUNK) in *.
  pose proof per_val as Hper. pose proof (N.div_mod i HASHES_PER_CHUNK ltac:(lia)) as Hdm.
  pose proof (N.mod_upper_bound i HASHES_PER_CHUNK ltac:(lia)) as Hm.
  set (q := (i / HASHES_PER_CHUNK)%N) in *. set (k := (i mod HASHES_PER_CHUNK)%N) in *.
  assert (Hu : ∀ h, h ∈ block per (m_hashes M) (N.to_nat q) → length h = 32%nat).
  { intros h Hh. unfold block in Hh. eapply (mw_hashes M); [by apply manifest_of_wf|].
    apply list_elem_of_lookup in Hh as [j Hj]. apply list_elem_of_lookup.
    rewrite lookup_take_Some, lookup_drop in Hj. destruct Hj. eauto. }
  assert (Hlk : block per (m_hashes M) (N.to_nat q) !! N.to_nat k = sha256 <$> (slices F !! N.to_nat i)).
  { unfold block. rewrite lookup_take_lt, lookup_drop by lia. cbn [m_hashes manifest_of]. rewrite list_lookup_fmap.
    do 2 f_equal. lia. }
  unfold hash_in. fold k. rewrite <-Hlk.
  destruct (block per (m_hashes M) (N.to_nat q) !! N.to_nat k) as [h|] eqn:Eh.
  - apply get_range_spec. pose proof (length_join_uniform 32 _ Hu) as Hlen. pose proof (lookup_lt_Some _ _ _ Eh).
    split_and!; [lia|unfold len; lia|]. pose proof (join_block_lookup 32 _ _ _ Hu Eh) as Hj.
    replace (N.to_nat (k * 32 + 32 - k * 32)) with 32%nat by lia.
    replace (N.to_nat (k * 32)) with (N.to_nat k * 32)%nat by lia. done.
  - unfold get_range. pose proof (length_join_uniform 32 _ Hu) as Hlen. apply lookup_ge_None_1 in Eh.
    destruct (N.leb_spec (k * 32 + 32) (len (mjoin (block per (m_hashes M) (N.to_nat q))))) as [Hle|]; [|by rewrite andb_false_r].
    unfold len in Hle. lia.
Qed.

Lemma slice_len i s : slices F !! N.to_nat i = Some s →
  expected_slice_len i (len (slices F)) (len F) = Some (len s).
Proof.
  intros Hs. unfold slices in Hs. apply lookup_blocks_Some in Hs as [Hi ->]. set (B := N.to_nat PIECE_PAYLOAD_LEN) in *.
  pose proof payload_nat_pos as Hpos. fold B in Hpos.
  assert (Hn : len (slices F) = N.of_nat (nblocks B F)) by (unfold len, slices; by rewrite length_blocks).
  pose proof (length_block B F (N.to_nat i)) as Hl. unfold expected_slice_len. rewrite Hn.
  destruct (N.leb_spec (N.of_nat (nblocks B F)) i); [lia|]. pose proof (proj1 (nblocks_lt B F (N.to_nat i) Hpos) Hi) as Hi2.
  destruct (N.ltb_spec (i + 1) (N.of_nat (nblocks B F))) as [Hlt|Hge].
  - pose proof (proj1 (nblocks_lt B F (S (N.to_nat i)) Hpos) ltac:(lia)). unfold len. rewrite Hl. f_equal. lia.
  - assert (Hni : ¬ (S (N.to_nat i) < nblocks B F)%nat) by lia. rewrite (nblocks_lt B F _ Hpos) in Hni.
    pose proof (fits_size F Hfit). pose proof max_pieces_val. pose proof payload_val.
    replace (N.of_nat (nblocks B F) - 1)%N with i by lia.
    destruct (N.leb_spec (i * PIECE_PAYLOAD_LEN) u64_max); [|unfold u64_max, len in *; lia].
    destruct (N.leb_spec (i * PIECE_PAYLOAD_LEN) (len F)); [|unfold len in *; lia].
    unfold len. rewrite Hl. f_equal. lia.
Qed.
End Shared.

Section Done.
Context `{Env, Sealing} {Snk : Type} `{SinkLaws Snk}.
Context (Hw : sha_width) (Hhex : hex_faithful) (F : bytes) (Hfit : fits F).
Context (x : Ctx) (e0 : N).
Context (Hroot : x_root x = Some (root (manifest_of F))) (Hsize : x_size x = len F)
  (Hlayout : layout_for (l_count (x_layout x)) = Some (x_layout x))
  (Hcount : l_count (x_layout x) = piece_count_for (x_size x)).

(** Slice [i] of the file. *)
Definition slice_of (i : N) (p : bytes) : Prop := slices F !! N.to_nat i = Some p.

Abbreviation ok := (fetch_ok (Snk:=Snk) x (root (manifest_of F)) slice_of e0).

Lemma count_slices : l_count (x_layout x) = len (slices F).
Proof. rewrite Hcount, Hsize. by apply piece_count_fits. Qed.

Lemma slice_right i p : slice_of i p → right_len x i p.
Proof. intros Hs. unfold right_len. rewrite count_slices, Hsize. by apply slice_len. Qed.

Lemma top_known f t : ok f → r_top (f_tops f) = Some t → t = top_of (manifest_of F) ∨ collision.
Proof. intros Hok Ht. destruct (fo_top _ _ _ _ _ Hok t Ht) as (b & Hb & Hp & _). by eapply record_is. Qed.

Lemma chunk_known f s c : ok f → f_chunks f !! s = Some (Some c) → chunk_list (manifest_of F) !! s = Some c ∨ collision.
Proof.
  intros Hok Hc. destruct (ho_chunk _ _ _ _ _ (fo_held _ _ _ _ _ Hok) s c Hc) as (t & Ht & Hs).
  destruct (top_known f t Hok Ht) as [->|]; [|by right]. by apply chunk_is.
Qed.

Lemma slice_known f i : ok f → i ∈ s_verified (f_slots f) →
  (i < len (slices F))%N ∧ ((∃ p, slice_of i p ∧ holds_at (s_sink (f_slots f)) i p) ∨ collision).
Proof.
  intros Hok Hi. destruct (so_verified _ _ _ _ _ (ho_slots _ _ _ _ _ (fo_held _ _ _ _ _ Hok)) i Hi) as (p & Hp & Hh & Hb).
  destruct (right_len_spec x Hlayout Hcount i p Hp) as [Hlt _]. rewrite count_slices in Hlt. split; [done|].
  destruct Hb as [Hb|(c & Hc & Hs)]; [left; by exists p|].
  destruct (chunk_known f _ c Hok Hc) as [Hc'|]; [|by right].
  rewrite (hash_in_chunk Hw F Hfit i _ c eq_refl Hc') in Hs. unfold slice_of.
  destruct (slices F !! N.to_nat i) as [q|]; [|done]. cbn in Hs. injection Hs as Hs.
  apply sha_inj in Hs as [->|]; [|by right]. left. by exists p.
Qed.

(** A fetch that is done holds the file, or there is a collision. *)
Lemma done_holds f : ok f → done x f = true →
  (r_top (f_tops f) = Some (top_of (manifest_of F)) ∧ f_chunks f = Some <$> chunk_list (manifest_of F) ∧
   ∀ i s, slices F !! i = Some s → holds_at (s_sink (f_slots f)) (N.of_nat i) s) ∨ collision.
Proof.
  intros Hok Hd. unfold done in Hd. apply andb_true_iff in Hd as [[Ht Hc]%andb_true_iff Hv]. to_prop.
  destruct (r_top (f_tops f)) as [t|] eqn:Et; [|done]. destruct (top_known f t Hok Et) as [->|]; [|by right].
  rewrite forallb_true in Hc. pose proof (fo_held _ _ _ _ _ Hok) as Hh.
  assert (Hlen : length (f_chunks f) = length (chunk_list (manifest_of F))).
  { rewrite (ho_len _ _ _ _ _ Hh), (proj1 (layout_chunks x Hlayout)), length_chunk_list; [by rewrite count_slices|].
    apply (mw_count _ (manifest_of_wf F Hw Hfit)). }
  assert (Hcs : Forall (λ s, f_chunks f !! s = Some <$> chunk_list (manifest_of F) !! s) (seq 0 (length (f_chunks f))) ∨ collision).
  { apply Forall_or. intros s Hs%elem_of_seq. destruct (lookup_lt_is_Some_2 (f_chunks f) s) as [o Ho]; [lia|].
    pose proof (Hc o (list_elem_of_lookup_2 _ _ _ Ho)) as Hso. destruct o as [c|]; [|done].
    destruct (chunk_known f s c Hok Ho) as [Hk|]; [left; by rewrite Ho, Hk|by right]. }
  assert (Hss : Forall (λ i, ∃ p, slice_of i p ∧ holds_at (s_sink (f_slots f)) i p) (elements (s_verified (f_slots f))) ∨ collision).
  { apply Forall_or. intros i Hi%elem_of_elements. by apply slice_known. }
  destruct Hcs as [Hcs|]; [|by right]. destruct Hss as [Hss|]; [|by right]. left. split_and!; [done| |].
  - apply list_eq. intros s. rewrite list_lookup_fmap. destruct (decide (s < length (f_chunks f))%nat) as [Hs|Hs].
    + rewrite Forall_forall in Hcs. apply Hcs, elem_of_seq. lia.
    + rewrite !lookup_ge_None_2 by lia. done.
  - intros i s Hs. assert (Hin : N.of_nat i ∈ s_verified (f_slots f)).
    { assert (Hsub : s_verified (f_slots f) ⊆ list_to_set (range (len (slices F)))).
      { intros j Hj. rewrite elem_of_list_to_set, elem_of_range. by apply (slice_known f j Hok). }
      assert (Heq : s_verified (f_slots f) = list_to_set (range (len (slices F)))).
      { apply set_subseteq_size_eq; [done|]. etrans; [apply size_list_to_set_le|].
        unfold range. rewrite length_fmap, length_seq, <-count_slices. lia. }
      rewrite Heq, elem_of_list_to_set, elem_of_range. apply lookup_lt_Some in Hs. unfold len. lia. }
    rewrite Forall_forall in Hss. destruct (Hss (N.of_nat i)) as (p & Hp & Hh'); [by apply elem_of_elements|].
    unfold slice_of in Hp. rewrite Nat2N.id, Hs in Hp. by injection Hp as ->.
Qed.
End Done.

(** ** Authenticity *)

Lemma layout_count c l : layout_for c = Some l → l_count l = c.
Proof. unfold layout_for. destruct (_ <? _)%N; [done|]. by destruct (_ <=? u32_max)%N; intros [= <-]. Qed.

(** The context of a fetch for a file by its root. *)
Lemma fetch_ctx_facts `{Env, Sealing} (F key : bytes) (expect : SeriesExpect) (opts : FetchOpts) (start : N) l rt :
  fits F → e_count expect = piece_count_for (e_size expect) → layout_for (e_count expect) = Some l →
  e_size expect = len F → e_root expect = Some rt → to_lowercase rt = root (manifest_of F) →
  let x := fetch_ctx key expect opts start l in
  x_root x = Some (root (manifest_of F)) ∧ x_size x = len F ∧
  layout_for (l_count (x_layout x)) = Some (x_layout x) ∧ l_count (x_layout x) = piece_count_for (x_size x).
Proof.
  intros Hfit Hc Hl Hs Hr Hlow x. pose proof (layout_count _ _ Hl) as El. unfold x, fetch_ctx. cbn.
  rewrite Hr, El. cbn. by rewrite Hlow.
Qed.

(** A fetch by root gives the shared file, in any sink.  Whatever frames arrive, forged
    ones among them, in whatever order, and whatever the disk does: if a fetch
    whose share names the size and root of a file returns a manifest, it is the
    file's, and the sink holds every slice of the file at its place and nothing
    beyond; or two byte strings with one SHA-256 exist.  A resumed fetch relies
    on the slices it verified before. *)
Lemma fetch_holds `{Env, Sealing} {Snk : Type} `{SinkLaws Snk} (F key : bytes) (expect : SeriesExpect)
    (sink sink' : Snk) (opts : FetchOpts) (start end_ : N) (evs : list (N * Disk * Recv)) (m : Manifest) (rt : string) :
  sha_width → hex_faithful → fits F →
  e_size expect = len F → e_root expect = Some rt → to_lowercase rt = root (manifest_of F) →
  (∀ i, i ∈ held sink → (i < len (slices F))%N → ∃ s, slices F !! N.to_nat i = Some s ∧ holds_at sink i s) →
  fetch_series_v2_with key expect sink opts start evs end_ = Returned (Ok (m, sink')) →
  (m = manifest_of F ∧
   (∀ i s, slices F !! i = Some s → holds_at sink' (N.of_nat i) s) ∧
   (extent sink' ≤ N.max (extent sink) (len F))%N) ∨ collision.
Proof.
  intros Hw Hhex Hfit Hs Hr Hlow Hheld Hf. unfold fetch_series_v2_with in Hf.
  destruct (negb _) eqn:Ec in Hf; [done|]. to_prop. destruct (layout_for (e_count expect)) as [l|] eqn:El; [|done].
  destruct (fetch_ctx_facts F key expect opts start l rt) as (Hx1 & Hx2 & Hx3 & Hx4); [done..|].
  set (x := fetch_ctx key expect opts start l) in *.
  assert (Hstart : fetch_ok x (root (manifest_of F)) (slice_of F) (extent sink) (fetch_start x start sink)).
  { apply fetch_start_ok; [done..|]. intros i Hi Hlt. rewrite (count_slices F Hfit x) in Hlt by done.
    destruct (Hheld i Hi Hlt) as (s & Hsl & Hh). exists s. split_and!; [by eapply slice_right|done|done]. }
  destruct (returned_done x _ _ _ Hx1 Hx3 Hx4 _ _ _ _ _ Hstart Hf) as (f & Hok & Hd & -> & top & Ht & Hm).
  destruct (done_holds Hw Hhex F Hfit x _ Hx2 Hx3 Hx4 f Hok Hd) as [(Ht' & Hch & Hsl)|]; [left|by right].
  rewrite Ht' in Ht. injection Ht as <-. split_and!; [|done|].
  - rewrite Hch in Hm. assert (Hom : omap id (Some <$> chunk_list (manifest_of F)) = chunk_list (manifest_of F)).
    { clear. induction (chunk_list (manifest_of F)) as [|c l IH]; [done|]. cbn. by f_equal. }
    rewrite Hom, from_parts_chunks in Hm by (by apply manifest_of_wf). by apply Ok_inj in Hm as <-.
  - rewrite <-Hx2. apply (so_extent _ _ _ _ _ (ho_slots _ _ _ _ _ (fo_held _ _ _ _ _ Hok))).
Qed.

(** C9: a fetch by root gives the shared file or nothing.  Whatever frames
    arrive, forged ones among them, in whatever order and number, and whatever
    the disk does: if a fetch into memory whose share names the size and the
    root of a file returns, its manifest is the file's and its bytes are the
    file, byte for byte; or two byte strings with one SHA-256 exist. *)
Theorem fetch_authentic `{Env, Sealing} (F v key : bytes) (expect : SeriesExpect) (opts : FetchOpts)
    (start end_ : N) (evs : list (N * Disk * Recv)) (m : Manifest) (rt : string) :
  sha_width → hex_faithful → fits F →
  e_size expect = len F → e_root expect = Some rt → to_lowercase rt = root (manifest_of F) →
  fetch_series_v2_with key expect ([] : bytes) opts start evs end_ = Returned (Ok (m, v)) →
  (m = manifest_of F ∧ v = F) ∨ collision.
Proof.
  intros Hw Hhex Hfit Hs Hr Hlow Hf.
  assert (Hnil : ∀ i, i ∈ held ([] : bytes) → (i < len (slices F))%N → ∃ s, slices F !! N.to_nat i = Some s ∧ holds_at ([] : bytes) i s)
    by (by intros i Hi%elem_of_nil).
  destruct (fetch_holds F key expect _ v _ _ _ _ m rt Hw Hhex Hfit Hs Hr Hlow Hnil Hf) as [(Hm & Hsl & He)|]; [|by right].
  left. split; [done|]. apply vec_assembled; [|done]. cbn in He. change (len ([] : bytes)) with 0%N in He. lia.
Qed.
