(* ===== verification/FetchLive.v ===== *)
(** * A fetch completes

    What a fetch with a root has learnt it keeps ([grows]); a piece of the
    file that arrives after the pieces above it is taken ([learns]).  So one
    round of the publisher, which sends the top record, the chunks and the
    slices in this order, completes any fetch, whatever came before it and
    whatever forgeries come in between. *)

From S2P Require Import Prelude Bytes Strs Env Chunk FilePlane FilePlaneProps Fetch FetchInv FetchProps.

(** Writing into the sink succeeds. *)
Definition put_total (Snk : Type) `{PieceSink Snk} : Prop :=
  ∀ (s : Snk) i p, (i ≤ u32_max)%N → is_Some (put s i p).

Lemma vec_put_total `{Env} : put_total bytes.
Proof.
  intros s i p Hi. cbn. unfold vec_put. pose proof payload_val.
  destruct (N.ltb_spec u64_max (i * PIECE_PAYLOAD_LEN)); [unfold u32_max, u64_max in *; lia|eauto].
Qed.

(** Piece [i] of the series of a file: a slice, a chunk of hashes, or the top
    record. *)
Definition series_piece `{Env} (F : bytes) (l : SeriesLayout) (i : N) : bytes :=
  if (i <? l_count l)%N then default [] (slices F !! N.to_nat i)
  else if (i <? l_top l)%N then default [] (chunk_list (manifest_of F) !! N.to_nat (i - l_count l))
  else top_bytes (manifest_of F).

(** The order a publisher sends them in. *)
Definition series_order (l : SeriesLayout) : list N :=
  l_top l :: ((λ s, (l_count l + s)%N) <$> range (l_chunks l)) ++ range (l_count l).

(** What a holder seals opens to the piece. *)
Lemma open_seal_piece `{Sealing} nonce key i c p content : sealing_faithful → length nonce = N.to_nat NONCE_LEN →
  (i ≤ u32_max)%N → (c ≤ u32_max)%N → seal_piece (Some nonce) key i c p = Ok content →
  open_piece key content = Ok (i, c, p).
Proof.
  intros [Ha Hb] Hn Hi Hc Hs. unfold seal_piece, seal_outer in Hs. run_inv Hs. simplify_eq.
  destruct (parse_frame _ _ _ _ Hi Hc Hrun) as [Hl Hp]. unfold open_piece, open_outer. rewrite Hb. cbn [ok_or obind].
  destruct (Ha _ _ _ _ Hrun0) as [Hd Hlen]. rewrite len_app. unfold len at 1. rewrite Hn.
  destruct (N.ltb_spec (N.of_nat (N.to_nat NONCE_LEN) + len a1) (NONCE_LEN + TAG_LEN)); [lia|].
  rewrite <-Hn, take_app_length, drop_app_length. cbn [try_secrets]. rewrite Hd. done.
Qed.

Section Live.
Context `{Env, Sealing} {Snk : Type} `{SinkLaws Snk}.
Context (Hw : sha_width) (Hhex : hex_faithful) (F : bytes) (Hfit : fits F).
Context (x : Ctx) (e0 : N).
Context (Hroot : x_root x = Some (root (manifest_of F))) (Hsize : x_size x = len F)
  (Hlayout : layout_for (l_count (x_layout x)) = Some (x_layout x))
  (Hcount : l_count (x_layout x) = piece_count_for (x_size x)).
Context (Hput : put_total Snk).

Abbreviation M := (manifest_of F).
Abbreviation per := HASHES_PER_CHUNK.
Abbreviation ok := (fetch_ok (Snk:=Snk) x (root M) (slice_of F) e0).

(** ** Nothing is forgotten *)

Record grows (f f' : Fetch (Snk:=Snk)) : Prop := {
  g_top t : r_top (f_tops f) = Some t → r_top (f_tops f') = Some t;
  g_chunk s c : f_chunks f !! s = Some (Some c) → f_chunks f' !! s = Some (Some c);
  g_verified : s_verified (f_slots f) ⊆ s_verified (f_slots f');
}.

Lemma grows_refl f : grows f f.
Proof. by constructor. Qed.

Lemma grows_trans f g h : grows f g → grows g h → grows f h.
Proof. intros [] []. constructor; [eauto..|set_solver]. Qed.

Lemma land_verified i p (s s' : Slots (Snk:=Snk)) : land i p s = Ok s' → s_verified s' = s_verified s.
Proof. unfold land. intros Hr. run_inv Hr. by subst. Qed.

Lemma settle_loop_grows c idx (s s' : Slots (Snk:=Snk)) : settle_loop c per idx s = Ok s' → s_verified s ⊆ s_verified s'.
Proof.
  revert s. induction idx as [|i idx IH]; intros s Hr; cbn [settle_loop] in Hr; [by apply Ok_inj in Hr as <-|].
  run_inv Hr. etrans; [|by apply (IH a)]. unfold settle_one in Hrun. destruct (_ && _).
  - apply Ok_inj in Hrun as <-. cbn. set_solver.
  - destruct (find _ _); [|by apply Ok_inj in Hrun as <-]. run_inv Hrun. subst a.
    apply land_verified in Hrun1. cbn in *. rewrite Hrun1. set_solver.
Qed.

Lemma take_chunk_grows slot c f f' : (∀ c, f_chunks f !! N.to_nat slot ≠ Some (Some c)) →
  take_chunk x slot c f = Ok f' → grows f f' ∧ f_tops f' = f_tops f.
Proof.
  intros Hnone Hr. unfold take_chunk, settle in Hr. run_inv Hr. subst f'. split; [|done]. constructor; cbn; [done| |].
  - intros s d Hs. rewrite list_lookup_insert_ne; [done|]. intros <-. by destruct (Hnone d).
  - by eapply settle_loop_grows.
Qed.

Lemma settle_waiting_grows d record slots f f' :
  (∀ s, s ∈ slots → ∀ c, f_chunks f !! N.to_nat s ≠ Some (Some c)) → NoDup slots →
  settle_waiting x d record slots f = Ok f' → grows f f' ∧ f_tops f' = f_tops f.
Proof.
  revert f. induction slots as [|slot slots IH]; intros f Hs Hnd Hr; cbn [settle_waiting] in Hr.
  { apply Ok_inj in Hr as <-. split; [apply grows_refl|done]. }
  apply NoDup_cons in Hnd as [Hni Hnd]. run_inv Hr.
  set (f1 := with_cands (cands_take d slot (f_cands f)).1 f) in *. assert (Hf1 : grows f f1) by (by constructor).
  destruct (find _ _) as [c|].
  - destruct (take_chunk_grows slot c f1 a) as [Hg Et]; [apply Hs; by left|done|].
    destruct (IH a) as [Hg' Et']; [|done|done|split; [by eapply grows_trans, grows_trans|by rewrite Et', Et]].
    intros s Hin c'. unfold take_chunk in Hrun. run_inv Hrun. subst a. cbn.
    rewrite list_lookup_insert_ne; [apply Hs; by right|]. assert (s ≠ slot) by set_solver. lia.
  - apply Ok_inj in Hrun as <-. destruct (IH f1) as [Hg' Et']; [|done|done|split; [by eapply grows_trans|by rewrite Et']].
    intros s Hin. apply Hs. by right.
Qed.

Lemma receive_piece_grows d index claimed payload f f' : ok f →
  receive_piece x d index claimed payload f = Ok f' → grows f f'.
Proof.
  intros Hok Hr. pose proof Hok as [Hd Hdo Ht Hh]. unfold receive_piece in Hr.
  destruct (_ || _) in Hr; [apply Ok_inj in Hr as <-; apply grows_refl|].
  destruct (_ =? _)%N in Hr; [|destruct (_ <=? _)%N in Hr].
  - unfold receive_top in Hr. rewrite Hroot in Hr. cbn [is_some] in Hr.
    destruct (_ || _) eqn:Eg in Hr; [apply Ok_inj in Hr as <-; apply grows_refl|].
    destruct (top_parse payload) as [record| |]; [|apply Ok_inj in Hr as <-; apply grows_refl|done].
    destruct (_ || _) in Hr; [apply Ok_inj in Hr as <-; apply grows_refl|].
    destruct (r_top (f_tops f)) as [t|] eqn:Et; [done|]. run_inv Hr. subst f'.
    destruct (settle_waiting_grows d record (range (l_chunks (x_layout x))) f a) as [[Gt Gc Gv] _]; [|apply range_NoDup|done|].
    + intros s _ c Hc. by destruct (ho_chunk _ _ _ _ _ Hh _ _ Hc) as (? & ? & _).
    + constructor; cbn; [by rewrite Et|done|done].
  - unfold receive_chunk in Hr. destruct (f_chunks f !! N.to_nat (index - l_count (x_layout x))) as [[c|]|] eqn:Ec;
      [apply Ok_inj in Hr as <-; apply grows_refl| |].
    all: destruct (r_top (f_tops f)) as [record|]; [|apply Ok_inj in Hr as <-; by constructor].
    all: case_bool_decide; [|apply Ok_inj in Hr as <-; apply grows_refl].
    all: eapply take_chunk_grows; [|done]; intros c; by rewrite Ec.
  - unfold receive_slice in Hr. case_bool_decide; [apply Ok_inj in Hr as <-; apply grows_refl|].
    destruct (negb _) in Hr; [apply Ok_inj in Hr as <-; apply grows_refl|].
    repeat case_match; try (run_inv Hr; simplify_eq; apply grows_refl).
    all: run_inv Hr; simplify_eq; constructor; cbn; try done.
    all: apply land_verified in Hrun; rewrite Hrun; set_solver.
Qed.

Lemma receive_grows d ev f f' : ok f → receive x d ev f = Ok f' → grows f f'.
Proof.
  intros Hok Hr. destruct ev as [content|deaf keep]; cbn [receive] in Hr.
  - destruct (open_outer _ _) as [plain| |]; [|apply Ok_inj in Hr as <-; apply grows_refl|done].
    destruct (parse_piece plain) as [[[index claimed] payload]| |]; [|apply Ok_inj in Hr as <-; apply grows_refl|done].
    by eapply receive_piece_grows.
  - destruct (negb (x_resumable x)); [done|]. run_inv Hr. subst f'. by constructor.
Qed.

(** ** No event ends it *)

(** A frame, or a quiet slice after which the caller waits on. *)
Definition goes_on (ev : Recv) : Prop :=
  match ev with Frame _ => True | Quiet _ keep => x_resumable x = true ∧ keep = true end.

Lemma land_total i p (s : Slots (Snk:=Snk)) : (i ≤ u32_max)%N → ∃ s', land i p s = Ok s'.
Proof. intros Hi. unfold land. destruct (Hput (s_sink s) i p Hi) as [k ->]. cbn. eauto. Qed.

Lemma settle_loop_total c idx (s : Slots (Snk:=Snk)) : (∀ i, i ∈ idx → (i ≤ u32_max)%N) → ∃ s', settle_loop c per idx s = Ok s'.
Proof.
  revert s. induction idx as [|i idx IH]; intros s Hi; cbn [settle_loop]; [eauto|].
  assert (∃ s1, settle_one c per s i = Ok s1) as [s1 ->].
  { unfold settle_one. destruct (_ && _); [eauto|]. destruct (find _ _) as [p|]; [|eauto].
    destruct (land_total i p (with_pending (forget_side i (forget_landed i (s_pending s))) s)) as [s1 ->]; [apply Hi; by left|].
    cbn. eauto. }
  cbn [obind]. apply IH. intros j Hj. apply Hi. by right.
Qed.

Lemma count_u32 i : (i < l_count (x_layout x))%N → (i ≤ u32_max)%N.
Proof. pose proof (count_max x Hlayout). pose proof max_pieces_val. unfold u32_max. lia. Qed.

Lemma take_chunk_total slot c f : (slot < l_chunks (x_layout x))%N → ∃ f', take_chunk x slot c f = Ok f'.
Proof.
  intros Hs. unfold take_chunk, settle.
  destruct (settle_loop_total c (covered slot (l_count (x_layout x)) per) (f_slots f)) as [s' ->]; [|cbn; eauto].
  intros i Hi. apply count_u32. rewrite (proj1 (layout_chunks x Hlayout)) in Hs. by eapply covered_slot.
Qed.

Lemma settle_waiting_total d record slots f : (∀ s, s ∈ slots → (s < l_chunks (x_layout x))%N) →
  ∃ f', settle_waiting x d record slots f = Ok f'.
Proof.
  revert f. induction slots as [|slot slots IH]; intros f Hs; cbn [settle_waiting]; [eauto|].
  assert (Hrest : ∀ s, s ∈ slots → (s < l_chunks (x_layout x))%N) by (intros s Hin; apply Hs; by right).
  destruct (find _ _) as [c|]; cbn [obind]; [|by apply IH].
  destruct (take_chunk_total slot c (with_cands (cands_take d slot (f_cands f)).1 f)) as [f1 ->]; [apply Hs; by left|].
  cbn [obind]. by apply IH.
Qed.

Lemma top_parse_total b : top_parse b ≠ Panic.
Proof.
  unfold top_parse. destruct (_ || _) eqn:Eg; [done|]. apply orb_false_iff in Eg as [Eg _]. to_prop.
  unfold MANIFEST_HEADER_LEN in Eg. unfold slice.
  rewrite (proj2 (N.leb_le 4 (len b))) by lia. rewrite (proj2 (N.leb_le 12 (len b))) by lia. cbn.
  by destruct (_ || _).
Qed.

Lemma open_outer_total secrets content : open_outer secrets content ≠ Panic.
Proof.
  unfold open_outer. destruct (base64_decode content) as [raw|]; [|done]. cbn. destruct (_ <? _)%N; [done|].
  generalize (take (N.to_nat NONCE_LEN) raw), (drop (N.to_nat NONCE_LEN) raw).
  induction secrets as [|k ks IH]; intros n s; cbn; [done|]. destruct (aead_decrypt k n s); [done|apply IH].
Qed.

Lemma receive_piece_total d index claimed payload f : ok f → ∃ f', receive_piece x d index claimed payload f = Ok f'.
Proof.
  intros Hok. unfold receive_piece. destruct (layout_chunks x Hlayout) as [Ec Et].
  destruct (_ || _) eqn:Eg; [eauto|]. apply orb_false_iff in Eg as [_ Eg]. to_prop.
  destruct (N.eqb_spec index (l_top (x_layout x))); [|destruct (N.leb_spec (l_count (x_layout x)) index)].
  - unfold receive_top. destruct (_ || _); [eauto|].
    destruct (top_parse payload) as [record| |] eqn:Ep; [|eauto|by destruct (top_parse_total payload)].
    destruct (_ || _); [eauto|]. destruct (r_top (f_tops f)); [eauto|].
    destruct (settle_waiting_total d record (range (l_chunks (x_layout x))) f) as [f1 ->]; [|cbn; eauto].
    intros s Hs. by apply elem_of_range in Hs.
  - unfold receive_chunk. assert (index - l_count (x_layout x) < l_chunks (x_layout x))%N by lia.
    repeat case_match; eauto using take_chunk_total.
  - unfold receive_slice. case_bool_decide; [eauto|]. destruct (negb _); [eauto|].
    destruct (land_total index payload (f_slots f)) as [s' Hs']; [by apply count_u32|]. rewrite Hs'. cbn [obind].
    repeat case_match; eauto.
Qed.

Lemma receive_total d ev f : ok f → goes_on ev → ∃ f', receive x d ev f = Ok f'.
Proof.
  intros Hok Hev. destruct ev as [content|deaf keep]; cbn [receive].
  - destruct (open_outer _ _) as [plain| |] eqn:Eo; [|eauto|by destruct (open_outer_total [x_outer x] content)].
    destruct (parse_piece plain) as [[[index claimed] payload]| |] eqn:Ep; [by apply receive_piece_total|eauto|].
    by destruct (parse_piece_total plain).
  - destruct Hev as [-> ->]. cbn. eauto.
Qed.

(** ** A piece of the file is taken *)

Abbreviation piece_payload := (series_piece F (x_layout x)).

(** The fetch has piece [i]. *)
Definition knows (f : Fetch (Snk:=Snk)) (i : N) : Prop :=
  if (i <? l_count (x_layout x))%N then i ∈ s_verified (f_slots f)
  else if (i <? l_top (x_layout x))%N then ∃ c, f_chunks f !! N.to_nat (i - l_count (x_layout x)) = Some (Some c)
  else is_Some (r_top (f_tops f)).

(** The pieces above piece [i]. *)
Definition above (i : N) : list N :=
  if (i <? l_count (x_layout x))%N then [(l_count (x_layout x) + i / per)%N]
  else if (i <? l_top (x_layout x))%N then [l_top (x_layout x)] else [].

Lemma grows_knows f f' i : grows f f' → knows f i → knows f' i.
Proof.
  intros [Gt Gc Gv]. unfold knows. destruct (_ <? _)%N; [apply Gv|]. destruct (_ <? _)%N.
  - intros [c Hc]. eauto.
  - intros [t Ht]. rewrite (Gt t Ht). eauto.
Qed.

Lemma series_shape : l_count (x_layout x) = len (slices F) ∧ l_chunks (x_layout x) = len (chunk_list M) ∧
  l_top (x_layout x) = (l_count (x_layout x) + l_chunks (x_layout x))%N.
Proof.
  destruct (layout_chunks x Hlayout) as [Ec Et]. pose proof (count_slices F Hfit x Hsize Hcount) as Es. split_and!; [done| |lia].
  rewrite Ec. unfold len. rewrite length_chunk_list by (apply (mw_count _ (manifest_of_wf F Hw Hfit))).
  cbn [m_count manifest_of]. rewrite <-Es. lia.
Qed.

Lemma learns_top d f f' : ok f → receive_top x d (top_bytes M) f = Ok f' → is_Some (r_top (f_tops f')).
Proof.
  intros Hok Hr. pose proof Hok as [Hd Hdo Ht Hh]. unfold receive_top in Hr. rewrite Hroot in Hr. cbn [is_some] in Hr.
  destruct (r_top (f_tops f)) as [t|] eqn:Et; [cbn in Hr; apply Ok_inj in Hr as <-; rewrite Et; eauto|].
  cbn [is_some andb orb] in Hr. unfold root in Hr at 1. rewrite String.eqb_refl, Hdo in Hr.
  rewrite bool_decide_eq_false_2 in Hr by apply not_elem_of_empty. cbn [negb orb] in Hr.
  rewrite top_parse_bytes in Hr by (done || by apply manifest_of_wf). cbn [t_count t_size top_of m_count m_size manifest_of] in Hr.
  rewrite <-(proj1 series_shape), Hsize, !N.eqb_refl in Hr. cbn [negb orb] in Hr. run_inv Hr. subst f'. cbn. eauto.
Qed.

Lemma learns_chunk d slot f f' : ok f → (slot < l_chunks (x_layout x))%N → is_Some (r_top (f_tops f)) →
  receive_chunk x d slot (default [] (chunk_list M !! N.to_nat slot)) f = Ok f' →
  (∃ c, f_chunks f' !! N.to_nat slot = Some (Some c)) ∨ collision.
Proof.
  intros Hok Hs [t Ht] Hr. unfold receive_chunk in Hr. rewrite Ht in Hr.
  destruct (lookup_lt_is_Some_2 (f_chunks f) (N.to_nat slot)) as [o Ho].
  { rewrite (ho_len _ _ _ _ _ (fo_held _ _ _ _ _ Hok)). lia. }
  rewrite Ho in Hr. destruct o as [c|]; [apply Ok_inj in Hr as <-; eauto|].
  destruct (top_known Hw Hhex F Hfit x _ f t Hok Ht) as [->|]; [|by right]. left.
  destruct (lookup_lt_is_Some_2 (chunk_list M) (N.to_nat slot)) as [c Hc].
  { destruct series_shape as (_ & Ec & _). rewrite Ec in Hs. unfold len in Hs. lia. }
  rewrite Hc in Hr. cbn [default] in Hr. rewrite bool_decide_eq_true_2 in Hr
    by (cbn [top_of t_chunk_hashes]; by rewrite list_lookup_fmap, Hc).
  unfold take_chunk in Hr. run_inv Hr. subst f'. exists c. cbn. apply list_lookup_insert_eq. by eapply lookup_lt_Some.
Qed.

Lemma learns_slice i f f' : ok f → (i < l_count (x_layout x))%N →
  (∃ c, f_chunks f !! N.to_nat (i / per) = Some (Some c)) →
  receive_slice x i (default [] (slices F !! N.to_nat i)) f = Ok f' → i ∈ s_verified (f_slots f') ∨ collision.
Proof.
  intros Hok Hi (c & Hc) Hr. unfold receive_slice in Hr. case_bool_decide as Hv; [apply Ok_inj in Hr as <-; by left|].
  destruct (lookup_lt_is_Some_2 (slices F) (N.to_nat i)) as [p Hp].
  { rewrite (proj1 series_shape) in Hi. unfold len in Hi. lia. }
  destruct (chunk_known Hw Hhex F Hfit x _ f _ c Hok Hc) as [Hc'|]; [|by right]. left.
  rewrite Hp, Hc in Hr. cbn [default] in Hr. rewrite (bool_decide_eq_true_2 (expected_slice_len _ _ _ = _)) in Hr
    by (rewrite Hsize, (proj1 series_shape); by apply slice_len).
  cbn [negb] in Hr. rewrite bool_decide_eq_true_2 in Hr by (by rewrite (hash_in_chunk Hw F Hfit i _ c eq_refl Hc'), Hp).
  run_inv Hr. subst f'. cbn. set_solver.
Qed.

(** A piece that comes after those above it is known, or there is a collision. *)
Lemma learns d i f f' : ok f → (i ≤ l_top (x_layout x))%N → (∀ j, j ∈ above i → knows f j) →
  receive_piece x d i (l_count (x_layout x)) (piece_payload i) f = Ok f' → knows f' i ∨ collision.
Proof.
  intros Hok Hi Habove Hr. destruct series_shape as (_ & _ & Et).
  unfold receive_piece in Hr. rewrite N.eqb_refl in Hr. cbn [negb orb] in Hr.
  destruct (N.ltb_spec (l_top (x_layout x)) i); [lia|]. unfold knows, above, series_piece in *.
  destruct (N.ltb_spec i (l_count (x_layout x))) as [Hlt|Hge].
  - destruct (N.eqb_spec i (l_top (x_layout x))); [lia|]. destruct (N.leb_spec (l_count (x_layout x)) i); [lia|].
    eapply learns_slice; [done|done| |done]. specialize (Habove _ ltac:(by left)). revert Habove.
    pose proof (proj2 (covers_index x Hlayout Hcount i Hlt)) as Hs. rewrite <-(proj1 (layout_chunks x Hlayout)) in Hs.
    generalize dependent (i / per)%N. intros q Hs.
    destruct (N.ltb_spec (l_count (x_layout x) + q) (l_count (x_layout x))); [lia|].
    destruct (N.ltb_spec (l_count (x_layout x) + q) (l_top (x_layout x))); [|lia].
    by replace (l_count (x_layout x) + q - l_count (x_layout x))%N with q by lia.
  - destruct (N.ltb_spec i (l_top (x_layout x))) as [Hlt|Hge'].
    + destruct (N.eqb_spec i (l_top (x_layout x))); [lia|]. destruct (N.leb_spec (l_count (x_layout x)) i); [|lia].
      eapply learns_chunk; [done|lia| |done]. specialize (Habove _ ltac:(by left)). revert Habove.
      destruct (N.ltb_spec (l_top (x_layout x)) (l_count (x_layout x))); [lia|].
      by destruct (N.ltb_spec (l_top (x_layout x)) (l_top (x_layout x))); [lia|].
    + destruct (N.eqb_spec i (l_top (x_layout x))); [|lia]. left. by eapply learns_top.
Qed.

(** ** Completion *)

Lemma knows_all_done f : ok f → (∀ i, (i ≤ l_top (x_layout x))%N → knows f i) → done x f = true.
Proof.
  intros Hok Hk. destruct series_shape as (Es & _ & Et). unfold done. rewrite !andb_true_iff. split_and!.
  - specialize (Hk (l_top (x_layout x)) ltac:(lia)). revert Hk. unfold knows.
    destruct (N.ltb_spec (l_top (x_layout x)) (l_count (x_layout x))); [lia|].
    destruct (N.ltb_spec (l_top (x_layout x)) (l_top (x_layout x))); [lia|]. by intros [t ->].
  - apply forallb_true. intros o Ho. apply list_elem_of_lookup in Ho as [s Hs].
    pose proof (lookup_lt_Some _ _ _ Hs) as Hl. rewrite (ho_len _ _ _ _ _ (fo_held _ _ _ _ _ Hok)) in Hl.
    specialize (Hk (l_count (x_layout x) + N.of_nat s)%N ltac:(lia)). revert Hk. unfold knows.
    destruct (N.ltb_spec (l_count (x_layout x) + N.of_nat s) (l_count (x_layout x))); [lia|].
    destruct (N.ltb_spec (l_count (x_layout x) + N.of_nat s) (l_top (x_layout x))); [|lia].
    replace (N.to_nat (l_count (x_layout x) + N.of_nat s - l_count (x_layout x))) with s by lia.
    intros [c Hc]. rewrite Hs in Hc. by injection Hc as ->.
  - apply N.eqb_eq. assert (Heq : s_verified (f_slots f) = list_to_set (range (l_count (x_layout x)))).
    { apply set_eq. intros i. rewrite elem_of_list_to_set, elem_of_range. split.
      - intros Hi. rewrite Es. by apply (slice_known Hw Hhex F Hfit x _ Hsize Hlayout Hcount f i Hok).
      - intros Hi. specialize (Hk i ltac:(lia)). revert Hk. unfold knows. by destruct (N.ltb_spec i (l_count (x_layout x))); [|lia]. }
    rewrite Heq, size_list_to_set by apply range_NoDup. unfold range. rewrite length_fmap, length_seq. lia.
Qed.

(** A fetch that is done returns its manifest and its sink. *)
Lemma done_returns now f : ok f → done x f = true →
  turn x now f = TReturn (Ok (M, s_sink (f_slots f))) ∨ collision.
Proof.
  intros Hok Hd. rewrite (turn_rooted x _ _ _ Hroot) by done. rewrite Hd.
  destruct (done_holds Hw Hhex F Hfit x _ Hsize Hlayout Hcount f Hok Hd) as [(Ht & Hch & _)|]; [left|by right].
  rewrite Ht, Hch. cbn [ok_or obind].
  assert (Hom : omap id (Some <$> chunk_list M) = chunk_list M).
  { clear. induction (chunk_list M) as [|c l IH]; [done|]. cbn. by f_equal. }
  by rewrite Hom, from_parts_chunks by (by apply manifest_of_wf).
Qed.

(** Content that opens to piece [i] of the series. *)
Definition honest (i : N) (content : string) : Prop :=
  ∃ b, open_outer [x_outer x] content = Ok b ∧ parse_piece b = Ok (i, l_count (x_layout x), piece_payload i).

(** Every piece after those above it, as [todo] follows [pre]. *)
Definition in_turn (pre todo : list N) : Prop :=
  ∀ l1 i l2, todo = l1 ++ i :: l2 → ∀ j, j ∈ above i → j ∈ pre ++ l1.

Lemma in_order_next pre i todo : in_turn pre (i :: todo) → in_turn (pre ++ [i]) todo.
Proof. intros Ho l1 j l2 -> k Hk. specialize (Ho (i :: l1) j l2 eq_refl k Hk). by rewrite <-app_assoc. Qed.

Lemma loop_completes evs end_ f pre todo contents : ok f →
  (∀ e, e ∈ evs → expired x e.1.1 = false ∧ goes_on e.2) → expired x end_ = false →
  Forall2 honest todo contents → sublist (Frame <$> contents) (snd <$> evs) →
  (∀ i, i ∈ pre → knows f i) → in_turn pre todo → (∀ i, i ∈ todo → (i ≤ l_top (x_layout x))%N) →
  (∀ i, (i ≤ l_top (x_layout x))%N → i ∈ pre ++ todo) →
  (∃ sink, fetch_loop x evs end_ f = Returned (Ok (M, sink))) ∨ collision.
Proof.
  revert f pre todo contents. induction evs as [|[[now d] ev] evs IH]; intros f pre todo contents Hok Hevs Hend Hh Hsub Hpre Ho Hle Hall;
    cbn [fetch_loop]; rewrite (turns_rooted x _ _ _ Hroot) by done.
  - apply sublist_nil_r in Hsub. apply fmap_nil_inv in Hsub as ->. apply Forall2_nil_inv_r in Hh as ->.
    assert (Hd : done x f = true) by (apply knows_all_done; [done|]; intros i Hi; apply Hpre; specialize (Hall i Hi); by rewrite app_nil_r in Hall).
    destruct (done_returns end_ f Hok Hd) as [->|]; [left; eauto|by right].
  - destruct (done x f) eqn:Ed; [destruct (done_returns now f Hok Ed) as [->|]; [left; eauto|by right]|].
    destruct (Hevs (now, d, ev) ltac:(by left)) as [Hne Hgo]. cbn in Hne, Hgo.
    rewrite (turn_rooted x _ _ _ Hroot), Ed, Hne by done.
    destruct (receive_total d ev f Hok Hgo) as [f' Hr]. rewrite Hr.
    assert (Hok' : ok f') by (by eapply receive_ok).
    assert (Hk' : ∀ i, i ∈ pre → knows f' i) by (intros i Hi; eapply (grows_knows f f' i); [exact (receive_grows d ev f f' Hok Hr)|by apply Hpre]).
    assert (Hevs' : ∀ e, e ∈ evs → expired x e.1.1 = false ∧ goes_on e.2) by (intros e He; apply Hevs; by right).
    rewrite fmap_cons in Hsub. cbn [snd] in Hsub. apply sublist_cons_r in Hsub as [Hsub|(k & Hk & Hsub)]; [by eapply IH|].
    destruct contents as [|c contents]; [done|]. rewrite fmap_cons in Hk. injection Hk as <- <-.
    apply Forall2_cons_inv_r in Hh as (i & todo' & (b & Hopen & Hparse) & Hh & ->).
    cbn [receive] in Hr. rewrite Hopen, Hparse in Hr.
    destruct (learns d i f f' Hok) as [Hki|]; [apply Hle; by left| |done| |by right].
    { intros j Hj. apply Hpre. specialize (Ho [] i todo' eq_refl j Hj). by rewrite app_nil_r in Ho. }
    apply (IH f' (pre ++ [i]) todo' contents); try done.
    + intros j [Hj| ->%list_elem_of_singleton]%elem_of_app; [by apply Hk'|done].
    + by apply in_order_next.
    + intros j Hj. apply Hle. by right.
    + intros j Hj. rewrite <-app_assoc. by apply Hall.
Qed.

Lemma series_order_elem i : (i ≤ l_top (x_layout x))%N ↔ i ∈ series_order (x_layout x).
Proof.
  destruct series_shape as (_ & _ & Et). unfold series_order. rewrite elem_of_cons, elem_of_app, list_elem_of_fmap.
  setoid_rewrite elem_of_range. split.
  - intros Hi. destruct (decide (i = l_top (x_layout x))); [by left|right].
    destruct (decide (i < l_count (x_layout x))%N); [by right|left]. exists (i - l_count (x_layout x))%N. lia.
  - intros [->|[(s & -> & Hs)|Hi]]; lia.
Qed.

Lemma series_in_order : in_turn [] (series_order (x_layout x)).
Proof.
  destruct series_shape as (_ & _ & Et). intros l1 i l2 Hl j Hj. cbn [app].
  unfold series_order in Hl. unfold above in Hj.
  destruct l1 as [|a l1]; [injection Hl as Hi _; subst i|injection Hl as <- Hl].
  { destruct (N.ltb_spec (l_top (x_layout x)) (l_count (x_layout x))); [lia|].
    destruct (N.ltb_spec (l_top (x_layout x)) (l_top (x_layout x))); [lia|]. by apply elem_of_nil in Hj. }
  destruct (N.ltb_spec i (l_count (x_layout x))) as [Hi|Hi].
  - apply list_elem_of_singleton in Hj as ->. right.
    pose proof (proj2 (covers_index x Hlayout Hcount i Hi)) as Hs. rewrite <-(proj1 (layout_chunks x Hlayout)) in Hs.
    generalize dependent (i / per)%N. intros q Hs.
    assert (Hq : (l_count (x_layout x) + q)%N ∈ (λ s, (l_count (x_layout x) + s)%N) <$> range (l_chunks (x_layout x))).
    { apply list_elem_of_fmap. exists q. by rewrite elem_of_range. }
    apply app_eq_inv in Hl as [([|b k] & Hk & Hl)|(k & -> & Hl)].
    + rewrite app_nil_r in Hk. by rewrite <-Hk.
    + injection Hl as <- _. assert (Hin : i ∈ (λ s, (l_count (x_layout x) + s)%N) <$> range (l_chunks (x_layout x))).
      { rewrite Hk. apply elem_of_app. right. by left. }
      apply list_elem_of_fmap in Hin as (s & -> & _). lia.
    + apply elem_of_app. by left.
  - destruct (N.ltb_spec i (l_top (x_layout x))); [|by apply elem_of_nil in Hj]. apply list_elem_of_singleton in Hj as ->. by left.
Qed.
End Live.

(** A fetch that sees the pieces in the publisher's order completes. *)
Lemma fetch_completes `{Env, Sealing} {Snk : Type} `{SinkLaws Snk} (F key : bytes) (expect : SeriesExpect)
    (sink : Snk) (opts : FetchOpts) (start end_ : N) (evs : list (N * Disk * Recv)) (rt : string) (l : SeriesLayout)
    (contents : list string) :
  sha_width → hex_faithful → fits F → put_total Snk →
  e_size expect = len F → e_count expect = len (slices F) → e_root expect = Some rt → to_lowercase rt = root (manifest_of F) →
  (∀ i, i ∈ held sink → (i < len (slices F))%N → ∃ s, slices F !! N.to_nat i = Some s ∧ holds_at sink i s) →
  layout_for (len (slices F)) = Some l →
  let x := fetch_ctx key expect opts start l in
  (∀ e, e ∈ evs → expired x e.1.1 = false ∧ goes_on x e.2) → expired x end_ = false →
  Forall2 (λ i c, open_piece key c = Ok (i, len (slices F), series_piece F l i)) (series_order l) contents →
  sublist (Frame <$> contents) (snd <$> evs) →
  (∃ sink', fetch_series_v2_with key expect sink opts start evs end_ = Returned (Ok (manifest_of F, sink'))) ∨ collision.
Proof.
  intros Hw Hhex Hfit Hput Hs Hc Hr Hlow Hheld Hl x Hevs Hend Hcont Hsub.
  assert (Hcp : e_count expect = piece_count_for (e_size expect)) by (rewrite Hc, Hs; symmetry; by apply piece_count_fits).
  rewrite <-Hc in Hl. destruct (fetch_ctx_facts F key expect opts start l rt) as (Hx1 & Hx2 & Hx3 & Hx4); [done..|].
  fold x in Hx1, Hx2, Hx3, Hx4. pose proof (count_slices F Hfit x Hx2 Hx4) as Hcs.
  unfold fetch_series_v2_with. rewrite Hcp, N.eqb_refl. cbn [negb]. rewrite <-Hcp, Hl. fold x.
  assert (Hstart : fetch_ok x (root (manifest_of F)) (slice_of F) (extent sink) (fetch_start x start sink)).
  { apply fetch_start_ok; [done..|]. intros i Hi Hlt. rewrite Hcs in Hlt.
    destruct (Hheld i Hi Hlt) as (s & Hsl & Hh). exists s. split_and!; [by eapply slice_right|done|done]. }
  eapply (loop_completes Hw Hhex F Hfit x _ Hx1 Hx2 Hx3 Hx4 Hput _ _ _ [] (series_order l) contents); try done.
  - eapply Forall2_impl; [exact Hcont|]. intros i c Hop. unfold open_piece in Hop. run_inv Hop.
    exists a. split; [done|]. rewrite Hcs. done.
  - by intros i Hi%elem_of_nil.
  - by apply (series_in_order Hw F Hfit x Hx2 Hx3 Hx4).
  - intros i Hi. by apply (series_order_elem Hw F Hfit x Hx2 Hx3 Hx4).
  - intros i Hi. by apply (series_order_elem Hw F Hfit x Hx2 Hx3 Hx4).
Qed.
