(* ===== verification/Rootless.v ===== *)
(** * A fetch without a root

    The folded bases travel without a manifest root: the first top record is
    tried, rivals wait, and a record whose series stalls or assembles to other
    bytes than the chain's commitment is given up.  Here: what such a fetch
    returns has the committed hash, and giving up records always ends. *)

From S2P Require Import Prelude Bytes Strs Env Chunk FilePlane FilePlaneProps Fetch FetchInv FetchProps.

(** ** Giving up records ends *)

Section Turns.
Context `{Env, Sealing} {Snk : Type} `{PieceSink Snk}.
Context (x : Ctx) (now : N).

(** A fetch that has just started over. *)
Record fresh (f : Fetch (Snk:=Snk)) : Prop := {
  fr_doubt : r_doubt (f_tops f) = false;
  fr_mark : r_mark (f_tops f) = (u64_max, 0%N);
  fr_verified : s_verified (f_slots f) = ∅;
}.

Lemma restart_fresh f : is_some (head (r_rivals (f_tops f))) || negb (is_some (r_top (f_tops f))) = true →
  fresh (restart x now f) ∧ r_top (f_tops (restart x now f)) = fst <$> head (r_rivals (f_tops f)) ∧
  length (r_rivals (f_tops (restart x now f))) =
    (length (tail (r_rivals (f_tops f))) + if is_some (r_top (f_tops f)) then 1 else 0)%nat.
Proof.
  intros Hc. unfold restart. rewrite Hc. split_and!; [by constructor|done|]. cbn [f_tops r_rivals].
  rewrite length_app. by destruct (r_top (f_tops f)).
Qed.

(** A fresh fetch is given up only for the bytes it assembled to. *)
Lemma fresh_again f f' : fresh f → turn x now f = TAgain f' → wrong x f = true ∧ f' = restart x now (with_tops (disown (f_tops f)) f) ∨
  wrong x f = true ∧ ∃ t, f' = restart x now (with_tops t f) ∧ r_top t = None ∧ r_rivals t = r_rivals (f_tops f).
Proof.
  intros [Hd Hm Hv] Ht. unfold turn in Ht. destruct (wrong x f) eqn:Ew.
  - destruct (done x f && negb true); [done|]. destruct (expired x now); [done|]. destruct (is_some (x_root x)).
    + cbn in Ht. injection Ht as <-. by left.
    + set (t := watch_progress x now (with_tops (disown (f_tops f)) f)) in *.
      assert (Hwt : r_doubt t = true ∧ r_top t = None ∧ r_rivals t = r_rivals (f_tops f)).
      { unfold t, watch_progress. destruct (negb _); [done|]. by destruct (_ && _). }
      destruct Hwt as (Hw1 & Hw2 & Hw3). cbn [f_tops with_tops] in Ht. rewrite Hw1 in Ht. injection Ht as <-. right. split; [done|].
      exists t. done.
  - destruct (done x f && negb false); [done|]. destruct (expired x now); [done|].
    destruct (is_some (x_root x)); [by rewrite Hd in Ht|]. unfold watch_progress in Ht. rewrite Hm, Hv in Ht.
    rewrite (bool_decide_eq_false_2 (_ = (u64_max, 0%N))) in Ht by (rewrite size_empty; done). cbn in Ht. by rewrite Hd in Ht.
Qed.

Lemma fresh_next f f' : fresh f → turn x now f = TAgain f' → is_some (r_top (f_tops f)) = true ∧
  fresh f' ∧ r_top (f_tops f') = fst <$> head (r_rivals (f_tops f)) ∧ length (r_rivals (f_tops f')) = length (tail (r_rivals (f_tops f))).
Proof.
  intros Hf Ht. assert (Hw : wrong x f = true) by (by destruct (fresh_again f f' Hf Ht) as [[? _]|[? _]]).
  assert (Htop : is_some (r_top (f_tops f)) = true) by (unfold wrong, done in Hw; by destruct (is_some (r_top (f_tops f)))).
  split; [done|].
  destruct (fresh_again f f' Hf Ht) as [[_ ->]|[_ (t & -> & Hn & Hr)]].
  - destruct (restart_fresh (with_tops (disown (f_tops f)) f)) as (Hfr & Ht' & Hl); [apply orb_true_r|].
    cbn in Hl, Ht'. by rewrite Nat.add_0_r in Hl.
  - destruct (restart_fresh (with_tops t f)) as (Hfr & Ht' & Hl); [cbn; rewrite Hn; apply orb_true_r|].
    cbn in Hl, Ht'. rewrite Hn, Hr in *. cbn in Hl. by rewrite Nat.add_0_r in Hl.
Qed.

Lemma fresh_turns n f : fresh f → (length (r_rivals (f_tops f)) ≤ n)%nat → turns (n + 2) x now f ≠ TSpin.
Proof.
  revert f. induction n as [|n IH]; intros f Hf Hn.
  - cbn [turns plus]. destruct (turn x now f) as [| f1| |] eqn:E1; [done| |done|by unfold turn in E1; repeat case_match].
    destruct (fresh_next f f1 Hf E1) as (_ & Hf1 & Ht1 & _). destruct (r_rivals (f_tops f)); [|cbn in Hn; lia].
    destruct (turn x now f1) as [| f2| |] eqn:E2; [done| |done|by unfold turn in E2; repeat case_match].
    destruct (fresh_next f1 f2 Hf1 E2) as [Hc _]. by rewrite Ht1 in Hc.
  - change (S n + 2)%nat with (S (n + 2)). cbn [turns].
    destruct (turn x now f) as [| f1| |] eqn:E1; [done| |done|by unfold turn in E1; repeat case_match].
    destruct (fresh_next f f1 Hf E1) as (_ & Hf1 & _ & Hl). apply IH; [done|]. rewrite Hl.
    destruct (r_rivals (f_tops f)); cbn in *; lia.
Qed.

(** A fetch that found no rival asks for one and receives. *)
Lemma asks_then_receives g : (0 < x_stall_after x)%N →
  is_some (head (r_rivals (f_tops g))) || negb (is_some (r_top (f_tops g))) = false → done x g = false → expired x now = false →
  ∃ h, turn x now (restart x now g) = TRecv h.
Proof.
  intros Hs Hc Hd He. unfold restart. rewrite Hc. set (f := with_tops _ g).
  assert (Hdf : done x f = false) by (rewrite <-Hd; done). unfold turn, wrong. rewrite Hdf. cbn [andb negb]. rewrite He.
  destruct (is_some (x_root x)); [by eexists|]. assert (Hw : r_doubt (watch_progress x now f) = false).
  { unfold watch_progress. destruct (negb (bool_decide _)); [done|]. change (r_moved (f_tops f)) with now. rewrite N.sub_diag.
    destruct (N.leb_spec (x_stall_after x) 0); [lia|]. by rewrite andb_false_r. }
  change (f_tops (with_tops ?t f)) with t. rewrite Hw. by eexists.
Qed.

(** The fuel of [turns] is enough. *)
Lemma turns_end f : (0 < x_stall_after x)%N → turns (turn_fuel f) x now f ≠ TSpin.
Proof.
  intros Hs. unfold turn_fuel. change (3 + ?n)%nat with (S (2 + n)). cbn [turns].
  destruct (turn x now f) as [| f1| |] eqn:E1; [done| |done|by unfold turn in E1; repeat case_match].
  unfold turn in E1. destruct (done x f && negb (wrong x f)) eqn:Ed; [done|]. destruct (expired x now) eqn:Ee; [done|].
  set (g0 := if wrong x f then with_tops (disown (f_tops f)) f else f) in *.
  set (g := if is_some (x_root x) then g0 else with_tops (watch_progress x now g0) g0) in *.
  destruct (r_doubt (f_tops g)); [|done]. injection E1 as <-.
  assert (Hriv : r_rivals (f_tops g) = r_rivals (f_tops f)).
  { unfold g, watch_progress, g0. by destruct (is_some (x_root x)), (wrong x f); repeat case_match. }
  assert (Htop : r_top (f_tops g) = if wrong x f then None else r_top (f_tops f)).
  { unfold g, watch_progress, g0. by destruct (is_some (x_root x)), (wrong x f); repeat case_match. }
  destruct (is_some (head (r_rivals (f_tops g))) || negb (is_some (r_top (f_tops g)))) eqn:Ec.
  - destruct (restart_fresh g Ec) as (Hf & _ & Hl). rewrite Hriv in Hl.
    replace (2 + length (r_rivals (f_tops f)))%nat with (length (r_rivals (f_tops f)) + 2)%nat by lia.
    apply fresh_turns; [done|]. rewrite Hl. apply orb_true_iff in Ec. rewrite Hriv in Ec.
    destruct (r_rivals (f_tops f)); cbn in *; [destruct Ec as [|Ec]; [done|]|]; destruct (is_some (r_top (f_tops g))); cbn in *; (done || lia).
  - apply orb_false_iff in Ec as [Ec1 Ec2]. apply negb_false_iff in Ec2. rewrite Htop in Ec2.
    destruct (wrong x f) eqn:Ew; [done|]. rewrite andb_true_r in Ed.
    cbn [turns plus]. destruct (asks_then_receives g Hs) as [h ->]; [by rewrite Ec1, Htop, Ec2| |done|done].
    rewrite <-Ed. unfold done. rewrite Htop. unfold g, g0. by destruct (is_some (x_root x)).
Qed.
End Turns.

(** C23: a fetch never spins.  Whatever arrives and whenever, with a root or
    without: between two events the fetch gives up at most as many records as
    it has and then waits or returns, provided a quiet slice lasts at all. *)
Theorem fetch_never_spins `{Env, Sealing} {Snk : Type} `{PieceSink Snk} (key : bytes) (expect : SeriesExpect)
    (sink : Snk) (opts : FetchOpts) (start end_ : N) (evs : list (N * Disk * Recv)) :
  (0 < o_quiet opts)%N → fetch_series_v2_with key expect sink opts start evs end_ ≠ Spinning.
Proof.
  intros Hq. unfold fetch_series_v2_with. destruct (negb _); [done|]. destruct (layout_for _) as [l|]; [|done].
  set (x := fetch_ctx key expect opts start l). assert (Hs : (0 < x_stall_after x)%N) by (cbn; unfold TOP_STALL_QUIETS; lia).
  generalize (fetch_start x start sink) as f. induction evs as [|[[now d] ev] evs IH]; intros f; cbn [fetch_loop].
  - pose proof (turns_end x end_ f Hs) as Ht. destruct (turns _ _ _ f) eqn:E; try done.
    exfalso. revert E. generalize (turn_fuel f). intros n. clear. revert f. induction n as [|n IH]; intros g; cbn [turns]; [done|].
    destruct (turn x end_ g) eqn:E; try done. apply IH.
  - pose proof (turns_end x now f Hs) as Ht. destruct (turns _ _ _ f) eqn:E; try done.
    + exfalso. revert E. generalize (turn_fuel f). intros n. clear. revert f. induction n as [|n IH]; intros g; cbn [turns]; [done|].
      destruct (turn x now g) eqn:E; try done. apply IH.
    + by destruct (receive x d ev f0).
Qed.

(** ** What it returns *)

Section Committed.
Context `{Env, Sealing} {Snk : Type} `{SinkLaws Snk}.
Context (x : Ctx) (e0 : N).
Context (Hlayout : layout_for (l_count (x_layout x)) = Some (x_layout x))
  (Hcount : l_count (x_layout x) = piece_count_for (x_size x)).

Abbreviation ok f := (held_ok (Snk:=Snk) x (λ _ _, False) e0 (r_top (f_tops f)) f).

Lemma restart_ok now f : (extent (s_sink (f_slots f)) ≤ N.max e0 (x_size x))%N → ok (restart x now f) ∨
  (is_some (head (r_rivals (f_tops f))) || negb (is_some (r_top (f_tops f))) = false).
Proof.
  intros He. unfold restart. destruct (_ || _); [left|by right]. constructor; cbn.
  - intros s c. unfold no_chunks. rewrite lookup_replicate. by intros [? _].
  - constructor; cbn; [by intros i ?%not_elem_of_empty|by intros i h; rewrite lookup_empty|by intros i h; rewrite lookup_empty|done].
  - intros i c _. unfold no_chunks. rewrite lookup_replicate. by intros [? _].
  - apply length_replicate.
Qed.

Lemma turn_ok now f : ok f → match turn x now f with
  | TAgain g | TRecv g => ok g
  | TReturn (Ok (m, s)) => done x f = true ∧ wrong x f = false ∧ s = s_sink (f_slots f)
  | _ => True
  end.
Proof.
  intros Hok. pose proof (so_extent _ _ _ _ _ (ho_slots _ _ _ _ _ Hok)) as He. unfold turn.
  destruct (done x f && negb (wrong x f)) eqn:Ed.
  { apply andb_true_iff in Ed as [Ed Ew]. to_prop. destruct (let? _ := _ in _) as [[m s]| |] eqn:Er; try done.
    run_inv Er. by simplify_eq. }
  destruct (expired x now); [done|].
  set (g0 := if wrong x f then with_tops (disown (f_tops f)) f else f).
  set (g := if is_some (x_root x) then g0 else with_tops (watch_progress x now g0) g0).
  assert (Htop : r_top (f_tops g) = if wrong x f then None else r_top (f_tops f)).
  { unfold g, watch_progress, g0. by destruct (is_some (x_root x)), (wrong x f); repeat case_match. }
  assert (Hsame : f_chunks g = f_chunks f ∧ f_slots g = f_slots f) by (unfold g, g0; by destruct (is_some (x_root x)), (wrong x f)).
  assert (Hgok : wrong x f = false → ok g).
  { intros Ew. rewrite Ew in Htop. rewrite Htop. destruct Hok as [Hc Hs Hse Hl], Hsame as [E1 E2].
    constructor; rewrite ?E1, ?E2; done. }
  destruct (wrong x f) eqn:Ew.
  - assert (Hd : r_doubt (f_tops g) = true).
    { unfold g, g0, watch_progress. destruct (is_some (x_root x)); [done|]. by repeat case_match. }
    rewrite Hd. destruct (restart_ok now g) as [Hr|Hr]; [by rewrite (proj2 Hsame)|done|]. rewrite Htop in Hr. by rewrite orb_true_r in Hr.
  - specialize (Hgok eq_refl). destruct (r_doubt (f_tops g)); [|done].
    destruct (restart_ok now g) as [Hr|Hr]; [by rewrite (proj2 Hsame)|done|].
    unfold restart. rewrite Hr. cbn [f_tops with_tops r_top]. by apply with_tops_ok.
Qed.

Lemma turns_ok fuel now f : ok f → match turns fuel x now f with
  | TAgain g | TRecv g => ok g
  | TReturn (Ok (m, s)) => ∃ g, ok g ∧ done x g = true ∧ wrong x g = false ∧ s = s_sink (f_slots g)
  | _ => True
  end.
Proof.
  revert f. induction fuel as [|fuel IH]; intros f Hok; cbn [turns]; [done|]. pose proof (turn_ok now f Hok) as Ht.
  destruct (turn x now f) as [[[m s]| |]|g|g|]; try done; [by exists f|]. by apply IH.
Qed.

Lemma loop_returns evs end_ f m s : ok f → fetch_loop x evs end_ f = Returned (Ok (m, s)) →
  ∃ g, ok g ∧ done x g = true ∧ wrong x g = false ∧ s = s_sink (f_slots g).
Proof.
  revert f. induction evs as [|[[now d] ev] evs IH]; intros f Hok Hl; cbn [fetch_loop] in Hl.
  - pose proof (turns_ok (turn_fuel f) end_ f Hok) as Ht. destruct (turns _ _ _ f) as [r| | |]; try done. injection Hl as ->. done.
  - pose proof (turns_ok (turn_fuel f) now f Hok) as Ht. destruct (turns _ _ _ f) as [r|h|g|]; [|done| |done].
    { injection Hl as ->. exact Ht. }
    destruct (receive x d ev g) as [f1| |] eqn:Er; try done. apply (IH f1); [|done]. exact (receive_held x _ e0 Hlayout Hcount d ev g f1 Ht Er).
Qed.
End Committed.

(** Slices of the right lengths at their places cover the size. *)
Lemma vec_covers `{Env} (x : Ctx) (v : bytes) : layout_for (l_count (x_layout x)) = Some (x_layout x) →
  l_count (x_layout x) = piece_count_for (x_size x) →
  (∀ i, (i < l_count (x_layout x))%N → ∃ p, right_len x i p ∧ holds_at v i p) → (x_size x ≤ len v)%N.
Proof.
  intros Hl Hc Hall. destruct (count_size x Hl Hc) as [Hs Hk]. set (c := l_count (x_layout x)) in *.
  destruct (decide (c = 0)%N) as [Hz|Hz]; [lia|].
  destruct (Hall (c - 1)%N) as (p & Hp & Hh); [lia|]. cbn in Hh. apply get_range_spec in Hh as (_ & Hle & _).
  unfold right_len, expected_slice_len in Hp. fold c in Hp. destruct (N.leb_spec c (c - 1)); [lia|].
  destruct (N.ltb_spec (c - 1 + 1) c); [lia|]. destruct (_ <=? u64_max)%N; [|done].
  destruct (N.leb_spec ((c - 1) * PIECE_PAYLOAD_LEN) (x_size x)); [|done]. injection Hp as Hp. lia.
Qed.

(** C21: a fetch without a root returns the committed bytes.  Whatever records,
    chunks and slices arrive, forged or not: if a fetch into memory that knows
    only the size and the SHA-256 of the content returns, its bytes have this
    size and this hash. *)
Theorem fetch_committed `{Env, Sealing} (v key : bytes) (expect : SeriesExpect) (opts : FetchOpts)
    (start end_ : N) (evs : list (N * Disk * Recv)) (m : Manifest) (commitment : string) :
  e_root expect = None → e_content expect = Some commitment →
  fetch_series_v2_with key expect ([] : bytes) opts start evs end_ = Returned (Ok (m, v)) →
  len v = e_size expect ∧ hex_encode (sha256 v) = to_lowercase commitment.
Proof.
  intros Hr Hc Hf. unfold fetch_series_v2_with in Hf. destruct (negb _) eqn:Ec in Hf; [done|]. to_prop.
  destruct (layout_for (e_count expect)) as [l|] eqn:El; [|done]. pose proof (layout_count _ _ El) as Elc.
  set (x := fetch_ctx key expect opts start l) in *.
  assert (Hx3 : layout_for (l_count (x_layout x)) = Some (x_layout x)) by (cbn; by rewrite Elc).
  assert (Hx4 : l_count (x_layout x) = piece_count_for (x_size x)) by (cbn; by rewrite Elc).
  assert (Hstart : held_ok x (λ _ _, False) 0 (r_top (f_tops (fetch_start x start ([] : bytes)))) (fetch_start x start [])).
  { constructor; cbn.
    - intros s c. unfold no_chunks. rewrite lookup_replicate. by intros [? _].
    - constructor; cbn; [by intros i ?%not_elem_of_empty|by intros i h; rewrite lookup_empty|by intros i h; rewrite lookup_empty|].
      change (len ([] : bytes)) with 0%N. lia.
    - intros i c _. unfold no_chunks. rewrite lookup_replicate. by intros [? _].
    - apply length_replicate. }
  destruct (loop_returns x 0 Hx3 Hx4 _ _ _ _ _ Hstart Hf) as (g & [_ Hso _ _] & Hd & Hw & ->).
  set (v := s_sink (f_slots g)) in *. assert (Hle : (len v ≤ x_size x)%N) by (pose proof (so_extent _ _ _ _ _ Hso) as He; change (len v ≤ N.max 0 (x_size x))%N in He; lia).
  assert (Hge : (x_size x ≤ len v)%N).
  { apply vec_covers; [done|done|]. intros i Hi. unfold done in Hd. apply andb_true_iff in Hd as [_ Hn]. to_prop.
    assert (Hsub : s_verified (f_slots g) ⊆ list_to_set (range (l_count (x_layout x)))).
    { intros j Hj. rewrite elem_of_list_to_set, elem_of_range. destruct (so_verified _ _ _ _ _ Hso j Hj) as (p & Hp & _).
      by apply (right_len_spec x Hx3 Hx4 j p). }
    assert (Heq : s_verified (f_slots g) = list_to_set (range (l_count (x_layout x)))).
    { apply set_subseteq_size_eq; [done|]. etrans; [apply size_list_to_set_le|]. unfold range. rewrite length_fmap, length_seq. lia. }
    destruct (so_verified _ _ _ _ _ Hso i) as (p & Hp & Hh & _); [|by exists p].
    by rewrite Heq, elem_of_list_to_set, elem_of_range. }
  assert (Hlen : len v = x_size x) by lia. split; [done|].
  unfold wrong in Hw. rewrite Hd in Hw. cbn [x_root x fetch_ctx] in Hw. rewrite Hr in Hw. cbn [fmap option_fmap option_map is_some negb andb] in Hw.
  assert (Hxc : x_content x = Some (to_lowercase commitment)) by (cbn; by rewrite Hc).
  rewrite Hxc in Hw. change (digest (s_sink (f_slots g)) (x_size x)) with (vec_digest v (x_size x)) in Hw.
  unfold vec_digest in Hw. rewrite get_range_some in Hw by lia. to_prop. apply String.eqb_eq in Hw. rewrite <-Hw.
  do 2 f_equal. rewrite N.sub_0_r, drop_0, take_ge; [done|]. unfold len in *. lia.
Qed.
