(* ===== verification/Trickle.v ===== *)
(** * The trickle sender

    crates/molt-net/src/trickle.rs: one queue of publish jobs, drained one
    piece per tick while the outbox is idle, the hour's resend budget has
    headroom and the day's byte cap is not spent.  A job names a series and the
    ranges of pieces to publish, and a cursor.  With it the persisted jobs and
    bitmaps of crates/molt-core/src/lib.rs and the frame that asks for missing
    pieces (piece_want.rs).

    A tick reads the queue, decides, publishes and then updates the queue,
    which may have changed meanwhile: [decide_tick] is the first part on the
    queue it loaded, [apply_act] the update.  What the machine around it
    answers is the record [World]. *)

From S2P Require Import Prelude Bytes Strs Env Chunk Window Delivery FilePlane Fetch.

Definition PIECE_WIRE_BYTES : N := 58720.
Definition BUDGET_HEADROOM : N := 2.
Definition MAX_JOB_RANGES : nat := 256.

(** ** Jobs *)

Record PublishJob := mkJob {
  j_series : string;
  j_key : bytes;
  j_path : string;
  j_count : N;
  j_size : N;
  j_root : string;
  j_ranges : list (N * N);
  j_next : N;
  j_started_at : N;
  j_stored : bool;
  j_wiki_base : bool;
  j_vault : option string;
}.

(** [FileJobs], the publishing half. *)
Record FileJobs := mkJobs {
  publish : list PublishJob;
  sent_day : N;
  sent_bytes : N;
}.

Definition with_publish (l : list PublishJob) (s : FileJobs) : FileJobs :=
  {| publish := l; sent_day := sent_day s; sent_bytes := sent_bytes s |}.

(** ** Ranges *)

Definition whole_series_ranges (layout : SeriesLayout) : list (N * N) :=
  [(l_top layout, l_top layout)] ++
  (if (0 <? l_chunks layout)%N then [(l_count layout, (l_top layout - 1)%N)] else []) ++
  (if (0 <? l_count layout)%N then [(0%N, (l_count layout - 1)%N)] else []).

(** [hi.saturating_sub(lo) + 1]. *)
Definition range_len (r : N * N) : N := (r.2 - r.1 + 1)%N.

Definition job_total (ranges : list (N * N)) : N := foldr (λ r n, (range_len r + n)%N) 0%N ranges.

Fixpoint index_from (ranges : list (N * N)) (left : N) : option N :=
  match ranges with
  | [] => None
  | r :: ranges =>
      if (left <? range_len r)%N then u32_try_from (r.1 + left)
      else index_from ranges (left - range_len r)
  end.
Definition index_at (ranges : list (N * N)) (position : N) : option N := index_from ranges position.

Definition is_whole (job : PublishJob) : bool :=
  match layout_for (j_count job) with
  | Some l => bool_decide (whole_series_ranges l = j_ranges job)
  | None => false
  end.

(** ** The queue *)

Definition with_ranges (ranges : list (N * N)) (j : PublishJob) : PublishJob :=
  {| j_series := j_series j; j_key := j_key j; j_path := j_path j; j_count := j_count j; j_size := j_size j;
     j_root := j_root j; j_ranges := ranges; j_next := j_next j; j_started_at := j_started_at j;
     j_stored := j_stored j; j_wiki_base := j_wiki_base j; j_vault := j_vault j |}.

Definition with_next (n : N) (j : PublishJob) : PublishJob :=
  {| j_series := j_series j; j_key := j_key j; j_path := j_path j; j_count := j_count j; j_size := j_size j;
     j_root := j_root j; j_ranges := j_ranges j; j_next := n; j_started_at := j_started_at j;
     j_stored := j_stored j; j_wiki_base := j_wiki_base j; j_vault := j_vault j |}.

(** The entry [iter_mut().find(..)] gives, changed in place. *)
Fixpoint alter_job (series : string) (f : PublishJob → PublishJob) (l : list PublishJob) : list PublishJob :=
  match l with
  | [] => []
  | j :: l => if bool_decide (j_series j = series) then f j :: l else j :: alter_job series f l
  end.

Definition enqueue_publish (s : FileJobs) (job : PublishJob) : FileJobs * bool :=
  match find (λ j, bool_decide (j_series j = j_series job)) (publish s) with
  | None => (with_publish (publish s ++ [job]) s, true)
  | Some existing =>
      if is_whole existing then (s, false)
      else if is_whole job then (with_publish (alter_job (j_series job) (λ _, job) (publish s)) s, true)
      else
        let fresh := filter (λ r, r ∉ j_ranges existing) (j_ranges job) in
        if match fresh with [] => true | _ => false end ||
           (MAX_JOB_RANGES <? length (j_ranges existing) + length fresh)%nat
        then (s, false)
        else (with_publish (alter_job (j_series job) (λ j, with_ranges (j_ranges j ++ fresh) j) (publish s)) s, true)
  end.

(** The job still has a piece to publish. *)
Definition is_unfinished (j : PublishJob) : bool := (j_next j <? job_total (j_ranges j))%N.

(** The jobs [pick_job] chooses among. *)
Definition served_group (jobs : list PublishJob) : list PublishJob :=
  let unfinished := filter (λ j, is_unfinished j = true) jobs in
  if existsb (λ j, negb (is_whole j)) unfinished
  then filter (λ j, is_whole j = false) unfinished else unfinished.

(** [iter().position(|j| j.series == l)]. *)
Fixpoint position_of (l : list PublishJob) (series : string) : option nat :=
  match l with
  | [] => None
  | j :: l => if bool_decide (j_series j = series) then Some O else S <$> position_of l series
  end.

Definition pick_job (jobs : list PublishJob) (last : option string) : option PublishJob :=
  let group := served_group jobs in
  match group with
  | [] => None
  | _ =>
      let after := match last ≫= position_of group with
                   | Some p => ((p + 1) mod length group)%nat
                   | None => O
                   end in
      group !! after
  end.

(** [advance]: the counter, the cursor, the finished jobs. *)
Definition advance (series : string) (day : N) (s : FileJobs) : FileJobs :=
  let bytes := if (sent_day s =? day)%N then sent_bytes s else 0%N in
  {| publish := filter (λ j, is_unfinished j = true)
                  (alter_job series (λ j, with_next (u32_saturating_add (j_next j) 1) j) (publish s));
     sent_day := day;
     sent_bytes := u64_saturating_add bytes PIECE_WIRE_BYTES |}.

Definition drop_job (series : string) (s : FileJobs) : FileJobs :=
  with_publish (filter (λ j, j_series j ≠ series) (publish s)) s.

(** [resend_headroom] of group_runtime.rs. *)
Definition resend_headroom (cur : GroupCursor) (now : N) : N :=
  (RESEND_ROUNDS_PER_HOUR - resend_rounds (roll_resend_window cur now))%N.

(** ** Pieces *)

Section Pieces.
Context `{Env, Sealing}.

(** What the machine answers during a tick: the outbox, the clock, the files
    (how they read from an offset), the stored and the sealed pieces, the
    generator of nonces, and whether a relay accepts. *)
Record World := mkWorld {
  w_busy : bool;
  w_now : N;
  w_file : string → option (N → Reader);
  w_stored : string → N → option string;
  w_wiki_piece : N → option bytes;
  w_vault_piece : string → N → option bytes;
  w_vault_base_piece : N → option bytes;
  w_nonce : option bytes;
  w_accepts : bool;
}.

Definition meta_piece (m : Manifest) (index : N) : outcome FileError (option bytes) :=
  let? layout := ok_or (layout_for (m_count m)) BeyondLargest in
  if (index =? l_top layout)%N then let? b := frame_piece index (m_count m) (top_bytes m) in Ok (Some b)
  else reject (l_top layout <? index)%N with OutsideSeries index else
  if (m_count m <=? index)%N
  then let? b := frame_piece index (m_count m) (chunk m (index - m_count m)) in Ok (Some b)
  else Ok None.

Definition piece_bytes (w : World) (job : PublishJob) (m : Manifest) (index : N) : outcome FileError bytes :=
  let? meta := meta_piece m index in
  match meta with
  | Some b => Ok b
  | None =>
      let? want_len := ok_or (expected_slice_len index (m_count m) (m_size m)) SliceGeometry in
      let? file := ok_or (w_file w (j_path job)) OpenFailed in
      let offset := (index * PIECE_PAYLOAD_LEN)%N in
      reject (u64_max <? offset)%N with SliceOffset else
      let? r := read_full (file offset) (N.to_nat want_len) in
      let? want := ok_or (m_hashes m !! N.to_nat index) ManifestShort in
      reject negb (len r.1 =? want_len)%N || negb (bool_decide (sha256 r.1 = want)) with FileChanged index else
      frame_piece index (m_count m) r.1
  end.

(** ** A tick *)

Inductive Hold := Idle | Gated | Failed.

(** What a tick does to the queue. *)
Inductive TickAct :=
  | Sent (job : PublishJob) (day : N) (content : string)
  | Dropped (series : string)
  | Held (h : Hold).

Definition apply_act (a : TickAct) (s : FileJobs) : FileJobs :=
  match a with
  | Sent job day _ => advance (j_series job) day s
  | Dropped series => drop_job series s
  | Held _ => s
  end.

(** [publish_piece_paced]: sealed, and accepted by a relay in the end. *)
Definition publish_piece (w : World) (job : PublishJob) (day : N) (outer framed : bytes) : TickAct :=
  match seal_outer (w_nonce w) outer framed with
  | Ok content => if w_accepts w then Sent job day content else Held Failed
  | _ => Held Failed
  end.

(** A mirror's stored piece. *)
Definition tick_stored (w : World) (job : PublishJob) (day : N) : TickAct :=
  match index_at (j_ranges job) (j_next job) with
  | None => Dropped (j_series job)
  | Some index =>
      match w_stored w (j_path job) index with
      | None => Dropped (j_series job)
      | Some content => if w_accepts w then Sent job day content else Held Failed
      end
  end.

Inductive HeldSource :=
  | WikiBase
  | VaultFile (file hash : string)
  | VaultBaseSource (hash : string).

Definition source_piece (w : World) (source : HeldSource) (index : N) : option bytes :=
  match source with
  | WikiBase => w_wiki_piece w index
  | VaultFile file _ => w_vault_piece w file index
  | VaultBaseSource _ => w_vault_base_piece w index
  end.

(** The pieces a held source gives for a list of indices; [None] if one is
    not here. *)
Fixpoint source_pieces (w : World) (source : HeldSource) (indices : list N) : option (list bytes) :=
  match indices with
  | [] => Some []
  | i :: indices =>
      p ← source_piece w source i; ps ← source_pieces w source indices; Some (p :: ps)
  end.

Definition source_hash (source : HeldSource) : option string :=
  match source with WikiBase => None | VaultFile _ hash | VaultBaseSource hash => Some hash end.

(** [publish_held_piece], the manifest: cached, or built from the holder's own
    copy and checked. *)
Definition held_manifest (w : World) (job : PublishJob) (source : HeldSource) (manifests : gmap string Manifest)
    : TickAct + Manifest * gmap string Manifest :=
  match manifests !! j_series job with
  | Some m => inr (m, manifests)
  | None =>
      match source_pieces w source (range (j_count job)) with
      | None => inl (Held Gated)
      | Some ps =>
          let m := {| m_count := j_count job; m_size := foldl (λ n p, u64_saturating_add n (len p)) 0%N ps;
                      m_hashes := sha256 <$> ps |} in
          if negb (m_size m =? j_size job)%N then inl (Dropped (j_series job))
          else if match source_hash source with
                  | Some hash => negb (String.eqb (hex_encode (sha256 (mjoin ps))) hash)
                  | None => false
                  end
          then inl (Dropped (j_series job))
          else inr (m, <[j_series job := m]> manifests)
      end
  end.

(** A 32-byte key. *)
Definition key_of (job : PublishJob) : option bytes := if (len (j_key job) =? 32)%N then Some (j_key job) else None.

Definition tick_held (w : World) (job : PublishJob) (day : N) (source : HeldSource) (manifests : gmap string Manifest)
    : gmap string Manifest * TickAct :=
  match held_manifest w job source manifests with
  | inl a => (manifests, a)
  | inr (m, manifests) =>
      match index_at (j_ranges job) (j_next job), key_of job with
      | Some index, Some key =>
          match meta_piece m index with
          | Ok (Some meta) => (manifests, publish_piece w job day (outer_key key) meta)
          | Ok None =>
              match source_piece w source index with
              | None => (manifests, Held Gated)
              | Some slice =>
                  match frame_piece index (m_count m) slice with
                  | Ok framed => (manifests, publish_piece w job day (outer_key key) framed)
                  | _ => (manifests, Dropped (j_series job))
                  end
              end
          | _ => (delete (j_series job) manifests, Dropped (j_series job))
          end
      | _, _ => (manifests, Dropped (j_series job))
      end
  end.

(** The manifest of the shared file: cached, or read and compared. *)
Definition file_manifest (w : World) (job : PublishJob) (manifests : gmap string Manifest)
    : TickAct + Manifest * gmap string Manifest :=
  match manifests !! j_series job with
  | Some m => inr (m, manifests)
  | None =>
      match w_file w (j_path job) ≫= λ file, match manifest_of_reader (file 0%N) with Ok r => Some r.1 | _ => None end with
      | Some m =>
          if String.eqb (root m) (j_root job) && (m_count m =? j_count job)%N
          then inr (m, <[j_series job := m]> manifests)
          else inl (Dropped (j_series job))
      | None => inl (Dropped (j_series job))
      end
  end.

Definition tick_file (w : World) (job : PublishJob) (day : N) (manifests : gmap string Manifest)
    : gmap string Manifest * TickAct :=
  match file_manifest w job manifests with
  | inl a => (manifests, a)
  | inr (m, manifests) =>
      match index_at (j_ranges job) (j_next job), key_of job with
      | Some index, Some key =>
          match piece_bytes w job m index with
          | Ok framed => (manifests, publish_piece w job day (outer_key key) framed)
          | _ => (delete (j_series job) manifests, Dropped (j_series job))
          end
      | _, _ => (manifests, Dropped (j_series job))
      end
  end.

(** The sender's own memory: the manifests and whose turn it was. *)
Record Sender := mkSender { k_manifests : gmap string Manifest; k_last : option string }.

(** The gates before a piece of [job] goes out. *)
Definition gated (w : World) (daily_bytes : N) (group : option GroupCursor) (jobs : FileJobs) : bool :=
  w_busy w ||
  (resend_headroom (default group_default group) (w_now w) <? BUDGET_HEADROOM)%N ||
  (daily_bytes <? u64_saturating_add (if (sent_day jobs =? w_now w / 86400)%N then sent_bytes jobs else 0%N) PIECE_WIRE_BYTES)%N.

(** [tick], up to the update of the queue. *)
Definition decide_tick (w : World) (daily_bytes : N) (group : option GroupCursor) (jobs : FileJobs) (k : Sender)
    : Sender * TickAct :=
  match pick_job (publish jobs) (k_last k) with
  | None => (k, Held Idle)
  | Some job =>
      let last := Some (j_series job) in
      if gated w daily_bytes group jobs then ({| k_manifests := k_manifests k; k_last := last |}, Held Gated)
      else
        let day := (w_now w / 86400)%N in
        let r :=
          if j_stored job then (k_manifests k, tick_stored w job day)
          else match j_vault job with
               | Some hash =>
                   tick_held w job day (if str_empty (j_path job) then VaultBaseSource hash else VaultFile (j_path job) hash)
                     (k_manifests k)
               | None =>
                   if j_wiki_base job then tick_held w job day WikiBase (k_manifests k)
                   else tick_file w job day (k_manifests k)
               end in
        ({| k_manifests := r.1; k_last := last |}, r.2)
  end.
End Pieces.

(** ** Bitmaps *)

Definition bitmap_holds (bits : bytes) (index : N) : bool :=
  match bits !! N.to_nat (index / 8) with
  | Some b => negb (N.land (Byte.to_N b) (2 ^ (index mod 8)) =? 0)%N
  | None => false
  end.

Definition bitmap_mark (bits : bytes) (index : N) : bytes :=
  let at_ := N.to_nat (index / 8) in
  let bits := if (length bits <=? at_)%nat then resize (at_ + 1) x00 bits else bits in
  match bits !! at_ with
  | Some b => <[at_ := byte_of (N.lor (Byte.to_N b) (2 ^ (index mod 8)))]> bits
  | None => bits
  end.

(** [FetchJob::held_indices]. *)
Definition held_indices (count : N) (bits : bytes) : list N := filter (λ i, bitmap_holds bits i = true) (range count).

(** ** Asking for pieces *)

(** [PieceWanted] as serde decodes it ([None]: it does not). *)
Record PieceWanted := mkWant { pw_v : N; pw_by : string; pw_id : string; pw_ranges : list (N * N) }.

Definition PIECE_WANT_V : N := 1.
Definition PIECE_WANT_MAX_BYTES : N := 8 * 1024.
Definition PIECE_WANT_TAG : bytes := [x00] ++ as_bytes "molt-pwant-v1".

Inductive PieceWantError :=
  | NotAWant
  | TooBig (n : N)
  | Malformed
  | UnknownVersion (v : N)
  | BadRanges.

Definition want_new (by_ id : string) (ranges : list (N * N)) : PieceWanted :=
  {| pw_v := PIECE_WANT_V; pw_by := by_; pw_id := id; pw_ranges := take PIECE_WANT_MAX_RANGES ranges |}.

(** [plaintext.strip_prefix(tag)]. *)
Fixpoint strip_bytes (tag b : bytes) : option bytes :=
  match tag, b with
  | [], _ => Some b
  | t :: tag, c :: b => if bool_decide (t = c) then strip_bytes tag b else None
  | _, [] => None
  end.

(** Over the JSON codec serde derives for the struct. *)
Definition want_to_frame (encode : PieceWanted → option bytes) (want : PieceWanted) : bytes :=
  PIECE_WANT_TAG ++ default [] (encode want).

Definition want_from_frame (decode : bytes → option PieceWanted) (plaintext : bytes)
    : outcome PieceWantError PieceWanted :=
  let? body := ok_or (strip_bytes PIECE_WANT_TAG plaintext) NotAWant in
  reject (PIECE_WANT_MAX_BYTES <? len body)%N with TooBig (len body) else
  let? want := ok_or (decode body) Malformed in
  reject negb (pw_v want =? PIECE_WANT_V)%N with UnknownVersion (pw_v want) else
  reject match pw_ranges want with [] => true | _ => false end ||
         (PIECE_WANT_MAX_RANGES <? length (pw_ranges want))%nat ||
         existsb (λ r, (r.2 <? r.1)%N) (pw_ranges want) with BadRanges else
  Ok want.
