(* ===== verification/TrickleProps.v ===== *)
(** * The trickle sender: theory

    Ranges as the lists of pieces they stand for; the queue's invariant; the
    round-robin; the daily cap; and that a shared file's series goes out piece
    by piece in the publisher's order, so that a fetch completes. *)

From S2P Require Import Prelude Bytes Strs Env Chunk Window Delivery FilePlane FilePlaneProps Fetch FetchInv FetchProps FetchLive Trickle.

(** ** Ranges *)

(** The pieces a list of ranges stands for, in publish order. *)
Definition range_pieces (r : N * N) : list N := (λ i, (r.1 + i)%N) <$> range (range_len r).
Definition ranges_pieces (ranges : list (N * N)) : list N := mjoin (range_pieces <$> ranges).

(** Every index is a [u32]. *)
Definition ranges_fit (ranges : list (N * N)) : Prop := ∀ r, r ∈ ranges → (r.1 ≤ r.2 ≤ u32_max)%N.

Lemma length_range n : length (range n) = N.to_nat n.
Proof. unfold range. by rewrite length_fmap, length_seq. Qed.

Lemma range_lookup n k : (k < n)%N → range n !! N.to_nat k = Some k.
Proof. intros Hk. unfold range. rewrite list_lookup_fmap, lookup_seq_lt by lia. cbn. f_equal. lia. Qed.

Lemma length_range_pieces r : length (range_pieces r) = N.to_nat (range_len r).
Proof. unfold range_pieces. by rewrite length_fmap, length_range. Qed.

Lemma ranges_pieces_cons r rs : ranges_pieces (r :: rs) = range_pieces r ++ ranges_pieces rs.
Proof. done. Qed.

Lemma ranges_pieces_app rs ts : ranges_pieces (rs ++ ts) = ranges_pieces rs ++ ranges_pieces ts.
Proof. unfold ranges_pieces. by rewrite fmap_app, join_app. Qed.

Lemma job_total_spec rs : job_total rs = len (ranges_pieces rs).
Proof.
  induction rs as [|r rs IH]; [done|]. rewrite ranges_pieces_cons, len_app. cbn [job_total foldr]. fold (job_total rs).
  rewrite IH. unfold len at 2. rewrite length_range_pieces. lia.
Qed.

(** A cursor walks the pieces in order. *)
Lemma index_at_spec rs p : ranges_fit rs → index_at rs p = ranges_pieces rs !! N.to_nat p.
Proof.
  unfold index_at. revert p. induction rs as [|r rs IH]; intros p Hf; [done|].
  rewrite ranges_pieces_cons. cbn [index_from]. destruct (Hf r ltac:(by left)) as [Hr1 Hr2].
  destruct (N.ltb_spec p (range_len r)) as [Hlt|Hge].
  - rewrite lookup_app_l by (rewrite length_range_pieces; lia). unfold range_pieces. rewrite list_lookup_fmap, range_lookup by done.
    cbn. unfold u32_try_from, range_len in *. destruct (N.leb_spec (r.1 + p) u32_max); [done|lia].
  - rewrite IH by (intros t Ht; apply Hf; by right). rewrite lookup_app_r by (rewrite length_range_pieces; lia).
    rewrite length_range_pieces. f_equal. lia.
Qed.

Lemma elem_of_range_pieces i r : (r.1 ≤ r.2)%N → i ∈ range_pieces r ↔ (r.1 ≤ i ≤ r.2)%N.
Proof.
  intros Hr. unfold range_pieces, range_len. rewrite list_elem_of_fmap. setoid_rewrite elem_of_range. split.
  - intros (k & -> & Hk). lia.
  - intros Hi. exists (i - r.1)%N. lia.
Qed.

(** A whole-series job publishes the series in the publisher's order. *)
Lemma whole_series_order c l : layout_for c = Some l →
  ranges_pieces (whole_series_ranges l) = series_order l ∧ ranges_fit (whole_series_ranges l) ∧
  job_total (whole_series_ranges l) = pieces l.
Proof.
  unfold layout_for. destruct (N.ltb_spec MAX_SERIES_PIECES c) as [|Hm]; [done|].
  destruct (N.leb_spec (c + chunk_count_for c) u32_max) as [Hu|]; [|done]. intros [= <-].
  set (k := chunk_count_for c) in *. unfold whole_series_ranges, series_order, pieces. cbn [l_count l_chunks l_top].
  assert (Hp : ranges_pieces ([((c + k)%N, (c + k)%N)] ++ (if (0 <? k)%N then [(c, (c + k - 1)%N)] else []) ++
    (if (0 <? c)%N then [(0%N, (c - 1)%N)] else [])) = (c + k)%N :: ((λ s, (c + s)%N) <$> range k) ++ range c).
  { rewrite !ranges_pieces_app. assert (H1 : ranges_pieces [((c + k)%N, (c + k)%N)] = [(c + k)%N]).
    { rewrite ranges_pieces_cons. unfold range_pieces, range_len. cbn [fst snd]. rewrite N.sub_diag.
      change (range (0 + 1)) with [0%N]. change (ranges_pieces []) with (@nil N). rewrite app_nil_r. cbn [fmap list_fmap]. by rewrite N.add_0_r. }
    rewrite H1. cbn [app]. f_equal. f_equal.
    - destruct (N.ltb_spec 0 k) as [Hk|Hk]; [|by replace k with 0%N by lia].
      rewrite ranges_pieces_cons. unfold range_pieces, range_len. cbn [fst snd]. change (ranges_pieces []) with (@nil N).
      rewrite app_nil_r. do 2 f_equal. lia.
    - destruct (N.ltb_spec 0 c) as [Hc|Hc]; [|by replace c with 0%N by lia].
      rewrite ranges_pieces_cons. unfold range_pieces, range_len. cbn [fst snd]. change (ranges_pieces []) with (@nil N).
      rewrite app_nil_r. replace (c - 1 - 0 + 1)%N with c by lia.
      rewrite <-(list_fmap_id (range c)) at 2. apply list_fmap_ext. intros i y _. done. }
  split_and!; [done| |].
  - intros r. rewrite !elem_of_app, list_elem_of_singleton. intros [->|[Hr|Hr]]; [cbn; lia| |];
      (destruct (N.ltb_spec 0 k) || idtac); (destruct (N.ltb_spec 0 c) || idtac); try (by apply elem_of_nil in Hr);
      apply list_elem_of_singleton in Hr as ->; cbn; lia.
  - rewrite job_total_spec, Hp, len_cons, len_app. unfold len. rewrite length_fmap, !length_range. lia.
Qed.

(** Which covers every piece exactly once. *)
Lemma series_order_NoDup l : (l_top l = l_count l + l_chunks l)%N → NoDup (series_order l).
Proof.
  intros Ht. unfold series_order. apply NoDup_cons. split.
  - rewrite elem_of_app, list_elem_of_fmap. setoid_rewrite elem_of_range. intros [(s & Hs & Hlt)|Hlt]; lia.
  - apply NoDup_app. split_and!; [|intros i (s & -> & _)%list_elem_of_fmap; rewrite elem_of_range; lia|apply range_NoDup].
    apply NoDup_fmap_2; [|apply range_NoDup]. intros a b. lia.
Qed.

(** ** The queue *)

(** One entry per series, each with a bounded list of ranges. *)
Record queue_ok (s : FileJobs) : Prop := {
  qo_series : NoDup (j_series <$> publish s);
  qo_ranges j : j ∈ publish s → (length (j_ranges j) ≤ MAX_JOB_RANGES)%nat;
}.

Lemma alter_job_series series f l : (∀ j, j_series (f j) = j_series j ∨ j_series (f j) = series) →
  j_series <$> alter_job series f l = j_series <$> l.
Proof.
  intros Hf. induction l as [|j l IH]; [done|]. cbn [alter_job]. case_bool_decide as Hj; rewrite !fmap_cons; [|by f_equal].
  f_equal. destruct (Hf j) as [->| ->]; done.
Qed.

Lemma elem_of_alter_job series f l j : j ∈ alter_job series f l → j ∈ l ∨ ∃ j0, j0 ∈ l ∧ j_series j0 = series ∧ j = f j0.
Proof.
  induction l as [|j0 l IH]; cbn [alter_job]; [by intros ?%elem_of_nil|].
  case_bool_decide as Hj; rewrite elem_of_cons; intros [->|Hin].
  - right. exists j0. split_and!; [by left|done|done].
  - left. by right.
  - left. by left.
  - destruct (IH Hin) as [?|(j1 & ? & ? & ?)]; [left; by right|right; exists j1; split_and!; [by right|done|done]].
Qed.

Lemma find_job series l j : find (λ j, bool_decide (j_series j = series)) l = Some j → j ∈ l ∧ j_series j = series.
Proof. intros [Hin Hs%bool_decide_eq_true]%find_some. split; [by apply list_elem_of_In|done]. Qed.

Lemma find_no_job series l : find (λ j, bool_decide (j_series j = series)) l = None → series ∉ j_series <$> l.
Proof.
  intros Hf (j & -> & Hj)%list_elem_of_fmap. apply list_elem_of_In in Hj.
  pose proof (find_none _ _ Hf j Hj) as Hn. by apply bool_decide_eq_false in Hn.
Qed.

Lemma unique_job l j j' : NoDup (j_series <$> l) → j ∈ l → j' ∈ l → j_series j = j_series j' → j = j'.
Proof.
  intros Hnd [a Ha]%list_elem_of_lookup [b Hb]%list_elem_of_lookup He.
  assert (a = b) as ->; [|congruence]. eapply NoDup_lookup; [done|by rewrite list_lookup_fmap, Ha|].
  by rewrite list_lookup_fmap, Hb, He.
Qed.

Lemma filter_series_NoDup (P : PublishJob → Prop) `{∀ j, Decision (P j)} l : NoDup (j_series <$> l) → NoDup (j_series <$> filter P l).
Proof.
  induction l as [|j l IH]; [done|]. rewrite fmap_cons, NoDup_cons, filter_cons. intros [Hni Hnd].
  destruct (decide (P j)); [|by apply IH]. rewrite fmap_cons, NoDup_cons. split; [|by apply IH].
  intros (j' & E & Hj')%list_elem_of_fmap. apply list_elem_of_filter in Hj' as [_ Hj']. apply Hni, list_elem_of_fmap. eauto.
Qed.

Lemma enqueue_ok s job : queue_ok s → (length (j_ranges job) ≤ MAX_JOB_RANGES)%nat → queue_ok (enqueue_publish s job).1.
Proof.
  intros [Hs Hr] Hj. unfold enqueue_publish. destruct (find _ _) as [e|] eqn:Ef.
  - apply find_job in Ef as [He Hse]. destruct (is_whole e); [by constructor|]. destruct (is_whole job).
    + constructor; cbn; [rewrite alter_job_series; [done|by right]|].
      intros j [?|(j0 & ? & ? & ->)]%elem_of_alter_job; [by apply Hr|done].
    + set (fresh := filter _ _). destruct (_ || _) eqn:Eg; [by constructor|].
      apply orb_false_iff in Eg as [_ Eg]. apply Nat.ltb_ge in Eg.
      constructor; cbn; [rewrite alter_job_series; [done|by left]|].
      intros j [?|(j0 & Hj0 & Hs0 & ->)]%elem_of_alter_job; [by apply Hr|]. cbn. rewrite length_app.
      assert (j0 = e) as ->; [|done]. by eapply unique_job; [..|congruence].
  - apply find_no_job in Ef. constructor; cbn.
    + rewrite fmap_app. apply NoDup_app. split_and!; [done| |apply NoDup_singleton]. set_solver.
    + intros j [?| ->%list_elem_of_singleton]%elem_of_app; [by apply Hr|done].
Qed.

Lemma advance_ok series day s : queue_ok s → queue_ok (advance series day s).
Proof.
  intros [Hs Hr]. constructor; cbn.
  - apply filter_series_NoDup. rewrite alter_job_series; [done|by left].
  - intros j [_ [?|(j0 & ? & ? & ->)]%elem_of_alter_job]%list_elem_of_filter; [by apply Hr|by apply (Hr j0)].
Qed.

Lemma drop_ok series s : queue_ok s → queue_ok (drop_job series s).
Proof.
  intros [Hs Hr]. constructor; cbn; [by apply filter_series_NoDup|]. intros j [_ Hj]%list_elem_of_filter. by apply Hr.
Qed.

(** ** The round-robin *)

(** Whose turn it is in [n] successive ticks on one queue. *)
Fixpoint picks (jobs : list PublishJob) (n : nat) (last : option string) : list PublishJob :=
  match n with
  | O => []
  | S n => match pick_job jobs last with
           | None => []
           | Some j => j :: picks jobs n (Some (j_series j))
           end
  end.

Lemma position_of_lookup l p j : NoDup (j_series <$> l) → l !! p = Some j → position_of l (j_series j) = Some p.
Proof.
  revert p. induction l as [|j0 l IH]; intros p Hnd Hp; [done|]. rewrite fmap_cons, NoDup_cons in Hnd. destruct Hnd as [Hni Hnd].
  cbn [position_of]. destruct p as [|p]; [injection Hp as ->; by rewrite bool_decide_eq_true_2|].
  change (l !! p = Some j) in Hp. rewrite bool_decide_eq_false_2; [by rewrite (IH p Hnd Hp)|].
  intros He. apply Hni. rewrite He. apply list_elem_of_fmap. exists j. split; [done|]. by eapply list_elem_of_lookup_2.
Qed.

Lemma served_group_sub jobs j : j ∈ served_group jobs → j ∈ jobs.
Proof. unfold served_group. destruct (existsb _ _); intros Hj; repeat (apply list_elem_of_filter in Hj as [_ Hj]); done. Qed.

Lemma served_group_NoDup jobs : NoDup (j_series <$> jobs) → NoDup (j_series <$> served_group jobs).
Proof. intros Hnd. unfold served_group. destruct (existsb _ _); by repeat apply filter_series_NoDup. Qed.

Lemma pick_after jobs p j : NoDup (j_series <$> jobs) → served_group jobs !! p = Some j →
  pick_job jobs (Some (j_series j)) = served_group jobs !! ((p + 1) mod length (served_group jobs))%nat.
Proof.
  intros Hnd Hp. unfold pick_job. set (g := served_group jobs) in *. cbn [mbind option_bind].
  rewrite (position_of_lookup g p j) by (done || by apply served_group_NoDup). by destruct g.
Qed.

(** Where the turn starts. *)
Lemma pick_first jobs last : served_group jobs ≠ [] → ∃ q, (q < length (served_group jobs))%nat ∧
  pick_job jobs last = served_group jobs !! q.
Proof.
  intros Hne. unfold pick_job. destruct (served_group jobs) as [|j0 g'] eqn:Eg; [done|]. set (g := j0 :: g') in *.
  assert (0 < length g)%nat by (unfold g; simpl; lia).
  destruct (last ≫= position_of g) as [p|]; [|exists 0%nat; done].
  exists ((p + 1) mod length g)%nat. split; [apply Nat.mod_upper_bound; lia|done].
Qed.

Lemma picks_lookup jobs n q j : NoDup (j_series <$> jobs) → served_group jobs !! q = Some j →
  let g := served_group jobs in
  length (picks jobs n (Some (j_series j))) = n ∧
  ∀ k, (k < n)%nat → picks jobs n (Some (j_series j)) !! k = g !! ((q + 1 + k) mod length g)%nat.
Proof.
  intros Hnd Hq g. revert q j Hq. induction n as [|n IH]; intros q j Hq; [split; [done|lia]|].
  cbn [picks]. rewrite (pick_after jobs q j Hnd Hq). fold g.
  assert (Hg : (0 < length g)%nat) by (apply lookup_lt_Some in Hq; unfold g; lia).
  destruct (lookup_lt_is_Some_2 g ((q + 1) mod length g)) as [j' Hj']; [apply Nat.mod_upper_bound; lia|].
  rewrite Hj'. destruct (IH _ _ Hj') as [Hlen Hk]. split; [simpl; by rewrite Hlen|].
  intros [|k] Hkn; [by rewrite Nat.add_0_r, Hj'|]. change ((?x :: ?l) !! S k) with (l !! k). rewrite Hk by lia.
  rewrite <-Nat.add_assoc, Nat.Div0.add_mod_idemp_l. f_equal; try (f_equal; lia).
Qed.

(** The turn passes through the served group: in as many ticks as it has jobs,
    each is served once, whatever came before. *)
Lemma picks_rotate jobs last : NoDup (j_series <$> jobs) →
  picks jobs (length (served_group jobs)) last ≡ₚ served_group jobs.
Proof.
  intros Hnd. set (g := served_group jobs). destruct (decide (g = [])) as [Hg|Hg]; [by rewrite Hg|].
  destruct (pick_first jobs last Hg) as (q & Hq & Hp). fold g in Hq, Hp.
  destruct (length g) as [|n] eqn:Hn; [lia|]. cbn [picks].
  destruct (lookup_lt_is_Some_2 g q) as [j Hj]; [lia|]. rewrite Hp, Hj.
  destruct (picks_lookup jobs n q j Hnd Hj) as [Hl Hk]. fold g in Hk.
  assert (E : j :: picks jobs n (Some (j_series j)) = drop q g ++ take q g).
  { apply list_eq_same_length with (n := S n); [rewrite length_app, length_drop, length_take; lia|simpl; by rewrite Hl|].
    intros k a b Hkn Ha Hb. assert (Ha' : g !! ((q + k) mod S n)%nat = Some a).
    { destruct k as [|k]; [rewrite Nat.add_0_r, Nat.mod_small by lia; simpl in Ha; congruence|].
      change (picks jobs n (Some (j_series j)) !! k = Some a) in Ha. rewrite Hk in Ha by lia. rewrite Hn in Ha.
      rewrite <-Ha. f_equal. f_equal. lia. }
    enough (g !! ((q + k) mod S n)%nat = Some b) by congruence. rewrite <-Hb.
    destruct (decide (k < length (drop q g))%nat) as [Hd|Hd].
    - rewrite lookup_app_l, lookup_drop by done. rewrite length_drop in Hd. by rewrite Nat.mod_small by lia.
    - rewrite lookup_app_r by lia. rewrite length_drop in *. rewrite lookup_take_lt by lia.
      f_equal. replace (q + k)%nat with ((k - (length g - q)) + 1 * S n)%nat by lia.
      rewrite Nat.Div0.mod_add. apply Nat.mod_small. lia. }
  rewrite E. rewrite Permutation_app_comm. by rewrite take_drop.
Qed.

(** The round-robin is fair within a queue.  On a queue that does not
    change, as many successive ticks as the served group has jobs serve each of
    its jobs exactly once, whoever was served before. *)
Theorem turn_is_fair (jobs : list PublishJob) (last : option string) :
  NoDup (j_series <$> jobs) →
  picks jobs (length (served_group jobs)) last ≡ₚ served_group jobs.
Proof. apply picks_rotate. Qed.

(** ** Runs *)

(** What happens to the sender: a job is queued, the resend budget moves, or
    a tick, between whose load and update jobs may be queued. *)
Section Runs.
Context `{Env, Sealing}.

Inductive TEvent :=
  | EEnqueue (job : PublishJob)
  | EBudget (g : option GroupCursor)
  | ETick (w : World) (between : list PublishJob).

Record Sys := mkSys { y_jobs : FileJobs; y_group : option GroupCursor; y_sender : Sender }.

Definition enqueue_all (s : FileJobs) (jobs : list PublishJob) : FileJobs :=
  foldl (λ s j, (enqueue_publish s j).1) s jobs.

(** What a step published: the job, the day it counted for, the content. *)
Definition sys_step (daily_bytes : N) (e : TEvent) (y : Sys) : Sys * option (PublishJob * N * string) :=
  match e with
  | EEnqueue job => ({| y_jobs := (enqueue_publish (y_jobs y) job).1; y_group := y_group y; y_sender := y_sender y |}, None)
  | EBudget g => ({| y_jobs := y_jobs y; y_group := g; y_sender := y_sender y |}, None)
  | ETick w between =>
      let r := decide_tick w daily_bytes (y_group y) (y_jobs y) (y_sender y) in
      ({| y_jobs := apply_act r.2 (enqueue_all (y_jobs y) between); y_group := y_group y; y_sender := r.1 |},
       match r.2 with Sent job day content => Some (job, day, content) | _ => None end)
  end.

Fixpoint sys_run (daily_bytes : N) (es : list TEvent) (y : Sys) : Sys * list (PublishJob * N * string) :=
  match es with
  | [] => (y, [])
  | e :: es =>
      let r := sys_step daily_bytes e y in
      let r' := sys_run daily_bytes es r.1 in
      (r'.1, option_list r.2 ++ r'.2)
  end.

(** The jobs an event queues. *)
Definition queued_by (e : TEvent) : list PublishJob :=
  match e with EEnqueue job => [job] | EBudget _ => [] | ETick _ between => between end.

Lemma enqueue_all_ok s jobs : queue_ok s → (∀ j, j ∈ jobs → (length (j_ranges j) ≤ MAX_JOB_RANGES)%nat) → queue_ok (enqueue_all s jobs).
Proof.
  unfold enqueue_all. revert s. induction jobs as [|j jobs IH]; intros s Hs Hj; cbn [foldl]; [done|].
  apply IH; [apply enqueue_ok; [done|apply Hj; by left]|]. intros j' Hj'. apply Hj. by right.
Qed.

(** The queue's invariant.  In every run of the sender, whatever is queued
    between its ticks and during them, and whatever the machine answers, the
    queue has one entry per series and no entry grows beyond 256 ranges,
    provided no single job is queued with more. *)
Theorem queue_invariant (daily_bytes : N) (es : list TEvent) (y : Sys) :
  queue_ok (y_jobs y) →
  (∀ e j, e ∈ es → j ∈ queued_by e → (length (j_ranges j) ≤ MAX_JOB_RANGES)%nat) →
  queue_ok (y_jobs (sys_run daily_bytes es y).1).
Proof.
  revert y. induction es as [|e es IH]; intros y Hy Hj; [done|]. cbn [sys_run fst].
  apply IH; [|intros e' j He'; apply Hj; by right]. specialize (Hj e). destruct e as [job|g|w between]; cbn.
  - apply enqueue_ok; [done|]. apply (Hj job); by left.
  - done.
  - assert (Hq : queue_ok (enqueue_all (y_jobs y) between)) by (apply enqueue_all_ok; [done|]; intros j; apply Hj; by left).
    destruct (decide_tick _ _ _ _ _).2; cbn; [by apply advance_ok|by apply drop_ok|done].
Qed.

(** ** The daily cap *)

Lemma enqueue_all_counters s jobs : sent_day (enqueue_all s jobs) = sent_day s ∧ sent_bytes (enqueue_all s jobs) = sent_bytes s.
Proof.
  unfold enqueue_all. revert s. induction jobs as [|j jobs IH]; intros s; cbn [foldl]; [done|].
  destruct (IH (enqueue_publish s j).1) as [-> ->]. unfold enqueue_publish. by repeat case_match.
Qed.

(** A piece goes out only on its day and under the cap. *)
Lemma sent_gate w daily_bytes g jobs k k' job day content :
  decide_tick w daily_bytes g jobs k = (k', Sent job day content) →
  day = (w_now w / 86400)%N ∧
  (u64_saturating_add (if (sent_day jobs =? day)%N then sent_bytes jobs else 0%N) PIECE_WIRE_BYTES ≤ daily_bytes)%N.
Proof.
  unfold decide_tick. destruct (pick_job _ _) as [j|]; [|done]. unfold gated.
  destruct (_ || _) eqn:Eg; [done|]. apply orb_false_iff in Eg as [_ Eg]. to_prop.
  intros Hr. injection Hr as _ Hr. assert (Hd : day = (w_now w / 86400)%N); [|by rewrite Hd].
  assert (Hpub : ∀ outer framed, publish_piece w j (w_now w / 86400) outer framed = Sent job day content → day = (w_now w / 86400)%N).
  { intros outer framed. unfold publish_piece. by repeat case_match; intros [=]. }
  destruct (j_stored j).
  - cbn [snd] in Hr. unfold tick_stored in Hr. repeat case_match; simplify_eq; done.
  - assert (Hheld : ∀ src, (tick_held w j (w_now w / 86400) src (k_manifests k)).2 = Sent job day content → day = (w_now w / 86400)%N).
    { intros src. unfold tick_held, held_manifest. intros Ht. repeat case_match; simplify_eq/=; try done; by eapply Hpub. }
    destruct (j_vault j); [by eapply Hheld|]. destruct (j_wiki_base j); [by eapply Hheld|].
    unfold tick_file, file_manifest in Hr. repeat case_match; simplify_eq/=; try done; by eapply Hpub.
Qed.

(** The clock readings of a run, and the bytes it published on a day. *)
Definition tick_times (es : list TEvent) : list N := omap (λ e, match e with ETick w _ => Some (w_now w) | _ => None end) es.

Definition bytes_on (d : N) (tr : list (PublishJob * N * string)) : N :=
  (len (filter (λ t, t.1.2 = d) tr) * PIECE_WIRE_BYTES)%N.

(** What the counter already holds for a day. *)
Definition counted (d : N) (s : FileJobs) : N := if (sent_day s =? d)%N then sent_bytes s else 0%N.

Lemma bytes_on_cons d t tr : bytes_on d (t :: tr) = ((if decide (t.1.2 = d) then PIECE_WIRE_BYTES else 0) + bytes_on d tr)%N.
Proof. unfold bytes_on. rewrite filter_cons. destruct (decide (t.1.2 = d)); rewrite ?len_cons; lia. Qed.

Lemma apply_counters a s : match a with Sent _ _ _ => False | _ => True end →
  sent_day (apply_act a s) = sent_day s ∧ sent_bytes (apply_act a s) = sent_bytes s.
Proof. by destruct a. Qed.

(** A step keeps the counter, or publishes one piece and counts it. *)
Lemma step_counts daily_bytes e y : (daily_bytes < u64_max)%N →
  let r := sys_step daily_bytes e y in
  (r.2 = None ∧ sent_day (y_jobs r.1) = sent_day (y_jobs y) ∧ sent_bytes (y_jobs r.1) = sent_bytes (y_jobs y)) ∨
  ∃ job w between content, e = ETick w between ∧ r.2 = Some (job, (w_now w / 86400)%N, content) ∧
    sent_day (y_jobs r.1) = (w_now w / 86400)%N ∧
    sent_bytes (y_jobs r.1) = (counted (w_now w / 86400) (y_jobs y) + PIECE_WIRE_BYTES)%N ∧
    (sent_bytes (y_jobs r.1) ≤ daily_bytes)%N.
Proof.
  intros Hu. destruct e as [job|g|w between]; cbn.
  - left. split; [done|]. apply (enqueue_all_counters (y_jobs y) [job]).
  - by left.
  - destruct (enqueue_all_counters (y_jobs y) between) as [Ed Eb].
    destruct (decide_tick w daily_bytes (y_group y) (y_jobs y) (y_sender y)) as [k' a] eqn:Et. cbn [fst snd].
    destruct a as [job day content|series|h].
    + right. apply sent_gate in Et as [-> Hcap]. exists job, w, between, content. split; [done|]. split; [done|].
      cbn. rewrite Ed, Eb. unfold counted. split; [done|].
      set (b := if (sent_day (y_jobs y) =? w_now w / 86400)%N then sent_bytes (y_jobs y) else 0%N) in *.
      unfold u64_saturating_add in *. split; lia.
    + left. cbn. rewrite Ed, Eb. done.
    + left. cbn. rewrite Ed, Eb. done.
Qed.

Lemma run_counts daily_bytes es y : (daily_bytes < u64_max)%N →
  StronglySorted N.le (tick_times es) → (∀ t, t ∈ tick_times es → (sent_day (y_jobs y) ≤ t / 86400)%N) →
  let tr := (sys_run daily_bytes es y).2 in
  (∀ d, (d < sent_day (y_jobs y))%N → bytes_on d tr = 0%N) ∧
  (∀ d, bytes_on d tr = 0%N ∨ (counted d (y_jobs y) + bytes_on d tr ≤ daily_bytes)%N).
Proof.
  intros Hu. revert y. induction es as [|e es IH]; intros y Hs Ht; cbn [sys_run snd]; [split; intros d; [done|by left]|].
  assert (Hs' : StronglySorted N.le (tick_times es)) by (destruct e; cbn in Hs; [done|done|by apply StronglySorted_inv in Hs as [? _]]).
  assert (Ht' : ∀ t, t ∈ tick_times es → (sent_day (y_jobs y) ≤ t / 86400)%N) by (intros t Hin; apply Ht; destruct e; cbn; [done|done|by right]).
  destruct (step_counts daily_bytes e y Hu) as [(Hn & Ed & Eb)|(job & w & between & content & -> & Hr & Ed & Eb & Hcap)].
  - rewrite Hn. change (option_list None ++ ?tr) with tr. unfold counted. rewrite <-Ed, <-Eb. apply IH; [done|by rewrite Ed].
  - rewrite Hr. change (option_list (Some ?t) ++ ?tr) with (t :: tr). set (y' := (sys_step daily_bytes (ETick w between) y).1) in *.
    set (D := (w_now w / 86400)%N) in *. cbn [tick_times omap list_omap] in Hs. apply StronglySorted_inv in Hs as [_ Hall].
    rewrite Forall_forall in Hall. assert (HD : (sent_day (y_jobs y) ≤ D)%N) by (apply Ht; by left).
    assert (Hlater : ∀ t, t ∈ tick_times es → (sent_day (y_jobs y') ≤ t / 86400)%N).
    { intros t Hin. rewrite Ed. apply N.Div0.div_le_mono. by apply Hall. }
    destruct (IH y' Hs' Hlater) as [Hz Hc]. rewrite Ed in Hz. split; intros d.
    + intros Hd. rewrite bytes_on_cons. cbn. destruct (decide (D = d)); [lia|]. rewrite Hz by lia. done.
    + rewrite bytes_on_cons. cbn [fst snd]. destruct (decide (D = d)) as [<-|Hne].
      * right. destruct (Hc D) as [->|Hle]; [rewrite N.add_0_r; fold (counted D (y_jobs y)); lia|].
        unfold counted in Hle at 1. rewrite Ed, N.eqb_refl, Eb in Hle. lia.
      * destruct (N.lt_ge_cases d D) as [Hlt|Hge]; [left; by rewrite Hz|].
        destruct (Hc d) as [->|Hle]; [by left|right]. unfold counted. destruct (N.eqb_spec (sent_day (y_jobs y)) d); [lia|].
        unfold counted in Hle. rewrite Ed in Hle. destruct (N.eqb_spec D d); [done|]. lia.
Qed.

(** C22: the daily cap holds.  In every run with a clock that does not go
    backwards, whatever is queued and whatever the machine answers, the pieces
    published on a day, together with what the persisted counter already held
    for it, do not exceed the cap, unless none is published on it. *)
Theorem daily_cap_holds (daily_bytes : N) (es : list TEvent) (y : Sys) (d : N) :
  (daily_bytes < u64_max)%N →
  StronglySorted N.le (tick_times es) → (∀ t, t ∈ tick_times es → (sent_day (y_jobs y) ≤ t / 86400)%N) →
  bytes_on d (sys_run daily_bytes es y).2 = 0%N ∨
  (counted d (y_jobs y) + bytes_on d (sys_run daily_bytes es y).2 ≤ daily_bytes)%N.
Proof. intros Hu Hs Ht. by apply run_counts. Qed.
End Runs.
