(* ===== verification/Share.v ===== *)
(** * A shared file, from the sender to the fetch

    The composition of [Trickle] and [Fetch]: while the sender's disk holds
    the shared file, the contents it publishes for the share are the pieces of
    the file's series in the publisher's order, whatever other jobs it serves
    in between; and a fetch that sees them, among anything else, completes. *)

From S2P Require Import Prelude Bytes Strs Env Chunk Window Delivery FilePlane FilePlaneProps Fetch FetchInv FetchProps FetchLive Trickle TrickleProps.

(** ** The entries of one series *)

Definition entries (s : string) (l : list PublishJob) : list PublishJob := filter (λ j, j_series j = s) l.

Lemma entries_app s l k : entries s (l ++ k) = entries s l ++ entries s k.
Proof. apply filter_app. Qed.

Lemma entries_alter_other s s' f l : s' ≠ s → (∀ j, j_series j = s' → j_series (f j) = s') →
  entries s (alter_job s' f l) = entries s l.
Proof.
  intros Hne Hf. unfold entries. induction l as [|j l IH]; [done|]. cbn [alter_job]. case_bool_decide as Hj.
  - rewrite !filter_cons_False; [done|congruence|]. rewrite Hf by done. done.
  - rewrite !filter_cons. destruct (decide (j_series j = s)); by rewrite IH.
Qed.

Lemma entries_alter_same s f l : (∀ j, j_series j = s → j_series (f j) = s) →
  entries s (alter_job s f l) = match entries s l with [] => [] | j :: es => f j :: es end.
Proof.
  intros Hf. unfold entries. induction l as [|j l IH]; [done|]. cbn [alter_job]. case_bool_decide as Hj.
  - rewrite !filter_cons_True by (done || by apply Hf). done.
  - rewrite !filter_cons_False by done. apply IH.
Qed.

Lemma entries_filter s (P : PublishJob → Prop) `{∀ j, Decision (P j)} l : entries s (filter P l) = filter P (entries s l).
Proof.
  unfold entries. induction l as [|j l IH]; [done|]. rewrite !filter_cons.
  destruct (decide (P j)), (decide (j_series j = s)); rewrite ?filter_cons; repeat case_decide; try done; by rewrite IH.
Qed.

Lemma entries_enqueue s q job : j_series job ≠ s → entries s (publish (enqueue_publish q job).1) = entries s (publish q).
Proof.
  intros Hne. unfold enqueue_publish. destruct (find _ _) as [e|] eqn:Ef.
  - destruct (is_whole e); [done|]. destruct (is_whole job); cbn; [by apply entries_alter_other|].
    destruct (_ || _); [done|]. cbn. by apply entries_alter_other.
  - cbn [fst publish with_publish]. rewrite entries_app. unfold entries at 2. rewrite filter_cons_False by done. by rewrite filter_nil, app_nil_r.
Qed.

Lemma entries_enqueue_all s q jobs : (∀ j, j ∈ jobs → j_series j ≠ s) →
  entries s (publish (enqueue_all q jobs)) = entries s (publish q).
Proof.
  unfold enqueue_all. revert q. induction jobs as [|j jobs IH]; intros q Hj; cbn [foldl]; [done|].
  rewrite IH by (intros j' ?; apply Hj; by right). apply entries_enqueue, Hj. by left.
Qed.

Lemma pick_job_in jobs last j : pick_job jobs last = Some j → j ∈ jobs.
Proof.
  unfold pick_job. destruct (served_group jobs) as [|j0 g] eqn:Eg; [done|]. intros Hp.
  apply list_elem_of_lookup_2 in Hp. apply served_group_sub. by rewrite Eg.
Qed.

Section Acts.
Context `{Env, Sealing}.

(** The series an act is about. *)
Definition act_series (a : TickAct) : option string :=
  match a with Sent job _ _ => Some (j_series job) | Dropped series => Some series | Held _ => None end.

(** A tick acts on the job it picked and on no other, and remembers nothing
    about other series. *)
Lemma tick_acts_on w daily_bytes g jobs k k' a : decide_tick w daily_bytes g jobs k = (k', a) →
  match pick_job (publish jobs) (k_last k) with
  | None => k' = k ∧ a = Held Idle
  | Some j => (∀ s, act_series a = Some s → s = j_series j) ∧ ∀ s, s ≠ j_series j → k_manifests k' !! s = k_manifests k !! s
  end.
Proof.
  unfold decide_tick. destruct (pick_job _ _) as [j|]; [|by intros [= <- <-]].
  destruct (gated _ _ _ _); [by intros [= <- <-]|]. intros Hr. injection Hr as <- Ha. cbn [k_manifests].
  assert (Hpub : ∀ day outer framed s, act_series (publish_piece w j day outer framed) = Some s → s = j_series j).
  { intros day outer framed s. unfold publish_piece. by repeat case_match; intros [= <-]. }
  assert (Hheld : ∀ day src, (∀ s, act_series (tick_held w j day src (k_manifests k)).2 = Some s → s = j_series j) ∧
    ∀ s, s ≠ j_series j → (tick_held w j day src (k_manifests k)).1 !! s = k_manifests k !! s).
  { intros day src. unfold tick_held, held_manifest. split; intros s Hs;
      repeat case_match; simplify_eq/=; try done; eauto; by rewrite ?lookup_delete_ne, ?lookup_insert_ne by done. }
  destruct (j_stored j); [|destruct (j_vault j); [|destruct (j_wiki_base j)]].
  - split; [|done]. subst a. unfold tick_stored. intros s. by repeat case_match; intros [= <-].
  - subst a. apply Hheld.
  - subst a. apply Hheld.
  - subst a. unfold tick_file, file_manifest. split; intros s Hs;
      repeat case_match; simplify_eq/=; try done; eauto; by rewrite ?lookup_delete_ne, ?lookup_insert_ne by done.
Qed.
End Acts.

Section Shared.
Context `{Env, Sealing} (Hw : sha_width) (Hseal : sealing_faithful).
(** The share: the file, its key, where it lies, its series and layout. *)
Context (F key : bytes) (path series : string) (l : SeriesLayout).
Context (Hfit : fits F) (Hkey : len key = 32%N) (Hl : layout_for (len (slices F)) = Some l).

Abbreviation M := (manifest_of F).

(** The disk holds the file, however it portions it, and nonces are nonces. *)
Definition holds_file (w : World) : Prop :=
  (∃ file, w_file w path = Some file ∧ ∀ o, clean (file o) ∧ content (file o) = drop (N.to_nat o) F) ∧
  ∀ n, w_nonce w = Some n → length n = N.to_nat NONCE_LEN.

(** The job that publishes the whole series, at its [n]-th piece. *)
Definition share_job (started_at n : N) : PublishJob :=
  {| j_series := series; j_key := key; j_path := path; j_count := len (slices F); j_size := len F;
     j_root := root M; j_ranges := whole_series_ranges l; j_next := n; j_started_at := started_at;
     j_stored := false; j_wiki_base := false; j_vault := None |}.

(** Content that opens to piece [i]. *)
Definition opens_to (i : N) (c : string) : Prop := open_piece key c = Ok (i, len (slices F), series_piece F l i).

Lemma layout_facts : l_count l = len (slices F) ∧ l_chunks l = chunk_count_for (len (slices F)) ∧
  l_top l = (l_count l + l_chunks l)%N ∧ (l_top l ≤ u32_max)%N.
Proof.
  pose proof Hl as Hl'. unfold layout_for in Hl'. destruct (_ <? _)%N in Hl'; [done|].
  destruct (N.leb_spec (len (slices F) + chunk_count_for (len (slices F))) u32_max); [|done]. by injection Hl' as <-.
Qed.

Lemma manifest_count : m_count M = len (m_hashes M).
Proof. apply (mw_count _ (manifest_of_wf F Hw Hfit)). Qed.

Lemma chunk_at_slot slot : (slot < l_chunks l)%N → chunk M slot = default [] (chunk_list M !! N.to_nat slot).
Proof.
  intros Hs. destruct layout_facts as (Ec & Ek & _). rewrite Ek in Hs.
  rewrite <-(chunks_are M manifest_count Hfit). cbn [m_count manifest_of]. rewrite list_lookup_fmap, range_lookup by done. done.
Qed.

Lemma chunk_fits slot c : chunk_list M !! slot = Some c → (len c ≤ PIECE_PAYLOAD_LEN)%N.
Proof.
  unfold chunk_list. rewrite list_lookup_fmap. destruct (blocks _ _ !! slot) as [hs|] eqn:Eb; [|done]. cbn. intros [= <-].
  apply lookup_blocks_Some in Eb as [_ ->]. unfold len. rewrite (length_join_uniform 32).
  - pose proof (length_block (N.to_nat HASHES_PER_CHUNK) (m_hashes M) slot). pose proof payload_per. lia.
  - intros h Hh. apply (mw_hashes M); [by apply manifest_of_wf|]. unfold block in Hh.
    apply list_elem_of_lookup in Hh as [j Hj]. rewrite lookup_take_Some, lookup_drop in Hj. apply list_elem_of_lookup. destruct Hj. eauto.
Qed.

Lemma slice_fits i s : slices F !! i = Some s → (len s ≤ PIECE_PAYLOAD_LEN)%N.
Proof. intros [_ ->]%lookup_blocks_Some. unfold len. rewrite length_block. lia. Qed.

(** Every piece of the series fits a block. *)
Lemma series_piece_fits i : (len (series_piece F l i) ≤ PIECE_PAYLOAD_LEN)%N.
Proof.
  unfold series_piece. pose proof payload_val. destruct (_ <? _)%N.
  - destruct (slices F !! N.to_nat i) as [s|] eqn:Es; cbn [default]; [by eapply slice_fits|change (0 ≤ PIECE_PAYLOAD_LEN)%N; lia].
  - destruct (_ <? _)%N; [destruct (chunk_list M !! _) as [c|] eqn:Ec; cbn [default]; [by eapply chunk_fits|change (0 ≤ PIECE_PAYLOAD_LEN)%N; lia]|].
    rewrite top_bytes_eq by (done || apply manifest_count). rewrite !len_app, !len_le_bytes.
    unfold len at 1. rewrite join_hashes_len, length_chunk_list by (done || apply manifest_count).
    pose proof (chunk_count_small (m_count M) Hfit). cbn [m_count manifest_of] in *. lia.
Qed.

(** The sender's bytes for a piece are the framed piece of the series. *)
Lemma piece_bytes_series w j i : holds_file w → j_path j = path → (i ≤ l_top l)%N →
  piece_bytes w j M i = frame_piece i (len (slices F)) (series_piece F l i).
Proof.
  intros [(file & Hfile & Hread) _] Hp Hi. destruct layout_facts as (Ec & Ek & Et & Eu).
  unfold piece_bytes, meta_piece. cbn [m_count manifest_of]. rewrite Hl. cbn [ok_or obind].
  pose proof (frame_piece_ok i (len (slices F)) (series_piece F l i) (series_piece_fits i)) as Hok.
  unfold series_piece in *. destruct (N.eqb_spec i (l_top l)) as [->|Hne].
  { destruct (N.ltb_spec (l_top l) (l_count l)); [lia|]. destruct (N.ltb_spec (l_top l) (l_top l)); [lia|]. by rewrite Hok. }
  destruct (N.ltb_spec (l_top l) i); [lia|]. rewrite <-Ec in Hok |- *. destruct (N.leb_spec (l_count l) i) as [Hge|Hlt].
  { destruct (N.ltb_spec i (l_count l)); [lia|]. destruct (N.ltb_spec i (l_top l)); [|lia].
    rewrite chunk_at_slot by lia. by rewrite Hok. }
  destruct (N.ltb_spec i (l_count l)) as [_|]; [|lia]. cbn [obind].
  destruct (lookup_lt_is_Some_2 (slices F) (N.to_nat i)) as [s Hs]; [rewrite Ec in Hlt; unfold len in Hlt; lia|].
  cbn [m_size m_hashes manifest_of]. rewrite Ec, (slice_len F Hfit i s Hs). cbn [ok_or obind]. rewrite Hp, Hfile. cbn [ok_or obind].
  pose proof (fits_size F Hfit). pose proof max_pieces_val. pose proof payload_val.
  apply lookup_blocks_Some in Hs as Hb. destruct Hb as [Hib Hse].
  apply nblocks_lt in Hib; [|apply payload_nat_pos].
  destruct (N.ltb_spec u64_max (i * PIECE_PAYLOAD_LEN)); [unfold u64_max, len in *; lia|].
  destruct (Hread (i * PIECE_PAYLOAD_LEN)%N) as [Hcl Hco].
  destruct (read_full_clean _ (N.to_nat (len s)) Hcl) as (rest & -> & _ & _). cbn [obind fst].
  assert (Htake : take (N.to_nat (len s)) (content (file (i * PIECE_PAYLOAD_LEN)%N)) = s).
  { rewrite Hco. pose proof (f_equal length Hse) as Hsl. rewrite length_block in Hsl.
    transitivity (take (N.to_nat PIECE_PAYLOAD_LEN) (drop (N.to_nat (i * PIECE_PAYLOAD_LEN)) F)); [|rewrite Hse; unfold block; by rewrite N2Nat.inj_mul].
    unfold len. rewrite Nat2N.id, Hsl, N2Nat.inj_mul.
    destruct (Nat.min_spec (N.to_nat PIECE_PAYLOAD_LEN) (length F - N.to_nat i * N.to_nat PIECE_PAYLOAD_LEN)) as [[Hlt' ->]|[Hge' ->]]; [done|].
    rewrite !take_ge by (rewrite length_drop; lia). done. }
  rewrite Htake, list_lookup_fmap, Hs. cbn [fmap option_fmap option_map ok_or obind default]. rewrite N.eqb_refl, bool_decide_eq_true_2 by done.
  cbn [negb orb]. done.
Qed.

(** What the sender remembers of the file is its manifest. *)
Definition cache_ok (manifests : gmap string Manifest) : Prop := ∀ m, manifests !! series = Some m → m = M.

Lemma file_manifest_share w manifests t n : holds_file w → cache_ok manifests →
  ∃ manifests', file_manifest w (share_job t n) manifests = inr (M, manifests') ∧ cache_ok manifests'.
Proof.
  intros [(file & Hfile & Hread) _] Hc. unfold file_manifest. cbn [j_series j_path share_job].
  destruct (manifests !! series) as [m|] eqn:Em; [rewrite (Hc m Em); eauto|].
  rewrite Hfile. cbn [mbind option_bind]. destruct (Hread 0%N) as [Hcl Hco]. rewrite drop_0 in Hco.
  pose proof (fits_size F Hfit). pose proof max_pieces_val. pose proof payload_val.
  rewrite manifest_of_reader_exact; [|done|rewrite Hco; unfold u64_max; lia]. rewrite Hco.
  destruct (N.ltb_spec MAX_SERIES_PIECES (len (slices F))) as [Hbig|_]; [unfold fits in Hfit; lia|]. cbn [fst].
  rewrite String.eqb_refl, N.eqb_refl. cbn [andb]. eexists. split; [done|].
  intros m. rewrite lookup_insert_eq. by intros [= <-].
Qed.

(** The job's turn: the piece at its cursor goes out, or nothing happens. *)
Lemma tick_share w manifests t n i day : holds_file w → cache_ok manifests → series_order l !! N.to_nat n = Some i →
  let r := tick_file w (share_job t n) day manifests in
  cache_ok r.1 ∧ (r.2 = Held Failed ∨ ∃ content, r.2 = Sent (share_job t n) day content ∧ opens_to i content).
Proof.
  intros Hf Hc Hi r. destruct (whole_series_order _ _ Hl) as (Ho & Hfitr & _). destruct layout_facts as (Ec & Ek & Et & Eu).
  assert (Hit : (i ≤ l_top l)%N).
  { apply list_elem_of_lookup_2 in Hi. unfold series_order in Hi. rewrite elem_of_cons, elem_of_app, list_elem_of_fmap in Hi.
    setoid_rewrite elem_of_range in Hi. destruct Hi as [->|[(s & -> & ?)|?]]; lia. }
  unfold r, tick_file. destruct (file_manifest_share w manifests t n Hf Hc) as (man' & -> & Hc').
  cbn [j_ranges j_next share_job]. rewrite index_at_spec by done. rewrite Ho, Hi.
  unfold key_of. cbn [j_key share_job]. rewrite Hkey. cbn [N.eqb Pos.eqb].
  rewrite (piece_bytes_series w _ i) by done.
  pose proof (frame_piece_ok i (len (slices F)) (series_piece F l i) (series_piece_fits i)) as Hfr.
  rewrite Hfr. split; [done|]. unfold publish_piece. cbn [snd].
  destruct (w_nonce w) as [nonce|] eqn:En; [|by left].
  destruct (seal_outer _ _ _) as [c| |] eqn:Es; [|by left..]. destruct (w_accepts w); [|by left]. right. exists c. split; [done|].
  apply (open_seal_piece nonce); [done|by apply Hf|lia|lia|]. unfold seal_piece. by rewrite Hfr.
Qed.

(** ** Runs that publish the share *)

(** What a run published for the share, in order. *)
Definition sent_for (tr : list (PublishJob * N * string)) : list string :=
  (λ e, e.2) <$> filter (λ e, j_series e.1.1 = series) tr.

(** [n] pieces are out: the job stands at its [n]-th piece, or is done. *)
Record share_at (t n : N) (y : Sys) : Prop := {
  sa_cache : cache_ok (k_manifests (y_sender y));
  sa_entry : entries series (publish (y_jobs y)) = if (n <? len (series_order l))%N then [share_job t n] else [];
  sa_len : (n ≤ len (series_order l))%N;
}.

Lemma order_len : job_total (whole_series_ranges l) = len (series_order l) ∧ (len (series_order l) ≤ u32_max)%N.
Proof.
  destruct (whole_series_order _ _ Hl) as (Ho & _ & _). rewrite job_total_spec, Ho. split; [done|].
  destruct layout_facts as (Ec & Ek & Et & Eu). unfold series_order. rewrite len_cons, len_app. unfold len at 1 2.
  rewrite length_fmap, !length_range. pose proof (chunk_count_small _ Hfit) as Hk. unfold fits in Hfit.
  pose proof max_pieces_val. unfold u32_max. lia.
Qed.

Lemma share_unfinished t n : is_unfinished (share_job t n) = (n <? len (series_order l))%N.
Proof. unfold is_unfinished. cbn [j_next j_ranges share_job]. by rewrite (proj1 order_len). Qed.

Lemma entry_of q n t j : entries series q = (if (n <? len (series_order l))%N then [share_job t n] else []) →
  j ∈ q → j_series j = series → j = share_job t n ∧ (n < len (series_order l))%N.
Proof.
  intros He Hj Hs. assert (Hin : j ∈ entries series q) by (by apply list_elem_of_filter). rewrite He in Hin.
  destruct (N.ltb_spec n (len (series_order l))); [by apply list_elem_of_singleton in Hin|by apply elem_of_nil in Hin].
Qed.

Lemma advance_other t n q s day : entries series (publish q) = (if (n <? len (series_order l))%N then [share_job t n] else []) →
  s ≠ series → entries series (publish (advance s day q)) = entries series (publish q).
Proof.
  intros He Hs. cbn [publish advance]. rewrite entries_filter, entries_alter_other by done. rewrite He.
  destruct (n <? len (series_order l))%N eqn:En; [|done]. rewrite filter_cons_True by (by rewrite share_unfinished). done.
Qed.

Lemma advance_share t n q day : (n < len (series_order l))%N → entries series (publish q) = [share_job t n] →
  entries series (publish (advance series day q)) = if (n + 1 <? len (series_order l))%N then [share_job t (n + 1)] else [].
Proof.
  intros Hn He. cbn [publish advance]. rewrite entries_filter, entries_alter_same, He by done.
  assert (En : with_next (u32_saturating_add n 1) (share_job t n) = share_job t (n + 1)).
  { unfold with_next, share_job. cbn. f_equal. unfold u32_saturating_add. pose proof (proj2 order_len). lia. }
  cbn [j_next share_job]. fold (share_job t n). rewrite En, filter_cons, filter_nil, share_unfinished.
  by destruct (n + 1 <? len (series_order l))%N.
Qed.

(** Nothing else is queued for the series, and the disk holds the file. *)
Definition leaves_alone (e : TEvent) : Prop :=
  (∀ j, j ∈ queued_by e → j_series j ≠ series) ∧ match e with ETick w _ => holds_file w | _ => True end.

(** A step publishes the next piece of the share, or nothing of it. *)
Lemma share_step daily_bytes e y t n : share_at t n y → leaves_alone e →
  let r := sys_step daily_bytes e y in
  (sent_for (option_list r.2) = [] ∧ share_at t n r.1) ∨
  ∃ i c, series_order l !! N.to_nat n = Some i ∧ opens_to i c ∧ sent_for (option_list r.2) = [c] ∧ share_at t (n + 1) r.1.
Proof.
  intros [Hc He Hn] [Hq Hfile]. destruct e as [job|g|w between]; cbn [sys_step].
  - left. split; [done|]. constructor; cbn [y_jobs y_sender fst]; [done| |done]. rewrite entries_enqueue; [done|]. apply Hq. by left.
  - by left.
  - set (q := enqueue_all (y_jobs y) between).
    assert (Heq : entries series (publish q) = if (n <? len (series_order l))%N then [share_job t n] else []).
    { unfold q. by rewrite entries_enqueue_all. }
    destruct (decide_tick w daily_bytes (y_group y) (y_jobs y) (y_sender y)) as [k' a] eqn:Et. cbn [fst snd].
    pose proof (tick_acts_on _ _ _ _ _ _ _ Et) as Hact.
    destruct (pick_job (publish (y_jobs y)) (k_last (y_sender y))) as [j|] eqn:Ep; [|destruct Hact as [-> ->]; left; by split].
    destruct Hact as [Hser Hman]. destruct (decide (j_series j = series)) as [Hj|Hj].
    + destruct (entry_of _ n t j He (pick_job_in _ _ _ Ep) Hj) as [-> Hlt].
      destruct (lookup_lt_is_Some_2 (series_order l) (N.to_nat n)) as [i Hi]; [unfold len in Hlt; lia|].
      unfold decide_tick in Et. rewrite Ep in Et. destruct (gated _ _ _ _); [injection Et as <- <-; left; by split|].
      cbn [j_stored j_vault j_wiki_base share_job] in Et. injection Et as <- <-.
      destruct (tick_share w (k_manifests (y_sender y)) t n i (w_now w / 86400) Hfile Hc Hi) as [Hc' [->|(c & -> & Hop)]].
      * left. split; [done|]. by constructor.
      * right. exists i, c. split_and!; [done|done| |].
        { unfold sent_for. change (option_list (Some ?z)) with [z]. rewrite filter_cons_True by done. done. }
        constructor; cbn [y_jobs y_sender k_manifests apply_act]; [done| |lia].
        change (j_series (share_job t n)) with series. apply advance_share; [done|].
        rewrite Heq. by destruct (N.ltb_spec n (len (series_order l))); [|lia].
    + left. assert (Hc' : cache_ok (k_manifests k')) by (intros m; rewrite Hman by done; apply Hc).
      destruct a as [job day c|s|h]; cbn [apply_act].
      * specialize (Hser _ eq_refl). split; [unfold sent_for; change (option_list (Some ?z)) with [z]; rewrite filter_cons_False by (cbn; congruence); done|].
        constructor; cbn [y_jobs y_sender]; [done| |done]. rewrite (advance_other t n) by (done || congruence). done.
      * specialize (Hser _ eq_refl). split; [done|]. constructor; cbn [y_jobs y_sender publish drop_job with_publish]; [done| |done].
        rewrite entries_filter, Heq. destruct (n <? len (series_order l))%N; [|done]. rewrite filter_cons_True; [done|]. cbn. congruence.
      * split; [done|]. by constructor.
Qed.

Lemma sent_for_app a b : sent_for (a ++ b) = sent_for a ++ sent_for b.
Proof. unfold sent_for. by rewrite filter_app, fmap_app. Qed.

(** What a run publishes for the share are the next pieces of its series. *)
Lemma share_run daily_bytes es y t n : share_at t n y → (∀ e, e ∈ es → leaves_alone e) →
  let r := sys_run daily_bytes es y in
  let k := length (sent_for r.2) in
  share_at t (n + N.of_nat k) r.1 ∧ Forall2 opens_to (take k (drop (N.to_nat n) (series_order l))) (sent_for r.2).
Proof.
  revert y n. induction es as [|e es IH]; intros y n Hs He; cbn [sys_run fst snd].
  { cbn. rewrite N.add_0_r. by split. }
  rewrite sent_for_app. destruct (share_step daily_bytes e y t n Hs (He e ltac:(by left))) as [[-> Hs']|(i & c & Hi & Hop & -> & Hs')].
  - cbn [app]. apply IH; [done|]. intros e' He'. apply He. by right.
  - destruct (IH _ (n + 1)%N Hs') as [Hs2 Hf]; [intros e' He'; apply He; by right|].
    cbn [app length]. replace (n + N.of_nat (S (length (sent_for (sys_run daily_bytes es (sys_step daily_bytes e y).1).2))))%N
      with (n + 1 + N.of_nat (length (sent_for (sys_run daily_bytes es (sys_step daily_bytes e y).1).2)))%N by lia.
    split; [done|]. rewrite (drop_S _ i) by done. cbn [take]. constructor; [done|].
    by replace (N.to_nat (n + 1)) with (S (N.to_nat n)) in Hf by lia.
Qed.

(** Queued on a queue without it, the share stands at its first piece. *)
Lemma share_queued y t : cache_ok (k_manifests (y_sender y)) → series ∉ j_series <$> publish (y_jobs y) →
  share_at t 0 {| y_jobs := (enqueue_publish (y_jobs y) (share_job t 0)).1; y_group := y_group y; y_sender := y_sender y |}.
Proof.
  intros Hc Hni. assert (Hnone : entries series (publish (y_jobs y)) = []).
  { unfold entries. destruct (filter _ _) as [|j js] eqn:Ef; [done|]. exfalso. apply Hni.
    assert (Hj : j ∈ filter (λ j, j_series j = series) (publish (y_jobs y))) by (rewrite Ef; by left).
    apply list_elem_of_filter in Hj as [<- Hj]. apply list_elem_of_fmap. eauto. }
  constructor; cbn [y_jobs y_sender]; [done| |lia].
  unfold enqueue_publish. destruct (find _ _) as [j|] eqn:Ef.
  - apply find_job in Ef as [Hj Hs]. exfalso. apply Hni. apply list_elem_of_fmap. eauto.
  - cbn [fst publish with_publish]. rewrite entries_app, Hnone. unfold entries. rewrite filter_cons_True by done. cbn [app].
    destruct (N.ltb_spec 0 (len (series_order l))) as [_|Hz]; [done|]. unfold series_order in Hz. rewrite len_cons in Hz. lia.
Qed.
End Shared.

