(* ===== verification/Ask.v ===== *)
(** * Asking for what is missing

    [missing_ranges] and the frame that carries it: what a resumable fetch asks
    for is well formed, survives the wire, and makes a holder publish exactly
    the pieces that are missing.  Also the bitmap of verified pieces, and how
    the turns of range jobs and whole-series jobs mix. *)

From S2P Require Import Prelude Bytes Strs Env Chunk Window Delivery FilePlane FilePlaneProps Fetch FetchInv FetchProps FetchLive Trickle TrickleProps.

(** ** Ranges of pieces *)

Lemma ranges_pieces_snoc rs r : ranges_pieces (rs ++ [r]) = ranges_pieces rs ++ range_pieces r.
Proof. rewrite ranges_pieces_app. unfold ranges_pieces at 2. cbn. by rewrite app_nil_r. Qed.

Lemma range_pieces_single i : range_pieces (i, i) = [i].
Proof. unfold range_pieces, range_len. cbn [fst snd]. rewrite N.sub_diag. change (range (0 + 1)) with [0%N]. cbn [fmap list_fmap]. by rewrite N.add_0_r. Qed.

Lemma range_snoc n : range (n + 1) = range n ++ [n].
Proof.
  unfold range. replace (N.to_nat (n + 1)) with (S (N.to_nat n)) by lia. rewrite seq_S, fmap_app. cbn. by rewrite N2Nat.id.
Qed.

Lemma range_pieces_grow lo hi : (lo ≤ hi)%N → range_pieces (lo, (hi + 1)%N) = range_pieces (lo, hi) ++ [(hi + 1)%N].
Proof.
  intros Hle. unfold range_pieces, range_len. cbn [fst snd]. replace (hi + 1 - lo + 1)%N with (hi - lo + 1 + 1)%N by lia.
  rewrite range_snoc, fmap_app. cbn [fmap list_fmap]. do 2 f_equal. lia.
Qed.

Definition ordered_ranges (rs : list (N * N)) : Prop := ∀ r, r ∈ rs → (r.1 ≤ r.2)%N.

Lemma extend_ranges_spec out i : ordered_ranges out →
  ordered_ranges (extend_ranges out i) ∧ ranges_pieces (extend_ranges out i) = ranges_pieces out ++ [i].
Proof.
  intros Ho. unfold extend_ranges. destruct (last out) as [[lo hi]|] eqn:El.
  - apply last_Some in El as [rs ->]. assert (Hle : (lo ≤ hi)%N) by (apply (Ho (lo, hi)); set_solver).
    destruct (N.eqb_spec (hi + 1) i) as [<-|Hne].
    + rewrite length_app. cbn [length]. replace (length rs + 1 - 1)%nat with (length rs) by lia. rewrite take_app_length.
      split; [|rewrite !ranges_pieces_snoc, range_pieces_grow by done; by rewrite app_assoc].
      intros r [Hr| ->%list_elem_of_singleton]%elem_of_app; [apply Ho; set_solver|cbn; lia].
    + split; [|by rewrite ranges_pieces_snoc, range_pieces_single].
      intros r [Hr| ->%list_elem_of_singleton]%elem_of_app; [by apply Ho|cbn; lia].
  - apply last_None in El as ->. split; [|apply range_pieces_single || by rewrite ranges_pieces_cons, range_pieces_single].
    intros r ->%list_elem_of_singleton. cbn. lia.
Qed.

Lemma extend_all_spec l out : ordered_ranges out →
  ordered_ranges (foldl extend_ranges out l) ∧ ranges_pieces (foldl extend_ranges out l) = ranges_pieces out ++ l.
Proof.
  revert out. induction l as [|i l IH]; intros out Ho; cbn [foldl]; [by rewrite app_nil_r|].
  destruct (extend_ranges_spec out i Ho) as [Ho' He]. destruct (IH _ Ho') as [Ho2 ->]. split; [done|]. by rewrite He, <-app_assoc.
Qed.

(** ** What is missing *)

Section Missing.
Context (l : SeriesLayout) (Htop : l_top l = (l_count l + l_chunks l)%N) (Hu : (l_top l ≤ u32_max)%N).
Context (verified : gset N) (known : list bool) (have_top : bool) (Hknown : len known = l_chunks l).

(** Piece [i] of the series is not held. *)
Definition lacks (i : N) : Prop :=
  (i < l_count l)%N ∧ i ∉ verified ∨
  (l_count l ≤ i < l_top l)%N ∧ known !! N.to_nat (i - l_count l) = Some false ∨
  i = l_top l ∧ have_top = false.

Lemma missing_pieces_spec i : i ∈ missing_pieces verified known have_top l ↔ lacks i.
Proof.
  unfold missing_pieces, lacks. rewrite !elem_of_app, list_elem_of_filter, elem_of_range, list_elem_of_fmap.
  assert (Hc : (∃ y, i = y.2 ∧ y ∈ filter (λ e, e.1 = false) (zip known ((λ s, u32_saturating_add (l_count l) s) <$> range (len known)))) ↔
    (l_count l ≤ i < l_top l)%N ∧ known !! N.to_nat (i - l_count l) = Some false).
  { split.
    - intros ([b k] & -> & [Hb Hin]%list_elem_of_filter). cbn in Hb |- *. subst b. apply list_elem_of_lookup in Hin as [p Hp].
      apply lookup_zip_Some in Hp as [Hk Hi]. rewrite list_lookup_fmap in Hi. destruct (range (len known) !! p) as [s|] eqn:Es; [|done].
      injection Hi as <-. assert (Hs : s = N.of_nat p).
      { unfold range in Es. rewrite list_lookup_fmap in Es. destruct (seq _ _ !! p) as [q|] eqn:Eq; [|done]. apply lookup_seq in Eq. cbn in Es. destruct Eq. by simplify_eq. }
      pose proof (lookup_lt_Some _ _ _ Hk) as Hlt. unfold u32_saturating_add, len in *. rewrite N.min_l by lia.
      replace (N.to_nat (l_count l + s - l_count l)) with p by lia. split; [lia|done].
    - intros [Hi Hk]. exists (false, i). split; [done|]. apply list_elem_of_filter. split; [done|].
      apply list_elem_of_lookup. exists (N.to_nat (i - l_count l)). apply lookup_zip_Some. split; [done|].
      rewrite list_lookup_fmap, range_lookup by lia. cbn. f_equal. unfold u32_saturating_add. lia. }
  rewrite Hc. destruct have_top; rewrite ?elem_of_nil, ?list_elem_of_singleton; naive_solver.
Qed.
End Missing.

Lemma ordered_take rs n : ordered_ranges rs → ordered_ranges (take n rs).
Proof. intros Ho r Hr. apply Ho. apply list_elem_of_lookup in Hr as [k Hk]. apply lookup_take_Some in Hk as [Hk _]. by eapply list_elem_of_lookup_2. Qed.

Lemma ranges_pieces_nil rs : ranges_pieces rs = [] → rs = [].
Proof.
  destruct rs as [|r rs]; [done|]. rewrite ranges_pieces_cons. intros [Hr _]%app_eq_nil.
  apply (f_equal length) in Hr. rewrite length_range_pieces in Hr. unfold range_len in Hr. simpl in Hr. lia.
Qed.

(** The asked ranges hold a first part of the missing pieces. *)
Lemma missing_prefix verified known have_top l :
  let ranges := missing_ranges verified known have_top l in
  ordered_ranges ranges ∧ ∃ rest, missing_pieces verified known have_top l = ranges_pieces ranges ++ rest ∧
  ((length ranges < PIECE_WANT_MAX_RANGES)%nat → rest = []).
Proof.
  unfold missing_ranges. set (m := missing_pieces verified known have_top l). set (rs := foldl extend_ranges [] m).
  destruct (extend_all_spec m []) as [Ho Hp]; [by intros r ?%elem_of_nil|]. fold rs in Ho, Hp. cbn [app] in Hp.
  split; [by apply ordered_take|]. exists (ranges_pieces (drop PIECE_WANT_MAX_RANGES rs)). split.
  - rewrite <-ranges_pieces_app, take_drop. symmetry. exact Hp.
  - rewrite length_take. intros Hlt. rewrite drop_ge by lia. done.
Qed.

Lemma strip_tag tag b : strip_bytes tag (tag ++ b) = Some b.
Proof. induction tag as [|t tag IH]; cbn; [by destruct b|]. by rewrite bool_decide_eq_true_2. Qed.

(** Asking for what is missing.  The ranges a resumable fetch asks for make
    a holder's job publish missing pieces only; all of them when they are fewer
    than 64 ranges, and otherwise at least one; and the frame that carries them
    is accepted by its reader, which sees the same ranges, whenever the codec
    is faithful and the frame is within its size bound. *)
Theorem ask_exact (c : N) (l : SeriesLayout) (verified : gset N) (known : list bool) (have_top : bool)
    (encode : PieceWanted → option bytes) (decode : bytes → option PieceWanted) (by_ id : string) (body : bytes) :
  layout_for c = Some l → len known = l_chunks l →
  (∀ w b, encode w = Some b → decode b = Some w) →
  let ranges := missing_ranges verified known have_top l in
  encode (want_new by_ id ranges) = Some body → (len body ≤ PIECE_WANT_MAX_BYTES)%N →
  (∀ p i, index_at ranges p = Some i → lacks l verified known have_top i) ∧
  ((length ranges < PIECE_WANT_MAX_RANGES)%nat →
     ∀ i, lacks l verified known have_top i → ∃ p, (p < job_total ranges)%N ∧ index_at ranges p = Some i) ∧
  ((∃ i, lacks l verified known have_top i) →
     (∃ i, index_at ranges 0 = Some i) ∧
     want_from_frame decode (want_to_frame encode (want_new by_ id ranges)) = Ok (want_new by_ id ranges) ∧
     pw_ranges (want_new by_ id ranges) = ranges).
Proof.
  intros Hl Hk Hcodec ranges Henc Hbody.
  assert (Hlay : l_top l = (l_count l + l_chunks l)%N ∧ (l_top l ≤ u32_max)%N).
  { unfold layout_for in Hl. destruct (_ <? _)%N; [done|]. destruct (N.leb_spec (c + chunk_count_for c) u32_max); [|done]. by injection Hl as <-. }
  destruct Hlay as [Htop Hu]. destruct (missing_prefix verified known have_top l) as (Ho & rest & Hm & Hrest). fold ranges in Ho, Hm, Hrest.
  pose proof (missing_pieces_spec l Htop Hu verified known have_top Hk) as Hspec.
  assert (Hlack : ∀ i, i ∈ ranges_pieces ranges → lacks l verified known have_top i) by (intros i Hi; apply Hspec; rewrite Hm; set_solver).
  assert (Hbound : ∀ i, lacks l verified known have_top i → (i ≤ u32_max)%N) by (unfold lacks; intros i; lia).
  assert (Hfit : ranges_fit ranges).
  { intros r Hr. split; [by apply Ho|]. apply Hbound, Hlack. unfold ranges_pieces. apply list_elem_of_join.
    exists (range_pieces r). split; [apply elem_of_range_pieces; [by apply Ho|]; specialize (Ho r Hr); lia|]. apply list_elem_of_fmap. eauto. }
  assert (Hlen : (length ranges ≤ PIECE_WANT_MAX_RANGES)%nat) by (unfold ranges, missing_ranges; rewrite length_take; lia).
  split_and!.
  - intros p i. rewrite index_at_spec by done. intros Hi. apply Hlack. by eapply list_elem_of_lookup_2.
  - intros Hlt i Hi%Hspec. rewrite Hm, (Hrest Hlt), app_nil_r in Hi. apply list_elem_of_lookup in Hi as [p Hp].
    exists (N.of_nat p). rewrite index_at_spec by done. rewrite Nat2N.id, job_total_spec. split; [|done].
    apply lookup_lt_Some in Hp. unfold len. lia.
  - intros [i Hi%Hspec]. assert (Hne : ranges_pieces ranges ≠ []).
    { intros He. apply ranges_pieces_nil in He as He'. rewrite He' in Hrest. specialize (Hrest ltac:(unfold PIECE_WANT_MAX_RANGES; cbn; lia)).
      rewrite Hm, He, Hrest in Hi. by apply elem_of_nil in Hi. }
    assert (Er : pw_ranges (want_new by_ id ranges) = ranges) by (cbn; by rewrite take_ge).
    split_and!; [|  |done].
    + rewrite index_at_spec by done. destruct (ranges_pieces ranges); [done|]. cbn. eauto.
    + unfold want_from_frame, want_to_frame. rewrite Henc. change (default [] (Some body)) with body. rewrite strip_tag. cbn [ok_or obind].
      destruct (N.ltb_spec PIECE_WANT_MAX_BYTES (len body)); [lia|]. rewrite (Hcodec _ _ Henc). cbn [ok_or obind].
      change (pw_v (want_new by_ id ranges)) with PIECE_WANT_V. rewrite N.eqb_refl. cbn [negb]. rewrite Er.
      destruct ranges as [|r rs] eqn:Ers; [done|]. rewrite <-Ers in *. cbn [orb].
      destruct (Nat.ltb_spec PIECE_WANT_MAX_RANGES (length ranges)); [lia|]. cbn [orb].
      rewrite (proj2 (existsb_false _ _)); [done|]. intros q Hq. apply N.ltb_ge. by apply Ho.
Qed.

(** ** The bitmap *)

Lemma byte_lor_bit (b : byte) (k : N) : (k < 8)%N →
  ∀ m, (m < 8)%N → N.testbit (Byte.to_N (byte_of (N.lor (Byte.to_N b) (2 ^ k)))) m = (k =? m)%N || N.testbit (Byte.to_N b) m.
Proof.
  intros Hk m Hm. rewrite byte_of_to_N. change 256%N with (2 ^ 8)%N. rewrite N.mod_pow2_bits_low by lia.
  rewrite N.lor_spec, N.pow2_bits_eqb, orb_comm. done.
Qed.

(** Marking a piece sets its bit and no other. *)
Lemma bitmap_mark_spec bits i j : bitmap_holds (bitmap_mark bits i) j = (i =? j)%N || bitmap_holds bits j.
Proof.
  unfold bitmap_mark, bitmap_holds. set (a := N.to_nat (i / 8)).
  set (grown := if (length bits <=? a)%nat then resize (a + 1) x00 bits else bits).
  assert (Hga : (a < length grown)%nat).
  { unfold grown. destruct (Nat.leb_spec (length bits) a); [rewrite length_resize; lia|done]. }
  assert (Hold : ∀ k, match grown !! k with Some b => N.testbit (Byte.to_N b) (j mod 8) | None => false end =
                      match bits !! k with Some b => N.testbit (Byte.to_N b) (j mod 8) | None => false end).
  { intros k. unfold grown. destruct (Nat.leb_spec (length bits) a) as [Hle|]; [|done].
    rewrite resize_ge by lia. destruct (decide (k < length bits)%nat) as [Hk|Hk]; [by rewrite lookup_app_l|].
    rewrite lookup_app_r by lia. rewrite (lookup_ge_None_2 bits) by lia.
    destruct (replicate _ _ !! _) as [b|] eqn:Eb; [|done]. apply lookup_replicate in Eb as [-> _]. change (Byte.to_N x00) with 0%N. by rewrite N.bits_0. }
  destruct (lookup_lt_is_Some_2 grown a Hga) as [b Hb]. rewrite Hb.
  assert (Hbit : ∀ (o : option byte), match o with Some b => negb (N.land (Byte.to_N b) (2 ^ (j mod 8)) =? 0)%N | None => false end =
    match o with Some b => N.testbit (Byte.to_N b) (j mod 8) | None => false end) by (intros [c|]; [apply land_bit_test|done]).
  rewrite !Hbit. pose proof (N.mod_upper_bound i 8 ltac:(lia)). pose proof (N.mod_upper_bound j 8 ltac:(lia)).
  pose proof (N.div_mod i 8 ltac:(lia)). pose proof (N.div_mod j 8 ltac:(lia)).
  destruct (decide (N.to_nat (j / 8) = a)) as [He|Hne].
  - rewrite He, list_lookup_insert_eq by done. rewrite byte_lor_bit by done. rewrite <-Hold, Hb.
    f_equal. unfold a in He. destruct (N.eqb_spec (i mod 8) (j mod 8)), (N.eqb_spec i j); try done; lia.
  - rewrite list_lookup_insert_ne by done. rewrite Hold. destruct (N.eqb_spec i j) as [->|]; [by destruct Hne|done].
Qed.

(** ** Range jobs and whole-series jobs *)

(** A tick with open gates whose piece is accepted. *)
Definition serve (day : N) (st : FileJobs * option string) : FileJobs * option string :=
  match pick_job (publish st.1) st.2 with
  | Some j => (advance (j_series j) day st.1, Some (j_series j))
  | None => st
  end.

(** A piece goes out, someone asks for one piece [b] stands for, a piece goes
    out. *)
Definition asked_round (day : N) (b : PublishJob) (st : FileJobs * option string) : FileJobs * option string :=
  let st := serve day st in
  serve day ((enqueue_publish st.1 b).1, st.2).

Section Starved.
Context (a c b : PublishJob) (day : N).
Context (Ha : is_whole a = true) (Hc : is_whole c = true) (Hb : is_whole b = false).
Context (Hab : j_series a ≠ j_series b) (Hcb : j_series c ≠ j_series b).
Context (Hcu : is_unfinished c = true) (Hb0 : j_next b = 0%N) (Hb1 : job_total (j_ranges b) = 1%N).

Abbreviation at_ n := (with_next n a).

Lemma round_advances n q last : (n + 1 < job_total (j_ranges a))%N → (n < u32_max)%N → publish q = [at_ n; c] →
  last = None ∨ last = Some (j_series b) →
  publish (asked_round day b (q, last)).1 = [at_ (n + 1); c] ∧ (asked_round day b (q, last)).2 = Some (j_series b).
Proof.
  intros Hn Hu Hq Hlast.
  assert (Hun : ∀ k, (k < job_total (j_ranges a))%N → is_unfinished (at_ k) = true) by (intros k Hk; by apply N.ltb_lt).
  assert (Hbu : is_unfinished b = true) by (unfold is_unfinished; by rewrite Hb0, Hb1).
  assert (Hwa : ∀ k, is_whole (at_ k) = true) by (intros k; exact Ha).
  assert (E1 : served_group [at_ n; c] = [at_ n; c]).
  { unfold served_group. rewrite !filter_cons_True, filter_nil by (done || apply Hun; lia). cbn [existsb]. by rewrite Hwa, Hc. }
  assert (E2 : pick_job [at_ n; c] last = Some (at_ n)).
  { unfold pick_job. rewrite E1. destruct Hlast as [->| ->]; [done|]. cbn [mbind option_bind position_of].
    rewrite !bool_decide_eq_false_2 by (cbn; congruence). done. }
  assert (E3 : publish (advance (j_series a) day q) = [at_ (n + 1); c]).
  { cbn [publish advance]. rewrite Hq. cbn [alter_job]. rewrite bool_decide_eq_true_2 by done.
    replace (with_next (u32_saturating_add (j_next (at_ n)) 1) (at_ n)) with (at_ (n + 1))
      by (unfold with_next, u32_saturating_add; cbn; f_equal; lia).
    by rewrite !filter_cons_True, filter_nil by (done || apply Hun; lia). }
  set (q1 := advance (j_series a) day q) in *.
  assert (S1 : serve day (q, last) = (q1, Some (j_series a))) by (unfold serve; cbn [fst snd]; by rewrite Hq, E2).
  assert (E4 : publish (enqueue_publish q1 b).1 = [at_ (n + 1); c; b]).
  { unfold enqueue_publish. rewrite E3. cbn [find]. rewrite !bool_decide_eq_false_2 by (done || cbn; congruence). done. }
  assert (E5 : pick_job [at_ (n + 1); c; b] (Some (j_series a)) = Some b).
  { assert (Eg : served_group [at_ (n + 1); c; b] = [b]).
    { unfold served_group. rewrite !filter_cons_True, filter_nil by (done || apply Hun; lia). cbn [existsb].
      rewrite Hwa, Hc, Hb. cbn [negb orb]. rewrite !filter_cons_False, filter_cons_True, filter_nil by (done || rewrite ?Hwa, ?Hc; done). done. }
    unfold pick_job. rewrite Eg. cbn [mbind option_bind position_of]. by rewrite bool_decide_eq_false_2 by congruence. }
  unfold asked_round. rewrite S1. cbn [fst snd]. unfold serve. cbn [fst snd]. rewrite E4, E5. split; [|done].
  cbn [fst publish advance]. rewrite E4. cbn [alter_job].
  rewrite !bool_decide_eq_false_2 by (done || cbn; congruence). rewrite bool_decide_eq_true_2 by done.
  rewrite !filter_cons_True by (done || apply Hun; lia). rewrite filter_cons_False, filter_nil; [done|].
  unfold is_unfinished. cbn [j_next j_ranges with_next]. rewrite Hb0, Hb1. done.
Qed.
End Starved.

(** Range jobs can starve a whole-series job.  Two whole series are queued,
    and between any two pieces someone asks for one piece of a third series:
    after each answer the turn restarts at the head of the queue, so after [n]
    rounds the first series has sent [n] pieces and the second none, for every
    [n] the first series has pieces for. *)
Theorem range_jobs_starve (a c b : PublishJob) (day : N) (q : FileJobs) (n : nat) :
  is_whole a = true → is_whole c = true → is_whole b = false →
  j_series a ≠ j_series b → j_series c ≠ j_series b →
  is_unfinished c = true → j_next b = 0%N → job_total (j_ranges b) = 1%N →
  (j_next a + N.of_nat n < job_total (j_ranges a))%N → (j_next a + N.of_nat n ≤ u32_max)%N →
  publish q = [a; c] →
  publish (Nat.iter n (asked_round day b) (q, None)).1 = [with_next (j_next a + N.of_nat n) a; c].
Proof.
  intros Ha Hc Hb Hab Hcb Hcu Hb0 Hb1 Hn Hu Hq.
  assert (Hgen : publish (Nat.iter n (asked_round day b) (q, None)).1 = [with_next (j_next a + N.of_nat n) a; c] ∧
    ((Nat.iter n (asked_round day b) (q, None)).2 = None ∨ (Nat.iter n (asked_round day b) (q, None)).2 = Some (j_series b)));
    [|by destruct Hgen].
  induction n as [|n IH].
  - cbn. rewrite N.add_0_r, Hq. split; [|by left]. by destruct a.
  - destruct IH as [IHq IHl]; [lia|lia|]. change (Nat.iter (S n) ?f ?x) with (f (Nat.iter n f x)).
    destruct (Nat.iter n (asked_round day b) (q, None)) as [q' last]. cbn [fst snd] in IHq, IHl.
    destruct (round_advances a c b day Ha Hc Hb Hab Hcb Hcu Hb0 Hb1 (j_next a + N.of_nat n) q' last) as [E1 E2]; [lia|lia|done|done|].
    rewrite E1, E2. split; [|by right]. do 2 f_equal. lia.
Qed.
