(* ===== verification/FilesRun.v ===== *)
(** * The file plane, run

    A small file shared, published, fetched and asked for again, by evaluation
    with [Demo]'s environment and a toy cipher: concrete inputs for the
    theorems of [FetchProps], [Rootless], [TrickleProps], [Share] and [Ask]. *)

From S2P Require Import Prelude Bytes Strs Env Demo Chunk Window Delivery FilePlane FilePlaneProps Fetch FetchInv FetchProps FetchLive Rootless Trickle TrickleProps Share Ask.
#[local] Open Scope string_scope.
#[local] Open Scope list_scope.

Module FilesRun.

(** ** A toy cipher *)

(** In the clear, with a tag of the key and the nonce; the bytes as they are
    for base64. *)
Definition tag (k n : bytes) : bytes := resize 16 x00 (Demo.digest (k ++ n)).

#[export] Instance demo_sealing : Sealing := {
  aead_encrypt := λ k n m, Some (m ++ tag k n);
  aead_decrypt := λ k n c,
    let m := take (length c - 16) c in
    if bool_decide (drop (length c - 16) c = tag k n) then Some m else None;
  hkdf_expand := λ k info, Demo.digest (k ++ info);
  base64_encode := String.string_of_list_byte;
  base64_decode := λ s, Some (as_bytes s);
}.

Lemma demo_sealing_faithful : sealing_faithful.
Proof.
  split; [|intros b; by rewrite <-(String.list_byte_of_string_of_list_byte b) at 2]. intros k n m c [= <-]. cbn.
  assert (Ht : length (tag k n) = 16%nat) by apply length_resize.
  assert (El : (length (m ++ tag k n) - 16 = length m)%nat) by (rewrite length_app; lia).
  rewrite El, take_app_length, drop_app_length, bool_decide_eq_true_2 by done.
  split; [done|]. rewrite len_app. unfold len at 2. rewrite Ht. done.
Qed.

Lemma demo_sha_width : sha_width.
Proof. intros b. apply length_le_bytes. Qed.

(** ** A share *)

Definition F : bytes := as_bytes "minutes of the first assembly".
Definition key : bytes := replicate 32 x2a.
Definition l : SeriesLayout := {| l_count := 1; l_chunks := 1; l_top := 2 |}.
Definition nonce : bytes := replicate 12 x05.

Definition reading (F : bytes) (o : N) : Reader :=
  match drop (N.to_nat o) F with [] => [] | b => [Some b] end.

(** A machine with the file at "minutes.txt", at a time, whose relay accepts
    or refuses. *)
Definition world (now : N) (accepts : bool) : World :=
  {| w_busy := false; w_now := now; w_file := λ p, if String.eqb p "minutes.txt" then Some (reading F) else None;
     w_stored := λ _ _, None; w_wiki_piece := λ _, None; w_vault_piece := λ _ _, None;
     w_vault_base_piece := λ _, None; w_nonce := Some nonce; w_accepts := accepts |}.

(** A job for a file that is gone. *)
Definition gone : PublishJob :=
  {| j_series := "gone"; j_key := key; j_path := "gone.txt"; j_count := 1; j_size := 3; j_root := "";
     j_ranges := whole_series_ranges l; j_next := 0; j_started_at := 0; j_stored := false;
     j_wiki_base := false; j_vault := None |}.

Definition idle : Sys :=
  {| y_jobs := {| publish := []; sent_day := 0; sent_bytes := 0 |}; y_group := None;
     y_sender := {| k_manifests := ∅; k_last := None |} |}.

Definition cap : N := 1000000.

(** Another job comes in, a relay refuses once, the budget is told. *)
Definition ticks : list TEvent :=
  [ETick (world 86400 true) [gone]; ETick (world 86410 true) []; ETick (world 86420 false) [];
   EBudget None; ETick (world 86430 true) []; ETick (world 86440 true) []; ETick (world 86450 true) []].

Definition shared : Sys :=
  {| y_jobs := (enqueue_publish (y_jobs idle) (share_job F key "minutes.txt" "m" l 5 0)).1;
     y_group := y_group idle; y_sender := y_sender idle |}.

Definition run : Sys * list (PublishJob * N * string) := sys_run cap ticks shared.

Definition disk : Disk := {| d_opens := true; d_fails_after := None; d_reads := λ _, true |}.

(** The frames that arrive: noise, the published ones, a forged slice under
    the right key, and one of them again. *)
Definition forged : string :=
  match seal_piece (Some nonce) key 0 1 (as_bytes "forged minutes of an assembly") with Ok c => c | _ => "" end.
Definition frames : list string :=
  "noise" :: forged :: sent_for "m" run.2.
Definition arrivals : list (N * Disk * Recv) := (λ c, (7%N, disk, Frame c)) <$> frames.

Definition rt : string := root (manifest_of F).
Definition by_root : SeriesExpect := {| e_count := 1; e_size := len F; e_root := Some rt; e_content := None |}.
Definition by_content : SeriesExpect :=
  {| e_count := 1; e_size := len F; e_root := None; e_content := Some (hex_encode (sha256 F)) |}.
Definition opts : FetchOpts := {| o_quiet := 10; o_ceiling := Some 1000%N; o_resumable := false |}.

(** ** Fetched *)

Lemma file_fits : fits F.
Proof. vm_compute. discriminate. Qed.

Lemma fetched_by_root : fetch_series_v2_with key by_root ([] : bytes) opts 1 arrivals 8 = Returned (Ok (manifest_of F, F)).
Proof. vm_compute. reflexivity. Qed.

Lemma fetched_by_content : fetch_series_v2_with key by_content ([] : bytes) opts 1 arrivals 8 = Returned (Ok (manifest_of F, F)).
Proof. vm_compute. reflexivity. Qed.

Lemma fetch_authentic_witness :
  length arrivals = 5%nat ∧ ((manifest_of F = manifest_of F ∧ F = F) ∨ collision).
Proof.
  split; [vm_compute; reflexivity|].
  refine (fetch_authentic F F key by_root opts 1 8 arrivals (manifest_of F) rt
    demo_sha_width demo_hex_faithful file_fits eq_refl eq_refl _ fetched_by_root).
  vm_compute. reflexivity.
Defined.

Lemma fetch_committed_witness : len F = e_size by_content ∧ hex_encode (sha256 F) = to_lowercase (hex_encode (sha256 F)).
Proof. exact (fetch_committed F key by_content opts 1 8 arrivals (manifest_of F) _ eq_refl eq_refl fetched_by_content). Defined.

(** Nothing arrives but a forged slice. *)
Lemma fetch_never_spins_witness :
  fetch_series_v2_with key by_content ([] : bytes) opts 1 [(7%N, disk, Frame forged)] 8 ≠ Spinning.
Proof. apply fetch_never_spins. vm_compute. reflexivity. Defined.

(** ** Published *)

Lemma reading_ok o : clean (reading F o) ∧ content (reading F o) = drop (N.to_nat o) F.
Proof.
  unfold reading. destruct (drop (N.to_nat o) F) as [|b r]; [by split; [constructor|]|]. split.
  - constructor; [|constructor]. eexists. split; [done|done].
  - unfold content. cbn. by rewrite app_nil_r.
Qed.

Lemma holds_world now accepts : holds_file F "minutes.txt" (world now accepts).
Proof. split; [exists (reading F); split; [done|apply reading_ok]|]. by intros n [= <-]. Qed.

Lemma ticks_leave_alone : Forall (leaves_alone F "minutes.txt" "m") ticks.
Proof.
  repeat constructor; cbn [queued_by]; try (apply holds_world);
    try (intros j Hj; apply list_elem_of_singleton in Hj as ->; done); try (by intros j Hj%elem_of_nil).
Qed.


(** A queue of three jobs, one of them a request. *)
Definition job (s : string) (ranges : list (N * N)) : PublishJob :=
  {| j_series := s; j_key := key; j_path := "minutes.txt"; j_count := 1; j_size := len F; j_root := rt;
     j_ranges := ranges; j_next := 0; j_started_at := 0; j_stored := false; j_wiki_base := false; j_vault := None |}.
Definition whole (s : string) : PublishJob := job s (whole_series_ranges l).
Definition request : PublishJob := job "asked" [(0, 0)]%N.

Lemma turn_is_fair_witness :
  (j_series <$> picks [whole "a"; whole "b"; whole "c"] 3 (Some "b")) = ["c"; "a"; "b"] ∧
  picks [whole "a"; whole "b"; whole "c"] 3 (Some "b") ≡ₚ served_group [whole "a"; whole "b"; whole "c"].
Proof.
  split; [vm_compute; reflexivity|]. apply (turn_is_fair [whole "a"; whole "b"; whole "c"] (Some "b")).
  apply (bool_decide_unpack _). vm_compute. exact I.
Defined.

Lemma queue_invariant_witness :
  length (publish (y_jobs (sys_run cap [EEnqueue (whole "a"); EEnqueue (whole "a"); EEnqueue request] idle).1)) = 2%nat ∧
  queue_ok (y_jobs (sys_run cap [EEnqueue (whole "a"); EEnqueue (whole "a"); EEnqueue request] idle).1).
Proof.
  split; [vm_compute; reflexivity|]. apply (queue_invariant cap).
  - constructor; cbn; [constructor|by intros j ?%elem_of_nil].
  - intros e j He Hj.
    repeat (apply elem_of_cons in He as [->|He]; [apply list_elem_of_singleton in Hj as ->; apply Nat.leb_le; vm_compute; reflexivity|]).
    by apply elem_of_nil in He.
Defined.

(** A cap of two pieces a day: the third waits for the next day. *)
Definition small_cap : N := 120000.
Lemma daily_cap_holds_witness :
  bytes_on 1 (sys_run small_cap ticks shared).2 = 117440%N ∧
  (bytes_on 1 (sys_run small_cap ticks shared).2 = 0%N ∨
   (counted 1 (y_jobs shared) + bytes_on 1 (sys_run small_cap ticks shared).2 ≤ small_cap)%N).
Proof.
  split; [vm_compute; reflexivity|]. apply (daily_cap_holds small_cap ticks shared 1).
  - vm_compute. reflexivity.
  - assert (E : tick_times ticks = [86400; 86410; 86420; 86430; 86440; 86450]%N) by (vm_compute; reflexivity).
    rewrite E. repeat constructor; intros Hc; discriminate Hc.
  - assert (E : sent_day (y_jobs shared) = 0%N) by (vm_compute; reflexivity). rewrite E. intros t _. apply N.le_0_l.
Defined.

(** Only the slice and the top record are missing. *)
Lemma ask_exact_witness :
  missing_ranges ∅ [true] false l = [(0, 0); (2, 2)]%N ∧
  (∀ p i, index_at (missing_ranges ∅ [true] false l) p = Some i → lacks l ∅ [true] false i).
Proof.
  split; [vm_compute; reflexivity|].
  refine (proj1 (ask_exact 1 l ∅ [true] false (λ w, if bool_decide (pw_by w = "me" ∧ pw_id w = "m" ∧ pw_v w = 1%N ∧ pw_ranges w = [(0, 0); (2, 2)]%N) then Some [x01] else None)
    (λ _, Some (want_new "me" "m" [(0, 0); (2, 2)]%N)) "me" "m" [x01] _ _ _ _ _)).
  - vm_compute. reflexivity.
  - reflexivity.
  - intros [v b i r] body. case_bool_decide as Hb; [|discriminate]. cbn in Hb. destruct Hb as (-> & -> & -> & ->). intros _. reflexivity.
  - vm_compute. reflexivity.
  - vm_compute. discriminate.
Defined.

Lemma range_jobs_starve_witness :
  publish (Nat.iter 2 (asked_round 1 request) ({| publish := [whole "a"; whole "c"]; sent_day := 1; sent_bytes := 0 |}, None)).1 =
  [with_next 2 (whole "a"); whole "c"].
Proof.
  refine (range_jobs_starve (whole "a") (whole "c") request 1 {| publish := [whole "a"; whole "c"]; sent_day := 1; sent_bytes := 0 |} 2 _ _ _ _ _ _ _ _ _ _ _);
    vm_compute; (reflexivity || discriminate).
Defined.
End FilesRun.
